(* ===== verification/_CoqProject ===== *)
-Q . S2P
Prelude.v
Errors.v
Varint.v
Wire.v
Messages.v
UmpReader.v
GoStrings.v
Headers.v
Url.v
Directives.v
ContextState.v
Assembler.v
Control.v
Request.v
Digest.v
Recovery.v
Checkpoint.v
Post.v
Downloader.v
Value.v
Runes.v
FilterNumber.v
Filter.v
FilterFacts.v
Decimal.v
Float64.v
Regex.v
SortSettings.v
SortOptions.v
Sorter.v
SorterValues.v
Selection.v
SelectionFacts.v
Ordering.v
SorterFacts.v
Selector.v
SelectorFacts.v
SelectorSyntax.v
Normalize.v
NormalizeFacts.v
PreparedTypes.v
Evaluate.v
EvaluateFacts.v
SelectionExamples.v
Output.v
PlanMetadata.v
MetadataSpec.v
MetadataFacts.v
Plan.v
PlanFacts.v
PlanExamples.v
FilePath.v
Disk.v
Persist.v
PersistFacts.v
Durable.v
Download.v
Committed.v
DownloadFacts.v
DownloadOpen.v
Resume.v
Delivery.v
FloatOrder.v
Sponsor.v
SponsorFacts.v
SponsorDecode.v
SponsorCut.v
SponsorCutFacts.v
SponsorMark.v
SponsorMarkFacts.v
SponsorPipeline.v
SponsorArrange.v
SponsorArrangeFacts.v
