(* ===== verification/Prelude.v ===== *)
(** * Verification of the SABR/UMP download engine, format selection and chapters

    The program is a Go port of a video downloader.  Three of its parts carry
    logic of their own that is independent of any site, and this library models
    them: the language in which a user says which formats of a video to
    download ([internal/format], over the metadata values of [engine/value]),
    the engine that downloads a track over YouTube's streaming protocol, and
    the chapters of SponsorBlock ([internal/sponsorblock]), by which segments
    of a media file are marked or cut out.

    The engine of [internal/protocol/youtubeump] downloads one track of a
    YouTube video over SABR, a protocol in which the client POSTs its playback
    state and the server answers with a stream of UMP parts (media, and
    directives that steer the next request).  It reads hostile bytes, writes a
    file, keeps resumable progress on disk, and decides where the next request
    goes.

    A format selector such as [bv*[height<=720]+ba/b] is parsed to a tree, its
    filters are compiled, and the tree is evaluated against the formats of a
    video, from worst to best, into outputs, each a list of tracks to merge;
    an output gets a label and a container.

    ** The parts, and the files that model them

    - [Prelude]: machine integers, bytes, results, record update, tactics and
      shared lemmas.  [Errors]: [errors.go], [bounds.go], [parts.go].
    - [Varint]: [varint.go], [integers.go].  [Wire]: [wire.go], the protobuf
      wire format, and its abstract messages (lists of fields).
    - [Messages]: the messages of [proto.go] and [validate.go].
    - [UmpReader]: [reader.go], the buffered part reader over a chunked
      [io.Reader]; the abstract framing is a function on plain bytes.
    - [GoStrings], [Url]: what the engine uses of [strings] and [net/url];
      [ValidateSABRURL], [requestURL] ([request.go]), redirect tracking
      ([context_state.go]).
    - [Directives]: [directives.go].  [ContextState]: the context state machine
      of [context_state.go], with its step relation and reachability.
    - [Assembler]: [assembler.go].  The [os.File], SHA-256 and the commit hook
      are interfaces (type classes with their laws).
    - [Control]: [control.go] and [consumeStreamState] of [downloader.go].
    - [Request]: [playbackRequest] of [proto.go] and the readers of its body.
    - [Digest], [Checkpoint]: [checkpoint.go], from the digest encoding to
      snapshot, validation, verification of the partial file and restore.
    - [Recovery]: [Config], [retry.go], [recovery.go].
    - [Post]: [newSABRRequest], [headers.go], [postOnce], [postRound].  The
      transport, the clock, the context and the callbacks are the class [Env].
    - [Downloader]: the round loop of [Download].
    - [FilePath]: [path/filepath] on Unix.  [Disk]: names, file nodes, system
      calls and stops, with a logic of disks ([wp]).  [Persist],
      [PersistFacts], [Durable]: the files of [checkpoint.go] and [output.go]
      on such a disk; [encoding/json] is the class [JsonCodec].
    - [Download], [Committed], [DownloadFacts], [DownloadOpen], [Delivery]: all
      of [Download], and what is on the disk at each of its moments.
    - [Value]: [engine/value], ordered objects with an index, and the typed
      values of a field.
    - [Runes]: what the selector code uses of [utf8] and [unicode]; the tables
      of the non-ASCII classes are the class [RuneTables].
    - [FilterNumber], [Filter], [FilterFacts]: [filter_number.go], [filter.go],
      [python_regex.go].  The regular-expression engine, its translator and its
      clock are the class [RegexEngine].
    - [Selector], [SelectorFacts], [SelectorSyntax]: [parser.go], [atoms.go],
      [extensions.go], [ast.go]; the parser as a state and error monad, its
      totality and limits by a weakest-precondition calculus, and the grammar
      with its printer.
    - [Evaluate], [EvaluateFacts], [SelectionExamples]: [eval.go] and
      [selector.go]; the denotation of a selector as a function on lists; a
      small catalogue on which the theorems are evaluated.
    - [Headers]: what the code uses of [net/http.Header].  [Decimal],
      [Float64], [Regex]: decimal texts, binary64 with its parser and printer,
      and the anchored fragment of RE2 that the tables use.
    - [SortSettings], [SortOptions]: [sorter_settings.go], [options.go].
      [Sorter], [SorterValues]: [sorter.go], [sorter_values.go].  [Ordering],
      [SorterFacts]: preorders, lexicographic order, the stable sorting, and
      that the keys of formats are compared by such an order.
    - [Normalize], [NormalizeFacts], [PreparedTypes]: [normalize.go].
    - [Selection], [SelectionFacts]: [select.go] and [objectSelection].
    - [Output]: [compatible_ext.go], [selection_extension.go],
      [default_policy.go], the labels of [ast.go], canonical atoms.
    - [PlanMetadata], [MetadataFacts]: [plan_metadata.go].  [Plan],
      [PlanFacts], [PlanExamples]: the planner of [eval.go] and [select.go],
      from metadata to output plans; a small page.

    - [FloatOrder]: the order of binary64 numbers with its tactic.  [Sponsor],
      [SponsorFacts]: [categories.go], [normalize.go], [title.go] of
      [internal/sponsorblock].  [SponsorDecode]: [decode.go] and the group of a
      video in [client.go]; the JSON tokens of a body are the class
      [JsonTokens].
    - [SponsorCut], [SponsorCutFacts]: [cut.go].  [SponsorMark],
      [SponsorMarkFacts]: [mark.go].  [SponsorPipeline]: from a response to
      marked chapters.  [SponsorArrange], [SponsorArrangeFacts]: [arrange.go].

    A Go struct is a record, [(T, error)] a [result], a map a [gmap], a
    pointer-mutated struct a state that is passed and returned; an error is the
    sentinel it wraps.  Definitions are executable: every witness evaluates
    them on concrete input.

    ** What the theorems show

    - Codecs: varints, messages, frames, directives and requests are decoded
      exactly when they are canonical encodings, and read back what was
      written; the reader's chunking is not observable.
    - Invariants: the assembler accounts for its file whatever the server
      sends; the context state keeps its bounds; both survive any response, any
      POST with its retries, and the whole download.
    - Checkpoints: accepted exactly when consistent; a snapshot restores to the
      same durable state; a checkpoint verified against the partial file
      restores to the invariant, whatever is on disk.
    - Durability: at every moment of a download, whatever fails, the
      destination is the file it was or the complete, synchronized track;
      a checkpoint is replaced atomically and read back; what survives a stop
      is resumed from; a track is reported complete only if it is; files stay
      below the output root; and on a disk that does not fail a completed track
      is published.
    - Safety: endpoints are validated, redirects are bounded and do not repeat,
      requests are isolated from the caller's credentials, refreshed material
      does not rebind a download, committed control state is bounded.
    - Termination: the download loop ends within its budgets for every server.
    - Selectors: every text is parsed to a well-formed tree within the limits
      or refused at a range of its bytes; what the grammar prints is parsed
      back; evaluation is its denotation, or stops at a limit; the outputs hold
      offered, available formats, with as many streams as allowed, and the
      availability callback is asked at most once per format.
    - Preparation and order: the canonical order is the one stable sorting by
      the keys of the formats; prepared formats are offered ones, well typed,
      under identifiers that a selector can name.
    - Plans: every track of a plan is an offered, unprotected format with its
      place, identifier and merged headers; hosts, fragment evidence and
      headers are validated; metadata are defined, with exact sums.
    - Values, filters and outputs: objects are ordered maps; the operators of a
      numeric filter read one order; labels are safe in a path and distinct for
      distinct outputs; a container respects the caller's preferences.
    - Chapters: a cut plan keeps exactly the instants that no chapter to remove
      contains; marked chapters tile the media and say of an instant what the
      response says; a decoded response is always accepted, up to a size; the
      arrangement ends, and its cuts cover exactly what is to be removed.
    - Five theorems show behaviour the code does not intend (a look-alike host,
      a header left open across recovery, a checkpoint refused while the first
      segment is open, a limit that holds per group instead of per plan, a cut
      that is not taken off its chapter).

    ** Fuel

    Loops that are not structural take fuel, with a lemma that it is enough:
    [Reader_ensure_loop] reads at most one byte per unit, [ParseAll_loop] and
    [consumeStream_loop] stop at part [MaxParts + 1], [Download_loop] has a
    measure ([budget]) that every iteration decreases.  The loops of the
    selector parser consume a byte per iteration and get one unit more than the
    text has bytes; groups nest at most [maxNestingDepth] deep, and the parser
    gets one level more: [selector_parse_total] shows that neither runs out.
    An iteration of the arrangement removes a chapter or moves a start to a
    later time of the input ([arrange_fuel]), and a decoded value takes two
    units per token ([walk_fuel]).

    ** The disk

    One process uses the disk.  A system call may fail (an oracle gives the
    failures, torn writes included), and the process or the machine may stop
    between any two changes of the disk: every state it goes through is in a
    trace, and the theorems speak of all of them.  After a stop the names are
    those of the moment, a synchronized file has its bytes, and of another one
    the prefix that was synchronized is left, with anything behind it.  Paths
    are names as the program spells them; directories are not tracked, and
    their own synchronization, which the code does not ask for, is assumed.
    Between two synchronizations the bytes of the open partial file are in its
    handle ([Download]).

    ** Not modelled

    Error texts and their redaction; the text of JSON, which checkpoints,
    markers and responses use through interfaces; the variant of
    [finalize_windows.go]; the JSON coding of values; the translator of regular
    expressions, which filters take as given; the legacy scoring of
    [selector.go] that the evaluator replaces; the request and the subtitles of
    SponsorBlock; the extractors, the engine, the command line and the other
    protocols of the repository. *)
From Stdlib Require Export ZArith Lia Strings.Byte Strings.String.
From stdpp Require Export base numbers list gmap sorting strings.

#[global] Open Scope Z_scope.

(** ** Machine integers

    Go's fixed-width integers are kept in [Z]; the wrap-around of each width is
    written where the source converts or computes at that width. *)

Definition wrapu (w z : Z) : Z := z mod 2 ^ w.
Definition wraps (w z : Z) : Z := (z + 2 ^ (w - 1)) mod 2 ^ w - 2 ^ (w - 1).

Definition u8 : Z -> Z := wrapu 8.
Definition u32 : Z -> Z := wrapu 32.
Definition u64 : Z -> Z := wrapu 64.
Definition i32 : Z -> Z := wraps 32.
Definition i64 : Z -> Z := wraps 64.

Definition MaxInt32 : Z := 2 ^ 31 - 1.
Definition MaxUint32 : Z := 2 ^ 32 - 1.
Definition MaxInt64 : Z := 2 ^ 63 - 1.
Definition MinInt64 : Z := - 2 ^ 63.

(** Range predicates of the widths, used as invariants of struct fields. *)
Definition is_u32 (z : Z) : Prop := 0 <= z <= MaxUint32.
Definition is_u64 (z : Z) : Prop := 0 <= z < 2 ^ 64.
Definition is_i32 (z : Z) : Prop := - 2 ^ 31 <= z <= MaxInt32.
Definition is_i64 (z : Z) : Prop := MinInt64 <= z <= MaxInt64.

(** ** Bytes

    A Go [byte] is [Byte.byte]; [[]byte] and [string] are both [bytes] (a Go
    string is an immutable byte sequence). *)

Abbreviation bytes := (list Byte.byte).

Definition b2z (b : Byte.byte) : Z := Z.of_N (Byte.to_N b).
Definition z2b (z : Z) : Byte.byte :=
  match Byte.of_N (Z.to_N (z mod 256)) with
  | Some b => b
  | None => Byte.x00
  end.

(** A string literal of the source as the bytes it denotes. *)
Definition lit (s : string) : bytes := String.list_byte_of_string s.

(** [int64(len(data))] *)
Definition zlen {A} (l : list A) : Z := Z.of_nat (length l).

#[global] Instance byte_eq_dec : EqDecision Byte.byte := Byte.byte_eq_dec.
#[global] Instance byte_countable : Countable Byte.byte :=
  inj_countable Byte.to_N Byte.of_N Byte.of_to_N.

(** ** Record update

    [r <| f := v |>] replaces field [f] of [r].  A record type provides its
    eta-expansion once ([Eta]); the updater of a projection is found from it. *)

Class Eta (R : Type) := eta_expand : R -> R.
Class Updater {R T : Type} (p : R -> T) := updater : (T -> T) -> R -> R.

Arguments updater {R T} p {_} f r /.

Ltac derive_updater p :=
  lazymatch type of p with
  | ?R -> ?T =>
      let inst := constr:(_ : Eta R) in
      let e := eval hnf in inst in
      lazymatch eval pattern p in e with
      | ?g _ => exact (fun (f : T -> T) => g (fun r => f (p r)))
      end
  end.

#[global] Hint Extern 0 (Updater ?p) => derive_updater p : typeclass_instances.

Declare Scope record_scope.
Delimit Scope record_scope with record.
Notation "r <| p := v |>" := (updater p (fun _ => v) r)
  (at level 1, left associativity, p at level 9, format "r  <| p  :=  v |>") : record_scope.
#[global] Open Scope record_scope.

(** ** Results

    A fallible Go function returning [(T, error)] is a [res T]: [Ok] when the
    error is nil, [Err] with the error otherwise. *)

Section Result.
Context {E : Type}.

Inductive result (A : Type) : Type :=
| Ok (a : A)
| Err (e : E).

End Result.
Arguments result E A : clear implicits.
Arguments Ok {E A} a.
Arguments Err {E A} e.

#[global] Instance result_ret {E} : MRet (result E) := fun A a => Ok a.
#[global] Instance result_bind {E} : MBind (result E) := fun A B f m =>
  match m with
  | Ok a => f a
  | Err e => Err e
  end.

(** A bare [error] return value: [None] is nil. *)
Definition check {E} (e : option E) : result E unit :=
  match e with
  | None => Ok tt
  | Some e => Err e
  end.

(** ** Automation *)

Create HintDb ump discriminated.

(** Case analysis on the innermost scrutinee of the goal or of a hypothesis. *)
Ltac case_goal :=
  match goal with
  | |- context [match ?x with _ => _ end] =>
      lazymatch x with
      | context [match _ with _ => _ end] => fail
      | _ => let E := fresh "E" in destruct x eqn:E
      end
  end.

Ltac case_in H :=
  match type of H with
  | context [match ?x with _ => _ end] =>
      lazymatch x with
      | context [match _ with _ => _ end] => fail
      | _ => let E := fresh "E" in destruct x eqn:E
      end
  end.

(** Boolean comparisons of [Z] and [nat] to their propositions. *)
Ltac reflect_bools :=
  repeat match goal with
  | H : (_ =? _)%Z = true |- _ => apply Z.eqb_eq in H
  | H : (_ =? _)%Z = false |- _ => apply Z.eqb_neq in H
  | H : (_ <? _)%Z = true |- _ => apply Z.ltb_lt in H
  | H : (_ <? _)%Z = false |- _ => apply Z.ltb_ge in H
  | H : (_ <=? _)%Z = true |- _ => apply Z.leb_le in H
  | H : (_ <=? _)%Z = false |- _ => apply Z.leb_gt in H
  | H : (_ >? _)%Z = _ |- _ => rewrite Z.gtb_ltb in H
  | H : (_ >=? _)%Z = _ |- _ => rewrite Z.geb_leb in H
  | H : (_ =? _)%nat = true |- _ => apply Nat.eqb_eq in H
  | H : (_ =? _)%nat = false |- _ => apply Nat.eqb_neq in H
  | H : (_ <? _)%nat = true |- _ => apply Nat.ltb_lt in H
  | H : (_ <? _)%nat = false |- _ => apply Nat.ltb_ge in H
  | H : (_ <=? _)%nat = true |- _ => apply Nat.leb_le in H
  | H : (_ <=? _)%nat = false |- _ => apply Nat.leb_gt in H
  | H : _ && _ = true |- _ => apply andb_true_iff in H; destruct H
  | H : _ || _ = false |- _ => apply orb_false_iff in H; destruct H
  | H : negb _ = true |- _ => apply negb_true_iff in H
  | H : negb _ = false |- _ => apply negb_false_iff in H
  | H : bool_decide _ = true |- _ => apply bool_decide_eq_true in H
  | H : bool_decide _ = false |- _ => apply bool_decide_eq_false in H
  end.

(** Unfold the width predicates and solve the arithmetic. *)
Ltac width_lia :=
  unfold is_u32, is_u64, is_i32, is_i64, MaxInt32, MaxUint32, MaxInt64, MinInt64 in *; lia.

(** A conjunction of closed arithmetic facts, by evaluation. *)
Ltac ground := repeat split; vm_compute; (reflexivity || discriminate).

(** A decidable closed statement, by evaluation of its decision. *)
Ltac decided := apply (bool_decide_unpack _); vm_compute; exact I.

(** Evaluate the literal powers of two. *)
Ltac norm_pow2 :=
  repeat match goal with
  | |- context [2 ^ Zpos ?k] =>
      let c := eval vm_compute in (2 ^ Zpos k) in change (2 ^ Zpos k) with c
  | H : context [2 ^ Zpos ?k] |- _ =>
      let c := eval vm_compute in (2 ^ Zpos k) in change (2 ^ Zpos k) with c in H
  end.

(** [lia] with the defining equations of division and remainder. *)
Ltac divmod_lia := norm_pow2; Z.div_mod_to_equations; lia.

(** ** Lemmas on machine integers *)

Lemma wrapu_range w z : 0 <= w -> 0 <= wrapu w z < 2 ^ w.
Proof. intros ?. apply Z.mod_pos_bound. apply Z.pow_pos_nonneg; lia. Qed.

Lemma wrapu_small w z : 0 <= z < 2 ^ w -> wrapu w z = z.
Proof. apply Z.mod_small. Qed.

Lemma wraps_small w z : 0 < w -> - 2 ^ (w - 1) <= z < 2 ^ (w - 1) -> wraps w z = z.
Proof.
  intros Hw Hz. unfold wraps.
  assert (2 ^ w = 2 * 2 ^ (w - 1)) as Hp.
  { replace w with (Z.succ (w - 1)) at 1 by lia. rewrite Z.pow_succ_r; lia. }
  rewrite Z.mod_small; lia.
Qed.

Lemma u64_small z : is_u64 z -> u64 z = z.
Proof. apply wrapu_small. Qed.

Lemma u64_range z : is_u64 (u64 z).
Proof. apply wrapu_range. lia. Qed.

Lemma i64_small z : is_i64 z -> i64 z = z.
Proof. intros [??]. unfold MinInt64, MaxInt64 in *. apply wraps_small; simpl; lia. Qed.

Lemma wraps_range w z : 0 < w -> - 2 ^ (w - 1) <= wraps w z < 2 ^ (w - 1).
Proof.
  intros Hw. unfold wraps.
  assert (2 ^ w = 2 * 2 ^ (w - 1)) as Hp.
  { replace w with (Z.succ (w - 1)) at 1 by lia. rewrite Z.pow_succ_r; lia. }
  pose proof (Z.mod_pos_bound (z + 2 ^ (w - 1)) (2 ^ w)) as Hm.
  assert (0 < 2 ^ (w - 1)) by (apply Z.pow_pos_nonneg; lia). lia.
Qed.

Lemma i32_range z : is_i32 (i32 z).
Proof. pose proof (wraps_range 32 z ltac:(lia)). unfold is_i32, i32, MaxInt32. simpl Z.sub in *. lia. Qed.

Lemma i32_small z : is_i32 z -> i32 z = z.
Proof. intros [??]. unfold MaxInt32 in *. apply wraps_small; simpl; lia. Qed.

(** Numbers below [2^k] and multiples of [2^k] share no bit. *)
Lemma land_shiftl_disjoint a b k :
  0 <= k -> 0 <= a < 2 ^ k -> Z.land a (Z.shiftl b k) = 0.
Proof.
  intros Hk Ha. apply Z.bits_inj'. intros n Hn.
  rewrite Z.land_spec, Z.bits_0, Z.shiftl_spec by lia.
  destruct (Z.lt_ge_cases n k).
  - rewrite (Z.testbit_neg_r b) by lia. apply andb_false_r.
  - rewrite <- (Z.mod_small a (2 ^ k)) by lia.
    by rewrite Z.mod_pow2_bits_high by lia.
Qed.

(** [a | b << k] adds when [a] fits below bit [k]. *)
Lemma lor_shiftl_add a b k :
  0 <= k -> 0 <= a < 2 ^ k -> Z.lor a (Z.shiftl b k) = a + b * 2 ^ k.
Proof.
  intros Hk Ha. rewrite <- Z.shiftl_mul_pow2 by lia.
  pose proof (land_shiftl_disjoint a b k Hk Ha) as Hd.
  rewrite Z.add_nocarry_lxor by done. symmetry. by apply Z.lxor_lor.
Qed.

(** A low mask is a remainder. *)
Lemma land_mask v k m : 0 <= k -> m = 2 ^ k - 1 -> Z.land v m = v mod 2 ^ k.
Proof. intros ? ->. rewrite <- Z.land_ones by lia. f_equal. rewrite Z.ones_equiv. lia. Qed.

(** ** Lemmas on bytes *)

Lemma b2z_range b : 0 <= b2z b < 256.
Proof.
  unfold b2z. pose proof (Byte.to_N_bounded b). lia.
Qed.
#[export] Hint Resolve b2z_range : ump.

Lemma b2z_z2b z : b2z (z2b z) = z mod 256.
Proof.
  unfold b2z, z2b. pose proof (Z.mod_pos_bound z 256 ltac:(lia)) as Hb.
  destruct (Byte.of_N (Z.to_N (z mod 256))) as [b|] eqn:E.
  - apply Byte.to_of_N in E. rewrite E. lia.
  - apply Byte.of_N_None_iff in E. lia.
Qed.

Lemma z2b_b2z b : z2b (b2z b) = b.
Proof.
  unfold z2b. rewrite Z.mod_small by apply b2z_range.
  unfold b2z. rewrite N2Z.id. by rewrite Byte.of_to_N.
Qed.

Lemma b2z_inj b1 b2 : b2z b1 = b2z b2 -> b1 = b2.
Proof. intros H. rewrite <- (z2b_b2z b1), <- (z2b_b2z b2). by rewrite H. Qed.

Lemma z2b_eq z b : z2b z = b <-> z mod 256 = b2z b.
Proof.
  split; [intros <-; by rewrite b2z_z2b|].
  intros H. apply b2z_inj. by rewrite b2z_z2b.
Qed.

(** ** Lemmas on lists *)

Lemma zlen_app {A} (l1 l2 : list A) : zlen (l1 ++ l2) = zlen l1 + zlen l2.
Proof. unfold zlen. rewrite length_app. lia. Qed.

Lemma zlen_nonneg {A} (l : list A) : 0 <= zlen l.
Proof. unfold zlen. lia. Qed.
#[export] Hint Resolve zlen_nonneg : ump.

Lemma zlen_0_nil {A} (l : list A) : zlen l = 0 <-> l = [].
Proof. unfold zlen. destruct l; simpl; split; (done || lia). Qed.

Lemma take_app_exact {A} n (l1 l2 : list A) : n = length l1 -> take n (l1 ++ l2) = l1.
Proof. intros ->. apply take_app_length. Qed.

Lemma drop_app_exact {A} n (l1 l2 : list A) : n = length l1 -> drop n (l1 ++ l2) = l2.
Proof. intros ->. apply drop_app_length. Qed.

(** ** Lemmas on results *)

Lemma bind_Ok_inv {E A B} (m : result E A) (f : A -> result E B) b :
  m ≫= f = Ok b -> exists a, m = Ok a /\ f a = Ok b.
Proof. destruct m; simpl; [eauto|done]. Qed.

Lemma bind_Ok_iff {E A B} (m : result E A) (f : A -> result E B) b :
  m ≫= f = Ok b <-> exists a, m = Ok a /\ f a = Ok b.
Proof. split; [apply bind_Ok_inv|]. intros (a & -> & ?). done. Qed.

(** The value of a result that succeeds; a closed computation is shown to
    succeed without writing out its value. *)
Definition is_Ok {E A} (r : result E A) : bool := match r with Ok _ => true | Err _ => false end.
Definition from_Ok {E A} (d : A) (r : result E A) : A := match r with Ok a => a | Err _ => d end.

Lemma from_Ok_eq {E A} (d : A) (r : result E A) : is_Ok r = true -> r = Ok (from_Ok d r).
Proof. by destruct r. Qed.

Lemma Ok_inj {E A} (a b : A) : Ok (E := E) a = Ok b -> a = b.
Proof. by intros [=]. Qed.

Lemma check_Ok {E} (e : option E) u : check e = Ok u <-> e = None.
Proof. destruct e, u; simpl; split; congruence. Qed.
