(* ===== verification/Errors.v ===== *)
(** * Errors and bounds of the SABR/UMP engine

    [errors.go], [bounds.go] and [parts.go] of [internal/protocol/youtubeump].

    An error is modelled by the sentinel it wraps, which is what [errors.Is]
    and [errors.As] observe and what the callers branch on; the human-readable
    text a [fmt.Errorf] adds around the sentinel is not modelled. *)
From S2P Require Import Prelude.

Inductive go_error : Type :=
| ErrMalformedFraming
| ErrTruncatedStream
| ErrNonCanonicalVarint
| ErrVarintOverflow
| ErrUnsafeDestination
| ErrDestinationExists
| ErrOversizedPart
| ErrTooManyParts
| ErrTooManyActiveHeaders
| ErrUnsupportedDirective
| ErrInvalidMediaState
| ErrInvalidProtobuf
| ErrUnsupportedURL
| ErrInvalidContentType
| ErrResponseTooLarge
| ErrLiveUnsupported
| ErrResumeUnsupported
| ErrCheckpointInvalid
| ErrMissingConfig
| ErrDownloadFailed
| ErrRedirect
| ErrUnsafeRedirect
| ErrRedirectLoop
| ErrRedirectBudget
| ErrInvalidContextState
| ErrEventSink
| ErrTooManyAttempts
| ErrRoundsExhausted
| ErrExcessivePolicyBackoff
| ErrSabrError
| ErrReloadPlayerResponse
| ErrSabrRecoveryBudget
| ErrReloadBudget
| ErrRefreshBudget
| ErrReloadRejected
| ErrRefreshRejected
(** [*SabrErrorSignal], which unwraps to [ErrSabrError] *)
| SabrErrorSignal (Type_ : bytes) (Code : Z)
(** [*ReloadPlayerSignal], which unwraps to [ErrReloadPlayerResponse] *)
| ReloadPlayerSignal (token : bytes)
(** [io.EOF], [io.ErrShortWrite] and errors of the operating system or of a
    callback, told apart by a number *)
| io_EOF
| io_ErrShortWrite
| ErrOther (n : nat).

#[export] Instance go_error_eq_dec : EqDecision go_error.
Proof. solve_decision. Defined.

Abbreviation res := (result go_error).

(** The errors the download loop recovers from ([errors.As] with the two signal
    types). *)
Definition recovery_signal (e : go_error) : bool :=
  match e with
  | SabrErrorSignal _ _ | ReloadPlayerSignal _ => true
  | _ => false
  end.

(** A failure the download does not recover from. *)
Definition fatal (err : option go_error) : Prop := exists e, err = Some e /\ recovery_signal e = false.

(** ** [bounds.go] *)

Definition MaxResponseBytes : Z := Z.shiftl 8 30.
Definition MaxRoundBytes : Z := Z.shiftl 64 20.
Definition MaxParts : Z := 10000.
Definition MaxActiveHeaders : Z := 8.
Definition MaxPartPayload : Z := MaxRoundBytes.
Definition MaxMediaBytes : Z := MaxResponseBytes.
Definition MaxRounds : Z := 64.
Definition MaxProtobufFieldBytes : Z := Z.shiftl 16 20.
Definition MaxProtobufFields : nat := 256.
Definition MaxPlaybackCookieBytes : Z := 4096.
Definition MaxPolicyBackoffMs : Z := 30000.
Definition MaxSabrContexts : Z := 64.
Definition MaxSabrContextValueBytes : Z := Z.shiftl 16 10.
Definition MaxSabrContextValueBytesTotal : Z := Z.shiftl 256 10.
Definition MaxSabrContextPolicyOps : Z := 192.
Definition MaxRedirectURLBytes : Z := 4096.
Definition MaxDirectiveRedirects : Z := 8.
Definition MaxSabrErrorTypeBytes : Z := 256.
Definition MaxReloadTokenBytes : Z := 4096.
Definition MaxSabrErrorRecoveries : Z := 3.
Definition MaxReloadAttempts : Z := 2.
Definition MaxSabrRefreshAttempts : Z := 2.

(** ** [parts.go] *)

Definition PartMediaHeader : Z := 20.
Definition PartMedia : Z := 21.
Definition PartMediaEnd : Z := 22.
Definition PartNextRequestPolicy : Z := 35.
Definition PartFormatInitializationMetadata : Z := 42.
Definition PartSABRRedirect : Z := 43.
Definition PartSABRError : Z := 44.
Definition PartReloadPlayerResponse : Z := 46.
Definition PartLiveMetadata : Z := 31.
Definition PartSABRContextUpdate : Z := 57.
Definition PartStreamProtectionStatus : Z := 58.
Definition PartSABRContextSendingPolicy : Z := 59.
Definition PartEndOfTrack : Z := 62.

Definition isBenignSkippedPart (partType : Z) : bool := false.

Definition isHandledPart (partType : Z) : bool :=
  if existsb (Z.eqb partType)
       [PartMediaHeader; PartMedia; PartMediaEnd; PartFormatInitializationMetadata;
        PartNextRequestPolicy; PartEndOfTrack;
        PartSABRRedirect; PartSABRContextUpdate; PartSABRContextSendingPolicy;
        PartSABRError; PartReloadPlayerResponse]
  then true
  else isBenignSkippedPart partType.

Definition isCriticalUnsupportedPart (partType : Z) : bool :=
  if existsb (Z.eqb partType) [PartLiveMetadata; PartStreamProtectionStatus]
  then true
  else negb (isHandledPart partType).
