(* ===== verification/Varint.v ===== *)
(** * UMP variable-length integers and width conversions

    [varint.go] and the conversions of [integers.go] of
    [internal/protocol/youtubeump].  The decoder reads little-endian prefix
    varints of one to five bytes and accepts only the canonical encoding. *)
From S2P Require Import Prelude Errors.

(** ** Definitions *)

Fixpoint umpVarintSize_loop (prefix : Z) (bits : list Z) (size : nat) : nat :=
  match bits with
  | [] => size
  | i :: bits' =>
      if Z.land prefix (Z.shiftl 1 i) =? 0 then size
      else umpVarintSize_loop prefix bits' (S size)
  end.

Definition umpVarintSize (prefix : Byte.byte) : nat :=
  let size := umpVarintSize_loop (b2z prefix) [7; 6; 5; 4; 3; 2; 1] 1 in
  if (5 <? size)%nat then 5%nat else size.

Definition encodeUMPVarint (value : Z) : bytes * nat :=
  if value <=? 0x7F then ([z2b value], 1%nat)
  else if value <=? 0x3FFF then
    ([z2b (Z.lor 0x80 (Z.land value 0x3F)); z2b (Z.shiftr value 6)], 2%nat)
  else if value <=? 0x1FFFFF then
    ([z2b (Z.lor 0xC0 (Z.land value 0x1F)); z2b (Z.land (Z.shiftr value 5) 0xFF);
      z2b (Z.shiftr value 13)], 3%nat)
  else if value <=? 0x0FFFFFFF then
    ([z2b (Z.lor 0xE0 (Z.land value 0x0F)); z2b (Z.land (Z.shiftr value 4) 0xFF);
      z2b (Z.land (Z.shiftr value 12) 0xFF); z2b (Z.shiftr value 20)], 4%nat)
  else
    ([Byte.xf0; z2b value; z2b (Z.shiftr value 8); z2b (Z.shiftr value 16);
      z2b (Z.shiftr value 24)], 5%nat).

(** The loop [for i := 1; i < size; i++] over [data[1:size]]. *)
Fixpoint readUMPVarint_loop (rest : bytes) (value shift : Z) : Z :=
  match rest with
  | [] => value
  | b :: rest' =>
      readUMPVarint_loop rest' (Z.lor value (u64 (Z.shiftl (b2z b) shift))) (shift + 8)
  end.

(** [data[i]]; every use follows the length test of its caller. *)
Definition byte_at (data : bytes) (i : nat) : Z := b2z (nth i data Byte.x00).

(** The value of the first [size] bytes before the canonicity check: the two
    branches on [size == 5] of [readUMPVarint]. *)
Definition readUMPVarint_value (data : bytes) (size : nat) : Z :=
  if (size =? 5)%nat then
    Z.lor (Z.lor (Z.lor (byte_at data 1) (Z.shiftl (byte_at data 2) 8))
             (Z.shiftl (byte_at data 3) 16)) (Z.shiftl (byte_at data 4) 24)
  else
    let mask := Z.shiftl 1 (8 - Z.of_nat size) - 1 in
    readUMPVarint_loop (take (size - 1) (drop 1 data))
      (Z.land (byte_at data 0) mask) (8 - Z.of_nat size).

Definition readUMPVarint (data : bytes) : res (Z * nat) :=
  match data with
  | [] => Err ErrTruncatedStream
  | prefix :: _ =>
      let size := umpVarintSize prefix in
      if (length data <? size)%nat then Err ErrTruncatedStream
      else if (size =? 5)%nat && negb (Z.land (b2z prefix) 0x07 =? 0)
      then Err ErrNonCanonicalVarint
      else
        let value := readUMPVarint_value data size in
        let '(encoded, encSize) := encodeUMPVarint value in
        if negb (encSize =? size)%nat then Err ErrNonCanonicalVarint
        else if bool_decide (take size data = take size encoded)
        then Ok (value, size)
        else Err ErrNonCanonicalVarint
  end.

(** ** Width conversions of [integers.go] *)

Definition int32FromUint64 (value : Z) : res Z :=
  if value >? MaxInt32 then Err ErrVarintOverflow else Ok (i32 value).

Definition int64FromUint64 (value : Z) : res Z :=
  if value >? MaxInt64 then Err ErrVarintOverflow else Ok (i64 value).

Definition uint32FromUint64 (value : Z) : res Z :=
  if value >? MaxUint32 then Err ErrVarintOverflow else Ok (u32 value).

Definition int32SegmentIndex (sequence : Z) : res Z :=
  if sequence >? MaxInt32 then Err ErrVarintOverflow else Ok (i32 sequence).

Definition expectedDurationMs (durationSec : Z) : res Z :=
  if (durationSec <=? 0) || (durationSec >? Z.quot MaxInt64 1000) then Err ErrMissingConfig
  else Ok (i64 (durationSec * 1000)).

(** ** Lemmas *)

Lemma umpVarintSize_spec b :
  umpVarintSize b =
    if b2z b <? 128 then 1%nat else if b2z b <? 192 then 2%nat
    else if b2z b <? 224 then 3%nat else if b2z b <? 240 then 4%nat else 5%nat.
Proof. destruct b; vm_compute; reflexivity. Qed.

Lemma umpVarintSize_range b : (1 <= umpVarintSize b <= 5)%nat.
Proof. rewrite umpVarintSize_spec. repeat case_match; lia. Qed.

Lemma length_encodeUMPVarint v : length (encodeUMPVarint v).1 = (encodeUMPVarint v).2.
Proof. unfold encodeUMPVarint. repeat case_match; done. Qed.

Lemma encodeUMPVarint_size v : (1 <= (encodeUMPVarint v).2 <= 5)%nat.
Proof. unfold encodeUMPVarint. repeat case_match; simpl; lia. Qed.

(** The decoded value of [size] bytes, as an arithmetic expression. *)
Lemma readUMPVarint_loop_add rest v s :
  0 <= s -> 0 <= v < 2 ^ s -> s + 8 * zlen rest <= 64 ->
  readUMPVarint_loop rest v s =
    fst (fold_left (fun '(a, k) b => (a + b2z b * 2 ^ k, k + 8)) rest (v, s)).
Proof.
  revert v s. induction rest as [|b rest IH]; intros v s Hs Hv Hl; [done|].
  unfold zlen in *. simpl length in Hl. pose proof (b2z_range b).
  assert (2 ^ (s + 8) = 2 ^ s * 256) as Hp by (by rewrite Z.pow_add_r by lia).
  assert (2 ^ (s + 8) <= 2 ^ 64) by (apply Z.pow_le_mono_r; lia).
  cbn [readUMPVarint_loop fold_left].
  rewrite u64_small by (rewrite Z.shiftl_mul_pow2 by lia; split; nia).
  rewrite lor_shiftl_add by lia. apply IH; [lia|nia|lia].
Qed.

Lemma readUMPVarint_value_range data size :
  (1 <= size <= 5)%nat -> 0 <= readUMPVarint_value data size < 2 ^ 32.
Proof.
  intros Hs. unfold readUMPVarint_value. case_match; reflect_bools.
  - pose proof (b2z_range (nth 1 data x00)). pose proof (b2z_range (nth 2 data x00)).
    pose proof (b2z_range (nth 3 data x00)). pose proof (b2z_range (nth 4 data x00)).
    unfold byte_at. rewrite (lor_shiftl_add _ _ 8) by lia.
    rewrite (lor_shiftl_add _ _ 16) by lia. rewrite (lor_shiftl_add _ _ 24) by lia. lia.
  - assert (Z.shiftl 1 (8 - Z.of_nat size) - 1 = 2 ^ (8 - Z.of_nat size) - 1) as Hm
      by (rewrite Z.shiftl_mul_pow2; lia).
    cbv zeta. rewrite (land_mask _ (8 - Z.of_nat size)) by (exact Hm || lia).
    pose proof (Z.mod_pos_bound (byte_at data 0) (2 ^ (8 - Z.of_nat size)) ltac:(apply Z.pow_pos_nonneg; lia)).
    assert (length (take (size - 1) (drop 1 data)) <= size - 1)%nat as Hl
      by (rewrite length_take; lia).
    rewrite readUMPVarint_loop_add by (unfold zlen; lia).
    remember (take (size - 1) (drop 1 data)) as l eqn:El. clear El.
    remember (byte_at data 0 mod 2 ^ (8 - Z.of_nat size)) as p eqn:Ep. clear Ep.
    assert (size = 1 \/ size = 2 \/ size = 3 \/ size = 4)%nat as Hc by lia.
    destruct Hc as [->|[->|[->| ->]]]; simpl in *;
      destruct l as [|b1 [|b2 [|b3 [|]]]]; simpl in *; try lia;
      try pose proof (b2z_range b1); try pose proof (b2z_range b2);
      try pose proof (b2z_range b3); lia.
Qed.

(** Every accepted input starts with the canonical encoding of its value. *)
Lemma readUMPVarint_Ok data v n :
  readUMPVarint data = Ok (v, n) ->
  0 <= v < 2 ^ 32 /\ (encodeUMPVarint v).2 = n /\ data = (encodeUMPVarint v).1 ++ drop n data.
Proof.
  unfold readUMPVarint. intros H. destruct data as [|p data]; [done|].
  pose proof (umpVarintSize_range p) as Hs.
  destruct (length (p :: data) <? umpVarintSize p)%nat eqn:El; [done|].
  case_match; [done|]. cbv zeta in H.
  pose proof (readUMPVarint_value_range (p :: data) _ Hs) as Hv.
  destruct (encodeUMPVarint _) as [enc sz] eqn:Ee.
  pose proof (length_encodeUMPVarint (readUMPVarint_value (p :: data) (umpVarintSize p))) as Hle.
  rewrite Ee in Hle. simpl in Hle.
  destruct (sz =? umpVarintSize p)%nat eqn:Es; [|done]. simpl in H.
  case_bool_decide as Ht; [|done]. injection H as <- <-. reflect_bools. subst sz.
  rewrite Ee. split_and!; [lia|lia|done|]. simpl fst.
  rewrite <- (take_drop (umpVarintSize p) (p :: data)) at 1. f_equal.
  rewrite Ht. apply take_ge. lia.
Qed.

Lemma z2b_small z : 0 <= z < 256 -> b2z (z2b z) = z.
Proof. intros. rewrite b2z_z2b. by apply Z.mod_small. Qed.

Ltac byte_values :=
  rewrite ?b2z_z2b, ?Z.shiftr_div_pow2, ?(land_mask _ 8 0xFF), ?(land_mask _ 6 0x3F),
    ?(land_mask _ 5 0x1F), ?(land_mask _ 4 0x0F) by (reflexivity || lia).

(** [0x80 | (v & 0x3F)] and its siblings: the tag bits lie above the mask. *)
Lemma tag_or tag m k :
  0 <= k -> 0 <= m < 2 ^ k -> tag mod 2 ^ k = 0 -> Z.lor tag m = tag + m.
Proof.
  intros Hk Hm Ht. rewrite Z.lor_comm.
  replace tag with (Z.shiftl (tag / 2 ^ k) k) at 1
    by (rewrite Z.shiftl_mul_pow2 by lia; pose proof (Z.div_mod tag (2 ^ k) ltac:(lia)); lia).
  rewrite lor_shiftl_add by lia.
  pose proof (Z.div_mod tag (2 ^ k) ltac:(lia)). lia.
Qed.

Lemma encodeUMPVarint_prefix v rest :
  0 <= v < 2 ^ 32 ->
  exists p tl, (encodeUMPVarint v).1 ++ rest = p :: tl /\
    umpVarintSize p = (encodeUMPVarint v).2 /\
    ((encodeUMPVarint v).2 = 5%nat -> Z.land (b2z p) 0x07 = 0).
Proof.
  intros Hv. unfold encodeUMPVarint.
  repeat case_match; reflect_bools; simpl; eexists _, _; (split; [reflexivity|]);
    (split; [|intros ?; (done || lia)]);
    rewrite umpVarintSize_spec; byte_values;
    rewrite ?(tag_or 0x80 _ 6), ?(tag_or 0xC0 _ 5), ?(tag_or 0xE0 _ 4)
      by (reflexivity || (apply Z.mod_pos_bound; reflexivity) || lia);
    change (b2z Byte.xf0) with 240; repeat case_match; reflect_bools; (done || divmod_lia).
Qed.

(** The payload bits of a tagged prefix byte. *)
Lemma prefix_payload tag v k m :
  0 <= k <= 7 -> m = 2 ^ k - 1 -> 0 <= tag <= 256 - 2 ^ k -> tag mod 2 ^ k = 0 ->
  Z.land (b2z (z2b (Z.lor tag (Z.land v m)))) m = v mod 2 ^ k.
Proof.
  intros Hk Hm Ht Hd. assert (0 < 2 ^ k) by (apply Z.pow_pos_nonneg; lia).
  rewrite !(land_mask _ k m) by lia.
  pose proof (Z.mod_pos_bound v (2 ^ k) ltac:(lia)).
  rewrite (tag_or _ _ k) by lia. rewrite b2z_z2b, (Z.mod_small _ 256) by lia.
  rewrite Z.add_mod, Hd, Z.add_0_l, !Z.mod_mod; lia.
Qed.

(** Shifts of single bytes stay within 64 bits. *)
Lemma u64_byte_shift b k : 0 <= k <= 56 -> u64 (Z.shiftl (b2z b) k) = Z.shiftl (b2z b) k.
Proof.
  intros Hk. pose proof (b2z_range b). apply u64_small.
  rewrite Z.shiftl_mul_pow2 by lia.
  assert (0 < 2 ^ k) by (apply Z.pow_pos_nonneg; lia).
  assert (2 ^ k * 2 ^ 8 <= 2 ^ 64) by (rewrite <- Z.pow_add_r by lia; apply Z.pow_le_mono_r; lia).
  split; nia.
Qed.

Lemma readUMPVarint_value_encode v rest :
  0 <= v < 2 ^ 32 ->
  readUMPVarint_value ((encodeUMPVarint v).1 ++ rest) (encodeUMPVarint v).2 = v.
Proof.
  intros Hv. unfold encodeUMPVarint, readUMPVarint_value, byte_at.
  destruct (Z.leb_spec v 0x7F); [|destruct (Z.leb_spec v 0x3FFF);
    [|destruct (Z.leb_spec v 0x1FFFFF); [|destruct (Z.leb_spec v 0x0FFFFFFF)]]];
    cbn [fst snd Nat.eqb app nth Nat.sub]; rewrite ?skipn_cons, ?skipn_O, ?firstn_cons, ?firstn_O;
    cbn [readUMPVarint_loop];
    cbv zeta.
  - rewrite (land_mask _ 7) by (reflexivity || lia). rewrite b2z_z2b. divmod_lia.
  - change (1 ≪ (8 - Z.of_nat 2) - 1) with 63. change (8 - Z.of_nat 2) with 6.
    rewrite (prefix_payload 0x80 v 6) by (reflexivity || lia).
    rewrite !u64_byte_shift by lia. byte_values.
    rewrite (lor_shiftl_add _ _ 6) by divmod_lia. divmod_lia.
  - change (1 ≪ (8 - Z.of_nat 3) - 1) with 31. change (8 - Z.of_nat 3) with 5. change (5 + 8) with 13.
    rewrite (prefix_payload 0xC0 v 5) by (reflexivity || lia).
    rewrite !u64_byte_shift by lia. byte_values.
    rewrite (lor_shiftl_add _ _ 5) by divmod_lia.
    rewrite (lor_shiftl_add _ _ 13) by divmod_lia. divmod_lia.
  - change (1 ≪ (8 - Z.of_nat 4) - 1) with 15. change (8 - Z.of_nat 4) with 4.
    change (4 + 8) with 12. change (12 + 8) with 20.
    rewrite (prefix_payload 0xE0 v 4) by (reflexivity || lia).
    rewrite !u64_byte_shift by lia. byte_values.
    rewrite (lor_shiftl_add _ _ 4) by divmod_lia. rewrite (lor_shiftl_add _ _ 12) by divmod_lia.
    rewrite (lor_shiftl_add _ _ 20) by divmod_lia. divmod_lia.
  - byte_values. rewrite (lor_shiftl_add _ _ 8) by divmod_lia.
    rewrite (lor_shiftl_add _ _ 16) by divmod_lia.
    rewrite (lor_shiftl_add _ _ 24) by divmod_lia. divmod_lia.
Qed.

(** The canonical encoding of a 32-bit value, followed by anything, is accepted. *)
Lemma readUMPVarint_encode v rest :
  0 <= v < 2 ^ 32 ->
  readUMPVarint ((encodeUMPVarint v).1 ++ rest) = Ok (v, (encodeUMPVarint v).2).
Proof.
  intros Hv. destruct (encodeUMPVarint_prefix v rest Hv) as (p & tl & Hd & Hs & H7).
  pose proof (readUMPVarint_value_encode v rest Hv) as Hval.
  pose proof (length_encodeUMPVarint v) as Hl.
  unfold readUMPVarint. rewrite Hd. rewrite Hd in Hval. rewrite Hs.
  assert (take (encodeUMPVarint v).2 (p :: tl) = (encodeUMPVarint v).1) as Ht
    by (rewrite <- Hd, <- Hl; apply take_app_length).
  assert (length (p :: tl) <? (encodeUMPVarint v).2 = false)%nat as ->
    by (apply Nat.ltb_ge; rewrite <- Hd, length_app, Hl; lia).
  destruct (_ && _) eqn:Eb; [reflect_bools; specialize (H7 ltac:(done)); done|].
  cbv zeta. rewrite Hval. destruct (encodeUMPVarint v) as [enc sz]; simpl in *.
  rewrite Nat.eqb_refl. simpl. rewrite Ht, take_ge by lia. by rewrite bool_decide_true.
Qed.

Lemma int32FromUint64_Ok v z : 0 <= v -> int32FromUint64 v = Ok z -> z = v /\ 0 <= z <= MaxInt32.
Proof.
  unfold int32FromUint64. intros Hv H. case_match; [done|]. reflect_bools.
  injection H as <-. rewrite i32_small by width_lia. width_lia.
Qed.

Lemma int64FromUint64_Ok v z : 0 <= v -> int64FromUint64 v = Ok z -> z = v /\ 0 <= z <= MaxInt64.
Proof.
  unfold int64FromUint64. intros Hv H. case_match; [done|]. reflect_bools.
  injection H as <-. rewrite i64_small by width_lia. width_lia.
Qed.

(** ** Properties *)

(** C33. The UMP varint decoder accepts exactly the canonical encodings: it
    returns value [v] and length [n] on [data] iff [v] fits 32 bits and [data]
    starts with the [n]-byte encoding [encodeUMPVarint] gives for [v].  So
    decoding is a left inverse of encoding on 32-bit values, no other byte
    string denotes a value, and the encodings are prefix-free. *)
Theorem readUMPVarint_iff_canonical data v n :
  readUMPVarint data = Ok (v, n) <->
  0 <= v < 2 ^ 32 /\ exists rest, data = (encodeUMPVarint v).1 ++ rest /\ n = (encodeUMPVarint v).2.
Proof.
  split.
  - intros H. destruct (readUMPVarint_Ok _ _ _ H) as (? & ? & ?). eauto.
  - intros (? & rest & -> & ->). by apply readUMPVarint_encode.
Qed.
