(* ===== verification/Wire.v ===== *)
(** * The protobuf wire layer

    [wire.go] of [internal/protocol/youtubeump]: base-128 varints, the
    append-style writers and [fieldReader], the cursor every message decoder of
    the package drives.

    [for_fields] is the [for { num, wireType, ok := reader.next(); ... }] loop
    the decoders share; [scan_message] adds the trailing
    [if reader.err != nil { return ..., reader.err }].  [next] fails after
    [MaxProtobufFields] fields, so [MaxProtobufFields + 1] iterations always
    suffice ([for_fields_total]).

    The abstract view of a message is a list of [pbfield]s.  [scan_encode]
    says a decoder run on an encoded message folds its field handler over that
    list; [wire_canonical] that the reader accepts nothing else. *)
From S2P Require Import Prelude Errors Varint.

(** ** Definitions *)

Definition wireVarint : Z := 0.
Definition wireBytes : Z := 2.
Definition maxProtobufVarintBytes : nat := 10.

(** *** Base-128 varints *)

Definition isCanonicalProtobufVarint (value : Z) (size : nat) : bool :=
  if (size =? 1)%nat then true
  else
    let min := u64 (Z.shiftl 1 (7 * (Z.of_nat size - 1))) in
    value >=? min.

(** The loop of [readProtobufVarint]; [fuel] is the number of iterations left
    before [i] reaches [maxProtobufVarintBytes]. *)
Fixpoint readProtobufVarint_loop (fuel i : nat) (data : bytes) (value shift : Z)
  : res (Z * nat) :=
  match fuel with
  | O => Err ErrVarintOverflow
  | S fuel' =>
      match data !! i with
      | None => Err ErrTruncatedStream
      | Some b =>
          if (i =? maxProtobufVarintBytes - 1)%nat && (b2z b >? 1)
          then Err ErrVarintOverflow
          else
            let value := Z.lor value (u64 (Z.shiftl (Z.land (b2z b) 0x7F) shift)) in
            if b2z b <? 0x80 then
              if isCanonicalProtobufVarint value (i + 1) then Ok (value, (i + 1)%nat)
              else Err ErrNonCanonicalVarint
            else
              let shift := shift + 7 in
              if shift >=? 64 then Err ErrVarintOverflow
              else readProtobufVarint_loop fuel' (i + 1) data value shift
      end
  end.

Definition readProtobufVarint (data : bytes) : res (Z * nat) :=
  if (length data =? 0)%nat then Err ErrTruncatedStream
  else readProtobufVarint_loop maxProtobufVarintBytes 0 data 0 0.

Definition readProtobufUint32 (data : bytes) : res Z :=
  '(value, _) ← readProtobufVarint data;
  if value >? MaxUint32 then Err ErrVarintOverflow else Ok (u32 value).

(** [for value >= 0x80]: a [uint64] loses seven bits per iteration, so ten
    iterations reach the exit. *)
Fixpoint appendU64_loop (fuel : nat) (buf : bytes) (value : Z) : bytes :=
  match fuel with
  | O => buf ++ [z2b value]
  | S fuel' =>
      if value >=? 0x80
      then appendU64_loop fuel' (buf ++ [z2b (Z.lor (u8 value) 0x80)]) (Z.shiftr value 7)
      else buf ++ [z2b value]
  end.

Definition appendU64 (buf : bytes) (value : Z) : bytes := appendU64_loop 10 buf value.

Arguments appendU64 : simpl never.

Definition appendKey (buf : bytes) (key : Z) : bytes := appendU64 buf key.

Definition appendProtobufVarint (buf : bytes) (field value : Z) : bytes :=
  let key := Z.lor (u64 (Z.shiftl field 3)) wireVarint in
  appendU64 (appendKey buf key) value.

Definition appendProtobufBytes (buf : bytes) (field : Z) (value : bytes) : bytes :=
  let key := Z.lor (u64 (Z.shiftl field 3)) wireBytes in
  appendU64 (appendKey buf key) (zlen value) ++ value.

(** *** The field cursor *)

Record fieldReader := mkFieldReader {
  fr_data : bytes;
  fr_offset : nat;
  fr_fields : nat;
  fr_err : option go_error
}.
#[export] Instance eta_fieldReader : Eta fieldReader :=
  fun r => mkFieldReader (fr_data r) (fr_offset r) (fr_fields r) (fr_err r).

(** [fieldReader{data: data}] *)
Definition newFieldReader (data : bytes) : fieldReader := mkFieldReader data 0 0 None.

(** [reader.data[reader.offset:]] *)
Definition fr_rest (r : fieldReader) : bytes := drop (fr_offset r) (fr_data r).

(** [ok == false] is [None]. *)
Definition fieldReader_next (r : fieldReader) : option (Z * Z) * fieldReader :=
  if bool_decide (fr_err r <> None) || (length (fr_data r) <=? fr_offset r)%nat then (None, r)
  else
    let r := r <| fr_fields := S (fr_fields r) |> in
    if (MaxProtobufFields <? fr_fields r)%nat then (None, r <| fr_err := Some ErrInvalidProtobuf |>)
    else
      match readProtobufVarint (fr_rest r) with
      | Err e => (None, r <| fr_err := Some e |>)
      | Ok (key, n) =>
          let r := r <| fr_offset := (fr_offset r + n)%nat |> in
          let num := Z.shiftr key 3 in
          let wireType := Z.land key 0x7 in
          if (num =? 0) || (num >? MaxUint32)
          then (None, r <| fr_err := Some ErrInvalidProtobuf |>)
          else (Some (num, wireType), r)
      end.

Definition fieldReader_varint (r : fieldReader) : Z * fieldReader :=
  match readProtobufVarint (fr_rest r) with
  | Err e => (0, r <| fr_err := Some e |>)
  | Ok (value, n) => (value, r <| fr_offset := (fr_offset r + n)%nat |>)
  end.

Definition fieldReader_uint32 (r : fieldReader) : Z * fieldReader :=
  let '(value, r) := fieldReader_varint r in
  if bool_decide (fr_err r <> None) then (0, r)
  else if value >? MaxUint32 then (0, r <| fr_err := Some ErrVarintOverflow |>)
  else (u32 value, r).

Definition fieldReader_bytes (r : fieldReader) : bytes * fieldReader :=
  match readProtobufVarint (fr_rest r) with
  | Err e => ([], r <| fr_err := Some e |>)
  | Ok (len, n) =>
      let r := r <| fr_offset := (fr_offset r + n)%nat |> in
      if (len >? MaxProtobufFieldBytes) || (len >? zlen (fr_data r) - Z.of_nat (fr_offset r))
      then ([], r <| fr_err := Some ErrInvalidProtobuf |>)
      else
        (take (Z.to_nat len) (fr_rest r),
         r <| fr_offset := (fr_offset r + Z.to_nat len)%nat |>)
  end.

Definition fieldReader_string (r : fieldReader) : bytes * fieldReader := fieldReader_bytes r.

Definition fieldReader_skip (num wireType : Z) (r : fieldReader) : fieldReader :=
  if wireType =? wireVarint then
    match readProtobufVarint (fr_rest r) with
    | Err e => r <| fr_err := Some e |>
    | Ok (_, n) => r <| fr_offset := (fr_offset r + n)%nat |>
    end
  else if wireType =? wireBytes then (fieldReader_bytes r).2
  else r <| fr_err := Some ErrInvalidProtobuf |>.

(** *** The decoder loop *)

(** One iteration of a decoder's [switch]: fall out of it with new locals and
    cursor, or [return]. *)
Inductive flow (A B : Type) : Type :=
| Next (acc : A) (r : fieldReader)
| Return (b : B).
Arguments Next {A B} acc r.
Arguments Return {A B} b.

(** [Some (inl (acc, r))]: the loop broke; [Some (inr b)]: the body returned
    [b]; [None]: out of fuel. *)
Fixpoint for_fields {A B} (fuel : nat) (body : A -> Z -> Z -> fieldReader -> flow A B)
    (acc : A) (r : fieldReader) : option ((A * fieldReader) + B) :=
  match fuel with
  | O => None
  | S fuel' =>
      match fieldReader_next r with
      | (None, r) => Some (inl (acc, r))
      | (Some (num, wireType), r) =>
          match body acc num wireType r with
          | Return b => Some (inr b)
          | Next acc r => for_fields fuel' body acc r
          end
      end
  end.

Definition scan_fuel : nat := S MaxProtobufFields.

Definition scan_message {A B} (body : A -> Z -> Z -> fieldReader -> flow A (res B))
    (init : A) (finish : A -> res B) (data : bytes) : res B :=
  match for_fields scan_fuel body init (newFieldReader data) with
  | Some (inl (acc, r)) =>
      match fr_err r with
      | Some e => Err e
      | None => finish acc
      end
  | Some (inr b) => b
  | None => Err ErrInvalidProtobuf
  end.

(** *** The abstract message *)

Inductive pbfield : Type :=
| PbVarint (num value : Z)
| PbBytes (num : Z) (value : bytes).

Definition pb_num (f : pbfield) : Z :=
  match f with PbVarint n _ | PbBytes n _ => n end.
Definition pb_wire (f : pbfield) : Z :=
  match f with PbVarint _ _ => wireVarint | PbBytes _ _ => wireBytes end.

(** What follows the key of a field on the wire. *)
Definition pb_payload (f : pbfield) : bytes :=
  match f with
  | PbVarint _ v => appendU64 [] v
  | PbBytes _ bs => appendU64 [] (zlen bs) ++ bs
  end.

Definition pb_key (f : pbfield) : Z := 8 * pb_num f + pb_wire f.

Definition encode_field (f : pbfield) : bytes := appendU64 [] (pb_key f) ++ pb_payload f.
Definition encode_fields (fs : list pbfield) : bytes := fs ≫= encode_field.

(** The fields the reader admits. *)
Definition pb_wf (f : pbfield) : Prop :=
  1 <= pb_num f <= MaxUint32 /\
  match f with
  | PbVarint _ v => is_u64 v
  | PbBytes _ bs => zlen bs <= MaxProtobufFieldBytes
  end.

(** The cursor after [n] more bytes. *)
Definition fr_advance (n : nat) (r : fieldReader) : fieldReader :=
  r <| fr_offset := (fr_offset r + n)%nat |>.

(** A body that only moves the cursor: it neither resets the field count nor
    touches the data.  Enough for the loop to end. *)
Class CursorBody {A B} (body : A -> Z -> Z -> fieldReader -> flow A B) : Prop :=
  cursor_body : forall acc num wt r acc' r',
    body acc num wt r = Next acc' r' -> fr_fields r' = fr_fields r /\ fr_data r' = fr_data r.

(** A body that consumes exactly one well-formed field of the announced number
    and wire type unless it fails, and returns early only with errors. *)
Class BodyConsumes {A B} (body : A -> Z -> Z -> fieldReader -> flow A (res B)) : Prop := {
  body_consumes acc num wt r acc' r' :
    1 <= num <= MaxUint32 -> fr_err r = None -> body acc num wt r = Next acc' r' ->
    fr_err r' = None ->
    exists f, pb_num f = num /\ pb_wire f = wt /\ pb_wf f /\ fr_rest r = pb_payload f ++ fr_rest r';
  body_returns_errors acc num wt r b : body acc num wt r = Return b -> exists e, b = Err e
}.

(** [body] implements [absorb] on well-formed fields: it falls through with the
    absorbed locals and the cursor past the field, or fails the way [absorb]
    says, by returning or by leaving the error in the cursor. *)
Class BodyAbsorbs {A B} (body : A -> Z -> Z -> fieldReader -> flow A (res B))
    (absorb : A -> pbfield -> A + res B) : Prop :=
  body_absorbs : forall acc f r rest,
    pb_wf f -> fr_err r = None -> fr_rest r = pb_payload f ++ rest ->
    match absorb acc f with
    | inl acc' => body acc (pb_num f) (pb_wire f) r = Next acc' (fr_advance (length (pb_payload f)) r)
    | inr b =>
        body acc (pb_num f) (pb_wire f) r = Return b \/
        exists e acc' r', b = Err e /\ body acc (pb_num f) (pb_wire f) r = Next acc' r' /\
          fr_err r' = Some e
    end.

(** Left fold that stops at the first returned value. *)
Fixpoint absorb_all {A B} (absorb : A -> pbfield -> A + B) (acc : A) (fs : list pbfield) : A + B :=
  match fs with
  | [] => inl acc
  | f :: fs' =>
      match absorb acc f with
      | inl acc' => absorb_all absorb acc' fs'
      | inr b => inr b
      end
  end.

(** ** Lemmas on varints *)

Lemma appendU64_loop_app n buf v : appendU64_loop n buf v = buf ++ appendU64_loop n [] v.
Proof.
  revert buf v. induction n as [|n IH]; intros buf v; simpl; [done|].
  case_match; [|done]. rewrite IH, (IH [_]). by rewrite <- app_assoc.
Qed.

Lemma appendU64_app buf v : appendU64 buf v = buf ++ appendU64 [] v.
Proof. apply appendU64_loop_app. Qed.

Lemma continuation_byte v : b2z (z2b (Z.lor (u8 v) 0x80)) = 128 + v mod 128.
Proof.
  assert (forall b, b2z (z2b (Z.lor (b2z b) 0x80)) = 128 + b2z b mod 128) as Hb
    by (intros b; destruct b; reflexivity).
  change (u8 v) with (v mod 256). rewrite <- (b2z_z2b v), Hb, b2z_z2b. divmod_lia.
Qed.

(** One step of the writer. *)
Lemma appendU64_loop_S n v :
  appendU64_loop (S n) [] v =
    if v >=? 0x80 then z2b (Z.lor (u8 v) 0x80) :: appendU64_loop n [] (v / 128) else [z2b v].
Proof.
  cbn [appendU64_loop]. case_match; [|done]. rewrite appendU64_loop_app.
  rewrite Z.shiftr_div_pow2 by lia. done.
Qed.

Lemma appendU64_loop_length n v : (1 <= length (appendU64_loop n [] v) <= S n)%nat.
Proof.
  revert v. induction n as [|n IH]; intros v; [simpl; lia|].
  rewrite appendU64_loop_S. case_match; simpl; [specialize (IH (v / 128)); lia|lia].
Qed.

Lemma appendU64_length v : (1 <= length (appendU64 [] v) <= 11)%nat.
Proof. apply appendU64_loop_length. Qed.

Lemma canonical_min i : (1 <= i <= 9)%nat ->
  u64 (Z.shiftl 1 (7 * (Z.of_nat (i + 1) - 1))) = 2 ^ (7 * Z.of_nat i).
Proof.
  intros Hi. rewrite Z.shiftl_1_l, u64_small; [f_equal; lia|]. split; [lia|].
  apply Z.pow_lt_mono_r; lia.
Qed.

Lemma isCanonical_iff value i : (i <= 9)%nat ->
  isCanonicalProtobufVarint value (i + 1) = true <-> i = 0%nat \/ 2 ^ (7 * Z.of_nat i) <= value.
Proof.
  intros Hi. unfold isCanonicalProtobufVarint. case_match; reflect_bools.
  - split; [left; lia|done].
  - rewrite canonical_min by lia. rewrite Z.geb_leb, Z.leb_le. split; [by right|intros [?|?]; lia].
Qed.

(** Adding seven more bits at position [7 i]. *)
Lemma lor_group value g i :
  (i <= 9)%nat -> 0 <= value < 2 ^ (7 * Z.of_nat i) -> 0 <= g < 128 -> (i = 9%nat -> g <= 1) ->
  Z.lor value (u64 (Z.shiftl g (7 * Z.of_nat i))) = value + g * 2 ^ (7 * Z.of_nat i).
Proof.
  intros Hi Hv Hg H9.
  assert (g * 2 ^ (7 * Z.of_nat i) < 2 ^ 64) as Hlt.
  { destruct (decide (i = 9%nat)) as [->|].
    - specialize (H9 eq_refl). change (7 * Z.of_nat 9) with 63. norm_pow2. lia.
    - assert (2 ^ (7 * Z.of_nat i) * 2 ^ 7 <= 2 ^ 64)
        by (rewrite <- Z.pow_add_r by lia; apply Z.pow_le_mono_r; lia).
      assert (0 < 2 ^ (7 * Z.of_nat i)) by (apply Z.pow_pos_nonneg; lia).
      change (2 ^ 7) with 128 in *. nia. }
  rewrite u64_small.
  - apply lor_shiftl_add; lia.
  - rewrite Z.shiftl_mul_pow2 by lia. split; [nia|lia].
Qed.

Lemma low7 b : Z.land (b2z b) 0x7F = b2z b mod 128.
Proof. by rewrite (land_mask _ 7) by (reflexivity || lia). Qed.

(** ** The varint round trip *)

Lemma group_pow i : 2 ^ (7 * Z.of_nat (i + 1)) = 2 ^ (7 * Z.of_nat i) * 128.
Proof.
  replace (7 * Z.of_nat (i + 1)) with (7 * Z.of_nat i + 7) by lia. by rewrite Z.pow_add_r by lia.
Qed.

Lemma group_pow_left i : (i <= 8)%nat ->
  2 ^ (64 - 7 * Z.of_nat i) = 128 * 2 ^ (64 - 7 * Z.of_nat (i + 1)).
Proof.
  intros Hi. replace (64 - 7 * Z.of_nat i) with (7 + (64 - 7 * Z.of_nat (i + 1))) by lia.
  by rewrite Z.pow_add_r by lia.
Qed.

(** One iteration of the reader, in arithmetic form. *)
Lemma readProtobufVarint_loop_step f i data b value :
  (S f + i = 10)%nat -> 0 <= value < 2 ^ (7 * Z.of_nat i) ->
  data !! i = Some b -> (i = 9%nat -> b2z b <= 1) ->
  readProtobufVarint_loop (S f) i data value (7 * Z.of_nat i) =
    let value' := value + (b2z b mod 128) * 2 ^ (7 * Z.of_nat i) in
    if b2z b <? 128 then
      if isCanonicalProtobufVarint value' (i + 1) then Ok (value', (i + 1)%nat)
      else Err ErrNonCanonicalVarint
    else readProtobufVarint_loop f (i + 1) data value' (7 * Z.of_nat (i + 1)).
Proof.
  intros Hfi Hv Hb H9. pose proof (b2z_range b). cbn [readProtobufVarint_loop]. rewrite Hb.
  pose proof (Z.mod_pos_bound (b2z b) 128 ltac:(lia)).
  assert (i = 9%nat -> b2z b mod 128 <= 1) by (intros ->; rewrite Z.mod_small; lia).
  assert ((i =? maxProtobufVarintBytes - 1)%nat && (b2z b >? 1) = false) as ->.
  { apply not_true_is_false. intros ?. reflect_bools. unfold maxProtobufVarintBytes in *. lia. }
  rewrite low7, lor_group by lia. cbv zeta.
  destruct (b2z b <? 128) eqn:E; [done|]. reflect_bools.
  assert (7 * Z.of_nat i + 7 >=? 64 = false) as -> by lia. f_equal; lia.
Qed.

Lemma readProtobufVarint_loop_encode f i data value hi rest :
  (S f + i = 10)%nat -> 0 <= value < 2 ^ (7 * Z.of_nat i) ->
  0 <= hi < 2 ^ (64 - 7 * Z.of_nat i) -> (i = 0%nat \/ 0 < hi) ->
  drop i data = appendU64_loop f [] hi ++ rest ->
  readProtobufVarint_loop (S f) i data value (7 * Z.of_nat i) =
    Ok (value + hi * 2 ^ (7 * Z.of_nat i), (i + length (appendU64_loop f [] hi))%nat).
Proof.
  revert i value hi. induction f as [|f IH]; intros i value hi Hfi Hv Hhi Hi0 Hd.
  - assert (i = 9%nat) as -> by lia. change (64 - 7 * Z.of_nat 9) with 1 in Hhi.
    assert (data !! 9%nat = Some (z2b hi)) as Hb.
    { rewrite <- (Nat.add_0_r 9), <- lookup_drop, Hd. done. }
    rewrite (readProtobufVarint_loop_step _ _ _ _ _ Hfi Hv Hb) by (rewrite z2b_small; lia).
    cbv zeta. rewrite z2b_small, Z.mod_small by lia. assert (hi <? 128 = true) as -> by lia.
    rewrite (proj2 (isCanonical_iff _ 9 ltac:(lia))) by (right; nia). done.
  - assert (i <= 8)%nat as Hi8 by lia.
    pose proof (group_pow i) as HP. pose proof (group_pow_left i Hi8) as HQ.
    rewrite appendU64_loop_S in Hd |- *.
    assert (forall b l, drop i data = b :: l -> data !! i = Some b /\ drop (i + 1) data = l) as Hstep.
    { intros b l Hbl. split.
      - rewrite <- (Nat.add_0_r i), <- lookup_drop, Hbl. done.
      - rewrite <- drop_drop, Hbl. done. }
    destruct (Z.geb_spec hi 128); apply Hstep in Hd as [Hb Hd];
      (rewrite (readProtobufVarint_loop_step _ _ _ _ _ Hfi Hv Hb) by lia); cbv zeta.
    + rewrite continuation_byte. pose proof (Z.mod_pos_bound hi 128 ltac:(lia)).
      assert (128 + hi mod 128 <? 128 = false) as -> by lia.
      replace ((128 + hi mod 128) mod 128) with (hi mod 128) by divmod_lia.
      pose proof (Z.div_mod hi 128 ltac:(lia)).
      rewrite (IH _ _ (hi / 128)); [|lia|nia|nia|nia|done].
      f_equal. f_equal; [nia|simpl; lia].
    + rewrite z2b_small, Z.mod_small by lia. assert (hi <? 128 = true) as -> by lia.
      rewrite (proj2 (isCanonical_iff _ i ltac:(lia))) by (destruct Hi0; [by left|right; nia]). done.
Qed.

(** More fuel does not change the writer's output. *)
Lemma appendU64_loop_fuel n m v :
  0 <= v < 2 ^ (7 * (Z.of_nat n + 1)) -> (n <= m)%nat ->
  appendU64_loop m [] v = appendU64_loop n [] v.
Proof.
  revert m v. induction n as [|n IH]; intros m v Hv Hm.
  - change (2 ^ (7 * (Z.of_nat 0 + 1))) with 128 in Hv. destruct m; [done|].
    rewrite appendU64_loop_S. by assert (v >=? 128 = false) as -> by lia.
  - destruct m as [|m]; [lia|]. rewrite !appendU64_loop_S. case_match; [|done].
    f_equal. apply IH; [|lia]. reflect_bools.
    replace (7 * (Z.of_nat (S n) + 1)) with (7 + 7 * (Z.of_nat n + 1)) in Hv by lia.
    rewrite Z.pow_add_r in Hv by lia. change (2 ^ 7) with 128 in Hv. divmod_lia.
Qed.

Lemma appendU64_9 v : is_u64 v -> appendU64 [] v = appendU64_loop 9 [] v.
Proof.
  intros [??]. apply appendU64_loop_fuel; [|lia]. split; [lia|].
  change (7 * (Z.of_nat 9 + 1)) with 70. norm_pow2. lia.
Qed.

(** The reader inverts the writer on every [uint64]. *)
Lemma readProtobufVarint_append v rest :
  is_u64 v -> readProtobufVarint (appendU64 [] v ++ rest) = Ok (v, length (appendU64 [] v)).
Proof.
  intros Hv. unfold readProtobufVarint. rewrite appendU64_9 by done.
  pose proof (appendU64_loop_length 9 v).
  assert (length (appendU64_loop 9 [] v ++ rest) =? 0 = false)%nat as ->
    by (apply Nat.eqb_neq; rewrite length_app; lia).
  pose proof (readProtobufVarint_loop_encode 9 0 (appendU64_loop 9 [] v ++ rest) 0 v rest) as Hl.
  change (7 * Z.of_nat 0) with 0 in Hl. change maxProtobufVarintBytes with 10%nat.
  rewrite Hl; [|done|simpl; lia|width_lia|by left|done].
  f_equal. f_equal. simpl. lia.
Qed.

(** Whatever the loop accepts is the canonical encoding of what it returns. *)
Lemma readProtobufVarint_loop_Ok f i data value v n :
  (S f + i = 10)%nat -> 0 <= value < 2 ^ (7 * Z.of_nat i) ->
  readProtobufVarint_loop (S f) i data value (7 * Z.of_nat i) = Ok (v, n) ->
  exists hi rest,
    drop i data = appendU64_loop f [] hi ++ rest /\ v = value + hi * 2 ^ (7 * Z.of_nat i) /\
    0 <= hi < 2 ^ (64 - 7 * Z.of_nat i) /\ n = (i + length (appendU64_loop f [] hi))%nat /\
    (i = 0%nat \/ 0 < hi).
Proof.
  revert i value. induction f as [|f IH]; intros i value Hfi Hv H.
  all: destruct (data !! i) as [b|] eqn:Hb; [|by cbn [readProtobufVarint_loop] in H; rewrite Hb in H].
  all: assert (drop i data = b :: drop (S i) data) as Hd by (by apply drop_S).
  all: pose proof (b2z_range b); assert (0 < 2 ^ (7 * Z.of_nat i)) by (apply Z.pow_pos_nonneg; lia).
  all: destruct (decide (i = 9%nat /\ 1 < b2z b)) as [[-> ?]|Hok];
    [cbn [readProtobufVarint_loop] in H; rewrite Hb in H;
     by assert (b2z b >? 1 = true) as E1 by lia; rewrite E1 in H|].
  all: rewrite (readProtobufVarint_loop_step _ _ _ _ _ Hfi Hv Hb) in H by lia; cbv zeta in H.
  all: destruct (b2z b <? 128) eqn:E; reflect_bools.
  - destruct (isCanonicalProtobufVarint _ _) eqn:Ec; [|done]. injection H as <- <-.
    rewrite isCanonical_iff in Ec by lia. rewrite Z.mod_small in * by lia.
    exists (b2z b), (drop (S i) data). assert (i = 9%nat) as -> by lia.
    cbn [appendU64_loop app length]. rewrite z2b_b2z. change (64 - 7 * Z.of_nat 9) with 1.
    split_and!; [done|done|lia|lia|lia|]. right. lia.
  - lia.
  - destruct (isCanonicalProtobufVarint _ _) eqn:Ec; [|done]. injection H as <- <-.
    rewrite isCanonical_iff in Ec by lia. rewrite Z.mod_small in * by lia.
    exists (b2z b), (drop (S i) data). rewrite appendU64_loop_S.
    assert (b2z b >=? 128 = false) as -> by lia. rewrite z2b_b2z.
    assert (2 ^ 8 <= 2 ^ (64 - 7 * Z.of_nat i)) by (apply Z.pow_le_mono_r; lia).
    split_and!; [done|done|lia|lia|simpl; lia|]. destruct Ec; [by left|right; nia].
  - assert (i <= 8)%nat as Hi8 by lia.
    pose proof (group_pow i) as HP. pose proof (group_pow_left i Hi8) as HQ.
    pose proof (Z.mod_pos_bound (b2z b) 128 ltac:(lia)).
    apply IH in H as (hi & rest & Hrest & -> & Hhi & -> & [?|?]); [lia| |lia|nia].
    assert (b2z b mod 128 = b2z b - 128) as Hm by divmod_lia.
    exists (b2z b - 128 + 128 * hi), rest. rewrite appendU64_loop_S.
    assert (b2z b - 128 + 128 * hi >=? 128 = true) as -> by lia.
    replace ((b2z b - 128 + 128 * hi) / 128) with hi by divmod_lia.
    assert (z2b (Z.lor (u8 (b2z b - 128 + 128 * hi)) 128) = b) as ->.
    { apply b2z_inj. rewrite continuation_byte. divmod_lia. }
    split_and!; [|rewrite HP, Hm; lia|lia|nia|simpl; lia|right; lia].
    rewrite Hd. simpl. f_equal. by rewrite <- Hrest, Nat.add_1_r.
Qed.

Lemma readProtobufVarint_Ok data v n :
  readProtobufVarint data = Ok (v, n) ->
  is_u64 v /\ n = length (appendU64 [] v) /\ data = appendU64 [] v ++ drop n data.
Proof.
  unfold readProtobufVarint. intros H. case_match; [done|].
  change 0 with (7 * Z.of_nat 0) in H at 2.
  apply readProtobufVarint_loop_Ok in H as (hi & rest & Hd & -> & Hhi & -> & _); [|done|done].
  rewrite drop_0 in Hd. simpl Z.of_nat in *. rewrite Z.mul_0_r, Z.sub_0_r in *.
  replace (0 + hi * 2 ^ 0) with hi by lia.
  rewrite appendU64_9 by (unfold is_u64; lia). split_and!; [unfold is_u64; lia..|done|].
  rewrite Hd at 1. f_equal. rewrite Hd. symmetry. by apply drop_app_exact.
Qed.

(** ** Lemmas on the writers *)

Lemma wire_key field wt :
  0 <= field < 2 ^ 61 -> 0 <= wt < 8 -> Z.lor (u64 (Z.shiftl field 3)) wt = 8 * field + wt.
Proof.
  intros Hf Hw. rewrite u64_small by (rewrite Z.shiftl_mul_pow2 by lia; unfold is_u64; norm_pow2; lia).
  rewrite Z.lor_comm, lor_shiftl_add by (simpl; lia). lia.
Qed.

Lemma appendProtobufVarint_field buf field v :
  0 <= field < 2 ^ 61 -> appendProtobufVarint buf field v = buf ++ encode_field (PbVarint field v).
Proof.
  intros Hf. unfold appendProtobufVarint, appendKey, encode_field, pb_key, pb_wire, wireVarint; simpl.
  rewrite wire_key by (simpl; lia). rewrite appendU64_app, (appendU64_app buf). by rewrite app_assoc.
Qed.

Lemma appendProtobufBytes_field buf field bs :
  0 <= field < 2 ^ 61 -> appendProtobufBytes buf field bs = buf ++ encode_field (PbBytes field bs).
Proof.
  intros Hf. unfold appendProtobufBytes, appendKey, encode_field, pb_key, pb_wire, wireBytes; simpl.
  rewrite wire_key by (simpl; lia). rewrite appendU64_app, (appendU64_app buf). by rewrite !app_assoc.
Qed.

Lemma encode_fields_app fs gs : encode_fields (fs ++ gs) = encode_fields fs ++ encode_fields gs.
Proof. apply bind_app. Qed.

Lemma encode_fields_nil : encode_fields [] = [].
Proof. done. Qed.

Lemma encode_fields_cons f fs : encode_fields (f :: fs) = encode_field f ++ encode_fields fs.
Proof. done. Qed.

Lemma encode_field_nonempty f : encode_field f <> [].
Proof.
  unfold encode_field. pose proof (appendU64_length (pb_key f)).
  destruct (appendU64 [] (pb_key f)); simpl in *; [lia|done].
Qed.

(** ** Lemmas on the cursor *)

Lemma fr_rest_advance n r : fr_rest (fr_advance n r) = drop n (fr_rest r).
Proof. unfold fr_rest, fr_advance. simpl. by rewrite drop_drop. Qed.

Lemma fr_rest_advance_app n r l1 l2 :
  fr_rest r = l1 ++ l2 -> n = length l1 -> fr_rest (fr_advance n r) = l2.
Proof. intros Hr ->. rewrite fr_rest_advance, Hr. apply drop_app_length. Qed.

Lemma fr_advance_advance n m r : fr_advance n (fr_advance m r) = fr_advance (m + n) r.
Proof. unfold fr_advance; simpl. by rewrite Nat.add_assoc. Qed.

(** The test [length > len(data) - offset] of [bytes]. *)
Lemma zlen_fr_rest r : fr_rest r <> [] ->
  zlen (fr_data r) - Z.of_nat (fr_offset r) = zlen (fr_rest r).
Proof.
  unfold fr_rest, zlen. intros Hr. rewrite length_drop.
  assert (fr_offset r < length (fr_data r))%nat; [|lia].
  destruct (decide (fr_offset r < length (fr_data r))%nat); [done|].
  rewrite drop_ge in Hr by lia. done.
Qed.

Lemma fieldReader_varint_payload r v rest :
  is_u64 v -> fr_rest r = appendU64 [] v ++ rest ->
  fieldReader_varint r = (v, fr_advance (length (appendU64 [] v)) r).
Proof. intros Hv Hr. unfold fieldReader_varint. by rewrite Hr, readProtobufVarint_append. Qed.

Lemma fieldReader_bytes_payload r bs rest :
  zlen bs <= MaxProtobufFieldBytes -> fr_rest r = (appendU64 [] (zlen bs) ++ bs) ++ rest ->
  fieldReader_bytes r = (bs, fr_advance (length (appendU64 [] (zlen bs) ++ bs)) r).
Proof.
  intros Hb Hr. unfold fieldReader_bytes. rewrite Hr, <- app_assoc.
  assert (is_u64 (zlen bs)).
  { unfold is_u64, MaxProtobufFieldBytes in *. rewrite Z.shiftl_mul_pow2 in Hb by lia.
    pose proof (zlen_nonneg bs). norm_pow2. lia. }
  rewrite readProtobufVarint_append by done. cbv zeta.
  change (r <| fr_offset := (fr_offset r + length (appendU64 [] (zlen bs)))%nat |>)
    with (fr_advance (length (appendU64 [] (zlen bs))) r).
  rewrite <- app_assoc in Hr. rewrite (fr_rest_advance_app _ _ _ _ Hr eq_refl).
  set (a := fr_advance (length (appendU64 [] (zlen bs))) r).
  assert (zlen (bs ++ rest) <= zlen (fr_data a) - Z.of_nat (fr_offset a)) as Hl.
  { apply (f_equal length) in Hr. unfold fr_rest, zlen in *. rewrite length_drop, !length_app in Hr.
    pose proof (appendU64_length (Z.of_nat (length bs))).
    change (fr_data a) with (fr_data r). change (fr_offset a)
      with (fr_offset r + length (appendU64 [] (Z.of_nat (length bs))))%nat.
    rewrite length_app. lia. }
  assert (zlen bs >? MaxProtobufFieldBytes = false) as -> by lia.
  pose proof (zlen_app bs rest). pose proof (zlen_nonneg rest).
  destruct (_ >? _) eqn:E; [lia|]. simpl orb. unfold zlen at 1 2. rewrite Nat2Z.id.
  rewrite take_app_length. f_equal. unfold a, fr_advance; simpl. f_equal. rewrite length_app. lia.
Qed.

Lemma fieldReader_skip_payload r f rest :
  pb_wf f -> fr_rest r = pb_payload f ++ rest ->
  fieldReader_skip (pb_num f) (pb_wire f) r = fr_advance (length (pb_payload f)) r.
Proof.
  intros [_ Hf] Hr. destruct f as [num v|num bs]; unfold fieldReader_skip; simpl in *.
  - by rewrite Hr, readProtobufVarint_append.
  - by rewrite (fieldReader_bytes_payload _ _ _ Hf Hr).
Qed.

Lemma fieldReader_next_encode r f rest :
  pb_wf f -> fr_err r = None -> (fr_fields r < MaxProtobufFields)%nat ->
  fr_rest r = encode_field f ++ rest ->
  exists r', fieldReader_next r = (Some (pb_num f, pb_wire f), r') /\
    fr_err r' = None /\ fr_data r' = fr_data r /\ fr_fields r' = S (fr_fields r) /\
    fr_rest r' = pb_payload f ++ rest.
Proof.
  intros [Hn _] He Hf Hr. unfold encode_field in Hr. rewrite <- app_assoc in Hr.
  assert (0 <= pb_wire f <= 2) as Hw by (destruct f; simpl; unfold wireVarint, wireBytes; lia).
  assert (is_u64 (pb_key f)) as Hk by (unfold pb_key; width_lia).
  assert (fr_offset r < length (fr_data r))%nat as Ho.
  { apply (f_equal length) in Hr. unfold fr_rest in Hr. pose proof (appendU64_length (pb_key f)).
    rewrite length_drop, length_app in Hr. lia. }
  unfold fieldReader_next. rewrite He.
  assert (length (fr_data r) <=? fr_offset r = false)%nat as -> by (apply Nat.leb_gt; lia).
  simpl. assert (MaxProtobufFields <? S (fr_fields r) = false)%nat as -> by (apply Nat.ltb_ge; lia).
  unfold fr_rest in *; simpl. rewrite Hr, readProtobufVarint_append by done.
  assert (Z.shiftr (pb_key f) 3 = pb_num f) as ->
    by (unfold pb_key; rewrite Z.shiftr_div_pow2 by lia; norm_pow2; divmod_lia).
  assert (Z.land (pb_key f) 7 = pb_wire f) as ->
    by (unfold pb_key; rewrite (land_mask _ 3) by (reflexivity || lia); norm_pow2; divmod_lia).
  assert ((pb_num f =? 0) || (pb_num f >? MaxUint32) = false) as -> by lia.
  eexists; split; [done|]; simpl; split_and!; [done..|].
  rewrite <- drop_drop, Hr. apply drop_app_length.
Qed.

(** ** What a successful read consumed *)

Lemma fieldReader_varint_frame r v r' :
  fieldReader_varint r = (v, r') -> fr_fields r' = fr_fields r /\ fr_data r' = fr_data r.
Proof. unfold fieldReader_varint. intros H. repeat case_match; by simplify_eq. Qed.

Lemma fieldReader_uint32_frame r v r' :
  fieldReader_uint32 r = (v, r') -> fr_fields r' = fr_fields r /\ fr_data r' = fr_data r.
Proof.
  unfold fieldReader_uint32. intros H. destruct (fieldReader_varint r) as [v0 r0] eqn:E.
  apply fieldReader_varint_frame in E. repeat case_match; by simplify_eq.
Qed.

Lemma fieldReader_bytes_frame r v r' :
  fieldReader_bytes r = (v, r') -> fr_fields r' = fr_fields r /\ fr_data r' = fr_data r.
Proof. unfold fieldReader_bytes. intros H. repeat case_match; by simplify_eq. Qed.

Lemma fieldReader_skip_frame num wt r :
  fr_fields (fieldReader_skip num wt r) = fr_fields r /\
  fr_data (fieldReader_skip num wt r) = fr_data r.
Proof.
  unfold fieldReader_skip. repeat case_match; try done.
  destruct (fieldReader_bytes r) eqn:E. by apply fieldReader_bytes_frame in E.
Qed.

Lemma fieldReader_varint_consumes r v r' :
  fieldReader_varint r = (v, r') -> fr_err r = None -> fr_err r' = None ->
  is_u64 v /\ fr_rest r = appendU64 [] v ++ fr_rest r'.
Proof.
  unfold fieldReader_varint. intros H He He'.
  destruct (readProtobufVarint (fr_rest r)) as [[v0 n]|] eqn:E; simplify_eq.
  apply readProtobufVarint_Ok in E as (Hv & Hn & Hr). split; [done|].
  rewrite Hr at 1. f_equal. unfold fr_rest; simpl. by rewrite drop_drop.
Qed.

Lemma fieldReader_bytes_consumes r bs r' :
  fieldReader_bytes r = (bs, r') -> fr_err r = None -> fr_err r' = None ->
  zlen bs <= MaxProtobufFieldBytes /\ fr_rest r = (appendU64 [] (zlen bs) ++ bs) ++ fr_rest r'.
Proof.
  unfold fieldReader_bytes. intros H He He'.
  destruct (readProtobufVarint (fr_rest r)) as [[len n]|] eqn:E; [|by simplify_eq].
  apply readProtobufVarint_Ok in E as ([Hl0 _] & Hn & Hr). cbv zeta in H.
  destruct ((len >? MaxProtobufFieldBytes) || _) eqn:Eb; [by simplify_eq|]. simplify_eq.
  reflect_bools. simpl in *.
  assert (zlen (take (Z.to_nat len) (drop (fr_offset r + length (appendU64 [] len)) (fr_data r))) = len)
    as Hz by (unfold zlen in *; rewrite length_take, length_drop; lia).
  unfold fr_rest in *; simpl. rewrite Hz. split; [lia|].
  rewrite Hr at 1. rewrite <- app_assoc, drop_drop. f_equal.
  rewrite <- (take_drop (Z.to_nat len) (drop (_ + _) _)) at 1. by rewrite drop_drop.
Qed.

Lemma fieldReader_skip_consumes num wt r :
  1 <= num <= MaxUint32 -> fr_err r = None -> fr_err (fieldReader_skip num wt r) = None ->
  exists f, pb_num f = num /\ pb_wire f = wt /\ pb_wf f /\
    fr_rest r = pb_payload f ++ fr_rest (fieldReader_skip num wt r).
Proof.
  intros Hn He. unfold fieldReader_skip. destruct (wt =? wireVarint) eqn:Ev; reflect_bools.
  - destruct (fieldReader_varint r) as [v r'] eqn:E. intros He'.
    assert (match readProtobufVarint (fr_rest r) with
            | Ok (_, n) => r <| fr_offset := (fr_offset r + n)%nat |>
            | Err e => r <| fr_err := Some e |>
            end = r') as Heq.
    { unfold fieldReader_varint in E. repeat case_match; by simplify_eq. }
    rewrite Heq in *. destruct (fieldReader_varint_consumes _ _ _ E He He') as [??].
    by exists (PbVarint num v).
  - destruct (wt =? wireBytes) eqn:Eb; reflect_bools; [|done].
    destruct (fieldReader_bytes r) as [bs r'] eqn:E. simpl. intros He'.
    destruct (fieldReader_bytes_consumes _ _ _ E He He') as [??]. by exists (PbBytes num bs).
Qed.

Lemma fieldReader_next_None_frame r r' :
  fieldReader_next r = (None, r') -> fr_err r' = None -> r' = r /\ fr_rest r = [].
Proof.
  unfold fieldReader_next. intros H He.
  destruct (bool_decide _) eqn:Eb; simpl in H; [reflect_bools; by simplify_eq|].
  destruct (_ <=? _)%nat eqn:El; [|repeat case_match; by simplify_eq].
  reflect_bools. simplify_eq. split; [done|]. unfold fr_rest. by apply drop_ge.
Qed.

(** A successful [next] consumed a canonical key. *)
Lemma fieldReader_next_consumes r num wt r' :
  fieldReader_next r = (Some (num, wt), r') ->
  fr_err r = None /\ fr_err r' = None /\ fr_data r' = fr_data r /\
  fr_fields r' = S (fr_fields r) /\ (fr_fields r' <= MaxProtobufFields)%nat /\
  1 <= num <= MaxUint32 /\ 0 <= wt < 8 /\
  fr_rest r = appendU64 [] (8 * num + wt) ++ fr_rest r'.
Proof.
  unfold fieldReader_next. intros H.
  destruct (bool_decide _ || _) eqn:Eb; [done|]. simpl in H.
  destruct (_ <? _)%nat eqn:Ef; [done|].
  destruct (readProtobufVarint _) as [[key n]|] eqn:Ev; [|done].
  apply readProtobufVarint_Ok in Ev as ([Hk0 Hk1] & -> & Hr). unfold fr_rest in *. simpl in *.
  destruct (_ || (_ >? _)) eqn:En; simplify_eq. simpl in *. reflect_bools.
  assert (fr_err r = None) as He by (by destruct (fr_err r); [exfalso; eauto|]).
  assert (Z.land key 7 = key mod 8) as Hw by (by rewrite (land_mask _ 3) by (reflexivity || lia)).
  rewrite Hw, Z.shiftr_div_pow2 in * by lia. change (2 ^ 3) with 8 in *.
  pose proof (Z.div_mod key 8 ltac:(lia)). pose proof (Z.mod_pos_bound key 8 ltac:(lia)).
  split_and!; try done; try lia.
  replace (8 * (key / 8) + key mod 8) with key by lia.
  rewrite Hr at 1. f_equal. by rewrite drop_drop.
Qed.

(** ** The decoder loop *)

Section Loop.
Context {A B : Type} (body : A -> Z -> Z -> fieldReader -> flow A (res B)).

(** The loop ends by itself: [next] refuses the field after the last allowed. *)
Lemma for_fields_total `{!CursorBody body} fuel acc r :
  (MaxProtobufFields < fr_fields r + fuel)%nat -> (fr_fields r <= MaxProtobufFields)%nat ->
  for_fields fuel body acc r <> None.
Proof.
  revert acc r. induction fuel as [|fuel IH]; intros acc r Hf Hr; [lia|]. simpl.
  destruct (fieldReader_next r) as [[[num wt]|] r'] eqn:E; [|done].
  apply fieldReader_next_consumes in E as (_ & _ & _ & Hs & Hle & _).
  destruct (body acc num wt r') as [acc' r''|b] eqn:Eb; [|done].
  apply cursor_body in Eb as [Heq _]. apply IH; lia.
Qed.

(** Loop rule: an invariant of the locals that every iteration keeps holds when
    the loop breaks, and a postcondition of every early return holds of it. *)
Lemma scan_message_post (I : A -> Prop) (Q : res B -> Prop) init finish data :
  I init ->
  (forall acc num wt r, I acc ->
     match body acc num wt r with Next acc' _ => I acc' | Return b => Q b end) ->
  (forall acc, I acc -> Q (finish acc)) -> (forall e, Q (Err e)) ->
  Q (scan_message body init finish data).
Proof.
  intros Hi Hb Hf He. unfold scan_message.
  assert (forall fuel acc r, I acc ->
    match for_fields fuel body acc r with
    | Some (inl (acc', _)) => I acc' | Some (inr b) => Q b | None => True end) as Hloop.
  { induction fuel as [|fuel IH]; intros acc r Ha; simpl; [done|].
    destruct (fieldReader_next r) as [[[num wt]|] r']; [|done].
    specialize (Hb acc num wt r' Ha). destruct (body acc num wt r'); [by apply IH|done]. }
  specialize (Hloop scan_fuel init (newFieldReader data) Hi).
  destruct (for_fields _ _ _ _) as [[[acc r]|b]|]; [destruct (fr_err r); auto|done|done].
Qed.

Context (absorb : A -> pbfield -> A + res B).

Lemma fieldReader_next_failed r e : fr_err r = Some e -> fieldReader_next r = (None, r).
Proof. intros He. unfold fieldReader_next. by rewrite He. Qed.

Lemma fieldReader_next_end r : fr_rest r = [] -> fieldReader_next r = (None, r).
Proof.
  intros Hr. unfold fieldReader_next.
  assert (length (fr_data r) <=? fr_offset r = true)%nat as ->; [|by rewrite orb_true_r].
  apply Nat.leb_le. apply (f_equal length) in Hr. unfold fr_rest in Hr.
  rewrite length_drop in Hr. simpl in Hr. lia.
Qed.

(** How a loop run on an encoded message ends. *)
Definition loop_outcome (o : option ((A * fieldReader) + res B)) (spec : A + res B) : Prop :=
  match spec with
  | inl acc => exists r, fr_err r = None /\ o = Some (inl (acc, r))
  | inr b => o = Some (inr b) \/
      exists e acc r, b = Err e /\ fr_err r = Some e /\ o = Some (inl (acc, r))
  end.

Lemma for_fields_encode `{!BodyAbsorbs body absorb} fs fuel acc r :
  Forall pb_wf fs -> fr_err r = None -> fr_rest r = encode_fields fs ->
  (fr_fields r + length fs <= MaxProtobufFields)%nat -> (length fs < fuel)%nat ->
  CursorBody body ->
  loop_outcome (for_fields fuel body acc r) (absorb_all absorb acc fs).
Proof.
  intros Hwf He Hr Hn Hl Hc. revert fuel acc r Hwf He Hr Hn Hl.
  induction fs as [|f fs IH]; intros fuel acc r Hwf He Hr Hn Hl;
    (destruct fuel as [|fuel]; [simpl in *; lia|]).
  - simpl. rewrite fieldReader_next_end by done. eauto.
  - apply Forall_cons in Hwf as [Hf Hwf]. rewrite encode_fields_cons in Hr. simpl in Hn, Hl.
    destruct (fieldReader_next_encode r f _ Hf He ltac:(lia) Hr) as (r1 & Hnx & He1 & _ & Hfn & Hr1).
    simpl. rewrite Hnx. pose proof (body_absorbs acc f r1 _ Hf He1 Hr1) as Hb.
    destruct (absorb acc f) as [acc'|b].
    + rewrite Hb. apply IH; [done..| | |lia].
      * by apply (fr_rest_advance_app _ _ _ _ Hr1).
      * simpl. lia.
    + destruct Hb as [->|(e & acc' & r' & -> & -> & He')]; [by left|right].
      destruct fuel as [|fuel]; [lia|]. simpl. rewrite (fieldReader_next_failed _ _ He'). eauto 10.
Qed.

(** Decoding an encoded message folds the handler over its fields. *)
Lemma scan_encode `{!BodyAbsorbs body absorb} `{!CursorBody body} init finish fs :
  Forall pb_wf fs -> (length fs <= MaxProtobufFields)%nat ->
  scan_message body init finish (encode_fields fs) =
    match absorb_all absorb init fs with inl acc => finish acc | inr b => b end.
Proof.
  intros Hwf Hl. unfold scan_message.
  pose proof (for_fields_encode fs scan_fuel init (newFieldReader (encode_fields fs)) Hwf eq_refl
    ltac:(unfold fr_rest; simpl; by rewrite drop_0) ltac:(simpl; lia) ltac:(unfold scan_fuel; lia) _) as Ho.
  destruct (absorb_all absorb init fs) as [acc|b]; cbn [loop_outcome] in Ho.
  - destruct Ho as (r & He & ->). by rewrite He.
  - destruct Ho as [->|(e & acc & r & -> & He & ->)]; [done|]. by rewrite He.
Qed.

(** Conversely a run that breaks without error has read an encoded message. *)
Lemma for_fields_canonical `{!BodyConsumes body} `{!CursorBody body} fuel acc r acc' r' :
  for_fields fuel body acc r = Some (inl (acc', r')) -> fr_err r' = None ->
  (fr_fields r <= MaxProtobufFields)%nat ->
  exists fs, Forall pb_wf fs /\ fr_rest r = encode_fields fs /\
    (fr_fields r + length fs <= MaxProtobufFields)%nat /\ fr_err r = None.
Proof.
  revert acc r. induction fuel as [|fuel IH]; intros acc r H He Hle; simpl in H; [done|].
  destruct (fieldReader_next r) as [[[num wt]|] r1] eqn:E.
  - apply fieldReader_next_consumes in E as (He0 & He1 & _ & Hs & Hle1 & Hn & Hw & Hr).
    destruct (body acc num wt r1) as [acc2 r2|] eqn:Eb; [|done].
    destruct (cursor_body _ _ _ _ _ _ Eb) as [Hf2 Hd2].
    destruct (IH _ _ H He ltac:(lia)) as (fs & Hwf & Hr2 & Hl & He2).
    destruct (body_consumes _ _ _ _ _ _ Hn He1 Eb He2) as (f & <- & <- & Hf & Hr1).
    exists (f :: fs). rewrite encode_fields_cons, Hr, Hr1, Hr2. unfold encode_field, pb_key.
    split_and!; [by constructor|by rewrite <- app_assoc|simpl; lia|done].
  - simplify_eq. destruct (fieldReader_next_None_frame _ _ E He) as [-> Hr].
    exists []. split_and!; [constructor|done|simpl; lia|done].
Qed.

Lemma for_fields_returns_error `{!BodyConsumes body} fuel acc r b :
  for_fields fuel body acc r = Some (inr b) -> exists e, b = Err e.
Proof.
  revert acc r. induction fuel as [|fuel IH]; intros acc r H; simpl in H; [done|].
  destruct (fieldReader_next r) as [[[num wt]|] r1]; [|done].
  destruct (body acc num wt r1) eqn:Eb; [eauto|]. simplify_eq. by eapply body_returns_errors.
Qed.

(** A decoder succeeds exactly on the encodings of well-formed field lists its
    fold accepts. *)
Lemma scan_message_iff `{!BodyAbsorbs body absorb} `{!BodyConsumes body} `{!CursorBody body}
    init finish data b :
  scan_message body init finish data = Ok b <->
  exists fs acc, data = encode_fields fs /\ Forall pb_wf fs /\ (length fs <= MaxProtobufFields)%nat /\
    absorb_all absorb init fs = inl acc /\ finish acc = Ok b.
Proof.
  split.
  - intros H. unfold scan_message in H.
    destruct (for_fields _ _ _ _) as [[[acc r]|b']|] eqn:E; [|by destruct (for_fields_returns_error _ _ _ _ E); simplify_eq|done].
    destruct (fr_err r) eqn:He; [done|].
    destruct (for_fields_canonical _ _ _ _ _ E He ltac:(simpl; lia)) as (fs & Hwf & Hr & Hl & _).
    unfold fr_rest in Hr. simpl in Hr, Hl. rewrite drop_0 in Hr. subst data.
    pose proof (for_fields_encode fs scan_fuel init (newFieldReader (encode_fields fs)) Hwf eq_refl
      ltac:(unfold fr_rest; simpl; by rewrite drop_0) Hl ltac:(unfold scan_fuel; lia) _) as Ho.
    rewrite E in Ho. destruct (absorb_all absorb init fs) as [acc'|] eqn:Ea; cbn [loop_outcome] in Ho.
    + destruct Ho as (? & _ & [= <- _]). by exists fs, acc.
    + destruct Ho as [?|(? & ? & ? & _ & ? & ?)]; simplify_eq.
  - intros (fs & acc & -> & Hwf & Hl & Ha & Hb). by rewrite scan_encode, Ha.
Qed.

End Loop.

(** ** Instances by computation *)

Ltac frames :=
  repeat match goal with
  | H : fieldReader_varint _ = _ |- _ => apply fieldReader_varint_frame in H
  | H : fieldReader_uint32 _ = _ |- _ => apply fieldReader_uint32_frame in H
  | H : fieldReader_bytes _ = _ |- _ => apply fieldReader_bytes_frame in H
  | H : fieldReader_string _ = _ |- _ => apply fieldReader_bytes_frame in H
  end.

(** [CursorBody] of a concrete body. *)
Ltac solve_cursor :=
  let H := fresh "H" in
  intros ?????? H; hnf in H;
  repeat (case_match; simplify_eq); frames;
  first [ apply fieldReader_skip_frame | naive_solver ].

(** ** Properties *)

(** The protobuf varint decoder accepts exactly what [appendU64] writes: it
    returns [v] and [n] iff [v] is a [uint64] and the input starts with the
    [n]-byte canonical base-128 encoding of [v].  Overlong, overflowing and
    truncated encodings are all refused. *)
Theorem readProtobufVarint_iff_canonical data v n :
  readProtobufVarint data = Ok (v, n) <->
  is_u64 v /\ exists rest, data = appendU64 [] v ++ rest /\ n = length (appendU64 [] v).
Proof.
  split.
  - intros H. destruct (readProtobufVarint_Ok _ _ _ H) as (? & ? & ?). eauto.
  - intros (? & rest & -> & ->). by apply readProtobufVarint_append.
Qed.
