(* ===== verification/Messages.v ===== *)
(** * SABR messages

    [proto.go] (message structs, their writers and decoders, and the tick
    arithmetic), [validate.go] and the constructors of [integers.go] of
    [internal/protocol/youtubeump].

    A decoder [unmarshalX] is [scan_message] over a body that is its [switch];
    [X_absorb] is what the decoder means on the abstract field list.  The
    [Itag] of a decoded message is a non-negative [int32] because
    [int32FromUint64] refuses the rest.  [playbackRequest] is in [Request]. *)
From S2P Require Import Prelude Errors Varint Wire.

(** ** Field numbers *)

Definition fFormatItag : Z := 1.
Definition fFormatLastModified : Z := 2.
Definition fFormatXTags : Z := 3.

Definition fClientInfoDeviceMake : Z := 12.
Definition fClientInfoDeviceModel : Z := 13.
Definition fClientInfoClientName : Z := 16.
Definition fClientInfoClientVersion : Z := 17.
Definition fClientInfoOSName : Z := 18.
Definition fClientInfoOSVersion : Z := 19.
Definition fClientInfoAcceptLanguage : Z := 21.

Definition fBufferedFormatID : Z := 1.
Definition fBufferedStartTimeMs : Z := 2.
Definition fBufferedDurationMs : Z := 3.
Definition fBufferedStartSegmentIndex : Z := 4.
Definition fBufferedEndSegmentIndex : Z := 5.
Definition fBufferedTimeRange : Z := 6.

Definition fFormatInitVideoID : Z := 1.
Definition fFormatInitFormatID : Z := 2.

Definition fMediaHdrHeaderID : Z := 1.
Definition fMediaHdrItag : Z := 3.
Definition fMediaHdrIsInitSeg : Z := 8.
Definition fMediaHdrSequenceNum : Z := 9.
Definition fMediaHdrDurationMs : Z := 12.
Definition fMediaHdrFormatID : Z := 13.
Definition fMediaHdrContentLength : Z := 14.
Definition fMediaHdrTimeRange : Z := 15.

Definition fTimeRangeStartTicks : Z := 1.
Definition fTimeRangeDurationTicks : Z := 2.
Definition fTimeRangeTimescale : Z := 3.

(** ** Structs *)

Record FormatID := mkFormatID {
  fmt_Itag : Z;          (* int32 *)
  fmt_LastModified : Z;  (* uint64 *)
  fmt_XTags : bytes      (* string *)
}.
#[export] Instance eta_FormatID : Eta FormatID :=
  fun f => mkFormatID (fmt_Itag f) (fmt_LastModified f) (fmt_XTags f).
#[export] Instance FormatID_eq_dec : EqDecision FormatID.
Proof. solve_decision. Defined.

Record ClientInfo := mkClientInfo {
  ci_ClientName : Z;     (* int32 *)
  ci_ClientVersion : bytes;
  ci_OSName : bytes;
  ci_OSVersion : bytes;
  ci_DeviceMake : bytes;
  ci_DeviceModel : bytes;
  ci_AcceptLanguage : bytes
}.

Record TimeRange := mkTimeRange {
  tr_StartTicks : Z;     (* int64 *)
  tr_DurationTicks : Z;  (* int64 *)
  tr_Timescale : Z       (* int32 *)
}.
#[export] Instance eta_TimeRange : Eta TimeRange :=
  fun t => mkTimeRange (tr_StartTicks t) (tr_DurationTicks t) (tr_Timescale t).
#[export] Instance TimeRange_eq_dec : EqDecision TimeRange.
Proof. solve_decision. Defined.

Record MediaHeader := mkMediaHeader {
  hdr_HeaderID : Z;       (* uint32 *)
  hdr_Itag : Z;           (* int32 *)
  hdr_IsInitSeg : bool;
  hdr_SequenceNumber : Z; (* uint64 *)
  hdr_DurationMs : Z;     (* int64 *)
  hdr_FormatID : FormatID;
  hdr_ContentLength : Z;  (* int64 *)
  hdr_TimeRange : TimeRange
}.
#[export] Instance eta_MediaHeader : Eta MediaHeader :=
  fun h => mkMediaHeader (hdr_HeaderID h) (hdr_Itag h) (hdr_IsInitSeg h) (hdr_SequenceNumber h)
             (hdr_DurationMs h) (hdr_FormatID h) (hdr_ContentLength h) (hdr_TimeRange h).

Record FormatInitializationMetadata := mkFormatInit {
  init_VideoID : bytes;
  init_FormatID : FormatID
}.
#[export] Instance eta_FormatInit : Eta FormatInitializationMetadata :=
  fun m => mkFormatInit (init_VideoID m) (init_FormatID m).

(** [assembler.go] *)
Record BufferedRange := mkBufferedRange {
  br_FormatID : FormatID;
  br_StartTimeMs : Z;        (* int64 *)
  br_DurationMs : Z;         (* int64 *)
  br_StartSegmentIndex : Z;  (* int32 *)
  br_EndSegmentIndex : Z;    (* int32 *)
  br_TimeRange : TimeRange
}.

(** Go zero values. *)
Definition zeroFormatID : FormatID := mkFormatID 0 0 [].
Definition zeroTimeRange : TimeRange := mkTimeRange 0 0 0.
Definition zeroMediaHeader : MediaHeader :=
  mkMediaHeader 0 0 false 0 0 zeroFormatID 0 zeroTimeRange.
Definition zeroFormatInit : FormatInitializationMetadata := mkFormatInit [] zeroFormatID.

(** [s != ""] *)
Definition nonempty (s : bytes) : bool := negb (zlen s =? 0).

(** ** Writers *)

Definition FormatID_marshal (format : FormatID) : bytes :=
  let buf := appendProtobufVarint [] fFormatItag (u64 (fmt_Itag format)) in
  let buf := if negb (fmt_LastModified format =? 0)
    then appendProtobufVarint buf fFormatLastModified (fmt_LastModified format) else buf in
  if nonempty (fmt_XTags format) then appendProtobufBytes buf fFormatXTags (fmt_XTags format) else buf.

Definition ClientInfo_marshal (info : ClientInfo) : bytes :=
  let opt field s buf := if nonempty s then appendProtobufBytes buf field s else buf in
  let buf := opt fClientInfoDeviceMake (ci_DeviceMake info) [] in
  let buf := opt fClientInfoDeviceModel (ci_DeviceModel info) buf in
  let buf := if negb (ci_ClientName info =? 0)
    then appendProtobufVarint buf fClientInfoClientName (u64 (ci_ClientName info)) else buf in
  let buf := opt fClientInfoClientVersion (ci_ClientVersion info) buf in
  let buf := opt fClientInfoOSName (ci_OSName info) buf in
  let buf := opt fClientInfoOSVersion (ci_OSVersion info) buf in
  opt fClientInfoAcceptLanguage (ci_AcceptLanguage info) buf.

(** ** Validation ([validate.go]) *)

Definition validateFormatIDWire (format : FormatID) : res unit :=
  if fmt_Itag format <=? 0 then Err ErrMissingConfig else Ok tt.

Definition validateClientInfoWire (info : ClientInfo) : res unit :=
  if ci_ClientName info <=? 0 then Err ErrMissingConfig else Ok tt.

Definition validateTimeRangeWire (tr : TimeRange) : res unit :=
  if (tr_StartTicks tr <? 0) || (tr_DurationTicks tr <? 0) then Err ErrInvalidMediaState
  else if tr_Timescale tr <? 0 then Err ErrVarintOverflow
  else Ok tt.

Definition validateBufferedRange (br : BufferedRange) : res unit :=
  _ ← validateFormatIDWire (br_FormatID br);
  if (br_StartTimeMs br <? 0) || (br_DurationMs br <? 0) then Err ErrInvalidMediaState
  else if (br_StartSegmentIndex br <? 0) || (br_EndSegmentIndex br <? 0) then Err ErrVarintOverflow
  else
    _ ← int32SegmentIndex (u64 (br_StartSegmentIndex br));
    _ ← int32SegmentIndex (u64 (br_EndSegmentIndex br));
    validateTimeRangeWire (br_TimeRange br).

Definition formatIdentityConflicts (configured observed : FormatID) : res unit :=
  if negb (fmt_Itag observed =? 0) && negb (fmt_Itag observed =? fmt_Itag configured)
  then Err ErrInvalidMediaState
  else if negb (fmt_LastModified configured =? 0) && negb (fmt_LastModified observed =? 0)
            && negb (fmt_LastModified observed =? fmt_LastModified configured)
  then Err ErrInvalidMediaState
  else if nonempty (fmt_XTags configured) && nonempty (fmt_XTags observed)
            && negb (bool_decide (fmt_XTags observed = fmt_XTags configured))
  then Err ErrInvalidMediaState
  else Ok tt.

Definition headerItag (header : MediaHeader) : Z :=
  if negb (fmt_Itag (hdr_FormatID header) =? 0) then fmt_Itag (hdr_FormatID header)
  else hdr_Itag header.

Definition headerRepresentationID (header : MediaHeader) : FormatID :=
  let f := hdr_FormatID header in
  if negb (fmt_Itag f =? 0) || negb (fmt_LastModified f =? 0) || nonempty (fmt_XTags f) then f
  else mkFormatID (hdr_Itag header) 0 [].

Definition TimeRange_marshal (tr : TimeRange) : res bytes :=
  _ ← validateTimeRangeWire tr;
  let buf := if negb (tr_StartTicks tr =? 0)
    then appendProtobufVarint [] fTimeRangeStartTicks (u64 (tr_StartTicks tr)) else [] in
  let buf := if negb (tr_DurationTicks tr =? 0)
    then appendProtobufVarint buf fTimeRangeDurationTicks (u64 (tr_DurationTicks tr)) else buf in
  Ok (if negb (tr_Timescale tr =? 0)
      then appendProtobufVarint buf fTimeRangeTimescale (u64 (tr_Timescale tr)) else buf).

Definition BufferedRange_marshal (br : BufferedRange) : res bytes :=
  _ ← validateBufferedRange br;
  let buf := appendProtobufBytes [] fBufferedFormatID (FormatID_marshal (br_FormatID br)) in
  let buf := appendProtobufVarint buf fBufferedStartTimeMs (u64 (br_StartTimeMs br)) in
  let buf := appendProtobufVarint buf fBufferedDurationMs (u64 (br_DurationMs br)) in
  let buf := appendProtobufVarint buf fBufferedStartSegmentIndex (u64 (br_StartSegmentIndex br)) in
  let buf := appendProtobufVarint buf fBufferedEndSegmentIndex (u64 (br_EndSegmentIndex br)) in
  let tr := br_TimeRange br in
  if negb (tr_Timescale tr =? 0) || negb (tr_DurationTicks tr =? 0) || negb (tr_StartTicks tr =? 0)
  then timeRange ← TimeRange_marshal tr; Ok (appendProtobufBytes buf fBufferedTimeRange timeRange)
  else Ok buf.

(** [marshalMediaHeader] does not write the time range. *)
Definition marshalMediaHeader (header : MediaHeader) : bytes :=
  let buf := appendProtobufVarint [] fMediaHdrHeaderID (u64 (hdr_HeaderID header)) in
  let buf := if negb (hdr_Itag header =? 0)
    then appendProtobufVarint buf fMediaHdrItag (u64 (hdr_Itag header)) else buf in
  let buf := if hdr_IsInitSeg header then appendProtobufVarint buf fMediaHdrIsInitSeg 1 else buf in
  let buf := if negb (hdr_SequenceNumber header =? 0)
    then appendProtobufVarint buf fMediaHdrSequenceNum (hdr_SequenceNumber header) else buf in
  let buf := if negb (hdr_DurationMs header =? 0)
    then appendProtobufVarint buf fMediaHdrDurationMs (u64 (hdr_DurationMs header)) else buf in
  let f := hdr_FormatID header in
  let buf := if negb (fmt_Itag f =? 0) || negb (fmt_LastModified f =? 0) || nonempty (fmt_XTags f)
    then appendProtobufBytes buf fMediaHdrFormatID (FormatID_marshal f) else buf in
  if negb (hdr_ContentLength header =? 0)
  then appendProtobufVarint buf fMediaHdrContentLength (u64 (hdr_ContentLength header)) else buf.

Definition formatIDFromItag (itag lastModified : Z) (xtags : bytes) : res FormatID :=
  if (itag <=? 0) || (itag >? MaxInt32) then Err ErrMissingConfig
  else if lastModified <? 0 then Err ErrMissingConfig
  else if lastModified >? MaxInt64 then Err ErrVarintOverflow
  else Ok (mkFormatID (i32 itag) (u64 lastModified) xtags).

Definition clientInfoFromID (clientID : Z) (version : bytes) : res ClientInfo :=
  if (clientID <=? 0) || (clientID >? MaxInt32) then Err ErrMissingConfig
  else Ok (mkClientInfo (i32 clientID) version [] [] [] [] []).

(** ** Tick arithmetic *)

Definition mulInt64 (a b : Z) : Z * bool :=
  if (a =? 0) || (b =? 0) then (0, true)
  else if a >? Z.quot MaxInt64 b then (0, false)
  else (i64 (a * b), true).

Definition addInt64 (a b : Z) : Z * bool :=
  if (b >? 0) && (a >? i64 (MaxInt64 - b)) then (0, false)
  else if (b <? 0) && (a <? i64 (MinInt64 - b)) then (0, false)
  else (i64 (a + b), true).

(** [math/bits]: 128-bit product, sum with carry, and division, which panics
    ([None]) when the quotient does not fit 64 bits. *)
Definition bits_Mul64 (x y : Z) : Z * Z := (x * y / 2 ^ 64, (x * y) mod 2 ^ 64).
Definition bits_Add64 (x y carry : Z) : Z * Z := ((x + y + carry) mod 2 ^ 64, (x + y + carry) / 2 ^ 64).
Definition bits_Div64 (hi lo y : Z) : option (Z * Z) :=
  if (y =? 0) || (y <=? hi) then None
  else Some ((hi * 2 ^ 64 + lo) / y, (hi * 2 ^ 64 + lo) mod y).

(** [None] is a run-time panic. *)
Definition ceilMulDiv (a b divisor : Z) : option (Z * bool) :=
  if (a <=? 0) || (b <=? 0) || (divisor <=? 0) then Some (0, false)
  else
    let '(hi, lo) := bits_Mul64 (u64 a) (u64 b) in
    let '(lo, carry) := bits_Add64 lo (u64 (u64 divisor - 1)) 0 in
    let '(hi, _) := bits_Add64 hi 0 carry in
    match bits_Div64 hi lo (u64 divisor) with
    | None => None
    | Some (quotient, _) =>
        if quotient >? u64 MaxInt64 then Some (0, false) else Some (i64 quotient, true)
    end.

Definition ceilMillisFromTicks (ticks timescale : Z) : option (Z * bool) :=
  if (ticks <=? 0) || (timescale <=? 0) then Some (0, false)
  else
    let quotient := Z.quot ticks timescale in
    let remainder := Z.rem ticks timescale in
    let '(base, ok) := mulInt64 quotient 1000 in
    if negb ok then Some (0, false)
    else if remainder =? 0 then Some (base, true)
    else
      match ceilMulDiv remainder 1000 timescale with
      | None => None
      | Some (fraction, ok) => if negb ok then Some (0, false) else Some (addInt64 base fraction)
      end.

(** Never panics ([ceilMillisFromTicks_exact]), so the default is not used. *)
Definition effectiveDurationMs (header : MediaHeader) : Z :=
  if hdr_DurationMs header >? 0 then hdr_DurationMs header
  else
    let timescale := tr_Timescale (hdr_TimeRange header) in
    let ticks := tr_DurationTicks (hdr_TimeRange header) in
    if (ticks <=? 0) || (timescale <=? 0) then 0
    else
      match ceilMillisFromTicks ticks timescale with
      | Some (duration, true) => duration
      | _ => 0
      end.

(** ** Decoders *)

(** [x, err := conv(reader.varint()); if reader.err != nil { return reader.err };
    if err != nil { return err }; field = x] *)
Definition read_converted {A B} (conv : Z -> res Z) (set : Z -> A) (r : fieldReader)
  : flow A (res B) :=
  let '(raw, r) := fieldReader_varint r in
  match fr_err r with
  | Some e => Return (Err e)
  | None =>
      match conv raw with
      | Err e => Return (Err e)
      | Ok value => Next (set value) r
      end
  end.

Definition unmarshalFormatID_body (format : FormatID) (num wt : Z) (r : fieldReader)
  : flow FormatID (res FormatID) :=
  if (num =? fFormatItag) && (wt =? wireVarint) then
    read_converted int32FromUint64 (fun v => format <| fmt_Itag := v |>) r
  else if (num =? fFormatLastModified) && (wt =? wireVarint) then
    let '(v, r) := fieldReader_varint r in Next (format <| fmt_LastModified := v |>) r
  else if (num =? fFormatXTags) && (wt =? wireBytes) then
    let '(s, r) := fieldReader_string r in Next (format <| fmt_XTags := s |>) r
  else Next format (fieldReader_skip num wt r).

Definition unmarshalFormatID (data : bytes) : res FormatID :=
  scan_message unmarshalFormatID_body zeroFormatID Ok data.

Definition unmarshalTimeRange_body (tr : TimeRange) (num wt : Z) (r : fieldReader)
  : flow TimeRange (res TimeRange) :=
  if (num =? fTimeRangeStartTicks) && (wt =? wireVarint) then
    read_converted int64FromUint64 (fun v => tr <| tr_StartTicks := v |>) r
  else if (num =? fTimeRangeDurationTicks) && (wt =? wireVarint) then
    read_converted int64FromUint64 (fun v => tr <| tr_DurationTicks := v |>) r
  else if (num =? fTimeRangeTimescale) && (wt =? wireVarint) then
    read_converted int32FromUint64 (fun v => tr <| tr_Timescale := v |>) r
  else Next tr (fieldReader_skip num wt r).

Definition unmarshalTimeRange (data : bytes) : res TimeRange :=
  scan_message unmarshalTimeRange_body zeroTimeRange Ok data.

Definition unmarshalMediaHeader_body (header : MediaHeader) (num wt : Z) (r : fieldReader)
  : flow MediaHeader (res MediaHeader) :=
  if (num =? fMediaHdrHeaderID) && (wt =? wireVarint) then
    let '(v, r) := fieldReader_uint32 r in Next (header <| hdr_HeaderID := v |>) r
  else if (num =? fMediaHdrItag) && (wt =? wireVarint) then
    read_converted int32FromUint64 (fun v => header <| hdr_Itag := v |>) r
  else if (num =? fMediaHdrIsInitSeg) && (wt =? wireVarint) then
    let '(v, r) := fieldReader_varint r in Next (header <| hdr_IsInitSeg := negb (v =? 0) |>) r
  else if (num =? fMediaHdrSequenceNum) && (wt =? wireVarint) then
    let '(v, r) := fieldReader_varint r in Next (header <| hdr_SequenceNumber := v |>) r
  else if (num =? fMediaHdrDurationMs) && (wt =? wireVarint) then
    read_converted int64FromUint64 (fun v => header <| hdr_DurationMs := v |>) r
  else if (num =? fMediaHdrFormatID) && (wt =? wireBytes) then
    let '(bs, r) := fieldReader_bytes r in
    match unmarshalFormatID bs with
    | Err e => Return (Err e)
    | Ok format => Next (header <| hdr_FormatID := format |>) r
    end
  else if (num =? fMediaHdrContentLength) && (wt =? wireVarint) then
    read_converted int64FromUint64 (fun v => header <| hdr_ContentLength := v |>) r
  else if (num =? fMediaHdrTimeRange) && (wt =? wireBytes) then
    let '(bs, r) := fieldReader_bytes r in
    match unmarshalTimeRange bs with
    | Err e => Return (Err e)
    | Ok tr => Next (header <| hdr_TimeRange := tr |>) r
    end
  else Next header (fieldReader_skip num wt r).

Definition unmarshalMediaHeader (data : bytes) : res MediaHeader :=
  scan_message unmarshalMediaHeader_body zeroMediaHeader Ok data.

Definition unmarshalFormatInitializationMetadata_body (meta : FormatInitializationMetadata)
    (num wt : Z) (r : fieldReader)
  : flow FormatInitializationMetadata (res FormatInitializationMetadata) :=
  if (num =? fFormatInitVideoID) && (wt =? wireBytes) then
    let '(s, r) := fieldReader_string r in Next (meta <| init_VideoID := s |>) r
  else if (num =? fFormatInitFormatID) && (wt =? wireBytes) then
    let '(bs, r) := fieldReader_bytes r in
    match unmarshalFormatID bs with
    | Err e => Return (Err e)
    | Ok format => Next (meta <| init_FormatID := format |>) r
    end
  else Next meta (fieldReader_skip num wt r).

Definition unmarshalFormatInitializationMetadata (data : bytes)
  : res FormatInitializationMetadata :=
  scan_message unmarshalFormatInitializationMetadata_body zeroFormatInit Ok data.

(** ** What the decoders mean on an abstract message *)

Definition absorb_converted {A B} (conv : Z -> res Z) (set : Z -> A) (v : Z) : A + res B :=
  match conv v with Err e => inr (Err e) | Ok value => inl (set value) end.

Definition FormatID_absorb (format : FormatID) (f : pbfield) : FormatID + res FormatID :=
  match f with
  | PbVarint num v =>
      if num =? fFormatItag
      then absorb_converted int32FromUint64 (fun v => format <| fmt_Itag := v |>) v
      else if num =? fFormatLastModified then inl (format <| fmt_LastModified := v |>)
      else inl format
  | PbBytes num bs =>
      if num =? fFormatXTags then inl (format <| fmt_XTags := bs |>) else inl format
  end.

Definition TimeRange_absorb (tr : TimeRange) (f : pbfield) : TimeRange + res TimeRange :=
  match f with
  | PbVarint num v =>
      if num =? fTimeRangeStartTicks
      then absorb_converted int64FromUint64 (fun v => tr <| tr_StartTicks := v |>) v
      else if num =? fTimeRangeDurationTicks
      then absorb_converted int64FromUint64 (fun v => tr <| tr_DurationTicks := v |>) v
      else if num =? fTimeRangeTimescale
      then absorb_converted int32FromUint64 (fun v => tr <| tr_Timescale := v |>) v
      else inl tr
  | PbBytes _ _ => inl tr
  end.

Definition MediaHeader_absorb (h : MediaHeader) (f : pbfield) : MediaHeader + res MediaHeader :=
  match f with
  | PbVarint num v =>
      if num =? fMediaHdrHeaderID then
        if v >? MaxUint32 then inr (Err ErrVarintOverflow) else inl (h <| hdr_HeaderID := v |>)
      else if num =? fMediaHdrItag
      then absorb_converted int32FromUint64 (fun v => h <| hdr_Itag := v |>) v
      else if num =? fMediaHdrIsInitSeg then inl (h <| hdr_IsInitSeg := negb (v =? 0) |>)
      else if num =? fMediaHdrSequenceNum then inl (h <| hdr_SequenceNumber := v |>)
      else if num =? fMediaHdrDurationMs
      then absorb_converted int64FromUint64 (fun v => h <| hdr_DurationMs := v |>) v
      else if num =? fMediaHdrContentLength
      then absorb_converted int64FromUint64 (fun v => h <| hdr_ContentLength := v |>) v
      else inl h
  | PbBytes num bs =>
      if num =? fMediaHdrFormatID then
        match unmarshalFormatID bs with
        | Err e => inr (Err e) | Ok format => inl (h <| hdr_FormatID := format |>) end
      else if num =? fMediaHdrTimeRange then
        match unmarshalTimeRange bs with
        | Err e => inr (Err e) | Ok tr => inl (h <| hdr_TimeRange := tr |>) end
      else inl h
  end.

(** The fields [FormatID_marshal], [TimeRange_marshal] and
    [marshalMediaHeader] write. *)
Definition FormatID_fields (f : FormatID) : list pbfield :=
  [PbVarint fFormatItag (u64 (fmt_Itag f))] ++
  (if negb (fmt_LastModified f =? 0) then [PbVarint fFormatLastModified (fmt_LastModified f)] else []) ++
  (if nonempty (fmt_XTags f) then [PbBytes fFormatXTags (fmt_XTags f)] else []).

Definition TimeRange_fields (t : TimeRange) : list pbfield :=
  (if negb (tr_StartTicks t =? 0) then [PbVarint fTimeRangeStartTicks (u64 (tr_StartTicks t))] else []) ++
  (if negb (tr_DurationTicks t =? 0) then [PbVarint fTimeRangeDurationTicks (u64 (tr_DurationTicks t))] else []) ++
  (if negb (tr_Timescale t =? 0) then [PbVarint fTimeRangeTimescale (u64 (tr_Timescale t))] else []).

Definition has_format (f : FormatID) : bool :=
  negb (fmt_Itag f =? 0) || negb (fmt_LastModified f =? 0) || nonempty (fmt_XTags f).

Definition MediaHeader_fields (h : MediaHeader) : list pbfield :=
  [PbVarint fMediaHdrHeaderID (u64 (hdr_HeaderID h))] ++
  (if negb (hdr_Itag h =? 0) then [PbVarint fMediaHdrItag (u64 (hdr_Itag h))] else []) ++
  (if hdr_IsInitSeg h then [PbVarint fMediaHdrIsInitSeg 1] else []) ++
  (if negb (hdr_SequenceNumber h =? 0) then [PbVarint fMediaHdrSequenceNum (hdr_SequenceNumber h)] else []) ++
  (if negb (hdr_DurationMs h =? 0) then [PbVarint fMediaHdrDurationMs (u64 (hdr_DurationMs h))] else []) ++
  (if has_format (hdr_FormatID h) then [PbBytes fMediaHdrFormatID (FormatID_marshal (hdr_FormatID h))] else []) ++
  (if negb (hdr_ContentLength h =? 0) then [PbVarint fMediaHdrContentLength (u64 (hdr_ContentLength h))] else []).

(** Struct values the wire can carry: widths, signs and size bounds. *)
Definition FormatID_wf (f : FormatID) : Prop :=
  0 <= fmt_Itag f <= MaxInt32 /\ is_u64 (fmt_LastModified f) /\ zlen (fmt_XTags f) < 2 ^ 20.

Definition TimeRange_wf (t : TimeRange) : Prop :=
  0 <= tr_StartTicks t <= MaxInt64 /\ 0 <= tr_DurationTicks t <= MaxInt64 /\
  0 <= tr_Timescale t <= MaxInt32.

Definition MediaHeader_wf (h : MediaHeader) : Prop :=
  is_u32 (hdr_HeaderID h) /\ 0 <= hdr_Itag h <= MaxInt32 /\ is_u64 (hdr_SequenceNumber h) /\
  0 <= hdr_DurationMs h <= MaxInt64 /\ FormatID_wf (hdr_FormatID h) /\
  0 <= hdr_ContentLength h <= MaxInt64.

(** ** Lemmas: instances of the decoder interfaces *)

Lemma read_converted_cursor {A B} conv (set : Z -> A) r acc r' :
  @read_converted A B conv set r = Next acc r' ->
  fr_fields r' = fr_fields r /\ fr_data r' = fr_data r.
Proof.
  unfold read_converted. intros H. destruct (fieldReader_varint r) as [v r0] eqn:E.
  apply fieldReader_varint_frame in E. repeat case_match; by simplify_eq.
Qed.

Lemma read_converted_consumes {A B} conv (set : Z -> A) r acc r' num :
  1 <= num <= MaxUint32 -> fr_err r = None ->
  @read_converted A B conv set r = Next acc r' -> fr_err r' = None ->
  exists f, pb_num f = num /\ pb_wire f = wireVarint /\ pb_wf f /\ fr_rest r = pb_payload f ++ fr_rest r'.
Proof.
  unfold read_converted. intros Hn He H He'. destruct (fieldReader_varint r) as [v r0] eqn:E.
  repeat case_match; simplify_eq.
  destruct (fieldReader_varint_consumes _ _ _ E He He') as [??]. by exists (PbVarint num v).
Qed.

Lemma read_converted_errors {A B} conv (set : Z -> A) r b :
  read_converted conv set r = Return b -> exists e, b = @Err go_error B e.
Proof. unfold read_converted. intros H. repeat case_match; simplify_eq; eauto. Qed.

Lemma read_converted_absorbs {A B} conv (set : Z -> A) r v rest :
  is_u64 v -> fr_err r = None -> fr_rest r = appendU64 [] v ++ rest ->
  @read_converted A B conv set r =
    match absorb_converted conv set v with
    | inl acc' => Next acc' (fr_advance (length (appendU64 [] v)) r)
    | inr b => Return b
    end.
Proof.
  intros Hv He Hr. unfold read_converted, absorb_converted.
  rewrite (fieldReader_varint_payload _ _ _ Hv Hr). simpl. rewrite He. by case_match.
Qed.

Lemma fieldReader_uint32_payload r v rest :
  is_u64 v -> fr_err r = None -> fr_rest r = appendU64 [] v ++ rest -> v <= MaxUint32 ->
  fieldReader_uint32 r = (v, fr_advance (length (appendU64 [] v)) r).
Proof.
  intros Hv He Hr Hm. unfold fieldReader_uint32. rewrite (fieldReader_varint_payload _ _ _ Hv Hr).
  simpl. rewrite He. simpl. assert (v >? MaxUint32 = false) as -> by lia.
  by rewrite (wrapu_small 32) by width_lia.
Qed.

Lemma fieldReader_uint32_overflow r v rest :
  is_u64 v -> fr_err r = None -> fr_rest r = appendU64 [] v ++ rest -> MaxUint32 < v ->
  exists r', fieldReader_uint32 r = (0, r') /\ fr_err r' = Some ErrVarintOverflow.
Proof.
  intros Hv He Hr Hm. unfold fieldReader_uint32. rewrite (fieldReader_varint_payload _ _ _ Hv Hr).
  simpl. rewrite He. simpl. assert (v >? MaxUint32 = true) as -> by lia. eauto.
Qed.

Lemma fieldReader_uint32_consumes r v r' :
  fieldReader_uint32 r = (v, r') -> fr_err r = None -> fr_err r' = None ->
  is_u64 v /\ fr_rest r = appendU64 [] v ++ fr_rest r'.
Proof.
  unfold fieldReader_uint32. intros H He He'.
  destruct (fieldReader_varint r) as [v0 r0] eqn:E.
  destruct (bool_decide _) eqn:Eb; reflect_bools; simplify_eq; try done.
  destruct (v0 >? MaxUint32) eqn:Em; reflect_bools; simplify_eq; try done.
  destruct (fieldReader_varint_consumes _ _ _ E He He') as [Hv Hr].
  rewrite (wrapu_small 32) by width_lia. done.
Qed.

(** Consumption of one field by each reader operation. *)
Ltac consumed :=
  match goal with
  | H : read_converted _ _ _ = Next _ _ |- _ => by eapply read_converted_consumes
  | E : fieldReader_varint ?r = (?v, ?r'), He : fr_err ?r = None, He' : fr_err ?r' = None |- exists f, pb_num f = ?n /\ _ =>
      destruct (fieldReader_varint_consumes _ _ _ E He He'); by exists (PbVarint n v)
  | E : fieldReader_uint32 ?r = (?v, ?r'), He : fr_err ?r = None, He' : fr_err ?r' = None |- exists f, pb_num f = ?n /\ _ =>
      destruct (fieldReader_uint32_consumes _ _ _ E He He'); by exists (PbVarint n v)
  | E : fieldReader_bytes ?r = (?v, ?r'), He : fr_err ?r = None, He' : fr_err ?r' = None |- exists f, pb_num f = ?n /\ _ =>
      destruct (fieldReader_bytes_consumes _ _ _ E He He'); by exists (PbBytes n v)
  | E : fieldReader_string ?r = (?v, ?r'), He : fr_err ?r = None, He' : fr_err ?r' = None |- exists f, pb_num f = ?n /\ _ =>
      destruct (fieldReader_bytes_consumes _ _ _ E He He'); by exists (PbBytes n v)
  | |- _ => by apply fieldReader_skip_consumes
  end.

Ltac solve_consumes body :=
  let H := fresh "H" in
  split; [ intros acc num wt r acc' r' Hn He H He' | intros acc num wt r b H ]; unfold body in H;
  repeat (case_match; reflect_bools; simplify_eq); simpl in *;
  first [ consumed | by eapply read_converted_errors | by eauto ].

Ltac solve_cursor_of body :=
  let H := fresh "H" in
  intros acc num wt r acc' r' H; unfold body in H;
  repeat (case_match; simplify_eq); frames;
  first [ by eapply read_converted_cursor | apply fieldReader_skip_frame | naive_solver ].

#[export] Instance unmarshalFormatID_cursor : CursorBody unmarshalFormatID_body.
Proof. solve_cursor_of unmarshalFormatID_body. Qed.
#[export] Instance unmarshalTimeRange_cursor : CursorBody unmarshalTimeRange_body.
Proof. solve_cursor_of unmarshalTimeRange_body. Qed.
#[export] Instance unmarshalMediaHeader_cursor : CursorBody unmarshalMediaHeader_body.
Proof. solve_cursor_of unmarshalMediaHeader_body. Qed.
#[export] Instance unmarshalFormatInit_cursor : CursorBody unmarshalFormatInitializationMetadata_body.
Proof. solve_cursor_of unmarshalFormatInitializationMetadata_body. Qed.

#[export] Instance unmarshalFormatID_consumes : BodyConsumes unmarshalFormatID_body.
Proof. solve_consumes unmarshalFormatID_body. Qed.
#[export] Instance unmarshalTimeRange_consumes : BodyConsumes unmarshalTimeRange_body.
Proof. solve_consumes unmarshalTimeRange_body. Qed.
#[export] Instance unmarshalMediaHeader_consumes : BodyConsumes unmarshalMediaHeader_body.
Proof. solve_consumes unmarshalMediaHeader_body. Qed.

(** Run a body on a known field: decide the wire-type tests, split on the field
    number and rewrite each reader operation with its payload lemma. *)
Ltac solve_absorbs body absorb :=
  let Hwf := fresh "Hwf" in let He := fresh "He" in let Hr := fresh "Hr" in
  let Hskip := fresh "Hskip" in let Hf := fresh "Hf" in
  intros acc f r rest Hwf He Hr; pose proof (fieldReader_skip_payload r f rest Hwf Hr) as Hskip;
  destruct Hwf as [_ Hf]; destruct f as [num v|num v]; unfold body, absorb;
  cbn [pb_num pb_wire pb_payload] in *;
  change (wireVarint =? wireVarint) with true; change (wireBytes =? wireBytes) with true;
  change (wireVarint =? wireBytes) with false; change (wireBytes =? wireVarint) with false;
  rewrite ?andb_true_r, ?andb_false_r; unfold fieldReader_string;
  repeat match goal with |- context [?n =? ?k] => is_var n; is_const k; destruct (n =? k); cbv beta iota end;
  rewrite ?Hskip, ?(fieldReader_varint_payload _ _ _ Hf Hr), ?(fieldReader_bytes_payload _ _ _ Hf Hr),
    ?(read_converted_absorbs _ _ _ _ _ Hf He Hr);
  first
    [ done
    | match goal with |- context [absorb_converted ?c ?s ?v] => destruct (absorb_converted c s v) end;
      by auto
    | case_goal; by auto
    | idtac ].

#[export] Instance unmarshalFormatID_absorbs : BodyAbsorbs unmarshalFormatID_body FormatID_absorb.
Proof. solve_absorbs unmarshalFormatID_body FormatID_absorb. Qed.
#[export] Instance unmarshalTimeRange_absorbs : BodyAbsorbs unmarshalTimeRange_body TimeRange_absorb.
Proof. solve_absorbs unmarshalTimeRange_body TimeRange_absorb. Qed.
#[export] Instance unmarshalMediaHeader_absorbs :
  BodyAbsorbs unmarshalMediaHeader_body MediaHeader_absorb.
Proof.
  solve_absorbs unmarshalMediaHeader_body MediaHeader_absorb.
  destruct (Z.gtb_spec v MaxUint32) as [Hm|Hm].
  - right. destruct (fieldReader_uint32_overflow _ _ _ Hf He Hr Hm) as (r' & -> & ?). eauto 10.
  - by rewrite (fieldReader_uint32_payload _ _ _ Hf He Hr) by lia.
Qed.

(** ** Lemmas: writers produce the abstract fields *)

Ltac to_fields :=
  rewrite ?appendProtobufVarint_field, ?appendProtobufBytes_field
    by (vm_compute; split; [discriminate|reflexivity]).

Lemma FormatID_marshal_fields f : FormatID_marshal f = encode_fields (FormatID_fields f).
Proof.
  unfold FormatID_marshal, FormatID_fields.
  repeat case_match; to_fields; rewrite ?encode_fields_app, ?encode_fields_cons, ?encode_fields_nil;
    by rewrite ?app_nil_l, ?app_nil_r, ?app_assoc.
Qed.

Lemma TimeRange_marshal_fields t :
  TimeRange_marshal t = (_ ← validateTimeRangeWire t; Ok (encode_fields (TimeRange_fields t))).
Proof.
  unfold TimeRange_marshal, TimeRange_fields. destruct (validateTimeRangeWire t); [|done]. simpl.
  repeat case_match; to_fields; rewrite ?encode_fields_app, ?encode_fields_cons, ?encode_fields_nil;
    by rewrite ?app_nil_l, ?app_nil_r, ?app_assoc.
Qed.

Lemma marshalMediaHeader_fields h : marshalMediaHeader h = encode_fields (MediaHeader_fields h).
Proof.
  unfold marshalMediaHeader, MediaHeader_fields. fold (has_format (hdr_FormatID h)). cbv zeta.
  repeat case_match; to_fields; rewrite ?encode_fields_app, ?encode_fields_cons, ?encode_fields_nil;
    by rewrite ?app_nil_l, ?app_nil_r, ?app_assoc, ?app_nil_r.
Qed.

(** Bounds on the size of an encoded field. *)
Lemma zlen_encode_varint n v : zlen (encode_field (PbVarint n v)) <= 22.
Proof.
  unfold encode_field, pb_payload. rewrite zlen_app. unfold zlen.
  pose proof (appendU64_length (pb_key (PbVarint n v))). pose proof (appendU64_length v). lia.
Qed.

Lemma zlen_encode_bytes n bs : zlen (encode_field (PbBytes n bs)) <= 22 + zlen bs.
Proof.
  unfold encode_field, pb_payload. rewrite !zlen_app. unfold zlen at 1 2.
  pose proof (appendU64_length (pb_key (PbBytes n bs))). pose proof (appendU64_length (zlen bs)). lia.
Qed.

Lemma nonempty_false s : nonempty s = false -> s = [].
Proof. unfold nonempty. intros H. reflect_bools. by apply zlen_0_nil. Qed.

Ltac fields_wf :=
  repeat (apply Forall_app; split); repeat case_match; rewrite ?Forall_cons, ?Forall_nil;
  unfold pb_wf; simpl; split_and?; try done; try apply u64_range; width_lia.

Lemma FormatID_fields_wf f : FormatID_wf f -> Forall pb_wf (FormatID_fields f).
Proof.
  intros (Hi & Hl & Hx). unfold FormatID_fields.
  assert (zlen (fmt_XTags f) <= MaxProtobufFieldBytes)
    by (unfold MaxProtobufFieldBytes; rewrite Z.shiftl_mul_pow2 by lia; lia).
  fields_wf.
Qed.

Lemma zlen_FormatID_marshal f :
  FormatID_wf f -> zlen (FormatID_marshal f) <= MaxProtobufFieldBytes.
Proof.
  intros (_ & _ & Hx). rewrite FormatID_marshal_fields. unfold FormatID_fields.
  unfold MaxProtobufFieldBytes. rewrite Z.shiftl_mul_pow2 by lia. pose proof (zlen_nonneg (fmt_XTags f)).
  pose proof (zlen_encode_varint fFormatItag (u64 (fmt_Itag f))).
  pose proof (zlen_encode_varint fFormatLastModified (fmt_LastModified f)).
  pose proof (zlen_encode_bytes fFormatXTags (fmt_XTags f)).
  repeat case_match;
    rewrite ?encode_fields_app, ?encode_fields_cons, ?encode_fields_nil, ?app_nil_r, ?zlen_app;
    change (zlen (A := Byte.byte) []) with 0; lia.
Qed.

(** ** Lemmas: round trips *)

Lemma int32FromUint64_small v : 0 <= v <= MaxInt32 -> int32FromUint64 v = Ok v.
Proof.
  intros Hv. unfold int32FromUint64. assert (v >? MaxInt32 = false) as -> by lia.
  by rewrite i32_small by width_lia.
Qed.

Lemma int64FromUint64_small v : 0 <= v <= MaxInt64 -> int64FromUint64 v = Ok v.
Proof.
  intros Hv. unfold int64FromUint64. assert (v >? MaxInt64 = false) as -> by lia.
  by rewrite i64_small by width_lia.
Qed.

Lemma absorb_converted_small {A B} conv (set : Z -> A) v :
  conv v = Ok v -> @absorb_converted A B conv set v = inl (set v).
Proof. unfold absorb_converted. by intros ->. Qed.

Lemma absorb_all_split {A B} (absorb : A -> pbfield -> A + B) acc fs gs :
  absorb_all absorb acc (fs ++ gs) =
    match absorb_all absorb acc fs with inl acc => absorb_all absorb acc gs | inr b => inr b end.
Proof. revert acc. induction fs as [|f fs IH]; intros acc; simpl; [done|]. destruct (absorb acc f); [apply IH|done]. Qed.

Lemma absorb_all_app {A B} (absorb : A -> pbfield -> A + B) acc fs gs acc' :
  absorb_all absorb acc fs = inl acc' ->
  absorb_all absorb acc (fs ++ gs) = absorb_all absorb acc' gs.
Proof. intros Hf. by rewrite absorb_all_split, Hf. Qed.

(** An optional field that is present exactly when it is not the zero value. *)
Lemma absorb_optional {A B} (absorb : A -> pbfield -> A + B) acc acc' (c : bool) f gs :
  (c = true -> absorb acc f = inl acc') -> (c = false -> acc = acc') ->
  absorb_all absorb acc ((if c then [f] else []) ++ gs) = absorb_all absorb acc' gs.
Proof.
  intros Ht Hf. apply absorb_all_app. destruct c; simpl.
  - by rewrite Ht.
  - f_equal. by apply Hf.
Qed.

Lemma unmarshalFormatID_marshal f :
  FormatID_wf f -> unmarshalFormatID (FormatID_marshal f) = Ok f.
Proof.
  intros Hwf. rewrite FormatID_marshal_fields. unfold unmarshalFormatID.
  rewrite (scan_encode _ FormatID_absorb) by (by apply FormatID_fields_wf || (unfold FormatID_fields; repeat case_match; simpl; unfold MaxProtobufFields; lia)).
  destruct Hwf as (Hi & Hl & _). destruct f as [itag lm xt]; unfold FormatID_fields; simpl in *.
  rewrite u64_small by width_lia.
  rewrite (absorb_converted_small _ _ _ (int32FromUint64_small _ Hi)).
  rewrite (absorb_optional _ _ (mkFormatID itag lm [])); simpl.
  - rewrite <- (app_nil_r (if nonempty xt then _ else _)).
    rewrite (absorb_optional _ _ (mkFormatID itag lm xt)); [done|done|].
    by intros ->%nonempty_false.
  - done.
  - intros ?. reflect_bools. by subst.
Qed.

Lemma validateTimeRangeWire_wf t : TimeRange_wf t -> validateTimeRangeWire t = Ok tt.
Proof.
  intros (? & ? & ?). unfold validateTimeRangeWire.
  assert ((tr_StartTicks t <? 0) || (tr_DurationTicks t <? 0) = false) as -> by lia.
  by assert (tr_Timescale t <? 0 = false) as -> by lia.
Qed.

(** The fold of a decoder over an optional varint field of a known value. *)
Ltac next_optional acc' :=
  rewrite (absorb_optional _ _ acc');
  [ | intros _; simpl; rewrite ?u64_small by width_lia;
      rewrite ?absorb_converted_small by (first [apply int32FromUint64_small | apply int64FromUint64_small]; width_lia);
      reflexivity
    | intros ?; reflect_bools; by subst ].

Lemma unmarshalTimeRange_fields t :
  TimeRange_wf t -> unmarshalTimeRange (encode_fields (TimeRange_fields t)) = Ok t.
Proof.
  intros Hwf. unfold unmarshalTimeRange. pose proof Hwf as (Hs & Hd & Ht).
  rewrite (scan_encode _ TimeRange_absorb).
  - destruct t as [s d c]; unfold TimeRange_fields; simpl in *.
    next_optional (mkTimeRange s 0 0). next_optional (mkTimeRange s d 0).
    rewrite <- (app_nil_r (if negb (c =? 0) then _ else _)).
    next_optional (mkTimeRange s d c). done.
  - unfold TimeRange_fields. fields_wf.
  - unfold TimeRange_fields. repeat case_match; simpl; unfold MaxProtobufFields; lia.
Qed.

Lemma MediaHeader_fields_wf h : MediaHeader_wf h -> Forall pb_wf (MediaHeader_fields h).
Proof.
  intros (Hid & Hi & Hs & Hd & Hf & Hc). unfold MediaHeader_fields.
  pose proof (zlen_FormatID_marshal _ Hf).
  fields_wf.
Qed.

Lemma has_format_false f : has_format f = false -> f = zeroFormatID.
Proof.
  unfold has_format. intros H. reflect_bools. destruct f; simpl in *. subst.
  unfold zeroFormatID. f_equal. by apply nonempty_false.
Qed.

Lemma unmarshalMediaHeader_marshal h :
  MediaHeader_wf h ->
  unmarshalMediaHeader (marshalMediaHeader h) = Ok (h <| hdr_TimeRange := zeroTimeRange |>).
Proof.
  intros Hwf. rewrite marshalMediaHeader_fields. unfold unmarshalMediaHeader.
  pose proof Hwf as (Hid & Hi & Hs & Hd & Hf & Hc).
  rewrite (scan_encode _ MediaHeader_absorb);
    [|by apply MediaHeader_fields_wf
     |unfold MediaHeader_fields; repeat case_match; simpl; unfold MaxProtobufFields; lia].
  destruct h as [hid itag ini seq dur fmt len tr]; unfold MediaHeader_fields; simpl in *.
  rewrite u64_small by width_lia. assert (hid >? MaxUint32 = false) as -> by width_lia.
  change (zeroMediaHeader <| hdr_HeaderID := hid |>)
    with (mkMediaHeader hid 0 false 0 0 zeroFormatID 0 zeroTimeRange).
  next_optional (mkMediaHeader hid itag false 0 0 zeroFormatID 0 zeroTimeRange).
  rewrite (absorb_optional _ _ (mkMediaHeader hid itag ini 0 0 zeroFormatID 0 zeroTimeRange))
    by (by intros ->).
  next_optional (mkMediaHeader hid itag ini seq 0 zeroFormatID 0 zeroTimeRange).
  next_optional (mkMediaHeader hid itag ini seq dur zeroFormatID 0 zeroTimeRange).
  rewrite (absorb_optional _ _ (mkMediaHeader hid itag ini seq dur fmt 0 zeroTimeRange)).
  - rewrite <- (app_nil_r (if negb (len =? 0) then _ else _)).
    next_optional (mkMediaHeader hid itag ini seq dur fmt len zeroTimeRange). done.
  - intros _. simpl. by rewrite unmarshalFormatID_marshal.
  - by intros ->%has_format_false.
Qed.

(** ** Lemmas: ticks to milliseconds *)

(** The rational value, rounded up. *)
Definition ceil_div (a b : Z) : Z := (a + b - 1) / b.

Lemma ceil_div_spec a b : 0 < b -> (ceil_div a b - 1) * b < a <= ceil_div a b * b.
Proof. intros Hb. unfold ceil_div. pose proof (Z.div_mod (a + b - 1) b ltac:(lia)).
  pose proof (Z.mod_pos_bound (a + b - 1) b Hb). nia. Qed.

(** Splitting off the whole part. *)
Lemma ceil_div_split q r b : 0 < b -> ceil_div (q * b + r) b = q + ceil_div r b.
Proof.
  intros Hb. unfold ceil_div.
  replace (q * b + r + b - 1) with (r + b - 1 + q * b) by lia. rewrite Z.div_add by lia. lia.
Qed.

(** Adding with carry into the high word. *)
Lemma wide_sum p c :
  0 <= p -> 0 <= c -> p / 2 ^ 64 + (p mod 2 ^ 64 + c) / 2 ^ 64 = (p + c) / 2 ^ 64.
Proof.
  intros Hp Hc. rewrite (Z.div_mod p (2 ^ 64)) at 3 by lia.
  replace (2 ^ 64 * (p / 2 ^ 64) + p mod 2 ^ 64 + c)
    with (p mod 2 ^ 64 + c + (p / 2 ^ 64) * 2 ^ 64) by lia.
  rewrite Z.div_add by lia. lia.
Qed.

(** The 128-bit computation of [ceilMulDiv] is exact when the product is below
    [divisor * 2^64]; in particular [bits.Div64] does not panic. *)
Lemma ceilMulDiv_exact a b d :
  0 < a < 2 ^ 63 -> 0 < b < 2 ^ 63 -> 0 < d < 2 ^ 63 -> ceil_div (a * b) d <= MaxInt64 ->
  ceilMulDiv a b d = Some (ceil_div (a * b) d, true).
Proof.
  intros Ha Hb Hd Hq. unfold ceilMulDiv.
  assert ((a <=? 0) || (b <=? 0) || (d <=? 0) = false) as -> by lia.
  rewrite (u64_small a), (u64_small b), (u64_small d), (u64_small (d - 1)), (u64_small MaxInt64)
    by (unfold is_u64, MaxInt64; norm_pow2; lia).
  unfold bits_Mul64, bits_Add64. cbv beta iota zeta. rewrite !Z.add_0_r.
  set (N := a * b + d - 1).
  assert (0 <= N < d * 2 ^ 63) as HN.
  { unfold N. pose proof (ceil_div_spec (a * b) d ltac:(lia)). unfold MaxInt64 in Hq. split; nia. }
  assert (ceil_div (a * b) d = N / d) as HNd by done.
  assert ((((a * b) / 2 ^ 64 + ((a * b) mod 2 ^ 64 + (d - 1)) / 2 ^ 64) mod 2 ^ 64) = N / 2 ^ 64) as ->.
  { rewrite (wide_sum (a * b) (d - 1)) by nia.
    replace (a * b + (d - 1)) with N by (unfold N; lia). apply Z.mod_small.
    split; [apply Z.div_pos; lia|]. apply Z.div_lt_upper_bound; norm_pow2; lia. }
  assert (((a * b) mod 2 ^ 64 + (d - 1)) mod 2 ^ 64 = N mod 2 ^ 64) as ->.
  { unfold N. rewrite Z.add_mod_idemp_l by lia. f_equal. lia. }
  unfold bits_Div64. assert (N / 2 ^ 64 < d) by (apply Z.div_lt_upper_bound; norm_pow2; lia).
  assert ((d =? 0) || (d <=? N / 2 ^ 64) = false) as -> by lia.
  replace (N / 2 ^ 64 * 2 ^ 64 + N mod 2 ^ 64) with N by (pose proof (Z.div_mod N (2 ^ 64) ltac:(lia)); lia).
  rewrite <- HNd. assert (ceil_div (a * b) d >? MaxInt64 = false) as -> by lia.
  rewrite i64_small; [done|]. unfold MaxInt64 in *.
  assert (0 <= N / d) by (apply Z.div_pos; lia). width_lia.
Qed.

(** The overflow checks are exact on non-negative operands. *)
Lemma mulInt64_nonneg a b :
  0 <= a <= MaxInt64 -> 0 < b <= MaxInt64 ->
  mulInt64 a b = if a * b <=? MaxInt64 then (a * b, true) else (0, false).
Proof.
  intros Ha Hb. unfold mulInt64. rewrite Z.quot_div_nonneg by lia.
  pose proof (Z.div_mod MaxInt64 b ltac:(lia)). pose proof (Z.mod_pos_bound MaxInt64 b ltac:(lia)).
  assert (b =? 0 = false) as -> by lia. rewrite orb_false_r.
  destruct (Z.eqb_spec a 0) as [->|]; [by destruct (Z.leb_spec (0 * b) MaxInt64); [|lia]|].
  destruct (Z.gtb_spec a (MaxInt64 / b)), (Z.leb_spec (a * b) MaxInt64); try nia; [done|].
  rewrite i64_small; [done|]. unfold is_i64, MinInt64. norm_pow2. nia.
Qed.

Lemma addInt64_nonneg a b :
  0 <= a <= MaxInt64 -> 0 <= b <= MaxInt64 ->
  addInt64 a b = if a + b <=? MaxInt64 then (a + b, true) else (0, false).
Proof.
  intros Ha Hb. unfold addInt64. rewrite (i64_small (MaxInt64 - b)) by width_lia.
  assert (b <? 0 = false) as -> by lia. simpl.
  destruct (Z.gtb_spec b 0), (Z.gtb_spec a (MaxInt64 - b)), (Z.leb_spec (a + b) MaxInt64);
    simpl; try lia; try done; (rewrite i64_small; [done|width_lia]).
Qed.

(** Exact value, or the overflow report, for every positive operand; no panic. *)
Lemma ceilMillisFromTicks_exact ticks ts :
  0 < ticks <= MaxInt64 -> 0 < ts <= MaxInt64 ->
  ceilMillisFromTicks ticks ts =
    Some (if ceil_div (ticks * 1000) ts <=? MaxInt64
          then (ceil_div (ticks * 1000) ts, true) else (0, false)).
Proof.
  intros Ht Hs. unfold ceilMillisFromTicks. assert ((ticks <=? 0) || (ts <=? 0) = false) as -> by lia.
  rewrite Z.quot_div_nonneg, Z.rem_mod_nonneg by lia. cbv zeta.
  pose proof (Z.div_mod ticks ts ltac:(lia)) as Hdm. pose proof (Z.mod_pos_bound ticks ts ltac:(lia)) as Hr.
  remember (ticks / ts) as q eqn:Eq. remember (ticks mod ts) as r eqn:Er.
  assert (0 <= q <= ticks) as Hq
    by (subst q; split; [apply Z.div_pos; lia|apply Z.div_le_upper_bound; nia]).
  assert (ceil_div (ticks * 1000) ts = q * 1000 + ceil_div (r * 1000) ts) as ->
    by (rewrite <- ceil_div_split by lia; f_equal; lia).
  assert (0 <= ceil_div (r * 1000) ts <= 1000) as Hf
    by (unfold ceil_div; split; [apply Z.div_pos; lia|apply Z.lt_succ_r, Z.div_lt_upper_bound; lia]).
  assert (1000 <= MaxInt64) by (unfold MaxInt64; norm_pow2; lia).
  rewrite mulInt64_nonneg by lia. destruct (Z.leb_spec (q * 1000) MaxInt64); cbn [negb];
    [|destruct (Z.leb_spec (q * 1000 + ceil_div (r * 1000) ts) MaxInt64); [lia|done]].
  destruct (Z.eqb_spec r 0) as [->|Hr0].
  { assert (ceil_div (0 * 1000) ts = 0) as -> by (unfold ceil_div; apply Z.div_small; lia).
    rewrite Z.add_0_r. destruct (Z.leb_spec (q * 1000) MaxInt64); [done|lia]. }
  rewrite ceilMulDiv_exact by (unfold MaxInt64 in *; norm_pow2; lia). cbn [negb].
  by rewrite addInt64_nonneg by lia.
Qed.

Lemma effectiveDurationMs_nonneg h :
  MediaHeader_wf h -> TimeRange_wf (hdr_TimeRange h) -> 0 <= effectiveDurationMs h <= MaxInt64.
Proof.
  intros (_ & _ & _ & Hd & _) (_ & Ht & Hs). unfold effectiveDurationMs.
  destruct (Z.gtb_spec (hdr_DurationMs h) 0); [lia|]. cbv zeta.
  destruct ((_ <=? 0) || _) eqn:E; [width_lia|]. reflect_bools.
  rewrite ceilMillisFromTicks_exact by width_lia.
  destruct (Z.leb_spec (ceil_div (tr_DurationTicks (hdr_TimeRange h) * 1000) (tr_Timescale (hdr_TimeRange h))) MaxInt64);
    [|width_lia]. split; [|lia]. apply Z.div_pos; lia.
Qed.

(** ** Properties *)

(** The media-header decoder accepts a payload and returns [h] iff the
    payload is the canonical encoding of at most [MaxProtobufFields] well-formed
    fields and folding the handlers over these fields, later fields overriding
    earlier ones and unknown fields skipped, yields [h].  Unsupported wire
    types, overlong varints, oversized fields and out-of-range integers are
    refused. *)
Theorem unmarshalMediaHeader_refines_fold data h :
  unmarshalMediaHeader data = Ok h <->
  exists fs, data = encode_fields fs /\ Forall pb_wf fs /\ (length fs <= MaxProtobufFields)%nat /\
    absorb_all MediaHeader_absorb zeroMediaHeader fs = inl h.
Proof.
  unfold unmarshalMediaHeader. rewrite (scan_message_iff _ MediaHeader_absorb). split.
  - intros (fs & acc & ? & ? & ? & ? & [= <-]). eauto.
  - intros (fs & ? & ? & ? & ?). eauto 10.
Qed.

(** Decoding an encoded media header gives it back, except for the time
    range, which [marshalMediaHeader] does not write. *)
Theorem media_header_roundtrip h :
  MediaHeader_wf h ->
  unmarshalMediaHeader (marshalMediaHeader h) = Ok (h <| hdr_TimeRange := zeroTimeRange |>).
Proof. apply unmarshalMediaHeader_marshal. Qed.

Definition sample_header : MediaHeader :=
  mkMediaHeader 7 251 false 3 5000 (mkFormatID 251 1700000000000001 (lit "acont=original")) 4096 zeroTimeRange.

Lemma media_header_roundtrip_witness :
  unmarshalMediaHeader (marshalMediaHeader sample_header) = Ok sample_header.
Proof.
  apply (media_header_roundtrip sample_header).
  unfold MediaHeader_wf, FormatID_wf, is_u32, is_u64. ground.
Defined.

(** A validated time range survives its encoding, and an invalid one is not
    encoded. *)
Theorem time_range_roundtrip t :
  TimeRange_wf t ->
  (data ← TimeRange_marshal t; unmarshalTimeRange data) = Ok t.
Proof.
  intros Hwf. rewrite TimeRange_marshal_fields, validateTimeRangeWire_wf by done.
  by apply unmarshalTimeRange_fields.
Qed.

Lemma time_range_roundtrip_witness :
  (data ← TimeRange_marshal (mkTimeRange 90000 450000 90000); unmarshalTimeRange data) =
    Ok (mkTimeRange 90000 450000 90000).
Proof.
  apply (time_range_roundtrip (mkTimeRange 90000 450000 90000)).
  unfold TimeRange_wf. ground.
Defined.

(** The duration of a segment: the declared milliseconds when positive,
    otherwise the tick duration converted to milliseconds and rounded up,
    computed without overflow or panic; 0 when neither is usable or the value
    exceeds [int64]. *)
Theorem effectiveDurationMs_exact h :
  MediaHeader_wf h -> TimeRange_wf (hdr_TimeRange h) ->
  let ticks := tr_DurationTicks (hdr_TimeRange h) in
  let scale := tr_Timescale (hdr_TimeRange h) in
  effectiveDurationMs h =
    if 0 <? hdr_DurationMs h then hdr_DurationMs h
    else if (0 <? ticks) && (0 <? scale) && (ceil_div (ticks * 1000) scale <=? MaxInt64)
    then ceil_div (ticks * 1000) scale
    else 0.
Proof.
  intros (_ & _ & _ & Hd & _) (_ & Ht & Hs) ticks scale. unfold effectiveDurationMs.
  fold ticks scale in Ht, Hs |- *. rewrite Z.gtb_ltb. case_match; [done|]. cbv zeta.
  destruct (Z.ltb_spec 0 ticks), (Z.ltb_spec 0 scale);
    destruct (Z.leb_spec ticks 0), (Z.leb_spec scale 0); try lia; try done. simpl.
  rewrite ceilMillisFromTicks_exact by width_lia. by destruct (_ <=? MaxInt64).
Qed.

Lemma effectiveDurationMs_exact_witness :
  effectiveDurationMs (sample_header <| hdr_DurationMs := 0 |>
    <| hdr_TimeRange := mkTimeRange 0 100000 44100 |>) = 2268.
Proof.
  rewrite effectiveDurationMs_exact; [reflexivity| |];
    unfold MediaHeader_wf, FormatID_wf, TimeRange_wf, is_u32, is_u64; ground.
Defined.
