(* ===== verification/UmpReader.v ===== *)
(** * The UMP part reader

    [reader.go] of [internal/protocol/youtubeump]: framing of a response body
    into typed parts, under a byte limit, over an [io.Reader] that may deliver
    the body in any chunks.

    [IoReader] is Go's [io.Reader]; [ByteStream] adds what a body without
    transport errors promises (the bytes of [stream_of] in order, then EOF).
    The reader's theorems are proved against [ByteStream]; [byteReader] of the
    source and [chunkReader], which delivers a given list of chunks, implement
    it.  [parse_part] is the framing on plain bytes. *)
From S2P Require Import Prelude Errors Varint.

(** ** Interfaces *)

(** [Read(p)] with [len(p) = n]: the bytes copied into [p] and the error. *)
Class IoReader (S : Type) := {
  io_read : S -> Z -> (bytes * option go_error) * S;
  io_read_bound s n : 0 <= n -> zlen (io_read s n).1.1 <= n
}.

Class ByteStream (S : Type) `{!IoReader S} := {
  stream_of : S -> bytes;
  io_read_data s n bs e s' :
    io_read s n = (bs, e, s') -> stream_of s = bs ++ stream_of s';
  io_read_progress s n bs e s' :
    0 < n -> io_read s n = (bs, e, s') -> bs = [] -> stream_of s = [];
  io_read_error s n bs e s' :
    io_read s n = (bs, e, s') -> e = None \/ (e = Some io_EOF /\ stream_of s' = [])
}.

(** ** Definitions *)

Definition readerChunkSize : Z := 32 * 1024.

Record Part := mkPart {
  part_Type : Z;  (* int *)
  part_Payload : bytes
}.

Inductive limitProbeState := limitNotProbed | limitCleanEOF | limitOversize.

Section Reader.
Context {S : Type} `{!IoReader S}.

Record Reader := mkReader {
  rd_source : S;
  rd_buffer : bytes;
  rd_partCount : Z;
  rd_totalBytes : Z;
  rd_maxBytes : Z;
  rd_maxParts : Z;
  rd_maxPartSize : Z;
  rd_limitProbe : limitProbeState
}.

#[export] Instance eta_Reader : Eta Reader :=
  fun r => mkReader (rd_source r) (rd_buffer r) (rd_partCount r) (rd_totalBytes r)
             (rd_maxBytes r) (rd_maxParts r) (rd_maxPartSize r) (rd_limitProbe r).

Definition NewReader (source : S) (maxBytes : Z) : Reader :=
  let maxBytes := if (maxBytes <=? 0) || (maxBytes >? MaxRoundBytes) then MaxRoundBytes else maxBytes in
  mkReader source [] 0 0 maxBytes MaxParts MaxPartPayload limitNotProbed.

Definition Reader_probeAtLimit (rd : Reader) : option go_error * Reader :=
  match rd_limitProbe rd with
  | limitCleanEOF => (Some io_EOF, rd)
  | limitOversize => (Some ErrResponseTooLarge, rd)
  | limitNotProbed =>
      let '(bs, err, source) := io_read (rd_source rd) 1 in
      let rd := rd <| rd_source := source |> in
      if zlen bs >? 0 then (Some ErrResponseTooLarge, rd <| rd_limitProbe := limitOversize |>)
      else
        let rd := rd <| rd_limitProbe := limitCleanEOF |> in
        match err with
        | Some e => if bool_decide (e = io_EOF) then (Some io_EOF, rd) else (Some e, rd)
        | None => (Some io_EOF, rd)
        end
  end.

Definition Reader_needBeyondLimit (rd : Reader) (need : Z) : option go_error * Reader :=
  if zlen (rd_buffer rd) >=? need then (None, rd)
  else
    let '(err, rd) := Reader_probeAtLimit rd in
    match err with
    | Some e => (Some e, rd)
    | None => if zlen (rd_buffer rd) >? 0 then (Some ErrTruncatedStream, rd) else (Some io_EOF, rd)
    end.

(** [if n > 0 { ... }] after a read *)
Definition Reader_fill (rd : Reader) (bs : bytes) : Reader :=
  if zlen bs >? 0
  then rd <| rd_totalBytes := rd_totalBytes rd + zlen bs |>
          <| rd_buffer := rd_buffer rd ++ bs |>
  else rd.

(** [for len(reader.buffer) < need]: an iteration that does not return grows
    the buffer; [None] is out of fuel. *)
Fixpoint Reader_ensure_loop (fuel : nat) (rd : Reader) (need : Z)
  : option (option go_error * Reader) :=
  if zlen (rd_buffer rd) >=? need then Some (None, rd)
  else
    match fuel with
    | O => None
    | Datatypes.S fuel' =>
        let remaining := rd_maxBytes rd - rd_totalBytes rd in
        if remaining <=? 0 then Some (Reader_needBeyondLimit rd need)
        else
          let chunk := if readerChunkSize >? remaining then remaining else readerChunkSize in
          let '(bs, err, source) := io_read (rd_source rd) chunk in
          let rd := Reader_fill (rd <| rd_source := source |>) bs in
          match err with
          | Some e =>
              if bool_decide (e = io_EOF) && (zlen (rd_buffer rd) >=? need)
              then Some (None, rd) else Some (Some e, rd)
          | None =>
              if zlen bs =? 0 then Some (Some io_EOF, rd)
              else Reader_ensure_loop fuel' rd need
          end
    end.

(** The fuel is the number of missing bytes ([Reader_ensure_loop_total]). *)
Definition Reader_ensure (rd : Reader) (need : Z) : option go_error * Reader :=
  match Reader_ensure_loop (Z.to_nat (need - zlen (rd_buffer rd))) rd need with
  | Some out => out
  | None => (Some io_EOF, rd)
  end.

Definition Reader_readVarint (rd : Reader) : res Z * Reader :=
  let '(err, rd) := Reader_ensure rd 1 in
  match err with
  | Some e => (Err e, rd)
  | None =>
      let size := umpVarintSize (nth 0 (rd_buffer rd) Byte.x00) in
      let '(err, rd) := Reader_ensure rd (Z.of_nat size) in
      match err with
      | Some e => (Err (if bool_decide (e = io_EOF) then ErrTruncatedStream else e), rd)
      | None =>
          match readUMPVarint (take size (rd_buffer rd)) with
          | Err e => (Err e, rd)
          | Ok (value, consumed) => (Ok value, rd <| rd_buffer := drop consumed (rd_buffer rd) |>)
          end
      end
  end.

(** [ReadPart] from the size check on. *)
Definition Reader_readPayload (rd : Reader) (partType sizeValue : Z) : res (option Part) * Reader :=
  if sizeValue >? rd_maxPartSize rd then (Err ErrOversizedPart, rd)
  else
    let '(err, rd) := Reader_ensure rd sizeValue in
    match err with
    | Some e => (Err (if bool_decide (e = io_EOF) then ErrTruncatedStream else e), rd)
    | None =>
        let payload := take (Z.to_nat sizeValue) (rd_buffer rd) in
        let rd := rd <| rd_buffer := drop (Z.to_nat sizeValue) (rd_buffer rd) |>
                     <| rd_partCount := rd_partCount rd + 1 |> in
        if rd_partCount rd >? rd_maxParts rd then (Err ErrTooManyParts, rd)
        else (Ok (Some (mkPart partType payload)), rd)
    end.

(** [Ok None] is [(Part{}, false, nil)], the end of the stream. *)
Definition Reader_ReadPart (rd : Reader) : res (option Part) * Reader :=
  let '(typeValue, rd) := Reader_readVarint rd in
  match typeValue with
  | Err e =>
      if bool_decide (e = io_EOF) then (Ok None, rd)
      else if bool_decide (e = ErrTruncatedStream) && (zlen (rd_buffer rd) =? 0) then (Ok None, rd)
      else (Err e, rd)
  | Ok typeValue =>
      match int32FromUint64 typeValue with
      | Err e => (Err e, rd)
      | Ok partType =>
          let '(sizeValue, rd) := Reader_readVarint rd in
          match sizeValue with
          | Err e => (Err e, rd)
          | Ok sizeValue => Reader_readPayload rd partType sizeValue
          end
      end
  end.

(** The loop of [ParseAll]; [ReadPart] refuses part [maxParts + 1], so
    [maxParts + 1] iterations suffice. *)
Fixpoint ParseAll_loop (fuel : nat) (rd : Reader) (parts : list Part) : option (res (list Part)) :=
  match fuel with
  | O => None
  | Datatypes.S fuel' =>
      let '(r, rd) := Reader_ReadPart rd in
      match r with
      | Err e => Some (Err e)
      | Ok None => Some (Ok parts)
      | Ok (Some part) => ParseAll_loop fuel' rd (parts ++ [part])
      end
  end.

End Reader.
Arguments Reader : clear implicits.

(** [byteReader]: [copy] then reslice. *)
Definition byteReader_Read (data : bytes) (n : Z) : (bytes * option go_error) * bytes :=
  if zlen data =? 0 then ([], Some io_EOF, data)
  else (take (Z.to_nat n) data, None, drop (Z.to_nat n) data).

#[export, refine] Instance byteReader_io : IoReader bytes := {| io_read := byteReader_Read |}.
Proof.
  intros s n Hn. unfold byteReader_Read. case_match; simpl; [done|].
  unfold zlen. rewrite length_take. lia.
Defined.

Definition ParseAll (body : bytes) : res (list Part) :=
  match ParseAll_loop (Z.to_nat (MaxParts + 2)) (NewReader body MaxRoundBytes) [] with
  | Some r => r
  | None => Err ErrTooManyParts
  end.

(** *** Framing on plain bytes *)

(** One framed part: type and size varints, then the payload. *)
Definition frame_part (p : Part) : bytes :=
  (encodeUMPVarint (part_Type p)).1 ++ (encodeUMPVarint (zlen (part_Payload p))).1 ++ part_Payload p.
Definition frame_parts (ps : list Part) : bytes := ps ≫= frame_part.

Definition part_wf (p : Part) : Prop :=
  0 <= part_Type p <= MaxInt32 /\ zlen (part_Payload p) <= MaxPartPayload.

(** The size varint of a stream cut after the type is reported as [io.EOF]. *)
Definition parse_part (st : bytes) : res (option (Part * bytes)) :=
  if (length st =? 0)%nat then Ok None
  else
    '(typeValue, n) ← readUMPVarint st;
    partType ← int32FromUint64 typeValue;
    let st := drop n st in
    '(sizeValue, m) ← (if (length st =? 0)%nat then Err io_EOF else readUMPVarint st);
    if sizeValue >? MaxPartPayload then Err ErrOversizedPart
    else
      let st := drop m st in
      if zlen st <? sizeValue then Err ErrTruncatedStream
      else Ok (Some (mkPart partType (take (Z.to_nat sizeValue) st), drop (Z.to_nat sizeValue) st)).

(** The loop of [ParseAll] on plain bytes, with [budget] parts left. *)
Fixpoint parse_parts (fuel : nat) (budget : Z) (st : bytes) (parts : list Part)
  : option (res (list Part)) :=
  match fuel with
  | O => None
  | Datatypes.S fuel' =>
      match parse_part st with
      | Err e => Some (Err e)
      | Ok None => Some (Ok parts)
      | Ok (Some (p, rest)) =>
          if budget <? 1 then Some (Err ErrTooManyParts)
          else parse_parts fuel' (budget - 1) rest (parts ++ [p])
      end
  end.

(** *** A body delivered in chunks *)

(** The state is the chunks not yet delivered; empty chunks are skipped. *)
Fixpoint chunkReader_Read (chunks : list bytes) (n : Z) : (bytes * option go_error) * list bytes :=
  match chunks with
  | [] => ([], Some io_EOF, [])
  | [] :: chunks => chunkReader_Read chunks n
  | chunk :: chunks => (take (Z.to_nat n) chunk, None, drop (Z.to_nat n) chunk :: chunks)
  end.

#[export, refine] Instance chunkReader_io : IoReader (list bytes) := {| io_read := chunkReader_Read |}.
Proof.
  intros s n Hn. induction s as [|[|b c] s IH]; [done|done|]. simpl.
  unfold zlen. rewrite length_take. simpl. lia.
Defined.

(** ** Lemmas: framing on plain bytes *)

Lemma encodeUMPVarint_nonempty v : (encodeUMPVarint v).1 <> [].
Proof.
  pose proof (length_encodeUMPVarint v). pose proof (encodeUMPVarint_size v).
  destruct (encodeUMPVarint v).1; simpl in *; [lia|done].
Qed.

Lemma length_eqb_0 {A} (l : list A) : (length l =? 0)%nat = bool_decide (l = []).
Proof. by destruct l. Qed.

Lemma app_nonempty_eqb {A} (l1 l2 : list A) : l1 <> [] -> (length (l1 ++ l2) =? 0)%nat = false.
Proof. by destruct l1. Qed.

Lemma MaxPartPayload_lt : MaxPartPayload < 2 ^ 32.
Proof. reflexivity. Qed.

Lemma parse_part_frame p rest :
  part_wf p -> parse_part (frame_part p ++ rest) = Ok (Some (p, rest)).
Proof.
  intros [Ht Hp]. unfold parse_part, frame_part. pose proof MaxPartPayload_lt. rewrite <- !app_assoc.
  rewrite app_nonempty_eqb by apply encodeUMPVarint_nonempty.
  rewrite readUMPVarint_encode by width_lia. simpl.
  unfold int32FromUint64. assert (part_Type p >? MaxInt32 = false) as -> by lia. simpl.
  rewrite drop_app_exact by (by rewrite length_encodeUMPVarint).
  rewrite app_nonempty_eqb by apply encodeUMPVarint_nonempty.
  rewrite readUMPVarint_encode by (pose proof (zlen_nonneg (part_Payload p)); lia). simpl.
  assert (zlen (part_Payload p) >? MaxPartPayload = false) as -> by lia.
  rewrite drop_app_exact by (by rewrite length_encodeUMPVarint).
  rewrite zlen_app. pose proof (zlen_nonneg rest).
  assert (zlen (part_Payload p) + zlen rest <? zlen (part_Payload p) = false) as -> by lia.
  unfold zlen. rewrite Nat2Z.id, take_app_length, drop_app_length, i32_small by width_lia.
  by destruct p.
Qed.

Lemma parse_part_Some st p rest :
  parse_part st = Ok (Some (p, rest)) -> part_wf p /\ st = frame_part p ++ rest.
Proof.
  unfold parse_part. intros H. rewrite length_eqb_0 in H. case_bool_decide as Hst; [done|].
  apply bind_Ok_inv in H as ([t n] & Ht & H). apply bind_Ok_inv in H as (ty & Hty & H).
  apply bind_Ok_inv in H as ([sz m] & Hsz & H).
  apply readUMPVarint_Ok in Ht as (Ht & Hn & Hd).
  rewrite length_eqb_0 in Hsz. case_bool_decide as Hst'; [done|].
  apply readUMPVarint_Ok in Hsz as (Hszr & Hm & Hd').
  destruct (int32FromUint64_Ok t ty (proj1 Ht) Hty) as [-> Htr].
  destruct (sz >? MaxPartPayload) eqn:E1; [done|]. destruct (zlen _ <? sz) eqn:E2; [done|].
  reflect_bools. simplify_eq. unfold part_wf, frame_part; simpl.
  set (st2 := drop _ (drop _ st)) in *.
  assert (zlen (take (Z.to_nat sz) st2) = sz) as Hl by (unfold zlen in *; rewrite length_take; lia).
  rewrite Hl. split; [lia|]. rewrite <- !app_assoc, take_drop.
  rewrite Hd at 1. f_equal. rewrite Hd' at 1. done.
Qed.

Lemma parse_part_None st : parse_part st = Ok None <-> st = [].
Proof.
  split; [|by intros ->]. unfold parse_part. rewrite length_eqb_0. case_bool_decide; [done|].
  intros H'. apply bind_Ok_inv in H' as ([t n] & Ht & H'). apply bind_Ok_inv in H' as (ty & Hty & H').
  apply bind_Ok_inv in H' as ([sz m] & Hsz & H'). repeat case_match; done.
Qed.

Lemma readUMPVarint_Err p l e :
  (umpVarintSize p <= length (p :: l))%nat -> readUMPVarint (p :: l) = Err e -> e = ErrNonCanonicalVarint.
Proof.
  intros Hl H. unfold readUMPVarint in H.
  assert (length (p :: l) <? umpVarintSize p = false)%nat as Hlt by (apply Nat.ltb_ge; lia).
  rewrite Hlt in H. repeat case_match; congruence.
Qed.

(** The varint decoder looks at no byte beyond the one its prefix announces. *)
Lemma readUMPVarint_take p l n :
  n = umpVarintSize p -> (n <= length (p :: l))%nat ->
  readUMPVarint (take n (p :: l)) = readUMPVarint (p :: l).
Proof.
  intros Hn Hl. pose proof (umpVarintSize_range p) as Hs.
  destruct (readUMPVarint (p :: l)) as [[v m]|e] eqn:E.
  - apply readUMPVarint_Ok in E as (Hv & Hm & Hd).
    destruct (encodeUMPVarint_prefix v [] Hv) as (p' & tl & Hp & Hsz & _). rewrite app_nil_r in Hp.
    assert (p' = p) as -> by (rewrite Hp in Hd; by injection Hd).
    rewrite Hd, take_app_exact by (rewrite length_encodeUMPVarint; lia).
    rewrite <- (app_nil_r (encodeUMPVarint v).1), readUMPVarint_encode by done. congruence.
  - destruct (readUMPVarint (take n (p :: l))) as [[v m]|e'] eqn:E'.
    + apply readUMPVarint_Ok in E' as (Hv & Hm & Hd).
      rewrite <- (take_drop n (p :: l)), Hd, <- app_assoc, readUMPVarint_encode in E by done. done.
    + apply readUMPVarint_Err in E as ->; [|lia].
      destruct n as [|n']; [lia|]. rewrite firstn_cons in E'.
      apply readUMPVarint_Err in E' as ->; [done|].
      simpl in Hl |- *. rewrite length_take. lia.
Qed.

(** ** Lemmas: the reader over any stream *)

Section Stream.
Context {S : Type} `{!IoReader S} `{!ByteStream S}.
Implicit Types rd : Reader S.

(** What is left to parse, and the size of the body as far as it is known. *)
Definition rd_stream rd : bytes := rd_buffer rd ++ stream_of (rd_source rd).
Definition rd_size rd : Z := rd_totalBytes rd + zlen (stream_of (rd_source rd)).

Definition rd_inv rd : Prop :=
  rd_totalBytes rd <= rd_maxBytes rd /\
  match rd_limitProbe rd with
  | limitNotProbed => True
  | limitCleanEOF => stream_of (rd_source rd) = []
  | limitOversize => False
  end.

(** [rd'] differs from [rd] only in how far the stream has been buffered. *)
Definition rd_same rd rd' : Prop :=
  rd_size rd' = rd_size rd /\ rd_maxBytes rd' = rd_maxBytes rd /\
  rd_maxParts rd' = rd_maxParts rd /\ rd_maxPartSize rd' = rd_maxPartSize rd /\
  rd_partCount rd' = rd_partCount rd /\ rd_inv rd'.

Lemma rd_same_trans rd1 rd2 rd3 : rd_same rd1 rd2 -> rd_same rd2 rd3 -> rd_same rd1 rd3.
Proof. unfold rd_same. intuition congruence. Qed.

(** Outcomes of [ensure]: enough bytes are buffered; the stream is too short; or
    the body exceeds the limit. *)
Definition ensure_post rd (need : Z) (out : option go_error * Reader S) : Prop :=
  let '(err, rd') := out in
  (err = None /\ rd_same rd rd' /\ rd_stream rd' = rd_stream rd /\ need <= zlen (rd_buffer rd')) \/
  (err = Some io_EOF /\ rd_same rd rd' /\ rd_stream rd' = rd_stream rd /\
   zlen (rd_stream rd) < need /\ rd_size rd <= rd_maxBytes rd /\
   stream_of (rd_source rd') = []) \/
  (err = Some ErrResponseTooLarge /\ rd_maxBytes rd < rd_size rd).

Lemma stream_nil_size rd :
  rd_inv rd -> stream_of (rd_source rd) = [] -> rd_size rd <= rd_maxBytes rd.
Proof. intros [? _] Hs. unfold rd_size. rewrite Hs. change (zlen []) with 0. lia. Qed.

Lemma probe_post rd need :
  rd_inv rd -> rd_maxBytes rd <= rd_totalBytes rd -> zlen (rd_buffer rd) < need ->
  ensure_post rd need (Reader_needBeyondLimit rd need).
Proof.
  intros Hinv Hmax Hneed. pose proof Hinv as [Htot Hprobe]. unfold Reader_needBeyondLimit, ensure_post.
  assert (zlen (rd_buffer rd) >=? need = false) as -> by lia. unfold Reader_probeAtLimit.
  assert (stream_of (rd_source rd) = [] -> zlen (rd_stream rd) < need) as Hshort
    by (intros Hs; unfold rd_stream; by rewrite Hs, app_nil_r).
  destruct (rd_limitProbe rd) eqn:Ep; [|right; left; unfold rd_same; auto 15 using stream_nil_size|done].
  destruct (io_read (rd_source rd) 1) as [[bs e] s'] eqn:Er.
  pose proof (io_read_data _ _ _ _ _ Er) as Hd. pose proof (io_read_error _ _ _ _ _ Er) as He.
  destruct (Z.gtb_spec (zlen bs) 0) as [Hb|Hb].
  - right. right. split; [done|]. unfold rd_size. rewrite Hd, zlen_app. pose proof (zlen_nonneg (stream_of s')). lia.
  - assert (bs = []) as -> by (apply zlen_0_nil; pose proof (zlen_nonneg bs); lia).
    pose proof (io_read_progress _ _ _ _ _ Z.lt_0_1 Er eq_refl) as Hs. simpl in Hd.
    destruct He as [->|[-> Hs']]; simpl; right; left;
      unfold rd_same, rd_size, rd_inv, rd_stream; simpl; rewrite <- Hd, Hs in *;
      change (zlen []) with 0 in *; rewrite ?app_nil_r in *; auto 15 with lia.
Qed.

(** A read moves bytes from the source to the buffer. *)
Lemma Reader_fill_same rd n bs e s' :
  rd_inv rd -> io_read (rd_source rd) n = (bs, e, s') -> zlen bs <= rd_maxBytes rd - rd_totalBytes rd ->
  let rd1 := Reader_fill (rd <| rd_source := s' |>) bs in
  rd_same rd rd1 /\ rd_stream rd1 = rd_stream rd /\
  rd_buffer rd1 = rd_buffer rd ++ bs /\ rd_source rd1 = s'.
Proof.
  intros [Ht Hp] Er Hb. pose proof (io_read_data _ _ _ _ _ Er) as Hd. unfold Reader_fill.
  assert (match rd_limitProbe rd with
          | limitNotProbed => True | limitCleanEOF => stream_of s' = [] | limitOversize => False end).
  { destruct (rd_limitProbe rd); [done| |done]. rewrite Hd in Hp. by apply app_eq_nil in Hp as [_ ?]. }
  destruct (Z.gtb_spec (zlen bs) 0);
    [|assert (bs = []) as -> by (apply zlen_0_nil; pose proof (zlen_nonneg bs); lia)];
    unfold rd_same, rd_size, rd_stream, rd_inv; simpl; rewrite Hd, ?zlen_app, ?app_nil_r, <- ?app_assoc;
    split_and!; try done; simpl; lia.
Qed.

(** [ensure] with one unit of fuel per missing byte meets its specification. *)
Lemma Reader_ensure_loop_post fuel rd need :
  rd_inv rd -> need - zlen (rd_buffer rd) <= Z.of_nat fuel ->
  exists out, Reader_ensure_loop fuel rd need = Some out /\ ensure_post rd need out.
Proof.
  revert rd. induction fuel as [|fuel IH]; intros rd Hinv Hf; cbn [Reader_ensure_loop];
    destruct (Z.geb_spec (zlen (rd_buffer rd)) need) as [Hge|Hlt];
    try (by eexists; split; [done|]; left; unfold rd_same); [lia|].
  destruct (Z.leb_spec (rd_maxBytes rd - rd_totalBytes rd) 0).
  { eexists. split; [done|]. apply probe_post; [done|lia..]. }
  cbv zeta. set (chunk := if readerChunkSize >? _ then _ else _).
  assert (0 < chunk <= rd_maxBytes rd - rd_totalBytes rd) as Hc
    by (unfold chunk, readerChunkSize; case_match; reflect_bools; lia).
  pose proof (io_read_bound (rd_source rd) chunk ltac:(lia)) as Hb.
  destruct (io_read (rd_source rd) chunk) as [[bs e] s'] eqn:Er. simpl in Hb.
  destruct (Reader_fill_same rd chunk bs e s' Hinv Er ltac:(lia)) as (Hsame & Hstream & Hb1 & Hs1).
  set (rd1 := Reader_fill _ _) in *. clearbody rd1.
  pose proof Hsame as (Hsz & Hm1 & _ & _ & _ & Hinv1).
  destruct (io_read_error _ _ _ _ _ Er) as [->|[-> Hs']].
  - destruct (Z.eqb_spec (zlen bs) 0) as [Hz|Hz].
    + apply zlen_0_nil in Hz as ->.
      pose proof (io_read_progress _ _ _ _ _ (proj1 Hc) Er eq_refl) as Hnil.
      eexists. split; [done|]. right. left. split_and!; [done..| |by apply stream_nil_size|].
      * unfold rd_stream. rewrite Hnil, app_nil_r. lia.
      * pose proof (io_read_data _ _ _ _ _ Er) as Hd. rewrite Hs1. simpl in Hd. congruence.
    + destruct (IH rd1 Hinv1) as ([err rd'] & Hout & Hpost).
      { rewrite Hb1, zlen_app. pose proof (zlen_nonneg bs). lia. }
      eexists. split; [done|]. unfold ensure_post in *. rewrite Hstream, Hsz, Hm1 in Hpost.
      destruct Hpost as [(?&?&?&?)|[(?&?&?&?&?&?)|?]]; eauto 11 using rd_same_trans.
  - assert (rd_stream rd = rd_buffer rd1) as Hall
      by (rewrite <- Hstream; unfold rd_stream; by rewrite Hs1, Hs', app_nil_r).
    rewrite bool_decide_true by done. simpl.
    destruct (Z.geb_spec (zlen (rd_buffer rd1)) need); eexists; (split; [done|]).
    + left. auto.
    + right. left. split_and!; [done..| | |]; [rewrite Hall; lia| |by rewrite Hs1].
      rewrite <- Hsz, <- Hm1. apply stream_nil_size; [done|]. by rewrite Hs1.
Qed.

Lemma Reader_ensure_post rd need :
  rd_inv rd -> ensure_post rd need (Reader_ensure rd need).
Proof.
  intros Hinv. unfold Reader_ensure.
  destruct (Reader_ensure_loop_post (Z.to_nat (need - zlen (rd_buffer rd))) rd need Hinv ltac:(lia))
    as (out & -> & Hp). done.
Qed.

(** The bytes the reader has buffered decide what the varint on the stream is. *)
Lemma readUMPVarint_buffered rd p buf :
  rd_buffer rd = p :: buf -> (umpVarintSize p <= length (rd_buffer rd))%nat ->
  readUMPVarint (take (umpVarintSize p) (rd_buffer rd)) = readUMPVarint (rd_stream rd).
Proof.
  intros Hbuf Hl. unfold rd_stream. rewrite Hbuf in *.
  rewrite <- app_comm_cons, <- (readUMPVarint_take p (buf ++ stream_of (rd_source rd)) _ eq_refl)
    by (simpl in *; rewrite length_app; lia).
  by rewrite app_comm_cons, take_app_le by lia.
Qed.

(** Outcomes of [readVarint]: the body is too large, or [readUMPVarint] of the
    stream, with [io.EOF] at its end. *)
Definition varint_post rd (out : res Z * Reader S) : Prop :=
  let '(r, rd') := out in
  (r = Err ErrResponseTooLarge /\ rd_maxBytes rd < rd_size rd) \/
  (rd_same rd rd' /\
   ((rd_stream rd = [] /\ r = Err io_EOF /\ rd_size rd <= rd_maxBytes rd /\ rd_stream rd' = []) \/
    (rd_stream rd <> [] /\
     match readUMPVarint (rd_stream rd) with
     | Ok (v, n) => r = Ok v /\ rd_stream rd' = drop n (rd_stream rd)
     | Err e => r = Err e /\ rd_buffer rd' <> []
     end))).

Lemma Reader_ensure_buffered rd need :
  need <= zlen (rd_buffer rd) -> Reader_ensure rd need = (None, rd).
Proof.
  intros H. unfold Reader_ensure.
  assert (zlen (rd_buffer rd) >=? need = true) as Hge by (apply Z.geb_le; lia).
  destruct (Z.to_nat _); simpl; by rewrite Hge.
Qed.

(** The second half of [readVarint], once the prefix byte is buffered. *)
Lemma Reader_readVarint_prefix rd p buf :
  rd_inv rd -> rd_buffer rd = p :: buf -> varint_post rd (Reader_readVarint rd).
Proof.
  intros Hinv Hbuf. unfold Reader_readVarint, varint_post.
  rewrite Reader_ensure_buffered by (rewrite Hbuf; unfold zlen; simpl; lia).
  assert (rd_stream rd = p :: buf ++ stream_of (rd_source rd)) as Hst
    by (unfold rd_stream; by rewrite Hbuf).
  rewrite Hbuf. simpl nth. pose proof (umpVarintSize_range p) as Hp.
  pose proof (Reader_ensure_post rd (Z.of_nat (umpVarintSize p)) Hinv) as H2.
  destruct (Reader_ensure rd _) as [e2 rd2].
  destruct H2 as [(-> & Hs2 & Hst2 & Hb2)|[(-> & Hs2 & Hst2 & Hlt & Hsz & Hdr)|(-> & Hbig)]];
    cbn iota beta; [|right|by left].
  - assert (exists buf2, rd_buffer rd2 = p :: buf2) as [buf2 Ebuf2].
    { unfold rd_stream in Hst2 at 1. rewrite Hst in Hst2.
      destruct (rd_buffer rd2) as [|p2 buf2]; [change (zlen []) with 0 in Hb2; lia|].
      injection Hst2 as -> _. eauto. }
    rewrite (readUMPVarint_buffered rd2 p buf2 Ebuf2) by (unfold zlen in Hb2; lia). rewrite Hst2.
    destruct (readUMPVarint (rd_stream rd)) as [[v n]|e] eqn:Ev; right.
    + split; [unfold rd_same, rd_size, rd_inv in *; simpl; intuition congruence|].
      right. split; [by rewrite Hst|]. split; [done|]. rewrite <- Hst2. unfold rd_stream; simpl.
      rewrite drop_app_le; [done|].
      rewrite <- Hst2, <- (readUMPVarint_buffered rd2 p buf2 Ebuf2) in Ev by (unfold zlen in Hb2; lia).
      apply readUMPVarint_Ok in Ev as (_ & Hn & Hd). apply (f_equal length) in Hd.
      rewrite length_app, length_encodeUMPVarint, length_take in Hd. lia.
    + split; [done|]. right. rewrite Hst, Ebuf2. done.
  - rewrite bool_decide_true by done. split; [done|]. right.
    unfold rd_stream in Hst2 at 1. rewrite Hdr, app_nil_r in Hst2. rewrite Hst2, Hst in *.
    split; [done|]. unfold readUMPVarint.
    rewrite (proj2 (Nat.ltb_lt _ _)) by (unfold zlen in Hlt; lia). done.
Qed.

Lemma Reader_readVarint_post rd : rd_inv rd -> varint_post rd (Reader_readVarint rd).
Proof.
  intros Hinv. pose proof (Reader_ensure_post rd 1 Hinv) as H1.
  destruct (Reader_ensure rd 1) as [e1 rd1] eqn:E1.
  destruct H1 as [(-> & Hs1 & Hst1 & Hb1)|H1].
  - pose proof Hs1 as (Hsz1 & Hm1 & _ & _ & _ & Hinv1).
    destruct (rd_buffer rd1) as [|p buf1] eqn:Ebuf; [change (zlen []) with 0 in Hb1; lia|].
    pose proof (Reader_readVarint_prefix rd1 p buf1 Hinv1 Ebuf) as H.
    assert (Reader_readVarint rd1 = Reader_readVarint rd) as Heq.
    { unfold Reader_readVarint. by rewrite Reader_ensure_buffered, E1 by (rewrite Ebuf; lia). }
    rewrite Heq in H. unfold varint_post in *. destruct (Reader_readVarint rd) as [r rd'].
    rewrite Hst1, Hsz1, Hm1 in H. destruct H as [?|[? ?]]; [by left|right].
    split; [by eapply rd_same_trans|done].
  - unfold Reader_readVarint, varint_post. rewrite E1.
    destruct H1 as [(-> & Hs1 & Hst1 & Hlt & Hsz & _)|(-> & Hbig)]; [right|by left].
    assert (rd_stream rd = []) as Hnil
      by (apply zlen_0_nil; pose proof (zlen_nonneg (rd_stream rd)); lia).
    rewrite Hst1, Hnil. auto 10.
Qed.

(** Outcomes of [ReadPart]: the body is too large, or [parse_part] of the
    stream, with a part beyond [maxParts] refused. *)
Definition readpart_post rd (out : res (option Part) * Reader S) : Prop :=
  let '(r, rd') := out in
  (r = Err ErrResponseTooLarge /\ rd_maxBytes rd < rd_size rd) \/
  match parse_part (rd_stream rd) with
  | Err e => r = Err e
  | Ok None => r = Ok None /\ rd_size rd <= rd_maxBytes rd
  | Ok (Some (p, rest)) =>
      if rd_partCount rd + 1 >? rd_maxParts rd then r = Err ErrTooManyParts
      else r = Ok (Some p) /\ rd_stream rd' = rest /\
           rd_same rd (rd' <| rd_partCount := rd_partCount rd |>) /\
           rd_partCount rd' = rd_partCount rd + 1
  end.

Lemma Reader_readPayload_post partType sz rd :
  rd_inv rd -> 0 <= sz ->
  let '(r, rd') := Reader_readPayload rd partType sz in
  (r = Err ErrResponseTooLarge /\ rd_maxBytes rd < rd_size rd) \/
  if sz >? rd_maxPartSize rd then r = Err ErrOversizedPart
  else if zlen (rd_stream rd) <? sz then r = Err ErrTruncatedStream
  else if rd_partCount rd + 1 >? rd_maxParts rd then r = Err ErrTooManyParts
  else r = Ok (Some (mkPart partType (take (Z.to_nat sz) (rd_stream rd)))) /\
       rd_stream rd' = drop (Z.to_nat sz) (rd_stream rd) /\
       rd_same rd (rd' <| rd_partCount := rd_partCount rd |>) /\
       rd_partCount rd' = rd_partCount rd + 1.
Proof.
  intros Hinv Hsz. unfold Reader_readPayload. destruct (sz >? rd_maxPartSize rd); [by right|].
  pose proof (Reader_ensure_post rd sz Hinv) as H. destruct (Reader_ensure rd sz) as [e rd1].
  destruct H as [(-> & Hs & Hst & Hb)|[(-> & Hs & Hst & Hlt & _)|(-> & Hbig)]]; cbn iota beta; [|right|by left].
  - assert (zlen (rd_stream rd) <? sz = false) as ->.
    { apply Z.ltb_ge. rewrite <- Hst. unfold rd_stream. rewrite zlen_app.
      pose proof (zlen_nonneg (stream_of (rd_source rd1))). lia. }
    pose proof Hs as (Hsize & Hm & Hmp & Hms & Hpc & Hi1 & Hi2). simpl. rewrite Hpc, Hmp.
    destruct (_ >? _); right; [done|]. rewrite <- Hst. unfold rd_stream. simpl. unfold zlen in Hb.
    rewrite take_app_le, drop_app_le by lia. split_and!; [done..| |done].
    unfold rd_same, rd_size, rd_inv; simpl. auto 10.
  - rewrite bool_decide_true by done. by rewrite (proj2 (Z.ltb_lt _ _)) by lia.
Qed.

Lemma readUMPVarint_Err_cases data e :
  readUMPVarint data = Err e -> e = ErrTruncatedStream \/ e = ErrNonCanonicalVarint.
Proof. unfold readUMPVarint. intros H. repeat case_match; simplify_eq; auto. Qed.

Lemma Reader_ReadPart_post rd :
  rd_inv rd -> rd_maxPartSize rd = MaxPartPayload -> readpart_post rd (Reader_ReadPart rd).
Proof.
  intros Hinv Hms. unfold Reader_ReadPart, readpart_post, parse_part.
  pose proof (Reader_readVarint_post rd Hinv) as H1. destruct (Reader_readVarint rd) as [r1 rd1].
  destruct H1 as [(-> & Hbig)|(Hs1 & [(Hnil & -> & Hsz & Hst1)|(Hne & H1)])]; [by left| |].
  { rewrite Hnil, bool_decide_true by done. by right. }
  rewrite length_eqb_0, bool_decide_false by done.
  pose proof Hs1 as (Hsz1 & Hm1 & Hmp1 & Hms1 & Hpc1 & Hinv1).
  destruct (readUMPVarint (rd_stream rd)) as [[t n]|e] eqn:Et.
  2: { destruct H1 as [-> Hbuf].
       destruct (readUMPVarint_Err_cases _ _ Et) as [-> | ->]; simpl; [|by right].
       assert (zlen (rd_buffer rd1) =? 0 = false) as -> by (apply Z.eqb_neq; by rewrite zlen_0_nil). by right. }
  destruct H1 as [-> Hst1]. simpl. destruct (int32FromUint64 t) as [ty|e]; [|by right]. simpl.
  rewrite <- Hst1. pose proof (Reader_readVarint_post rd1 Hinv1) as H2.
  destruct (Reader_readVarint rd1) as [r2 rd2]. unfold varint_post in H2. rewrite Hsz1, Hm1 in H2.
  destruct H2 as [(-> & Hbig)|(Hs2 & [(Hnil2 & -> & Hsz & Hst2)|(Hne2 & H2)])]; [by left| |].
  { rewrite Hnil2. by right. }
  rewrite length_eqb_0, bool_decide_false by done.
  destruct (readUMPVarint (rd_stream rd1)) as [[sz m]|e] eqn:Es; [|destruct H2 as [-> _]; by right].
  destruct H2 as [-> Hst2]. simpl. pose proof (readUMPVarint_Ok _ _ _ Es) as (Hszr & _).
  pose proof (rd_same_trans _ _ _ Hs1 Hs2) as Hs12. pose proof Hs12 as (Hsz2 & Hm2 & Hmp2 & Hms2 & Hpc2 & Hinv2).
  pose proof (Reader_readPayload_post ty sz rd2 Hinv2 (proj1 Hszr)) as H3.
  destruct (Reader_readPayload rd2 ty sz) as [r rd'].
  rewrite Hsz2, Hm2, Hms2, Hms, Hst2, Hpc2, Hmp2 in H3.
  destruct H3 as [?|H3]; [by left|right].
  repeat (case_match; [done|]). destruct H3 as (-> & -> & Hs3 & ->).
  split_and!; [done..| |done]. by eapply rd_same_trans.
Qed.

(** The parsing loop over a stream is the loop over its bytes. *)
Lemma ParseAll_loop_post fuel rd parts :
  rd_inv rd -> rd_maxPartSize rd = MaxPartPayload ->
  let r := ParseAll_loop fuel rd parts in
  (r = Some (Err ErrResponseTooLarge) /\ rd_maxBytes rd < rd_size rd) \/
  (r = parse_parts fuel (rd_maxParts rd - rd_partCount rd) (rd_stream rd) parts /\
   forall ps, r = Some (Ok ps) -> rd_size rd <= rd_maxBytes rd).
Proof.
  revert rd parts. induction fuel as [|fuel IH]; intros rd parts Hinv Hms; [by right|]. simpl.
  pose proof (Reader_ReadPart_post rd Hinv Hms) as H. unfold readpart_post in H.
  destruct (Reader_ReadPart rd) as [r rd1]. destruct H as [[-> ?]|H]; [by left|].
  destruct (parse_part (rd_stream rd)) as [[[p rest]|]|e]; [|destruct H as [-> ?]; by right|subst r; by right].
  destruct (Z.ltb_spec (rd_maxParts rd - rd_partCount rd) 1) as [Hb|Hb].
  { assert (rd_partCount rd + 1 >? rd_maxParts rd = true) as Hgt by (rewrite Z.gtb_ltb; lia).
    rewrite Hgt in H. subst r. by right. }
  assert (rd_partCount rd + 1 >? rd_maxParts rd = false) as Hgt by (rewrite Z.gtb_ltb; lia).
  rewrite Hgt in H. destruct H as (-> & Hst & Hs & Hpc).
  unfold rd_same, rd_inv in Hs. simpl in Hs. destruct Hs as (Hsz & Hm & Hmp & Hms1 & _ & Hi).
  destruct (IH rd1 (parts ++ [p]) Hi) as [[? ?]|[Heq Hok]]; [congruence|left|right].
  - split; [done|]. unfold rd_size in *. simpl in Hsz. lia.
  - rewrite Heq, Hst, Hpc, Hmp. split; [f_equal; lia|]. intros ps Hps.
    rewrite <- Hm, <- Hsz. apply (Hok ps). by rewrite Heq, Hst, Hpc, Hmp, <- Hps; f_equal; lia.
Qed.

End Stream.

Section Streams.

(** [byteReader] and [chunkReader] are byte streams. *)
#[export, refine] Instance byteReader_stream : ByteStream bytes := {| stream_of := id |}.
Proof.
  - intros s n bs e s' H. simpl in H. unfold byteReader_Read in H. case_match; simplify_eq; [done|].
    unfold id. by rewrite take_drop.
  - intros s n bs e s' Hn H ->. simpl in H. unfold byteReader_Read in H.
    case_match; reflect_bools; simplify_eq; [by apply zlen_0_nil|].
    destruct s; [done|]. by destruct (Z.to_nat n) eqn:?; [lia|].
  - intros s n bs e s' H. simpl in H. unfold byteReader_Read in H.
    case_match; reflect_bools; simplify_eq; [right|by left]. by rewrite zlen_0_nil in *.
Defined.

#[export, refine] Instance chunkReader_stream : ByteStream (list bytes) := {| stream_of := @concat Byte.byte |}.
Proof.
  - intros s n. induction s as [|[|b c] s IH]; intros bs e s' H; simpl in *; simplify_eq; [done|eauto|].
    by destruct (Z.to_nat n); simpl; rewrite ?app_assoc, ?take_drop.
  - intros s n bs e s' Hn. induction s as [|[|b c] s IH]; intros H ->; simpl in *; simplify_eq; [done|eauto|].
    by destruct (Z.to_nat n) eqn:?; [lia|].
  - intros s n. induction s as [|[|b c] s IH]; intros bs e s' H; simpl in *; simplify_eq; eauto.
Defined.

End Streams.

Lemma parse_parts_total fuel budget st parts :
  Z.max 0 budget < Z.of_nat fuel -> is_Some (parse_parts fuel budget st parts).
Proof.
  revert budget st parts. induction fuel as [|fuel IH]; intros budget st parts Hf; [lia|]. simpl.
  destruct (parse_part st) as [[[p rest]|]|e]; [|by eexists..].
  destruct (Z.ltb_spec budget 1); [by eexists|]. apply IH. lia.
Qed.

Lemma parse_parts_Ok fuel budget st parts ps :
  parse_parts fuel budget st parts = Some (Ok ps) ->
  exists ps', ps = parts ++ ps' /\ st = frame_parts ps' /\ Forall part_wf ps' /\
    (ps' = [] \/ zlen ps' <= budget).
Proof.
  revert budget st parts. induction fuel as [|fuel IH]; intros budget st parts H; [done|]. simpl in H.
  destruct (parse_part st) as [[[p rest]|]|e] eqn:Ep; [|simplify_eq|done].
  - apply parse_part_Some in Ep as [Hwf ->]. destruct (Z.ltb_spec budget 1); [done|].
    destruct (IH _ _ _ H) as (ps' & -> & -> & Hps & Hl). exists (p :: ps').
    rewrite <- app_assoc. split_and!; [done..| |]; [by constructor|]. right.
    unfold zlen in *. simpl. destruct Hl as [->|?]; simpl; lia.
  - apply parse_part_None in Ep as ->. exists []. rewrite app_nil_r. auto using Forall_nil_2.
Qed.

Lemma parse_parts_frame fuel budget ps parts :
  Forall part_wf ps -> zlen ps <= budget -> zlen ps < Z.of_nat fuel ->
  parse_parts fuel budget (frame_parts ps) parts = Some (Ok (parts ++ ps)).
Proof.
  revert budget fuel parts. induction ps as [|p ps IH]; intros budget fuel parts Hwf Hb Hf;
    (destruct fuel as [|fuel]; [unfold zlen in Hf; simpl in Hf; lia|]); cbn [parse_parts].
  { by rewrite app_nil_r. }
  inversion_clear Hwf. change (frame_parts (p :: ps)) with (frame_part p ++ frame_parts ps).
  rewrite parse_part_frame by done. unfold zlen in *. simpl length in *.
  destruct (Z.ltb_spec budget 1); [lia|]. rewrite IH by (done || unfold zlen; lia).
  by rewrite <- app_assoc.
Qed.

(** What the parsing loop over a fresh reader returns. *)
Lemma ParseAll_loop_new {S} `{ByteStream S} (fuel : nat) (s : S) :
  let r := ParseAll_loop fuel (NewReader s MaxRoundBytes) [] in
  (r = Some (Err ErrResponseTooLarge) /\ MaxRoundBytes < zlen (stream_of s)) \/
  (r = parse_parts fuel MaxParts (stream_of s) [] /\
   forall ps, r = Some (Ok ps) -> zlen (stream_of s) <= MaxRoundBytes).
Proof.
  pose proof (ParseAll_loop_post fuel (NewReader s MaxRoundBytes) []) as Hp.
  assert (rd_inv (NewReader s MaxRoundBytes)) as Hinv by (split; [by vm_compute|done]).
  specialize (Hp Hinv eq_refl). unfold rd_size in Hp. cbv zeta in *.
  change (rd_maxParts _ - rd_partCount _) with MaxParts in Hp. simpl rd_stream in Hp.
  exact Hp.
Qed.

(** ** Claims *)

(** [ReadPart] over any chunked delivery of a body implements the framing
    on plain bytes: unless the body exceeds the reader's limit, its result (a
    part and the unread rest, the end of the stream, or the error) is that of
    [parse_part] on the bytes not yet consumed, and it refuses a part beyond
    [maxParts]. *)
Theorem ReadPart_refines_framing {S} `{ByteStream S} (rd : Reader S) :
  rd_inv rd -> rd_maxPartSize rd = MaxPartPayload -> readpart_post rd (Reader_ReadPart rd).
Proof. apply Reader_ReadPart_post. Qed.

(** C11. [ParseAll] accepts exactly the concatenations of at most [MaxParts]
    canonically framed parts, within [MaxRoundBytes]; it returns those parts. *)
Theorem ParseAll_iff_framed (body : bytes) (ps : list Part) :
  ParseAll body = Ok ps <->
  body = frame_parts ps /\ Forall part_wf ps /\ zlen ps <= MaxParts /\ zlen body <= MaxRoundBytes.
Proof.
  unfold ParseAll. destruct (ParseAll_loop_new (Z.to_nat (MaxParts + 2)) body) as [[-> Hbig]|[-> Hok]].
  { split; [done|]. intros (_ & _ & _ & ?). unfold stream_of, byteReader_stream, id in Hbig. lia. }
  unfold stream_of, byteReader_stream, id in *. split.
  - destruct (parse_parts _ _ _ _) as [r|] eqn:E; [|done]. intros ->.
    destruct (parse_parts_Ok _ _ _ _ _ E) as (ps' & -> & -> & Hwf & Hl).
    split_and!; [done..| |eauto]. by destruct Hl as [->|?].
  - intros (-> & Hwf & Hl & _). by rewrite parse_parts_frame by (done || unfold MaxParts in *; lia).
Qed.

(** How the transport cuts a body into reads is not observable: two streams
    of the same bytes, within the limit, parse to the same parts or the same
    error. *)
Theorem parse_chunking_independent {S1 S2} `{ByteStream S1} `{ByteStream S2} (s1 : S1) (s2 : S2) :
  stream_of s1 = stream_of s2 -> zlen (stream_of s1) <= MaxRoundBytes ->
  exists r,
    ParseAll_loop (Z.to_nat (MaxParts + 2)) (NewReader s1 MaxRoundBytes) [] = Some r /\
    ParseAll_loop (Z.to_nat (MaxParts + 2)) (NewReader s2 MaxRoundBytes) [] = Some r.
Proof.
  intros Heq Hl.
  destruct (parse_parts_total (Z.to_nat (MaxParts + 2)) MaxParts (stream_of s1) []) as [r Hr];
    [unfold MaxParts; lia|]. exists r.
  destruct (ParseAll_loop_new (Z.to_nat (MaxParts + 2)) s1) as [[_ ?]|[-> _]]; [lia|].
  destruct (ParseAll_loop_new (Z.to_nat (MaxParts + 2)) s2) as [[_ ?]|[-> _]]; [rewrite <- Heq in *; lia|].
  by rewrite <- Heq.
Qed.

Definition sample_part : Part := mkPart PartMedia (lit "abc").

Definition sample_chunks : list bytes := map (fun b => [b]) (frame_part sample_part ++ lit "rest").

Lemma ReadPart_refines_framing_witness :
  readpart_post (NewReader sample_chunks 16) (Reader_ReadPart (NewReader sample_chunks 16)) /\
  (Reader_ReadPart (NewReader sample_chunks 16)).1 = Ok (Some sample_part).
Proof. split; [apply ReadPart_refines_framing; [by split|done]|vm_compute; done]. Defined.

Lemma parse_chunking_independent_witness :
  exists r,
    ParseAll_loop (Z.to_nat (MaxParts + 2)) (NewReader (frame_part sample_part) MaxRoundBytes) [] = Some r /\
    ParseAll_loop (Z.to_nat (MaxParts + 2))
      (NewReader (map (fun b => [b]) (frame_part sample_part)) MaxRoundBytes) [] = Some r.
Proof. apply parse_chunking_independent; vm_compute; done. Defined.
