(* ===== verification/GoStrings.v ===== *)
(** * Strings of the Go standard library

    The functions of package [strings] and of [net/url] the engine uses, on
    byte sequences.  [strings.ToLower] is the ASCII mapping on ASCII strings;
    on other strings it consults the Unicode tables, which are a parameter
    ([UnicodeTables]). *)
From S2P Require Import Prelude.

#[local] Open Scope byte_scope.

(** ** [strings] *)

Definition HasPrefix (s prefix : bytes) : bool := bool_decide (take (length prefix) s = prefix).

Definition HasSuffix (s suffix : bytes) : bool :=
  (length suffix <=? length s)%nat && bool_decide (drop (length s - length suffix) s = suffix).

Definition TrimSuffix (s suffix : bytes) : bytes :=
  if HasSuffix s suffix then take (length s - length suffix) s else s.

Fixpoint Contains (s sub : bytes) : bool :=
  HasPrefix s sub || match s with [] => false | _ :: s' => Contains s' sub end.

(** [strings.Cut(s, c)] at the first byte that satisfies [p], and the tail from
    that byte on ([None] when there is none). *)
Fixpoint cut_at (p : byte -> bool) (s : bytes) : bytes * option bytes :=
  match s with
  | [] => ([], None)
  | c :: s' =>
      if p c then ([], Some s)
      else let '(l, r) := cut_at p s' in (c :: l, r)
  end.

Definition is_byte (c d : byte) : bool := Byte.eqb c d.

Definition ContainsByte (s : bytes) (c : byte) : bool := existsb (is_byte c) s.

Definition CountByte (s : bytes) (c : byte) : nat := length (List.filter (is_byte c) s).

(** [strings.TrimRight(s, c)] for a one-byte cutset *)
Fixpoint TrimRightByte (s : bytes) (c : byte) : bytes :=
  match s with
  | [] => []
  | d :: s' =>
      match TrimRightByte s' c with
      | [] => if is_byte c d then [] else [d]
      | s'' => d :: s''
      end
  end.

Definition lower_byte (c : byte) : byte :=
  if (65 <=? b2z c)%Z && (b2z c <=? 90)%Z then z2b (b2z c + 32) else c.

Definition isASCII (s : bytes) : bool := forallb (fun c => b2z c <? 128)%Z s.

(** [strings.ToLower] on a string that is not ASCII: the rune mapping of the
    Unicode tables. *)
Class UnicodeTables := { unicode_lower : bytes -> bytes }.

Definition ToLower `{UnicodeTables} (s : bytes) : bytes :=
  if isASCII s then map lower_byte s else unicode_lower s.

(** [utf8.Valid]: the well-formed byte sequences of RFC 3629. *)
Definition in_range (lo hi : Z) (c : byte) : bool := ((lo <=? b2z c) && (b2z c <=? hi))%Z.
Definition utf8_tail : byte -> bool := in_range 0x80 0xBF.

Fixpoint utf8_Valid (s : bytes) : bool :=
  match s with
  | [] => true
  | c :: s1 =>
      if (b2z c <? 0x80)%Z then utf8_Valid s1
      else if in_range 0xC2 0xDF c then
        match s1 with
        | c1 :: s' => utf8_tail c1 && utf8_Valid s'
        | _ => false
        end
      else if in_range 0xE0 0xEF c then
        match s1 with
        | c1 :: c2 :: s' =>
            in_range (if is_byte xe0 c then 0xA0 else 0x80) (if is_byte xed c then 0x9F else 0xBF) c1 &&
            utf8_tail c2 && utf8_Valid s'
        | _ => false
        end
      else if in_range 0xF0 0xF4 c then
        match s1 with
        | c1 :: c2 :: c3 :: s' =>
            in_range (if is_byte xf0 c then 0x90 else 0x80) (if is_byte xf4 c then 0x8F else 0xBF) c1 &&
            utf8_tail c2 && utf8_tail c3 && utf8_Valid s'
        | _ => false
        end
      else false
  end.

(** ** Percent-encoding of [net/url] *)

Definition is_alpha (c : byte) : bool :=
  ((97 <=? b2z c) && (b2z c <=? 122) || (65 <=? b2z c) && (b2z c <=? 90))%Z.
Definition is_digit (c : byte) : bool := ((48 <=? b2z c) && (b2z c <=? 57))%Z.

Definition unhex (c : byte) : option Z :=
  let z := b2z c in
  (if (48 <=? z) && (z <=? 57) then Some (z - 48)
   else if (97 <=? z) && (z <=? 102) then Some (z - 97 + 10)
   else if (65 <=? z) && (z <=? 70) then Some (z - 65 + 10)
   else None)%Z.

Inductive encoding := encodePath | encodeHost.

Definition any_of (s : string) (c : byte) : bool := ContainsByte (lit s) c.

Definition shouldEscape (c : byte) (mode : encoding) : bool :=
  if is_alpha c || is_digit c then false
  else if match mode with
          | encodeHost => any_of "!$&'()*+,;=:[]<>" c || is_byte x22 c
          | encodePath => false
          end then false
  else if any_of "-_.~" c then false
  else if any_of "$&+,/:;=?@" c then
    match mode with encodePath => is_byte "?" c | encodeHost => true end
  else true.

(** [None] is an error.  In a host, a percent escape may only stand for a
    non-ASCII byte or for [%]. *)
Fixpoint unescape (s : bytes) (mode : encoding) : option bytes :=
  match s with
  | [] => Some []
  | c :: s1 =>
      if is_byte "%" c then
        match s1 with
        | h :: l :: s' =>
            match unhex h, unhex l with
            | Some zh, Some zl =>
                if match mode with
                   | encodeHost => (zh <? 8)%Z && negb (bool_decide ([h; l] = lit "25"))
                   | encodePath => false
                   end
                then None
                else r ← unescape s' mode; Some (z2b (zh * 16 + zl) :: r)
            | _, _ => None
            end
        | _ => None
        end
      else if match mode with
              | encodeHost => (b2z c <? 128)%Z && shouldEscape c mode
              | encodePath => false
              end
      then None
      else r ← unescape s1 mode; Some (c :: r)
  end.

Definition upperhex (z : Z) : byte := z2b (if (z <? 10)%Z then 48 + z else 55 + z).

Definition escape (s : bytes) (mode : encoding) : bytes :=
  s ≫= fun c => if shouldEscape c mode
                then ["%"; upperhex (b2z c / 16); upperhex (b2z c mod 16)] else [c].

Definition validEncoded (s : bytes) (mode : encoding) : bool :=
  forallb (fun c => any_of "!$&'()*+,;=:@[]%" c || negb (shouldEscape c mode)) s.

(** ** Lemmas *)

Lemma is_byte_true c d : is_byte c d = true <-> c = d.
Proof. unfold is_byte. split; [apply Byte.byte_dec_bl|apply Byte.byte_dec_lb]. Qed.

Lemma HasPrefix_app s prefix : HasPrefix s prefix = true <-> exists t, s = prefix ++ t.
Proof.
  unfold HasPrefix. rewrite bool_decide_eq_true. split.
  - intros H. exists (drop (length prefix) s). by rewrite <- H at 1; rewrite take_drop.
  - intros [t ->]. apply take_app_length.
Qed.

Lemma HasSuffix_app s suffix : HasSuffix s suffix = true <-> exists t, s = t ++ suffix.
Proof.
  unfold HasSuffix. rewrite andb_true_iff, bool_decide_eq_true, Nat.leb_le. split.
  - intros [_ H]. exists (take (length s - length suffix) s). by rewrite <- H at 2; rewrite take_drop.
  - intros [t ->]. rewrite length_app. split; [lia|].
    replace (_ - _)%nat with (length t) by lia. apply drop_app_length.
Qed.

(** [cut_at] splits its argument at the first byte that satisfies [p]. *)
Lemma cut_at_spec p s l r :
  cut_at p s = (l, r) ->
  s = l ++ default [] r /\ Forall (fun c => p c = false) l /\
  match r with Some (c :: _) => p c = true | Some [] => False | None => True end.
Proof.
  revert l r. induction s as [|c s IH]; intros l r H; simpl in H; [by simplify_eq|].
  destruct (p c) eqn:E; [by simplify_eq|]. destruct (cut_at p s) as [l' r'].
  simplify_eq. destruct (IH _ _ eq_refl) as (-> & Hl & Hr). by repeat constructor.
Qed.

(** The split is determined: a prefix without [p], then nothing or a byte with
    [p]. *)
Lemma cut_at_unique p l t :
  Forall (fun c => p c = false) l ->
  match t with [] => True | c :: _ => p c = true end ->
  cut_at p (l ++ t) = (l, match t with [] => None | _ => Some t end).
Proof.
  intros Hl Ht. induction Hl as [|c l Hc Hl IH]; simpl; [|by rewrite Hc, IH].
  destruct t as [|c t]; simpl; [done|]. by rewrite Ht.
Qed.

Lemma lower_byte_fixed c : lower_byte (lower_byte c) = lower_byte c.
Proof. by destruct c. Qed.

Lemma isASCII_lower s : isASCII s = true -> isASCII (map lower_byte s) = true.
Proof.
  unfold isASCII. rewrite !forallb_forall. intros H c Hc.
  apply in_map_iff in Hc as (d & <- & Hd). apply H in Hd. by destruct d.
Qed.

Lemma ToLower_idem `{UnicodeTables} s : isASCII s = true -> ToLower (ToLower s) = ToLower s.
Proof.
  intros H0. unfold ToLower. rewrite H0, isASCII_lower by done.
  rewrite map_map. apply map_ext. apply lower_byte_fixed.
Qed.

Lemma TrimRightByte_idem s c : TrimRightByte (TrimRightByte s c) c = TrimRightByte s c.
Proof.
  induction s as [|d s IH]; simpl; [done|]. destruct (TrimRightByte s c) as [|b t] eqn:E.
  - destruct (is_byte c d) eqn:Ed; simpl; [done|]. by rewrite Ed.
  - change (TrimRightByte (d :: b :: t) c)
      with (match TrimRightByte (b :: t) c with
            | [] => if is_byte c d then [] else [d] | s'' => d :: s'' end).
    by rewrite IH.
Qed.

Lemma TrimRightByte_incl s c d : In d (TrimRightByte s c) -> In d s.
Proof.
  induction s as [|x s IH]; simpl; [done|]. destruct (TrimRightByte s c) as [|y t].
  - destruct (is_byte c x); simpl; [done|tauto].
  - simpl in *. tauto.
Qed.
