(* ===== verification/Headers.v ===== *)
(** * HTTP headers

    What the repository uses of [net/http.Header]: the canonical form of a key
    and the operations on the multi-map. *)
From S2P Require Import Prelude GoStrings.

#[local] Open Scope byte_scope.

Abbreviation http_Header := (gmap bytes (list bytes)).

Definition validHeaderFieldByte (c : byte) : bool :=
  is_alpha c || is_digit c || any_of "!#$%&'*+-.^_`|~" c.

Definition upper_byte (c : byte) : byte :=
  if ((97 <=? b2z c) && (b2z c <=? 122))%Z then z2b (b2z c - 32) else c.

Fixpoint canonical_bytes (upper : bool) (s : bytes) : bytes :=
  match s with
  | [] => []
  | c :: s =>
      let c := if upper then upper_byte c else lower_byte c in
      c :: canonical_bytes (is_byte "-" c) s
  end.

#[local] Open Scope Z_scope.

Definition CanonicalHeaderKey (s : bytes) : bytes :=
  if forallb validHeaderFieldByte s then canonical_bytes true s else s.

Definition Header_Set (h : http_Header) (key value : bytes) : http_Header := <[CanonicalHeaderKey key := [value]]> h.
Definition Header_Add (h : http_Header) (key value : bytes) : http_Header :=
  <[CanonicalHeaderKey key := default [] (h !! CanonicalHeaderKey key) ++ [value]]> h.
Definition Header_Del (h : http_Header) (key : bytes) : http_Header := delete (CanonicalHeaderKey key) h.
Definition Header_Get (h : http_Header) (key : bytes) : bytes :=
  match h !! CanonicalHeaderKey key with Some (value :: _) => value | _ => [] end.

(** ** Canonical names *)

Lemma upper_byte_idem c : upper_byte (upper_byte c) = upper_byte c.
Proof. by destruct c. Qed.

Lemma valid_case c : validHeaderFieldByte (upper_byte c) = validHeaderFieldByte c /\
  validHeaderFieldByte (lower_byte c) = validHeaderFieldByte c.
Proof. by destruct c. Qed.

Lemma canonical_valid upper s : forallb validHeaderFieldByte (canonical_bytes upper s) = forallb validHeaderFieldByte s.
Proof.
  revert upper. induction s as [|c s IH]; intros upper; simpl; [done|]. rewrite IH. f_equal.
  destruct upper; apply valid_case.
Qed.

Lemma canonical_idem upper s : canonical_bytes upper (canonical_bytes upper s) = canonical_bytes upper s.
Proof.
  revert upper. induction s as [|c s IH]; intros upper; simpl; [done|].
  assert ((if upper then upper_byte (if upper then upper_byte c else lower_byte c)
           else lower_byte (if upper then upper_byte c else lower_byte c)) =
          (if upper then upper_byte c else lower_byte c)) as ->
    by (destruct upper; [apply upper_byte_idem|apply lower_byte_fixed]).
  by rewrite IH.
Qed.

Lemma CanonicalHeaderKey_idem s : CanonicalHeaderKey (CanonicalHeaderKey s) = CanonicalHeaderKey s.
Proof.
  unfold CanonicalHeaderKey. destruct (forallb validHeaderFieldByte s) eqn:E; [|by rewrite E].
  by rewrite canonical_valid, E, canonical_idem.
Qed.
