(* ===== verification/Url.v ===== *)
(** * SABR endpoints

    [ValidateSABRURL] and [requestURL] of [request.go], [sabrRedirectLoopKey]
    and [redirectTracker] of [context_state.go].

    [url_Parse] models [net/url.Parse] as far as [ValidateSABRURL] looks at its
    result.  Three cases are merged with the error result, because
    [ValidateSABRURL] answers them with the error it answers a parse error
    with: an authority with user information, a bracketed IP literal (whose
    host contains a colon) and a non-empty fragment are kept undecoded. *)
From S2P Require Import Prelude Errors GoStrings.

#[local] Open Scope byte_scope.

(** ** [net/url] *)

Record URL := mkURL {
  url_Scheme : bytes;
  url_Opaque : bytes;
  url_User : option bytes;
  url_Host : bytes;
  url_Path : bytes;
  url_RawPath : bytes;
  url_Fragment : bytes
}.

#[export] Instance eta_URL : Eta URL :=
  fun u => mkURL (url_Scheme u) (url_Opaque u) (url_User u) (url_Host u) (url_Path u)
             (url_RawPath u) (url_Fragment u).

Definition zeroURL : URL := mkURL [] [] None [] [] [] [].

(** The scheme and the rest after [:]; the empty scheme when there is none. *)
Fixpoint getScheme_loop (raw pre s : bytes) : option (bytes * bytes) :=
  match s with
  | [] => Some ([], raw)
  | c :: s' =>
      if is_alpha c then getScheme_loop raw (pre ++ [c]) s'
      else if is_digit c || any_of "+-." c then
        match pre with [] => Some ([], raw) | _ => getScheme_loop raw (pre ++ [c]) s' end
      else if is_byte ":" c then
        match pre with [] => None | _ => Some (pre, s') end
      else Some ([], raw)
  end.
Definition getScheme (raw : bytes) : option (bytes * bytes) := getScheme_loop raw [] raw.

Definition has_ctl (s : bytes) : bool := existsb (fun c => (b2z c <? 32)%Z || (b2z c =? 127)%Z) s.

Definition validOptionalPort (port : bytes) : bool :=
  match port with
  | [] => true
  | c :: port => is_byte ":" c && forallb is_digit port
  end.

(** [host[i:]] for the last index [i] of [c] *)
Fixpoint from_last (c : byte) (s : bytes) : option bytes :=
  match s with
  | [] => None
  | d :: s' =>
      match from_last c s' with
      | Some t => Some t
      | None => if is_byte c d then Some s else None
      end
  end.

Definition parseHost (host : bytes) : option bytes :=
  if ContainsByte host "[" then None
  else
    match from_last ":" host with
    | Some colonPort => if validOptionalPort colonPort then unescape host encodeHost else None
    | None => unescape host encodeHost
    end.

(** The user information, undecoded, and the host. *)
Definition parseAuthority (authority : bytes) : option (option bytes * bytes) :=
  match from_last "@" authority with
  | Some at_host =>
      host ← parseHost (drop 1 at_host);
      Some (Some (take (length authority - length at_host) authority), host)
  | None => host ← parseHost authority; Some (None, host)
  end.

Definition setPath (u : URL) (p : bytes) : option URL :=
  path ← unescape p encodePath;
  let u := u <| url_Path := path |> in
  Some (if bool_decide (p = escape path encodePath) then u else u <| url_RawPath := p |>).

Definition url_EscapedPath (u : URL) : bytes :=
  let raw :=
    if negb (bool_decide (url_RawPath u = [])) && validEncoded (url_RawPath u) encodePath
    then match unescape (url_RawPath u) encodePath with
         | Some p => if bool_decide (p = url_Path u) then Some (url_RawPath u) else None
         | None => None
         end
    else None in
  match raw with
  | Some p => p
  | None => if bool_decide (url_Path u = lit "*") then lit "*" else escape (url_Path u) encodePath
  end.

(** [Hostname] and [Port]: [splitHostPort] of the host. *)
Definition splitHostPort (hostPort : bytes) : bytes * bytes :=
  let '(host, port) :=
    match from_last ":" hostPort with
    | Some t => if validOptionalPort t then (take (length hostPort - length t) hostPort, drop 1 t)
                else (hostPort, [])
    | None => (hostPort, [])
    end in
  if HasPrefix host (lit "[") && HasSuffix host (lit "]")
  then (take (length host - 2) (drop 1 host), port) else (host, port).

(** [parse(rawURL, false)]; a trailing lone [?] leaves the query empty, as the
    cut at the first [?] does. *)
Definition url_parse (raw : bytes) : option URL :=
  if has_ctl raw then None
  else if bool_decide (raw = lit "*") then Some (zeroURL <| url_Path := lit "*" |>)
  else
    '(scheme, rest) ← getScheme raw;
    let u := zeroURL <| url_Scheme := map lower_byte scheme |> in
    let rest := (cut_at (is_byte "?") rest).1 in
    if negb (HasPrefix rest (lit "/")) && negb (bool_decide (scheme = []))
    then Some (u <| url_Opaque := rest |>)
    else if negb (HasPrefix rest (lit "/")) && ContainsByte (cut_at (is_byte "/") rest).1 ":"
    then None
    else if (negb (bool_decide (scheme = [])) || negb (HasPrefix rest (lit "///"))) && HasPrefix rest (lit "//")
    then
      let '(authority, path) := cut_at (is_byte "/") (drop 2 rest) in
      '(user, host) ← parseAuthority authority;
      setPath (u <| url_User := user |> <| url_Host := host |>) (default [] path)
    else setPath u rest.

Definition url_Parse (raw : bytes) : option URL :=
  let '(u, frag) := cut_at (is_byte "#") raw in
  url ← url_parse u;
  Some (url <| url_Fragment := drop 1 (default [] frag) |>).

(** ** [request.go] *)

Section Endpoint.
Context `{UnicodeTables}.

Definition ValidateSABRURL (raw : bytes) : res URL :=
  match url_Parse raw with
  | None => Err ErrUnsupportedURL
  | Some parsed =>
      if negb (bool_decide (url_Scheme parsed = lit "https")) || bool_decide (url_Host parsed = [])
      then Err ErrUnsupportedURL
      else if bool_decide (url_User parsed <> None) || negb (bool_decide (url_Fragment parsed = []))
      then Err ErrUnsupportedURL
      else
        let escapedPath := ToLower (url_EscapedPath parsed) in
        if Contains escapedPath (lit "%00") || Contains escapedPath (lit "%2f") || Contains escapedPath (lit "%5c")
        then Err ErrUnsupportedURL
        else if HasPrefix (url_Path parsed) (lit "//") || ContainsByte (url_Path parsed) "\"
        then Err ErrUnsupportedURL
        else
          let '(hostname, port) := splitHostPort (url_Host parsed) in
          let host := ToLower (TrimSuffix hostname (lit ".")) in
          if negb (bool_decide (port = [])) then Err ErrUnsupportedURL
          else if HasSuffix (url_Host parsed) (lit ":") || (0 <? CountByte (url_Host parsed) ":")%nat
          then Err ErrUnsupportedURL
          else if negb (bool_decide (host = lit "googlevideo.com")) && negb (HasSuffix host (lit ".googlevideo.com"))
          then Err ErrUnsupportedURL
          else Ok parsed
  end.

(** [strconv.Itoa] of a non-negative number *)
Fixpoint itoa_loop (fuel : nat) (n : Z) (acc : bytes) : bytes :=
  match fuel with
  | O => acc
  | S fuel' =>
      let acc := z2b (48 + n mod 10) :: acc in
      if (n <? 10)%Z then acc else itoa_loop fuel' (n / 10) acc
  end.
Definition Itoa (n : Z) : bytes :=
  if (n <? 0)%Z then "-" :: itoa_loop 20 (- n) [] else itoa_loop 20 n [].

Definition requestURL (serverURL : bytes) (requestNumber : Z) : res bytes :=
  _ ← ValidateSABRURL serverURL;
  let separator := if Contains serverURL (lit "?") then lit "&" else lit "?" in
  Ok (serverURL ++ separator ++ lit "rn=" ++ Itoa requestNumber).

(** ** Redirect tracking *)

(** [strings.Index(raw, "://")] as the parts before and after it. *)
Fixpoint split_scheme (raw : bytes) : option (bytes * bytes) :=
  if HasPrefix raw (lit "://") then Some ([], drop 3 raw)
  else match raw with
       | [] => None
       | c :: raw' => '(l, r) ← split_scheme raw'; Some (c :: l, r)
       end.

Definition sabrRedirectLoopKey (raw : bytes) : res bytes :=
  match ValidateSABRURL raw with
  | Err _ => Err ErrUnsafeRedirect
  | Ok _ =>
      match split_scheme raw with
      | None => Err ErrUnsafeRedirect
      | Some (scheme, afterScheme) =>
          let scheme := ToLower scheme in
          let '(authority, remainder) := cut_at (fun c => is_byte "/" c || is_byte "?" c) afterScheme in
          let host := ToLower (TrimRightByte authority ".") in
          if bool_decide (host = []) then Err ErrUnsafeRedirect
          else Ok (scheme ++ lit "://" ++ host ++ default [] remainder)
      end
  end.

Record redirectTracker := mkTracker {
  trk_seen : gset bytes;
  trk_count : Z
}.

#[export] Instance eta_redirectTracker : Eta redirectTracker :=
  fun t => mkTracker (trk_seen t) (trk_count t).

Definition newRedirectTracker (initialURL : bytes) : redirectTracker :=
  let tracker := mkTracker ∅ 0 in
  if bool_decide (initialURL = []) then tracker
  else match sabrRedirectLoopKey initialURL with
       | Err _ => tracker
       | Ok key => tracker <| trk_seen := {[key]} |>
       end.

Definition redirectTracker_validate (tracker : redirectTracker) (rawURL : bytes) : res unit :=
  key ← sabrRedirectLoopKey rawURL;
  if bool_decide (key ∈ trk_seen tracker) then Err ErrRedirectLoop
  else if (trk_count tracker >=? MaxDirectiveRedirects)%Z then Err ErrRedirectBudget
  else Ok tt.

Definition redirectTracker_record (tracker : redirectTracker) (rawURL : bytes) : redirectTracker :=
  if bool_decide (rawURL = []) then tracker
  else match sabrRedirectLoopKey rawURL with
       | Err _ => tracker
       | Ok key => tracker <| trk_seen := trk_seen tracker ∪ {[key]} |>
                           <| trk_count := (trk_count tracker + 1)%Z |>
       end.

(** A run of directives: each redirect is validated, then recorded once its
    response is committed. *)
Fixpoint follow_redirects (tracker : redirectTracker) (urls : list bytes) : res redirectTracker :=
  match urls with
  | [] => Ok tracker
  | rawURL :: urls =>
      _ ← redirectTracker_validate tracker rawURL;
      follow_redirects (redirectTracker_record tracker rawURL) urls
  end.

End Endpoint.

(** ** Specification *)

(** A byte that ends the authority of a URL. *)
Definition ends_authority (c : byte) : bool := any_of "/?#" c.

Definition trusted_host (host : bytes) : Prop :=
  host = lit "googlevideo.com" \/ exists sub, host = sub ++ lit ".googlevideo.com".

(** [raw] is [scheme://authority tail], cut where RFC 3986 cuts it. *)
Record endpoint_parts (raw scheme authority tail : bytes) : Prop := {
  ep_raw : raw = scheme ++ lit "://" ++ authority ++ tail;
  ep_scheme : ~ In ":" scheme;
  ep_authority : Forall (fun c => ends_authority c = false) authority;
  ep_tail : match tail with [] => True | c :: _ => ends_authority c = true end
}.

(** ** Lemmas: the structure of a parsed URL *)

Lemma getScheme_loop_spec raw pre s scheme rest :
  ~ In ":" pre -> getScheme_loop raw pre s = Some (scheme, rest) -> scheme <> [] ->
  ~ In ":" scheme /\ pre ++ s = scheme ++ ":" :: rest.
Proof.
  revert pre. induction s as [|c s IH]; intros pre Hpre H Hne; simpl in H; [by simplify_eq|].
  assert (forall (P : byte -> bool), P ":" = false -> P c = true -> ~ In ":" (pre ++ [c])) as Hpc.
  { intros P H1 H2 Hin. apply in_app_or in Hin as [?|[Hc|[]]]; [done|congruence]. }
  destruct (is_alpha c) eqn:E1.
  { apply IH in H; [|by apply (Hpc is_alpha)|done]. by rewrite <- app_assoc in H. }
  destruct (is_digit c || any_of "+-." c) eqn:E2.
  { destruct pre; [by simplify_eq|]. apply IH in H; [|by apply (Hpc (fun c => is_digit c || any_of "+-." c))|done].
    by rewrite <- app_assoc in H. }
  destruct (is_byte ":" c) eqn:E3; [|by simplify_eq].
  apply is_byte_true in E3 as <-. destruct pre; [done|]. by simplify_eq.
Qed.

Lemma setPath_frame u p u' :
  setPath u p = Some u' ->
  url_Scheme u' = url_Scheme u /\ url_Host u' = url_Host u /\ url_User u' = url_User u.
Proof.
  unfold setPath. intros H. destruct (unescape p encodePath); [|done]. simpl in H.
  injection H as <-. by case_match.
Qed.

Lemma ends_authority_cases c :
  ends_authority c = is_byte "/" c || is_byte "?" c || is_byte "#" c.
Proof. by destruct c. Qed.

Lemma url_parse_authority raw u :
  url_parse raw = Some u -> url_Host u <> [] -> url_Scheme u <> [] -> Forall (fun c => is_byte "#" c = false) raw ->
  exists scheme authority tail,
    endpoint_parts raw scheme authority tail /\ map lower_byte scheme = url_Scheme u /\
    parseAuthority authority = Some (url_User u, url_Host u).
Proof.
  intros Hp Hh Hs Hfrag. unfold url_parse in Hp.
  destruct (has_ctl raw); [done|]. destruct (bool_decide (raw = lit "*")); [by simplify_eq|].
  destruct (getScheme raw) as [[scheme rest]|] eqn:Eg; [|done]. cbn in Hp.
  destruct (cut_at (is_byte "?") rest) as [rest1 q] eqn:Eq. simpl in Hp.
  destruct (cut_at_spec _ _ _ _ Eq) as (-> & Hrest1 & Hq).
  destruct (negb (HasPrefix rest1 _) && _); [by simplify_eq|].
  destruct (negb (HasPrefix rest1 _) && _); [done|].
  destruct ((_ || _) && HasPrefix rest1 _) eqn:Ea;
    [|apply setPath_frame in Hp as (_ & Hh' & _); simpl in Hh'; congruence].
  apply andb_true_iff in Ea as [_ Ea]. apply HasPrefix_app in Ea as [ar ->].
  change (drop 2 _) with ar in Hp.
  destruct (cut_at (is_byte "/") ar) as [authority path] eqn:Ear.
  destruct (cut_at_spec _ _ _ _ Ear) as (-> & Hauth & Hpath).
  destruct (parseAuthority authority) as [[user host]|] eqn:Epa; [|done]. simpl in Hp.
  apply setPath_frame in Hp as (Hsch & Hhost & Huser). simpl in *.
  assert (scheme <> []) as Hne by (intros ->; simpl in Hsch; congruence).
  destruct (getScheme_loop_spec _ _ _ _ _ (@in_nil byte ":") Eg Hne) as [Hcol Heq]. simpl in Heq.
  exists scheme, authority, (default [] path ++ default [] q).
  assert (raw = scheme ++ lit "://" ++ authority ++ default [] path ++ default [] q) as Hraw
    by (rewrite Heq; simpl; by rewrite <- app_assoc).
  split; [|by rewrite Hsch, Huser, Hhost]. split; [done..| |].
  - rewrite Hraw in Hfrag. rewrite !Forall_app in Hfrag. rewrite !Forall_cons, Forall_app in Hrest1.
    destruct Hfrag as (_ & _ & Hf & _), Hrest1 as (_ & _ & Hr & _).
    rewrite Forall_forall in *. intros c Hc. rewrite ends_authority_cases, Hauth, Hr, Hf by done. done.
  - destruct path as [[|c path]|]; [done| |]; simpl; [by rewrite ends_authority_cases, Hpath|].
    destruct q as [[|c q]|]; simpl; [done| |done]. by rewrite ends_authority_cases, Hq, orb_true_r.
Qed.

Lemma ContainsByte_In s c : ContainsByte s c = true <-> In c s.
Proof.
  unfold ContainsByte. rewrite existsb_exists. split.
  - intros (d & Hd & ->%is_byte_true). done.
  - intros Hc. exists c. by rewrite is_byte_true.
Qed.

Lemma ContainsByte_notIn s c : ContainsByte s c = false <-> ~ In c s.
Proof. rewrite <- ContainsByte_In. by destruct (ContainsByte s c). Qed.

(** One step of [unescape] in a host. *)
Inductive unescape_step : bytes -> bytes -> byte -> byte -> Prop :=
| step_plain c s : c <> "%" -> unescape_step (c :: s) s c c
| step_escape h l zh zl s :
    unhex h = Some zh -> unhex l = Some zl -> (8 <= zh)%Z \/ [h; l] = lit "25" ->
    unescape_step ("%" :: h :: l :: s) s "%" (z2b (zh * 16 + zl)).

Lemma unescape_host_step c s t :
  unescape (c :: s) encodeHost = Some t ->
  exists s' d t', unescape_step (c :: s) s' c d /\ unescape s' encodeHost = Some t' /\ t = d :: t'.
Proof.
  cbn [unescape]. destruct (is_byte "%" c) eqn:Ec.
  - apply is_byte_true in Ec as <-. destruct s as [|h [|l s]]; [done..|].
    destruct (unhex h) as [zh|] eqn:Eh, (unhex l) as [zl|] eqn:El; [|done..].
    destruct (_ && _) eqn:Eg; [done|]. intros H. destruct (unescape s encodeHost) eqn:Es; [|done].
    simpl in H. injection H as <-. eexists _, _, _. split; [|done]. econstructor; [done..|].
    apply andb_false_iff in Eg as [?|?]; reflect_bools; auto.
  - destruct (_ && _); [done|]. intros H. destruct (unescape s encodeHost) eqn:Es; [|done].
    simpl in H. injection H as <-. exists s, c. eexists. split_and!; [|done..]. constructor.
    intros ->. done.
Qed.

(** The escapes of a host decode to bytes outside ASCII, or to [%]. *)
Lemma unhex_range c z : unhex c = Some z -> (0 <= z <= 15)%Z.
Proof. destruct c; vm_compute; intros H; simplify_eq; split; discriminate. Qed.

Lemma unescape_host_In s t c :
  unescape s encodeHost = Some t -> (b2z c < 128)%Z -> c <> "%" -> In c t -> In c s.
Proof.
  intros H Hc Hp. revert t H. induction s as [s IH] using (induction_ltof1 _ length). intros t H Hin.
  destruct s as [|c0 s]; [by simplify_eq/=|].
  apply unescape_host_step in H as (s' & d & t' & Hst & Hs' & ->).
  assert (length s' < length (c0 :: s))%nat as Hlt by (inversion Hst; subst; simpl; lia).
  assert (In c s' -> In c (c0 :: s)) as Hrec by (inversion Hst; subst; simpl; tauto).
  destruct Hin as [->|Hin]; [|apply Hrec; by apply (IH s' Hlt t')].
  inversion Hst; subst; [by left|]. exfalso.
  match goal with H : _ \/ _ |- _ => destruct H as [Hz|Hz] end.
  - rewrite b2z_z2b in Hc. pose proof (unhex_range h zh ltac:(done)).
    pose proof (unhex_range l zl ltac:(done)). rewrite Z.mod_small in Hc; lia.
  - injection Hz as -> ->. apply Hp. by injection H1 as <-; injection H2 as <-.
Qed.

(** Conversely a byte that is no hexadecimal digit survives decoding. *)
Lemma unescape_host_keeps s t c :
  unescape s encodeHost = Some t -> unhex c = None -> c <> "%" -> In c s -> In c t.
Proof.
  intros H Hc Hp. revert t H. induction s as [s IH] using (induction_ltof1 _ length). intros t H Hin.
  destruct s as [|c0 s]; [done|].
  apply unescape_host_step in H as (s' & d & t' & Hst & Hs' & ->).
  assert (length s' < length (c0 :: s))%nat as Hlt by (inversion Hst; subst; simpl; lia).
  assert (c = d \/ In c s') as [->|Hin'];
    [|by left|right; by apply (IH s' Hlt)].
  inversion Hst; subst; simpl in Hin; [destruct Hin; auto|].
  destruct Hin as [?|[?|[?|?]]]; [congruence..|by right].
Qed.

Lemma unescape_host_plain s t :
  unescape s encodeHost = Some t -> ~ In "%" s -> t = s.
Proof.
  revert t. induction s as [|c s IH]; intros t H Hp; [by simplify_eq/=|].
  apply unescape_host_step in H as (s' & d & t' & Hst & Hs' & ->).
  inversion Hst; subst; [|exfalso; apply Hp; by left].
  f_equal. apply IH; [done|]. intros ?. apply Hp. by right.
Qed.

Lemma from_last_None c s : from_last c s = None <-> ~ In c s.
Proof.
  induction s as [|d s IH]; simpl; [tauto|]. destruct (from_last c s) as [t|].
  - split; [done|]. intros Hn. exfalso. apply Hn. right. destruct (in_dec byte_eq_dec c s); [done|].
    by apply IH in n.
  - destruct (is_byte c d) eqn:E.
    + apply is_byte_true in E as ->. split; [done|]. intros Hn. exfalso. apply Hn. by left.
    + split; [|done]. intros _ [->|Hin]; [|by apply IH in Hin].
      by rewrite (proj2 (is_byte_true c c)) in E.
Qed.

Lemma CountByte_0 s c : CountByte s c = 0%nat <-> ~ In c s.
Proof.
  unfold CountByte. rewrite <- ContainsByte_notIn. unfold ContainsByte.
  induction s as [|d s IH]; simpl; [done|]. destruct (is_byte c d); simpl; [done|apply IH].
Qed.

Section Validation.
Context `{UnicodeTables}.

Lemma parseAuthority_no_user authority host :
  parseAuthority authority = Some (None, host) ->
  ~ In "@" authority /\ ~ In "[" authority /\ unescape authority encodeHost = Some host.
Proof.
  unfold parseAuthority. intros Hp.
  destruct (from_last "@" authority) as [t|] eqn:Eat.
  { by destruct (parseHost (drop 1 t)). }
  unfold parseHost in Hp.
  apply from_last_None in Eat. destruct (ContainsByte authority "[") eqn:Eb; [done|].
  apply ContainsByte_notIn in Eb. split_and!; [done..|].
  destruct (from_last ":" authority); simpl in Hp; [destruct (validOptionalPort _); [|done]|];
    simpl in Hp; destruct (unescape authority encodeHost); by simplify_eq/=.
Qed.

Lemma splitHostPort_plain host :
  ~ In ":" host -> ~ In "[" host -> splitHostPort host = (host, []).
Proof.
  intros H1 H2. unfold splitHostPort. rewrite (proj2 (from_last_None _ _) H1).
  destruct (HasPrefix host (lit "[")) eqn:E; [|done].
  apply HasPrefix_app in E as [t ->]. exfalso. apply H2. by left.
Qed.

(** The parts of an accepted endpoint. *)
Lemma ValidateSABRURL_parts raw u :
  ValidateSABRURL raw = Ok u ->
  exists scheme authority tail,
    endpoint_parts raw scheme authority tail /\
    map lower_byte scheme = lit "https" /\ ~ In "@" authority /\
    unescape authority encodeHost = Some (url_Host u) /\ ~ In ":" (url_Host u) /\ url_Host u <> [] /\
    trusted_host (ToLower (TrimSuffix (url_Host u) (lit "."))).
Proof.
  unfold ValidateSABRURL, url_Parse. intros Hv.
  destruct (cut_at (is_byte "#") raw) as [main frag] eqn:Ef.
  destruct (cut_at_spec _ _ _ _ Ef) as (-> & Hmain & Hfrag).
  destruct (url_parse main) as [pu|] eqn:Ep; [|done]. cbn [mbind option_bind] in Hv.
  set (parsed := pu <| url_Fragment := _ |>) in *.
  destruct (_ || bool_decide (url_Host parsed = [])) eqn:G1; [done|].
  destruct (_ || negb (bool_decide (url_Fragment parsed = []))) eqn:G2; [done|].
  cbv zeta in Hv. destruct (Contains _ _ || _ || _); [done|]. destruct (HasPrefix _ _ || _); [done|].
  destruct (splitHostPort (url_Host parsed)) as [hostname port] eqn:Eh.
  destruct (negb (bool_decide (port = []))) eqn:G5; [done|].
  destruct (HasSuffix _ _ || (0 <? _)%nat) eqn:G6; [done|].
  destruct (negb _ && negb _) eqn:G7; [done|]. injection Hv as <-. reflect_bools.
  change (url_Host parsed) with (url_Host pu) in *. change (url_Scheme parsed) with (url_Scheme pu) in *.
  assert (url_User pu = None) as Huser by (destruct (url_User pu) eqn:E; [exfalso; subst parsed; naive_solver|done]).
  destruct (url_parse_authority main pu Ep) as (scheme & authority & tail & Hparts & Hsch & Hpa);
    [done|intros Hs0; rewrite Hs0 in *; done|done|].
  rewrite Huser in Hpa. apply parseAuthority_no_user in Hpa as (Hat & Hbr & Hun).
  assert (~ In ":" (url_Host pu)) as Hcol by (apply CountByte_0; lia).
  assert (~ In "[" (url_Host pu)) as Hbr'
    by (intros Hin; apply Hbr; by apply (unescape_host_In _ _ _ Hun)).
  rewrite splitHostPort_plain in Eh by done. injection Eh as <- <-.
  exists scheme, authority, (tail ++ default [] frag). split_and!; [|congruence|done..|].
  - destruct Hparts as [-> ???]. split; [by rewrite <- !app_assoc|done..|].
    destruct tail; [|done]. destruct frag as [[|c f]|]; [done| |done]. simpl.
    by rewrite ends_authority_cases, Hfrag, orb_true_r.
  - apply andb_false_iff in G7 as [G7|G7]; reflect_bools; [by left|right]. by apply HasSuffix_app.
Qed.

Lemma split_scheme_parts scheme rest :
  ~ In ":" scheme -> split_scheme (scheme ++ lit "://" ++ rest) = Some (scheme, rest).
Proof.
  induction scheme as [|c scheme IH]; intros Hn; [done|].
  assert (c <> ":") as Hc by (intros ->; apply Hn; by left).
  cbn [split_scheme app]. destruct (HasPrefix _ (lit "://")) eqn:E.
  { apply HasPrefix_app in E as [t E]. by injection E as -> _. }
  rewrite IH by (intros ?; apply Hn; by right). done.
Qed.

Lemma TrimRightByte_nil (t : bytes) c : TrimRightByte t c = [] -> Forall (fun d => d = c) t.
Proof.
  induction t as [|d t IH]; simpl; intros Ht; [done|].
  destruct (TrimRightByte t c); [|done]. destruct (is_byte c d) eqn:E; [|done].
  apply is_byte_true in E as ->. constructor; auto.
Qed.

Lemma isASCII_app (l1 l2 : bytes) : isASCII (l1 ++ l2) = isASCII l1 && isASCII l2.
Proof. apply forallb_app. Qed.

Lemma isASCII_incl (l1 l2 : bytes) : (forall c, In c l1 -> In c l2) -> isASCII l2 = true -> isASCII l1 = true.
Proof. unfold isASCII. rewrite !forallb_forall. auto. Qed.

(** The host part of a loop key. *)
Definition canonical_host (authority : bytes) : bytes := ToLower (TrimRightByte authority ".").

Lemma canonical_host_ASCII authority :
  isASCII authority = true -> canonical_host authority = map lower_byte (TrimRightByte authority ".").
Proof.
  intros Ha. unfold canonical_host, ToLower.
  by rewrite (isASCII_incl _ authority (TrimRightByte_incl _ _)).
Qed.

(** A host of dots is not trusted, so the canonical host is not empty. *)
Lemma trusted_not_dots host : ~ (Forall (fun d => d = ".") host /\ trusted_host (ToLower (TrimSuffix host (lit ".")))).
Proof.
  intros [Hd Ht].
  assert (forall l : bytes, Forall (fun d => d = ".") l -> ToLower l = l) as Hlow.
  { intros l Hl. unfold ToLower. assert (isASCII l = true) as ->.
    - unfold isASCII. rewrite forallb_forall. rewrite Forall_forall in Hl.
      intros x Hx. rewrite (Hl x); [done|]. by apply list_elem_of_In.
    - induction Hl as [|? l -> _ IH]; [done|]. simpl. by rewrite IH. }
  assert (Forall (fun d => d = ".") (TrimSuffix host (lit "."))) as Hd'
    by (unfold TrimSuffix; case_match; [by apply Forall_take|done]).
  rewrite Hlow in Ht by done. destruct Ht as [Ht|[sub Ht]]; rewrite Ht in Hd'.
  - by inversion Hd'.
  - rewrite Forall_app in Hd'. destruct Hd' as [_ Hd']. inversion Hd' as [|? ? _ Hd'']. by inversion Hd''.
Qed.

(** The loop key of an accepted endpoint without an (empty) fragment mark. *)
Lemma sabrRedirectLoopKey_parts raw u scheme authority tail :
  ValidateSABRURL raw = Ok u -> isASCII raw = true -> ~ In "#" raw ->
  endpoint_parts raw scheme authority tail ->
  sabrRedirectLoopKey raw = Ok (lit "https://" ++ canonical_host authority ++ tail).
Proof.
  intros Hv Hascii Hfrag Hparts. pose proof (ValidateSABRURL_parts _ _ Hv) as
    (scheme' & authority' & tail' & Hparts' & Hsch & Hat & Hun & Hcol & Hne & Htr).
  assert (scheme' = scheme /\ authority' = authority /\ tail' = tail) as (-> & -> & ->).
  { destruct Hparts as [Hr1 Hs1 Ha1 Ht1], Hparts' as [Hr2 Hs2 Ha2 Ht2].
    pose proof (split_scheme_parts scheme (authority ++ tail) Hs1) as E1.
    rewrite <- Hr1, Hr2, (split_scheme_parts scheme' (authority' ++ tail') Hs2) in E1.
    injection E1 as -> E1. pose proof (cut_at_unique _ _ _ Ha1 Ht1) as C1.
    rewrite <- E1, (cut_at_unique _ _ _ Ha2 Ht2) in C1.
    injection C1 as -> _. by apply app_inv_head in E1 as ->. }
  unfold sabrRedirectLoopKey. rewrite Hv. destruct Hparts as [-> Hs Ha Ht].
  rewrite split_scheme_parts by done. rewrite !isASCII_app in Hascii. reflect_bools.
  assert (cut_at (fun c => is_byte "/" c || is_byte "?" c) (authority ++ tail)
          = (authority, match tail with [] => None | _ => Some tail end)) as ->.
  { apply cut_at_unique.
    - eapply Forall_impl; [exact Ha|]. intros c Hc. cbv beta in Hc |- *. rewrite ends_authority_cases in Hc. by apply orb_false_iff in Hc as [? _].
    - destruct tail as [|c tail]; [done|]. rewrite ends_authority_cases in Ht.
      apply orb_true_iff in Ht as [?|Hc]; [done|]. apply is_byte_true in Hc as <-.
      exfalso. apply Hfrag. rewrite !in_app_iff. do 3 right. by left. }
  fold (canonical_host authority). rewrite bool_decide_false.
  - unfold ToLower. match goal with E : isASCII scheme = true |- _ => rewrite E end. rewrite Hsch.
    by destruct tail.
  - rewrite canonical_host_ASCII by done. intros Hnil%map_eq_nil%TrimRightByte_nil.
    apply (trusted_not_dots (url_Host u)). split; [|done].
    rewrite (unescape_host_plain _ _ Hun); [done|]. intros Hin. rewrite Forall_forall in Hnil.
    specialize (Hnil "%" ltac:(by apply list_elem_of_In)). done.
Qed.

(** What a run of accepted redirects leaves behind. *)
Lemma follow_redirects_keys tracker urls tracker' :
  follow_redirects tracker urls = Ok tracker' ->
  exists keys, Forall2 (fun url key => sabrRedirectLoopKey url = Ok key) urls keys /\
    NoDup keys /\ (forall k, k ∈ keys -> k ∉ trk_seen tracker) /\
    trk_count tracker' = (trk_count tracker + zlen keys)%Z /\
    (urls = [] \/ trk_count tracker' <= MaxDirectiveRedirects)%Z.
Proof.
  revert tracker. induction urls as [|url urls IH]; intros tracker Hf; simpl in Hf.
  { simplify_eq. exists []. split_and!; try constructor; try set_solver. unfold zlen. simpl. lia. }
  unfold redirectTracker_validate in Hf. destruct (sabrRedirectLoopKey url) as [key|] eqn:Ek; [|done].
  cbn in Hf. case_bool_decide as Hin; [done|]. destruct (Z.geb_spec (trk_count tracker) MaxDirectiveRedirects); [done|].
  destruct (IH _ Hf) as (keys & Hk & Hnd & Hdis & Hc & Hb).
  unfold redirectTracker_record in Hdis, Hc. rewrite bool_decide_false, Ek in Hdis, Hc by (by intros ->).
  simpl in *. exists (key :: keys). unfold zlen in *. simpl length. split_and!.
  - by constructor.
  - constructor; [|done]. intros Hink. apply (Hdis key Hink). clear Hb; set_solver.
  - intros k [->|Hk']%elem_of_cons; [done|]. specialize (Hdis k Hk'). clear Hb; set_solver.
  - lia.
  - right. destruct Hb as [->|Hb]; [|done]. inversion Hk; subst. simpl in *. lia.
Qed.

Lemma TrimSuffix_incl (s suffix : bytes) c : In c (TrimSuffix s suffix) -> In c s.
Proof.
  unfold TrimSuffix. destruct (HasSuffix s suffix); [|done]. intros Hc.
  rewrite <- (take_drop (length s - length suffix) s). apply in_app_iff. by left.
Qed.

(** No fragment, and a path that cannot be read in two ways. *)
Lemma ValidateSABRURL_shape raw u :
  ValidateSABRURL raw = Ok u ->
  (~ In "#" raw \/ exists main, raw = main ++ lit "#" /\ ~ In "#" main) /\
  ~ In "\" (url_Path u) /\ ~ exists rest, url_Path u = lit "//" ++ rest.
Proof.
  unfold ValidateSABRURL, url_Parse. intros Hv. destruct (cut_at (is_byte "#") raw) as [main frag] eqn:Ef.
  destruct (cut_at_spec _ _ _ _ Ef) as (-> & Hmain & Hfrag).
  assert (~ In "#" main) as Hm.
  { intros Hin. rewrite Forall_forall in Hmain. specialize (Hmain "#" ltac:(by apply list_elem_of_In)). done. }
  destruct (url_parse main) as [pu|]; [|done]. cbn [mbind option_bind] in Hv. destruct (_ || _); [done|].
  destruct (_ || _) eqn:G2; [done|]. cbv zeta in Hv. destruct (Contains _ _ || _ || _); [done|].
  destruct (HasPrefix _ _ || _) eqn:G4; [done|]. destruct (splitHostPort _) as [hostname port].
  destruct (negb (bool_decide (port = []))); [done|]. destruct (HasSuffix _ _ || (0 <? _)%nat); [done|].
  destruct (negb _ && negb _); [done|]. injection Hv as <-. reflect_bools.
  cbn [url_Fragment url_Path] in *. split_and!.
  - destruct frag as [[|c f]|]; [by left; rewrite app_nil_r| |by left; rewrite app_nil_r]. apply is_byte_true in Hfrag as <-. right.
    exists main. split; [|done]. simpl in *. by destruct f.
  - by apply ContainsByte_notIn.
  - intros [rest E]. rewrite (proj2 (HasPrefix_app _ _)) in *; [done|by exists rest].
Qed.

(** ** Claims *)


(** The mark of an empty fragment is accepted, and the request number is then
    written behind it, where it is not part of the request. *)
Example empty_fragment_takes_number :
  requestURL (lit "https://r1.googlevideo.com/videoplayback#") 7 = Ok (lit "https://r1.googlevideo.com/videoplayback#?rn=7").
Proof. by vm_compute. Qed.

(** Loop keys identify endpoints up to the case of scheme and host and
    trailing dots of the host, and nothing else: two accepted ASCII endpoints
    have the same key exactly when their canonical hosts agree and their paths
    and queries are the same bytes. *)
Theorem loop_key_identity raw1 u1 raw2 u2 scheme1 authority1 tail1 scheme2 authority2 tail2 :
  ValidateSABRURL raw1 = Ok u1 -> isASCII raw1 = true -> ~ In "#" raw1 ->
  ValidateSABRURL raw2 = Ok u2 -> isASCII raw2 = true -> ~ In "#" raw2 ->
  endpoint_parts raw1 scheme1 authority1 tail1 -> endpoint_parts raw2 scheme2 authority2 tail2 ->
  sabrRedirectLoopKey raw1 = sabrRedirectLoopKey raw2 <->
  canonical_host authority1 = canonical_host authority2 /\ tail1 = tail2.
Proof.
  intros Hv1 Ha1 Hf1 Hv2 Ha2 Hf2 Hp1 Hp2.
  rewrite (sabrRedirectLoopKey_parts _ _ _ _ _ Hv1 Ha1 Hf1 Hp1),
    (sabrRedirectLoopKey_parts _ _ _ _ _ Hv2 Ha2 Hf2 Hp2).
  split; [|by intros [-> ->]]. intros E. injection E as E.
  assert (forall raw scheme authority tail, isASCII raw = true -> endpoint_parts raw scheme authority tail ->
    cut_at ends_authority (canonical_host authority ++ tail) =
      (canonical_host authority, match tail with [] => None | _ => Some tail end)) as Hcut.
  { intros raw scheme authority tail Ha [-> _ Hau Ht]. rewrite !isASCII_app in Ha. reflect_bools.
    apply cut_at_unique; [|done]. rewrite canonical_host_ASCII by done. rewrite Forall_forall in Hau |- *.
    intros c. rewrite list_elem_of_In, in_map_iff. intros (d & <- & Hd%TrimRightByte_incl).
    assert (forall b, ends_authority b = false -> ends_authority (lower_byte b) = false) as Hlow by (by intros []).
    apply Hlow, Hau. by apply list_elem_of_In. }
  pose proof (Hcut _ _ _ _ Ha1 Hp1) as C1. rewrite E, (Hcut _ _ _ _ Ha2 Hp2) in C1.
  injection C1 as Hh Hq. split; [congruence|]. by destruct tail1, tail2; simplify_eq.
Qed.

(** C40. Redirect chains end: a run of accepted redirects from an initial
    endpoint has at most [MaxDirectiveRedirects] steps and never returns to an
    endpoint it has visited, the initial one included. *)
Theorem redirect_chain_bounded initialURL urls tracker :
  follow_redirects (newRedirectTracker initialURL) urls = Ok tracker ->
  zlen urls <= MaxDirectiveRedirects /\
  exists keys, Forall2 (fun url key => sabrRedirectLoopKey url = Ok key) urls keys /\ NoDup keys /\
    forall key, sabrRedirectLoopKey initialURL = Ok key -> key ∉ keys.
Proof.
  intros Hf. destruct (follow_redirects_keys _ _ _ Hf) as (keys & Hk & Hnd & Hdis & Hc & Hb).
  pose proof (Forall2_length _ _ _ Hk) as Hlen. split.
  - destruct Hb as [->|Hb]; [done|]. rewrite Hc in Hb. unfold newRedirectTracker in Hb.
    unfold zlen in *. repeat case_match; simpl in *; lia.
  - exists keys. split_and!; [done..|]. intros key Hkey Hin. apply (Hdis key Hin).
    unfold newRedirectTracker. rewrite bool_decide_false, Hkey by (by intros ->). set_solver.
Qed.

(** The host check trusts a lower-cased host, and the Unicode tables map
    U+0130 (UTF-8 c4 b0) to the ASCII letter i: with any such tables the
    look-alike host googlev<U+0130>deo.com is accepted although no ASCII
    lower-casing makes it googlevideo.com. *)
Theorem lookalike_host_accepted :
  let host := lit "googlev" ++ [xc4; xb0] ++ lit "deo.com" in
  unicode_lower host = lit "googlevideo.com" ->
  ~ trusted_host (map lower_byte host) /\
  exists u, ValidateSABRURL (lit "https://" ++ host ++ lit "/videoplayback") = Ok u /\ url_Host u = host.
Proof.
  intros host Hlow. split.
  - vm_compute. intros [?|[sub Hs]]; [done|]. apply (f_equal length) in Hs as Hl.
    rewrite length_app in Hl. simpl in Hl. by destruct sub as [|? [|? ?]]; simplify_eq/=; lia.
  - set (u0 := mkURL (lit "https") [] None host (lit "/videoplayback") [] []). exists u0. split; [|done].
    unfold ValidateSABRURL.
    assert (url_Parse (lit "https://" ++ host ++ lit "/videoplayback") = Some u0) as -> by (by vm_compute).
    assert (ToLower (url_EscapedPath u0) = lit "/videoplayback") as -> by (by vm_compute).
    assert (splitHostPort (url_Host u0) = (host, [])) as -> by (by vm_compute).
    assert (TrimSuffix host (lit ".") = host) as -> by (by vm_compute).
    assert (ToLower host = lit "googlevideo.com") as -> by exact Hlow.
    by vm_compute.
Qed.

End Validation.

(** ** Witnesses *)

Section Witnesses.

(** Tables that know the one mapping the witnesses need. *)
Definition dotted_i_tables : UnicodeTables := {|
  unicode_lower s := if bool_decide (s = lit "googlev" ++ [xc4; xb0] ++ lit "deo.com")
                     then lit "googlevideo.com" else s |}.
#[local] Existing Instance dotted_i_tables.

Definition sample_url : bytes := lit "HTTPS://R1.GoogleVideo.com./videoplayback?a=b".
Definition sample_url2 : bytes := lit "https://r2.googlevideo.com/videoplayback".


Lemma loop_key_identity_witness :
  sabrRedirectLoopKey sample_url = sabrRedirectLoopKey (lit "https://r1.googlevideo.com/videoplayback?a=b") <->
  canonical_host (lit "R1.GoogleVideo.com.") = canonical_host (lit "r1.googlevideo.com") /\
  lit "/videoplayback?a=b" = lit "/videoplayback?a=b".
Proof.
  eapply (loop_key_identity sample_url _ _ _ (lit "HTTPS") _ _ (lit "https"));
    [vm_compute; reflexivity|reflexivity|by vm_compute; intuition|
     vm_compute; reflexivity|reflexivity|by vm_compute; intuition| |];
    (split; [reflexivity|by vm_compute; intuition|by repeat constructor|reflexivity]).
Defined.

Lemma redirect_chain_bounded_witness :
  zlen [sample_url2] <= MaxDirectiveRedirects /\
  exists keys, Forall2 (fun url key => sabrRedirectLoopKey url = Ok key) [sample_url2] keys /\ NoDup keys /\
    forall key, sabrRedirectLoopKey sample_url = Ok key -> key ∉ keys.
Proof.
  eapply (redirect_chain_bounded sample_url [sample_url2]). vm_compute. reflexivity.
Defined.

Lemma lookalike_host_accepted_witness :
  exists u, ValidateSABRURL (lit "https://googlev" ++ [xc4; xb0] ++ lit "deo.com/videoplayback") = Ok u.
Proof.
  destruct (@lookalike_host_accepted dotted_i_tables ltac:(vm_compute; reflexivity)) as [_ [u [Hu _]]].
  exists u. exact Hu.
Defined.

End Witnesses.
