(* ===== verification/Directives.v ===== *)
(** * SABR directives

    [directives.go]: the five control messages of a SABR response, decoded
    strictly (wrong wire types, duplicates, missing or oversized values are
    refused) from the payload of their part. *)
From S2P Require Import Prelude Errors GoStrings Url Wire.

(** ** Field numbers and enumerations *)

Definition fSabrRedirectURL : Z := 1.
Definition fSabrContextType : Z := 1.
Definition fSabrContextScope : Z := 2.
Definition fSabrContextValue : Z := 3.
Definition fSabrContextSendByDefault : Z := 4.
Definition fSabrContextWritePolicy : Z := 5.
Definition fSabrSendingPolicyStart : Z := 1.
Definition fSabrSendingPolicyStop : Z := 2.
Definition fSabrSendingPolicyDiscard : Z := 3.
Definition fStreamerSabrContextType : Z := 1.
Definition fStreamerSabrContextValue : Z := 2.
Definition fSabrErrorType : Z := 1.
Definition fSabrErrorCode : Z := 2.
Definition fReloadPlaybackContextParams : Z := 1.
Definition fReloadPlaybackParamsToken : Z := 1.

Definition SabrContextScopeUnknown : Z := 0.
Definition SabrContextScopeContentAds : Z := 4.
Definition SabrContextWriteUnspecified : Z := 0.
Definition SabrContextWriteOverwrite : Z := 1.
Definition SabrContextWriteKeepExisting : Z := 2.

(** ** The directives *)

Record sabrContextUpdateDirective := mkContextUpdate {
  cu_Type : Z;  (* int32 *)
  cu_Scope : Z;  (* int32 *)
  cu_Value : bytes;
  cu_SendByDefault : bool;
  cu_WritePolicy : Z  (* int32 *)
}.

Record sabrContextSendingPolicyDirective := mkSendingPolicy {
  sp_Start : list Z;
  sp_Stop : list Z;
  sp_Discard : list Z
}.

Record sabrErrorDirective := mkSabrError { se_Type : bytes; se_Code : Z }.

#[export] Instance eta_contextUpdate : Eta sabrContextUpdateDirective :=
  fun d => mkContextUpdate (cu_Type d) (cu_Scope d) (cu_Value d) (cu_SendByDefault d) (cu_WritePolicy d).
#[export] Instance eta_sendingPolicy : Eta sabrContextSendingPolicyDirective :=
  fun d => mkSendingPolicy (sp_Start d) (sp_Stop d) (sp_Discard d).
#[export] Instance eta_sabrError : Eta sabrErrorDirective :=
  fun d => mkSabrError (se_Type d) (se_Code d).

(** ** Operations *)

Definition protoInt32FromVarint (value : Z) : res Z := Ok (i32 value).

(** [bumpCount(dst, n, max)]: the new count. *)
Definition bumpCount (dst n max : Z) : res Z :=
  if (n <? 0) || (max <? 0) then Err ErrInvalidContextState
  else if n >? max - dst then Err ErrInvalidContextState
  else Ok (dst + n).

(** A strict scalar field: right wire type, not seen before, no read error. *)
Definition strict_field {A B R} (wireType want : Z) (seen : bool)
    (read : fieldReader -> A * fieldReader) (r : fieldReader)
    (k : A -> fieldReader -> flow R (res B)) : flow R (res B) :=
  if negb (wireType =? want) then Return (Err ErrInvalidProtobuf)
  else if seen then Return (Err ErrInvalidProtobuf)
  else
    let '(raw, r) := read r in
    match fr_err r with
    | Some e => Return (Err e)
    | None => k raw r
    end.

Section Redirect.
Context `{UnicodeTables}.

(** Locals: [directive.URL] and [seenURL] as one option. *)
Definition parseSabrRedirect_body (url : option bytes) (num wt : Z) (r : fieldReader)
  : flow (option bytes) (res bytes) :=
  if num =? fSabrRedirectURL then
    strict_field wt wireBytes (bool_decide (url <> None)) fieldReader_bytes r (fun raw r =>
      if zlen raw =? 0 then Return (Err ErrUnsafeRedirect)
      else if zlen raw >? MaxRedirectURLBytes then Return (Err ErrUnsafeRedirect)
      else Next (Some raw) r)
  else Next url (fieldReader_skip num wt r).

Definition parseSabrRedirect (payload : bytes) : res bytes :=
  scan_message parseSabrRedirect_body None (fun url =>
    match url with
    | None => Err ErrUnsafeRedirect
    | Some url =>
        match ValidateSABRURL url with
        | Err _ => Err ErrUnsafeRedirect
        | Ok _ => Ok url
        end
    end) payload.

End Redirect.

(** The locals of [parseSabrContextUpdate]: a field is [None] until seen. *)
Record contextUpdateLocals := mkCUL {
  cul_Type : option Z;
  cul_Scope : option Z;
  cul_Value : option bytes;
  cul_SendByDefault : option bool;
  cul_WritePolicy : option Z
}.

#[export] Instance eta_cul : Eta contextUpdateLocals :=
  fun d => mkCUL (cul_Type d) (cul_Scope d) (cul_Value d) (cul_SendByDefault d) (cul_WritePolicy d).

Definition seen {A} (o : option A) : bool := match o with Some _ => true | None => false end.

Definition parseSabrContextUpdate_body (d : contextUpdateLocals) (num wt : Z) (r : fieldReader)
  : flow contextUpdateLocals (res sabrContextUpdateDirective) :=
  if num =? fSabrContextType then
    strict_field wt wireVarint (seen (cul_Type d)) fieldReader_varint r (fun raw r =>
      match protoInt32FromVarint raw with
      | Err e => Return (Err e)
      | Ok value => Next (d <| cul_Type := Some value |>) r
      end)
  else if num =? fSabrContextScope then
    strict_field wt wireVarint (seen (cul_Scope d)) fieldReader_varint r (fun raw r =>
      match protoInt32FromVarint raw with
      | Err e => Return (Err e)
      | Ok value =>
          if (value <? SabrContextScopeUnknown) || (value >? SabrContextScopeContentAds)
          then Return (Err ErrInvalidContextState)
          else Next (d <| cul_Scope := Some value |>) r
      end)
  else if num =? fSabrContextValue then
    strict_field wt wireBytes (seen (cul_Value d)) fieldReader_bytes r (fun raw r =>
      if zlen raw =? 0 then Return (Err ErrInvalidContextState)
      else if zlen raw >? MaxSabrContextValueBytes then Return (Err ErrInvalidContextState)
      else Next (d <| cul_Value := Some raw |>) r)
  else if num =? fSabrContextSendByDefault then
    if negb (wt =? wireVarint) then Return (Err ErrInvalidProtobuf)
    else if seen (cul_SendByDefault d) then Return (Err ErrInvalidProtobuf)
    else
      let '(v, r) := fieldReader_varint r in
      Next (d <| cul_SendByDefault := Some (negb (v =? 0)) |>) r
  else if num =? fSabrContextWritePolicy then
    strict_field wt wireVarint (seen (cul_WritePolicy d)) fieldReader_varint r (fun raw r =>
      match protoInt32FromVarint raw with
      | Err e => Return (Err e)
      | Ok value =>
          if (value <? SabrContextWriteUnspecified) || (value >? SabrContextWriteKeepExisting)
          then Return (Err ErrInvalidContextState)
          else Next (d <| cul_WritePolicy := Some value |>) r
      end)
  else Next d (fieldReader_skip num wt r).

Definition parseSabrContextUpdate_finish (d : contextUpdateLocals) : res sabrContextUpdateDirective :=
  let Type_ := default 0 (cul_Type d) in
  if negb (seen (cul_Type d)) || (Type_ <=? 0) then Err ErrInvalidContextState
  else match cul_Value d with
       | None => Err ErrInvalidContextState
       | Some value =>
           Ok (mkContextUpdate Type_ (default 0 (cul_Scope d)) value
                 (default false (cul_SendByDefault d)) (default 0 (cul_WritePolicy d)))
       end.

Definition parseSabrContextUpdate (payload : bytes) : res sabrContextUpdateDirective :=
  scan_message parseSabrContextUpdate_body (mkCUL None None None None None)
    parseSabrContextUpdate_finish payload.

(** [for offset < len(data)]: a varint takes at least one byte, so one unit of
    fuel per byte suffices. The results carry [ops], the response-wide count of
    policy operations. *)
Fixpoint decodePackedProtoInt32_loop (fuel : nat) (data : bytes) (ops : Z) (values : list Z)
  : res (list Z * Z) :=
  match data with
  | [] => Ok (values, ops)
  | _ =>
      match fuel with
      | O => Err ErrInvalidProtobuf
      | S fuel' =>
          ops ← bumpCount ops 1 MaxSabrContextPolicyOps;
          '(raw, n) ← readProtobufVarint data;
          value ← protoInt32FromVarint raw;
          decodePackedProtoInt32_loop fuel' (drop n data) ops (values ++ [value])
      end
  end.
Definition decodePackedProtoInt32 (data : bytes) (ops : Z) : res (list Z * Z) :=
  decodePackedProtoInt32_loop (length data) data ops [].

Definition readRepeatedProtoInt32 (r : fieldReader) (wireType ops : Z) : res (list Z * Z) * fieldReader :=
  if wireType =? wireVarint then
    match bumpCount ops 1 MaxSabrContextPolicyOps with
    | Err e => (Err e, r)
    | Ok ops =>
        let '(raw, r) := fieldReader_varint r in
        match fr_err r with
        | Some e => (Err e, r)
        | None => (value ← protoInt32FromVarint raw; Ok ([value], ops), r)
        end
    end
  else if wireType =? wireBytes then
    let '(packed, r) := fieldReader_bytes r in
    match fr_err r with
    | Some e => (Err e, r)
    | None => (decodePackedProtoInt32 packed ops, r)
    end
  else (Err ErrInvalidProtobuf, r).

Definition sending_policy_field (set : list Z -> sabrContextSendingPolicyDirective) (ops wt : Z) (r : fieldReader)
  : flow (sabrContextSendingPolicyDirective * Z) (res (sabrContextSendingPolicyDirective * Z)) :=
  let '(values, r) := readRepeatedProtoInt32 r wt ops in
  match values with
  | Err e => Return (Err e)
  | Ok (values, ops) => Next (set values, ops) r
  end.

Definition parseSabrContextSendingPolicy_body (acc : sabrContextSendingPolicyDirective * Z)
    (num wt : Z) (r : fieldReader)
  : flow (sabrContextSendingPolicyDirective * Z) (res (sabrContextSendingPolicyDirective * Z)) :=
  let '(d, ops) := acc in
  if num =? fSabrSendingPolicyStart then
    sending_policy_field (fun values => d <| sp_Start := sp_Start d ++ values |>) ops wt r
  else if num =? fSabrSendingPolicyStop then
    sending_policy_field (fun values => d <| sp_Stop := sp_Stop d ++ values |>) ops wt r
  else if num =? fSabrSendingPolicyDiscard then
    sending_policy_field (fun values => d <| sp_Discard := sp_Discard d ++ values |>) ops wt r
  else Next acc (fieldReader_skip num wt r).

(** [*ops] is an argument and part of the result. After an error the caller
    discards the response, and the count with it. *)
Definition parseSabrContextSendingPolicy (payload : bytes) (ops : Z)
  : res (sabrContextSendingPolicyDirective * Z) :=
  scan_message parseSabrContextSendingPolicy_body (mkSendingPolicy [] [] [], ops) (fun '(d, ops) =>
    if existsb (fun value => value <=? 0) (sp_Start d ++ sp_Stop d ++ sp_Discard d)
    then Err ErrInvalidContextState else Ok (d, ops)) payload.

(** Locals: [None] until seen. *)
Definition parseSabrError_body (acc : option bytes * option Z) (num wt : Z) (r : fieldReader)
  : flow (option bytes * option Z) (res sabrErrorDirective) :=
  let '(typ, code) := acc in
  if num =? fSabrErrorType then
    strict_field wt wireBytes (seen typ) fieldReader_bytes r (fun raw r =>
      if zlen raw =? 0 then Return (Err ErrInvalidProtobuf)
      else if zlen raw >? MaxSabrErrorTypeBytes then Return (Err ErrInvalidProtobuf)
      else Next (Some raw, code) r)
  else if num =? fSabrErrorCode then
    strict_field wt wireVarint (seen code) fieldReader_varint r (fun raw r =>
      match protoInt32FromVarint raw with
      | Err e => Return (Err e)
      | Ok value => Next (typ, Some value) r
      end)
  else Next acc (fieldReader_skip num wt r).

Definition parseSabrError (payload : bytes) : res sabrErrorDirective :=
  scan_message parseSabrError_body (None, None) (fun '(typ, code) =>
    match typ, code with
    | Some typ, Some code => Ok (mkSabrError typ code)
    | _, _ => Err ErrInvalidProtobuf
    end) payload.

Definition parseReloadPlaybackParams_body (token : option bytes) (num wt : Z) (r : fieldReader)
  : flow (option bytes) (res bytes) :=
  if num =? fReloadPlaybackParamsToken then
    strict_field wt wireBytes (seen token) fieldReader_bytes r (fun raw r =>
      if zlen raw =? 0 then Return (Err ErrInvalidProtobuf)
      else if zlen raw >? MaxReloadTokenBytes then Return (Err ErrInvalidProtobuf)
      else if negb (utf8_Valid raw) then Return (Err ErrInvalidProtobuf)
      else Next (Some raw) r)
  else Next token (fieldReader_skip num wt r).

Definition parseReloadPlaybackParams (payload : bytes) : res bytes :=
  scan_message parseReloadPlaybackParams_body None (fun token =>
    match token with
    | Some token => if zlen token =? 0 then Err ErrInvalidProtobuf else Ok token
    | None => Err ErrInvalidProtobuf
    end) payload.

Definition parseReloadPlayerResponse_body (token : option bytes) (num wt : Z) (r : fieldReader)
  : flow (option bytes) (res bytes) :=
  if num =? fReloadPlaybackContextParams then
    strict_field wt wireBytes (seen token) fieldReader_bytes r (fun raw r =>
      match parseReloadPlaybackParams raw with
      | Err e => Return (Err e)
      | Ok token => Next (Some token) r
      end)
  else Next token (fieldReader_skip num wt r).

Definition parseReloadPlayerResponse (payload : bytes) : res bytes :=
  scan_message parseReloadPlayerResponse_body None (fun token =>
    match token with
    | Some token => if zlen token =? 0 then Err ErrInvalidProtobuf else Ok token
    | None => Err ErrInvalidProtobuf
    end) payload.

(** ** The decoders on an abstract message *)

Definition ContextUpdate_absorb (d : contextUpdateLocals) (f : pbfield)
  : contextUpdateLocals + res sabrContextUpdateDirective :=
  match f with
  | PbVarint num v =>
      if num =? fSabrContextType then
        if seen (cul_Type d) then inr (Err ErrInvalidProtobuf) else inl (d <| cul_Type := Some (i32 v) |>)
      else if num =? fSabrContextScope then
        if seen (cul_Scope d) then inr (Err ErrInvalidProtobuf)
        else if (i32 v <? SabrContextScopeUnknown) || (i32 v >? SabrContextScopeContentAds)
        then inr (Err ErrInvalidContextState) else inl (d <| cul_Scope := Some (i32 v) |>)
      else if num =? fSabrContextValue then inr (Err ErrInvalidProtobuf)
      else if num =? fSabrContextSendByDefault then
        if seen (cul_SendByDefault d) then inr (Err ErrInvalidProtobuf)
        else inl (d <| cul_SendByDefault := Some (negb (v =? 0)) |>)
      else if num =? fSabrContextWritePolicy then
        if seen (cul_WritePolicy d) then inr (Err ErrInvalidProtobuf)
        else if (i32 v <? SabrContextWriteUnspecified) || (i32 v >? SabrContextWriteKeepExisting)
        then inr (Err ErrInvalidContextState) else inl (d <| cul_WritePolicy := Some (i32 v) |>)
      else inl d
  | PbBytes num bs =>
      if num =? fSabrContextType then inr (Err ErrInvalidProtobuf)
      else if num =? fSabrContextScope then inr (Err ErrInvalidProtobuf)
      else if num =? fSabrContextValue then
        if seen (cul_Value d) then inr (Err ErrInvalidProtobuf)
        else if zlen bs =? 0 then inr (Err ErrInvalidContextState)
        else if zlen bs >? MaxSabrContextValueBytes then inr (Err ErrInvalidContextState)
        else inl (d <| cul_Value := Some bs |>)
      else if num =? fSabrContextSendByDefault then inr (Err ErrInvalidProtobuf)
      else if num =? fSabrContextWritePolicy then inr (Err ErrInvalidProtobuf)
      else inl d
  end.

(** A directive the decoder can return. *)
Definition ContextUpdate_wf (d : sabrContextUpdateDirective) : Prop :=
  0 < cu_Type d <= MaxInt32 /\ 0 <= cu_Scope d <= SabrContextScopeContentAds /\
  0 < zlen (cu_Value d) <= MaxSabrContextValueBytes /\
  0 <= cu_WritePolicy d <= SabrContextWriteKeepExisting.

Definition ContextUpdate_fields (d : sabrContextUpdateDirective) : list pbfield :=
  [PbVarint fSabrContextType (cu_Type d); PbVarint fSabrContextScope (cu_Scope d);
   PbBytes fSabrContextValue (cu_Value d);
   PbVarint fSabrContextSendByDefault (Z.b2z (cu_SendByDefault d));
   PbVarint fSabrContextWritePolicy (cu_WritePolicy d)].

(** The values of a packed field, one varint each. *)
Definition pack (values : list Z) : bytes := values ≫= appendU64 [].

Definition policy_fields_packed (d : sabrContextSendingPolicyDirective) : list pbfield :=
  [PbBytes fSabrSendingPolicyStart (pack (sp_Start d)); PbBytes fSabrSendingPolicyStop (pack (sp_Stop d));
   PbBytes fSabrSendingPolicyDiscard (pack (sp_Discard d))].

Definition policy_fields_unpacked (d : sabrContextSendingPolicyDirective) : list pbfield :=
  map (PbVarint fSabrSendingPolicyStart) (sp_Start d) ++ map (PbVarint fSabrSendingPolicyStop) (sp_Stop d) ++
  map (PbVarint fSabrSendingPolicyDiscard) (sp_Discard d).

Definition policy_values (d : sabrContextSendingPolicyDirective) : list Z :=
  sp_Start d ++ sp_Stop d ++ sp_Discard d.

Definition lift_field {A} (o : res (list Z * Z)) (set : list Z -> A) : A * Z + res (A * Z) :=
  match o with Err e => inr (Err e) | Ok (values, ops) => inl (set values, ops) end.

Definition SendingPolicy_absorb (acc : sabrContextSendingPolicyDirective * Z) (f : pbfield)
  : sabrContextSendingPolicyDirective * Z + res (sabrContextSendingPolicyDirective * Z) :=
  let '(d, ops) := acc in
  let values :=
    match f with
    | PbVarint _ v => ops ← bumpCount ops 1 MaxSabrContextPolicyOps; Ok ([i32 v], ops)
    | PbBytes _ bs => decodePackedProtoInt32 bs ops
    end in
  if pb_num f =? fSabrSendingPolicyStart
  then lift_field values (fun values => d <| sp_Start := sp_Start d ++ values |>)
  else if pb_num f =? fSabrSendingPolicyStop
  then lift_field values (fun values => d <| sp_Stop := sp_Stop d ++ values |>)
  else if pb_num f =? fSabrSendingPolicyDiscard
  then lift_field values (fun values => d <| sp_Discard := sp_Discard d ++ values |>)
  else inl acc.

(** ** Lemmas: instances of the decoder interfaces *)

#[export] Instance parseSabrContextUpdate_cursor : CursorBody parseSabrContextUpdate_body.
Proof.
  intros acc num wt r acc' r' H. unfold parseSabrContextUpdate_body, strict_field in H.
  repeat (case_match; simplify_eq); frames; first [apply fieldReader_skip_frame | naive_solver].
Qed.

#[export] Instance parseSabrContextUpdate_absorbs :
  BodyAbsorbs parseSabrContextUpdate_body ContextUpdate_absorb.
Proof.
  intros acc f r rest Hwf He Hr. pose proof (fieldReader_skip_payload r f rest Hwf Hr) as Hskip.
  destruct Hwf as [_ Hf]. unfold parseSabrContextUpdate_body, strict_field, ContextUpdate_absorb, protoInt32FromVarint.
  destruct f as [num v|num v]; cbn [pb_num pb_wire pb_payload] in *.
  - rewrite (fieldReader_varint_payload _ _ _ Hf Hr), Hskip. simpl. rewrite He. repeat (case_match; simplify_eq/=); auto.
  - rewrite (fieldReader_bytes_payload _ _ _ Hf Hr), Hskip. simpl. rewrite He. repeat (case_match; simplify_eq/=); auto.
Qed.

#[export] Instance parseSabrContextSendingPolicy_cursor : CursorBody parseSabrContextSendingPolicy_body.
Proof.
  intros [d ops] num wt r acc' r' H.
  unfold parseSabrContextSendingPolicy_body, sending_policy_field, readRepeatedProtoInt32 in H.
  repeat (case_match; simplify_eq); frames; first [apply fieldReader_skip_frame | naive_solver].
Qed.

#[export] Instance parseSabrContextSendingPolicy_absorbs :
  BodyAbsorbs parseSabrContextSendingPolicy_body SendingPolicy_absorb.
Proof.
  intros [d ops] f r rest Hwf He Hr. pose proof (fieldReader_skip_payload r f rest Hwf Hr) as Hskip.
  destruct Hwf as [_ Hf].
  unfold parseSabrContextSendingPolicy_body, sending_policy_field, readRepeatedProtoInt32,
    SendingPolicy_absorb, lift_field.
  destruct f as [num v|num v]; cbn [pb_num pb_wire pb_payload] in *.
  - rewrite (fieldReader_varint_payload _ _ _ Hf Hr), Hskip. cbn -[bumpCount]. rewrite He.
    destruct (bumpCount ops 1 _); cbn; repeat (case_match; simplify_eq/=); auto.
  - rewrite (fieldReader_bytes_payload _ _ _ Hf Hr), Hskip. cbn -[decodePackedProtoInt32]. rewrite He.
    destruct (decodePackedProtoInt32 v ops) as [[??]|]; repeat (case_match; simplify_eq/=); auto.
Qed.

(** ** Lemmas: packed values *)

Lemma readProtobufVarint_size data v n :
  readProtobufVarint data = Ok (v, n) -> (1 <= n <= length data)%nat.
Proof.
  intros H. apply readProtobufVarint_Ok in H as (_ & -> & Hd). pose proof (appendU64_length v).
  apply (f_equal length) in Hd. rewrite length_app in Hd. lia.
Qed.

(** The loop consumes at least a byte per value: fuel beyond the number of
    bytes is not used. *)
Lemma decodePacked_fuel fuel1 fuel2 data ops values :
  (length data <= fuel1)%nat -> (length data <= fuel2)%nat ->
  decodePackedProtoInt32_loop fuel1 data ops values = decodePackedProtoInt32_loop fuel2 data ops values.
Proof.
  revert fuel2 data ops values. induction fuel1 as [|fuel1 IH]; intros fuel2 data ops values H1 H2;
    (destruct data as [|b data]; [by destruct fuel2|]); [simpl in H1; lia|].
  destruct fuel2 as [|fuel2]; [simpl in H2; lia|]. cbn [decodePackedProtoInt32_loop].
  destruct (bumpCount _ _ _) as [ops'|]; [|done]. cbn [mbind result_bind].
  destruct (readProtobufVarint (b :: data)) as [[v n]|] eqn:E; [|done]. cbn [mbind result_bind].
  apply readProtobufVarint_size in E. simpl in *. apply IH; rewrite length_drop; simpl; lia.
Qed.

Lemma bumpCount_Ok dst dst' : bumpCount dst 1 MaxSabrContextPolicyOps = Ok dst' <->
  dst' = dst + 1 /\ dst' <= MaxSabrContextPolicyOps.
Proof.
  unfold bumpCount. change (_ || _) with false. cbn iota.
  destruct (Z.gtb_spec 1 (MaxSabrContextPolicyOps - dst)); split; intros; simplify_eq; try lia.
  f_equal. lia.
Qed.

(** Every decoded value is paid for. *)
Lemma decodePacked_budget fuel data ops values values' ops' :
  decodePackedProtoInt32_loop fuel data ops values = Ok (values', ops') ->
  ops' - zlen values' = ops - zlen values /\ (ops <= MaxSabrContextPolicyOps -> ops' <= MaxSabrContextPolicyOps) /\
  (Forall is_i32 values -> Forall is_i32 values').
Proof.
  revert data ops values. induction fuel as [|fuel IH]; intros data ops values H;
    (destruct data as [|b data]; [simpl in H; simplify_eq; done|]); [done|].
  cbn [decodePackedProtoInt32_loop] in H. apply bind_Ok_inv in H as (ops1 & Hb & H).
  apply bind_Ok_inv in H as ([v n] & _ & H). apply bind_Ok_inv in H as (i & Hi & H).
  apply bumpCount_Ok in Hb as [-> ?]. injection Hi as <-. apply IH in H as (Heq & Hle & Hall).
  rewrite zlen_app in Heq. change (zlen [i32 v]) with 1 in Heq. split_and!; [lia|lia|].
  intros Hv. apply Hall. rewrite Forall_app. auto using i32_range.
Qed.

Lemma decodePacked_pack values ops :
  Forall is_u64 values -> ops + zlen values <= MaxSabrContextPolicyOps ->
  decodePackedProtoInt32 (pack values) ops = Ok (map i32 values, ops + zlen values).
Proof.
  intros Hv. unfold decodePackedProtoInt32.
  change (map i32 values) with ([] ++ map i32 values). generalize (@nil Z) as acc. revert ops.
  induction Hv as [|v values Hv0 Hv IH]; intros ops acc Hops.
  { simpl. rewrite app_nil_r. unfold zlen. simpl. do 2 f_equal. lia. }
  change (pack (v :: values)) with (appendU64 [] v ++ pack values).
  pose proof (appendU64_length v) as Hlen. rewrite length_app.
  destruct (appendU64 [] v ++ pack values) as [|b l] eqn:Ed.
  { apply (f_equal length) in Ed. rewrite length_app in Ed. simpl in Ed. lia. }
  destruct (length (appendU64 [] v)) as [|k] eqn:Ek; [lia|]. cbn [decodePackedProtoInt32_loop Nat.add].
  unfold zlen in *. simpl length in *. assert (bumpCount ops 1 MaxSabrContextPolicyOps = Ok (ops + 1)) as ->
    by (apply bumpCount_Ok; split; [done|lia]).
  cbn [mbind result_bind]. rewrite <- Ed, readProtobufVarint_append by done. cbn [mbind result_bind protoInt32FromVarint]. rewrite drop_app_length.
  rewrite (decodePacked_fuel _ (length (pack values))) by lia.
  rewrite IH by lia. rewrite <- app_assoc. simpl. do 2 f_equal. lia.
Qed.

(** ** Lemmas: context updates *)

Definition option_all {A} (P : A -> Prop) (o : option A) : Prop := match o with Some a => P a | None => True end.

(** What the locals of the decoder satisfy in every iteration. *)
Definition cul_inv (d : contextUpdateLocals) : Prop :=
  option_all is_i32 (cul_Type d) /\
  option_all (fun v => 0 <= v <= SabrContextScopeContentAds) (cul_Scope d) /\
  option_all (fun v => 0 < zlen v <= MaxSabrContextValueBytes) (cul_Value d) /\
  option_all (fun v => 0 <= v <= SabrContextWriteKeepExisting) (cul_WritePolicy d).

Lemma parseSabrContextUpdate_wf payload d :
  parseSabrContextUpdate payload = Ok d -> ContextUpdate_wf d.
Proof.
  unfold parseSabrContextUpdate. generalize payload. intros p.
  apply (scan_message_post _ cul_inv (fun b => b = Ok d -> ContextUpdate_wf d)).
  - done.
  - intros acc num wt r (H1 & H2 & H3 & H4).
    unfold parseSabrContextUpdate_body, strict_field, protoInt32FromVarint, cul_inv.
    repeat (case_match; simplify_eq/=); reflect_bools; split_and?; try done; simpl;
      try apply i32_range; unfold SabrContextScopeUnknown, SabrContextWriteUnspecified in *;
      repeat match goal with H : zlen ?l <> 0 |- _ => pose proof (zlen_nonneg l); revert H end; try lia.
  - intros [[t|] s [v|] b w] (H1 & H2 & H3 & H4); unfold parseSabrContextUpdate_finish; simpl in *;
      try (destruct (_ <=? _) eqn:E; [done|]); try done.
    intros [= <-]. unfold ContextUpdate_wf; simpl. reflect_bools. unfold is_i32 in *.
    destruct s, w; simpl in *; unfold SabrContextScopeContentAds, SabrContextWriteKeepExisting in *; lia.
  - done.
Qed.

Lemma field_num_wf (n : Z) : 1 <= n <= 5 -> 1 <= n <= MaxUint32.
Proof. unfold MaxUint32. lia. Qed.

(** Decide comparisons of field numbers. *)
Ltac field_consts :=
  repeat match goal with
  | |- context [?n =? ?k] =>
      is_const n; is_const k; let b := eval vm_compute in (n =? k) in change (n =? k) with b; cbn iota
  end.

Lemma parseSabrContextUpdate_fields d :
  ContextUpdate_wf d -> parseSabrContextUpdate (encode_fields (ContextUpdate_fields d)) = Ok d.
Proof.
  intros (Ht & Hs & Hv & Hw). unfold parseSabrContextUpdate.
  unfold SabrContextScopeContentAds, SabrContextWriteKeepExisting, MaxSabrContextValueBytes in *. simpl Z.shiftl in Hv.
  rewrite (scan_encode _ ContextUpdate_absorb).
  - unfold ContextUpdate_fields, absorb_all, ContextUpdate_absorb. field_consts.
    rewrite !i32_small by width_lia. cbn [cul_Type cul_Scope cul_Value cul_SendByDefault cul_WritePolicy seen updater].
    assert ((cu_Scope d <? SabrContextScopeUnknown) || (cu_Scope d >? SabrContextScopeContentAds) = false) as ->
      by (unfold SabrContextScopeUnknown, SabrContextScopeContentAds; lia).
    assert (zlen (cu_Value d) =? 0 = false) as -> by lia.
    assert (zlen (cu_Value d) >? MaxSabrContextValueBytes = false) as ->
      by (unfold MaxSabrContextValueBytes; simpl; lia).
    assert ((cu_WritePolicy d <? SabrContextWriteUnspecified) || (cu_WritePolicy d >? SabrContextWriteKeepExisting) = false) as ->
      by (unfold SabrContextWriteUnspecified, SabrContextWriteKeepExisting; lia).
    unfold parseSabrContextUpdate_finish. simpl. assert (cu_Type d <=? 0 = false) as -> by lia.
    destruct d as [? ? ? [] ?]; done.
  - unfold ContextUpdate_fields, MaxInt32, MaxSabrContextValueBytes, SabrContextScopeContentAds, SabrContextWriteKeepExisting in *.
    repeat constructor; cbn [pb_num]; try (by apply field_num_wf); try (unfold is_u64; lia);
      unfold is_u64, Z.b2z; try case_match; try lia. etrans; [apply Hv|by vm_compute].
  - simpl. unfold MaxProtobufFields. lia.
Qed.

(** ** Lemmas: sending policies *)

Lemma sending_policy_budget payload ops d ops' :
  ops <= MaxSabrContextPolicyOps -> parseSabrContextSendingPolicy payload ops = Ok (d, ops') ->
  ops' = ops + zlen (policy_values d) /\ ops' <= MaxSabrContextPolicyOps /\
  Forall (fun v => 0 < v <= MaxInt32) (policy_values d).
Proof.
  intros Hops. unfold parseSabrContextSendingPolicy.
  apply (scan_message_post _
    (fun '(d0, ops0) => ops0 = ops + zlen (policy_values d0) /\ ops0 <= MaxSabrContextPolicyOps /\
       Forall is_i32 (policy_values d0))
    (fun b => b = Ok (d, ops') -> _)).
  - unfold policy_values, zlen; simpl. split_and!; [lia|done|constructor].
  - intros [d0 ops0] num wt r (H1 & H2 & H3). unfold parseSabrContextSendingPolicy_body.
    unfold sending_policy_field. destruct (readRepeatedProtoInt32 r wt ops0) as [vals r'] eqn:Er.
    assert (forall vs o, vals = Ok (vs, o) -> o = ops0 + zlen vs /\ o <= MaxSabrContextPolicyOps /\ Forall is_i32 vs) as Hvals.
    { intros vs o ->. unfold readRepeatedProtoInt32 in Er. repeat (case_match; simplify_eq/=).
      - match goal with Hb : bumpCount _ _ _ = _ |- _ => apply bumpCount_Ok in Hb as [-> ?] end.
        split_and!; [done..|]. repeat constructor; apply i32_range.
      - match goal with Hd : decodePackedProtoInt32 _ _ = _ |- _ => apply decodePacked_budget in Hd as (Hz & Hl & Ha) end.
        change (zlen []) with 0 in Hz. split_and!; [lia|auto|auto]. }
    unfold policy_values in *. rewrite !zlen_app, !Forall_app in *.
    destruct vals as [[vs o]|]; repeat case_match; simplify_eq/=; try done;
      try destruct (Hvals _ _ eq_refl) as (-> & ? & ?); rewrite ?zlen_app, ?Forall_app; split_and!; try lia; tauto.
  - intros [d0 ops0] (-> & H2 & H3). destruct (existsb _ _) eqn:Ex; [done|]. intros [= -> <-].
    split_and!; [done..|]. fold (policy_values d) in Ex. rewrite Forall_forall in H3 |- *. intros v Hv.
    specialize (H3 v Hv). unfold is_i32 in H3. split; [|lia].
    destruct (Z.leb_spec v 0) as [Hle|]; [|done].
    assert (existsb (fun value => value <=? 0) (policy_values d) = true); [|congruence].
    apply existsb_exists. exists v. split; [by apply list_elem_of_In|lia].
  - done.
Qed.

(** One list of a policy, by its field number. *)
Inductive policy_list : Z -> (sabrContextSendingPolicyDirective -> list Z -> sabrContextSendingPolicyDirective) -> Prop :=
| policy_start : policy_list fSabrSendingPolicyStart (fun d vs => d <| sp_Start := sp_Start d ++ vs |>)
| policy_stop : policy_list fSabrSendingPolicyStop (fun d vs => d <| sp_Stop := sp_Stop d ++ vs |>)
| policy_discard : policy_list fSabrSendingPolicyDiscard (fun d vs => d <| sp_Discard := sp_Discard d ++ vs |>).

Lemma policy_list_absorb num add d ops f :
  policy_list num add -> pb_num f = num ->
  SendingPolicy_absorb (d, ops) f =
    lift_field (match f with
                | PbVarint _ v => ops ← bumpCount ops 1 MaxSabrContextPolicyOps; Ok ([i32 v], ops)
                | PbBytes _ bs => decodePackedProtoInt32 bs ops
                end) (add d).
Proof. intros [] Hn; unfold SendingPolicy_absorb; rewrite Hn; done. Qed.

Lemma policy_list_nil num add d : policy_list num add -> add d [] = d.
Proof. intros []; destruct d; simpl; by rewrite app_nil_r. Qed.

Lemma policy_list_app num add d vs1 vs2 :
  policy_list num add -> add (add d vs1) vs2 = add d (vs1 ++ vs2).
Proof. intros []; destruct d; simpl; by rewrite app_assoc. Qed.

(** Repeated single values and one packed field leave the same locals. *)
Lemma absorb_unpacked num add d ops vs fs :
  policy_list num add -> ops + zlen vs <= MaxSabrContextPolicyOps ->
  absorb_all SendingPolicy_absorb (d, ops) (map (PbVarint num) vs ++ fs) =
  absorb_all SendingPolicy_absorb (add d (map i32 vs), ops + zlen vs) fs.
Proof.
  intros Hp. revert d ops. induction vs as [|v vs IH]; intros d ops Hops.
  { simpl. rewrite (policy_list_nil _ _ _ Hp). unfold zlen. simpl. by rewrite Z.add_0_r. }
  cbn [map app absorb_all]. rewrite (policy_list_absorb _ _ _ _ (PbVarint num v) Hp eq_refl).
  unfold zlen in *. simpl length in *. assert (bumpCount ops 1 MaxSabrContextPolicyOps = Ok (ops + 1)) as ->
    by (apply bumpCount_Ok; split; [done|lia]).
  cbn [mbind result_bind lift_field]. rewrite IH by lia. rewrite (policy_list_app _ _ _ _ _ Hp). simpl.
  do 2 f_equal. lia.
Qed.

Lemma absorb_packed num add d ops vs fs :
  policy_list num add -> Forall is_u64 vs -> ops + zlen vs <= MaxSabrContextPolicyOps ->
  absorb_all SendingPolicy_absorb (d, ops) (PbBytes num (pack vs) :: fs) =
  absorb_all SendingPolicy_absorb (add d (map i32 vs), ops + zlen vs) fs.
Proof.
  intros Hp Hv Hops. cbn [absorb_all]. rewrite (policy_list_absorb _ _ _ _ (PbBytes num (pack vs)) Hp eq_refl).
  by rewrite decodePacked_pack.
Qed.

Lemma map_i32_small vs : Forall (fun v => 0 < v <= MaxInt32) vs -> map i32 vs = vs.
Proof. induction 1 as [|v vs Hv _ IH]; simpl; [done|]. rewrite IH, i32_small; [done|width_lia]. Qed.

Lemma pack_length vs : Forall is_u64 vs -> zlen (pack vs) <= 11 * zlen vs.
Proof.
  induction 1 as [|v vs Hv _ IH]; [done|]. change (pack (v :: vs)) with (appendU64 [] v ++ pack vs).
  rewrite zlen_app. pose proof (appendU64_length v). unfold zlen in *. simpl. lia.
Qed.

(** A policy the decoder can return for a given remaining budget. *)
Definition policy_wf (d : sabrContextSendingPolicyDirective) (ops : Z) : Prop :=
  Forall (fun v => 0 < v <= MaxInt32) (policy_values d) /\ 0 <= ops /\
  ops + zlen (policy_values d) <= MaxSabrContextPolicyOps.

Lemma sending_policy_finish d ops :
  policy_wf d ops ->
  (if existsb (fun value => value <=? 0) (sp_Start d ++ sp_Stop d ++ sp_Discard d)
   then Err ErrInvalidContextState else Ok (d, ops + zlen (policy_values d)) : res _)
  = Ok (d, ops + zlen (policy_values d)).
Proof.
  intros [Hv _]. fold (policy_values d). destruct (existsb _ _) eqn:E; [|done].
  apply existsb_exists in E as (v & Hin & Hle). rewrite Forall_forall in Hv.
  specialize (Hv v ltac:(by apply list_elem_of_In)). lia.
Qed.

Lemma sending_policy_encodings d ops :
  policy_wf d ops ->
  parseSabrContextSendingPolicy (encode_fields (policy_fields_packed d)) ops = Ok (d, ops + zlen (policy_values d)) /\
  parseSabrContextSendingPolicy (encode_fields (policy_fields_unpacked d)) ops = Ok (d, ops + zlen (policy_values d)).
Proof.
  intros Hwf. pose proof (sending_policy_finish d ops Hwf) as Hfin. destruct Hwf as (Hv & H0 & Hops).
  unfold policy_values in *. rewrite !Forall_app, !zlen_app in *. destruct Hv as (Hv1 & Hv2 & Hv3).
  pose proof (zlen_nonneg (sp_Start d)). pose proof (zlen_nonneg (sp_Stop d)). pose proof (zlen_nonneg (sp_Discard d)).
  assert (forall vs, Forall (fun v => 0 < v <= MaxInt32) vs -> Forall is_u64 vs) as Hu
    by (intros vs Hvs; eapply Forall_impl; [exact Hvs|intros v ?; cbv beta in *; width_lia]).
  assert (forall num vs, 1 <= num <= 5 -> Forall is_u64 vs -> zlen vs <= MaxSabrContextPolicyOps -> pb_wf (PbBytes num (pack vs))) as Hpk.
  { intros num vs Hn Hvs Hl. split; [by apply field_num_wf|]. pose proof (pack_length vs Hvs).
    etrans; [|apply (Z.le_refl MaxProtobufFieldBytes)]. unfold MaxSabrContextPolicyOps in Hl.
    change MaxProtobufFieldBytes with 16777216. lia. }
  assert (forall num vs, 1 <= num <= 5 -> Forall is_u64 vs -> Forall pb_wf (map (PbVarint num) vs)) as Hun.
  { intros num vs Hn Hvs. apply Forall_map. eapply Forall_impl; [exact Hvs|]. intros v Hvv. split; [by apply field_num_wf|done]. }
  unfold parseSabrContextSendingPolicy. rewrite !(scan_encode _ SendingPolicy_absorb).
  - unfold policy_fields_packed, policy_fields_unpacked.
    rewrite (absorb_packed _ _ _ _ _ _ policy_start), (absorb_packed _ _ _ _ _ _ policy_stop),
      (absorb_packed _ _ _ _ _ _ policy_discard) by (auto; lia).
    rewrite <- (app_nil_r (map (PbVarint fSabrSendingPolicyDiscard) _)).
    rewrite (absorb_unpacked _ _ _ _ _ _ policy_start), (absorb_unpacked _ _ _ _ _ _ policy_stop),
      (absorb_unpacked _ _ _ _ _ _ policy_discard) by lia.
    cbn [absorb_all]. rewrite !map_i32_small by done. destruct d as [d1 d2 d3]; simpl in *.
    rewrite <- !Z.add_assoc. split; exact Hfin.
  - unfold policy_fields_unpacked. rewrite !Forall_app. split_and!; apply Hun; auto; done.
  - unfold policy_fields_unpacked. rewrite !length_app, !length_map.
    unfold zlen, MaxSabrContextPolicyOps, MaxProtobufFields in *. lia.
  - unfold policy_fields_packed. rewrite !Forall_cons. split_and!; try done; apply Hpk; auto; try lia; done.
  - simpl. unfold MaxProtobufFields. lia.
Qed.

(** ** Claims *)

(** Context updates: whatever the decoder accepts is within bounds (a
    positive type, a known scope and write policy, a value of 1 byte to 16 KiB),
    and it decodes the encoding of every such update back to that update. *)
Theorem context_update_image d :
  (forall payload, parseSabrContextUpdate payload = Ok d -> ContextUpdate_wf d) /\
  (ContextUpdate_wf d -> parseSabrContextUpdate (encode_fields (ContextUpdate_fields d)) = Ok d).
Proof. split; [intros p; apply (parseSabrContextUpdate_wf p)|apply parseSabrContextUpdate_fields]. Qed.

(** Sending policies are paid for: an accepted policy raises the
    response-wide operation count by exactly the number of its values, the
    count stays within [MaxSabrContextPolicyOps], and all types are positive
    [int32]s, however the values are split over packed and single fields. *)
Theorem sending_policy_paid payload ops d ops' :
  ops <= MaxSabrContextPolicyOps -> parseSabrContextSendingPolicy payload ops = Ok (d, ops') ->
  ops' = ops + zlen (policy_values d) /\ ops' <= MaxSabrContextPolicyOps /\
  Forall (fun v => 0 < v <= MaxInt32) (policy_values d).
Proof. apply sending_policy_budget. Qed.

(** The packed and the one-field-per-value encodings of a policy decode to
    that policy, at the same cost. *)
Theorem sending_policy_packed_equiv d ops :
  policy_wf d ops ->
  parseSabrContextSendingPolicy (encode_fields (policy_fields_packed d)) ops = Ok (d, ops + zlen (policy_values d)) /\
  parseSabrContextSendingPolicy (encode_fields (policy_fields_unpacked d)) ops = Ok (d, ops + zlen (policy_values d)).
Proof. apply sending_policy_encodings. Qed.

Definition sample_policy : sabrContextSendingPolicyDirective := mkSendingPolicy [3; 300] [] [7].

Lemma sending_policy_paid_witness :
  5 = 2 + zlen (policy_values sample_policy) /\ 5 <= MaxSabrContextPolicyOps /\
  Forall (fun v => 0 < v <= MaxInt32) (policy_values sample_policy).
Proof.
  apply (sending_policy_paid (encode_fields (policy_fields_packed sample_policy)) 2); vm_compute; [discriminate|reflexivity].
Defined.

Lemma sending_policy_packed_equiv_witness :
  parseSabrContextSendingPolicy (encode_fields (policy_fields_packed sample_policy)) 0 = Ok (sample_policy, 3) /\
  parseSabrContextSendingPolicy (encode_fields (policy_fields_unpacked sample_policy)) 0 = Ok (sample_policy, 3).
Proof. apply (sending_policy_packed_equiv sample_policy 0). split_and!; [repeat constructor|..]; vm_compute; done. Defined.

Definition sample_update : sabrContextUpdateDirective := mkContextUpdate 5 1 (lit "ctx") true 0.

Lemma context_update_image_witness :
  parseSabrContextUpdate (encode_fields (ContextUpdate_fields sample_update)) = Ok sample_update.
Proof. apply (context_update_image sample_update). vm_compute. intuition discriminate. Defined.
