(* ===== verification/ContextState.v ===== *)
(** * The SABR context machine

    [sabrContextState] of [context_state.go]: the context values the server has
    asked the client to keep and which of them to send, and how they are
    written into a request.

    The two Go maps are finite maps keyed by the [int32] type.  The iteration
    order of a Go map is unspecified; [appendToStreamer] takes it as an
    argument.  [bytes.Clone] needs no counterpart: values are immutable here. *)
From S2P Require Import Prelude Errors Wire Directives.

(** ** State *)

Record sabrContextEntry := mkEntry {
  ent_Type : Z;
  ent_Scope : Z;
  ent_Value : bytes
}.

Record sabrContextState := mkContextState {
  cs_entries : gmap Z sabrContextEntry;
  cs_active : gset Z;
  cs_total : Z
}.

#[export] Instance eta_sabrContextState : Eta sabrContextState :=
  fun s => mkContextState (cs_entries s) (cs_active s) (cs_total s).

Definition newSabrContextState : sabrContextState := mkContextState ∅ ∅ 0.

(** [clone] of a state that may be nil. *)
Definition sabrContextState_clone (state : option sabrContextState) : sabrContextState :=
  match state with
  | None => newSabrContextState
  | Some state => mkContextState (cs_entries state) (cs_active state) (cs_total state)
  end.

(** ** Operations: the error and the state they leave *)

Definition ensureActiveCapacity (state : sabrContextState) (typ : Z) : option go_error :=
  if bool_decide (typ ∈ cs_active state) then None
  else if Z.of_nat (size (cs_active state)) >=? MaxSabrContexts then Some ErrInvalidContextState
  else None.

Definition activate (state : sabrContextState) (typ : Z) : option go_error * sabrContextState :=
  match ensureActiveCapacity state typ with
  | Some e => (Some e, state)
  | None => (None, state <| cs_active := cs_active state ∪ {[typ]} |>)
  end.

Definition addTotal (state : sabrContextState) (n : Z) : option go_error * sabrContextState :=
  if n <? 0 then (Some ErrInvalidContextState, state)
  else if n >? MaxSabrContextValueBytesTotal - cs_total state then (Some ErrInvalidContextState, state)
  else (None, state <| cs_total := cs_total state + n |>).

Definition entry_of (update : sabrContextUpdateDirective) : sabrContextEntry :=
  mkEntry (cu_Type update) (cu_Scope update) (cu_Value update).

Definition insertEntry (state : sabrContextState) (update : sabrContextUpdateDirective)
  : option go_error * sabrContextState :=
  if Z.of_nat (size (cs_entries state)) >=? MaxSabrContexts then (Some ErrInvalidContextState, state)
  else
    match addTotal state (zlen (cu_Value update)) with
    | (Some e, state) => (Some e, state)
    | (None, state) =>
        (None, state <| cs_entries := <[cu_Type update := entry_of update]> (cs_entries state) |>)
    end.

Definition replaceEntry (state : sabrContextState) (existing : sabrContextEntry)
    (update : sabrContextUpdateDirective) : option go_error * sabrContextState :=
  let delta := zlen (cu_Value update) - zlen (ent_Value existing) in
  let '(err, state) :=
    if delta >? 0 then addTotal state delta
    else (None, state <| cs_total := cs_total state + delta |>) in
  match err with
  | Some e => (Some e, state)
  | None => (None, state <| cs_entries := <[cu_Type update := entry_of update]> (cs_entries state) |>)
  end.

(** The end of [applyUpdate], after the entry has been written. *)
Definition applyUpdate_activate (update : sabrContextUpdateDirective) (out : option go_error * sabrContextState)
  : option go_error * sabrContextState :=
  match out with
  | (Some e, state) => (Some e, state)
  | (None, state) => if cu_SendByDefault update then activate state (cu_Type update) else (None, state)
  end.

Definition applyUpdate (state : sabrContextState) (update : sabrContextUpdateDirective)
  : option go_error * sabrContextState :=
  if cu_Type update <=? 0 then (Some ErrInvalidContextState, state)
  else if (zlen (cu_Value update) =? 0) || (zlen (cu_Value update) >? MaxSabrContextValueBytes)
  then (Some ErrInvalidContextState, state)
  else
    let capacity :=
      if cu_SendByDefault update then ensureActiveCapacity state (cu_Type update) else None in
    match cs_entries state !! cu_Type update with
    | Some existing =>
        if cu_WritePolicy update =? SabrContextWriteKeepExisting then (None, state)
        else match capacity with
             | Some e => (Some e, state)
             | None => applyUpdate_activate update (replaceEntry state existing update)
             end
    | None =>
        match capacity with
        | Some e => (Some e, state)
        | None => applyUpdate_activate update (insertEntry state update)
        end
    end.

(** The three loops of [applySendingPolicy]: [None] when the loop ends. *)
Fixpoint policy_start_loop (state : sabrContextState) (types : list Z) : option go_error * sabrContextState :=
  match types with
  | [] => (None, state)
  | typ :: types =>
      if typ <=? 0 then (Some ErrInvalidContextState, state)
      else match activate state typ with
           | (Some e, state) => (Some e, state)
           | (None, state) => policy_start_loop state types
           end
  end.

Fixpoint policy_stop_loop (state : sabrContextState) (types : list Z) : option go_error * sabrContextState :=
  match types with
  | [] => (None, state)
  | typ :: types =>
      if typ <=? 0 then (Some ErrInvalidContextState, state)
      else policy_stop_loop (state <| cs_active := cs_active state ∖ {[typ]} |>) types
  end.

Fixpoint policy_discard_loop (state : sabrContextState) (types : list Z) : option go_error * sabrContextState :=
  match types with
  | [] => (None, state)
  | typ :: types =>
      if typ <=? 0 then (Some ErrInvalidContextState, state)
      else
        let state :=
          match cs_entries state !! typ with
          | Some existing =>
              state <| cs_total := cs_total state - zlen (ent_Value existing) |>
                    <| cs_entries := delete typ (cs_entries state) |>
          | None => state
          end in
        policy_discard_loop state types
  end.

Definition applySendingPolicy (state : sabrContextState) (policy : sabrContextSendingPolicyDirective)
  : option go_error * sabrContextState :=
  match policy_start_loop state (sp_Start policy) with
  | (Some e, state) => (Some e, state)
  | (None, state) =>
      match policy_stop_loop state (sp_Stop policy) with
      | (Some e, state) => (Some e, state)
      | (None, state) => policy_discard_loop state (sp_Discard policy)
      end
  end.

(** *** Writing the contexts into a request *)

Definition fStreamerCtxSabrContexts : Z := 5.
Definition fStreamerCtxUnsentSabrContexts : Z := 6.

Definition appendProtobufPackedInt32 (buf : bytes) (field : Z) (values : list Z) : bytes :=
  appendProtobufBytes buf field (foldl (fun packed value => appendU64 packed (u64 (u32 value))) [] values).

Definition append_active (state : sabrContextState) (buf : bytes) (typ : Z) : bytes :=
  let entry := default (mkEntry 0 0 []) (cs_entries state !! typ) in
  let nested := appendProtobufVarint [] fStreamerSabrContextType (u64 (ent_Type entry)) in
  let nested := appendProtobufBytes nested fStreamerSabrContextValue (ent_Value entry) in
  appendProtobufBytes buf fStreamerCtxSabrContexts nested.

(** [order]: the keys of [state.entries] in the order the [range] visits them;
    [sort.Slice] with a strict order on distinct keys is [merge_sort]. *)
Definition appendToStreamer (order : list Z) (state : option sabrContextState) (buf : bytes) : bytes :=
  match state with
  | None => buf
  | Some state =>
      if (size (cs_entries state) =? 0)%nat then buf
      else
        let activeTypes := merge_sort Z.le (List.filter (fun typ => bool_decide (typ ∈ cs_active state)) order) in
        let unsentTypes := merge_sort Z.le (List.filter (fun typ => negb (bool_decide (typ ∈ cs_active state))) order) in
        let buf := foldl (append_active state) buf activeTypes in
        if (0 <? length unsentTypes)%nat
        then appendProtobufPackedInt32 buf fStreamerCtxUnsentSabrContexts unsentTypes
        else buf
  end.

(** ** Invariant *)

Definition total_bytes (entries : gmap Z sabrContextEntry) : Z :=
  map_fold (fun _ e acc => zlen (ent_Value e) + acc) 0 entries.

Record cs_inv (state : sabrContextState) : Prop := {
  inv_entries : Z.of_nat (size (cs_entries state)) <= MaxSabrContexts;
  inv_active : Z.of_nat (size (cs_active state)) <= MaxSabrContexts;
  inv_total : cs_total state = total_bytes (cs_entries state);
  inv_bound : cs_total state <= MaxSabrContextValueBytesTotal;
  inv_entry : map_Forall (fun typ e => ent_Type e = typ /\ 0 < typ /\
                0 < zlen (ent_Value e) <= MaxSabrContextValueBytes) (cs_entries state)
}.

(** ** Lemmas *)

Lemma total_bytes_empty : total_bytes ∅ = 0.
Proof. apply map_fold_empty. Qed.

Lemma total_bytes_insert entries k e :
  entries !! k = None -> total_bytes (<[k := e]> entries) = zlen (ent_Value e) + total_bytes entries.
Proof. intros Hk. unfold total_bytes. rewrite map_fold_insert_L; [done|intros; lia|done]. Qed.

Lemma total_bytes_delete entries k e :
  entries !! k = Some e -> total_bytes (delete k entries) = total_bytes entries - zlen (ent_Value e).
Proof.
  intros Hk. rewrite <- (insert_delete_id entries k e Hk) at 2.
  rewrite total_bytes_insert by apply lookup_delete_eq. lia.
Qed.

Lemma total_bytes_replace entries k e e' :
  entries !! k = Some e ->
  total_bytes (<[k := e']> entries) = total_bytes entries - zlen (ent_Value e) + zlen (ent_Value e').
Proof.
  intros Hk. rewrite <- insert_delete_eq, total_bytes_insert by apply lookup_delete_eq.
  rewrite (total_bytes_delete _ _ _ Hk). lia.
Qed.

Lemma total_bytes_nonneg entries : 0 <= total_bytes entries.
Proof.
  apply (map_fold_weak_ind (fun t _ => 0 <= t)); [done|]. intros k e m t _ Ht.
  pose proof (zlen_nonneg (ent_Value e)). lia.
Qed.

Lemma ensureActiveCapacity_None state typ :
  ensureActiveCapacity state typ = None <->
  typ ∈ cs_active state \/ Z.of_nat (size (cs_active state)) < MaxSabrContexts.
Proof.
  unfold ensureActiveCapacity. case_bool_decide; [tauto|].
  destruct (Z.geb_spec (Z.of_nat (size (cs_active state))) MaxSabrContexts); split; try done; [intros [?|?]; [done|lia]|by right].
Qed.

Lemma ensureActiveCapacity_Some state typ e :
  ensureActiveCapacity state typ = Some e -> e = ErrInvalidContextState.
Proof. unfold ensureActiveCapacity. intros H. repeat case_match; by simplify_eq. Qed.

Lemma size_union_singleton_active (X : gset Z) typ :
  Z.of_nat (size (X ∪ {[typ]})) <= Z.of_nat (size X) + 1 /\
  (typ ∈ X -> X ∪ {[typ]} = X).
Proof.
  split; [|set_solver]. pose proof (size_union_alt X {[typ]}) as Hu.
  pose proof (subseteq_size ({[typ]} ∖ X) {[typ]} ltac:(set_solver)) as Hs. rewrite size_singleton in Hs. lia.
Qed.

(** Operations that succeed, and the state they leave. *)
Lemma activate_spec state typ :
  match activate state typ with
  | (Some e, s') => s' = state /\ e = ErrInvalidContextState /\ typ ∉ cs_active state /\
                    MaxSabrContexts <= Z.of_nat (size (cs_active state))
  | (None, s') => s' = state <| cs_active := cs_active state ∪ {[typ]} |> /\
                  (cs_inv state -> cs_inv s')
  end.
Proof.
  unfold activate. destruct (ensureActiveCapacity state typ) as [e|] eqn:E.
  - unfold ensureActiveCapacity in E. case_bool_decide; [done|]. case_match; reflect_bools; [|done].
    by simplify_eq.
  - split; [done|]. intros [H1 H2 H3 H4 H5]. split; simpl; try done.
    apply ensureActiveCapacity_None in E as [Hin|Hlt].
    + by rewrite (proj2 (size_union_singleton_active _ _) Hin).
    + pose proof (proj1 (size_union_singleton_active (cs_active state) typ)). lia.
Qed.

Lemma addTotal_spec state n :
  match addTotal state n with
  | (Some e, s') => s' = state /\ e = ErrInvalidContextState
  | (None, s') => s' = state <| cs_total := cs_total state + n |> /\ 0 <= n /\
                  cs_total state + n <= MaxSabrContextValueBytesTotal
  end.
Proof. unfold addTotal. repeat case_match; reflect_bools; simplify_eq; try done. split_and!; [done|lia..]. Qed.

(** An update within bounds, as [applyUpdate] checks. *)
Definition update_ok (u : sabrContextUpdateDirective) : Prop :=
  0 < cu_Type u /\ 0 < zlen (cu_Value u) <= MaxSabrContextValueBytes.

Lemma inv_entry_insert (entries : gmap Z sabrContextEntry) u :
  update_ok u ->
  map_Forall (fun typ e => ent_Type e = typ /\ 0 < typ /\ 0 < zlen (ent_Value e) <= MaxSabrContextValueBytes) entries ->
  map_Forall (fun typ e => ent_Type e = typ /\ 0 < typ /\ 0 < zlen (ent_Value e) <= MaxSabrContextValueBytes)
    (<[cu_Type u := entry_of u]> entries).
Proof. intros [Ht Hv] H. by apply map_Forall_insert_2. Qed.

Lemma insertEntry_spec state u :
  update_ok u -> cs_entries state !! cu_Type u = None ->
  match insertEntry state u with
  | (Some e, s') => s' = state /\ e = ErrInvalidContextState
  | (None, s') => cs_entries s' = <[cu_Type u := entry_of u]> (cs_entries state) /\
                  cs_active s' = cs_active state /\ (cs_inv state -> cs_inv s')
  end.
Proof.
  intros Hu Hk. unfold insertEntry. destruct (Z.geb_spec (Z.of_nat (size (cs_entries state))) MaxSabrContexts); [done|].
  pose proof (addTotal_spec state (zlen (cu_Value u))) as Ha.
  destruct (addTotal state _) as [[e|] s1]; [done|]. destruct Ha as (-> & Hn & Hb).
  split_and!; [done..|]. intros [H1 H2 H3 H4 H5]. split; simpl; try done.
  - rewrite map_size_insert_None by done. lia.
  - rewrite total_bytes_insert by done. rewrite H3. simpl. lia.
  - by apply inv_entry_insert.
Qed.

Lemma replaceEntry_spec state existing u :
  update_ok u -> cs_entries state !! cu_Type u = Some existing ->
  match replaceEntry state existing u with
  | (Some e, s') => s' = state /\ e = ErrInvalidContextState
  | (None, s') => cs_entries s' = <[cu_Type u := entry_of u]> (cs_entries state) /\
                  cs_active s' = cs_active state /\ (cs_inv state -> cs_inv s')
  end.
Proof.
  intros Hu Hk. unfold replaceEntry. set (delta := zlen (cu_Value u) - zlen (ent_Value existing)).
  assert (forall s1 : sabrContextState, s1 = state <| cs_total := cs_total state + delta |> ->
    (cs_inv state -> cs_total state + delta <= MaxSabrContextValueBytesTotal) ->
    cs_inv state -> cs_inv (s1 <| cs_entries := <[cu_Type u := entry_of u]> (cs_entries s1) |>)) as Hinv.
  { intros s1 -> Hb Hi. specialize (Hb Hi). destruct Hi as [H1 H2 H3 H4 H5]. split; simpl; try done.
    - by rewrite map_size_insert_Some by (by eexists).
    - rewrite (total_bytes_replace _ _ _ _ Hk). simpl. unfold delta. lia.
    - by apply inv_entry_insert. }
  destruct (Z.gtb_spec delta 0).
  - pose proof (addTotal_spec state delta) as Ha.
    destruct (addTotal state delta) as [[e|] s1]; [done|]. destruct Ha as (-> & Hn & Hb).
    split_and!; [done..|]. by apply Hinv.
  - split_and!; [done..|]. apply Hinv; [done|]. intros [_ _ _ H4 _]. lia.
Qed.

(** What a successful update leaves behind. *)
Definition update_effect (state : sabrContextState) (u : sabrContextUpdateDirective) (s' : sabrContextState) : Prop :=
  if bool_decide (is_Some (cs_entries state !! cu_Type u)) && (cu_WritePolicy u =? SabrContextWriteKeepExisting)
  then s' = state
  else cs_entries s' = <[cu_Type u := entry_of u]> (cs_entries state) /\
       cs_active s' = (if cu_SendByDefault u then cs_active state ∪ {[cu_Type u]} else cs_active state).

(** The outcome of writing the entry of an update. *)
Definition entry_written (state : sabrContextState) (u : sabrContextUpdateDirective)
    (out : option go_error * sabrContextState) : Prop :=
  match out with
  | (Some e, s') => s' = state /\ e = ErrInvalidContextState
  | (None, s') => cs_entries s' = <[cu_Type u := entry_of u]> (cs_entries state) /\
                  cs_active s' = cs_active state /\ (cs_inv state -> cs_inv s')
  end.

(** Once the entry is written, activation cannot fail: its capacity was
    checked before. *)
Lemma applyUpdate_activate_spec state u out :
  entry_written state u out ->
  (cu_SendByDefault u = true -> ensureActiveCapacity state (cu_Type u) = None) ->
  match applyUpdate_activate u out with
  | (Some e, s') => s' = state /\ e = ErrInvalidContextState
  | (None, s') => (cs_entries s' = <[cu_Type u := entry_of u]> (cs_entries state) /\
       cs_active s' = (if cu_SendByDefault u then cs_active state ∪ {[cu_Type u]} else cs_active state)) /\
       (cs_inv state -> cs_inv s')
  end.
Proof.
  destruct out as [[e|] s1]; intros Hout Hcap; [done|]. destruct Hout as (He & Ha & Hi).
  unfold applyUpdate_activate. destruct (cu_SendByDefault u); [|done]. specialize (Hcap eq_refl).
  pose proof (activate_spec s1 (cu_Type u)) as Hact. destruct (activate s1 (cu_Type u)) as [[e|] s2].
  - apply ensureActiveCapacity_None in Hcap. rewrite Ha in Hact. destruct Hact as (_ & _ & ? & ?).
    destruct Hcap; [done|lia].
  - destruct Hact as [-> Hi2]. split; [split; [done|simpl; by rewrite Ha]|auto].
Qed.

Lemma applyUpdate_spec state u :
  match applyUpdate state u with
  | (Some e, s') => s' = state /\ e = ErrInvalidContextState
  | (None, s') => update_ok u /\ update_effect state u s' /\ (cs_inv state -> cs_inv s')
  end.
Proof.
  unfold applyUpdate. destruct (Z.leb_spec (cu_Type u) 0); [done|].
  destruct (_ || _) eqn:Ev; [done|]. reflect_bools. pose proof (zlen_nonneg (cu_Value u)).
  assert (update_ok u) as Hu by (unfold update_ok; lia).
  destruct (if cu_SendByDefault u then _ else None) as [e|] eqn:Ecap; cbv zeta.
  { destruct (cu_SendByDefault u) eqn:Es; [|done]. apply ensureActiveCapacity_Some in Ecap as ->.
    unfold update_effect. destruct (cs_entries state !! cu_Type u); [|done]. by destruct (_ =? _). }
  assert (cu_SendByDefault u = true -> ensureActiveCapacity state (cu_Type u) = None) as Hcap
    by (intros E; by rewrite E in Ecap).
  unfold update_effect. destruct (cs_entries state !! cu_Type u) as [existing|] eqn:Ek.
  - destruct (cu_WritePolicy u =? SabrContextWriteKeepExisting); [done|]. rewrite andb_false_r.
    pose proof (applyUpdate_activate_spec _ _ _ (replaceEntry_spec state existing u Hu Ek) Hcap).
    repeat case_match; done.
  - pose proof (applyUpdate_activate_spec _ _ _ (insertEntry_spec state u Hu Ek) Hcap).
    repeat case_match; done.
Qed.

(** *** Sending policies *)

Lemma policy_start_loop_spec types state :
  let '(err, s') := policy_start_loop state types in
  (cs_inv state -> cs_inv s') /\
  (err = None -> Forall (Z.lt 0) types /\
     cs_active s' = cs_active state ∪ list_to_set types /\ cs_entries s' = cs_entries state).
Proof.
  revert state. induction types as [|typ types IH]; intros state; simpl.
  { split; [done|]. intros _. split_and!; [constructor|set_solver|done]. }
  destruct (Z.leb_spec typ 0); [by split|]. pose proof (activate_spec state typ) as Ha.
  destruct (activate state typ) as [[e|] s1].
  { destruct Ha as [-> _]. by split. }
  destruct Ha as [-> Hi]. specialize (IH (state <| cs_active := cs_active state ∪ {[typ]} |>)).
  destruct (policy_start_loop _ types) as [err s']. destruct IH as [IHi IHe].
  split; [auto|]. intros He. destruct (IHe He) as (Hall & Hact & Hent). simpl in *.
  split_and!; [by constructor|rewrite Hact; set_solver|done].
Qed.

Lemma policy_stop_loop_spec types state :
  let '(err, s') := policy_stop_loop state types in
  (cs_inv state -> cs_inv s') /\
  (err = None -> Forall (Z.lt 0) types /\
     cs_active s' = cs_active state ∖ list_to_set types /\ cs_entries s' = cs_entries state).
Proof.
  revert state. induction types as [|typ types IH]; intros state; simpl.
  { split; [done|]. intros _. split_and!; [constructor|set_solver|done]. }
  destruct (Z.leb_spec typ 0); [by split|].
  specialize (IH (state <| cs_active := cs_active state ∖ {[typ]} |>)).
  destruct (policy_stop_loop _ types) as [err s']. destruct IH as [IHi IHe]. split.
  - intros [H1 H2 H3 H4 H5]. apply IHi. split; simpl; try done.
    pose proof (subseteq_size (cs_active state ∖ {[typ]}) (cs_active state) ltac:(set_solver)). lia.
  - intros He. destruct (IHe He) as (Hall & Hact & Hent). simpl in *.
    split_and!; [by constructor|rewrite Hact; set_solver|done].
Qed.

Lemma discard_step_inv state typ existing :
  cs_entries state !! typ = Some existing -> cs_inv state ->
  cs_inv (state <| cs_total := cs_total state - zlen (ent_Value existing) |>
                <| cs_entries := delete typ (cs_entries state) |>).
Proof.
  intros Hk [H1 H2 H3 H4 H5]. split; simpl; try done.
  - rewrite map_size_delete_Some by (by eexists). lia.
  - rewrite (total_bytes_delete _ _ _ Hk). lia.
  - pose proof (zlen_nonneg (ent_Value existing)). lia.
  - by apply map_Forall_delete.
Qed.

Lemma policy_discard_loop_spec types state :
  let '(err, s') := policy_discard_loop state types in
  (cs_inv state -> cs_inv s') /\
  (err = None -> Forall (Z.lt 0) types /\ cs_active s' = cs_active state /\
     forall k, cs_entries s' !! k = if bool_decide (k ∈ types) then None else cs_entries state !! k).
Proof.
  revert state. induction types as [|typ types IH]; intros state; simpl.
  { split; [done|]. intros _. split_and!; [constructor|done..]. }
  destruct (Z.leb_spec typ 0); [by split|]. set (s1 := match cs_entries state !! typ with Some _ => _ | None => _ end).
  assert ((cs_inv state -> cs_inv s1) /\ cs_active s1 = cs_active state /\
          cs_entries s1 = delete typ (cs_entries state)) as (Hi1 & Ha1 & He1).
  { unfold s1. destruct (cs_entries state !! typ) as [existing|] eqn:Ek.
    - split_and!; [by apply discard_step_inv|done..].
    - split_and!; [done..|]. by rewrite delete_id. }
  clearbody s1. specialize (IH s1). destruct (policy_discard_loop s1 types) as [err s'].
  destruct IH as [IHi IHe]. split; [auto|]. intros He. destruct (IHe He) as (Hall & Hact & Hent).
  split_and!; [by constructor|congruence|]. intros k. rewrite Hent, He1.
  destruct (decide (k = typ)) as [->|Hne].
  - rewrite lookup_delete_eq. rewrite (bool_decide_true (typ ∈ typ :: types)) by set_solver. by case_bool_decide.
  - rewrite lookup_delete_ne by done. repeat case_bool_decide; set_solver.
Qed.

Lemma applySendingPolicy_spec state p :
  let '(err, s') := applySendingPolicy state p in
  (cs_inv state -> cs_inv s') /\
  (err = None ->
     cs_active s' = (cs_active state ∪ list_to_set (sp_Start p)) ∖ list_to_set (sp_Stop p) /\
     forall k, cs_entries s' !! k = if bool_decide (k ∈ sp_Discard p) then None else cs_entries state !! k).
Proof.
  unfold applySendingPolicy. pose proof (policy_start_loop_spec (sp_Start p) state) as H1.
  destruct (policy_start_loop state _) as [[e|] s1]; [by split; [apply H1|]|]. destruct H1 as [Hi1 H1].
  destruct (H1 eq_refl) as (_ & Ha1 & He1). pose proof (policy_stop_loop_spec (sp_Stop p) s1) as H2.
  destruct (policy_stop_loop s1 _) as [[e|] s2]; [by split; [intros; apply H2; auto|]|]. destruct H2 as [Hi2 H2].
  destruct (H2 eq_refl) as (_ & Ha2 & He2). pose proof (policy_discard_loop_spec (sp_Discard p) s2) as H3.
  destruct (policy_discard_loop s2 _) as [err s3]. destruct H3 as [Hi3 H3]. split; [auto|].
  intros He. destruct (H3 He) as (_ & Ha3 & He3). split; [congruence|]. intros k. by rewrite He3, He2, He1.
Qed.

(** *** Steps *)

Inductive context_op :=
| OpUpdate (u : sabrContextUpdateDirective)
| OpPolicy (p : sabrContextSendingPolicyDirective).

Definition context_step (state : sabrContextState) (op : context_op) : option go_error * sabrContextState :=
  match op with
  | OpUpdate u => applyUpdate state u
  | OpPolicy p => applySendingPolicy state p
  end.

Inductive context_reachable : sabrContextState -> Prop :=
| reach_new : context_reachable newSabrContextState
| reach_step state op err s' :
    context_reachable state -> context_step state op = (err, s') -> context_reachable s'.

Lemma context_step_inv state op : cs_inv state -> cs_inv (context_step state op).2.
Proof.
  intros Hi. destruct op as [u|p]; simpl.
  - pose proof (applyUpdate_spec state u) as H. destruct (applyUpdate state u) as [[e|] s']; simpl.
    + by destruct H as [-> _].
    + destruct H as (_ & _ & H). auto.
  - pose proof (applySendingPolicy_spec state p) as H. destruct (applySendingPolicy state p). by apply H.
Qed.

Lemma cs_inv_new : cs_inv newSabrContextState.
Proof. split; simpl; rewrite ?map_size_empty, ?size_empty, ?total_bytes_empty; try done. Qed.

(** *** What a request carries *)

Definition keys_where (p : Z -> bool) (state : sabrContextState) : list Z :=
  merge_sort Z.le (List.filter p (elements (dom (cs_entries state)))).

Definition is_active (state : sabrContextState) (typ : Z) : bool := bool_decide (typ ∈ cs_active state).

(** One field per stored and active context, by ascending type, then the types
    that are stored but not sent. *)
Definition streamer_fields (state : sabrContextState) : list pbfield :=
  map (fun typ =>
         let entry := default (mkEntry 0 0 []) (cs_entries state !! typ) in
         PbBytes fStreamerCtxSabrContexts
           (encode_fields [PbVarint fStreamerSabrContextType (u64 (ent_Type entry));
                           PbBytes fStreamerSabrContextValue (ent_Value entry)]))
      (keys_where (is_active state) state) ++
  match keys_where (fun typ => negb (is_active state typ)) state with
  | [] => []
  | unsent => [PbBytes fStreamerCtxUnsentSabrContexts (pack (map (fun v => u64 (u32 v)) unsent))]
  end.

Lemma filter_Permutation {A} (p : A -> bool) (l1 l2 : list A) :
  l1 ≡ₚ l2 -> List.filter p l1 ≡ₚ List.filter p l2.
Proof.
  induction 1 as [|x l1 l2 _ IH|x y l|l1 l2 l3 _ IH1 _ IH2]; simpl; [done| | |by etrans].
  - case_match; by rewrite IH.
  - repeat case_match; try done. constructor.
Qed.

Lemma sort_filter_order (p : Z -> bool) order state :
  order ≡ₚ elements (dom (cs_entries state)) ->
  merge_sort Z.le (List.filter p order) = keys_where p state.
Proof.
  intros Ho. apply (Sorted_unique Z.le); [apply (Sorted_merge_sort Z.le)..|].
  unfold keys_where. rewrite !merge_sort_Permutation. by apply filter_Permutation.
Qed.

Lemma appendProtobufPackedInt32_field buf field values :
  0 <= field < 2 ^ 61 ->
  appendProtobufPackedInt32 buf field values =
    buf ++ encode_field (PbBytes field (pack (map (fun v => u64 (u32 v)) values))).
Proof.
  intros Hf. unfold appendProtobufPackedInt32. rewrite appendProtobufBytes_field by done.
  do 3 f_equal. change (pack (map _ values)) with ([] ++ pack (map (fun v => u64 (u32 v)) values)).
  generalize (@nil byte) as acc. induction values as [|v values IH]; intros acc; [simpl; by rewrite app_nil_r|].
  cbn [foldl map]. rewrite appendU64_app, IH, <- app_assoc. done.
Qed.

Lemma append_active_fields state types buf :
  foldl (append_active state) buf types =
    buf ++ encode_fields (map (fun typ =>
         let entry := default (mkEntry 0 0 []) (cs_entries state !! typ) in
         PbBytes fStreamerCtxSabrContexts
           (encode_fields [PbVarint fStreamerSabrContextType (u64 (ent_Type entry));
                           PbBytes fStreamerSabrContextValue (ent_Value entry)])) types).
Proof.
  revert buf. induction types as [|typ types IH]; intros buf; [by rewrite app_nil_r|]. cbn [foldl map].
  rewrite IH, encode_fields_cons, app_assoc. f_equal. unfold append_active. cbv zeta.
  rewrite !appendProtobufBytes_field, appendProtobufVarint_field
    by (vm_compute; split; [discriminate|reflexivity]).
  do 3 f_equal. rewrite !encode_fields_cons, encode_fields_nil, app_nil_r. done.
Qed.

Lemma appendToStreamer_fields order state buf :
  order ≡ₚ elements (dom (cs_entries state)) ->
  appendToStreamer order (Some state) buf = buf ++ encode_fields (streamer_fields state).
Proof.
  intros Ho. unfold appendToStreamer, streamer_fields. rewrite !(sort_filter_order _ order state Ho).
  destruct (Nat.eqb_spec (size (cs_entries state)) 0) as [Hz|Hz].
  { apply map_size_empty_inv in Hz. unfold keys_where. rewrite Hz, dom_empty_L, elements_empty. by rewrite app_nil_r. }
  change (fun typ => negb (bool_decide (typ ∈ cs_active state))) with (fun typ => negb (is_active state typ)).
  change (fun typ => bool_decide (typ ∈ cs_active state)) with (is_active state).
  rewrite append_active_fields, encode_fields_app.
  destruct (keys_where (fun typ => negb (is_active state typ)) state) as [|k ks]; cbn [length Nat.ltb Nat.leb].
  - by rewrite encode_fields_nil, app_nil_r.
  - rewrite appendProtobufPackedInt32_field by (vm_compute; split; [discriminate|reflexivity]).
    by rewrite encode_fields_cons, encode_fields_nil, app_nil_r, app_assoc.
Qed.

(** ** Claims *)

(** C34. Every context state a downloader can reach, by any sequence of updates
    and policies, failed ones included, keeps the bounds: at most
    [MaxSabrContexts] entries and active marks, [total] is the number of stored
    value bytes and at most [MaxSabrContextValueBytesTotal], every entry is
    filed under its own positive type with a value of legal size. *)
Theorem context_state_invariant state : context_reachable state -> cs_inv state.
Proof.
  induction 1 as [|state op err s' _ IH Hs]; [apply cs_inv_new|].
  pose proof (context_step_inv state op IH) as H. by rewrite Hs in H.
Qed.

(** C35. A context update is atomic: it fails without touching the state, or it
    stores its value under its type (unless the policy keeps an existing
    value), marks the type active when sent by default, and changes no other
    entry or mark. *)
Theorem applyUpdate_atomic state u :
  match applyUpdate state u with
  | (Some e, s') => s' = state /\ e = ErrInvalidContextState
  | (None, s') => update_ok u /\ update_effect state u s'
  end.
Proof.
  pose proof (applyUpdate_spec state u) as H. destruct (applyUpdate state u) as [[e|] s']; [done|].
  by destruct H as (? & ? & _).
Qed.

(** An accepted sending policy acts in the pinned order start, stop,
    discard: the active types become (active + start) - stop, so that a type
    both started and stopped ends inactive; exactly the discarded types lose
    their stored value. *)
Theorem applySendingPolicy_effect state p s' :
  applySendingPolicy state p = (None, s') ->
  cs_active s' = (cs_active state ∪ list_to_set (sp_Start p)) ∖ list_to_set (sp_Stop p) /\
  forall k, cs_entries s' !! k = if bool_decide (k ∈ sp_Discard p) then None else cs_entries state !! k.
Proof.
  intros H. pose proof (applySendingPolicy_spec state p) as Hs. rewrite H in Hs. by apply Hs.
Qed.

(** Requests are deterministic: whatever order the Go runtime iterates the
    map in, [appendToStreamer] writes the same bytes, namely one field per
    active stored context in ascending order of type followed by the packed
    list of the other stored types; marks without a stored value are inert. *)
Theorem appendToStreamer_deterministic order state buf :
  order ≡ₚ elements (dom (cs_entries state)) ->
  appendToStreamer order (Some state) buf = buf ++ encode_fields (streamer_fields state).
Proof. apply appendToStreamer_fields. Qed.

(** ** Witnesses *)

Definition sample_update2 : sabrContextUpdateDirective :=
  sample_update <| cu_Type := 2 |> <| cu_SendByDefault := false |>.
Definition sample_state1 : sabrContextState := (applyUpdate newSabrContextState sample_update).2.
Definition sample_state : sabrContextState := (applyUpdate sample_state1 sample_update2).2.

Lemma sample_state_reachable : context_reachable sample_state.
Proof.
  apply (reach_step sample_state1 (OpUpdate sample_update2) None); [|by vm_compute].
  apply (reach_step newSabrContextState (OpUpdate sample_update) None); [constructor|by vm_compute].
Qed.

Lemma context_state_invariant_witness : cs_inv sample_state.
Proof. exact (context_state_invariant sample_state sample_state_reachable). Defined.

Lemma applySendingPolicy_effect_witness :
  exists s', applySendingPolicy sample_state (mkSendingPolicy [2; 9] [9] [5]) = (None, s') /\
  cs_active s' = (cs_active sample_state ∪ list_to_set [2; 9]) ∖ list_to_set [9] /\
  forall k, cs_entries s' !! k = if bool_decide (k ∈ [5]) then None else cs_entries sample_state !! k.
Proof.
  eexists. split; [vm_compute; reflexivity|].
  apply (applySendingPolicy_effect sample_state (mkSendingPolicy [2; 9] [9] [5])). vm_compute. reflexivity.
Defined.

Lemma appendToStreamer_deterministic_witness :
  appendToStreamer [5; 2] (Some sample_state) [] = appendToStreamer [2; 5] (Some sample_state) [].
Proof.
  assert (elements (dom (cs_entries sample_state)) ≡ₚ [2; 5]) as Hk by (vm_compute; first [reflexivity|apply perm_swap]).
  rewrite (appendToStreamer_deterministic [5; 2] sample_state [] (ltac:(rewrite Hk; apply perm_swap))).
  by rewrite (appendToStreamer_deterministic [2; 5] sample_state [] (ltac:(rewrite Hk; reflexivity))).
Defined.
