(* ===== verification/Assembler.v ===== *)
(** * The track assembler

    [trackAssembler] of [assembler.go]: it turns the media parts of SABR
    responses into one file, the initialization segment followed by the media
    segments in sequence, and keeps the accounting that requests and
    checkpoints are built from.

    Parameters: [OsFile] is what the engine relies on of [*os.File] (appending
    writes, sync), [Sha256] is [crypto/sha256], and [onCommit] is the callback
    the downloader installs, which may persist something ([W]) and reads but
    does not change the assembler.  [segmentBuilder] pointers live in one map
    only, so updating the map models writing through the pointer. *)
From S2P Require Import Prelude Errors Varint Wire Messages UmpReader.

(** ** Interfaces *)

(** [file.Write(data)] returns the count and the error; the contract of
    [os.File.Write] is that a short count comes with an error, which is one of
    the operating system and no recovery signal of the protocol. *)
Class OsFile (F : Type) := {
  file_Write : F -> bytes -> (Z * option go_error) * F;
  file_Sync : F -> option go_error * F;
  file_data : F -> bytes;
  file_Write_data f data n err f' :
    file_Write f data = (n, err, f') ->
    0 <= n <= zlen data /\ file_data f' = file_data f ++ take (Z.to_nat n) data /\
    (err = None -> n = zlen data);
  file_Write_err f data n e f' : file_Write f data = (n, Some e, f') -> recovery_signal e = false;
  file_Sync_data f err f' : file_Sync f = (err, f') -> file_data f' = file_data f
}.

Class Sha256 := { sha256_Sum256 : bytes -> bytes }.

(** ** State *)

(** The zero value of [segmentDigest], a [[sha256.Size]byte]. *)
Definition zeroDigest : bytes := repeat Byte.x00 32.

Record segmentBuilder := mkSegment {
  seg_header : MediaHeader;
  seg_data : bytes;
  seg_ended : bool;
  seg_selected : bool
}.

#[export] Instance eta_segmentBuilder : Eta segmentBuilder :=
  fun s => mkSegment (seg_header s) (seg_data s) (seg_ended s) (seg_selected s).

Section Assembler.
Context {F W : Type} `{!OsFile F} `{!Sha256}.

(** [asm_world] is what [onCommit] has persisted so far. *)
Record trackAssembler := mkAssembler {
  asm_format : FormatID;
  asm_expectedDurationMs : Z;
  asm_file : option F;
  asm_remaining : Z;
  asm_world : W;
  asm_initWritten : bool;
  asm_initDigest : bytes;
  asm_initLength : Z;
  asm_formatVerified : bool;
  asm_nextSequence : Z;  (* uint64 *)
  asm_hasSequence : bool;
  asm_cumulativeMs : Z;  (* int64 *)
  asm_bufferedRanges : list BufferedRange;
  asm_active : gmap Z segmentBuilder;
  asm_writtenSequences : gmap Z bytes;
  asm_segmentLengths : gmap Z Z;
  asm_totalWritten : Z;
  asm_endOfTrackDone : bool
}.

#[export] Instance eta_trackAssembler : Eta trackAssembler :=
  fun a => mkAssembler (asm_format a) (asm_expectedDurationMs a) (asm_file a) (asm_remaining a)
    (asm_world a) (asm_initWritten a) (asm_initDigest a) (asm_initLength a) (asm_formatVerified a)
    (asm_nextSequence a) (asm_hasSequence a) (asm_cumulativeMs a) (asm_bufferedRanges a)
    (asm_active a) (asm_writtenSequences a) (asm_segmentLengths a) (asm_totalWritten a)
    (asm_endOfTrackDone a).

Definition newTrackAssembler (format : FormatID) (expectedDurationMs : Z) (file : option F)
    (remaining : Z) (world : W) : trackAssembler :=
  mkAssembler format expectedDurationMs file remaining world
    false zeroDigest 0 false 0 false 0 [] ∅ ∅ ∅ 0 false.

Context (onCommit : option (trackAssembler -> option go_error * W)).

(** ** Operations: the error and the assembler they leave *)

Definition isSelectedHeader (a : trackAssembler) (header : MediaHeader) : bool :=
  let itag := headerItag header in
  if itag =? 0 then false else itag =? fmt_Itag (asm_format a).

Definition validateMediaHeader (header : MediaHeader) : option go_error :=
  if hdr_HeaderID header =? 0 then Some ErrInvalidMediaState
  else
    let itag := headerItag header in
    if itag =? 0 then Some ErrInvalidMediaState
    else if itag <? 0 then Some ErrVarintOverflow
    else if hdr_ContentLength header <? 0 then Some ErrVarintOverflow
    else if hdr_DurationMs header <? 0 then Some ErrVarintOverflow
    else None.

Definition mediaHeaderPrefix (payload : bytes) : res (Z * bytes) :=
  '(value, size) ← readUMPVarint payload;
  headerID ← uint32FromUint64 value;
  Ok (headerID, drop size payload).

Definition mediaHeaderOnly (payload : bytes) : res Z :=
  '(value, size) ← readUMPVarint payload;
  if negb (size =? length payload)%nat then Err ErrInvalidMediaState
  else uint32FromUint64 value.

Definition hashSegment (data : bytes) : bytes := sha256_Sum256 data.

(** A write to a nil [*os.File] fails with [os.ErrInvalid]. *)
Definition os_ErrInvalid : go_error := ErrOther 0.

Definition writeBytes (a : trackAssembler) (data : bytes) : option go_error * trackAssembler :=
  if zlen data =? 0 then (None, a)
  else
    match asm_file a with
    | None => (Some os_ErrInvalid, a)
    | Some file =>
        let '(written, err, file) := file_Write file data in
        let a := a <| asm_file := Some file |> in
        match err with
        | Some e => (Some e, a)
        | None =>
            if negb (written =? zlen data) then (Some io_ErrShortWrite, a)
            else (None, a <| asm_totalWritten := asm_totalWritten a + written |>
                          <| asm_remaining := asm_remaining a - written |>)
        end
    end.

Definition run_onCommit (hook : trackAssembler -> option go_error * W) (a : trackAssembler)
  : option go_error * trackAssembler :=
  let '(err, world) := hook a in (err, a <| asm_world := world |>).

Definition commitProgress (a : trackAssembler) : option go_error * trackAssembler :=
  match onCommit with
  | None => (None, a)
  | Some hook =>
      match asm_file a with
      | None => run_onCommit hook a
      | Some file =>
          let '(err, file) := file_Sync file in
          let a := a <| asm_file := Some file |> in
          match err with
          | Some _ => (Some ErrDownloadFailed, a)
          | None => run_onCommit hook a
          end
      end
  end.

Definition consumeFormatInit (a : trackAssembler) (payload : bytes) : option go_error * trackAssembler :=
  match unmarshalFormatInitializationMetadata payload with
  | Err e => (Some e, a)
  | Ok meta =>
      if negb (fmt_Itag (init_FormatID meta) =? fmt_Itag (asm_format a)) then (None, a)
      else
        match formatIdentityConflicts (asm_format a) (init_FormatID meta) with
        | Err e => (Some e, a)
        | Ok _ => (None, a <| asm_formatVerified := true |>)
        end
  end.

(** The sequence check of [consumeHeader]: the error, or the assembler with its
    sequence started. *)
Definition admit_sequence (a : trackAssembler) (header : MediaHeader) : res trackAssembler :=
  if bool_decide (is_Some (asm_writtenSequences a !! hdr_SequenceNumber header)) then Ok a
  else if asm_hasSequence a then
    if negb (hdr_SequenceNumber header =? asm_nextSequence a) then Err ErrInvalidMediaState else Ok a
  else if negb (hdr_SequenceNumber header =? 0) then Err ErrInvalidMediaState
  else Ok (a <| asm_hasSequence := true |> <| asm_nextSequence := 0 |>).

Definition consumeHeader (a : trackAssembler) (payload : bytes) : option go_error * trackAssembler :=
  match unmarshalMediaHeader payload with
  | Err e => (Some e, a)
  | Ok header =>
      match validateMediaHeader header with
      | Some e => (Some e, a)
      | None =>
          if bool_decide (is_Some (asm_active a !! hdr_HeaderID header)) then (Some ErrInvalidMediaState, a)
          else
            let selected := isSelectedHeader a header in
            match (if selected then formatIdentityConflicts (asm_format a) (headerRepresentationID header) else Ok tt) with
            | Err e => (Some e, a)
            | Ok _ =>
                if Z.of_nat (size (asm_active a)) >=? MaxActiveHeaders then (Some ErrTooManyActiveHeaders, a)
                else
                  match (if selected && negb (hdr_IsInitSeg header) then admit_sequence a header else Ok a) with
                  | Err e => (Some e, a)
                  | Ok a =>
                      (None, a <| asm_active :=
                                <[hdr_HeaderID header := mkSegment header [] false selected]> (asm_active a) |>)
                  end
            end
      end
  end.

Definition consumeMedia (a : trackAssembler) (payload : bytes) : option go_error * trackAssembler :=
  match mediaHeaderPrefix payload with
  | Err e => (Some e, a)
  | Ok (headerID, rest) =>
      match asm_active a !! headerID with
      | None => (Some ErrInvalidMediaState, a)
      | Some segment =>
          if seg_ended segment then (Some ErrInvalidMediaState, a)
          else if zlen (seg_data segment) + zlen rest >? MaxMediaBytes then (Some ErrOversizedPart, a)
          else (None, a <| asm_active :=
                        <[headerID := segment <| seg_data := seg_data segment ++ rest |>]> (asm_active a) |>)
      end
  end.

(** [finalizeSegment] from the init-segment branch on. *)
Definition finalizeInit (a : trackAssembler) (headerID : Z) (data digest : bytes)
  : option go_error * trackAssembler :=
  if asm_initWritten a then
    if bool_decide (digest = asm_initDigest a) && (zlen data =? asm_initLength a)
    then (None, a <| asm_active := delete headerID (asm_active a) |>)
    else (Some ErrInvalidMediaState, a)
  else if asm_remaining a <? zlen data then (Some ErrResponseTooLarge, a)
  else
    match writeBytes a data with
    | (Some e, a) => (Some e, a)
    | (None, a) =>
        commitProgress (a <| asm_initWritten := true |> <| asm_initDigest := digest |>
                          <| asm_initLength := zlen data |>
                          <| asm_active := delete headerID (asm_active a) |>)
    end.

(** The assembler once segment [header] has been written. *)
Definition record_segment (a : trackAssembler) (headerID : Z) (header : MediaHeader) (data digest : bytes)
    (startSegmentIndex : Z) : trackAssembler :=
  let duration := effectiveDurationMs header in
  let a := a <| asm_cumulativeMs := i64 (asm_cumulativeMs a + duration) |> in
  let a := a <| asm_bufferedRanges := asm_bufferedRanges a ++
    [mkBufferedRange (asm_format a) (i64 (asm_cumulativeMs a - duration)) duration
       startSegmentIndex startSegmentIndex (hdr_TimeRange header)] |> in
  a <| asm_writtenSequences := <[hdr_SequenceNumber header := digest]> (asm_writtenSequences a) |>
    <| asm_segmentLengths := <[hdr_SequenceNumber header := zlen data]> (asm_segmentLengths a) |>
    <| asm_nextSequence := u64 (hdr_SequenceNumber header + 1) |>
    <| asm_hasSequence := true |>
    <| asm_active := delete headerID (asm_active a) |>.

(** [finalizeSegment] from the replay check on. *)
Definition finalizeMedia (a : trackAssembler) (headerID : Z) (header : MediaHeader) (data digest : bytes)
  : option go_error * trackAssembler :=
  match asm_writtenSequences a !! hdr_SequenceNumber header with
  | Some prior =>
      if negb (bool_decide (prior = digest)) then (Some ErrInvalidMediaState, a)
      else (None, a <| asm_active := delete headerID (asm_active a) |>)
  | None =>
      if asm_remaining a <? zlen data then (Some ErrResponseTooLarge, a)
      else if negb (asm_initWritten a) then (Some ErrInvalidMediaState, a)
      else
        match writeBytes a data with
        | (Some e, a) => (Some e, a)
        | (None, a) =>
            match int32SegmentIndex (hdr_SequenceNumber header) with
            | Err e => (Some e, a)
            | Ok startSegmentIndex =>
                commitProgress (record_segment a headerID header data digest startSegmentIndex)
            end
        end
  end.

Definition finalizeSegment (a : trackAssembler) (payload : bytes) : option go_error * trackAssembler :=
  match mediaHeaderOnly payload with
  | Err e => (Some e, a)
  | Ok headerID =>
      match asm_active a !! headerID with
      | None => (Some ErrInvalidMediaState, a)
      | Some segment =>
          if seg_ended segment then (Some ErrInvalidMediaState, a)
          else
            let a := a <| asm_active := <[headerID := segment <| seg_ended := true |>]> (asm_active a) |> in
            let header := seg_header segment in
            let data := seg_data segment in
            if (hdr_ContentLength header >? 0) && negb (zlen data =? hdr_ContentLength header)
            then (Some ErrInvalidMediaState, a)
            else if negb (seg_selected segment)
            then (None, a <| asm_active := delete headerID (asm_active a) |>)
            else if negb (asm_formatVerified a) then (Some ErrInvalidMediaState, a)
            else if negb (hdr_IsInitSeg header) && (effectiveDurationMs header <=? 0)
            then (Some ErrInvalidMediaState, a)
            else
              let digest := hashSegment data in
              if hdr_IsInitSeg header then finalizeInit a headerID data digest
              else finalizeMedia a headerID header data digest
      end
  end.

Definition trackAssembler_consumePart (a : trackAssembler) (part : Part) : option go_error * trackAssembler :=
  if isCriticalUnsupportedPart (part_Type part) then (Some ErrUnsupportedDirective, a)
  else if negb (isHandledPart (part_Type part)) then (Some ErrUnsupportedDirective, a)
  else if part_Type part =? PartFormatInitializationMetadata then consumeFormatInit a (part_Payload part)
  else if part_Type part =? PartMediaHeader then consumeHeader a (part_Payload part)
  else if part_Type part =? PartMedia then consumeMedia a (part_Payload part)
  else if part_Type part =? PartMediaEnd then finalizeSegment a (part_Payload part)
  else (None, a).

Definition finishResponse (a : trackAssembler) : option go_error :=
  if (0 <? size (asm_active a))%nat then Some ErrTruncatedStream else None.

Definition trackComplete (a : trackAssembler) : bool :=
  if asm_endOfTrackDone a then true
  else if asm_expectedDurationMs a <=? 0 then false
  else asm_initWritten a && (0 <? size (asm_writtenSequences a))%nat &&
       (asm_cumulativeMs a >=? asm_expectedDurationMs a).

Definition canCompleteByEndOfTrack (a : trackAssembler) : bool :=
  asm_formatVerified a && asm_initWritten a && (0 <? size (asm_writtenSequences a))%nat.

Definition applyEndOfTrackCompletion (a : trackAssembler) : option go_error * trackAssembler :=
  if negb (canCompleteByEndOfTrack a) then (Some ErrInvalidMediaState, a)
  else commitProgress (a <| asm_endOfTrackDone := true |>).

(** Player time, acknowledged ranges, and whether the format is selected. *)
Definition playbackState (a : trackAssembler) : Z * list BufferedRange * bool :=
  (asm_cumulativeMs a, asm_bufferedRanges a, asm_formatVerified a).

(** Parts consumed one after the other, up to the first error. *)
Fixpoint consume_parts (a : trackAssembler) (parts : list Part) : option go_error * trackAssembler :=
  match parts with
  | [] => (None, a)
  | part :: parts =>
      match trackAssembler_consumePart a part with
      | (Some e, a) => (Some e, a)
      | (None, a) => consume_parts a parts
      end
  end.

End Assembler.
Arguments trackAssembler : clear implicits.

(** ** Invariant *)

(** The buffered ranges of consecutive segments, from segment [i] at time [t]
    on, and the time they end at. *)
Inductive range_chain (format : FormatID) : Z -> Z -> list BufferedRange -> Z -> Prop :=
| chain_nil i t : range_chain format i t [] t
| chain_cons i t r ranges t' :
    br_FormatID r = format -> br_StartTimeMs r = t -> 0 < br_DurationMs r ->
    br_StartSegmentIndex r = i -> br_EndSegmentIndex r = i ->
    range_chain format (i + 1) (i64 (t + br_DurationMs r)) ranges t' ->
    range_chain format i t (r :: ranges) t'.

Definition seg_lookup {A} (segs : list A) (k : Z) : option A :=
  if k <? 0 then None else segs !! Z.to_nat k.

Section Invariant.
Context {F W : Type} `{!OsFile F} `{!Sha256}.
Implicit Types a : trackAssembler F W.

Definition asm_contents a : bytes := match asm_file a with Some f => file_data f | None => [] end.

(** [a] has written [init] and then the segments [segs], and accounts for
    exactly them. *)
Record progress (maxBytes : Z) a (init : bytes) (segs : list bytes) : Prop := {
  pr_file : asm_contents a = init ++ concat segs;
  pr_init : if asm_initWritten a
            then asm_initDigest a = hashSegment init /\ asm_initLength a = zlen init
            else init = [] /\ segs = [];
  pr_written k : asm_writtenSequences a !! k = hashSegment <$> seg_lookup segs k;
  pr_lengths k : asm_segmentLengths a !! k = zlen <$> seg_lookup segs k;
  pr_next : asm_nextSequence a = zlen segs;
  pr_has : asm_hasSequence a = false -> segs = [];
  pr_total : asm_totalWritten a = zlen (asm_contents a);
  pr_budget : asm_remaining a + asm_totalWritten a = maxBytes /\ 0 <= asm_remaining a;
  pr_ranges : range_chain (asm_format a) 0 0 (asm_bufferedRanges a) (asm_cumulativeMs a);
  pr_ranges_length : length (asm_bufferedRanges a) = length segs;
  pr_index : zlen segs <= MaxInt32 + 1;
  pr_time : is_i64 (asm_cumulativeMs a) /\ Forall (fun r => is_i64 (br_DurationMs r)) (asm_bufferedRanges a)
}.

Definition segment_ok (format : FormatID) (next : Z) (id : Z) (segment : segmentBuilder) : Prop :=
  (hdr_HeaderID (seg_header segment) = id /\ is_i64 (hdr_DurationMs (seg_header segment))) /\
  zlen (seg_data segment) <= MaxMediaBytes /\
  (seg_selected segment = true -> headerItag (seg_header segment) = fmt_Itag format) /\
  (seg_selected segment = true -> hdr_IsInitSeg (seg_header segment) = false ->
   0 <= hdr_SequenceNumber (seg_header segment) <= next).

Record active_ok a : Prop := {
  act_size : Z.of_nat (size (asm_active a)) <= MaxActiveHeaders;
  act_segments : map_Forall (segment_ok (asm_format a) (asm_nextSequence a)) (asm_active a)
}.

Definition asm_inv (maxBytes : Z) a : Prop :=
  active_ok a /\ exists init segs, progress maxBytes a init segs.

(** The fields [progress] is about agree. *)
Definition same_progress a a' : Prop :=
  asm_format a' = asm_format a /\ asm_contents a' = asm_contents a /\
  asm_remaining a' = asm_remaining a /\ asm_initWritten a' = asm_initWritten a /\
  asm_initDigest a' = asm_initDigest a /\ asm_initLength a' = asm_initLength a /\
  asm_nextSequence a' = asm_nextSequence a /\ (asm_hasSequence a' = false -> asm_hasSequence a = false) /\
  asm_cumulativeMs a' = asm_cumulativeMs a /\ asm_bufferedRanges a' = asm_bufferedRanges a /\
  asm_writtenSequences a' = asm_writtenSequences a /\ asm_segmentLengths a' = asm_segmentLengths a /\
  asm_totalWritten a' = asm_totalWritten a.

(** A failed write: the accounting is unchanged and the file has only grown. *)
Definition torn a a' : Prop :=
  asm_initWritten a' = asm_initWritten a /\ asm_initDigest a' = asm_initDigest a /\
  asm_initLength a' = asm_initLength a /\ asm_nextSequence a' = asm_nextSequence a /\
  asm_cumulativeMs a' = asm_cumulativeMs a /\ asm_bufferedRanges a' = asm_bufferedRanges a /\
  asm_writtenSequences a' = asm_writtenSequences a /\ asm_segmentLengths a' = asm_segmentLengths a /\
  exists extra, asm_contents a' = asm_contents a ++ extra.

(** ** Lemmas *)

(** [same_progress] of a record update of fields it does not name. *)
Ltac same_fields := unfold same_progress, asm_contents; simpl; auto 20.

Lemma progress_same maxBytes a a' init segs :
  same_progress a a' -> progress maxBytes a init segs -> progress maxBytes a' init segs.
Proof.
  intros (E1 & E2 & E3 & E4 & E5 & E6 & E7 & E8 & E9 & E10 & E11 & E12 & E13) [].
  split; rewrite ?E1, ?E2, ?E3, ?E4, ?E5, ?E6, ?E7, ?E9, ?E10, ?E11, ?E12, ?E13; auto.
Qed.

Lemma active_insert a id segment :
  active_ok a -> is_Some (asm_active a !! id) -> segment_ok (asm_format a) (asm_nextSequence a) id segment ->
  active_ok (a <| asm_active := <[id := segment]> (asm_active a) |>).
Proof.
  intros [Hs Ha] Hin Hseg. split; simpl.
  - by rewrite map_size_insert_Some.
  - by apply map_Forall_insert_2.
Qed.

Lemma active_delete a id :
  active_ok a -> active_ok (a <| asm_active := delete id (asm_active a) |>).
Proof.
  intros [Hs Ha]. split; simpl; [|by apply map_Forall_delete].
  rewrite map_size_delete. destruct (asm_active a !! id); simpl; lia.
Qed.

Lemma i64_range z : is_i64 (i64 z).
Proof. pose proof (wraps_range 64 z ltac:(lia)). unfold is_i64, i64, MinInt64, MaxInt64. simpl Z.sub in *. lia. Qed.

(** Durations fit their fields. *)
Lemma unmarshalMediaHeader_duration payload header :
  unmarshalMediaHeader payload = Ok header -> is_i64 (hdr_DurationMs header).
Proof.
  apply (scan_message_post _ (fun h => is_i64 (hdr_DurationMs h)) (fun r => r = Ok header -> is_i64 (hdr_DurationMs header))).
  - by vm_compute.
  - intros h num wt rd Hh. unfold unmarshalMediaHeader_body, read_converted, int64FromUint64.
    repeat (case_match; simplify_eq/=); try done; apply i64_range.
  - by intros h Hh [= <-].
  - done.
Qed.

Lemma effectiveDurationMs_i64 header : is_i64 (hdr_DurationMs header) -> is_i64 (effectiveDurationMs header).
Proof.
  intros Hh. assert (is_i64 0) by by vm_compute. unfold effectiveDurationMs, ceilMillisFromTicks, mulInt64, addInt64.
  repeat (case_match; simplify_eq/=); try done; apply i64_range.
Qed.

Lemma i64_back t d : is_i64 t -> i64 (i64 (t + d) - d) = t.
Proof.
  intros Ht. assert (exists k, i64 (t + d) = t + d + k * 2 ^ 64) as [k ->].
  { unfold i64, wraps. exists (- ((t + d + 2 ^ (64 - 1)) / 2 ^ 64)).
    pose proof (Z.div_mod (t + d + 2 ^ (64 - 1)) (2 ^ 64) ltac:(lia)). lia. }
  rewrite <- (i64_small t Ht) at 2. unfold i64, wraps. f_equal.
  replace (t + d + k * 2 ^ 64 - d + 2 ^ (64 - 1)) with (t + 2 ^ (64 - 1) + k * 2 ^ 64) by lia.
  apply Z_mod_plus_full.
Qed.

Lemma range_chain_snoc format i t ranges t' r :
  range_chain format i t ranges t' ->
  br_FormatID r = format -> br_StartTimeMs r = t' -> 0 < br_DurationMs r ->
  br_StartSegmentIndex r = i + zlen ranges -> br_EndSegmentIndex r = i + zlen ranges ->
  range_chain format i t (ranges ++ [r]) (i64 (t' + br_DurationMs r)).
Proof.
  intros Hch Hf. induction Hch as [i t|i t r0 ranges t' H1 H2 H3 H4 H5 _ IH]; intros Hs Hd Hi He; simpl.
  - unfold zlen in *. simpl in *. rewrite <- Hs in *. constructor; try done; try lia. rewrite Hs. constructor.
  - constructor; try done. apply IH; try done; unfold zlen in *; simpl in *; lia.
Qed.

Lemma seg_lookup_snoc {A} (segs : list A) s k :
  seg_lookup (segs ++ [s]) k = if decide (k = zlen segs) then Some s else seg_lookup segs k.
Proof.
  unfold seg_lookup, zlen. destruct (Z.ltb_spec k 0); case_decide; try lia; subst; try done.
  - rewrite Nat2Z.id. by rewrite lookup_app_r, Nat.sub_diag by lia.
  - destruct (decide (Z.to_nat k < length segs)%nat).
    + by rewrite lookup_app_l by lia.
    + rewrite !lookup_ge_None_2 by (rewrite ?length_app; simpl; lia). done.
Qed.

Lemma seg_lookup_range {A} (segs : list A) k : is_Some (seg_lookup segs k) <-> 0 <= k < zlen segs.
Proof.
  unfold seg_lookup, zlen. destruct (Z.ltb_spec k 0); [split; [by intros []|lia]|].
  rewrite lookup_lt_is_Some. lia.
Qed.

(** A write appends all of [data] and moves the budget, or fails torn. *)
Lemma writeBytes_spec a data :
  match writeBytes a data with
  | (None, a') => exists file', a' = a <| asm_file := file' |>
        <| asm_totalWritten := asm_totalWritten a + zlen data |>
        <| asm_remaining := asm_remaining a - zlen data |> /\
      asm_contents a' = asm_contents a ++ data
  | (Some e, a') => recovery_signal e = false /\ exists file', a' = a <| asm_file := file' |> /\ torn a a'
  end.
Proof.
  unfold writeBytes. destruct (Z.eqb_spec (zlen data) 0) as [Hz|Hz].
  { exists (asm_file a). rewrite Hz. apply zlen_0_nil in Hz as ->. destruct a; simpl.
    split; [f_equal; lia|by rewrite app_nil_r]. }
  unfold torn, asm_contents. destruct (asm_file a) as [file|] eqn:Ef.
  2: { split; [done|]. exists None. split; [destruct a; simpl in *; by subst|]. rewrite Ef. split_and!; try done. by exists []. }
  destruct (file_Write file data) as [[n err] file'] eqn:Ew.
  pose proof (file_Write_data _ _ _ _ _ Ew) as (Hn & Hd & Hok). simpl.
  destruct err as [e|].
  { split; [by eapply file_Write_err|]. exists (Some file'). split; [done|]. simpl. split_and!; try done. eauto. }
  specialize (Hok eq_refl) as ->. rewrite Z.eqb_refl. simpl. exists (Some file'). split; [done|].
  rewrite Hd. unfold zlen. by rewrite Nat2Z.id, take_ge by lia.
Qed.

Lemma commitProgress_spec onCommit a :
  let '(err, a') := commitProgress onCommit a in
  same_progress a a' /\ asm_active a' = asm_active a.
Proof.
  unfold commitProgress, run_onCommit, same_progress, asm_contents.
  destruct onCommit as [hook|]; [|by auto 20].
  destruct (asm_file a) as [file|] eqn:Ef.
  - destruct (file_Sync file) as [err file'] eqn:Es. apply file_Sync_data in Es.
    destruct err; [simpl; rewrite Es; by auto 20|]. destruct (hook _). simpl. rewrite Es. by auto 20.
  - destruct (hook a). simpl. rewrite Ef. by auto 20.
Qed.

Lemma active_ok_same a a' :
  asm_active a' = asm_active a -> asm_format a' = asm_format a -> asm_nextSequence a' = asm_nextSequence a ->
  active_ok a -> active_ok a'.
Proof. intros E1 E2 E3 []. split; by rewrite ?E1, ?E2, ?E3. Qed.

Lemma asm_inv_same maxBytes a a' :
  same_progress a a' -> active_ok a' -> asm_inv maxBytes a -> asm_inv maxBytes a'.
Proof. intros Hs Ha [_ (init & segs & Hp)]. split; [done|]. exists init, segs. by eapply progress_same. Qed.

Lemma commitProgress_inv onCommit maxBytes a :
  asm_inv maxBytes a -> asm_inv maxBytes (commitProgress onCommit a).2.
Proof.
  intros Hi. pose proof (commitProgress_spec onCommit a) as Hc.
  destruct (commitProgress onCommit a) as [err a']. destruct Hc as [Hs Ha]. simpl.
  apply (asm_inv_same _ a); [done| |done]. destruct Hi as [Hact _].
  apply (active_ok_same a); [done|apply Hs..|done].
Qed.

(** What an operation may leave: the invariant, or a torn write it reports. *)
Definition step_post (maxBytes : Z) a (out : option go_error * trackAssembler F W) : Prop :=
  asm_inv maxBytes out.2 \/ (fatal out.1 /\ torn a out.2).

Lemma step_post_fail maxBytes a e : asm_inv maxBytes a -> step_post maxBytes a (Some e, a).
Proof. by left. Qed.

Lemma consumeFormatInit_post maxBytes a payload :
  asm_inv maxBytes a -> step_post maxBytes a (consumeFormatInit a payload).
Proof.
  intros Hi. unfold consumeFormatInit. repeat case_match; try by left. left. simpl.
  apply (asm_inv_same _ a); [by same_fields| |done].
  apply (active_ok_same a); try done. apply Hi.
Qed.

(** [admit_sequence] admits replays and the next segment only. *)
Lemma admit_sequence_spec maxBytes a init segs header a' :
  progress maxBytes a init segs -> admit_sequence a header = Ok a' ->
  same_progress a a' /\ asm_active a' = asm_active a /\
  0 <= hdr_SequenceNumber header <= asm_nextSequence a.
Proof.
  intros Hp. unfold admit_sequence. case_bool_decide as Hw.
  { intros [= <-]. split_and!; [by same_fields|done|..];
      rewrite (pr_written _ _ _ _ Hp), fmap_is_Some, seg_lookup_range in Hw; pose proof (pr_next _ _ _ _ Hp); lia. }
  destruct (asm_hasSequence a) eqn:Eh.
  - destruct (Z.eqb_spec (hdr_SequenceNumber header) (asm_nextSequence a)) as [->|]; [|done].
    intros [= <-]. split_and!; [by same_fields|done|..]; pose proof (pr_next _ _ _ _ Hp);
      pose proof (zlen_nonneg segs); lia.
  - destruct (Z.eqb_spec (hdr_SequenceNumber header) 0) as [Hz|]; [|done]. intros [= <-].
    pose proof (pr_next _ _ _ _ Hp) as Hn. rewrite (pr_has _ _ _ _ Hp Eh) in Hn. change (zlen []) with 0 in Hn.
    unfold same_progress. simpl. split_and!; auto; lia.
Qed.

Lemma consumeHeader_post maxBytes a payload :
  asm_inv maxBytes a -> step_post maxBytes a (consumeHeader a payload).
Proof.
  intros Hi. unfold consumeHeader. destruct (unmarshalMediaHeader payload) as [header|] eqn:Eu; [|by left].
  destruct (validateMediaHeader header); [by left|]. case_bool_decide as Hdup; [by left|]. cbv zeta.
  set (selected := isSelectedHeader a header).
  destruct (if selected then _ else Ok tt) as [[]|] eqn:Ec; [|by left].
  destruct (Z.geb_spec (Z.of_nat (size (asm_active a))) MaxActiveHeaders) as [Hmax|Hmax]; [by left|].
  destruct (if selected && _ then _ else Ok a) as [a1|] eqn:Ead; [|by left]. left. simpl.
  pose proof Hi as [[Hsz Hsegs] (init & segs & Hp)].
  assert (same_progress a a1 /\ asm_active a1 = asm_active a /\
    (selected = true -> hdr_IsInitSeg header = false -> 0 <= hdr_SequenceNumber header <= asm_nextSequence a))
    as (Hs & Ha & Hseq).
  { destruct selected, (hdr_IsInitSeg header); simpl in Ead;
      try (simplify_eq; split_and!; [by same_fields|done..]).
    destruct (admit_sequence_spec _ _ _ _ _ _ Hp Ead) as (? & ? & ?). auto. }
  apply (asm_inv_same _ a); [by unfold same_progress in *; simpl| |done].
  destruct Hs as (Hf & _ & _ & _ & _ & _ & Hn & _). split; simpl; rewrite Ha.
  - rewrite map_size_insert_None by (by apply eq_None_not_Some). lia.
  - rewrite Hf, Hn. apply map_Forall_insert_2; [|done]. unfold segment_ok; simpl.
    split_and!; [done|by eapply unmarshalMediaHeader_duration|by vm_compute| |done]. intros Hsel. unfold selected, isSelectedHeader in Hsel. case_match; [done|].
    by apply Z.eqb_eq.
Qed.

Lemma consumeMedia_post maxBytes a payload :
  asm_inv maxBytes a -> step_post maxBytes a (consumeMedia a payload).
Proof.
  intros Hi. unfold consumeMedia. destruct (mediaHeaderPrefix payload) as [[id rest]|]; [|by left].
  destruct (asm_active a !! id) as [segment|] eqn:Ea; [|by left]. destruct (seg_ended segment); [by left|].
  destruct (Z.gtb_spec (zlen (seg_data segment) + zlen rest) MaxMediaBytes); [by left|]. left. simpl.
  pose proof Hi as [Hact _]. apply (asm_inv_same _ a); [by same_fields| |done].
  apply active_insert; [done|by rewrite Ea|].
  destruct (act_segments _ Hact _ _ Ea) as (H1 & H2 & H3 & H4). unfold segment_ok; simpl.
  rewrite zlen_app. auto.
Qed.

Lemma torn_trans a1 a2 a3 : same_progress a1 a2 -> torn a2 a3 -> torn a1 a3.
Proof.
  intros (E1 & E2 & E3 & E4 & E5 & E6 & E7 & E8 & E9 & E10 & E11 & E12 & E13)
    (T1 & T2 & T3 & T4 & T5 & T6 & T7 & T8 & extra & T9).
  unfold torn. rewrite T1, T2, T3, T4, T5, T6, T7, T8, T9. split_and!; try done. rewrite E2. eauto.
Qed.

(** The initialization segment is written first, so the file is just it: what
    is committed then satisfies the invariant. *)
Definition init_committed a (id : Z) (data : bytes) : trackAssembler F W :=
  a <| asm_initWritten := true |> <| asm_initDigest := hashSegment data |> <| asm_initLength := zlen data |>
    <| asm_active := delete id (asm_active a) |>.

Lemma init_committed_inv maxBytes a a1 id data :
  asm_inv maxBytes a -> asm_initWritten a = false -> zlen data <= asm_remaining a -> writeBytes a data = (None, a1) ->
  asm_inv maxBytes (init_committed a1 id data).
Proof.
  intros [Hact (init & segs & Hp)] Ei Hr Hw. pose proof (writeBytes_spec a data) as Hs. rewrite Hw in Hs.
  destruct Hs as (file' & -> & Hc). pose proof (pr_init _ _ _ _ Hp) as Hpi. rewrite Ei in Hpi. destruct Hpi as [-> ->].
  pose proof (pr_file _ _ _ _ Hp) as Hf. unfold init_committed, asm_contents in *. simpl in *. rewrite Hf in Hc.
  split; [apply (active_ok_same (a <| asm_active := delete id (asm_active a) |>)); [done..|by apply active_delete]|].
  exists data, []. destruct Hp. unfold asm_contents in *. split; unfold asm_contents; simpl; rewrite ?app_nil_r; try done.
  - rewrite Hc, pr_total0, Hf. done.
  - lia.
Qed.

Lemma finalizeInit_post onCommit maxBytes a id data :
  asm_inv maxBytes a -> step_post maxBytes a (finalizeInit onCommit a id data (hashSegment data)).
Proof.
  intros Hi. unfold finalizeInit. destruct (asm_initWritten a) eqn:Ei.
  { destruct (_ && _); [|by left]. left. simpl. apply (asm_inv_same _ a); [by same_fields|by apply active_delete, Hi|done]. }
  destruct (Z.ltb_spec (asm_remaining a) (zlen data)); [by left|].
  pose proof (writeBytes_spec a data) as Hw. destruct (writeBytes a data) as [[e|] a1] eqn:Ew.
  { destruct Hw as (He & _ & _ & Ht). right. split; [by exists e|done]. }
  left. apply commitProgress_inv. by apply (init_committed_inv maxBytes a).
Qed.

(** The file and the accounting after one more segment. *)
Lemma record_segment_progress maxBytes a init segs file' id header data :
  progress maxBytes a init segs -> asm_initWritten a = true ->
  hdr_SequenceNumber header = zlen segs -> zlen segs <= MaxInt32 ->
  0 < effectiveDurationMs header -> is_i64 (hdr_DurationMs header) -> zlen data <= asm_remaining a ->
  let a1 := a <| asm_file := file' |> <| asm_totalWritten := asm_totalWritten a + zlen data |>
              <| asm_remaining := asm_remaining a - zlen data |> in
  asm_contents a1 = asm_contents a ++ data ->
  progress maxBytes (record_segment a1 id header data (hashSegment data) (zlen segs)) init (segs ++ [data]).
Proof.
  intros [Pf Pi Pw Pl Pn Ph Pt Pb Pr Prl Pix [Ptm Ptd]] Hi Hseq Hmax Hd Hdt Hrem a1 Hc. pose proof (zlen_nonneg segs).
  unfold record_segment, asm_contents in *. simpl in *. split; unfold asm_contents; simpl.
  - by rewrite Hc, Pf, concat_app, app_assoc; simpl; rewrite app_nil_r.
  - by rewrite Hi in Pi |- *.
  - intros k. rewrite Hseq, seg_lookup_snoc. case_decide as Hk.
    + subst k. by rewrite lookup_insert_eq.
    + by rewrite lookup_insert_ne.
  - intros k. rewrite Hseq, seg_lookup_snoc. case_decide as Hk.
    + subst k. by rewrite lookup_insert_eq.
    + by rewrite lookup_insert_ne.
  - rewrite Hseq, zlen_app, u64_small by width_lia. done.
  - done.
  - by rewrite Hc, zlen_app, Pt.
  - lia.
  - rewrite i64_back by done. apply (range_chain_snoc _ 0 0 _ (asm_cumulativeMs a)
      (mkBufferedRange (asm_format a) (asm_cumulativeMs a) (effectiveDurationMs header) (zlen segs) (zlen segs) (hdr_TimeRange header)));
      simpl; try done; unfold zlen; by rewrite Prl.
  - rewrite !length_app. simpl. lia.
  - rewrite zlen_app. change (zlen [data]) with 1. lia.
  - split; [apply i64_range|]. apply Forall_app. split; [done|]. constructor; [|done]. by apply effectiveDurationMs_i64.
Qed.

(** A new segment is the next one. *)
Lemma new_segment_next maxBytes a init segs header :
  progress maxBytes a init segs -> 0 <= hdr_SequenceNumber header <= asm_nextSequence a ->
  asm_writtenSequences a !! hdr_SequenceNumber header = None -> hdr_SequenceNumber header = zlen segs.
Proof.
  intros Hp Hseq Ew. rewrite (pr_written _ _ _ _ Hp), fmap_None in Ew. rewrite (pr_next _ _ _ _ Hp) in Hseq.
  destruct (decide (hdr_SequenceNumber header < zlen segs)); [|lia].
  assert (is_Some (seg_lookup segs (hdr_SequenceNumber header))) as [? ?] by (apply seg_lookup_range; lia). congruence.
Qed.

Lemma segment_committed_inv maxBytes a a1 id header data index :
  asm_inv maxBytes a -> 0 <= hdr_SequenceNumber header <= asm_nextSequence a -> 0 < effectiveDurationMs header -> is_i64 (hdr_DurationMs header) ->
  asm_writtenSequences a !! hdr_SequenceNumber header = None -> zlen data <= asm_remaining a -> asm_initWritten a = true ->
  writeBytes a data = (None, a1) -> int32SegmentIndex (hdr_SequenceNumber header) = Ok index ->
  asm_inv maxBytes (record_segment a1 id header data (hashSegment data) index).
Proof.
  intros [Hact (init & segs & Hp)] Hseq Hd Hdt Ew Hr Ei Hw Hix. pose proof (new_segment_next _ _ _ _ _ Hp Hseq Ew) as Hnext.
  pose proof (writeBytes_spec a data) as Hs. rewrite Hw in Hs. destruct Hs as (file' & -> & Hc).
  unfold int32SegmentIndex in Hix. rewrite Hnext in Hix. destruct (Z.gtb_spec (zlen segs) MaxInt32); [done|].
  pose proof (zlen_nonneg segs). rewrite i32_small in Hix by width_lia. injection Hix as <-. split.
  - pose proof (active_delete a id Hact) as [Hs1 Hs2]. unfold record_segment. split; simpl in *; [done|].
    eapply map_Forall_impl; [exact Hs2|]. intros k seg ([S1 S0] & S2 & S3 & S4). unfold segment_ok. split_and!; auto.
    rewrite Hnext, u64_small by width_lia. pose proof (pr_next _ _ _ _ Hp). intros E1 E2. specialize (S4 E1 E2). lia.
  - exists init, (segs ++ [data]). by apply record_segment_progress.
Qed.

Lemma finalizeMedia_post onCommit maxBytes a id header data :
  asm_inv maxBytes a -> 0 <= hdr_SequenceNumber header <= asm_nextSequence a -> 0 < effectiveDurationMs header -> is_i64 (hdr_DurationMs header) ->
  step_post maxBytes a (finalizeMedia onCommit a id header data (hashSegment data)).
Proof.
  intros Hi Hseq Hd Hdt. unfold finalizeMedia.
  destruct (asm_writtenSequences a !! hdr_SequenceNumber header) as [prior|] eqn:Ew.
  { destruct (negb _); [by left|]. left. simpl. apply (asm_inv_same _ a); [by same_fields|by apply active_delete, Hi|done]. }
  destruct (Z.ltb_spec (asm_remaining a) (zlen data)); [by left|].
  destruct (asm_initWritten a) eqn:Ei; [|by left]. simpl.
  pose proof (writeBytes_spec a data) as Hw. destruct (writeBytes a data) as [[e|] a1] eqn:Ewr.
  { destruct Hw as (He & _ & _ & Ht). right. split; [by exists e|done]. }
  destruct (int32SegmentIndex _) as [index|e] eqn:Eix; [left; apply commitProgress_inv; by eapply segment_committed_inv|].
  destruct Hw as (file' & -> & Hc). right. split.
  - unfold int32SegmentIndex in Eix. destruct (_ >? _); [|done]. injection Eix as <-. by eexists.
  - unfold torn. simpl. split_and!; try done. eauto.
Qed.

Lemma finalizeSegment_post onCommit maxBytes a payload :
  asm_inv maxBytes a -> step_post maxBytes a (finalizeSegment onCommit a payload).
Proof.
  intros Hi. unfold finalizeSegment. destruct (mediaHeaderOnly payload) as [id|]; [|by left].
  destruct (asm_active a !! id) as [segment|] eqn:Ea; [|by left]. destruct (seg_ended segment); [by left|]. cbv zeta.
  pose proof Hi as [Hact _]. pose proof (act_segments _ Hact _ _ Ea) as (S1 & S2 & S3 & S4).
  set (a1 := a <| asm_active := _ |>).
  assert (asm_inv maxBytes a1) as Hi1.
  { apply (asm_inv_same _ a); [by same_fields| |done]. apply active_insert; [done|by rewrite Ea|done]. }
  assert (forall out, step_post maxBytes a1 out -> step_post maxBytes a out) as Hpost.
  { intros out [?|[? ?]]; [by left|right]. split; [done|]. eapply torn_trans; [|done]. by same_fields. }
  destruct (_ && _); [by left|]. destruct (negb (seg_selected segment)) eqn:Es.
  { left. simpl. apply (asm_inv_same _ a1); [by same_fields|by apply (active_delete a1); apply Hi1|done]. }
  reflect_bools. destruct (negb (asm_formatVerified a1)); [by left|].
  destruct (_ && (effectiveDurationMs _ <=? 0)) eqn:Edur; [by left|]. apply Hpost.
  destruct (hdr_IsInitSeg (seg_header segment)) eqn:Einit; [by apply finalizeInit_post|].
  apply finalizeMedia_post; [done|by apply S4| |apply S1]. simpl in Edur. lia.
Qed.

Lemma consumePart_post onCommit maxBytes a part :
  asm_inv maxBytes a -> step_post maxBytes a (trackAssembler_consumePart onCommit a part).
Proof.
  intros Hi. unfold trackAssembler_consumePart.
  repeat (case_match; [by auto using consumeFormatInit_post, consumeHeader_post, consumeMedia_post,
    finalizeSegment_post, step_post_fail|]). by left.
Qed.

End Invariant.

(** ** Delivery of a segment *)

(** The parts of one segment: its header, its bytes in any chunks, its end. *)
Definition media_part (id : Z) (chunk : bytes) : Part := mkPart PartMedia ((encodeUMPVarint id).1 ++ chunk).
Definition end_part (id : Z) : Part := mkPart PartMediaEnd (encodeUMPVarint id).1.
Definition segment_parts (headerPayload : bytes) (id : Z) (chunks : list bytes) : list Part :=
  mkPart PartMediaHeader headerPayload :: map (media_part id) chunks ++ [end_part id].

Record media_segment := mkMediaSegment {
  ms_payload : bytes;
  ms_header : MediaHeader;
  ms_chunks : list bytes
}.
Definition ms_data (s : media_segment) : bytes := concat (ms_chunks s).
Definition ms_parts (s : media_segment) : list Part :=
  segment_parts (ms_payload s) (hdr_HeaderID (ms_header s)) (ms_chunks s).

(** A whole track as a server sends it: format, initialization segment, media. *)
Definition track_parts (formatPayload : bytes) (init : media_segment) (segs : list media_segment) : list Part :=
  mkPart PartFormatInitializationMetadata formatPayload :: ms_parts init ++ (segs ≫= ms_parts).

(** A file that does not fail. *)
Class ReliableFile (F : Type) `{!OsFile F} : Prop := {
  reliable_write f data : exists f', file_Write f data = (zlen data, None, f');
  reliable_sync f : exists f', file_Sync f = (None, f')
}.

Section Delivery.
Context {F W : Type} `{!OsFile F} `{!Sha256}.
Context (onCommit : option (trackAssembler F W -> option go_error * W)).
Implicit Types a : trackAssembler F W.

(** [header] announces a segment of the selected format. *)
Record header_for (format : FormatID) (header : MediaHeader) (total : Z) : Prop := {
  hf_id : 0 < hdr_HeaderID header < 2 ^ 32;
  hf_itag : 0 < headerItag header;
  hf_selected : headerItag header = fmt_Itag format;
  hf_identity : formatIdentityConflicts format (headerRepresentationID header) = Ok tt;
  hf_length : hdr_ContentLength header = 0 \/ hdr_ContentLength header = total;
  hf_duration : 0 <= hdr_DurationMs header;
  hf_bound : 0 <= total <= MaxMediaBytes
}.

Lemma consume_parts_app a ps1 ps2 :
  consume_parts onCommit a (ps1 ++ ps2) =
    match consume_parts onCommit a ps1 with
    | (Some e, a) => (Some e, a)
    | (None, a) => consume_parts onCommit a ps2
    end.
Proof.
  revert a. induction ps1 as [|p ps1 IH]; intros a; simpl; [done|].
  destruct (trackAssembler_consumePart onCommit a p) as [[e|] a1]; [done|apply IH].
Qed.

Lemma mediaHeaderPrefix_encode id rest :
  0 <= id < 2 ^ 32 -> mediaHeaderPrefix ((encodeUMPVarint id).1 ++ rest) = Ok (id, rest).
Proof.
  intros Hid. unfold mediaHeaderPrefix. rewrite readUMPVarint_encode by done. cbn [mbind result_bind].
  unfold uint32FromUint64. assert (id >? MaxUint32 = false) as -> by width_lia. cbn [mbind result_bind].
  rewrite drop_app_exact by (by rewrite length_encodeUMPVarint).
  by rewrite (wrapu_small 32) by lia.
Qed.

Lemma mediaHeaderOnly_encode id :
  0 <= id < 2 ^ 32 -> mediaHeaderOnly (encodeUMPVarint id).1 = Ok id.
Proof.
  intros Hid. unfold mediaHeaderOnly. rewrite <- (app_nil_r (encodeUMPVarint id).1) at 1.
  rewrite readUMPVarint_encode by done. cbn [mbind result_bind].
  rewrite length_encodeUMPVarint, Nat.eqb_refl. simpl.
  unfold uint32FromUint64. assert (id >? MaxUint32 = false) as -> by width_lia.
  by rewrite (wrapu_small 32) by lia.
Qed.

(** Opening a header. *)
Lemma consumeHeader_open a a1 payload header total :
  unmarshalMediaHeader payload = Ok header -> header_for (asm_format a) header total ->
  asm_active a !! hdr_HeaderID header = None -> Z.of_nat (size (asm_active a)) < MaxActiveHeaders ->
  (if hdr_IsInitSeg header then Ok a else admit_sequence a header) = Ok a1 ->
  trackAssembler_consumePart onCommit a (mkPart PartMediaHeader payload) =
    (None, a1 <| asm_active := <[hdr_HeaderID header := mkSegment header [] false true]> (asm_active a1) |>).
Proof.
  intros Hu [H1 H2 H3 H4 H5 H6 H7] Hfree Hsize Hadm. change (trackAssembler_consumePart _ _ _) with (consumeHeader a payload).
  unfold consumeHeader. rewrite Hu. unfold validateMediaHeader.
  assert (hdr_HeaderID header =? 0 = false) as -> by lia. assert (headerItag header =? 0 = false) as Hz by lia. rewrite Hz.
  assert (headerItag header <? 0 = false) as -> by lia. assert (hdr_ContentLength header <? 0 = false) as -> by lia.
  assert (hdr_DurationMs header <? 0 = false) as -> by lia. rewrite bool_decide_false by (rewrite Hfree; by intros []).
  assert (isSelectedHeader a header = true) as -> by (unfold isSelectedHeader; rewrite Hz, H3; apply Z.eqb_refl).
  cbv zeta. rewrite H4. assert (Z.of_nat (size (asm_active a)) >=? MaxActiveHeaders = false) as -> by lia.
  destruct (hdr_IsInitSeg header); simpl in *; [by simplify_eq|]. by rewrite Hadm.
Qed.

(** Receiving its bytes, in any chunks. *)
Lemma consumeMedia_chunks chunks a id segment :
  0 <= id < 2 ^ 32 -> asm_active a !! id = Some segment -> seg_ended segment = false ->
  zlen (seg_data segment) + zlen (concat chunks) <= MaxMediaBytes ->
  consume_parts onCommit a (map (media_part id) chunks) =
    (None, a <| asm_active := <[id := segment <| seg_data := seg_data segment ++ concat chunks |>]> (asm_active a) |>).
Proof.
  intros Hid. revert a segment. induction chunks as [|chunk chunks IH]; intros a segment Ha He Hl.
  { simpl. rewrite app_nil_r. rewrite insert_id; [by destruct a|]. rewrite Ha. by destruct segment. }
  simpl in Hl. rewrite zlen_app in Hl. pose proof (zlen_nonneg (concat chunks)).
  cbn [map consume_parts]. change (trackAssembler_consumePart _ _ _) with (consumeMedia a ((encodeUMPVarint id).1 ++ chunk)).
  unfold consumeMedia. rewrite mediaHeaderPrefix_encode, Ha, He by done.
  assert (zlen (seg_data segment) + zlen chunk >? MaxMediaBytes = false) as -> by lia.
  rewrite (IH _ (segment <| seg_data := seg_data segment ++ chunk |>));
    [|by simpl; rewrite lookup_insert_eq|done|simpl; rewrite zlen_app; lia].
  simpl. by rewrite insert_insert_eq, app_assoc.
Qed.

Lemma outcome_eta (out : option go_error * trackAssembler F W) :
  match out with (Some e, a) => (Some e, a) | (None, a) => (None, a) end = out.
Proof. by destruct out as [[]]. Qed.

(** Up to its end, a segment leaves the assembler with one full builder more. *)
Lemma consume_segment a a1 payload header chunks :
  let id := hdr_HeaderID header in
  let data := concat chunks in
  unmarshalMediaHeader payload = Ok header -> header_for (asm_format a) header (zlen data) ->
  asm_active a !! id = None -> Z.of_nat (size (asm_active a)) < MaxActiveHeaders ->
  (if hdr_IsInitSeg header then Ok a else admit_sequence a header) = Ok a1 ->
  asm_active a1 = asm_active a -> asm_formatVerified a1 = true ->
  (hdr_IsInitSeg header = false -> 0 < effectiveDurationMs header) ->
  let a2 := a1 <| asm_active := <[id := mkSegment header data true true]> (asm_active a) |> in
  consume_parts onCommit a (segment_parts payload id chunks) =
    if hdr_IsInitSeg header then finalizeInit onCommit a2 id data (hashSegment data)
    else finalizeMedia onCommit a2 id header data (hashSegment data).
Proof.
  intros id data Hu Hh Hfree Hsize Hadm Hact Hver Hdur a2. pose proof (hf_id _ _ _ Hh) as Hid.
  unfold segment_parts. cbn [consume_parts]. rewrite (consumeHeader_open a a1 payload header _ Hu Hh Hfree Hsize Hadm), Hact.
  set (a3 := a1 <| asm_active := _ |>).
  assert (asm_active a3 !! id = Some (mkSegment header [] false true)) as Ha3 by (simpl; apply lookup_insert_eq).
  rewrite consume_parts_app, (consumeMedia_chunks chunks a3 id _ ltac:(lia) Ha3 eq_refl)
    by (pose proof (hf_bound _ _ _ Hh); cbn [seg_data]; change (zlen []) with 0; fold data; lia).
  cbn [consume_parts]. set (a4 := a3 <| asm_active := _ |>).
  change (trackAssembler_consumePart _ _ _) with (finalizeSegment onCommit a4 (encodeUMPVarint id).1).
  assert (asm_active a4 !! id = Some (mkSegment header data false true)) as Ha4 by (simpl; apply lookup_insert_eq).
  unfold finalizeSegment. rewrite mediaHeaderOnly_encode, Ha4 by lia. simpl.
  assert ((hdr_ContentLength header >? 0) && negb (zlen data =? hdr_ContentLength header) = false) as ->.
  { pose proof (hf_bound _ _ _ Hh). destruct (hf_length _ _ _ Hh) as [->| ->]; [done|]. by rewrite Z.eqb_refl, andb_false_r. }
  rewrite !insert_insert_eq, Hver. simpl.
  assert (negb (hdr_IsInitSeg header) && (effectiveDurationMs header <=? 0) = false) as ->.
  { destruct (hdr_IsInitSeg header); simpl; [done|]. specialize (Hdur eq_refl). lia. }
  rewrite outcome_eta. subst a2. simpl. rewrite Hver. by destruct (hdr_IsInitSeg header).
Qed.

Section Reliable.
Context `{!ReliableFile F}.
Hypothesis commit_succeeds : forall hook a, onCommit = Some hook -> (hook a).1 = None.

Lemma writeBytes_reliable a data :
  is_Some (asm_file a) ->
  exists file', is_Some file' /\
  writeBytes a data = (None, a <| asm_file := file' |> <| asm_totalWritten := asm_totalWritten a + zlen data |>
        <| asm_remaining := asm_remaining a - zlen data |>).
Proof.
  intros [f Hf]. unfold writeBytes. destruct (Z.eqb_spec (zlen data) 0) as [Hz|Hz].
  { exists (asm_file a). rewrite Hz, Hf. split; [by eexists|]. destruct a; simpl in *; subst. f_equal. f_equal; lia. }
  rewrite Hf. destruct (reliable_write f data) as [f' ->]. rewrite Z.eqb_refl. simpl. eexists (Some f'). eauto.
Qed.

Lemma commitProgress_reliable a :
  is_Some (asm_file a) ->
  exists file' world', is_Some file' /\
  commitProgress onCommit a = (None, a <| asm_file := file' |> <| asm_world := world' |>).
Proof.
  intros [f Hf]. unfold commitProgress. destruct onCommit as [hook|] eqn:Eh.
  - rewrite Hf. destruct (reliable_sync f) as [f' ->]. unfold run_onCommit.
    pose proof (commit_succeeds hook (a <| asm_file := Some f' |>) eq_refl) as Hc.
    destruct (hook _) as [err w]. simpl in Hc. subst err. eexists (Some f'), w. eauto.
  - exists (asm_file a), (asm_world a). rewrite Hf. split; [by eexists|]. destruct a; simpl in *. by subst.
Qed.

(** [a] is between segments, with [init] and [segs] written. *)
Record ready (maxBytes : Z) a (init : bytes) (segs : list bytes) : Prop := {
  rdy_progress : progress maxBytes a init segs;
  rdy_init : asm_initWritten a = true;
  rdy_verified : asm_formatVerified a = true;
  rdy_file : is_Some (asm_file a);
  rdy_active : asm_active a = ∅
}.

Lemma ready_commit maxBytes a init segs :
  ready maxBytes a init segs ->
  exists a', commitProgress onCommit a = (None, a') /\ ready maxBytes a' init segs /\ asm_format a' = asm_format a.
Proof.
  intros [Hp H1 H2 H3 H4]. destruct (commitProgress_reliable a H3) as (file' & w & Hf & Hc).
  pose proof (commitProgress_spec onCommit a) as Hs. rewrite Hc in *. destruct Hs as [Hs Ha].
  eexists. split; [done|]. split; [|done]. split; try done. by eapply progress_same.
Qed.

Ltac ready_after init segs :=
  match goal with
  | |- exists a', commitProgress _ ?x = _ /\ ready ?m _ _ _ /\ _ =>
      destruct (ready_commit m x init segs) as (a' & ? & ? & ?); [|by exists a']
  end.

Lemma deliver_init maxBytes a payload header chunks :
  let data := concat chunks in
  progress maxBytes a [] [] -> asm_initWritten a = false -> asm_formatVerified a = true ->
  is_Some (asm_file a) -> asm_active a = ∅ ->
  unmarshalMediaHeader payload = Ok header -> hdr_IsInitSeg header = true ->
  header_for (asm_format a) header (zlen data) -> zlen data <= maxBytes ->
  exists a', consume_parts onCommit a (segment_parts payload (hdr_HeaderID header) chunks) = (None, a') /\
    ready maxBytes a' data [] /\ asm_format a' = asm_format a.
Proof.
  intros data Hp Hi Hv Hfile Hact Hu Hinit Hh Hl.
  rewrite (consume_segment a a payload header chunks); rewrite ?Hact, ?Hinit; try done.
  fold data. set (a2 := a <| asm_active := _ |>). unfold finalizeInit.
  change (asm_initWritten a2) with (asm_initWritten a). rewrite Hi.
  change (asm_remaining a2) with (asm_remaining a).
  destruct Hp as [Pf Pi Pw Pl Pn Ph Pt Pb Pr Prl Pix Ptm]. rewrite Pf in Pt. change (zlen ([] ++ concat [])) with 0 in Pt.
  assert (asm_remaining a <? zlen data = false) as -> by lia.
  destruct (writeBytes_reliable a2 data Hfile) as (file' & Hf' & Hw). pose proof (writeBytes_spec a2 data) as Hws.
  rewrite Hw in Hws |- *. destruct Hws as (_ & _ & Hc). 
  ready_after data (@nil bytes). split; simpl; try done; [|by rewrite delete_insert_id by done].
  unfold asm_contents in *. simpl in Hc. rewrite Pf in Hc. simpl in Hc.
  split; unfold asm_contents; simpl; rewrite ?app_nil_r, ?Hc; try done; lia.
Qed.

Lemma deliver_segment maxBytes a init segs payload header chunks :
  let data := concat chunks in
  ready maxBytes a init segs ->
  unmarshalMediaHeader payload = Ok header -> hdr_IsInitSeg header = false ->
  header_for (asm_format a) header (zlen data) -> 0 < effectiveDurationMs header ->
  hdr_SequenceNumber header = zlen segs -> zlen segs <= MaxInt32 ->
  zlen (init ++ concat segs ++ data) <= maxBytes ->
  exists a', consume_parts onCommit a (segment_parts payload (hdr_HeaderID header) chunks) = (None, a') /\
    ready maxBytes a' init (segs ++ [data]) /\ asm_format a' = asm_format a.
Proof.
  intros data [Hp Hi Hv Hfile Hact] Hu Hinit Hh Hd Hseq Hix Hl.
  pose proof Hp as [Pf Pi Pw Pl Pn Ph Pt Pb Pr Prl Pix Ptm]. rewrite Pf in Pt. rewrite !zlen_app in *.
  assert (asm_writtenSequences a !! zlen segs = None) as Hnew.
  { rewrite Pw, fmap_None, eq_None_not_Some, seg_lookup_range. lia. }
  assert (exists a1, admit_sequence a header = Ok a1 /\ a1 = a <| asm_hasSequence := true |>) as (a1 & Hadm & ->).
  { unfold admit_sequence. rewrite Hseq, Hnew, bool_decide_false, Pn, Z.eqb_refl by (by intros []).
    destruct (asm_hasSequence a) eqn:Ehs; simpl; eexists; (split; [|done]).
    - destruct a; simpl in *; by subst.
    - rewrite (Ph eq_refl) in *. simpl. f_equal. destruct a; simpl in *. by subst. }
  rewrite (consume_segment a (a <| asm_hasSequence := true |>) payload header chunks); rewrite ?Hact, ?Hinit; try done.
  fold data. set (a2 := a <| asm_hasSequence := true |> <| asm_active := _ |>). unfold finalizeMedia.
  change (asm_writtenSequences a2) with (asm_writtenSequences a). change (asm_remaining a2) with (asm_remaining a).
  change (asm_initWritten a2) with (asm_initWritten a). rewrite Hseq, Hnew, Hi. simpl negb. cbn iota.
  assert (asm_remaining a <? zlen data = false) as -> by lia.
  destruct (writeBytes_reliable a2 data Hfile) as (file' & Hf' & Hw). pose proof (writeBytes_spec a2 data) as Hws.
  rewrite Hw in Hws |- *. destruct Hws as (_ & _ & Hc). unfold int32SegmentIndex.
  assert (zlen segs >? MaxInt32 = false) as -> by lia. pose proof (zlen_nonneg segs). rewrite i32_small by width_lia.
  ready_after init (segs ++ [data]). split; try done; [|simpl; by rewrite delete_insert_id by done].
  apply record_segment_progress; try done; [|by eapply unmarshalMediaHeader_duration|simpl; lia].
  apply (progress_same _ a); [by unfold same_progress; simpl; auto 20|done].
Qed.

Record media_segment_ok (format : FormatID) (seq : Z) (s : media_segment) : Prop := {
  mso_payload : unmarshalMediaHeader (ms_payload s) = Ok (ms_header s);
  mso_header : header_for format (ms_header s) (zlen (ms_data s));
  mso_init : hdr_IsInitSeg (ms_header s) = false;
  mso_duration : 0 < effectiveDurationMs (ms_header s);
  mso_sequence : hdr_SequenceNumber (ms_header s) = seq
}.

Lemma deliver_segments maxBytes format init segs a done_ :
  ready maxBytes a init done_ -> asm_format a = format ->
  (forall i s, segs !! i = Some s -> media_segment_ok format (zlen done_ + Z.of_nat i) s) ->
  zlen done_ + zlen segs <= MaxInt32 + 1 ->
  zlen (init ++ concat done_ ++ concat (map ms_data segs)) <= maxBytes ->
  exists a', consume_parts onCommit a (segs ≫= ms_parts) = (None, a') /\
    ready maxBytes a' init (done_ ++ map ms_data segs) /\ asm_format a' = format.
Proof.
  revert a done_. induction segs as [|s segs IH]; intros a done_ Hr Hf Hok Hix Hl.
  { exists a. by rewrite app_nil_r. }
  destruct (Hok 0%nat s eq_refl) as [Hp Hh Hi Hd Hs]. simpl in Hl. rewrite !zlen_app in Hl.
  unfold zlen in Hix at 2. simpl length in Hix. pose proof (zlen_nonneg (concat (map ms_data segs))).
  destruct (deliver_segment maxBytes a init done_ (ms_payload s) (ms_header s) (ms_chunks s)) as (a1 & Hc & Hr1 & Hf1);
    rewrite ?Hf; try done; [lia|lia|fold (ms_data s); rewrite !zlen_app; lia|].
  fold (ms_data s) in Hr1. destruct (IH a1 (done_ ++ [ms_data s]) Hr1) as (a' & Hc' & Hr' & Hf').
  - congruence.
  - intros i s' Hi'. rewrite zlen_app. change (zlen [ms_data s]) with 1.
    replace (zlen done_ + 1 + Z.of_nat i) with (zlen done_ + Z.of_nat (S i)) by lia. by apply Hok.
  - rewrite zlen_app. change (zlen [ms_data s]) with 1. unfold zlen. unfold zlen in Hix. lia.
  - rewrite concat_app. simpl. rewrite app_nil_r, !zlen_app. lia.
  - exists a'. cbn [mbind list_bind]. rewrite consume_parts_app. unfold ms_parts at 1. rewrite Hc.
    split_and!; [done| |done]. by rewrite <- app_assoc in Hr'.
Qed.

End Reliable.

Lemma progress_new format expected f maxBytes (w : W) :
  file_data f = [] -> 0 <= maxBytes ->
  progress maxBytes (newTrackAssembler format expected (Some f) maxBytes w) [] [].
Proof.
  intros Hf Hm. split; unfold asm_contents; simpl; rewrite ?Hf; try done; try lia.
  - intros k. unfold seg_lookup. by destruct (_ <? _).
  - intros k. unfold seg_lookup. by destruct (_ <? _).
  - constructor.
Qed.

Lemma asm_inv_new format expected f maxBytes (w : W) :
  file_data f = [] -> 0 <= maxBytes ->
  asm_inv maxBytes (newTrackAssembler format expected (Some f) maxBytes w).
Proof.
  intros Hf Hm. split; [by split|]. exists [], []. by apply progress_new.
Qed.

Lemma assemble_track_ready `{!ReliableFile F} format expected f maxBytes w formatPayload meta init segs :
  (forall hook a, onCommit = Some hook -> (hook a).1 = None) ->
  file_data f = [] ->
  unmarshalFormatInitializationMetadata formatPayload = Ok meta ->
  fmt_Itag (init_FormatID meta) = fmt_Itag format -> formatIdentityConflicts format (init_FormatID meta) = Ok tt ->
  unmarshalMediaHeader (ms_payload init) = Ok (ms_header init) -> hdr_IsInitSeg (ms_header init) = true ->
  header_for format (ms_header init) (zlen (ms_data init)) ->
  (forall i s, segs !! i = Some s -> media_segment_ok format (Z.of_nat i) s) ->
  zlen segs <= MaxInt32 + 1 -> zlen (ms_data init ++ concat (map ms_data segs)) <= maxBytes ->
  exists a',
    consume_parts onCommit (newTrackAssembler format expected (Some f) maxBytes w)
      (track_parts formatPayload init segs) = (None, a') /\
    ready maxBytes a' (ms_data init) (map ms_data segs) /\ asm_format a' = format.
Proof.
  intros Hhook Hf Hmeta Hitag Hid Hu Hinit Hh Hsegs Hix Hl. rewrite zlen_app in Hl.
  pose proof (zlen_nonneg (ms_data init)). pose proof (zlen_nonneg (concat (map ms_data segs))).
  set (a0 := newTrackAssembler format expected (Some f) maxBytes w). unfold track_parts. cbn [consume_parts].
  change (trackAssembler_consumePart _ _ _) with (consumeFormatInit a0 formatPayload).
  unfold consumeFormatInit. rewrite Hmeta. change (asm_format a0) with format. rewrite Hitag, Z.eqb_refl, Hid. cbn [negb].
  set (a1 := a0 <| asm_formatVerified := true |>).
  destruct (deliver_init Hhook maxBytes a1 (ms_payload init) (ms_header init) (ms_chunks init)) as (a2 & Hc2 & Hr2 & Hf2); try done.
  { apply (progress_same _ a0); [by unfold same_progress, asm_contents; simpl; auto 20|]. apply progress_new; [done|lia]. }
  { fold (ms_data init). lia. }
  rewrite consume_parts_app. unfold ms_parts at 1. rewrite Hc2. fold (ms_data init) in Hr2.
  destruct (deliver_segments Hhook maxBytes format (ms_data init) segs a2 [] Hr2) as (a' & Hc & Hr & Hfm);
    [done|done|done|simpl; rewrite zlen_app; lia|].
  by exists a'.
Qed.

(** *** Claims *)

(** C9. Whatever parts a server sends, in whatever order, the assembler
    accounts for its file: after every run that reports no error, and after
    every failing run but one torn by a failed write, the file is one
    initialization segment followed by segments 0..n-1, with their digests and
    lengths, [nextSequence] = n, contiguous buffered ranges, [totalWritten] the
    file's length and within the budget, at most [MaxActiveHeaders] open
    headers.  A torn write only extends the file beyond such a state. *)
Theorem assembler_accounts format expected f maxBytes w parts :
  file_data f = [] -> 0 <= maxBytes ->
  let '(err, a') := consume_parts onCommit (newTrackAssembler format expected (Some f) maxBytes w) parts in
  asm_inv maxBytes a' \/ (fatal err /\ exists a1, asm_inv maxBytes a1 /\ torn a1 a').
Proof.
  intros Hf Hm. pose proof (asm_inv_new format expected f maxBytes w Hf Hm) as Hi.
  revert Hi. generalize (newTrackAssembler format expected (Some f) maxBytes w) as a.
  induction parts as [|part parts IH]; intros a Hi; simpl; [by left|].
  pose proof (consumePart_post onCommit maxBytes a part Hi) as Hpost.
  destruct (trackAssembler_consumePart onCommit a part) as [[e|] a1].
  - destruct Hpost as [?|[? ?]]; [by left|right]. eauto.
  - destruct Hpost as [?|[(? & ? & _) ?]]; [by apply IH|done].
Qed.

(** C15. A track served in order is assembled exactly: format metadata, the
    initialization segment and segments 0..n-1, each in any chunking, on a file
    that does not fail, are all accepted and the file is their concatenation,
    with no header left open. *)
Theorem assemble_track `{!ReliableFile F} format expected f maxBytes w formatPayload meta init segs :
  (forall hook a, onCommit = Some hook -> (hook a).1 = None) ->
  file_data f = [] ->
  unmarshalFormatInitializationMetadata formatPayload = Ok meta ->
  fmt_Itag (init_FormatID meta) = fmt_Itag format -> formatIdentityConflicts format (init_FormatID meta) = Ok tt ->
  unmarshalMediaHeader (ms_payload init) = Ok (ms_header init) -> hdr_IsInitSeg (ms_header init) = true ->
  header_for format (ms_header init) (zlen (ms_data init)) ->
  (forall i s, segs !! i = Some s -> media_segment_ok format (Z.of_nat i) s) ->
  zlen segs <= MaxInt32 + 1 -> zlen (ms_data init ++ concat (map ms_data segs)) <= maxBytes ->
  exists a',
    consume_parts onCommit (newTrackAssembler format expected (Some f) maxBytes w)
      (track_parts formatPayload init segs) = (None, a') /\
    asm_contents a' = ms_data init ++ concat (map ms_data segs) /\ finishResponse a' = None.
Proof.
  intros Hhook Hf Hmeta Hitag Hid Hu Hinit Hh Hsegs Hix Hl.
  destruct (assemble_track_ready format expected f maxBytes w formatPayload meta init segs)
    as (a' & Hc & [Hp _ _ _ Hact] & _); try done.
  exists a'. split; [done|]. split; [by rewrite (pr_file _ _ _ _ Hp)|]. unfold finishResponse. by rewrite Hact.
Qed.

(** Replays are idempotent: when a server sends a written segment again,
    in any chunking, the same bytes leave the assembler and its file exactly as
    they were, and bytes with another digest are refused without touching file
    or accounting. *)
Theorem replay_idempotent maxBytes a init segs payload header chunks data0 :
  let data := concat chunks in
  let id := hdr_HeaderID header in
  progress maxBytes a init segs -> asm_formatVerified a = true ->
  unmarshalMediaHeader payload = Ok header -> hdr_IsInitSeg header = false ->
  header_for (asm_format a) header (zlen data) -> 0 < effectiveDurationMs header ->
  asm_active a !! id = None -> Z.of_nat (size (asm_active a)) < MaxActiveHeaders ->
  seg_lookup segs (hdr_SequenceNumber header) = Some data0 ->
  consume_parts onCommit a (segment_parts payload id chunks) =
    if bool_decide (hashSegment data0 = hashSegment data) then (None, a)
    else (Some ErrInvalidMediaState, a <| asm_active := <[id := mkSegment header data true true]> (asm_active a) |>).
Proof.
  intros data id Hp Hv Hu Hi Hh Hd Hfree Hsize Hseg. subst id.
  assert (asm_writtenSequences a !! hdr_SequenceNumber header = Some (hashSegment data0)) as Hw
    by (rewrite (pr_written _ _ _ _ Hp), Hseg; done).
  rewrite (consume_segment a a payload header chunks); rewrite ?Hi; try done.
  2: { unfold admit_sequence. by rewrite Hw, bool_decide_true. }
  fold data. set (a2 := a <| asm_active := _ |>). unfold finalizeMedia.
  change (asm_writtenSequences a2) with (asm_writtenSequences a). rewrite Hw.
  case_bool_decide; simpl; [|done]. rewrite delete_insert_id by done. by destruct a.
Qed.

End Delivery.

(** ** Witnesses *)

(** A file in memory, and a stand-in for the digest. *)
#[export, refine] Instance memory_file : OsFile bytes := {|
  file_Write f data := (zlen data, None, f ++ data);
  file_Sync f := (None, f);
  file_data f := f
|}.
Proof.
  - intros f data n err f' [= <- <- <-]. pose proof (zlen_nonneg data). unfold zlen.
    rewrite Nat2Z.id, take_ge by lia. split_and!; [lia|lia|done|done].
  - by intros f data n e f' Hw.
  - by intros f err f' [= <- <-].
Defined.

#[export] Instance memory_file_reliable : ReliableFile bytes.
Proof. split; intros; by eexists. Qed.

Section Witnesses.
#[local] Instance prefix_digest : Sha256 := {| sha256_Sum256 data := take 32 data |}.

Definition w_format : FormatID := mkFormatID 137 0 [].
Definition w_header (id seq : Z) (isInit : bool) : MediaHeader :=
  mkMediaHeader id 137 isInit seq (if isInit then 0 else 5000) zeroFormatID 0 zeroTimeRange.
Definition w_segment (id seq : Z) (isInit : bool) (chunks : list bytes) : media_segment :=
  mkMediaSegment (marshalMediaHeader (w_header id seq isInit)) (w_header id seq isInit) chunks.
Definition w_format_payload : bytes :=
  encode_fields [PbBytes fFormatInitFormatID (FormatID_marshal w_format)].
Definition w_new : trackAssembler bytes unit := newTrackAssembler w_format 10000 (Some []) 100 tt.
Definition w_init : media_segment := w_segment 1 0 true [lit "in"; lit "it"].
Definition w_segs : list media_segment := [w_segment 2 0 false [lit "abc"]; w_segment 3 1 false [lit "d"; lit "ef"]].

Lemma assembler_accounts_witness :
  let '(err, a') := consume_parts None w_new (track_parts w_format_payload w_init w_segs) in
  asm_inv 100 a' \/ (fatal err /\ exists a1, asm_inv 100 a1 /\ torn a1 a').
Proof. apply (assembler_accounts None w_format 10000 [] 100 tt); [reflexivity|lia]. Defined.

Lemma assemble_track_witness :
  exists a', consume_parts None w_new (track_parts w_format_payload w_init w_segs) = (None, a') /\
    asm_contents a' = lit "initabcdef" /\ finishResponse a' = None.
Proof.
  eapply (assemble_track None w_format 10000 [] 100 tt w_format_payload _ w_init w_segs);
    [done|reflexivity|vm_compute; reflexivity|reflexivity|reflexivity|vm_compute; reflexivity|reflexivity| | |by vm_compute|by vm_compute].
  - split; try (vm_compute; intuition (reflexivity || discriminate)).
  - intros [|[|i]] s Hs; [injection Hs as <-|injection Hs as <-|done];
      (split; try (vm_compute; reflexivity); split; try (vm_compute; intuition (reflexivity || discriminate))).
Defined.

(** The state after the whole sample track. *)
Lemma w_ready : exists a : trackAssembler bytes unit,
  ready 100 a (lit "init") [lit "abc"; lit "def"] /\ asm_format a = w_format.
Proof.
  destruct (assemble_track_ready None w_format 10000 [] 100 tt w_format_payload
    (mkFormatInit [] w_format) w_init w_segs) as (a & _ & Hr & Hf);
    [done|reflexivity|vm_compute; reflexivity|reflexivity|reflexivity|vm_compute; reflexivity|reflexivity| | |by vm_compute|by vm_compute|by exists a].
  - split; try (vm_compute; intuition (reflexivity || discriminate)).
  - intros [|[|i]] s Hs; [injection Hs as <-|injection Hs as <-|done];
      (split; try (vm_compute; reflexivity); split; try (vm_compute; intuition (reflexivity || discriminate))).
Qed.

Lemma replay_idempotent_witness :
  exists a : trackAssembler bytes unit, progress 100 a (lit "init") [lit "abc"; lit "def"] /\
    consume_parts None a (segment_parts (marshalMediaHeader (w_header 9 1 false)) 9 [lit "d"; lit "ef"]) = (None, a).
Proof.
  destruct w_ready as (a & [Hp H1 H2 H3 H4] & Hf). exists a. split; [exact Hp|].
  etransitivity;
    [apply (replay_idempotent None 100 a (lit "init") [lit "abc"; lit "def"] _ (w_header 9 1 false) [lit "d"; lit "ef"] (lit "def"))|
     vm_compute; reflexivity];
    try assumption; try reflexivity; rewrite ?Hf, ?H4; try reflexivity.
  split; try (vm_compute; intuition (reflexivity || discriminate)).
Defined.

End Witnesses.
