(* ===== verification/Control.v ===== *)
(** * Response control

    [control.go] and the stream loop of [downloader.go]: one SABR response is
    fed part by part to the assembler and to the control state; the control
    state (request policy, playback cookie, redirect, contexts) takes effect
    only when the whole response has been consumed without error. *)
From S2P Require Import Prelude Errors Varint GoStrings Url Wire Messages UmpReader Directives ContextState Assembler.

(** ** Policy and cookie decoders *)

Definition fPolicyBackoffTimeMs : Z := 4.
Definition fPolicyPlaybackCookie : Z := 7.
Definition fPlaybackCookieField1 : Z := 1.
Definition fPlaybackCookieField2 : Z := 2.
Definition fPlaybackCookieFormatID : Z := 7.
Definition fPlaybackCookieAltFmtID : Z := 8.


(** Locals: the four (three) "seen" flags. *)
Record embeddedFormatSeen := mkEFS { efs_itag : bool; efs_lastModified : bool; efs_xtags : bool }.
#[export] Instance eta_efs : Eta embeddedFormatSeen :=
  fun s => mkEFS (efs_itag s) (efs_lastModified s) (efs_xtags s).

Definition validateEmbeddedFormatID_body (s : embeddedFormatSeen) (num wt : Z) (r : fieldReader)
  : flow embeddedFormatSeen (res unit) :=
  if num =? fFormatItag then
    if negb (wt =? wireVarint) || efs_itag s then Return (Err ErrInvalidProtobuf)
    else Next (s <| efs_itag := true |>) (fieldReader_varint r).2
  else if num =? fFormatLastModified then
    if negb (wt =? wireVarint) || efs_lastModified s then Return (Err ErrInvalidProtobuf)
    else Next (s <| efs_lastModified := true |>) (fieldReader_varint r).2
  else if num =? fFormatXTags then
    if negb (wt =? wireBytes) || efs_xtags s then Return (Err ErrInvalidProtobuf)
    else Next (s <| efs_xtags := true |>) (fieldReader_bytes r).2
  else Next s (fieldReader_skip num wt r).

Definition validateEmbeddedFormatID (data : bytes) : res unit :=
  scan_message validateEmbeddedFormatID_body (mkEFS false false false) (fun _ => Ok tt) data.

Record cookieSeen := mkCS { cks_1 : bool; cks_2 : bool; cks_7 : bool; cks_8 : bool }.
#[export] Instance eta_cks : Eta cookieSeen := fun s => mkCS (cks_1 s) (cks_2 s) (cks_7 s) (cks_8 s).

(** The embedded format of fields 7 and 8: [reader.bytes()] yields no bytes
    when it fails, and the loop then ends on the reader's error. *)
Definition cookie_format (s : cookieSeen) (r : fieldReader) : flow cookieSeen (res unit) :=
  let '(data, r) := fieldReader_bytes r in
  match validateEmbeddedFormatID data with
  | Err e => Return (Err e)
  | Ok _ => Next s r
  end.

Definition validatePlaybackCookie_body (s : cookieSeen) (num wt : Z) (r : fieldReader)
  : flow cookieSeen (res unit) :=
  if num =? fPlaybackCookieField1 then
    if negb (wt =? wireVarint) || cks_1 s then Return (Err ErrInvalidProtobuf)
    else Next (s <| cks_1 := true |>) (fieldReader_varint r).2
  else if num =? fPlaybackCookieField2 then
    if negb (wt =? wireVarint) || cks_2 s then Return (Err ErrInvalidProtobuf)
    else Next (s <| cks_2 := true |>) (fieldReader_varint r).2
  else if num =? fPlaybackCookieFormatID then
    if negb (wt =? wireBytes) || cks_7 s then Return (Err ErrInvalidProtobuf)
    else cookie_format (s <| cks_7 := true |>) r
  else if num =? fPlaybackCookieAltFmtID then
    if negb (wt =? wireBytes) || cks_8 s then Return (Err ErrInvalidProtobuf)
    else cookie_format (s <| cks_8 := true |>) r
  else Next s (fieldReader_skip num wt r).

Definition validatePlaybackCookie (data : bytes) : res unit :=
  if zlen data =? 0 then Err ErrInvalidMediaState
  else if zlen data >? MaxPlaybackCookieBytes then Err ErrInvalidMediaState
  else scan_message validatePlaybackCookie_body (mkCS false false false false) (fun _ => Ok tt) data.

(** Locals: the backoff and the cookie, [None] until seen. *)
Definition parseNextRequestPolicy_body (acc : option Z * option bytes) (num wt : Z) (r : fieldReader)
  : flow (option Z * option bytes) (res (Z * option bytes)) :=
  let '(backoff, cookie) := acc in
  if num =? fPolicyBackoffTimeMs then
    strict_field wt wireVarint (seen backoff) fieldReader_varint r (fun raw r =>
      match int32FromUint64 raw with
      | Err e => Return (Err e)
      | Ok value =>
          if value <? 0 then Return (Err ErrInvalidMediaState)
          else if value >? MaxPolicyBackoffMs then Return (Err ErrExcessivePolicyBackoff)
          else Next (Some value, cookie) r
      end)
  else if num =? fPolicyPlaybackCookie then
    strict_field wt wireBytes (seen cookie) fieldReader_bytes r (fun raw r =>
      match validatePlaybackCookie raw with
      | Err e => Return (Err e)
      | Ok _ => Next (backoff, Some raw) r
      end)
  else Next acc (fieldReader_skip num wt r).

(** The backoff in milliseconds and the cookie, if there is one. *)
Definition parseNextRequestPolicy (payload : bytes) : res (Z * option bytes) :=
  scan_message parseNextRequestPolicy_body (None, None)
    (fun '(backoff, cookie) => Ok (default 0 backoff, cookie)) payload.

(** ** State *)

Record roundControl := mkRoundControl {
  rc_backoff : Z;  (* time.Duration, nanoseconds *)
  rc_cookie : option bytes;  (* Some when updateCookie *)
  rc_redirectURL : option bytes;  (* Some when hasRedirect *)
  rc_contexts : sabrContextState
}.

Record responseControl := mkResponseControl {
  ctl_hasPolicy : bool;
  ctl_backoffMs : Z;
  ctl_cookie : option bytes;  (* Some when hasCookie *)
  ctl_sawEndOfTrack : bool;
  ctl_frozen : bool;
  ctl_redirectURL : option bytes;  (* Some when hasRedirect *)
  ctl_policyOps : Z;
  ctl_contexts : sabrContextState;
  ctl_hasSabrError : bool;
  ctl_hasReload : bool
}.

#[export] Instance eta_responseControl : Eta responseControl :=
  fun c => mkResponseControl (ctl_hasPolicy c) (ctl_backoffMs c) (ctl_cookie c) (ctl_sawEndOfTrack c)
    (ctl_frozen c) (ctl_redirectURL c) (ctl_policyOps c) (ctl_contexts c) (ctl_hasSabrError c) (ctl_hasReload c).

(** ** Operations *)

Definition consumePolicy (c : responseControl) (payload : bytes) : option go_error * responseControl :=
  if ctl_hasPolicy c then (Some ErrInvalidMediaState, c)
  else
    match parseNextRequestPolicy payload with
    | Err e => (Some e, c)
    | Ok (backoffMs, cookie) =>
        let c := c <| ctl_hasPolicy := true |> <| ctl_backoffMs := backoffMs |> in
        (None, match cookie with Some _ => c <| ctl_cookie := cookie |> | None => c end)
    end.

Definition consumeContextUpdate (c : responseControl) (payload : bytes) : option go_error * responseControl :=
  match parseSabrContextUpdate payload with
  | Err e => (Some e, c)
  | Ok directive =>
      let '(err, contexts) := applyUpdate (ctl_contexts c) directive in
      (err, c <| ctl_contexts := contexts |>)
  end.

Definition consumeSendingPolicy (c : responseControl) (payload : bytes) : option go_error * responseControl :=
  match parseSabrContextSendingPolicy payload (ctl_policyOps c) with
  | Err e => (Some e, c)
  | Ok (directive, ops) =>
      let '(err, contexts) := applySendingPolicy (ctl_contexts c) directive in
      (err, c <| ctl_policyOps := ops |> <| ctl_contexts := contexts |>)
  end.

Definition consumeSabrError (c : responseControl) (payload : bytes) : option go_error * responseControl :=
  if ctl_hasSabrError c || ctl_hasReload c then (Some ErrInvalidMediaState, c)
  else
    match parseSabrError payload with
    | Err e => (Some e, c)
    | Ok directive =>
        (Some (SabrErrorSignal (se_Type directive) (se_Code directive)), c <| ctl_hasSabrError := true |>)
    end.

Definition consumeReloadPlayer (c : responseControl) (payload : bytes) : option go_error * responseControl :=
  if ctl_hasSabrError c || ctl_hasReload c then (Some ErrInvalidMediaState, c)
  else
    match parseReloadPlayerResponse payload with
    | Err e => (Some e, c)
    | Ok token => (Some (ReloadPlayerSignal token), c <| ctl_hasReload := true |>)
    end.

Section Control.
Context {F W : Type} `{!OsFile F} `{!Sha256} `{!UnicodeTables}.

Definition consumeEndOfTrack (c : responseControl) (payload : bytes) (assembler : trackAssembler F W)
  : option go_error * responseControl :=
  if ctl_sawEndOfTrack c then (Some ErrInvalidMediaState, c)
  else if negb (zlen payload =? 0) then (Some ErrInvalidMediaState, c)
  else if (0 <? size (asm_active assembler))%nat then (Some ErrInvalidMediaState, c)
  else if negb (canCompleteByEndOfTrack assembler) then (Some ErrInvalidMediaState, c)
  else (None, c <| ctl_sawEndOfTrack := true |>).

Definition consumeRedirect (c : responseControl) (payload : bytes) : option go_error * responseControl :=
  if seen (ctl_redirectURL c) then (Some ErrInvalidMediaState, c)
  else
    match parseSabrRedirect payload with
    | Err e => (Some e, c)
    | Ok url => (None, c <| ctl_redirectURL := Some url |>)
    end.

(** [commit]; the redirect tracker is not nil on any path of the engine. *)
Definition responseControl_commit (c : responseControl) (redirects : redirectTracker) : res roundControl :=
  let backoff := if ctl_hasPolicy c then i64 (ctl_backoffMs c * 1000000) else 0 in
  let cookie := if ctl_hasPolicy c then ctl_cookie c else None in
  match ctl_redirectURL c with
  | Some url =>
      _ ← redirectTracker_validate redirects url;
      Ok (mkRoundControl backoff cookie (Some url) (sabrContextState_clone (Some (ctl_contexts c))))
  | None => Ok (mkRoundControl backoff cookie None (sabrContextState_clone (Some (ctl_contexts c))))
  end.

Record streamConsumer := mkConsumer {
  sc_assembler : trackAssembler F W;
  sc_control : responseControl;
  sc_redirects : redirectTracker
}.

#[export] Instance eta_streamConsumer : Eta streamConsumer :=
  fun s => mkConsumer (sc_assembler s) (sc_control s) (sc_redirects s).

Definition newStreamConsumerState (assembler : trackAssembler F W) (contexts : option sabrContextState)
    (redirects : redirectTracker) : streamConsumer :=
  mkConsumer assembler
    (mkResponseControl false 0 None false false None 0 (sabrContextState_clone contexts) false false) redirects.

Definition newStreamConsumer (assembler : trackAssembler F W) : streamConsumer :=
  newStreamConsumerState assembler (Some newSabrContextState) (newRedirectTracker []).

Context (onCommit : option (trackAssembler F W -> option go_error * W)).

Definition lift_control (s : streamConsumer) (out : option go_error * responseControl)
  : option go_error * streamConsumer :=
  (out.1, s <| sc_control := out.2 |>).

Definition streamConsumer_consumePart (s : streamConsumer) (part : Part) : option go_error * streamConsumer :=
  let c := sc_control s in
  let payload := part_Payload part in
  if ctl_frozen c then (Some ErrInvalidMediaState, s)
  else if part_Type part =? PartNextRequestPolicy then lift_control s (consumePolicy c payload)
  else if part_Type part =? PartEndOfTrack then
    match consumeEndOfTrack c payload (sc_assembler s) with
    | (Some e, c) => (Some e, s <| sc_control := c |>)
    | (None, c) => (None, s <| sc_control := c <| ctl_frozen := true |> |>)
    end
  else if part_Type part =? PartSABRRedirect then lift_control s (consumeRedirect c payload)
  else if part_Type part =? PartSABRContextUpdate then lift_control s (consumeContextUpdate c payload)
  else if part_Type part =? PartSABRContextSendingPolicy then lift_control s (consumeSendingPolicy c payload)
  else if part_Type part =? PartSABRError then lift_control s (consumeSabrError c payload)
  else if part_Type part =? PartReloadPlayerResponse then lift_control s (consumeReloadPlayer c payload)
  else
    let '(err, assembler) := trackAssembler_consumePart onCommit (sc_assembler s) part in
    (err, s <| sc_assembler := assembler |>).

(** [finish]: the round control or the error, and the consumer left. *)
Definition streamConsumer_finish (s : streamConsumer) : res roundControl * streamConsumer :=
  match finishResponse (sc_assembler s) with
  | Some e => (Err e, s)
  | None =>
      match responseControl_commit (sc_control s) (sc_redirects s) with
      | Err e => (Err e, s)
      | Ok ctrl =>
          if ctl_sawEndOfTrack (sc_control s) then
            let '(err, assembler) := applyEndOfTrackCompletion onCommit (sc_assembler s) in
            let s := s <| sc_assembler := assembler |> in
            match err with
            | Some e => (Err e, s)
            | None => (Ok ctrl, s)
            end
          else (Ok ctrl, s)
      end
  end.

(** *** The stream loop *)

Context {S : Type} `{!IoReader S}.

(** [ctx i] is the value of [ctx.Err()] at iteration [i]. *)
Fixpoint consumeStream_loop (fuel : nat) (ctx : nat -> option go_error) (i : nat) (rd : Reader S) (s : streamConsumer)
  : option (res roundControl * streamConsumer) :=
  match fuel with
  | O => None
  | Datatypes.S fuel' =>
      match ctx i with
      | Some e => Some (Err e, s)
      | None =>
          let '(r, rd) := Reader_ReadPart rd in
          match r with
          | Err e => Some (Err e, s)
          | Ok None => Some (streamConsumer_finish s)
          | Ok (Some part) =>
              match streamConsumer_consumePart s part with
              | (Some e, s) => Some (Err e, s)
              | (None, s) => consumeStream_loop fuel' ctx (Datatypes.S i) rd s
              end
          end
      end
  end.

(** The reader refuses part [MaxParts + 1], so this fuel is enough
    ([consumeStream_loop_total]). The result is the round control and the
    assembler, which is shared with the caller. *)
Definition consumeStreamState (ctx : nat -> option go_error) (body : S) (assembler : trackAssembler F W)
    (contexts : option sabrContextState) (redirects : redirectTracker) : res roundControl * trackAssembler F W :=
  match consumeStream_loop (Z.to_nat (MaxParts + 2)) ctx 0 (NewReader body MaxRoundBytes)
          (newStreamConsumerState assembler contexts redirects) with
  | Some (r, s) => (r, sc_assembler s)
  | None => (Err ErrTooManyParts, assembler)
  end.

(** The same on the list of parts of a body. *)
Fixpoint consume_all (s : streamConsumer) (parts : list Part) : res roundControl * streamConsumer :=
  match parts with
  | [] => streamConsumer_finish s
  | part :: parts =>
      match streamConsumer_consumePart s part with
      | (Some e, s) => (Err e, s)
      | (None, s) => consume_all s parts
      end
  end.

End Control.
Arguments streamConsumer : clear implicits.

(** ** Lemmas: decoders *)

Definition cookie_ok (cookie : bytes) : Prop :=
  0 < zlen cookie <= MaxPlaybackCookieBytes /\ validatePlaybackCookie cookie = Ok tt.

Lemma validatePlaybackCookie_ok cookie : validatePlaybackCookie cookie = Ok tt -> cookie_ok cookie.
Proof.
  intros Hv. split; [|done]. unfold validatePlaybackCookie in Hv.
  destruct (Z.eqb_spec (zlen cookie) 0); [done|].
  destruct (Z.gtb_spec (zlen cookie) MaxPlaybackCookieBytes); [done|].
  pose proof (zlen_nonneg cookie). lia.
Qed.

Lemma parseNextRequestPolicy_ok payload backoff cookie :
  parseNextRequestPolicy payload = Ok (backoff, cookie) ->
  0 <= backoff <= MaxPolicyBackoffMs /\ option_all cookie_ok cookie.
Proof.
  unfold parseNextRequestPolicy.
  apply (scan_message_post _
    (fun '(b, ck) => option_all (fun b => 0 <= b <= MaxPolicyBackoffMs) b /\ option_all cookie_ok ck)
    (fun r => r = Ok (backoff, cookie) -> _)).
  - done.
  - intros [b ck] num wt r [Hb Hck]. unfold parseNextRequestPolicy_body, strict_field.
    repeat (case_match; simplify_eq/=); reflect_bools; try done; split; simpl; try done; try lia.
    match goal with u : unit |- _ => destruct u end. by apply validatePlaybackCookie_ok.
  - intros [b ck] [Hb Hck] [= <- <-]. split; [|done]. destruct b; simpl in *; [done|]. unfold MaxPolicyBackoffMs. lia.
  - done.
Qed.

Section Lemmas.
Context `{!UnicodeTables}.

Definition redirect_ok (url : bytes) : Prop :=
  0 < zlen url <= MaxRedirectURLBytes /\ exists u, ValidateSABRURL url = Ok u.

Lemma parseSabrRedirect_ok payload url : parseSabrRedirect payload = Ok url -> redirect_ok url.
Proof.
  unfold parseSabrRedirect.
  apply (scan_message_post _ (option_all (fun url => 0 < zlen url <= MaxRedirectURLBytes))
    (fun r => r = Ok url -> redirect_ok url)).
  - done.
  - intros o num wt r Ho. unfold parseSabrRedirect_body, strict_field.
    repeat (case_match; simplify_eq/=); reflect_bools; try done.
    match goal with |- 0 < zlen ?l <= _ => pose proof (zlen_nonneg l) end. lia.
  - intros [o|] Ho; [|done]. destruct (ValidateSABRURL o) eqn:E; [|done]. intros [= <-]. split; [done|eauto].
  - done.
Qed.

(** ** Invariant of the control state *)

Record ctl_inv (c : responseControl) : Prop := {
  ci_backoff : 0 <= ctl_backoffMs c <= MaxPolicyBackoffMs;
  ci_cookie : option_all cookie_ok (ctl_cookie c);
  ci_redirect : option_all redirect_ok (ctl_redirectURL c);
  ci_ops : ctl_policyOps c <= MaxSabrContextPolicyOps;
  ci_contexts : cs_inv (ctl_contexts c)
}.

Context {F W : Type} `{!OsFile F} `{!Sha256}.
Context (onCommit : option (trackAssembler F W -> option go_error * W)).
Implicit Types s : streamConsumer F W.

Lemma consumePart_ctl_inv s part :
  ctl_inv (sc_control s) -> ctl_inv (sc_control (streamConsumer_consumePart onCommit s part).2).
Proof.
  intros Hi. pose proof Hi as [Hb Hc Hr Ho Hs]. unfold streamConsumer_consumePart.
  destruct (ctl_frozen _); [done|].
  destruct (part_Type part =? PartNextRequestPolicy).
  { unfold lift_control, consumePolicy. destruct (ctl_hasPolicy _); [done|].
    destruct (parseNextRequestPolicy _) as [[b ck]|] eqn:E; [|done].
    apply parseNextRequestPolicy_ok in E as [? ?]. destruct ck; by split. }
  destruct (part_Type part =? PartEndOfTrack).
  { unfold consumeEndOfTrack. repeat (case_match; simplify_eq/=); try done; by split. }
  destruct (part_Type part =? PartSABRRedirect).
  { unfold lift_control, consumeRedirect. destruct (seen _); [done|].
    destruct (parseSabrRedirect _) eqn:E; [|done]. apply parseSabrRedirect_ok in E. by split. }
  destruct (part_Type part =? PartSABRContextUpdate).
  { unfold lift_control, consumeContextUpdate. destruct (parseSabrContextUpdate _) as [d|]; [|done].
    pose proof (context_step_inv _ (OpUpdate d) Hs) as Hs'. simpl in Hs'.
    destruct (applyUpdate _ d). by split. }
  destruct (part_Type part =? PartSABRContextSendingPolicy).
  { unfold lift_control, consumeSendingPolicy. destruct (parseSabrContextSendingPolicy _ _) as [[d ops]|] eqn:E; [|done].
    apply sending_policy_budget in E as (_ & ? & _); [|done].
    pose proof (context_step_inv _ (OpPolicy d) Hs) as Hs'. simpl in Hs'. destruct (applySendingPolicy _ d). by split. }
  destruct (part_Type part =? PartSABRError).
  { unfold lift_control, consumeSabrError. repeat (case_match; simplify_eq/=); try done; by split. }
  destruct (part_Type part =? PartReloadPlayerResponse).
  { unfold lift_control, consumeReloadPlayer. repeat (case_match; simplify_eq/=); try done; by split. }
  destruct (trackAssembler_consumePart _ _ _). done.
Qed.

(** What a committed round carries. *)
Definition round_ok (redirects : redirectTracker) (rc : roundControl) : Prop :=
  0 <= rc_backoff rc <= MaxPolicyBackoffMs * 1000000 /\ option_all cookie_ok (rc_cookie rc) /\
  option_all (fun url => redirectTracker_validate redirects url = Ok tt) (rc_redirectURL rc) /\
  cs_inv (rc_contexts rc).

Lemma commit_ok c redirects rc :
  ctl_inv c -> responseControl_commit c redirects = Ok rc -> round_ok redirects rc.
Proof.
  intros [Hb Hc Hr Ho Hs]. unfold responseControl_commit, round_ok.
  assert (0 <= (if ctl_hasPolicy c then i64 (ctl_backoffMs c * 1000000) else 0) <= MaxPolicyBackoffMs * 1000000).
  { unfold MaxPolicyBackoffMs in *. destruct (ctl_hasPolicy c); [|lia]. rewrite i64_small by width_lia. lia. }
  assert (option_all cookie_ok (if ctl_hasPolicy c then ctl_cookie c else None)) by (by destruct (ctl_hasPolicy c)).
  assert (cs_inv (sabrContextState_clone (Some (ctl_contexts c)))) by (by destruct (ctl_contexts c)).
  destruct (ctl_redirectURL c) as [url|]; intros Hok.
  - apply bind_Ok_inv in Hok as ([] & Hv & [= <-]). by repeat (split; [done|]).
  - injection Hok as <-. by repeat (split; [done|]).
Qed.

Lemma consumePart_redirects s part :
  sc_redirects (streamConsumer_consumePart onCommit s part).2 = sc_redirects s.
Proof. unfold streamConsumer_consumePart, lift_control. repeat (case_match; simplify_eq/=); done. Qed.

Lemma finish_ok s rc s' :
  ctl_inv (sc_control s) -> streamConsumer_finish onCommit s = (Ok rc, s') -> round_ok (sc_redirects s) rc.
Proof.
  intros Hi. unfold streamConsumer_finish. destruct (finishResponse _); [done|].
  destruct (responseControl_commit _ _) as [ctrl|] eqn:E; [|done]. pose proof (commit_ok _ _ _ Hi E) as Hr.
  destruct (ctl_sawEndOfTrack _); [|intros H'; by injection H' as <- _].
  destruct (applyEndOfTrackCompletion _ _) as [[e|] a]; [done|]. intros H'; by injection H' as <- _.
Qed.

(** *** The stream loop on a framed body *)

Lemma consumeStream_loop_framed {S} `{!IoReader S} `{!ByteStream S} fuel ctx i (rd : Reader S) s ps :
  (forall j, ctx j = None) -> rd_inv rd -> rd_maxPartSize rd = MaxPartPayload ->
  rd_stream rd = frame_parts ps -> Forall part_wf ps ->
  rd_partCount rd + zlen ps <= rd_maxParts rd -> rd_size rd <= rd_maxBytes rd -> (length ps < fuel)%nat ->
  consumeStream_loop onCommit fuel ctx i rd s = Some (consume_all onCommit s ps).
Proof.
  intros Hctx. revert i rd s fuel. induction ps as [|p ps IH]; intros i rd s fuel Hi Hms Hst Hwf Hpc Hsz Hf;
    (destruct fuel as [|fuel]; [simpl in Hf; lia|]); cbn [consumeStream_loop consume_all]; rewrite Hctx;
    pose proof (Reader_ReadPart_post rd Hi Hms) as Hp; unfold readpart_post in Hp;
    destruct (Reader_ReadPart rd) as [r rd1]; (destruct Hp as [[_ ?]|Hp]; [lia|]); rewrite Hst in Hp.
  { change (parse_part (frame_parts [])) with (Ok (E := go_error) (@None (Part * bytes))) in Hp. by destruct Hp as [-> _]. }
  inversion_clear Hwf. change (frame_parts (p :: ps)) with (frame_part p ++ frame_parts ps) in Hp.
  rewrite parse_part_frame in Hp by done. unfold zlen in Hpc. simpl in Hpc, Hf.
  assert (rd_partCount rd + 1 >? rd_maxParts rd = false) as Hgt by (rewrite Z.gtb_ltb; lia). rewrite Hgt in Hp.
  destruct Hp as (-> & Hst1 & Hs1 & Hpc1). unfold rd_same, rd_inv, rd_size in *. simpl in Hs1.
  destruct Hs1 as (Hsz1 & Hmb1 & Hmp1 & Hms1 & _ & Hi1).
  destruct (streamConsumer_consumePart onCommit s p) as [[e|] s1]; [done|].
  apply IH; try done; unfold zlen, rd_size in *; try lia; congruence.
Qed.

(** *** What a response does to the assembler *)

Lemma consumePart_assembler s part :
  let out := streamConsumer_consumePart onCommit s part in
  sc_assembler out.2 = sc_assembler s \/
  (out.1, sc_assembler out.2) = trackAssembler_consumePart onCommit (sc_assembler s) part.
Proof.
  unfold streamConsumer_consumePart, lift_control. cbv zeta.
  destruct (ctl_frozen _); [by left|]. repeat (case_match; [try (by left); simplify_eq/=|]);
    repeat (case_match; simplify_eq/=); auto.
Qed.

Lemma applyEndOfTrackCompletion_inv maxBytes (a : trackAssembler F W) :
  asm_inv maxBytes a -> asm_inv maxBytes (applyEndOfTrackCompletion onCommit a).2.
Proof.
  intros Hi. unfold applyEndOfTrackCompletion. destruct (negb _); [done|]. apply commitProgress_inv.
  apply (asm_inv_same _ a); [unfold same_progress, asm_contents; simpl; auto 20| |done].
  apply (active_ok_same a); try done. apply Hi.
Qed.

Lemma consume_all_assembler maxBytes s parts :
  asm_inv maxBytes (sc_assembler s) ->
  let '(r, s') := consume_all onCommit s parts in
  asm_inv maxBytes (sc_assembler s') \/
  ((exists e, r = Err e /\ recovery_signal e = false) /\ exists a1, asm_inv maxBytes a1 /\ torn a1 (sc_assembler s')).
Proof.
  revert s. induction parts as [|part parts IH]; intros s Hi; simpl.
  - unfold streamConsumer_finish. destruct (finishResponse _); [by left|].
    destruct (responseControl_commit _ _); [|by left]. destruct (ctl_sawEndOfTrack _); [|by left].
    pose proof (applyEndOfTrackCompletion_inv maxBytes _ Hi) as Hi'.
    destruct (applyEndOfTrackCompletion onCommit _) as [[e|] a2]; by left.
  - pose proof (consumePart_assembler s part) as Ha. pose proof (consumePart_post onCommit maxBytes _ part Hi) as Hpost.
    destruct (streamConsumer_consumePart onCommit s part) as [err s1]. simpl in Ha.
    assert (asm_inv maxBytes (sc_assembler s1) \/ (fatal err /\ torn (sc_assembler s) (sc_assembler s1))) as [Hi1|[He Ht]].
    { destruct Ha as [->|Ha]; [by left|]. by rewrite <- Ha in Hpost. }
    + destruct err; [by left|]. by apply IH.
    + destruct He as (e & -> & He). right. split; [by exists e|]. exists (sc_assembler s). done.
Qed.

(** *** End of track *)

Lemma consumePart_frozen s part :
  ctl_frozen (sc_control s) = true -> streamConsumer_consumePart onCommit s part = (Some ErrInvalidMediaState, s).
Proof. intros Hf. unfold streamConsumer_consumePart. by rewrite Hf. Qed.

Lemma consume_all_app s ps1 ps2 r s' :
  consume_all onCommit s (ps1 ++ ps2) = (Ok r, s') ->
  exists s1, consume_all onCommit s1 ps2 = (Ok r, s').
Proof.
  revert s. induction ps1 as [|p ps1 IH]; intros s Hc; simpl in Hc; [eauto|].
  destruct (streamConsumer_consumePart onCommit s p) as [[e|] s1]; [done|eauto].
Qed.

Lemma consumePart_end s part s1 :
  part_Type part = PartEndOfTrack -> streamConsumer_consumePart onCommit s part = (None, s1) ->
  part_Payload part = [] /\ ctl_frozen (sc_control s1) = true /\ ctl_sawEndOfTrack (sc_control s1) = true /\
  sc_assembler s1 = sc_assembler s /\ asm_active (sc_assembler s) = ∅.
Proof.
  intros Ht Hc. unfold streamConsumer_consumePart in Hc. rewrite Ht in Hc. destruct (ctl_frozen _); [done|].
  change (PartEndOfTrack =? PartNextRequestPolicy) with false in Hc. change (PartEndOfTrack =? PartEndOfTrack) with true in Hc.
  cbn iota in Hc. unfold consumeEndOfTrack in Hc.
  destruct (ctl_sawEndOfTrack _); [done|]. destruct (Z.eqb_spec (zlen (part_Payload part)) 0) as [Hz|]; [|done].
  apply zlen_0_nil in Hz. cbn [negb] in Hc. destruct (Nat.ltb_spec 0 (size (asm_active (sc_assembler s)))); [done|].
  destruct (canCompleteByEndOfTrack _); [|done]. cbn [negb] in Hc. injection Hc as <-. split_and!; try done.
  apply map_size_empty_inv. lia.
Qed.

Lemma finish_end s rc s' :
  ctl_sawEndOfTrack (sc_control s) = true -> streamConsumer_finish onCommit s = (Ok rc, s') ->
  trackComplete (sc_assembler s') = true /\ canCompleteByEndOfTrack (sc_assembler s) = true.
Proof.
  intros Hsaw. unfold streamConsumer_finish. rewrite Hsaw. destruct (finishResponse _); [done|].
  destruct (responseControl_commit _ _); [|done]. unfold applyEndOfTrackCompletion.
  destruct (canCompleteByEndOfTrack _); [|done]. cbn [negb]. set (a1 := _ <| asm_endOfTrackDone := true |>).
  assert (asm_endOfTrackDone (commitProgress onCommit a1).2 = true) as Hd.
  { unfold commitProgress, run_onCommit. repeat (case_match; simplify_eq/=); done. }
  destruct (commitProgress onCommit a1) as [[e|] a2]; [done|]. intros H'. injection H' as <- <-.
  split; [|done]. unfold trackComplete. simpl in *. by rewrite Hd.
Qed.

(** *** Any body, however cut or malformed *)

Lemma finish_assembler maxBytes s :
  asm_inv maxBytes (sc_assembler s) -> asm_inv maxBytes (sc_assembler (streamConsumer_finish onCommit s).2).
Proof.
  intros Hi. pose proof (consume_all_assembler maxBytes s [] Hi) as H'. simpl in H'.
  unfold streamConsumer_finish in *. destruct (finishResponse _); [done|].
  destruct (responseControl_commit _ _); [|done]. destruct (ctl_sawEndOfTrack _); [|done].
  pose proof (applyEndOfTrackCompletion_inv maxBytes _ Hi).
  by destruct (applyEndOfTrackCompletion onCommit _) as [[e|] a2].
Qed.

Lemma consumeStream_loop_assembler {S} `{!IoReader S} maxBytes fuel ctx i (rd : Reader S) s r s' :
  asm_inv maxBytes (sc_assembler s) -> consumeStream_loop onCommit fuel ctx i rd s = Some (r, s') ->
  asm_inv maxBytes (sc_assembler s') \/
  ((exists e, r = Err e /\ recovery_signal e = false) /\ exists a1, asm_inv maxBytes a1 /\ torn a1 (sc_assembler s')).
Proof.
  revert i rd s. induction fuel as [|fuel IH]; intros i rd s Hi Hc; simpl in Hc; [done|].
  destruct (ctx i); [by simplify_eq; left|]. destruct (Reader_ReadPart rd) as [[[part|]|e] rd1].
  - pose proof (consumePart_assembler s part) as Ha. pose proof (consumePart_post onCommit maxBytes _ part Hi) as Hpost.
    destruct (streamConsumer_consumePart onCommit s part) as [err s1]. simpl in Ha.
    assert (asm_inv maxBytes (sc_assembler s1) \/ (fatal err /\ torn (sc_assembler s) (sc_assembler s1))) as [Hi1|[He Ht]].
    { destruct Ha as [->|Ha]; [by left|]. by rewrite <- Ha in Hpost. }
    + destruct err; [simplify_eq; by left|]. by eapply IH.
    + destruct He as (e & -> & He). simplify_eq. right. split; [by exists e|]. by exists (sc_assembler s).
  - pose proof (finish_assembler maxBytes s Hi) as Hf. injection Hc as Hc. rewrite Hc in Hf. by left.
  - simplify_eq. by left.
Qed.

Lemma consumeStream_loop_round {S} `{!IoReader S} fuel ctx i (rd : Reader S) s rc s' :
  ctl_inv (sc_control s) -> consumeStream_loop onCommit fuel ctx i rd s = Some (Ok rc, s') ->
  round_ok (sc_redirects s) rc.
Proof.
  revert i rd s. induction fuel as [|fuel IH]; intros i rd s Hi Hc; simpl in Hc; [done|].
  destruct (ctx i); [done|]. destruct (Reader_ReadPart rd) as [[[part|]|e] rd1]; [| |done].
  - pose proof (consumePart_ctl_inv s part Hi) as Hi1. pose proof (consumePart_redirects s part) as Hr.
    destruct (streamConsumer_consumePart onCommit s part) as [[e|] s1]; [done|]. simpl in *.
    rewrite <- Hr. by eapply IH.
  - injection Hc as Hc. by eapply finish_ok.
Qed.

Lemma ctl_inv_new a contexts redirects :
  option_all cs_inv contexts -> ctl_inv (sc_control (newStreamConsumerState (F := F) (W := W) a contexts redirects)).
Proof.
  intros Hc. split; simpl; try done; try (unfold MaxPolicyBackoffMs; lia).
  destruct contexts as [[? ? ?]|]; simpl in *; [done|apply cs_inv_new].
Qed.

(** *** A whole response *)

Lemma consumeStreamState_round {S} `{!IoReader S} ctx (body : S) a contexts redirects rc a' :
  option_all cs_inv contexts ->
  consumeStreamState onCommit ctx body a contexts redirects = (Ok rc, a') -> round_ok redirects rc.
Proof.
  intros Hcs. unfold consumeStreamState.
  destruct (consumeStream_loop _ _ _ _ _ _) as [[r s']|] eqn:E; [|done]. intros Hc. injection Hc as -> _.
  apply (consumeStream_loop_round _ _ _ _ (newStreamConsumerState a contexts redirects) _ _ (ctl_inv_new a contexts redirects Hcs) E).
Qed.

Lemma consumeStreamState_accounts {S} `{!IoReader S} ctx (body : S) maxBytes a contexts redirects :
  asm_inv maxBytes a ->
  let '(r, a') := consumeStreamState onCommit ctx body a contexts redirects in
  asm_inv maxBytes a' \/
  ((exists e, r = Err e /\ recovery_signal e = false) /\ exists a1, asm_inv maxBytes a1 /\ torn a1 a').
Proof.
  intros Hi. unfold consumeStreamState.
  destruct (consumeStream_loop _ _ _ _ _ _) as [[r s']|] eqn:E; [|by left].
  exact (consumeStream_loop_assembler maxBytes _ _ _ _ (newStreamConsumerState a contexts redirects) r s' Hi E).
Qed.

(** ** Claims *)

(** C30. A round commits only safe control state: from a response consumed
    without error, whatever its bytes, the backoff is at most 30 s, a cookie
    has 1 to 4096 bytes and is well-formed, a redirect has passed endpoint
    validation, loop detection and the redirect budget, and the contexts keep
    their bounds. *)
Theorem round_commit_safe {S} `{!IoReader S} ctx (body : S) a contexts redirects rc a' :
  option_all cs_inv contexts ->
  consumeStreamState onCommit ctx body a contexts redirects = (Ok rc, a') -> round_ok redirects rc.
Proof. apply consumeStreamState_round. Qed.

(** C36. Consuming a response body is consuming its parts in order and then
    finishing: for a framed body within the limits, in any chunking and without
    cancellation, the stream loop gives the result of [consume_all]. *)
Theorem response_refines_parts {S} `{!IoReader S} `{!ByteStream S} ctx (body : S) a contexts redirects ps :
  (forall i, ctx i = None) -> stream_of body = frame_parts ps -> Forall part_wf ps ->
  zlen ps <= MaxParts -> zlen (stream_of body) <= MaxRoundBytes ->
  consumeStreamState onCommit ctx body a contexts redirects =
    (let '(r, s) := consume_all onCommit (newStreamConsumerState a contexts redirects) ps in (r, sc_assembler s)).
Proof.
  intros Hctx Hb Hwf Hn Hl. unfold consumeStreamState.
  rewrite (consumeStream_loop_framed _ ctx 0 (NewReader body MaxRoundBytes) _ ps Hctx); try done.
  - unfold MaxParts, zlen in *. lia.
Qed.

(** The assembler's accounting survives any response: arbitrary bytes,
    any chunking, transport errors, cancellation between parts, recovery
    signals; the invariant holds afterwards unless a write was torn, which the
    response then reports with an error the download does not recover from. *)
Theorem response_keeps_accounts {S} `{!IoReader S} ctx (body : S) maxBytes a contexts redirects :
  asm_inv maxBytes a ->
  let '(r, a') := consumeStreamState onCommit ctx body a contexts redirects in
  asm_inv maxBytes a' \/ ((exists e, r = Err e /\ recovery_signal e = false) /\ exists a1, asm_inv maxBytes a1 /\ torn a1 a').
Proof. apply consumeStreamState_accounts. Qed.

(** END_OF_TRACK is authoritative and last: a response that contains it
    and succeeds ends with it, its payload is empty, no header was open, an
    initialization segment and at least one media segment are on file, and the
    track is complete whatever its expected duration. *)
Theorem end_of_track_authoritative s ps1 part ps2 rc s' :
  part_Type part = PartEndOfTrack ->
  consume_all onCommit s (ps1 ++ part :: ps2) = (Ok rc, s') ->
  ps2 = [] /\ part_Payload part = [] /\ trackComplete (sc_assembler s') = true /\
  exists a, canCompleteByEndOfTrack a = true /\ asm_active a = ∅ /\
    sc_assembler s' = (applyEndOfTrackCompletion onCommit a).2.
Proof.
  intros Ht Hc. destruct (consume_all_app _ _ _ _ _ Hc) as (s1 & Hc1). simpl in Hc1.
  destruct (streamConsumer_consumePart onCommit s1 part) as [[e|] s2] eqn:Ep; [done|].
  destruct (consumePart_end _ _ _ Ht Ep) as (Hpl & Hfr & Hsaw & Ha & Hact).
  destruct ps2 as [|p2 ps2]; simpl in Hc1; [|by rewrite consumePart_frozen in Hc1].
  destruct (finish_end _ _ _ Hsaw Hc1) as [Hcomp Hcan]. split_and!; try done.
  exists (sc_assembler s2). split_and!; [done|by rewrite Ha|].
  unfold streamConsumer_finish in Hc1. rewrite Hsaw in Hc1. destruct (finishResponse _); [done|].
  destruct (responseControl_commit _ _); [|done]. destruct (applyEndOfTrackCompletion _ _) as [[e|] a2]; [done|].
  injection Hc1 as _ <-. done.
Qed.

(** Recovery after a SABR error can be blocked by its own response: when
    the error arrives while a media header is open, the aborted response leaves
    the header open in the assembler, and the retried response is refused at
    its first part if it announces the segment under the same header id,
    although a fresh assembler accepts it. *)
Theorem recovery_blocked_by_open_header s headerPayload errorPayload directive s1 rest :
  ctl_frozen (sc_control s) = false -> ctl_hasSabrError (sc_control s) = false -> ctl_hasReload (sc_control s) = false ->
  streamConsumer_consumePart onCommit s (mkPart PartMediaHeader headerPayload) = (None, s1) ->
  parseSabrError errorPayload = Ok directive ->
  (exists s2,
    consume_all onCommit s (mkPart PartMediaHeader headerPayload :: mkPart PartSABRError errorPayload :: rest) =
      (Err (SabrErrorSignal (se_Type directive) (se_Code directive)), s2) /\
    forall contexts redirects retried,
      (consume_all onCommit (newStreamConsumerState (sc_assembler s2) contexts redirects)
        (mkPart PartMediaHeader headerPayload :: retried)).1 = Err ErrInvalidMediaState).
Proof.
  intros Hfr He1 He2 Hh Hd. cbn [consume_all]. rewrite Hh.
  assert (exists header, unmarshalMediaHeader headerPayload = Ok header /\ validateMediaHeader header = None /\
    is_Some (asm_active (sc_assembler s1) !! hdr_HeaderID header) /\ sc_control s1 = sc_control s) as (header & Hu & Hv & Hin & Hc).
  { unfold streamConsumer_consumePart in Hh. rewrite Hfr in Hh.
    change (trackAssembler_consumePart _ _ _) with (consumeHeader (sc_assembler s) headerPayload) in Hh. simpl in Hh.
    unfold consumeHeader in Hh. destruct (unmarshalMediaHeader headerPayload) as [header|]; [|done]. exists header.
    destruct (validateMediaHeader header); [done|]. repeat (case_match; simplify_eq/=);
      (split_and!; try done; by rewrite lookup_insert_eq). }
  assert (streamConsumer_consumePart onCommit s1 (mkPart PartSABRError errorPayload) =
    (Some (SabrErrorSignal (se_Type directive) (se_Code directive)), s1 <| sc_control := (sc_control s1) <| ctl_hasSabrError := true |> |>)) as ->.
  { unfold streamConsumer_consumePart. rewrite Hc, Hfr. simpl. unfold consumeSabrError. assert (ctl_hasSabrError (sc_control s) || ctl_hasReload (sc_control s) = false) as -> by (by rewrite He1, He2). by rewrite Hd. }
  eexists. split; [done|]. intros contexts redirects retried.
  change (streamConsumer_consumePart onCommit _ _) with
    (let '(err, assembler) := consumeHeader (sc_assembler s1) headerPayload in
     (err, (newStreamConsumerState (sc_assembler s1) contexts redirects) <| sc_assembler := assembler |>)).
  unfold consumeHeader. by rewrite Hu, Hv, bool_decide_true.
Qed.

End Lemmas.

(** ** Witnesses *)

Section Witnesses.
#[local] Instance w_tables : UnicodeTables := {| unicode_lower s := s |}.
#[local] Instance w_digest : Sha256 := {| sha256_Sum256 data := take 32 data |}.

Definition w_redirects : redirectTracker := newRedirectTracker sample_url.
Definition w_policy_part : Part :=
  mkPart PartNextRequestPolicy (encode_fields [PbVarint fPolicyBackoffTimeMs 1500;
    PbBytes fPolicyPlaybackCookie (encode_fields [PbVarint fPlaybackCookieField1 7])]).
Definition w_redirect_part : Part := mkPart PartSABRRedirect (encode_fields [PbBytes fSabrRedirectURL sample_url2]).
Definition w_end_part : Part := mkPart PartEndOfTrack [].
Definition w_error_payload : bytes := encode_fields [PbBytes fSabrErrorType (lit "sabr.media"); PbVarint fSabrErrorCode 3].
Definition w_parts : list Part := w_policy_part :: w_redirect_part :: track_parts w_format_payload w_init w_segs ++ [w_end_part].
Definition w_consumer : streamConsumer bytes unit := newStreamConsumerState w_new None w_redirects.
Definition never : nat -> option go_error := fun _ => None.

Lemma round_commit_safe_witness :
  exists rc a', consumeStreamState None never (frame_parts w_parts) w_new None w_redirects = (Ok rc, a') /\
    round_ok w_redirects rc.
Proof.
  destruct (consumeStreamState None never (frame_parts w_parts) w_new None w_redirects) as [[rc|e] a'] eqn:E.
  - exists rc, a'. split; [reflexivity|]. exact (round_commit_safe None never _ w_new None w_redirects rc a' I E).
  - exfalso. apply (f_equal (fun o => match o.1 with Ok _ => true | Err _ => false end)) in E.
    vm_compute in E. discriminate.
Defined.

Lemma response_refines_parts_witness :
  consumeStreamState None never (map (fun b => [b]) (frame_parts w_parts)) w_new None w_redirects =
    (let '(r, s) := consume_all None (newStreamConsumerState w_new None w_redirects) w_parts in (r, sc_assembler s)).
Proof.
  apply (response_refines_parts (S := list bytes) None never); [reflexivity|vm_compute; reflexivity| |by vm_compute|by vm_compute].
  repeat constructor; vm_compute; discriminate.
Defined.

Lemma response_keeps_accounts_witness :
  let '(r, a') := consumeStreamState None never (frame_parts w_parts) w_new None w_redirects in
  asm_inv 100 a' \/ ((exists e, r = Err e /\ recovery_signal e = false) /\ exists a1, asm_inv 100 a1 /\ torn a1 a').
Proof. apply response_keeps_accounts. apply asm_inv_new; [reflexivity|lia]. Defined.

Lemma end_of_track_authoritative_witness :
  exists rc s', consume_all None w_consumer w_parts = (Ok rc, s') /\ trackComplete (sc_assembler s') = true.
Proof.
  destruct (consume_all None w_consumer w_parts) as [[rc|e] s'] eqn:E.
  - exists rc, s'. split; [reflexivity|].
    exact (proj1 (proj2 (proj2 (end_of_track_authoritative None w_consumer
      (w_policy_part :: w_redirect_part :: track_parts w_format_payload w_init w_segs) w_end_part [] rc s' eq_refl E)))).
  - exfalso. apply (f_equal (fun o => match o.1 with Ok _ => true | Err _ => false end)) in E.
    vm_compute in E. discriminate.
Defined.

(** The retried response is the one a fresh assembler accepts. *)
Lemma recovery_blocked_by_open_header_witness :
  exists s2,
    (consume_all None w_consumer [mkPart PartMediaHeader (ms_payload w_init); mkPart PartSABRError w_error_payload]) =
      (Err (SabrErrorSignal (lit "sabr.media") 3), s2) /\
    (consume_all None (newStreamConsumerState (sc_assembler s2) None w_redirects)
      (ms_parts w_init ++ mkPart PartFormatInitializationMetadata w_format_payload :: [])).1 = Err ErrInvalidMediaState.
Proof.
  destruct (recovery_blocked_by_open_header None w_consumer (ms_payload w_init) w_error_payload (mkSabrError (lit "sabr.media") 3)
    (streamConsumer_consumePart None w_consumer (mkPart PartMediaHeader (ms_payload w_init))).2 [])
    as (s2 & H1 & H2); [reflexivity|reflexivity|reflexivity|vm_compute; reflexivity|vm_compute; reflexivity|].
  exists s2. split; [exact H1|]. apply H2.
Defined.

End Witnesses.
