(* ===== verification/Request.v ===== *)
(** * Playback requests

    [playbackRequest] of [proto.go] and the request-body readers of
    [assembler.go] and [control.go]. *)
From S2P Require Import Prelude Errors Varint Wire Messages Directives ContextState.

(** ** Definitions *)

Definition fAbrStatePlayerTimeMs : Z := 28.
Definition fAbrStateEnabledTracks : Z := 40.
Definition fAbrStateDrcEnabled : Z := 46.
Definition fAbrStateAudioTrackID : Z := 69.
Definition fStreamerCtxClientInfo : Z := 1.
Definition fStreamerCtxPOToken : Z := 2.
Definition fStreamerCtxPlaybackCookie : Z := 3.
Definition fAbrClientState : Z := 1.
Definition fAbrSelectedFormats : Z := 2.
Definition fAbrBufferedRanges : Z := 3.
Definition fAbrUstreamerConfig : Z := 5.
Definition fAbrPreferredAudioFormats : Z := 16.
Definition fAbrPreferredVideoFormats : Z := 17.
Definition fAbrStreamerContext : Z := 19.
Definition enabledTrackTypesAudioOnly : Z := 1.
Definition enabledTrackTypesVideoOnly : Z := 2.

Record playbackRequest := mkPlaybackRequest {
  pr_Format : FormatID;
  pr_TrackKind : bytes;
  pr_UstreamerConfig : bytes;
  pr_ClientInfo : ClientInfo;
  pr_POToken : bytes;
  pr_BufferedRanges : list BufferedRange;
  pr_RequestNumber : Z;
  pr_PlayerTimeMs : Z;  (* int64 *)
  pr_SelectedFormat : bool;
  pr_DrcEnabled : bool;
  pr_AudioTrackID : bytes;
  pr_PlaybackCookie : bytes;
  pr_Contexts : option sabrContextState
}.

Definition is_video (r : playbackRequest) : bool := bool_decide (pr_TrackKind r = lit "video").

(** [for _, buffered := range request.BufferedRanges] *)
Fixpoint append_ranges (body : bytes) (ranges : list BufferedRange) : res bytes :=
  match ranges with
  | [] => Ok body
  | buffered :: ranges =>
      encoded ← BufferedRange_marshal buffered;
      append_ranges (appendProtobufBytes body fAbrBufferedRanges encoded) ranges
  end.

Definition marshal_clientState (r : playbackRequest) : bytes :=
  let enabledTracks := if is_video r then enabledTrackTypesVideoOnly else enabledTrackTypesAudioOnly in
  let buf := appendProtobufVarint [] fAbrStatePlayerTimeMs (u64 (pr_PlayerTimeMs r)) in
  let buf := appendProtobufVarint buf fAbrStateEnabledTracks enabledTracks in
  let buf := if pr_DrcEnabled r then appendProtobufVarint buf fAbrStateDrcEnabled 1 else buf in
  if nonempty (pr_AudioTrackID r) then appendProtobufBytes buf fAbrStateAudioTrackID (pr_AudioTrackID r) else buf.

Definition marshal_streamer (order : list Z) (r : playbackRequest) : bytes :=
  let buf := appendProtobufBytes [] fStreamerCtxClientInfo (ClientInfo_marshal (pr_ClientInfo r)) in
  let buf := if nonempty (pr_POToken r) then appendProtobufBytes buf fStreamerCtxPOToken (pr_POToken r) else buf in
  let buf := if nonempty (pr_PlaybackCookie r)
             then appendProtobufBytes buf fStreamerCtxPlaybackCookie (pr_PlaybackCookie r) else buf in
  appendToStreamer order (pr_Contexts r) buf.

(** [order] is the iteration order of the context map. *)
Definition playbackRequest_marshal (order : list Z) (r : playbackRequest) : res bytes :=
  if zlen (pr_UstreamerConfig r) =? 0 then Err ErrMissingConfig
  else
    _ ← validateFormatIDWire (pr_Format r);
    _ ← validateClientInfoWire (pr_ClientInfo r);
    if pr_PlayerTimeMs r <? 0 then Err ErrInvalidMediaState
    else if pr_RequestNumber r <? 0 then Err ErrInvalidMediaState
    else
      let clientState := marshal_clientState r in
      let streamer := marshal_streamer order r in
      let body := appendProtobufBytes [] fAbrClientState clientState in
      let body := if pr_SelectedFormat r
                  then appendProtobufBytes body fAbrSelectedFormats (FormatID_marshal (pr_Format r)) else body in
      body ← append_ranges body (pr_BufferedRanges r);
      let body := appendProtobufBytes body fAbrUstreamerConfig (pr_UstreamerConfig r) in
      let body := if is_video r
                  then appendProtobufBytes body fAbrPreferredVideoFormats (FormatID_marshal (pr_Format r))
                  else appendProtobufBytes body fAbrPreferredAudioFormats (FormatID_marshal (pr_Format r)) in
      Ok (appendProtobufBytes body fAbrStreamerContext streamer).

(** *** Readers of a request body *)

(** [return value, nil] in the loop is [Return (Ok value)]. *)
Definition decodeClientStatePlayerTime_body (acc : unit) (num wt : Z) (r : fieldReader) : flow unit (res Z) :=
  if (num =? fAbrStatePlayerTimeMs) && (wt =? wireVarint) then
    let '(raw, r) := fieldReader_varint r in
    match fr_err r with
    | Some e => Return (Err e)
    | None =>
        match int64FromUint64 raw with
        | Err e => Return (Err e)
        | Ok value => Return (Ok value)
        end
    end
  else Next tt (fieldReader_skip num wt r).

Definition decodeClientStatePlayerTime (state : bytes) : res Z :=
  scan_message decodeClientStatePlayerTime_body tt (fun _ => Ok 0) state.

Definition decodePlaybackRequestBody_body (acc : Z * Z * bool) (num wt : Z) (r : fieldReader)
  : flow (Z * Z * bool) (res (Z * Z * bool)) :=
  let '(playerTimeMs, bufferedCount, selected) := acc in
  if (num =? fAbrClientState) && (wt =? wireBytes) then
    let '(state, r) := fieldReader_bytes r in
    match fr_err r with
    | Some e => Return (Err e)
    | None =>
        match decodeClientStatePlayerTime state with
        | Err e => Return (Err e)
        | Ok playerTimeMs => Next (playerTimeMs, bufferedCount, selected) r
        end
    end
  else if (num =? fAbrSelectedFormats) && (wt =? wireBytes) then
    Next (playerTimeMs, bufferedCount, true) (fieldReader_bytes r).2
  else if (num =? fAbrBufferedRanges) && (wt =? wireBytes) then
    Next (playerTimeMs, bufferedCount + 1, selected) (fieldReader_bytes r).2
  else Next acc (fieldReader_skip num wt r).

(** Player time, number of buffered ranges, and whether a format is selected. *)
Definition decodePlaybackRequestBody (body : bytes) : res (Z * Z * bool) :=
  scan_message decodePlaybackRequestBody_body (0, 0, false) Ok body.

(** The first bytes field numbered [field], if any ([streamerContextBytes],
    [playbackCookieFromStreamer]): the bytes are returned with the reader's
    error. *)
Definition first_bytes_body (field : Z) (acc : unit) (num wt : Z) (r : fieldReader) : flow unit (res (option bytes)) :=
  if (num =? field) && (wt =? wireBytes) then
    let '(bs, r) := fieldReader_bytes r in
    match fr_err r with
    | Some e => Return (Err e)
    | None => Return (Ok (Some bs))
    end
  else Next tt (fieldReader_skip num wt r).

Definition streamerContextBytes (body : bytes) : res (option bytes) :=
  scan_message (first_bytes_body fAbrStreamerContext) tt (fun _ => Ok None) body.

Definition playbackCookieFromStreamer (streamer : bytes) : res (option bytes) :=
  scan_message (first_bytes_body fStreamerCtxPlaybackCookie) tt (fun _ => Ok None) streamer.

Definition bufferedRangeBodies_body (ranges : list bytes) (num wt : Z) (r : fieldReader)
  : flow (list bytes) (res (list bytes)) :=
  if (num =? fAbrBufferedRanges) && (wt =? wireBytes) then
    let '(bs, r) := fieldReader_bytes r in Next (ranges ++ [bs]) r
  else Next ranges (fieldReader_skip num wt r).

Definition bufferedRangeBodies (body : bytes) : res (list bytes) :=
  scan_message bufferedRangeBodies_body [] Ok body.

(** [containsProtobufField]: a read error ends the search with false. *)
Definition containsProtobufField_body (field : Z) (acc : unit) (num wt : Z) (r : fieldReader) : flow unit (res bool) :=
  if num =? field then Return (Ok true)
  else
    let r := fieldReader_skip num wt r in
    match fr_err r with
    | Some _ => Return (Ok false)
    | None => Next tt r
    end.
Definition containsProtobufField (data : bytes) (field : Z) : bool :=
  match scan_message (containsProtobufField_body field) tt (fun _ => Ok false) data with
  | Ok b => b
  | Err _ => false
  end.

(** ** The abstract request *)

Definition clientState_fields (r : playbackRequest) : list pbfield :=
  [PbVarint fAbrStatePlayerTimeMs (u64 (pr_PlayerTimeMs r));
   PbVarint fAbrStateEnabledTracks (if is_video r then enabledTrackTypesVideoOnly else enabledTrackTypesAudioOnly)] ++
  (if pr_DrcEnabled r then [PbVarint fAbrStateDrcEnabled 1] else []) ++
  (if nonempty (pr_AudioTrackID r) then [PbBytes fAbrStateAudioTrackID (pr_AudioTrackID r)] else []).

Definition streamer_prefix (r : playbackRequest) : list pbfield :=
  [PbBytes fStreamerCtxClientInfo (ClientInfo_marshal (pr_ClientInfo r))] ++
  (if nonempty (pr_POToken r) then [PbBytes fStreamerCtxPOToken (pr_POToken r)] else []) ++
  (if nonempty (pr_PlaybackCookie r) then [PbBytes fStreamerCtxPlaybackCookie (pr_PlaybackCookie r)] else []).

Definition request_streamer_fields (r : playbackRequest) : list pbfield :=
  streamer_prefix r ++ match pr_Contexts r with Some state => streamer_fields state | None => [] end.

Definition request_fields (r : playbackRequest) (ranges : list bytes) : list pbfield :=
  [PbBytes fAbrClientState (encode_fields (clientState_fields r))] ++
  (if pr_SelectedFormat r then [PbBytes fAbrSelectedFormats (FormatID_marshal (pr_Format r))] else []) ++
  map (PbBytes fAbrBufferedRanges) ranges ++
  [PbBytes fAbrUstreamerConfig (pr_UstreamerConfig r);
   PbBytes (if is_video r then fAbrPreferredVideoFormats else fAbrPreferredAudioFormats) (FormatID_marshal (pr_Format r));
   PbBytes fAbrStreamerContext (encode_fields (request_streamer_fields r))].

(** The order the map is iterated in. *)
Definition valid_order (order : list Z) (contexts : option sabrContextState) : Prop :=
  match contexts with
  | Some state => order ≡ₚ elements (dom (cs_entries state))
  | None => True
  end.

(** ** Lemmas *)

Ltac to_fields_here :=
  rewrite ?appendProtobufVarint_field, ?appendProtobufBytes_field
    by (vm_compute; split; [discriminate|reflexivity]).

Ltac flatten_fields :=
  rewrite ?encode_fields_app, ?encode_fields_cons, ?encode_fields_nil, ?app_nil_l, ?app_nil_r, <- ?app_assoc.

Lemma marshal_clientState_fields r : marshal_clientState r = encode_fields (clientState_fields r).
Proof. unfold marshal_clientState, clientState_fields. repeat case_match; to_fields_here; by flatten_fields. Qed.

Lemma marshal_streamer_fields order r :
  valid_order order (pr_Contexts r) -> marshal_streamer order r = encode_fields (request_streamer_fields r).
Proof.
  intros Ho. unfold marshal_streamer, request_streamer_fields. rewrite encode_fields_app.
  assert (forall buf, appendToStreamer order (pr_Contexts r) buf =
    buf ++ encode_fields match pr_Contexts r with Some state => streamer_fields state | None => [] end) as ->.
  { intros buf. destruct (pr_Contexts r); [by apply appendToStreamer_fields|]. by rewrite app_nil_r. }
  f_equal. unfold streamer_prefix. repeat case_match; to_fields_here; by flatten_fields.
Qed.

Lemma append_ranges_fields body ranges out :
  append_ranges body ranges = Ok out <->
  exists encoded, Forall2 (fun br e => BufferedRange_marshal br = Ok e) ranges encoded /\
    out = body ++ encode_fields (map (PbBytes fAbrBufferedRanges) encoded).
Proof.
  revert body. induction ranges as [|br ranges IH]; intros body; simpl.
  - split; [intros [= <-]; exists []; by rewrite app_nil_r|]. intros (e & He & ->). inversion He. by rewrite app_nil_r.
  - rewrite bind_Ok_iff. split.
    + intros (e & He & Hr). apply IH in Hr as (es & Hes & ->). exists (e :: es). split; [by constructor|].
      to_fields_here. simpl map. by rewrite encode_fields_cons, app_assoc.
    + intros (es & Hes & ->). inversion Hes as [|? e ? es' He Hes' E1 E2]; subst. exists e. split; [done|].
      apply IH. exists es'. split; [done|]. to_fields_here. simpl map. by rewrite encode_fields_cons, app_assoc.
Qed.

(** What makes a request valid, and its body. *)
Record request_valid (r : playbackRequest) : Prop := {
  rv_ustreamer : pr_UstreamerConfig r <> [];
  rv_format : validateFormatIDWire (pr_Format r) = Ok tt;
  rv_client : validateClientInfoWire (pr_ClientInfo r) = Ok tt;
  rv_time : 0 <= pr_PlayerTimeMs r;
  rv_number : 0 <= pr_RequestNumber r
}.

Lemma playbackRequest_marshal_fields order r body :
  valid_order order (pr_Contexts r) ->
  playbackRequest_marshal order r = Ok body <->
  request_valid r /\ exists ranges, Forall2 (fun br e => BufferedRange_marshal br = Ok e) (pr_BufferedRanges r) ranges /\
    body = encode_fields (request_fields r ranges).
Proof.
  intros Ho. unfold playbackRequest_marshal. rewrite marshal_clientState_fields, (marshal_streamer_fields order r Ho).
  assert (forall ranges,
    (let b := (if pr_SelectedFormat r
               then appendProtobufBytes (appendProtobufBytes [] fAbrClientState (encode_fields (clientState_fields r)))
                      fAbrSelectedFormats (FormatID_marshal (pr_Format r))
               else appendProtobufBytes [] fAbrClientState (encode_fields (clientState_fields r)))
               ++ encode_fields (map (PbBytes fAbrBufferedRanges) ranges) in
     let b := appendProtobufBytes b fAbrUstreamerConfig (pr_UstreamerConfig r) in
     let b := if is_video r then appendProtobufBytes b fAbrPreferredVideoFormats (FormatID_marshal (pr_Format r))
              else appendProtobufBytes b fAbrPreferredAudioFormats (FormatID_marshal (pr_Format r)) in
     appendProtobufBytes b fAbrStreamerContext (encode_fields (request_streamer_fields r)))
    = encode_fields (request_fields r ranges)) as Hbody.
  { intros ranges. unfold request_fields. cbv zeta. destruct (pr_SelectedFormat r), (is_video r); to_fields_here; by flatten_fields. }
  split.
  - destruct (Z.eqb_spec (zlen (pr_UstreamerConfig r)) 0) as [|Hu]; [done|]. intros H.
    apply bind_Ok_inv in H as ([] & Hf & H). apply bind_Ok_inv in H as ([] & Hc & H).
    destruct (Z.ltb_spec (pr_PlayerTimeMs r) 0); [done|]. destruct (Z.ltb_spec (pr_RequestNumber r) 0); [done|].
    apply bind_Ok_inv in H as (b & Hr & [= <-]). apply append_ranges_fields in Hr as (ranges & Hr & ->).
    split; [split; try done; intros E; by rewrite E in Hu|]. exists ranges. split; [done|]. apply Hbody.
  - intros [[Hu Hf Hc Ht Hn] (ranges & Hr & ->)].
    destruct (Z.eqb_spec (zlen (pr_UstreamerConfig r)) 0) as [Hz|]; [by apply zlen_0_nil in Hz|].
    rewrite Hf, Hc. cbn [mbind result_bind]. assert (pr_PlayerTimeMs r <? 0 = false) as -> by lia.
    assert (pr_RequestNumber r <? 0 = false) as -> by lia. apply bind_Ok_iff. eexists. split; [|by rewrite <- Hbody].
    apply append_ranges_fields. by exists ranges.
Qed.

(** *** Reading a request back *)

Lemma encode_field_bytes_length num bs : zlen bs <= zlen (encode_field (PbBytes num bs)).
Proof.
  unfold encode_field, pb_payload. rewrite !zlen_app.
  pose proof (zlen_nonneg (appendU64 [] (pb_key (PbBytes num bs)))). pose proof (zlen_nonneg (appendU64 [] (zlen bs))). lia.
Qed.

(** Every bytes field of a message is no longer than the message. *)
Lemma encode_fields_bound fs num bs :
  In (PbBytes num bs) fs -> zlen bs <= zlen (encode_fields fs).
Proof.
  induction fs as [|f fs IH]; [done|]. rewrite encode_fields_cons, zlen_app. intros [->|Hin].
  - pose proof (encode_field_bytes_length num bs). pose proof (zlen_nonneg (encode_fields fs)). lia.
  - specialize (IH Hin). pose proof (zlen_nonneg (encode_field f)). lia.
Qed.

(** Well-formedness of a list of bytes fields from the size of the message. *)
Lemma bytes_fields_wf fs :
  zlen (encode_fields fs) <= MaxProtobufFieldBytes ->
  (forall f, In f fs -> 1 <= pb_num f <= MaxUint32 /\ match f with PbVarint _ v => is_u64 v | PbBytes _ _ => True end) ->
  Forall pb_wf fs.
Proof.
  intros Hl Hf. apply Forall_forall. intros f Hin%list_elem_of_In. destruct (Hf f Hin) as [Hn Hv]. split; [done|].
  destruct f as [num v|num bs]; [done|]. pose proof (encode_fields_bound fs num bs Hin). lia.
Qed.

(** *** The readers on an abstract message *)

Definition playerTime_absorb (acc : unit) (f : pbfield) : unit + res Z :=
  match f with
  | PbVarint num v => if num =? fAbrStatePlayerTimeMs then inr (int64FromUint64 v) else inl tt
  | PbBytes _ _ => inl tt
  end.

Definition requestBody_absorb (acc : Z * Z * bool) (f : pbfield) : Z * Z * bool + res (Z * Z * bool) :=
  let '(t, n, sel) := acc in
  match f with
  | PbVarint _ _ => inl acc
  | PbBytes num bs =>
      if num =? fAbrClientState then
        match decodeClientStatePlayerTime bs with Err e => inr (Err e) | Ok t => inl (t, n, sel) end
      else if num =? fAbrSelectedFormats then inl (t, n, true)
      else if num =? fAbrBufferedRanges then inl (t, n + 1, sel)
      else inl acc
  end.

Definition first_bytes_absorb (field : Z) (acc : unit) (f : pbfield) : unit + res (option bytes) :=
  match f with
  | PbVarint _ _ => inl tt
  | PbBytes num bs => if num =? field then inr (Ok (Some bs)) else inl tt
  end.


#[export] Instance playerTime_absorbs : BodyAbsorbs decodeClientStatePlayerTime_body playerTime_absorb.
Proof.
  unfold BodyAbsorbs, decodeClientStatePlayerTime_body, playerTime_absorb.
  intros [] f r rest Hwf He Hr. pose proof (fieldReader_skip_payload r f rest Hwf Hr) as Hskip.
  destruct Hwf as [_ Hf]; destruct f as [num v|num v]; cbn [pb_num pb_wire pb_payload] in *.
  - change (wireVarint =? wireVarint) with true. rewrite andb_true_r, Hskip, (fieldReader_varint_payload _ _ _ Hf Hr).
    simpl. rewrite He. repeat (case_match; simplify_eq/=); auto.
  - change (wireBytes =? wireVarint) with false. by rewrite andb_false_r, Hskip.
Qed.

#[export] Instance requestBody_absorbs : BodyAbsorbs decodePlaybackRequestBody_body requestBody_absorb.
Proof.
  unfold BodyAbsorbs, decodePlaybackRequestBody_body, requestBody_absorb.
  intros [[t n] sel] f r rest Hwf He Hr. pose proof (fieldReader_skip_payload r f rest Hwf Hr) as Hskip.
  destruct Hwf as [_ Hf]; destruct f as [num v|num v]; cbn [pb_num pb_wire pb_payload] in *.
  - change (wireVarint =? wireBytes) with false. by rewrite !andb_false_r, Hskip.
  - change (wireBytes =? wireBytes) with true. rewrite !andb_true_r, Hskip, (fieldReader_bytes_payload _ _ _ Hf Hr).
    cbn [snd]. simpl fr_err. rewrite He. repeat (case_match; simplify_eq/=); auto.
Qed.

#[export] Instance first_bytes_absorbs field : BodyAbsorbs (first_bytes_body field) (first_bytes_absorb field).
Proof.
  unfold BodyAbsorbs, first_bytes_body, first_bytes_absorb.
  intros [] f r rest Hwf He Hr. pose proof (fieldReader_skip_payload r f rest Hwf Hr) as Hskip.
  destruct Hwf as [_ Hf]; destruct f as [num v|num v]; cbn [pb_num pb_wire pb_payload] in *.
  - change (wireVarint =? wireBytes) with false. by rewrite !andb_false_r, Hskip.
  - change (wireBytes =? wireBytes) with true. rewrite !andb_true_r, Hskip, (fieldReader_bytes_payload _ _ _ Hf Hr).
    simpl fr_err. rewrite He. repeat (case_match; simplify_eq/=); auto.
Qed.

#[export] Instance playerTime_cursor : CursorBody decodeClientStatePlayerTime_body.
Proof.
  intros acc num wt r acc' r' H. unfold decodeClientStatePlayerTime_body in H.
  repeat (case_match; simplify_eq); apply fieldReader_skip_frame.
Qed.

#[export] Instance requestBody_cursor : CursorBody decodePlaybackRequestBody_body.
Proof.
  intros [[t n] sel] num wt r acc' r' H. unfold decodePlaybackRequestBody_body in H.
  destruct (fieldReader_bytes r) as [bs r1] eqn:E. apply fieldReader_bytes_frame in E.
  repeat (case_match; simplify_eq/=); first [apply fieldReader_skip_frame | naive_solver].
Qed.

#[export] Instance first_bytes_cursor field : CursorBody (first_bytes_body field).
Proof.
  intros acc num wt r acc' r' H. unfold first_bytes_body in H.
  repeat (case_match; simplify_eq); apply fieldReader_skip_frame.
Qed.

Lemma clientState_time r :
  is_i64 (pr_PlayerTimeMs r) -> 0 <= pr_PlayerTimeMs r ->
  zlen (encode_fields (clientState_fields r)) <= MaxProtobufFieldBytes ->
  decodeClientStatePlayerTime (encode_fields (clientState_fields r)) = Ok (pr_PlayerTimeMs r).
Proof.
  intros Ht H0 Hl. unfold decodeClientStatePlayerTime.
  rewrite (scan_encode _ playerTime_absorb).
  - unfold clientState_fields. cbn [app absorb_all playerTime_absorb].
    change (fAbrStatePlayerTimeMs =? fAbrStatePlayerTimeMs) with true. cbn iota.
    rewrite u64_small by width_lia. unfold int64FromUint64.
    assert (pr_PlayerTimeMs r >? MaxInt64 = false) as -> by width_lia. by rewrite i64_small.
  - apply bytes_fields_wf; [done|]. unfold clientState_fields. intros f Hin. apply in_app_or in Hin as [Hin|Hin].
    + destruct Hin as [<-|[<-|[]]]; (split; [by vm_compute|]); [apply u64_range|].
      destruct (is_video r); vm_compute; intuition discriminate.
    + destruct (pr_DrcEnabled r), (nonempty _); simpl in Hin; intuition subst; try (by vm_compute); done.
  - unfold clientState_fields, MaxProtobufFields. repeat case_match; simpl; lia.
Qed.

Lemma request_fields_wf r ranges :
  zlen (encode_fields (request_fields r ranges)) <= MaxProtobufFieldBytes -> Forall pb_wf (request_fields r ranges).
Proof.
  intros Hl. apply bytes_fields_wf; [done|]. unfold request_fields. intros f Hin.
  repeat (apply in_app_or in Hin as [Hin|Hin]).
  - destruct Hin as [<-|[]]. by vm_compute.
  - destruct (pr_SelectedFormat r); simpl in Hin; [destruct Hin as [<-|[]]; by vm_compute|done].
  - apply in_map_iff in Hin as (e & <- & _). by vm_compute.
  - destruct Hin as [<-|[<-|[<-|[]]]]; destruct (is_video r); by vm_compute.
Qed.

Lemma absorb_ranges t n sel ranges :
  absorb_all requestBody_absorb (t, n, sel) (map (PbBytes fAbrBufferedRanges) ranges) = inl (t, n + zlen ranges, sel).
Proof.
  revert n. induction ranges as [|e ranges IH]; intros n; simpl; [unfold zlen; simpl; by rewrite Z.add_0_r|].
  rewrite IH. unfold zlen. simpl length. do 3 f_equal. lia.
Qed.

Lemma absorb_first_skip field (fs : list pbfield) :
  (forall f, In f fs -> pb_num f <> field) -> absorb_all (first_bytes_absorb field) tt fs = inl tt.
Proof.
  induction fs as [|f fs IH]; intros Hf; [done|]. simpl.
  assert (first_bytes_absorb field tt f = inl tt) as ->.
  { specialize (Hf f ltac:(by left)). destruct f as [|num bs]; [done|]. simpl in *. by rewrite (proj2 (Z.eqb_neq _ _)). }
  apply IH. intros g Hg. apply Hf. by right.
Qed.

Lemma request_fields_length r ranges : (length (request_fields r ranges) <= 5 + length ranges)%nat.
Proof. unfold request_fields. rewrite !length_app, length_map. case_match; simpl; lia. Qed.

Lemma request_body_summary r ranges :
  is_i64 (pr_PlayerTimeMs r) -> 0 <= pr_PlayerTimeMs r ->
  zlen (encode_fields (request_fields r ranges)) <= MaxProtobufFieldBytes -> (length ranges <= 250)%nat ->
  decodePlaybackRequestBody (encode_fields (request_fields r ranges)) =
    Ok (pr_PlayerTimeMs r, zlen ranges, pr_SelectedFormat r).
Proof.
  intros Ht H0 Hl Hn. unfold decodePlaybackRequestBody. pose proof (request_fields_length r ranges).
  rewrite (scan_encode _ requestBody_absorb); [|by apply request_fields_wf|unfold MaxProtobufFields; lia].
  assert (zlen (encode_fields (clientState_fields r)) <= MaxProtobufFieldBytes) as Hcs.
  { etrans; [|exact Hl]. apply (encode_fields_bound _ fAbrClientState). by left. }
  unfold request_fields. rewrite absorb_all_split.
  assert (absorb_all requestBody_absorb (0, 0, false) [PbBytes fAbrClientState (encode_fields (clientState_fields r))]
          = inl (pr_PlayerTimeMs r, 0, false)) as ->
    by (cbn -[encode_fields clientState_fields decodeClientStatePlayerTime]; by rewrite (clientState_time r Ht H0 Hcs)).
  cbv beta iota. rewrite absorb_all_split.
  assert (absorb_all requestBody_absorb (pr_PlayerTimeMs r, 0, false)
            (if pr_SelectedFormat r then [PbBytes fAbrSelectedFormats (FormatID_marshal (pr_Format r))] else [])
          = inl (pr_PlayerTimeMs r, 0, pr_SelectedFormat r)) as -> by (by destruct (pr_SelectedFormat r)).
  cbv beta iota. rewrite absorb_all_split, absorb_ranges. by destruct (is_video r).
Qed.

Lemma request_streamer r ranges :
  zlen (encode_fields (request_fields r ranges)) <= MaxProtobufFieldBytes -> (length ranges <= 250)%nat ->
  streamerContextBytes (encode_fields (request_fields r ranges)) = Ok (Some (encode_fields (request_streamer_fields r))).
Proof.
  intros Hl Hn. unfold streamerContextBytes. pose proof (request_fields_length r ranges).
  rewrite (scan_encode _ (first_bytes_absorb fAbrStreamerContext)); [|by apply request_fields_wf|unfold MaxProtobufFields; lia].
  unfold request_fields. rewrite absorb_all_split, absorb_first_skip; [|by intros f [<-|[]]].
  rewrite absorb_all_split, absorb_first_skip; [|by destruct (pr_SelectedFormat r); intros f Hin; [destruct Hin as [<-|[]]|]].
  rewrite absorb_all_split, absorb_first_skip; [|by intros f (e & <- & _)%in_map_iff]. by destruct (is_video r).
Qed.

Lemma streamer_fields_nums state f : In f (streamer_fields state) ->
  pb_num f = fStreamerCtxSabrContexts \/ pb_num f = fStreamerCtxUnsentSabrContexts.
Proof.
  unfold streamer_fields. intros [Hin|Hin]%in_app_or.
  - apply in_map_iff in Hin as (k & <- & _). by left.
  - destruct (keys_where _ _); [done|]. destruct Hin as [<-|[]]. by right.
Qed.

Lemma streamer_fields_length state : (length (streamer_fields state) <= size (cs_entries state) + 1)%nat.
Proof.
  unfold streamer_fields. rewrite length_app, length_map.
  assert (forall p, (length (keys_where p state) <= size (cs_entries state))%nat) as Hk.
  { intros p. unfold keys_where. rewrite (Permutation_length (merge_sort_Permutation Z.le _)).
    etrans; [apply filter_length_le|]. rewrite <- (size_dom (cs_entries state)). done. }
  specialize (Hk (is_active state)). destruct (keys_where (fun typ => negb _) state); simpl; lia.
Qed.

Lemma request_cookie r :
  option_all cs_inv (pr_Contexts r) ->
  zlen (encode_fields (request_streamer_fields r)) <= MaxProtobufFieldBytes ->
  playbackCookieFromStreamer (encode_fields (request_streamer_fields r)) =
    Ok (if nonempty (pr_PlaybackCookie r) then Some (pr_PlaybackCookie r) else None).
Proof.
  intros Hcs Hl. unfold playbackCookieFromStreamer.
  assert (forall f, In f (match pr_Contexts r with Some state => streamer_fields state | None => [] end) ->
    pb_num f = fStreamerCtxSabrContexts \/ pb_num f = fStreamerCtxUnsentSabrContexts) as Hctx
    by (destruct (pr_Contexts r); [apply streamer_fields_nums|done]).
  rewrite (scan_encode _ (first_bytes_absorb fStreamerCtxPlaybackCookie)).
  - unfold request_streamer_fields, streamer_prefix. rewrite <- !app_assoc, absorb_all_split, absorb_first_skip by (by intros f [<-|[]]).
    rewrite absorb_all_split, absorb_first_skip by (destruct (nonempty (pr_POToken r)); [by intros f [<-|[]]|by intros f []]).
    rewrite absorb_all_split. destruct (nonempty (pr_PlaybackCookie r)); [done|]. simpl.
    rewrite absorb_first_skip; [done|]. intros f [-> | ->]%Hctx; done.
  - apply bytes_fields_wf; [done|]. unfold request_streamer_fields, streamer_prefix. intros f Hin.
    repeat (apply in_app_or in Hin as [Hin|Hin]).
    + destruct Hin as [<-|[]]. by vm_compute.
    + destruct (nonempty (pr_POToken r)); [destruct Hin as [<-|[]]; by vm_compute|done].
    + destruct (nonempty (pr_PlaybackCookie r)); [destruct Hin as [<-|[]]; by vm_compute|done].
    + split; [destruct (Hctx f Hin) as [-> | ->]; by vm_compute|].
      destruct (pr_Contexts r); [|done]. unfold streamer_fields in Hin. apply in_app_or in Hin as [Hin|Hin].
      * by apply in_map_iff in Hin as (k & <- & _).
      * destruct (keys_where _ _); [done|]. by destruct Hin as [<-|[]].
  - unfold request_streamer_fields, streamer_prefix. rewrite !length_app.
    assert (length (match pr_Contexts r with Some state => streamer_fields state | None => [] end) <= 65)%nat.
    { destruct (pr_Contexts r) as [state|]; [|simpl; lia]. pose proof (streamer_fields_length state).
      pose proof (inv_entries _ Hcs). unfold MaxSabrContexts in *. lia. }
    unfold MaxProtobufFields. repeat case_match; simpl; lia.
Qed.

(** ** Claims *)

(** C37. Requests are what the server is told to expect: a body is produced
    only for a valid request (a ustreamer config, a format, a client, no
    negative time or number, every buffered range encodable), it is the wire
    encoding of the abstract message [request_fields] whatever order the
    context map is iterated in, and, within the readers' bounds, reading it
    back gives the player time, the number of acknowledged ranges, the
    selection flag and the playback cookie that were put in. *)
Theorem request_readback order r body :
  valid_order order (pr_Contexts r) -> option_all cs_inv (pr_Contexts r) -> is_i64 (pr_PlayerTimeMs r) ->
  zlen body <= MaxProtobufFieldBytes -> (length (pr_BufferedRanges r) <= 250)%nat ->
  playbackRequest_marshal order r = Ok body ->
  (request_valid r /\ exists ranges,
     Forall2 (fun br e => BufferedRange_marshal br = Ok e) (pr_BufferedRanges r) ranges /\
     body = encode_fields (request_fields r ranges)) /\
  decodePlaybackRequestBody body = Ok (pr_PlayerTimeMs r, zlen (pr_BufferedRanges r), pr_SelectedFormat r) /\
  exists streamer, streamerContextBytes body = Ok (Some streamer) /\
    playbackCookieFromStreamer streamer =
      Ok (if nonempty (pr_PlaybackCookie r) then Some (pr_PlaybackCookie r) else None).
Proof.
  intros Ho Hcs Ht Hl Hn H. apply playbackRequest_marshal_fields in H as (Hv & ranges & Hr & ->); [|done].
  pose proof (Forall2_length _ _ _ Hr) as Hlen. rewrite Hlen in Hn.
  split; [by split; [|exists ranges]|].
  split; [rewrite request_body_summary by (done || apply Hv); unfold zlen; by rewrite Hlen|].
  eexists. split; [by apply request_streamer|]. apply request_cookie; [done|]. etrans; [|exact Hl].
  apply (encode_fields_bound _ fAbrStreamerContext). unfold request_fields. rewrite !in_app_iff.
  right. right. right. simpl. auto.
Qed.

Definition sample_request : playbackRequest :=
  mkPlaybackRequest (mkFormatID 137 0 []) (lit "video") (lit "config") (mkClientInfo 1 (lit "2.0") [] [] [] [] [])
    (lit "pot") [mkBufferedRange (mkFormatID 137 0 []) 0 5000 0 0 zeroTimeRange] 1 5000 true false []
    (lit "cookie") (Some sample_state).

Lemma request_readback_witness :
  exists body, playbackRequest_marshal [2; 5] sample_request = Ok body /\
  decodePlaybackRequestBody body = Ok (5000, 1, true) /\
  exists streamer, streamerContextBytes body = Ok (Some streamer) /\
    playbackCookieFromStreamer streamer = Ok (Some (lit "cookie")).
Proof.
  destruct (playbackRequest_marshal [2; 5] sample_request) as [body|] eqn:E; [|vm_compute in E; discriminate].
  exists body. split; [reflexivity|].
  apply (request_readback [2; 5] sample_request body).
  - vm_compute. first [reflexivity|apply perm_swap].
  - assert (context_reachable sample_state) as Hr by exact sample_state_reachable. clear -Hr. simpl.
    induction Hr as [|state op err s' _ IH Hs]; [apply cs_inv_new|].
    pose proof (context_step_inv state op IH) as H. by rewrite Hs in H.
  - unfold is_i64, MinInt64, MaxInt64. simpl. lia.
  - vm_compute in E. injection E as <-. vm_compute. discriminate.
  - simpl. lia.
  - exact E.
Defined.
