(* ===== verification/Digest.v ===== *)
(** * Digests

    [encoding/hex] as the engine uses it, and the digest encoding of
    [checkpoint.go]: [segmentDigest] is the 32 bytes of a SHA-256 sum, kept on
    disk as 64 hexadecimal digits. *)
From S2P Require Import Prelude Errors GoStrings Assembler.

#[local] Open Scope byte_scope.

(** ** [encoding/hex] *)

Definition hextable : bytes := lit "0123456789abcdef".
Definition hex_digit (v : Z) : byte := nth (Z.to_nat v) hextable x00.

Fixpoint hex_EncodeToString (src : bytes) : bytes :=
  match src with
  | [] => []
  | v :: src => hex_digit (Z.shiftr (b2z v) 4) :: hex_digit (Z.land (b2z v) 15) :: hex_EncodeToString src
  end.

(** [None] is an error: an odd length or a byte that is not a digit. *)
Fixpoint hex_DecodeString (s : bytes) : option bytes :=
  match s with
  | [] => Some []
  | h :: l :: s =>
      match unhex h, unhex l, hex_DecodeString s with
      | Some zh, Some zl, Some bs => Some (z2b (zh * 16 + zl) :: bs)
      | _, _, _ => None
      end
  | _ :: [] => None
  end.

(** ** Digests *)

(** [sha256.Size] *)
Definition sha256_Size : Z := 32.
Definition maxCheckpointDigestHexBytes : Z := sha256_Size * 2.

Definition encodeDigest (digest : bytes) : bytes := hex_EncodeToString digest.

Definition decodeDigest (encoded : bytes) : res bytes :=
  if negb (zlen encoded =? maxCheckpointDigestHexBytes)%Z then Err ErrCheckpointInvalid
  else
    match hex_DecodeString encoded with
    | None => Err ErrCheckpointInvalid
    | Some raw => if negb (zlen raw =? sha256_Size)%Z then Err ErrCheckpointInvalid else Ok raw
    end.

Definition hashUstreamerConfig `{!Sha256} (config : bytes) : bytes :=
  hex_EncodeToString (sha256_Sum256 config).

(** A SHA-256 sum has 32 bytes. *)
Class Sha256Sized `{!Sha256} : Prop := { sha256_sized data : zlen (sha256_Sum256 data) = sha256_Size }.

(** ** Lemmas *)

Definition hex_byte_ok (v : byte) : bool :=
  match unhex (hex_digit (Z.shiftr (b2z v) 4)), unhex (hex_digit (Z.land (b2z v) 15)) with
  | Some zh, Some zl => Byte.eqb (z2b (zh * 16 + zl)) v
  | _, _ => false
  end.

Lemma hex_byte_ok_all v : hex_byte_ok v = true.
Proof. by destruct v. Qed.

Lemma hex_byte_roundtrip v :
  exists zh zl, unhex (hex_digit (Z.shiftr (b2z v) 4)) = Some zh /\
    unhex (hex_digit (Z.land (b2z v) 15)) = Some zl /\ z2b (zh * 16 + zl) = v.
Proof.
  pose proof (hex_byte_ok_all v) as Hv. unfold hex_byte_ok in Hv.
  destruct (unhex _) as [zh|]; [|done]. destruct (unhex _) as [zl|]; [|done].
  exists zh, zl. by rewrite (Byte.byte_dec_bl _ _ Hv).
Qed.

Lemma hex_decode_encode bs : hex_DecodeString (hex_EncodeToString bs) = Some bs.
Proof.
  induction bs as [|v bs IH]; [done|]. destruct (hex_byte_roundtrip v) as (zh & zl & Hh & Hl & Hv).
  cbn [hex_EncodeToString hex_DecodeString]. by rewrite Hh, Hl, IH, Hv.
Qed.

Lemma hex_encode_length bs : zlen (hex_EncodeToString bs) = zlen bs * 2.
Proof. unfold zlen. induction bs as [|v bs IH]; [done|]. simpl length. lia. Qed.

Lemma hex_decode_length n s bs : (length s <= n)%nat -> hex_DecodeString s = Some bs -> zlen s = zlen bs * 2.
Proof.
  revert s bs. induction n as [|n IH]; intros s bs Hn Hd.
  - destruct s; [|simpl in Hn; lia]. by injection Hd as <-.
  - destruct s as [|h [|l s]]; simpl in Hn, Hd; [by injection Hd as <-|done|].
    destruct (unhex h), (unhex l), (hex_DecodeString s) as [bs'|] eqn:E; try done. injection Hd as <-.
    apply IH in E; [|lia]. unfold zlen in *. simpl length. lia.
Qed.

Lemma decode_encode_digest digest : zlen digest = sha256_Size -> decodeDigest (encodeDigest digest) = Ok digest.
Proof.
  intros Hd. unfold decodeDigest, encodeDigest. rewrite hex_encode_length, Hd.
  change (sha256_Size * 2)%Z with maxCheckpointDigestHexBytes. rewrite Z.eqb_refl, hex_decode_encode. cbn [negb].
  by rewrite Hd, Z.eqb_refl.
Qed.

Lemma decodeDigest_ok encoded digest :
  decodeDigest encoded = Ok digest -> zlen encoded = maxCheckpointDigestHexBytes /\ hex_DecodeString encoded = Some digest.
Proof.
  unfold decodeDigest. destruct (Z.eqb_spec (zlen encoded) maxCheckpointDigestHexBytes); [|done]. cbn [negb].
  destruct (hex_DecodeString encoded) as [raw|]; [|done]. destruct (negb _); [done|]. by intros [= <-].
Qed.

Lemma decodeDigest_iff encoded :
  (exists digest, decodeDigest encoded = Ok digest) <->
  zlen encoded = maxCheckpointDigestHexBytes /\ is_Some (hex_DecodeString encoded).
Proof.
  split.
  - intros (digest & Hd). apply decodeDigest_ok in Hd as [? ->]. by split; [|eexists].
  - intros [Hl [raw Hr]]. exists raw. unfold decodeDigest. rewrite Hl, Hr. cbn [negb].
    apply (hex_decode_length (length encoded)) in Hr; [|done]. unfold maxCheckpointDigestHexBytes in *.
    assert (zlen raw = sha256_Size) as -> by lia. done.
Qed.

Lemma hashUstreamerConfig_length `{!Sha256} `{!Sha256Sized} config :
  zlen (hashUstreamerConfig config) = maxCheckpointDigestHexBytes.
Proof. unfold hashUstreamerConfig. by rewrite hex_encode_length, sha256_sized. Qed.

Lemma hashUstreamerConfig_hex `{!Sha256} config : is_Some (hex_DecodeString (hashUstreamerConfig config)).
Proof. unfold hashUstreamerConfig. rewrite hex_decode_encode. by eexists. Qed.
