(* ===== verification/Recovery.v ===== *)
(** * Configuration, retry delays and refreshed material

    [Config] of [downloader.go], [retryDelay] of [retry.go] and
    [RefreshMaterial] of [recovery.go].

    The callbacks of [Config] ([Reload], [Refresh], [POTokenSource]) are code
    of the caller; they are parameters of the download loop.  A
    [time.Duration] is its number of nanoseconds. *)
From S2P Require Import Prelude Errors GoStrings Url Varint Wire Messages Assembler Digest.

(** ** Configuration *)

(** [http.Header] given by the caller: its entries in iteration order. *)
Record Config := mkConfig {
  cfg_Headers : list (bytes * list bytes);
  cfg_UserAgent : bytes;
  cfg_AcceptLanguage : bytes;
  cfg_ServerURL : bytes;
  cfg_UstreamerConfig : bytes;
  cfg_Format : FormatID;
  cfg_TrackKind : bytes;
  cfg_ClientInfo : ClientInfo;
  cfg_VideoID : bytes;
  cfg_VisitorData : bytes;
  cfg_POToken : bytes;
  cfg_DrcEnabled : bool;
  cfg_AudioTrackID : bytes;
  cfg_DurationSec : Z;  (* int64 *)
  cfg_MaxBytes : Z;  (* int64 *)
  cfg_MaxRounds : Z;
  cfg_Attempts : Z;
  cfg_RetryBaseDelay : Z;  (* time.Duration *)
  cfg_RetryMaxDelay : Z;  (* time.Duration *)
  cfg_RetainCompletionMarker : bool;
  cfg_MaxSabrErrorRecoveries : Z;
  cfg_MaxReloadAttempts : Z;
  cfg_MaxRefreshAttempts : Z
}.

#[export] Instance eta_Config : Eta Config :=
  fun c => mkConfig (cfg_Headers c) (cfg_UserAgent c) (cfg_AcceptLanguage c) (cfg_ServerURL c)
    (cfg_UstreamerConfig c) (cfg_Format c) (cfg_TrackKind c) (cfg_ClientInfo c) (cfg_VideoID c)
    (cfg_VisitorData c) (cfg_POToken c) (cfg_DrcEnabled c) (cfg_AudioTrackID c) (cfg_DurationSec c)
    (cfg_MaxBytes c) (cfg_MaxRounds c) (cfg_Attempts c) (cfg_RetryBaseDelay c) (cfg_RetryMaxDelay c)
    (cfg_RetainCompletionMarker c) (cfg_MaxSabrErrorRecoveries c) (cfg_MaxReloadAttempts c)
    (cfg_MaxRefreshAttempts c).

Definition TrackAudio : bytes := lit "audio".
Definition TrackVideo : bytes := lit "video".

(** ** Retry delays *)

Definition Millisecond : Z := 1000000.
Definition Second : Z := 1000 * Millisecond.

(** [n] iterations of the doubling loop are left. *)
Fixpoint retryDelay_loop (n : nat) (base max : Z) : Z :=
  match n with
  | O => base
  | S n =>
      if (base >=? max) || (base >? Z.quot max 2) then max
      else retryDelay_loop n (i64 (base * 2)) max
  end.

Definition retryDelay (config : Config) (attempt : Z) : Z :=
  let base := if cfg_RetryBaseDelay config <=? 0 then 25 * Millisecond else cfg_RetryBaseDelay config in
  let max := if cfg_RetryMaxDelay config <=? 0 then Second else cfg_RetryMaxDelay config in
  if base >? max then max else retryDelay_loop (Z.to_nat (attempt - 1)) base max.

Definition recoveryBackoff (config : Config) (attempt : Z) : Z := retryDelay config attempt.

(** ** Refreshed material *)

Record ReloadRequest := mkReloadRequest {
  rr_VideoID : bytes;
  rr_ClientName : Z;
  rr_ClientVer : bytes;
  rr_VisitorData : bytes;
  rr_TrackKind : bytes;
  rr_Format : FormatID;
  rr_Token : bytes
}.

Record RefreshMaterial := mkRefreshMaterial {
  rm_ServerURL : bytes;
  rm_UstreamerConfig : bytes;
  rm_POToken : option bytes;  (* None when nil *)
  rm_Format : FormatID;
  rm_ClientInfo : ClientInfo;
  rm_VisitorData : bytes;
  rm_DurationSec : Z;
  rm_UserAgent : bytes;
  rm_DrcEnabled : bool;
  rm_AudioTrackID : bytes;
  rm_VideoID : bytes
}.

Section Refresh.
Context `{!UnicodeTables} `{!Sha256}.

(** [a == "" || a != b] *)
Definition missing_or_differs (a b : bytes) : bool := negb (nonempty a) || negb (bool_decide (a = b)).

Definition RefreshMaterial_validate (m : RefreshMaterial) (config : Config) : res unit :=
  if missing_or_differs (rm_VideoID m) (cfg_VideoID config) then Err ErrRefreshRejected
  else if (rm_DurationSec m =? 0) || negb (rm_DurationSec m =? cfg_DurationSec config) then Err ErrRefreshRejected
  else if (ci_ClientName (rm_ClientInfo m) =? 0)
          || negb (ci_ClientName (rm_ClientInfo m) =? ci_ClientName (cfg_ClientInfo config)) then Err ErrRefreshRejected
  else if missing_or_differs (ci_ClientVersion (rm_ClientInfo m)) (ci_ClientVersion (cfg_ClientInfo config))
  then Err ErrRefreshRejected
  else if nonempty (cfg_VisitorData config) && negb (bool_decide (rm_VisitorData m = cfg_VisitorData config))
  then Err ErrRefreshRejected
  else if (fmt_Itag (rm_Format m) =? 0) || negb (fmt_Itag (rm_Format m) =? fmt_Itag (cfg_Format config))
  then Err ErrRefreshRejected
  else
    match formatIdentityConflicts (cfg_Format config) (rm_Format m) with
    | Err _ => Err ErrRefreshRejected
    | Ok _ =>
        if negb (Bool.eqb (rm_DrcEnabled m) (cfg_DrcEnabled config)) then Err ErrRefreshRejected
        else if negb (bool_decide (rm_AudioTrackID m = cfg_AudioTrackID config)) then Err ErrRefreshRejected
        else if (zlen (rm_UstreamerConfig m) =? 0)
                || negb (bool_decide (hashUstreamerConfig (rm_UstreamerConfig m) =
                                      hashUstreamerConfig (cfg_UstreamerConfig config))) then Err ErrRefreshRejected
        else if negb (nonempty (rm_ServerURL m)) then Err ErrRefreshRejected
        else
          match ValidateSABRURL (rm_ServerURL m) with
          | Err _ => Err ErrRefreshRejected
          | Ok _ => Ok tt
          end
    end.

(** [applyRefreshMaterial(config, material, redirects)]: the configuration and
    the tracker behind the pointers ([None] is a nil pointer). *)
Definition applyRefreshMaterial (config : option Config) (m : RefreshMaterial) (redirects : option redirectTracker)
  : res (Config * option redirectTracker) :=
  match config with
  | None => Err ErrMissingConfig
  | Some config =>
      _ ← RefreshMaterial_validate m config;
      let config := config <| cfg_ServerURL := rm_ServerURL m |> in
      let config := config <| cfg_UstreamerConfig := rm_UstreamerConfig m |> in
      let config := match rm_POToken m with Some token => config <| cfg_POToken := token |> | None => config end in
      let merged := cfg_Format config in
      let merged := if negb (fmt_LastModified (rm_Format m) =? 0)
                    then merged <| fmt_LastModified := fmt_LastModified (rm_Format m) |> else merged in
      let merged := if nonempty (fmt_XTags (rm_Format m))
                    then merged <| fmt_XTags := fmt_XTags (rm_Format m) |> else merged in
      let config := config <| cfg_Format := merged |> in
      let config := config <| cfg_ClientInfo := rm_ClientInfo m |> in
      let config := if nonempty (rm_VisitorData m) then config <| cfg_VisitorData := rm_VisitorData m |> else config in
      let config := if nonempty (rm_UserAgent m) then config <| cfg_UserAgent := rm_UserAgent m |> else config in
      Ok (config, match redirects with
                  | Some _ => Some (newRedirectTracker (cfg_ServerURL config))
                  | None => None
                  end)
  end.

End Refresh.
#[global] Arguments applyRefreshMaterial {_ _} config m redirects : simpl never.

(** ** Lemmas *)

Lemma retryDelay_loop_spec n base max :
  0 < base <= max -> max <= MaxInt64 -> retryDelay_loop n base max = Z.min max (base * 2 ^ Z.of_nat n).
Proof.
  revert base. induction n as [|n IH]; intros base Hb Hm; cbn [retryDelay_loop].
  - simpl. lia.
  - rewrite Nat2Z.inj_succ, Z.pow_succ_r by lia.
    assert (1 <= 2 ^ Z.of_nat n) by (pose proof (Z.pow_pos_nonneg 2 (Z.of_nat n)); lia).
    destruct (Z.geb_spec base max); [simpl; nia|]. cbn [orb]. rewrite Z.quot_div_nonneg by lia.
    destruct (Z.gtb_spec base (max / 2)) as [Hg|Hg].
    + assert (max < base * 2) by divmod_lia. nia.
    + assert (base * 2 <= max) by divmod_lia. rewrite i64_small by width_lia. rewrite IH by lia. f_equal. lia.
Qed.

Section RefreshLemmas.
Context `{!UnicodeTables} `{!Sha256}.

Lemma nonempty_iff s : nonempty s = true <-> s <> [].
Proof. unfold nonempty. rewrite negb_true_iff, Z.eqb_neq, zlen_0_nil. done. Qed.

Lemma missing_or_differs_false a b : missing_or_differs a b = false -> a = b /\ a <> [].
Proof. unfold missing_or_differs. intros Hm. reflect_bools. split; [done|by apply nonempty_iff]. Qed.

(** The identity of the track a configuration downloads, and its limits. *)
Record same_track (c c' : Config) : Prop := {
  st_video : cfg_VideoID c' = cfg_VideoID c;
  st_duration : cfg_DurationSec c' = cfg_DurationSec c;
  st_client : ci_ClientName (cfg_ClientInfo c') = ci_ClientName (cfg_ClientInfo c) /\
              ci_ClientVersion (cfg_ClientInfo c') = ci_ClientVersion (cfg_ClientInfo c);
  st_kind : cfg_TrackKind c' = cfg_TrackKind c;
  st_itag : fmt_Itag (cfg_Format c') = fmt_Itag (cfg_Format c);
  st_lastModified : fmt_LastModified (cfg_Format c) <> 0 ->
                    fmt_LastModified (cfg_Format c') = fmt_LastModified (cfg_Format c);
  st_xtags : fmt_XTags (cfg_Format c) <> [] -> fmt_XTags (cfg_Format c') = fmt_XTags (cfg_Format c);
  st_visitor : cfg_VisitorData c <> [] -> cfg_VisitorData c' = cfg_VisitorData c;
  st_drc : cfg_DrcEnabled c' = cfg_DrcEnabled c;
  st_audio : cfg_AudioTrackID c' = cfg_AudioTrackID c;
  st_ustreamer : hashUstreamerConfig (cfg_UstreamerConfig c') = hashUstreamerConfig (cfg_UstreamerConfig c) /\
                 cfg_UstreamerConfig c' <> [];
  st_limits : cfg_MaxBytes c' = cfg_MaxBytes c /\ cfg_MaxRounds c' = cfg_MaxRounds c /\
              cfg_Attempts c' = cfg_Attempts c /\ cfg_Headers c' = cfg_Headers c /\
              cfg_RetainCompletionMarker c' = cfg_RetainCompletionMarker c
}.

(** What [validate] establishes, fact by fact. *)
Record material_matches (m : RefreshMaterial) (c : Config) : Prop := {
  mm_video : rm_VideoID m = cfg_VideoID c /\ rm_VideoID m <> [];
  mm_duration : rm_DurationSec m = cfg_DurationSec c /\ rm_DurationSec m <> 0;
  mm_client : ci_ClientName (rm_ClientInfo m) = ci_ClientName (cfg_ClientInfo c) /\ ci_ClientName (rm_ClientInfo m) <> 0;
  mm_version : ci_ClientVersion (rm_ClientInfo m) = ci_ClientVersion (cfg_ClientInfo c) /\
               ci_ClientVersion (rm_ClientInfo m) <> [];
  mm_visitor : cfg_VisitorData c <> [] -> rm_VisitorData m = cfg_VisitorData c;
  mm_itag : fmt_Itag (rm_Format m) = fmt_Itag (cfg_Format c) /\ fmt_Itag (rm_Format m) <> 0;
  mm_format : formatIdentityConflicts (cfg_Format c) (rm_Format m) = Ok tt;
  mm_drc : rm_DrcEnabled m = cfg_DrcEnabled c;
  mm_audio : rm_AudioTrackID m = cfg_AudioTrackID c;
  mm_ustreamer : rm_UstreamerConfig m <> [] /\
                 hashUstreamerConfig (rm_UstreamerConfig m) = hashUstreamerConfig (cfg_UstreamerConfig c);
  mm_url : exists u, ValidateSABRURL (rm_ServerURL m) = Ok u
}.

(** Pass the failing guards of a chain of conditionals in [H]. *)
Ltac pass_guards H :=
  repeat match type of H with
  | (if ?b then _ else _) = _ => let E := fresh "E" in destruct b eqn:E; [done|]
  end.

Lemma validate_matches m c : RefreshMaterial_validate m c = Ok tt -> material_matches m c.
Proof.
  unfold RefreshMaterial_validate. intros Hv. pass_guards Hv.
  destruct (formatIdentityConflicts _ _) as [[]|] eqn:Ef; [|done]. pass_guards Hv.
  destruct (ValidateSABRURL _) as [u|] eqn:Eu; [|done]. clear Hv.
  repeat match goal with Hm : missing_or_differs _ _ = false |- _ => apply missing_or_differs_false in Hm end.
  assert (cfg_VisitorData c <> [] -> rm_VisitorData m = cfg_VisitorData c) as Hvis.
  { intros Hne%nonempty_iff. match goal with Hm : _ && _ = false |- _ => rewrite Hne in Hm; simpl in Hm end. by reflect_bools. }
  reflect_bools.
  split; try done; try (by eauto).
  - by apply eqb_prop.
  - split; [|done]. intros Hz. by rewrite Hz in *.
Qed.

Lemma applyRefreshMaterial_ok c m redirects c' r' :
  applyRefreshMaterial (Some c) m redirects = Ok (c', r') ->
  material_matches m c /\ cfg_ServerURL c' = rm_ServerURL m /\
  r' = (fun _ => newRedirectTracker (rm_ServerURL m)) <$> redirects.
Proof.
  intros Ha. apply bind_Ok_inv in Ha as ([] & Hv & Ha). split; [by apply validate_matches|].
  destruct redirects; injection Ha as <- <-; repeat case_match; done.
Qed.

Lemma merged_LastModified configured observed :
  formatIdentityConflicts configured observed = Ok tt -> fmt_LastModified configured <> 0 ->
  fmt_LastModified observed <> 0 -> fmt_LastModified observed = fmt_LastModified configured.
Proof.
  unfold formatIdentityConflicts. intros Hf Hc Ho. destruct (_ && _); [done|].
  rewrite (proj2 (Z.eqb_neq _ _) Hc), (proj2 (Z.eqb_neq _ _) Ho) in Hf. simpl in Hf.
  by destruct (Z.eqb_spec (fmt_LastModified observed) (fmt_LastModified configured)).
Qed.

Lemma merged_XTags configured observed :
  formatIdentityConflicts configured observed = Ok tt -> fmt_XTags configured <> [] ->
  fmt_XTags observed <> [] -> fmt_XTags observed = fmt_XTags configured.
Proof.
  unfold formatIdentityConflicts. intros Hf Hc%nonempty_iff Ho%nonempty_iff. do 2 (destruct (_ && _); [done|]).
  rewrite Hc, Ho in Hf. simpl in Hf. by destruct (decide (fmt_XTags observed = fmt_XTags configured)); [|rewrite bool_decide_false in Hf].
Qed.

Lemma applyRefreshMaterial_track c m redirects c' r' :
  applyRefreshMaterial (Some c) m redirects = Ok (c', r') -> same_track c c'.
Proof.
  intros Ha. apply applyRefreshMaterial_ok in Ha as Hm. destruct Hm as [Hm _].
  destruct Hm as [[Hvid _] [Hdur _] [Hcl _] [Hver _] Hvis [Hitag _] Hfmt Hdrc Haud [Hu1 Hu2] _].
  pose proof (merged_LastModified _ _ Hfmt) as Hlm. pose proof (merged_XTags _ _ Hfmt) as Hxt.
  apply bind_Ok_inv in Ha as (? & _ & [= <- _]).
  destruct (rm_POToken m), (Z.eqb_spec (fmt_LastModified (rm_Format m)) 0), (nonempty (fmt_XTags (rm_Format m))) eqn:Ex,
    (nonempty (rm_VisitorData m)), (nonempty (rm_UserAgent m));
    split; simpl in *; try done; try (by auto); intros Hx; apply Hxt || apply Hlm; try done; by apply nonempty_iff.
Qed.

(** ** Claims *)

(** C38. Refreshed material never rebinds a download: when it is accepted, the
    video, duration, client, track kind, itag, DRC flag, audio track and
    ustreamer digest of the configuration are unchanged, last-modified, xtags
    and visitor data change only where they were unset, the limits and caller
    headers stay, the new endpoint has passed validation, and the redirect
    tracker starts over from it. *)
Theorem refresh_keeps_track c m tracker c' r' :
  applyRefreshMaterial (Some c) m (Some tracker) = Ok (c', r') ->
  same_track c c' /\ (exists u, ValidateSABRURL (cfg_ServerURL c') = Ok u) /\
  r' = Some (newRedirectTracker (cfg_ServerURL c')).
Proof.
  intros Ha. split; [by eapply applyRefreshMaterial_track|].
  apply applyRefreshMaterial_ok in Ha as (Hm & -> & ->). split; [apply Hm|done].
Qed.

End RefreshLemmas.

(** The backoff is exponential, bounded and free of overflow: for any
    configured delays (the defaults stand in for non-positive ones) and any
    attempt number, the delay is the base doubled once per earlier attempt,
    cut at the maximum. *)
Theorem retryDelay_exact config attempt :
  is_i64 (cfg_RetryBaseDelay config) -> is_i64 (cfg_RetryMaxDelay config) ->
  let base := if cfg_RetryBaseDelay config <=? 0 then 25 * Millisecond else cfg_RetryBaseDelay config in
  let max := if cfg_RetryMaxDelay config <=? 0 then Second else cfg_RetryMaxDelay config in
  retryDelay config attempt = Z.min max (base * 2 ^ Z.max 0 (attempt - 1)) /\ 0 < retryDelay config attempt <= max.
Proof.
  intros Hb Hm base max. assert (0 < base) by (unfold base, Millisecond; destruct (Z.leb_spec (cfg_RetryBaseDelay config) 0); lia).
  assert (0 < max <= MaxInt64) as Hmax.
  { unfold max, Second, Millisecond. destruct (Z.leb_spec (cfg_RetryMaxDelay config) 0); width_lia. }
  assert (1 <= 2 ^ Z.max 0 (attempt - 1)) by (pose proof (Z.pow_pos_nonneg 2 (Z.max 0 (attempt - 1))); lia).
  assert (retryDelay config attempt = Z.min max (base * 2 ^ Z.max 0 (attempt - 1))) as ->; [|nia].
  unfold retryDelay. fold base max. destruct (Z.gtb_spec base max); [nia|].
  rewrite retryDelay_loop_spec by lia. do 3 f_equal. lia.
Qed.

(** ** Witnesses *)

Section Witnesses.
#[local] Existing Instance dotted_i_tables.
#[local] Instance padded_digest : Sha256 := {| sha256_Sum256 data := take 32 (data ++ repeat Byte.x00 32) |}.

Definition sample_client : ClientInfo := mkClientInfo 1 (lit "2.0") [] [] [] [] [].

Definition sample_config : Config :=
  mkConfig [] (lit "agent") [] sample_url (lit "config") (mkFormatID 137 0 []) TrackVideo sample_client
    (lit "dQw4w9WgXcQ") [] (lit "pot") false [] 10 100 8 2 0 0 true 0 0 0.

Definition sample_material : RefreshMaterial :=
  mkRefreshMaterial sample_url2 (lit "config") (Some (lit "fresh")) (mkFormatID 137 7 []) sample_client
    (lit "visitor") 10 [] false [] (lit "dQw4w9WgXcQ").

Lemma refresh_keeps_track_witness :
  exists c' r', applyRefreshMaterial (Some sample_config) sample_material (Some (newRedirectTracker sample_url)) = Ok (c', r') /\
    same_track sample_config c' /\ (exists u, ValidateSABRURL (cfg_ServerURL c') = Ok u) /\
    r' = Some (newRedirectTracker (cfg_ServerURL c')).
Proof.
  eexists _, _. split; [vm_compute; reflexivity|].
  eapply (refresh_keeps_track sample_config sample_material (newRedirectTracker sample_url)). vm_compute. reflexivity.
Defined.

Lemma retryDelay_exact_witness : retryDelay sample_config 4 = 200 * Millisecond.
Proof.
  exact (proj1 (retryDelay_exact sample_config 4 ltac:(vm_compute; split; discriminate) ltac:(vm_compute; split; discriminate))).
Defined.

End Witnesses.
