(* ===== verification/Checkpoint.v ===== *)
(** * Checkpoints

    [checkpoint.go]: the durable record of a partial download, its validation,
    how it is taken from the assembler ([snapshotCheckpoint]) and put back into
    one ([restoreCheckpoint]), and how the partial file is checked against it
    ([verifyCheckpointPartBytes]).

    Files: an opened file is the bytes that remain to be read and the error
    the reads end with; [os.Lstat] results are arguments. *)
From S2P Require Import Prelude Errors Varint GoStrings Url Wire Messages UmpReader Assembler Digest Recovery.

(** ** State *)

Definition checkpointVersion : Z := 1.
Definition MaxCheckpointSegments : Z := 8192.
Definition MaxCheckpointBytes : Z := Z.shiftl 1 20.
Definition maxCheckpointVideoIDBytes : Z := 128.
Definition maxCheckpointClientVerBytes : Z := 128.
Definition maxCheckpointXTagsBytes : Z := 512.
Definition maxCheckpointAudioTrackBytes : Z := 128.

Record sabrCheckpointSegment := mkCheckpointSegment {
  cps_Sequence : Z;  (* uint64 *)
  cps_Digest : bytes;
  cps_DurationMs : Z;
  cps_StartTimeMs : Z;
  cps_Length : Z;
  cps_StartTicks : Z;
  cps_DurationTicks : Z;
  cps_Timescale : Z
}.

Record sabrCheckpoint := mkCheckpoint {
  cp_Version : Z;
  cp_VideoID : bytes;
  cp_ClientName : Z;
  cp_ClientVersion : bytes;
  cp_TrackKind : bytes;
  cp_Itag : Z;
  cp_LastModified : Z;
  cp_XTags : bytes;
  cp_DurationSec : Z;
  cp_UstreamerSHA256 : bytes;
  cp_AudioTrackID : bytes;
  cp_DrcEnabled : bool;
  cp_InitWritten : bool;
  cp_InitDigest : bytes;
  cp_InitLength : Z;
  cp_FormatVerified : bool;
  cp_EndOfTrack : bool;
  cp_NextSequence : Z;  (* uint64 *)
  cp_HasSequence : bool;
  cp_CumulativeMs : Z;
  cp_TotalWritten : Z;
  cp_Segments : list sabrCheckpointSegment
}.

#[export] Instance eta_sabrCheckpoint : Eta sabrCheckpoint :=
  fun c => mkCheckpoint (cp_Version c) (cp_VideoID c) (cp_ClientName c) (cp_ClientVersion c) (cp_TrackKind c)
    (cp_Itag c) (cp_LastModified c) (cp_XTags c) (cp_DurationSec c) (cp_UstreamerSHA256 c) (cp_AudioTrackID c)
    (cp_DrcEnabled c) (cp_InitWritten c) (cp_InitDigest c) (cp_InitLength c) (cp_FormatVerified c)
    (cp_EndOfTrack c) (cp_NextSequence c) (cp_HasSequence c) (cp_CumulativeMs c) (cp_TotalWritten c) (cp_Segments c).

Record checkpointIdentity := mkIdentity {
  id_VideoID : bytes;
  id_ClientName : Z;
  id_ClientVersion : bytes;
  id_TrackKind : bytes;
  id_Format : FormatID;
  id_DurationSec : Z;
  id_UstreamerSHA256 : bytes;
  id_AudioTrackID : bytes;
  id_DrcEnabled : bool
}.

(** ** Identity *)

(** [strings.ContainsAny(s, "\x00\r\n")] *)
Definition has_control (s : bytes) : bool :=
  existsb (fun c => is_byte Byte.x00 c || is_byte Byte.x0d c || is_byte Byte.x0a c) s.

Definition validateResumeVideoID (videoID : bytes) : res unit :=
  if negb (nonempty videoID) then Err ErrMissingConfig
  else if (zlen videoID >? maxCheckpointVideoIDBytes) || has_control videoID then Err ErrMissingConfig
  else Ok tt.

Definition checkpointPaths (destination : bytes) : bytes * bytes :=
  let partPath := destination ++ lit ".part" in (partPath, partPath ++ lit ".json").

Definition identityFromConfig `{!Sha256} (config : Config) : checkpointIdentity :=
  mkIdentity (cfg_VideoID config) (ci_ClientName (cfg_ClientInfo config)) (ci_ClientVersion (cfg_ClientInfo config))
    (cfg_TrackKind config) (cfg_Format config) (cfg_DurationSec config)
    (hashUstreamerConfig (cfg_UstreamerConfig config)) (cfg_AudioTrackID config) (cfg_DrcEnabled config).

Definition checkpointIdentity_matches (identity : checkpointIdentity) (state : sabrCheckpoint) : bool :=
  bool_decide (cp_VideoID state = id_VideoID identity) &&
  (cp_ClientName state =? id_ClientName identity) &&
  bool_decide (cp_ClientVersion state = id_ClientVersion identity) &&
  bool_decide (cp_TrackKind state = id_TrackKind identity) &&
  (cp_Itag state =? fmt_Itag (id_Format identity)) &&
  (cp_LastModified state =? fmt_LastModified (id_Format identity)) &&
  bool_decide (cp_XTags state = fmt_XTags (id_Format identity)) &&
  (cp_DurationSec state =? id_DurationSec identity) &&
  bool_decide (cp_UstreamerSHA256 state = id_UstreamerSHA256 identity) &&
  bool_decide (cp_AudioTrackID state = id_AudioTrackID identity) &&
  Bool.eqb (cp_DrcEnabled state) (id_DrcEnabled identity).

Definition baseCheckpoint (identity : checkpointIdentity) : sabrCheckpoint :=
  mkCheckpoint checkpointVersion (id_VideoID identity) (id_ClientName identity) (id_ClientVersion identity)
    (id_TrackKind identity) (fmt_Itag (id_Format identity)) (fmt_LastModified (id_Format identity))
    (fmt_XTags (id_Format identity)) (id_DurationSec identity) (id_UstreamerSHA256 identity)
    (id_AudioTrackID identity) (id_DrcEnabled identity)
    false [] 0 false false 0 false 0 0 [].

(** ** Validation *)

(** The loop over the segments: the bytes accounted for and the time reached. *)
Fixpoint validate_segments (index : Z) (seen : gset Z) (cumulative accounted : Z)
    (segments : list sabrCheckpointSegment) : res (Z * Z) :=
  match segments with
  | [] => Ok (cumulative, accounted)
  | segment :: segments =>
      if negb (cps_Sequence segment =? u64 index) then Err ErrCheckpointInvalid
      else if (cps_Length segment <=? 0) || (cps_DurationMs segment <=? 0) || (cps_StartTimeMs segment <? 0)
      then Err ErrCheckpointInvalid
      else
        _ ← decodeDigest (cps_Digest segment);
        if bool_decide (cps_Sequence segment ∈ seen) then Err ErrCheckpointInvalid
        else if negb (cps_StartTimeMs segment =? cumulative) then Err ErrCheckpointInvalid
        else
          let '(next, ok) := addInt64 cumulative (cps_DurationMs segment) in
          if negb ok then Err ErrCheckpointInvalid
          else
            let '(sum, ok) := addInt64 accounted (cps_Length segment) in
            if negb ok then Err ErrCheckpointInvalid
            else validate_segments (index + 1) ({[cps_Sequence segment]} ∪ seen) next sum segments
  end.

(** The bytes the initialization segment accounts for. *)
Definition validate_init (state : sabrCheckpoint) : res Z :=
  if cp_InitWritten state then
    if (cp_InitLength state <=? 0) || negb (nonempty (cp_InitDigest state)) then Err ErrCheckpointInvalid
    else _ ← decodeDigest (cp_InitDigest state); Ok (i64 (0 + cp_InitLength state))
  else if negb (cp_InitLength state =? 0) || nonempty (cp_InitDigest state) ||
          (zlen (cp_Segments state) >? 0) || cp_EndOfTrack state
  then Err ErrCheckpointInvalid
  else Ok 0.

Definition validateCheckpoint (state : sabrCheckpoint) : res unit :=
  if negb (cp_Version state =? checkpointVersion) then Err ErrCheckpointInvalid
  else if negb (nonempty (cp_VideoID state)) || (cp_ClientName state =? 0) || negb (nonempty (cp_ClientVersion state))
          || (cp_Itag state =? 0) || (cp_DurationSec state <=? 0) then Err ErrCheckpointInvalid
  else if negb (bool_decide (cp_TrackKind state = TrackAudio)) && negb (bool_decide (cp_TrackKind state = TrackVideo))
  then Err ErrCheckpointInvalid
  else if negb (nonempty (cp_UstreamerSHA256 state)) || negb (zlen (cp_UstreamerSHA256 state) =? maxCheckpointDigestHexBytes)
  then Err ErrCheckpointInvalid
  else if negb (bool_decide (is_Some (hex_DecodeString (cp_UstreamerSHA256 state)))) then Err ErrCheckpointInvalid
  else if (zlen (cp_VideoID state) >? maxCheckpointVideoIDBytes) ||
          (zlen (cp_ClientVersion state) >? maxCheckpointClientVerBytes) ||
          (zlen (cp_XTags state) >? maxCheckpointXTagsBytes) ||
          (zlen (cp_AudioTrackID state) >? maxCheckpointAudioTrackBytes) ||
          has_control (cp_VideoID state) then Err ErrCheckpointInvalid
  else if zlen (cp_Segments state) >? MaxCheckpointSegments then Err ErrCheckpointInvalid
  else if (cp_TotalWritten state <? 0) || (cp_CumulativeMs state <? 0) || (cp_InitLength state <? 0)
  then Err ErrCheckpointInvalid
  else if cp_TotalWritten state >? MaxMediaBytes then Err ErrCheckpointInvalid
  else
    accounted ← validate_init state;
    '(cumulative, accounted) ← validate_segments 0 ∅ 0 accounted (cp_Segments state);
    if negb (accounted =? cp_TotalWritten state) then Err ErrCheckpointInvalid
    else if negb (cumulative =? cp_CumulativeMs state) then Err ErrCheckpointInvalid
    else if (if cp_HasSequence state
             then (zlen (cp_Segments state) =? 0) || negb (cp_NextSequence state =? u64 (zlen (cp_Segments state)))
             else negb (cp_NextSequence state =? 0) || (zlen (cp_Segments state) >? 0)) then Err ErrCheckpointInvalid
    else if (zlen (cp_Segments state) >? 0) && negb (cp_FormatVerified state) then Err ErrCheckpointInvalid
    else if cp_EndOfTrack state &&
            (negb (cp_InitWritten state) || (zlen (cp_Segments state) =? 0) || negb (cp_FormatVerified state))
    then Err ErrCheckpointInvalid
    else Ok tt.

(** ** Snapshot and restore *)

Section Checkpoint.
Context {F W : Type} `{!OsFile F}.

Fixpoint snapshot_segments (a : trackAssembler F W) (ranges : list BufferedRange) : res (list sabrCheckpointSegment) :=
  match ranges with
  | [] => Ok []
  | buffered :: ranges =>
      let sequence := u64 (br_StartSegmentIndex buffered) in
      match asm_writtenSequences a !! sequence with
      | None => Err ErrCheckpointInvalid
      | Some digest =>
          segments ← snapshot_segments a ranges;
          Ok (mkCheckpointSegment sequence (encodeDigest digest) (br_DurationMs buffered) (br_StartTimeMs buffered)
                (default 0 (asm_segmentLengths a !! sequence)) (tr_StartTicks (br_TimeRange buffered))
                (tr_DurationTicks (br_TimeRange buffered)) (tr_Timescale (br_TimeRange buffered)) :: segments)
      end
  end.

Definition snapshotCheckpoint (a : trackAssembler F W) (identity : checkpointIdentity) : res sabrCheckpoint :=
  let state := baseCheckpoint identity in
  let state := state <| cp_InitWritten := asm_initWritten a |> <| cp_InitDigest := encodeDigest (asm_initDigest a) |>
    <| cp_InitLength := asm_initLength a |> <| cp_FormatVerified := asm_formatVerified a |>
    <| cp_EndOfTrack := asm_endOfTrackDone a |> <| cp_NextSequence := asm_nextSequence a |>
    <| cp_HasSequence := asm_hasSequence a |> <| cp_CumulativeMs := asm_cumulativeMs a |>
    <| cp_TotalWritten := asm_totalWritten a |> in
  if zlen (asm_bufferedRanges a) >? MaxCheckpointSegments then Err ErrCheckpointInvalid
  else
    segments ← snapshot_segments a (asm_bufferedRanges a);
    let state := state <| cp_Segments := segments |> in
    let state := if negb (cp_InitWritten state) then state <| cp_InitDigest := [] |> <| cp_InitLength := 0 |> else state in
    _ ← validateCheckpoint state;
    Ok state.

Fixpoint restore_segments (a : trackAssembler F W) (segments : list sabrCheckpointSegment)
  : option go_error * trackAssembler F W :=
  match segments with
  | [] => (None, a)
  | segment :: segments =>
      match decodeDigest (cps_Digest segment) with
      | Err e => (Some e, a)
      | Ok digest =>
          let a := a <| asm_writtenSequences := <[cps_Sequence segment := digest]> (asm_writtenSequences a) |>
                     <| asm_segmentLengths := <[cps_Sequence segment := cps_Length segment]> (asm_segmentLengths a) |> in
          match int32SegmentIndex (cps_Sequence segment) with
          | Err e => (Some e, a)
          | Ok startIndex =>
              restore_segments (a <| asm_bufferedRanges := asm_bufferedRanges a ++
                [mkBufferedRange (asm_format a) (cps_StartTimeMs segment) (cps_DurationMs segment) startIndex startIndex
                   (mkTimeRange (cps_StartTicks segment) (cps_DurationTicks segment) (cps_Timescale segment))] |>) segments
          end
      end
  end.

Definition restoreCheckpoint (a : trackAssembler F W) (state : sabrCheckpoint) (remaining : Z)
  : option go_error * trackAssembler F W :=
  match validateCheckpoint state with
  | Err e => (Some e, a)
  | Ok _ =>
      if cp_TotalWritten state >? remaining then (Some ErrCheckpointInvalid, a)
      else
        let a := a <| asm_initWritten := cp_InitWritten state |> <| asm_initLength := cp_InitLength state |> in
        match (if cp_InitWritten state then decodeDigest (cp_InitDigest state) else Ok (asm_initDigest a)) with
        | Err e => (Some e, a)
        | Ok digest =>
            restore_segments
              (a <| asm_initDigest := digest |>
                 <| asm_formatVerified := cp_FormatVerified state |> <| asm_endOfTrackDone := cp_EndOfTrack state |>
                 <| asm_nextSequence := cp_NextSequence state |> <| asm_hasSequence := cp_HasSequence state |>
                 <| asm_cumulativeMs := cp_CumulativeMs state |> <| asm_totalWritten := cp_TotalWritten state |>
                 <| asm_remaining := i64 (remaining - cp_TotalWritten state) |> <| asm_bufferedRanges := [] |>
                 <| asm_writtenSequences := ∅ |> <| asm_segmentLengths := ∅ |>) (cp_Segments state)
        end
  end.

End Checkpoint.

(** ** Verification of the partial file *)

Record ioFile := mkIoFile {
  io_rest : bytes;
  io_err : option go_error  (* what reads fail with after the data; None is end of file *)
}.

(** [os.Lstat] *)
Inductive lstat_result :=
| LstatNotExist
| LstatErr (e : go_error)
| LstatInfo (regular : bool) (size : Z).

Definition regularOrAbsent (l : lstat_result) : res unit :=
  match l with
  | LstatNotExist => Ok tt
  | LstatErr e => Err e
  | LstatInfo regular _ => if negb regular then Err ErrUnsafeDestination else Ok tt
  end.

(** [io.Copy(w, io.LimitReader(file, n))]: the bytes copied, the error, and the
    file after. *)
Definition io_CopyLimit (file : ioFile) (n : Z) : bytes * option go_error * ioFile :=
  if zlen (io_rest file) >=? n
  then (take (Z.to_nat n) (io_rest file), None, mkIoFile (drop (Z.to_nat n) (io_rest file)) (io_err file))
  else (io_rest file, io_err file, mkIoFile [] (io_err file)).

Section Verify.
Context `{!Sha256}.

Definition verifyPartChunk (file : ioFile) (length : Z) (wantDigest : bytes) : res ioFile :=
  if length <=? 0 then Err ErrCheckpointInvalid
  else
    want ← decodeDigest wantDigest;
    let '(copied, err, file) := io_CopyLimit file length in
    match err with
    | Some e => Err e
    | None =>
        if negb (zlen copied =? length) then Err ErrCheckpointInvalid
        else if negb (bool_decide (sha256_Sum256 copied = want)) then Err ErrCheckpointInvalid
        else Ok file
    end.

Fixpoint verify_segments (file : ioFile) (segments : list sabrCheckpointSegment) : res unit :=
  match segments with
  | [] => Ok tt
  | segment :: segments =>
      match verifyPartChunk file (cps_Length segment) (cps_Digest segment) with
      | Err _ => Err ErrCheckpointInvalid
      | Ok file => verify_segments file segments
      end
  end.

(** [before] and [info] are the two [os.Lstat] results, [opened] is [os.Open]. *)
Definition verifyCheckpointPartBytes (before info : lstat_result) (opened : res ioFile) (state : sabrCheckpoint)
  : res unit :=
  _ ← validateCheckpoint state;
  _ ← regularOrAbsent before;
  match info with
  | LstatNotExist | LstatErr _ => Err ErrCheckpointInvalid
  | LstatInfo regular size =>
      if negb regular then Err ErrUnsafeDestination
      else if size <? cp_TotalWritten state then Err ErrCheckpointInvalid
      else
        file ← opened;
        file ← (if cp_InitWritten state then verifyPartChunk file (cp_InitLength state) (cp_InitDigest state) else Ok file);
        verify_segments file (cp_Segments state)
  end.

End Verify.

(** ** The abstract checkpoint *)

Definition sumZ (l : list Z) : Z := foldr Z.add 0 l.

(** Consecutive segments from [index] at time [cumulative] on. *)
Fixpoint segments_wf (index cumulative : Z) (segments : list sabrCheckpointSegment) : Prop :=
  match segments with
  | [] => True
  | segment :: segments =>
      cps_Sequence segment = index /\ 0 < cps_Length segment /\ 0 < cps_DurationMs segment /\
      cps_StartTimeMs segment = cumulative /\ (exists digest, decodeDigest (cps_Digest segment) = Ok digest) /\
      segments_wf (index + 1) (cumulative + cps_DurationMs segment) segments
  end.

Definition identity_wf (state : sabrCheckpoint) : Prop :=
  0 < zlen (cp_VideoID state) <= maxCheckpointVideoIDBytes /\ has_control (cp_VideoID state) = false /\
  cp_ClientName state <> 0 /\ 0 < zlen (cp_ClientVersion state) <= maxCheckpointClientVerBytes /\
  cp_Itag state <> 0 /\ 0 < cp_DurationSec state /\
  (cp_TrackKind state = TrackAudio \/ cp_TrackKind state = TrackVideo) /\
  (exists digest, decodeDigest (cp_UstreamerSHA256 state) = Ok digest) /\
  zlen (cp_XTags state) <= maxCheckpointXTagsBytes /\ zlen (cp_AudioTrackID state) <= maxCheckpointAudioTrackBytes.

(** What a checkpoint records: a sequence of segments from 0 that starts at
    time 0 and has no gap, whose bytes and durations add up to the totals. *)
Record checkpoint_wf (state : sabrCheckpoint) : Prop := {
  cw_version : cp_Version state = checkpointVersion;
  cw_identity : identity_wf state;
  cw_init : if cp_InitWritten state
            then 0 < cp_InitLength state /\ exists digest, decodeDigest (cp_InitDigest state) = Ok digest
            else cp_InitLength state = 0 /\ cp_InitDigest state = [] /\ cp_Segments state = [];
  cw_segments : segments_wf 0 0 (cp_Segments state);
  cw_count : zlen (cp_Segments state) <= MaxCheckpointSegments;
  cw_total : cp_TotalWritten state = cp_InitLength state + sumZ (map cps_Length (cp_Segments state)) /\
             cp_TotalWritten state <= MaxMediaBytes;
  cw_time : cp_CumulativeMs state = sumZ (map cps_DurationMs (cp_Segments state)) /\ cp_CumulativeMs state <= MaxInt64;
  cw_sequence : cp_NextSequence state = zlen (cp_Segments state) /\
                (cp_HasSequence state = true <-> cp_Segments state <> []);
  cw_verified : cp_Segments state <> [] -> cp_FormatVerified state = true;
  cw_end : cp_EndOfTrack state = true -> cp_Segments state <> []
}.

(** The widths of the integer fields. *)
Record checkpoint_typed (state : sabrCheckpoint) : Prop := {
  ct_init : is_i64 (cp_InitLength state);
  ct_segments : Forall (fun s => is_i64 (cps_Length s) /\ is_i64 (cps_DurationMs s)) (cp_Segments state)
}.

(** ** Lemmas: validation *)

Lemma sumZ_nonneg {A} (f : A -> Z) l : (forall x, In x l -> 0 <= f x) -> 0 <= sumZ (map f l).
Proof.
  induction l as [|x l IH]; intros Hf; [done|]. pose proof (Hf x ltac:(by left)).
  specialize (IH ltac:(intros y Hy; apply Hf; by right)). unfold sumZ in *. simpl. lia.
Qed.

Lemma segments_wf_pos index cumulative segments :
  segments_wf index cumulative segments -> forall s, In s segments -> 0 < cps_Length s /\ 0 < cps_DurationMs s.
Proof.
  revert index cumulative. induction segments as [|s0 segments IH]; intros index cumulative; simpl; [done|].
  intros (_ & ? & ? & _ & _ & Hw) s [<-|Hs]; [done|]. by eapply IH.
Qed.

Lemma validate_segments_iff index seen cumulative accounted segments cumulative' accounted' :
  0 <= index -> index + zlen segments < 2 ^ 64 -> (forall k, k ∈ seen -> k < index) ->
  Forall (fun s => is_i64 (cps_Length s) /\ is_i64 (cps_DurationMs s)) segments ->
  0 <= cumulative <= MaxInt64 -> 0 <= accounted <= MaxInt64 ->
  validate_segments index seen cumulative accounted segments = Ok (cumulative', accounted') <->
  segments_wf index cumulative segments /\
  cumulative' = cumulative + sumZ (map cps_DurationMs segments) /\ cumulative' <= MaxInt64 /\
  accounted' = accounted + sumZ (map cps_Length segments) /\ accounted' <= MaxInt64.
Proof.
  revert index seen cumulative accounted.
  induction segments as [|s segments IH]; intros index seen cumulative accounted Hi Hn Hseen Ht Hc Ha.
  - simpl. unfold sumZ. simpl. split; [intros [= <- <-]; lia|]. intros (_ & -> & _ & -> & _). f_equal. f_equal; lia.
  - inversion_clear Ht as [|? ? [Hl Hd] Ht']. unfold zlen in Hn. simpl length in Hn.
    cbn [validate_segments segments_wf map foldr sumZ]. rewrite u64_small by (unfold is_u64; lia).
    destruct (Z.eqb_spec (cps_Sequence s) index) as [Es|Es]; [|split; [done|by intros [[? _] _]]]. cbn [negb].
    destruct (Z.leb_spec (cps_Length s) 0); [split; [done|]; intros [(_ & ? & _) _]; lia|]. cbn [orb].
    destruct (Z.leb_spec (cps_DurationMs s) 0); [split; [done|]; intros [(_ & _ & ? & _) _]; lia|]. cbn [orb].
    destruct (Z.ltb_spec (cps_StartTimeMs s) 0); [split; [done|]; intros [(_ & _ & _ & ? & _) _]; lia|].
    destruct (decodeDigest (cps_Digest s)) as [digest|] eqn:Edig;
      [|split; [done|]; intros [(_ & _ & _ & _ & [? ?] & _) _]; congruence].
    cbn [mbind result_bind]. rewrite bool_decide_false by (intros Hk%Hseen; lia).
    destruct (Z.eqb_spec (cps_StartTimeMs s) cumulative); [|split; [done|]; intros [(_ & _ & _ & ? & _) _]; lia]. cbn [negb].
    assert (segments_wf (index + 1) (cumulative + cps_DurationMs s) segments -> 0 <= sumZ (map cps_DurationMs segments) /\
            0 <= sumZ (map cps_Length segments)) as Hpos.
    { intros Hw. pose proof (segments_wf_pos _ _ _ Hw) as Hp. split; apply sumZ_nonneg; intros y Hy; apply Hp in Hy; lia. }
    fold (sumZ (map cps_DurationMs segments)) (sumZ (map cps_Length segments)).
    rewrite !addInt64_nonneg by width_lia.
    destruct (Z.leb_spec (cumulative + cps_DurationMs s) MaxInt64); cbn [negb];
      [|split; [done|]; intros ((_ & _ & _ & _ & _ & Hw) & ? & ? & _); specialize (Hpos Hw); lia].
    destruct (Z.leb_spec (accounted + cps_Length s) MaxInt64); cbn [negb];
      [|split; [done|]; intros ((_ & _ & _ & _ & _ & Hw) & ? & ? & ? & ?); specialize (Hpos Hw); lia].
    assert (forall k, k ∈ {[cps_Sequence s]} ∪ seen -> k < index + 1) as Hseen'.
    { intros k [->%elem_of_singleton|Hk%Hseen]%elem_of_union; lia. }
    rewrite (IH (index + 1)) by (done || (unfold zlen; lia)).
    split; [intros (Hw & -> & ? & -> & ?)|intros ((_ & _ & _ & _ & _ & Hw) & -> & ? & -> & ?)]; split_and!; try done; try lia; eauto.
Qed.

Lemma validate_init_iff state accounted :
  is_i64 (cp_InitLength state) ->
  validate_init state = Ok accounted <->
  (if cp_InitWritten state
   then 0 < cp_InitLength state /\ exists digest, decodeDigest (cp_InitDigest state) = Ok digest
   else cp_InitLength state = 0 /\ cp_InitDigest state = [] /\ cp_Segments state = []) /\
  (cp_InitWritten state = false -> cp_EndOfTrack state = false) /\ accounted = cp_InitLength state.
Proof.
  intros Ht. unfold validate_init. destruct (cp_InitWritten state).
  - destruct (Z.leb_spec (cp_InitLength state) 0); cbn [orb]; [split; [done|]; intros [[? _] _]; lia|].
    destruct (nonempty (cp_InitDigest state)) eqn:En; cbn [negb].
    + destruct (decodeDigest (cp_InitDigest state)) as [digest|]; [|split; [done|]; by intros [[_ [? ?]] _]].
      cbn [mbind result_bind]. rewrite i64_small by done. split; [intros [= <-]; split_and!; try done; eauto|].
      by intros (_ & _ & ->).
    + split; [done|]. intros [[_ [digest Hd]] _]. apply decodeDigest_ok in Hd as [Hd _].
      unfold nonempty in En. rewrite Hd in En. done.
  - assert (nonempty (cp_InitDigest state) = false <-> cp_InitDigest state = []) as Hne.
    { unfold nonempty. rewrite negb_false_iff, Z.eqb_eq. apply zlen_0_nil. }
    assert ((zlen (cp_Segments state) >? 0) = false <-> cp_Segments state = []) as Hns.
    { rewrite Z.gtb_ltb, Z.ltb_ge, <- zlen_0_nil. pose proof (zlen_nonneg (cp_Segments state)). lia. }
    destruct (negb _ || _ || _ || _) eqn:E.
    + split; [done|]. intros ((Hl & Hd & Hs) & He & _). rewrite Hl, (proj2 Hne Hd), (proj2 Hns Hs), He in E by done. done.
    + apply orb_false_iff in E as [[[El%negb_false_iff%Z.eqb_eq Ed%Hne]%orb_false_iff Es%Hns]%orb_false_iff Ee].
      rewrite El. split; [by intros [= <-]|]. by intros (_ & _ & ->).
Qed.

(** The identity guards. *)
Lemma identity_guards state :
  (negb (nonempty (cp_VideoID state)) || (cp_ClientName state =? 0) || negb (nonempty (cp_ClientVersion state))
     || (cp_Itag state =? 0) || (cp_DurationSec state <=? 0) = false /\
   negb (bool_decide (cp_TrackKind state = TrackAudio)) && negb (bool_decide (cp_TrackKind state = TrackVideo)) = false /\
   negb (nonempty (cp_UstreamerSHA256 state)) || negb (zlen (cp_UstreamerSHA256 state) =? maxCheckpointDigestHexBytes) = false /\
   negb (bool_decide (is_Some (hex_DecodeString (cp_UstreamerSHA256 state)))) = false /\
   (zlen (cp_VideoID state) >? maxCheckpointVideoIDBytes) || (zlen (cp_ClientVersion state) >? maxCheckpointClientVerBytes) ||
     (zlen (cp_XTags state) >? maxCheckpointXTagsBytes) || (zlen (cp_AudioTrackID state) >? maxCheckpointAudioTrackBytes) ||
     has_control (cp_VideoID state) = false) <-> identity_wf state.
Proof.
  unfold identity_wf. rewrite decodeDigest_iff. unfold nonempty.
  rewrite !orb_false_iff, andb_false_iff, !negb_false_iff, !bool_decide_eq_true, !Z.gtb_ltb, !Z.ltb_ge, !negb_true_iff,
    !Z.eqb_neq, Z.eqb_eq, Z.leb_gt.
  pose proof (zlen_nonneg (cp_VideoID state)). pose proof (zlen_nonneg (cp_ClientVersion state)).
  assert (0 < maxCheckpointDigestHexBytes) by done. intuition lia.
Qed.

(** A conditional that fails is passed exactly when its guard is false. *)
Lemma guard_Ok_iff {A} (b : bool) (e : go_error) (k : res A) x :
  (if b then Err e else k) = Ok x <-> b = false /\ k = Ok x.
Proof. destruct b; split; (done || by intros [? ?]). Qed.

Lemma zlen_gtb_0 {A} (l : list A) : (zlen l >? 0) = true <-> l <> [].
Proof. destruct l; unfold zlen; simpl; split; (done || lia). Qed.

Lemma sequence_guard state :
  zlen (cp_Segments state) <= MaxCheckpointSegments ->
  (if cp_HasSequence state
   then (zlen (cp_Segments state) =? 0) || negb (cp_NextSequence state =? u64 (zlen (cp_Segments state)))
   else negb (cp_NextSequence state =? 0) || (zlen (cp_Segments state) >? 0)) = false <->
  cp_NextSequence state = zlen (cp_Segments state) /\ (cp_HasSequence state = true <-> cp_Segments state <> []).
Proof.
  intros Hc. pose proof (zlen_nonneg (cp_Segments state)).
  rewrite u64_small by (unfold is_u64, MaxCheckpointSegments in *; lia). rewrite <- (zlen_0_nil (cp_Segments state)).
  destruct (cp_HasSequence state); rewrite orb_false_iff, negb_false_iff, Z.eqb_eq.
  - rewrite Z.eqb_neq. intuition.
  - rewrite Z.gtb_ltb, Z.ltb_ge. split; [intros [-> ?]; split; [lia|]; split; [done|lia]|].
    intros [-> Hs]. destruct (Z.eq_dec (zlen (cp_Segments state)) 0); [lia|]. by apply Hs in n.
Qed.

(** Every refusal is [ErrCheckpointInvalid]. *)
Lemma decodeDigest_err encoded e : decodeDigest encoded = Err e -> e = ErrCheckpointInvalid.
Proof. unfold decodeDigest. repeat (case_match; simplify_eq/=); by intros [= <-]. Qed.

Lemma validate_segments_err segments index seen cumulative accounted e :
  validate_segments index seen cumulative accounted segments = Err e -> e = ErrCheckpointInvalid.
Proof.
  revert index seen cumulative accounted. induction segments as [|s segments IH]; intros index seen cumulative accounted; simpl; [done|].
  destruct (decodeDigest _) as [d|] eqn:Ed; [|apply decodeDigest_err in Ed; subst];
    repeat (case_match; simplify_eq/=); try (by intros [= <-]); apply IH.
Qed.

Lemma validateCheckpoint_err state e : validateCheckpoint state = Err e -> e = ErrCheckpointInvalid.
Proof.
  unfold validateCheckpoint. intros Hv.
  repeat match type of Hv with (if ?b then _ else _) = _ => destruct b; [by injection Hv as <-|] end.
  destruct (validate_init state) as [acc|] eqn:Ei; simpl in Hv.
  - destruct (validate_segments _ _ _ _ _) as [[cum acc']|] eqn:Es; simpl in Hv.
    + repeat match type of Hv with (if ?b then _ else _) = _ => destruct b; [by injection Hv as <-|] end. done.
    + injection Hv as <-. by eapply validate_segments_err.
  - injection Hv as <-. unfold validate_init in Ei. destruct (cp_InitWritten state);
      match type of Ei with (if ?b then _ else _) = _ => destruct b; [by injection Ei|] end; [|done].
    destruct (decodeDigest _) eqn:Ed; [done|]. injection Ei as <-. by eapply decodeDigest_err.
Qed.

Lemma validateCheckpoint_sequence state :
  validateCheckpoint state = Ok tt -> cp_HasSequence state = true -> cp_Segments state <> [].
Proof.
  unfold validateCheckpoint. rewrite !guard_Ok_iff. intros Hv Hh Hs. destruct Hv as (_ & _ & _ & _ & _ & _ & _ & _ & _ & Hv).
  apply bind_Ok_inv in Hv as (acc & _ & Hv). apply bind_Ok_inv in Hv as ([cum acc'] & _ & Hv).
  rewrite !guard_Ok_iff, Hh, Hs in Hv. by destruct Hv as (_ & _ & ? & _).
Qed.

(** [validateCheckpoint] is the abstract predicate. *)
Lemma validateCheckpoint_spec state :
  checkpoint_typed state -> validateCheckpoint state = Ok tt <-> checkpoint_wf state.
Proof.
  intros [Hti Hts]. unfold validateCheckpoint. rewrite !guard_Ok_iff, bind_Ok_iff.
  pose proof (identity_guards state) as Hid. pose proof (zlen_nonneg (cp_Segments state)) as Hz.
  rewrite negb_false_iff, Z.eqb_eq.
  split.
  - intros (Hv & H1 & H2 & H3 & H4 & H5 & Hn & Hneg & Hmax & acc & Hini & Hk).
    assert (identity_wf state) as Hidw by (by apply Hid). clear H1 H2 H3 H4 H5 Hid.
    apply validate_init_iff in Hini as (Hinit & Heot & ->); [|done].
    apply bind_Ok_inv in Hk as ([cum acc] & Hseg & Hk). rewrite !guard_Ok_iff in Hk.
    rewrite Z.gtb_ltb, Z.ltb_ge in Hn, Hmax.
    destruct Hk as (Hacc & Hcum & Hsq & Hfv & Hend & _). apply sequence_guard in Hsq; [|done].
    reflect_bools. apply validate_segments_iff in Hseg as (Hw & -> & ? & -> & ?); try done; try width_lia;
      [|unfold MaxCheckpointSegments in *; lia].
    pose proof (zlen_gtb_0 (cp_Segments state)) as Hg.
    split; try done; try lia.
    + intros Hs%Hg. rewrite Hs in Hfv. simpl in Hfv. by reflect_bools.
    + intros He. rewrite He in Hend. simpl in Hend. reflect_bools. by rewrite <- zlen_0_nil.
  - intros [Hv Hi Hinit Hw Hc [Htot Htm] [Hcum Hcm] Hsq Hfv Hend]. apply Hid in Hi as (H1 & H2 & H3 & H4 & H5).
    pose proof (segments_wf_pos _ _ _ Hw) as Hp.
    assert (0 <= sumZ (map cps_Length (cp_Segments state))) by (apply sumZ_nonneg; intros y Hy; apply Hp in Hy; lia).
    assert (0 <= sumZ (map cps_DurationMs (cp_Segments state))) by (apply sumZ_nonneg; intros y Hy; apply Hp in Hy; lia).
    assert (0 <= cp_InitLength state) by (destruct (cp_InitWritten state); lia).
    assert (MaxMediaBytes <= MaxInt64) by (by vm_compute).
    split_and!; try done; [rewrite Z.gtb_ltb, Z.ltb_ge; lia|rewrite !orb_false_iff, !Z.ltb_ge; lia|rewrite Z.gtb_ltb, Z.ltb_ge; lia|]. exists (cp_InitLength state).
    split.
    { apply validate_init_iff; [done|]. split_and!; try done. intros Ei. rewrite Ei in Hinit.
      destruct (cp_EndOfTrack state); [|done]. by destruct Hinit as (_ & _ & Hs0), (Hend eq_refl). }
    apply bind_Ok_iff. exists (cp_CumulativeMs state, cp_TotalWritten state). split.
    { apply validate_segments_iff; try done; try width_lia; [unfold MaxCheckpointSegments in *; lia|]. split_and!; (done || lia). }
    rewrite !guard_Ok_iff, !Z.eqb_refl. split_and!; try done.
    + by apply sequence_guard.
    + destruct (zlen (cp_Segments state) >? 0) eqn:Eg; [|done]. by rewrite Hfv by (by apply zlen_gtb_0).
    + destruct (cp_EndOfTrack state); [|done]. simpl. specialize (Hend eq_refl). rewrite Hfv by done. simpl.
      rewrite (proj2 (Z.eqb_neq _ _)) by (by rewrite zlen_0_nil).
      by destruct (cp_InitWritten state); [|destruct Hinit as (_ & _ & ?)].
Qed.

(** ** Lemmas: the partial file *)

Section VerifyLemmas.
Context `{!Sha256}.

Definition chunk_matches (length : Z) (digest data : bytes) : Prop :=
  zlen data = length /\ decodeDigest digest = Ok (sha256_Sum256 data).

Definition segment_matches (s : sabrCheckpointSegment) (data : bytes) : Prop :=
  chunk_matches (cps_Length s) (cps_Digest s) data.

(** [init] and [segs] are the bytes the checkpoint records. *)
Definition part_matches (state : sabrCheckpoint) (init : bytes) (segs : list bytes) : Prop :=
  (if cp_InitWritten state then chunk_matches (cp_InitLength state) (cp_InitDigest state) init else init = []) /\
  Forall2 segment_matches (cp_Segments state) segs.

Lemma verifyPartChunk_iff file length want file' :
  verifyPartChunk file length want = Ok file' <->
  0 < length /\ exists data, chunk_matches length want data /\ io_rest file = data ++ io_rest file' /\ io_err file' = io_err file.
Proof.
  unfold verifyPartChunk, chunk_matches. destruct (Z.leb_spec length 0); [split; [done|lia]|].
  destruct (decodeDigest want) as [digest|]; [|split; [done|]; by intros (_ & data & [_ ?] & _)].
  cbn [mbind result_bind]. unfold io_CopyLimit.
  destruct (Z.geb_spec (zlen (io_rest file)) length) as [Hge|Hlt].
  - rewrite !guard_Ok_iff.
    assert (zlen (take (Z.to_nat length) (io_rest file)) = length) as Hl.
    { unfold zlen in *. rewrite length_take. lia. }
    split.
    + intros (_ & Hd & [= <-]). reflect_bools. split; [done|]. eexists. split_and!; [exact Hl|by rewrite Hd| |done].
      simpl. by rewrite take_drop.
    + intros (_ & data & [Hlen [= ->]] & Hr & He). rewrite Hl, Z.eqb_refl. split; [done|].
      rewrite Hr. assert (Z.to_nat length = List.length data) as -> by (unfold zlen in Hlen; lia).
      rewrite take_app_length, drop_app_length, bool_decide_true by done. split; [done|]. destruct file', file; simpl in *. by subst.
  - split.
    + destruct (io_err file); [done|]. rewrite !guard_Ok_iff. intros (Hl & _). reflect_bools. lia.
    + intros (_ & data & [Hlen _] & Hr & _). rewrite Hr, zlen_app in Hlt. pose proof (zlen_nonneg (io_rest file')). lia.
Qed.

Lemma verify_segments_iff file segments :
  (forall s, In s segments -> 0 < cps_Length s) ->
  verify_segments file segments = Ok tt <->
  exists segs tail, Forall2 segment_matches segments segs /\ io_rest file = concat segs ++ tail.
Proof.
  revert file. induction segments as [|s segments IH]; intros file Hpos; cbn [verify_segments].
  - split; [intros _; by exists [], (io_rest file)|done].
  - split.
    + destruct (verifyPartChunk _ _ _) as [file'|] eqn:E; [|done]. apply verifyPartChunk_iff in E as (_ & data & Hm & Hr & _).
      intros Hv. apply IH in Hv as (segs & tail & Hf & Hr'); [|intros; apply Hpos; by right].
      exists (data :: segs), tail. split; [by constructor|]. simpl. by rewrite Hr, Hr', app_assoc.
    + intros (segs & tail & Hf & Hr). inversion Hf as [|? data ? segs' Hm Hf' E1 E2]; subst. simpl in Hr.
      assert (verifyPartChunk file (cps_Length s) (cps_Digest s) = Ok (mkIoFile (concat segs' ++ tail) (io_err file))) as ->.
      { apply verifyPartChunk_iff. split; [apply Hpos; by left|]. exists data. split_and!; [done| |done]. by rewrite Hr, <- app_assoc. }
      apply IH; [intros; apply Hpos; by right|]. by exists segs', tail.
Qed.

Lemma verify_file_iff file state :
  checkpoint_wf state ->
  (file ← (if cp_InitWritten state then verifyPartChunk file (cp_InitLength state) (cp_InitDigest state) else Ok file);
   verify_segments file (cp_Segments state)) = Ok tt <->
  exists init segs tail, io_rest file = init ++ concat segs ++ tail /\ part_matches state init segs.
Proof.
  intros Hw. assert (forall s, In s (cp_Segments state) -> 0 < cps_Length s) as Hpos.
  { intros s Hs. by apply (segments_wf_pos _ _ _ (cw_segments _ Hw)) in Hs as [? _]. }
  pose proof (cw_init _ Hw) as Hi. unfold part_matches. rewrite bind_Ok_iff. destruct (cp_InitWritten state).
  - split.
    + intros (file' & Hc & Hv). apply verifyPartChunk_iff in Hc as (_ & init & Hm & Hr & _).
      apply verify_segments_iff in Hv as (segs & tail & Hf & Hr'); [|done]. exists init, segs, tail. by rewrite Hr, Hr'.
    + intros (init & segs & tail & Hr & Hm & Hf). exists (mkIoFile (concat segs ++ tail) (io_err file)). split.
      * apply verifyPartChunk_iff. split; [lia|]. by exists init.
      * apply verify_segments_iff; [done|]. by exists segs, tail.
  - split.
    + intros (file' & [= <-] & Hv). apply verify_segments_iff in Hv as (segs & tail & Hf & Hr); [|done]. by exists [], segs, tail.
    + intros (init & segs & tail & Hr & -> & Hf). exists file. split; [done|]. apply verify_segments_iff; [done|]. by exists segs, tail.
Qed.

Lemma part_matches_length state init segs :
  checkpoint_wf state -> part_matches state init segs -> zlen (init ++ concat segs) = cp_TotalWritten state.
Proof.
  intros Hw [Hi Hf]. rewrite zlen_app, (proj1 (cw_total _ Hw)). f_equal.
  - pose proof (cw_init _ Hw) as Hini. destruct (cp_InitWritten state); [apply Hi|]. subst init. by destruct Hini as [-> _].
  - clear Hi Hw. induction Hf as [|s data segments segs [Hl _] _ IH]; [done|]. simpl. rewrite zlen_app, IH, Hl. done.
Qed.

End VerifyLemmas.

(** ** Lemmas: restore *)

Section RestoreLemmas.
Context {F W : Type} `{!OsFile F} `{!Sha256}.
Implicit Types a : trackAssembler F W.

(** The buffered range a recorded segment is restored to. *)
Definition range_of (format : FormatID) (s : sabrCheckpointSegment) : BufferedRange :=
  mkBufferedRange format (cps_StartTimeMs s) (cps_DurationMs s) (cps_Sequence s) (cps_Sequence s)
    (mkTimeRange (cps_StartTicks s) (cps_DurationTicks s) (cps_Timescale s)).

(** The segment tables of [a] hold exactly [segs], which end at time [t]. *)
Record tables a (segs : list bytes) (t : Z) : Prop := {
  tb_written k : asm_writtenSequences a !! k = hashSegment <$> seg_lookup segs k;
  tb_lengths k : asm_segmentLengths a !! k = zlen <$> seg_lookup segs k;
  tb_ranges : range_chain (asm_format a) 0 0 (asm_bufferedRanges a) t;
  tb_count : length (asm_bufferedRanges a) = length segs
}.

Definition with_tables a (ranges : list BufferedRange) (written : gmap Z bytes) (lengths : gmap Z Z) : trackAssembler F W :=
  a <| asm_bufferedRanges := ranges |> <| asm_writtenSequences := written |> <| asm_segmentLengths := lengths |>.

Lemma insert_seg_lookup {A} (m : gmap Z A) (f : bytes -> A) segs data :
  (forall k, m !! k = f <$> seg_lookup segs k) ->
  forall k, <[zlen segs := f data]> m !! k = f <$> seg_lookup (segs ++ [data]) k.
Proof.
  intros Hm k. rewrite seg_lookup_snoc. case_decide; [subst; by rewrite lookup_insert_eq|].
  by rewrite lookup_insert_ne.
Qed.

Lemma restore_segments_spec segments a done_ segs t :
  tables a done_ t -> segments_wf (zlen done_) t segments -> Forall2 segment_matches segments segs ->
  0 <= t -> t + sumZ (map cps_DurationMs segments) <= MaxInt64 -> zlen done_ + zlen segments <= MaxInt32 + 1 ->
  exists ranges written lengths,
    restore_segments a segments = (None, with_tables a ranges written lengths) /\
    ranges = asm_bufferedRanges a ++ map (range_of (asm_format a)) segments /\
    tables (with_tables a ranges written lengths) (done_ ++ segs) (t + sumZ (map cps_DurationMs segments)).
Proof.
  revert a done_ segs t. induction segments as [|s segments IH]; intros a done_ segs t Ht Hw Hm H0 Hmax Hidx.
  - inversion Hm; subst. exists (asm_bufferedRanges a), (asm_writtenSequences a), (asm_segmentLengths a).
    unfold sumZ. simpl. rewrite !app_nil_r, Z.add_0_r. split; [by destruct a|]. split; [done|]. by destruct a, Ht.
  - inversion Hm as [|? data ? segs' [Hlen Hdig] Hm' E1 E2]; subst. destruct Hw as (Hs & _ & Hd & Hst & _ & Hw).
    cbn [map foldr sumZ] in *. fold (sumZ (map cps_DurationMs segments)) in *.
    assert (0 <= sumZ (map cps_DurationMs segments)).
    { apply sumZ_nonneg. intros y Hy. apply (segments_wf_pos _ _ _ Hw) in Hy. lia. }
    cbn [restore_segments]. rewrite Hdig, Hs. unfold int32SegmentIndex.
    pose proof (zlen_nonneg done_). unfold zlen in Hidx. simpl length in Hidx. fold (zlen done_) in Hidx.
    assert (zlen done_ >? MaxInt32 = false) as -> by (rewrite Z.gtb_ltb; lia).
    rewrite i32_small by width_lia. set (a1 := _ <| asm_bufferedRanges := _ |>).
    destruct (IH a1 (done_ ++ [data]) segs' (t + cps_DurationMs s)) as (ranges & written & lengths & Hr & Hrs & Ht'); try done; try lia.
    + destruct Ht as [Hwr Hln Hrg Hct]. split; simpl.
      * by apply insert_seg_lookup.
      * rewrite <- Hlen. by apply insert_seg_lookup.
      * replace (t + cps_DurationMs s) with (i64 (t + cps_DurationMs s)) by (apply i64_small; width_lia).
        assert (zlen done_ = 0 + zlen (asm_bufferedRanges a)) as Hz by (unfold zlen; lia).
        apply (range_chain_snoc _ 0 0 _ t (mkBufferedRange _ _ _ _ _ _)); simpl; try done; by rewrite Hz.
      * rewrite !length_app. simpl. lia.
    + by rewrite zlen_app.
    + rewrite zlen_app. unfold zlen in *. simpl length. lia.
    + exists ranges, written, lengths. split; [by rewrite Hr|]. split.
      { rewrite Hrs. simpl. unfold range_of at 2. by rewrite Hs, <- app_assoc. }
      rewrite <- app_assoc in Ht'. simpl in Ht'.
      replace (t + (cps_DurationMs s + sumZ (map cps_DurationMs segments)))
        with (t + cps_DurationMs s + sumZ (map cps_DurationMs segments)) by lia. exact Ht'.
Qed.

(** A validated checkpoint whose bytes are on file restores to an assembler
    that accounts for exactly those bytes. *)
Lemma restore_progress a state remaining init segs :
  checkpoint_typed state -> checkpoint_wf state -> part_matches state init segs ->
  asm_active a = ∅ -> asm_contents a = init ++ concat segs ->
  cp_TotalWritten state <= remaining <= MaxInt64 ->
  exists a', restoreCheckpoint a state remaining = (None, a') /\
    progress remaining a' init segs /\ active_ok a' /\ asm_format a' = asm_format a /\
    asm_file a' = asm_file a /\ asm_world a' = asm_world a /\ asm_active a' = ∅ /\
    asm_expectedDurationMs a' = asm_expectedDurationMs a /\
    asm_initWritten a' = cp_InitWritten state /\ asm_formatVerified a' = cp_FormatVerified state /\
    asm_endOfTrackDone a' = cp_EndOfTrack state /\ asm_hasSequence a' = cp_HasSequence state /\
    asm_cumulativeMs a' = cp_CumulativeMs state /\ asm_bufferedRanges a' = map (range_of (asm_format a)) (cp_Segments state).
Proof.
  intros Hty Hw [Hmi Hms] Hact Hfile Hrem. unfold restoreCheckpoint. rewrite (proj2 (validateCheckpoint_spec state Hty) Hw).
  assert (cp_TotalWritten state >? remaining = false) as -> by (rewrite Z.gtb_ltb; lia).
  pose proof (part_matches_length _ _ _ Hw (conj Hmi Hms)) as Htot.
  destruct Hw as [_ _ Hini Hseg Hcnt [_ Hmax] [Hcum Hcmax] [Hnext Hhas] _ _].
  match goal with |- context [if cp_InitWritten state then ?d else ?e] =>
    assert (exists digest, (if cp_InitWritten state then d else e) = Ok digest /\
      if cp_InitWritten state then digest = hashSegment init /\ cp_InitLength state = zlen init else init = [] /\ segs = [])
      as (digest & -> & Hdig) end.
  { destruct (cp_InitWritten state); [destruct Hmi as [? Hd]; by eexists|]. eexists. split; [done|].
    destruct Hini as (_ & _ & Hs). rewrite Hs in Hms. by inversion Hms. }
  set (a1 := _ <| asm_segmentLengths := ∅ |>).
  destruct (restore_segments_spec (cp_Segments state) a1 [] segs 0) as (ranges & written & lengths & Hr & Hrs & Ht); try done.
  { split; simpl; try done; try constructor; intros k; unfold seg_lookup; by destruct (_ <? _). }
  { lia. }
  { unfold MaxCheckpointSegments, MaxInt32 in *. change (zlen (A := bytes) []) with 0. lia. }
  eexists. split; [exact Hr|]. destruct Ht as [Hwr Hln Hrg Hct]. rewrite <- Hcum, Z.add_0_l in Hrg. simpl in Hwr, Hln, Hrg, Hct.
  apply Forall2_length in Hms. assert (zlen segs = zlen (cp_Segments state)) as Hzl by (unfold zlen; lia).
  pose proof (zlen_nonneg (init ++ concat segs)). assert (0 <= cp_CumulativeMs state).
  { rewrite Hcum. apply sumZ_nonneg. intros y Hy. apply (segments_wf_pos _ _ _ Hseg) in Hy. lia. }
  split; [|split_and!; try done; split; simpl; rewrite Hact; [by vm_compute|apply map_Forall_empty]].
  split; simpl; try done.
  - by rewrite Hnext, Hzl.
  - intros Hh. destruct (decide (cp_Segments state = [])) as [E|E]; [|apply Hhas in E; congruence].
    rewrite E in Hms. by destruct segs.
  - change (asm_contents _) with (asm_contents a). by rewrite Hfile.
  - rewrite i64_small by (unfold is_i64, MinInt64; lia). lia.
  - rewrite Hzl. unfold MaxCheckpointSegments, MaxInt32 in *. lia.
  - split; [width_lia|]. rewrite Hrs. simpl. apply Forall_map. eapply Forall_impl; [apply Hty|]. by intros s [_ ?].
Qed.

End RestoreLemmas.

(** ** Lemmas: snapshot *)

Section SnapshotLemmas.
Context {F W : Type} `{!OsFile F} `{!Sha256} `{!Sha256Sized}.
Implicit Types a : trackAssembler F W.

Lemma snapshot_segments_spec a ranges segments all i t t' :
  (forall k, asm_writtenSequences a !! k = hashSegment <$> seg_lookup all k) ->
  (forall k, asm_segmentLengths a !! k = zlen <$> seg_lookup all k) ->
  range_chain (asm_format a) i t ranges t' -> 0 <= i -> i + zlen ranges <= MaxInt32 + 1 ->
  snapshot_segments a ranges = Ok segments ->
  map (range_of (asm_format a)) segments = ranges /\
  Forall2 segment_matches segments (take (length ranges) (drop (Z.to_nat i) all)).
Proof.
  intros Hwr Hln Hch. revert segments. induction Hch as [|i t r ranges t' Hf Hst Hd Hs He _ IH]; intros segments Hi Hn Hsn.
  - injection Hsn as <-. by rewrite take_0.
  - unfold zlen in Hn. simpl length in Hn. simpl in Hsn. rewrite Hs, u64_small in Hsn by (unfold is_u64, MaxInt32 in *; lia).
    rewrite Hwr, Hln in Hsn. unfold seg_lookup in Hsn. assert (i <? 0 = false) as Hlt by lia. rewrite Hlt in Hsn.
    destruct (all !! Z.to_nat i) as [data|] eqn:Ed; [|done]. simpl in Hsn.
    apply bind_Ok_inv in Hsn as (segments' & Hsn & [= <-]).
    apply IH in Hsn as [Hr Hm]; [|lia|unfold zlen; lia]. split.
    + simpl. rewrite Hr. f_equal. unfold range_of. simpl. destruct r as [? ? ? ? ? []]. simpl in *. by subst.
    + rewrite (drop_S _ data) by done. simpl. constructor.
      * split; simpl; [done|]. rewrite decode_encode_digest by apply sha256_sized. done.
      * by replace (S (Z.to_nat i)) with (Z.to_nat (i + 1)) by lia.
Qed.

Lemma matches_base identity : checkpointIdentity_matches identity (baseCheckpoint identity) = true.
Proof.
  unfold checkpointIdentity_matches. simpl. rewrite !bool_decide_true by done. by rewrite !Z.eqb_refl, eqb_reflx.
Qed.

(** A successful snapshot is a well-formed checkpoint of the assembler. *)
Record snapshot_of a (identity : checkpointIdentity) (state : sabrCheckpoint) : Prop := {
  so_identity : checkpointIdentity_matches identity state = true;
  so_valid : validateCheckpoint state = Ok tt;
  so_init : cp_InitWritten state = asm_initWritten a /\
            (asm_initWritten a = true -> cp_InitDigest state = encodeDigest (asm_initDigest a) /\
                                         cp_InitLength state = asm_initLength a) /\
            (asm_initWritten a = false -> cp_InitLength state = 0);
  so_flags : cp_FormatVerified state = asm_formatVerified a /\ cp_EndOfTrack state = asm_endOfTrackDone a /\
             cp_HasSequence state = asm_hasSequence a;
  so_counters : cp_NextSequence state = asm_nextSequence a /\ cp_CumulativeMs state = asm_cumulativeMs a /\
                cp_TotalWritten state = asm_totalWritten a;
  so_segments : snapshot_segments a (asm_bufferedRanges a) = Ok (cp_Segments state)
}.

Lemma snapshotCheckpoint_ok a identity state : snapshotCheckpoint a identity = Ok state -> snapshot_of a identity state.
Proof.
  unfold snapshotCheckpoint. destruct (_ >? _); [done|]. intros Hs.
  apply bind_Ok_inv in Hs as (segments & Hseg & Hs). apply bind_Ok_inv in Hs as ([] & Hv & [= <-]).
  pose proof (matches_base identity) as Hm. unfold checkpointIdentity_matches in Hm.
  destruct (asm_initWritten a) eqn:Ei; simpl in *; split; simpl; by rewrite ?Ei.
Qed.

Lemma snapshot_part_matches maxBytes a init segs identity state :
  progress maxBytes a init segs -> snapshotCheckpoint a identity = Ok state ->
  part_matches state init segs /\ map (range_of (asm_format a)) (cp_Segments state) = asm_bufferedRanges a.
Proof.
  intros [Hfile Hini Hwr Hln Hnext Hhas Htot Hbud Hrg Hct Hidx Htm] Hs.
  apply snapshotCheckpoint_ok in Hs as [_ _ [Hi [Hi1 _]] _ _ Hseg].
  destruct (snapshot_segments_spec a _ _ segs 0 0 _ Hwr Hln Hrg ltac:(lia) ltac:(unfold zlen in *; lia) Hseg) as [Hr Hm].
  split; [|done]. split.
  - rewrite Hi. destruct (asm_initWritten a); [|by destruct Hini]. destruct Hi1 as [-> ->]; [done|].
    destruct Hini as [-> ->]. split; [done|]. by rewrite decode_encode_digest by apply sha256_sized.
  - by rewrite drop_0, Hct, take_ge in Hm by lia.
Qed.

Lemma Forall2_lengths_bound segments segs :
  Forall2 segment_matches segments segs -> forall s, In s segments -> 0 <= cps_Length s <= zlen (concat segs).
Proof.
  induction 1 as [|s0 d segments segs [Hl _] _ IH]; [done|]. intros s [<-|Hin]; simpl concat; rewrite zlen_app.
  - pose proof (zlen_nonneg (concat segs)). pose proof (zlen_nonneg d). lia.
  - specialize (IH _ Hin). pose proof (zlen_nonneg d). lia.
Qed.

Lemma snapshot_typed maxBytes a init segs identity state :
  progress maxBytes a init segs -> maxBytes <= MaxInt64 -> snapshotCheckpoint a identity = Ok state -> checkpoint_typed state.
Proof.
  intros Hp Hmax Hs. pose proof (proj2 (pr_time _ _ _ _ Hp)) as Hd. destruct (snapshot_part_matches _ _ _ _ _ _ Hp Hs) as [[Hm Hf] Hr].
  apply snapshotCheckpoint_ok in Hs as [_ _ [Hi [Hi1 Hi2]] _ _ _].
  assert (zlen init + zlen (concat segs) <= MaxInt64) as Hb.
  { rewrite <- zlen_app, <- (pr_file _ _ _ _ Hp), <- (pr_total _ _ _ _ Hp). pose proof (pr_budget _ _ _ _ Hp). lia. }
  pose proof (zlen_nonneg init). pose proof (zlen_nonneg (concat segs)). split.
  - rewrite Hi in Hm. destruct (asm_initWritten a); [destruct Hm as [<- _]|rewrite Hi2 by done]; width_lia.
  - rewrite <- Hr in Hd. apply Forall_forall. intros s Hin%list_elem_of_In. split.
    + pose proof (Forall2_lengths_bound _ _ Hf s Hin). width_lia.
    + rewrite List.Forall_forall in Hd. apply (Hd (range_of (asm_format a) s)). by apply in_map.
Qed.

(** The durable state of [a] is that of [a']. *)
Record same_durable a a' : Prop := {
  sd_format : asm_format a' = asm_format a;
  sd_contents : asm_contents a' = asm_contents a;
  sd_budget : asm_remaining a' = asm_remaining a /\ asm_totalWritten a' = asm_totalWritten a;
  sd_init : asm_initWritten a' = asm_initWritten a /\
            (asm_initWritten a = true -> asm_initDigest a' = asm_initDigest a /\ asm_initLength a' = asm_initLength a);
  sd_sequence : asm_nextSequence a' = asm_nextSequence a /\ asm_hasSequence a' = asm_hasSequence a;
  sd_tables : asm_writtenSequences a' = asm_writtenSequences a /\ asm_segmentLengths a' = asm_segmentLengths a;
  sd_playback : playbackState a' = playbackState a;
  sd_end : asm_endOfTrackDone a' = asm_endOfTrackDone a
}.

End SnapshotLemmas.

(** ** Claims *)

(** C31. A checkpoint is accepted exactly when it is consistent: known version,
    complete and bounded identity, segments numbered from 0 without gap on one
    contiguous timeline, byte and duration totals that add up without
    overflow, and flags that agree with the segments. *)
Theorem checkpoint_validation_exact state :
  checkpoint_typed state -> validateCheckpoint state = Ok tt <-> checkpoint_wf state.
Proof. apply validateCheckpoint_spec. Qed.

Section Claims.
Context {F W : Type} `{!OsFile F} `{!Sha256}.

(** C10. Resuming is sound whatever is on disk: once the partial file has been
    verified against a checkpoint and cut to its length, restoring succeeds,
    and the assembler satisfies its invariant: the file is the initialization
    segment and the segments with the recorded digests, the budget is what
    they leave, and the next request acknowledges exactly them. *)
Theorem resume_sound before info file state format expected (f : F) maxBytes (w : W) :
  checkpoint_typed state ->
  verifyCheckpointPartBytes before info (Ok file) state = Ok tt ->
  file_data f = take (Z.to_nat (cp_TotalWritten state)) (io_rest file) ->
  cp_TotalWritten state <= maxBytes <= MaxInt64 ->
  exists a' init segs,
    restoreCheckpoint (newTrackAssembler format expected (Some f) maxBytes w) state maxBytes = (None, a') /\
    part_matches state init segs /\ progress maxBytes a' init segs /\ asm_inv maxBytes a' /\
    playbackState a' = (cp_CumulativeMs state, map (range_of format) (cp_Segments state), cp_FormatVerified state) /\
    asm_nextSequence a' = zlen (cp_Segments state).
Proof.
  intros Hty Hv Hf Hmax. apply bind_Ok_inv in Hv as ([] & Hval & Hv). apply bind_Ok_inv in Hv as ([] & _ & Hv).
  destruct info as [| |regular size]; try done. destruct (negb regular); [done|]. destruct (size <? _); [done|].
  cbn [mbind result_bind] in Hv. pose proof (proj1 (validateCheckpoint_spec state Hty) Hval) as Hw.
  apply verify_file_iff in Hv as (init & segs & tail & Hr & Hm); [|done].
  pose proof (part_matches_length _ _ _ Hw Hm) as Hlen.
  destruct (restore_progress (newTrackAssembler format expected (Some f) maxBytes w) state maxBytes init segs)
    as (a' & Hres & Hp & Hact & Hfmt & _ & _ & _ & _ & _ & Hfv & _ & _ & Hcum & Hrg); try done.
  { simpl. unfold asm_contents. simpl. rewrite Hf, Hr, app_assoc. apply take_app_exact. unfold zlen in Hlen. lia. }
  exists a', init, segs. split_and!; try done.
  - split; [done|]. by exists init, segs.
  - unfold playbackState. by rewrite Hcum, Hrg, Hfv.
  - rewrite (pr_next _ _ _ _ Hp). destruct Hm as [_ Hm%Forall2_length]. unfold zlen. lia.
Qed.

(** C14. A snapshot loses nothing: if taking one succeeds, it matches the
    identity it was taken for, and restoring it into a fresh assembler over the
    same bytes gives the same durable state (progress tables, counters, budget,
    flags, playback state), with no header open. *)
Theorem snapshot_restore `{!Sha256Sized} maxBytes (a : trackAssembler F W) init segs identity state expected (f : F) (w : W) :
  progress maxBytes a init segs -> maxBytes <= MaxInt64 ->
  snapshotCheckpoint a identity = Ok state -> file_data f = asm_contents a ->
  checkpointIdentity_matches identity state = true /\
  exists a', restoreCheckpoint (newTrackAssembler (asm_format a) expected (Some f) maxBytes w) state maxBytes = (None, a') /\
    same_durable a a' /\ asm_active a' = ∅.
Proof.
  intros Hp Hmax Hs Hf. pose proof (snapshot_typed _ _ _ _ _ _ Hp Hmax Hs) as Hty.
  destruct (snapshot_part_matches _ _ _ _ _ _ Hp Hs) as [Hm Hr].
  apply snapshotCheckpoint_ok in Hs as [Hid Hval [Hi [Hi1 _]] (Hfv & He & Hh) (Hn & Hc & Ht) _]. split; [done|].
  pose proof (proj1 (validateCheckpoint_spec state Hty) Hval) as Hw. pose proof Hp as [Pf Pi Pw Pl Pn _ Pt Pb _ _ _ _].
  destruct (restore_progress (newTrackAssembler (asm_format a) expected (Some f) maxBytes w) state maxBytes init segs)
    as (a' & Hres & [Pf' Pi' Pw' Pl' Pn' _ Pt' Pb' _ _ _ _] & _ & Hfmt & _ & _ & Hact & _ & Hi' & Hfv' & He' & Hh' & Hcum & Hrg); try done.
  { unfold asm_contents. simpl. by rewrite Hf. }
  { lia. }
  simpl in Hfmt, Hrg. exists a'. split; [done|]. split; [|done]. split; try congruence.
  - rewrite Pt' in *. rewrite Pt, Pf', Pf in *. split; [lia|done].
  - rewrite Hi', Hi in *. split; [done|]. intros Hw1. rewrite Hw1 in *. destruct Pi as [-> ->], Pi' as [-> ->]. done.
  - split; [congruence|]. congruence.
  - split; apply map_eq; intros k; by rewrite ?Pw', ?Pw, ?Pl', ?Pl.
  - unfold playbackState. by rewrite Hcum, Hrg, Hfv', Hr, Hfv, Hc.
Qed.

(** An initialization segment cannot be committed while the first media
    header is open: the sequence already counts as started, so the snapshot
    taken by the commit is refused, and with it the download, although media
    headers may be interleaved. *)
Theorem snapshot_refuses_open_first_segment (a : trackAssembler F W) identity (save : sabrCheckpoint -> option go_error * W) :
  asm_hasSequence a = true -> asm_bufferedRanges a = [] ->
  let hook a := match snapshotCheckpoint a identity with Err e => (Some e, asm_world a) | Ok state => save state end in
  asm_file a = None \/ (exists file file', asm_file a = Some file /\ file_Sync file = (None, file')) ->
  (commitProgress (Some hook) a).1 = Some ErrCheckpointInvalid.
Proof.
  intros Hh Hr hook Hfile.
  assert (forall file', (run_onCommit hook (a <| asm_file := file' |>)).1 = Some ErrCheckpointInvalid) as Hrun.
  { intros file'. unfold run_onCommit, hook, snapshotCheckpoint. simpl. rewrite Hr. simpl.
    match goal with |- context [validateCheckpoint ?st] =>
      destruct (validateCheckpoint st) as [[]|e] eqn:Ev; [apply validateCheckpoint_sequence in Ev|apply validateCheckpoint_err in Ev] end.
    - by destruct (asm_initWritten a).
    - by destruct (asm_initWritten a).
    - simpl. by subst. }
  unfold commitProgress. destruct Hfile as [E|(file & file' & E & Hs)]; rewrite E; [|rewrite Hs; apply Hrun].
  specialize (Hrun None). by destruct a; simpl in *; subst.
Qed.

End Claims.

(** ** Witnesses *)

Section Witnesses.
#[local] Existing Instance padded_digest.

#[local] Instance padded_digest_sized : Sha256Sized.
Proof. split. intros data. unfold zlen, sha256_Size. cbn [sha256_Sum256 padded_digest]. rewrite length_take, length_app, repeat_length. lia. Qed.

Definition sample_identity : checkpointIdentity := identityFromConfig sample_config.
Definition sample_assembler : trackAssembler bytes unit :=
  (consume_parts None w_new (track_parts w_format_payload w_init w_segs)).2.
Definition sample_checkpoint : sabrCheckpoint :=
  match snapshotCheckpoint sample_assembler sample_identity with Ok state => state | Err _ => baseCheckpoint sample_identity end.

Lemma sample_checkpoint_typed : checkpoint_typed sample_checkpoint.
Proof.
  split; [vm_compute; split; discriminate|]. let v := eval vm_compute in (cp_Segments sample_checkpoint) in
    change (cp_Segments sample_checkpoint) with v.
  repeat (apply Forall_cons; split; [vm_compute; repeat split; discriminate|]). apply Forall_nil. done.
Qed.

Lemma checkpoint_validation_exact_witness : checkpoint_wf sample_checkpoint.
Proof. apply (checkpoint_validation_exact sample_checkpoint); [exact sample_checkpoint_typed|vm_compute; reflexivity]. Defined.

Lemma resume_sound_witness :
  exists a' init segs,
    restoreCheckpoint (newTrackAssembler w_format 10000 (Some (lit "initabcdef")) 100 tt) sample_checkpoint 100 = (None, a') /\
    part_matches sample_checkpoint init segs /\ progress 100 a' init segs /\ asm_inv 100 a' /\
    playbackState a' = (10000, map (range_of w_format) (cp_Segments sample_checkpoint), true) /\
    asm_nextSequence a' = 2.
Proof.
  apply (resume_sound LstatNotExist (LstatInfo true 14) (mkIoFile (lit "initabcdeftorn") None) sample_checkpoint).
  - exact sample_checkpoint_typed.
  - vm_compute. reflexivity.
  - vm_compute. reflexivity.
  - vm_compute. split; discriminate.
Defined.

(** The assembler of the sample track, with its progress. *)
Lemma sample_resumed :
  exists a : trackAssembler bytes unit,
    restoreCheckpoint (newTrackAssembler w_format 10000 (Some (lit "initabcdef")) 100 tt) sample_checkpoint 100 = (None, a) /\
    progress 100 a (lit "init") [lit "abc"; lit "def"].
Proof.
  destruct (restore_progress (newTrackAssembler w_format 10000 (Some (lit "initabcdef")) 100 tt) sample_checkpoint 100
    (lit "init") [lit "abc"; lit "def"]) as (a & Hr & Hp & _).
  - exact sample_checkpoint_typed.
  - apply validateCheckpoint_spec; [exact sample_checkpoint_typed|vm_compute; reflexivity].
  - split; [vm_compute; by split|]. let v := eval vm_compute in (cp_Segments sample_checkpoint) in
      change (cp_Segments sample_checkpoint) with v.
    repeat (apply List.Forall2_cons; [vm_compute; by split|]). apply List.Forall2_nil.
  - reflexivity.
  - reflexivity.
  - vm_compute. split; discriminate.
  - exists a. split; [exact Hr|exact Hp].
Qed.

Lemma snapshot_restore_witness :
  exists (a a' : trackAssembler bytes unit) state,
    snapshotCheckpoint a sample_identity = Ok state /\
    restoreCheckpoint (newTrackAssembler (asm_format a) 10000 (Some (lit "initabcdef")) 100 tt) state 100 = (None, a') /\
    same_durable a a' /\ asm_active a' = ∅.
Proof.
  destruct sample_resumed as (a & Hr & Hp). vm_compute in Hr. injection Hr as <-.
  match type of Hp with progress _ ?a _ _ =>
    destruct (snapshotCheckpoint a sample_identity) as [state|e] eqn:Es; [|vm_compute in Es; discriminate];
    destruct (snapshot_restore 100 a _ _ sample_identity state 10000 (lit "initabcdef") tt Hp) as [_ (a' & H1 & H2 & H3)] end.
  - vm_compute. discriminate.
  - exact Es.
  - reflexivity.
  - eexists _, a', state. split; [exact Es|]. split; [exact H1|]. split; assumption.
Defined.

(** The header of segment 0 is announced before the initialization segment
    ends. *)
Lemma snapshot_refuses_open_first_segment_witness :
  let a := (consume_parts None w_new
    [mkPart PartFormatInitializationMetadata w_format_payload;
     mkPart PartMediaHeader (ms_payload w_init); media_part 1 (lit "init");
     mkPart PartMediaHeader (marshalMediaHeader (w_header 2 0 false))]).2 in
  let hook a := match snapshotCheckpoint a sample_identity with Err e => (Some e, asm_world a) | Ok state => (None, tt) end in
  (finalizeSegment (Some hook) a (part_Payload (end_part 1))).1 = Some ErrCheckpointInvalid /\
  (commitProgress (Some hook) (finalizeSegment None a (part_Payload (end_part 1))).2).1 = Some ErrCheckpointInvalid.
Proof.
  intros a hook. split; [vm_compute; reflexivity|].
  apply (snapshot_refuses_open_first_segment _ sample_identity (fun _ => (None, tt))).
  - vm_compute. reflexivity.
  - vm_compute. reflexivity.
  - right. exists (lit "init"), (lit "init"). split; vm_compute; reflexivity.
Defined.

End Witnesses.
