(* ===== verification/Post.v ===== *)
(** * One SABR POST

    [request.go], [headers.go], [retry.go] and [postOnce] of [downloader.go]:
    how the HTTP request of a round is built, sent through the isolated
    transport, and its response classified and consumed.

    Parameters ([Env]): the transport, the clock and the context of the caller,
    its event sink and its callbacks, [mime.ParseMediaType], and the iteration
    order of maps.  [T] is the state of that outside world. *)
From S2P Require Import Prelude Errors Varint GoStrings Url Wire Messages UmpReader Directives ContextState Assembler.
From S2P Require Import Control Request Digest Recovery Headers.

#[local] Open Scope byte_scope.

#[local] Open Scope Z_scope.

(** ** Requests *)

Record httpRequest := mkHttpRequest {
  req_Method : bytes;
  req_URL : bytes;
  req_Header : http_Header;
  req_Body : bytes;
  req_ContentLength : Z
}.

#[export] Instance eta_httpRequest : Eta httpRequest :=
  fun r => mkHttpRequest (req_Method r) (req_URL r) (req_Header r) (req_Body r) (req_ContentLength r).

(** The error of [url.Parse]. *)
Definition url_ParseError : go_error := ErrOther 1.

Definition newSABRRequest `{!UnicodeTables} (serverURL : bytes) (requestNumber : Z) (body userAgent acceptLanguage : bytes)
  : res httpRequest :=
  target ← requestURL serverURL requestNumber;
  match url_Parse target with
  | None => Err url_ParseError
  | Some _ =>
      let header := Header_Set ∅ (lit "Content-Type") (lit "application/x-protobuf") in
      let header := Header_Set header (lit "Accept") (lit "application/vnd.yt-ump") in
      let header := Header_Set header (lit "Accept-Encoding") (lit "identity") in
      let header := if nonempty userAgent then Header_Set header (lit "User-Agent") userAgent else header in
      let header := if nonempty acceptLanguage then Header_Set header (lit "Accept-Language") acceptLanguage else header in
      Ok (mkHttpRequest (lit "POST") target header body (zlen body))
  end.

Definition sabrProtectedHeaders : list bytes :=
  [lit "Accept"; lit "Accept-Encoding"; lit "Accept-Language"; lit "Authorization"; lit "Connection";
   lit "Content-Length"; lit "Content-Type"; lit "Cookie"; lit "Host"; lit "Proxy-Authorization"; lit "Te";
   lit "Trailer"; lit "Transfer-Encoding"; lit "Upgrade"; lit "User-Agent"; lit "X-Goog-Visitor-Id"].

Definition isSABRProtectedHeader (name : bytes) : bool :=
  bool_decide (CanonicalHeaderKey name ∈ sabrProtectedHeaders).

(** [for _, value := range values] *)
Fixpoint add_values (h : http_Header) (canonical : bytes) (values : list bytes) : http_Header :=
  match values with
  | [] => h
  | value :: values =>
      if negb (nonempty value) then add_values h canonical values
      else add_values (Header_Add h canonical value) canonical values
  end.

Fixpoint add_caller (h : http_Header) (caller : list (bytes * list bytes)) : http_Header :=
  match caller with
  | [] => h
  | (key, values) :: caller =>
      if isSABRProtectedHeader key then add_caller h caller
      else add_caller (add_values h (CanonicalHeaderKey key) values) caller
  end.

Definition applySABRCallerHeaders (request : httpRequest) (caller : list (bytes * list bytes)) : httpRequest :=
  if zlen caller =? 0 then request
  else request <| req_Header := add_caller (req_Header request) caller |>.

(** The request [postOnce] sends. *)
Definition postOnce_request `{!UnicodeTables} (config : Config) (serverURL : bytes) (requestNumber : Z) (body : bytes)
  : res httpRequest :=
  request ← newSABRRequest serverURL requestNumber body (cfg_UserAgent config) (cfg_AcceptLanguage config);
  let request := request <| req_Header := foldl Header_Del (req_Header request)
                              [lit "Authorization"; lit "Cookie"; lit "Proxy-Authorization"] |> in
  Ok (applySABRCallerHeaders request (cfg_Headers config)).

(** ** Responses *)

Record httpResponse (S : Type) := mkHttpResponse {
  resp_StatusCode : Z;
  resp_Header : http_Header;
  resp_Body : S
}.
Arguments mkHttpResponse {S}.
Arguments resp_StatusCode {S}.
Arguments resp_Header {S}.
Arguments resp_Body {S}.

(** [network.RetryableStatus] *)
Definition RetryableStatus (code : Z) : bool :=
  (code =? 408) || (code =? 429) || ((code >=? 500) && (code <? 600)).

Definition isRedirectResponse {S} (response : httpResponse S) : bool :=
  if existsb (Z.eqb (resp_StatusCode response)) [301; 302; 303; 307; 308]%Z
  then nonempty (Header_Get (resp_Header response) (lit "Location"))
  else false.

(** An error of one POST; [post_retryable] is wrapped in [retryableError]. *)
Inductive post_error :=
| post_plain (e : go_error)
| post_retryable (e : go_error).

Definition isRetryable (err : post_error) : bool :=
  match err with post_plain _ => false | post_retryable _ => true end.
Definition post_cause (err : post_error) : go_error :=
  match err with post_plain e | post_retryable e => e end.

Definition requestFailure : go_error := ErrDownloadFailed.
Definition redirectFailure : go_error := ErrRedirect.
Definition responseFailure (status : Z) : post_error :=
  if RetryableStatus status then post_retryable ErrDownloadFailed else post_plain ErrDownloadFailed.

(** ** The outside world *)

Inductive eventKind := KindStarting | KindProgress | KindRetry | KindCancelled | KindCompleted.

Class Env (T S : Type) := {
  (** [ctx.Err()] *)
  env_ctxErr : T -> option go_error * T;
  (** which is [context.Canceled] or [context.DeadlineExceeded] *)
  env_ctxErr_plain t e t' : env_ctxErr t = (Some e, t') -> recovery_signal e = false;
  (** [ctx.Err()] at each part of a response *)
  env_stream : T -> (nat -> option go_error) * T;
  (** [transport.DoWithoutCredentialsNoRedirect] *)
  env_Do : T -> httpRequest -> res (httpResponse S) * T;
  (** waiting for a positive duration, or the context's error *)
  env_wait : T -> Z -> option go_error * T;
  (** [sink.Emit] of an event with its byte count or attempt number *)
  env_Emit : T -> eventKind -> Z -> option go_error * T;
  env_Reload : option (T -> ReloadRequest -> res RefreshMaterial * T);
  env_POTokenSource : option (T -> res (option bytes) * T);
  (** [mime.ParseMediaType]: the media type *)
  mime_ParseMediaType : bytes -> option bytes;
  env_mapOrder : T -> sabrContextState -> list Z;
  env_mapOrder_perm t state : env_mapOrder t state ≡ₚ elements (dom (cs_entries state))
}.

Section Post.
Context {F W T S : Type} `{!OsFile F} `{!Sha256} `{!UnicodeTables} `{!IoReader S} `{!Env T S}.
Context (onCommit : option (trackAssembler F W -> option go_error * W)).

Definition sleep (t : T) (delay : Z) : option go_error * T :=
  if delay <=? 0 then (None, t) else env_wait t delay.

Definition validateResponseContentType (header : bytes) : res unit :=
  if negb (nonempty header) then Err ErrInvalidContentType
  else
    match mime_ParseMediaType header with
    | None => Err ErrInvalidContentType
    | Some mediaType =>
        if negb (bool_decide (mediaType = lit "application/vnd.yt-ump")) then Err ErrInvalidContentType else Ok tt
    end.

Definition postOnce (config : Config) (serverURL : bytes) (requestNumber : Z) (body : bytes)
    (assembler : trackAssembler F W) (contexts : sabrContextState) (redirects : redirectTracker) (t : T)
  : result post_error roundControl * trackAssembler F W * T :=
  match postOnce_request config serverURL requestNumber body with
  | Err e => (Err (post_plain e), assembler, t)
  | Ok request =>
      let '(response, t) := env_Do t request in
      match response with
      | Err _ =>
          let '(cancelled, t) := env_ctxErr t in
          match cancelled with
          | Some e => (Err (post_plain e), assembler, t)
          | None => (Err (post_retryable requestFailure), assembler, t)
          end
      | Ok response =>
          if isRedirectResponse response then (Err (post_plain redirectFailure), assembler, t)
          else if negb (resp_StatusCode response =? 200) then (Err (responseFailure (resp_StatusCode response)), assembler, t)
          else
            match validateResponseContentType (Header_Get (resp_Header response) (lit "Content-Type")) with
            | Err e => (Err (post_plain e), assembler, t)
            | Ok _ =>
                let '(ctx, t) := env_stream t in
                let '(r, assembler) := consumeStreamState onCommit ctx (resp_Body response) assembler (Some contexts) redirects in
                match r with
                | Err e => (Err (post_plain e), assembler, t)
                | Ok ctrl => (Ok ctrl, assembler, t)
                end
            end
      end
  end.

(** Attempts [attempt], ..., [attempts]; [n] of them are left. *)
Fixpoint postRound_loop (n : nat) (attempts attempt : Z) (config : Config) (serverURL : bytes) (requestNumber : Z)
    (body : bytes) (contexts : sabrContextState) (redirects : redirectTracker) (lastErr : go_error)
    (assembler : trackAssembler F W) (t : T) : res roundControl * trackAssembler F W * T :=
  match n with
  | O => (Err lastErr, assembler, t)
  | Datatypes.S n =>
      let '(r, assembler, t) := postOnce config serverURL requestNumber body assembler contexts redirects t in
      match r with
      | Ok ctrl => (Ok ctrl, assembler, t)
      | Err err =>
          let '(cancelled, t) := env_ctxErr t in
          match cancelled with
          | Some e => (Err e, assembler, t)
          | None =>
              if negb (isRetryable err) then (Err (post_cause err), assembler, t)
              else if (attempt <? attempts)%Z then
                let '(emitErr, t) := env_Emit t KindRetry (attempt + 1) in
                match emitErr with
                | Some _ => (Err ErrEventSink, assembler, t)
                | None =>
                    let '(sleepErr, t) := sleep t (retryDelay config attempt) in
                    match sleepErr with
                    | Some e => (Err e, assembler, t)
                    | None => postRound_loop n attempts (attempt + 1) config serverURL requestNumber body contexts redirects
                                (post_cause err) assembler t
                    end
                end
              else postRound_loop n attempts (attempt + 1) config serverURL requestNumber body contexts redirects
                     (post_cause err) assembler t
          end
      end
  end.

Definition round_attempts (config : Config) : Z := if (cfg_Attempts config <=? 0)%Z then 3 else cfg_Attempts config.

(** [lastErr] starts as nil, which is not returned: there is an attempt. *)
Definition postRound (config : Config) (serverURL : bytes) (requestNumber : Z) (body : bytes)
    (assembler : trackAssembler F W) (contexts : sabrContextState) (redirects : redirectTracker) (t : T)
  : res roundControl * trackAssembler F W * T :=
  let attempts := round_attempts config in
  postRound_loop (Z.to_nat attempts) attempts 1 config serverURL requestNumber body contexts redirects ErrDownloadFailed assembler t.

End Post.

(** ** Lemmas: headers *)

(** The values of a header, none when it is absent. *)
Definition values_of (h : http_Header) (key : bytes) : list bytes := default [] (h !! key).

Definition sent_values (values : list bytes) : list bytes := List.filter nonempty values.

(** What the caller contributes to [key]. *)
Definition caller_values (caller : list (bytes * list bytes)) (key : bytes) : list bytes :=
  concat (map (fun '(k, values) => if decide (CanonicalHeaderKey k = key) then sent_values values else []) caller).

(** What the engine sets for [key]. *)
Definition engine_values (userAgent acceptLanguage key : bytes) : list bytes :=
  if decide (key = lit "Content-Type") then [lit "application/x-protobuf"]
  else if decide (key = lit "Accept") then [lit "application/vnd.yt-ump"]
  else if decide (key = lit "Accept-Encoding") then [lit "identity"]
  else if decide (key = lit "User-Agent") then sent_values [userAgent]
  else if decide (key = lit "Accept-Language") then sent_values [acceptLanguage]
  else [].

Lemma add_values_spec values h canonical key :
  values_of (add_values h canonical values) key =
    values_of h key ++ (if decide (CanonicalHeaderKey canonical = key) then sent_values values else []).
Proof.
  revert h. induction values as [|v values IH]; intros h; simpl; [by destruct (decide _); rewrite app_nil_r|].
  destruct (nonempty v); cbn [negb]; rewrite IH; [|done].
  unfold values_of, Header_Add. rewrite lookup_insert.
  destruct (decide (CanonicalHeaderKey canonical = key)) as [<-|]; [|done]. simpl. by rewrite <- app_assoc.
Qed.

Lemma add_caller_spec caller h key :
  values_of (add_caller h caller) key =
    values_of h key ++ (if decide (key ∈ sabrProtectedHeaders) then [] else caller_values caller key).
Proof.
  revert h. induction caller as [|[k values] caller IH]; intros h; [by destruct (decide _); rewrite app_nil_r|].
  cbn [add_caller]. unfold isSABRProtectedHeader, caller_values in *. cbn [map concat].
  case_bool_decide as Hp; rewrite IH.
  - destruct (decide (key ∈ _)); [done|].
    by rewrite (decide_False (P := CanonicalHeaderKey k = key)) by (by intros <-).
  - rewrite add_values_spec, CanonicalHeaderKey_idem, <- app_assoc. f_equal.
    destruct (decide (CanonicalHeaderKey k = key)) as [<-|]; [|done]. by rewrite !decide_False by done.
Qed.

Lemma engine_header_spec userAgent acceptLanguage key :
  values_of
    (foldl Header_Del
       (let header := Header_Set ∅ (lit "Content-Type") (lit "application/x-protobuf") in
        let header := Header_Set header (lit "Accept") (lit "application/vnd.yt-ump") in
        let header := Header_Set header (lit "Accept-Encoding") (lit "identity") in
        let header := if nonempty userAgent then Header_Set header (lit "User-Agent") userAgent else header in
        if nonempty acceptLanguage then Header_Set header (lit "Accept-Language") acceptLanguage else header)
       [lit "Authorization"; lit "Cookie"; lit "Proxy-Authorization"]) key
  = engine_values userAgent acceptLanguage key.
Proof.
  unfold Header_Set, Header_Del, engine_values, sent_values. cbn [foldl].
  repeat match goal with |- context [CanonicalHeaderKey (lit ?s)] =>
    change (CanonicalHeaderKey (lit s)) with (lit s) end.
  destruct (nonempty userAgent) eqn:Eu, (nonempty acceptLanguage) eqn:El; unfold values_of; cbn [List.filter];
    rewrite ?Eu, ?El, !lookup_delete, !lookup_insert;
    repeat (case_decide; subst; try done); try congruence.
Qed.

Lemma engine_protected userAgent acceptLanguage key :
  key ∉ sabrProtectedHeaders -> engine_values userAgent acceptLanguage key = [].
Proof.
  intros Hk. unfold engine_values. repeat (case_decide; [exfalso; apply Hk; subst; vm_compute; set_solver|]). done.
Qed.

(** ** Lemmas: a POST and its retries *)

Section PostLemmas.
Context {F W T S : Type} `{!OsFile F} `{!Sha256} `{!UnicodeTables} `{!IoReader S} `{!Env T S}.
Context (onCommit : option (trackAssembler F W -> option go_error * W)).

(** The invariant, or a torn write that ended in a fatal error. *)
Definition accounts (maxBytes : Z) (a' : trackAssembler F W) (err : option go_error) : Prop :=
  asm_inv maxBytes a' \/ (fatal err /\ exists a1, asm_inv maxBytes a1 /\ torn a1 a').

Definition post_err {A} (r : result post_error A) : option go_error :=
  match r with Err (post_plain e) => Some e | _ => None end.
Definition res_err {A} (r : res A) : option go_error := match r with Err e => Some e | Ok _ => None end.

Lemma postOnce_accounts maxBytes config serverURL n body a contexts redirects t r a' t' :
  asm_inv maxBytes a -> postOnce onCommit config serverURL n body a contexts redirects t = (r, a', t') ->
  accounts maxBytes a' (post_err r).
Proof.
  intros Hi. unfold postOnce. destruct (postOnce_request _ _ _ _) as [request|]; [|intros [= <- <- _]; by left].
  destruct (env_Do t request) as [[response|e] t1]; [|destruct (env_ctxErr t1) as [[]]; intros [= <- <- _]; by left].
  destruct (isRedirectResponse response); [intros [= <- <- _]; by left|].
  destruct (negb _); [intros [= <- <- _]; by left|].
  destruct (validateResponseContentType _); [|intros [= <- <- _]; by left].
  destruct (env_stream t1) as [ctx t2].
  pose proof (consumeStreamState_accounts onCommit ctx (resp_Body response) maxBytes a (Some contexts) redirects Hi) as Hc.
  destruct (consumeStreamState _ _ _ _ _ _) as [[ctrl|e] a1]; intros [= <- <- _].
  - destruct Hc as [?|[(? & ? & _) _]]; [by left|done].
  - destruct Hc as [?|[(? & [= <-] & ?) ?]]; [by left|right]. split; [by eexists|done].
Qed.

Lemma postOnce_round config serverURL n body a contexts redirects t ctrl a' t' :
  cs_inv contexts -> postOnce onCommit config serverURL n body a contexts redirects t = (Ok ctrl, a', t') ->
  round_ok redirects ctrl.
Proof.
  intros Hcs. unfold postOnce. intros Hp. repeat (case_match; simplify_eq/=).
  eapply consumeStreamState_round; [|done]. done.
Qed.

Lemma postRound_loop_accounts maxBytes n attempts attempt config serverURL rn body contexts redirects lastErr a t r a' t' :
  asm_inv maxBytes a ->
  postRound_loop onCommit n attempts attempt config serverURL rn body contexts redirects lastErr a t = (r, a', t') ->
  accounts maxBytes a' (res_err r).
Proof.
  revert attempt lastErr a t. induction n as [|n IH]; intros attempt lastErr a t Hi; simpl; [intros [= <- <- _]; by left|].
  destruct (postOnce _ _ _ _ _ _ _ _ _) as [[r1 a1] t1] eqn:Ep. pose proof (postOnce_accounts _ _ _ _ _ _ _ _ _ _ _ _ Hi Ep) as Ha.
  destruct r1 as [ctrl|err]; [intros [= <- <- _]; exact Ha|].
  destruct (env_ctxErr t1) as [[e|] t2] eqn:Ec.
  { intros [= <- <- _]. destruct Ha as [?|[_ ?]]; [by left|right]. split; [|done]. exists e. split; [done|]. by eapply env_ctxErr_plain. }
  destruct err as [e|e]; simpl; [intros [= <- <- _]; exact Ha|].
  destruct Ha as [Hi1|[(? & ? & _) _]]; [|done].
  destruct (attempt <? attempts); [|by apply IH]. destruct (env_Emit _ _ _) as [[|] t3]; [intros [= <- <- _]; by left|].
  destruct (sleep _ _) as [[|] t4]; [intros [= <- <- _]; by left|]. by apply IH.
Qed.

Lemma postRound_loop_round n attempts attempt config serverURL rn body contexts redirects lastErr a t ctrl a' t' :
  cs_inv contexts ->
  postRound_loop onCommit n attempts attempt config serverURL rn body contexts redirects lastErr a t = (Ok ctrl, a', t') ->
  round_ok redirects ctrl.
Proof.
  intros Hcs. revert attempt lastErr a t. induction n as [|n IH]; intros attempt lastErr a t; simpl; [done|].
  destruct (postOnce _ _ _ _ _ _ _ _ _) as [[[c|err] a1] t1] eqn:Ep.
  - intros [= <- _ _]. by eapply postOnce_round.
  - repeat (case_match; simplify_eq/=); try done; apply IH.
Qed.

(** What a request the engine sends looks like. *)
Record isolated_request (config : Config) (serverURL : bytes) (requestNumber : Z) (body : bytes) (request : httpRequest) : Prop := {
  ir_endpoint : exists u, ValidateSABRURL serverURL = Ok u;
  ir_target : req_URL request = serverURL ++ (if Contains serverURL (lit "?") then lit "&" else lit "?") ++
                                lit "rn=" ++ Itoa requestNumber;
  ir_body : req_Method request = lit "POST" /\ req_Body request = body /\ req_ContentLength request = zlen body;
  ir_header key : values_of (req_Header request) key =
    if decide (key ∈ sabrProtectedHeaders) then engine_values (cfg_UserAgent config) (cfg_AcceptLanguage config) key
    else caller_values (cfg_Headers config) key
}.

Lemma postOnce_request_isolated config serverURL n body request :
  postOnce_request config serverURL n body = Ok request -> isolated_request config serverURL n body request.
Proof.
  unfold postOnce_request, newSABRRequest, requestURL. intros Hr.
  apply bind_Ok_inv in Hr as (r0 & Hr & Hr'). apply bind_Ok_inv in Hr as (target & Ht & Hr).
  apply bind_Ok_inv in Ht as (u & Hu & [= <-]). destruct (url_Parse _) as [v|]; [|done].
  apply Ok_inj in Hr as <-. apply Ok_inj in Hr' as <-. unfold applySABRCallerHeaders.
  set (h0 := foldl Header_Del _ _). split; [eauto|by destruct (zlen _ =? 0)|by destruct (zlen _ =? 0)|]. intros key.
  assert (values_of h0 key = engine_values (cfg_UserAgent config) (cfg_AcceptLanguage config) key) as Hh0
    by exact (engine_header_spec _ _ _).
  transitivity (values_of (add_caller h0 (cfg_Headers config)) key).
  { destruct (Z.eqb_spec (zlen (cfg_Headers config)) 0) as [Hz|Hz]; [|done]. apply zlen_0_nil in Hz as ->. done. }
  rewrite add_caller_spec, Hh0. destruct (decide _) as [Hk|Hk]; [by rewrite app_nil_r|]. by rewrite engine_protected.
Qed.

(** ** Claims *)

(** C32. Requests are isolated: a POST is built only for a validated endpoint,
    it goes to that endpoint with the request number appended, and its headers
    are fully determined: the protected ones (credentials, cookies, host,
    content negotiation, visitor id) have exactly the engine's values and never
    the caller's, whatever their spelling; every other header has the caller's
    non-empty values in order. *)
Theorem request_isolation config serverURL requestNumber body request :
  postOnce_request config serverURL requestNumber body = Ok request ->
  isolated_request config serverURL requestNumber body request /\
  values_of (req_Header request) (lit "Authorization") = [] /\ values_of (req_Header request) (lit "Cookie") = [] /\
  values_of (req_Header request) (lit "Proxy-Authorization") = [].
Proof.
  intros Hr%postOnce_request_isolated. split; [done|]. rewrite !(ir_header _ _ _ _ _ Hr).
  split_and!; rewrite decide_True by (vm_compute; set_solver); done.
Qed.

End PostLemmas.

(** ** Witnesses *)

Section Witnesses.
#[local] Existing Instance dotted_i_tables.

Definition caller_config : Config :=
  sample_config <| cfg_Headers := [(lit "cookie", [lit "secret"]); (lit "x-test", [lit "1"; []; lit "2"])] |>.

Lemma request_isolation_witness :
  exists request, postOnce_request caller_config sample_url 7 (lit "body") = Ok request /\
    req_URL request = lit "HTTPS://R1.GoogleVideo.com./videoplayback?a=b&rn=7" /\
    values_of (req_Header request) (lit "Cookie") = [] /\
    values_of (req_Header request) (lit "X-Test") = [lit "1"; lit "2"].
Proof.
  destruct (postOnce_request caller_config sample_url 7 (lit "body")) as [request|e] eqn:E; [|vm_compute in E; discriminate].
  exists request. split; [reflexivity|].
  destruct (request_isolation caller_config sample_url 7 (lit "body") request E) as [Hi (_ & Hc & _)].
  split; [exact (ir_target _ _ _ _ _ Hi)|]. split; [exact Hc|]. exact (ir_header _ _ _ _ _ Hi (lit "X-Test")).
Defined.

End Witnesses.
