(* ===== verification/Downloader.v ===== *)
(** * The download loop

    The round loop of [Download] ([downloader.go]): requests are built from the
    committed state, posted with retries, and the committed control state of a
    response decides how the next one is made; SABR errors and reload requests
    are recovered from within budgets. *)
From S2P Require Import Prelude Errors Varint GoStrings Url Wire Messages UmpReader Directives ContextState Assembler.
From S2P Require Import Control Request Digest Recovery Headers Post.

(** ** Limits *)

Record limits := mkLimits {
  lim_maxRounds : Z;
  lim_maxSabrErrors : Z;
  lim_maxReloads : Z
}.

(** [if value <= 0 || value > max { value = max }] *)
Definition clamp (value max : Z) : Z := if (value <=? 0) || (value >? max) then max else value.

Definition limits_of (config : Config) : limits :=
  mkLimits (clamp (cfg_MaxRounds config) MaxRounds)
    (clamp (cfg_MaxSabrErrorRecoveries config) MaxSabrErrorRecoveries)
    (clamp (cfg_MaxReloadAttempts config) MaxReloadAttempts).

Definition maxSABRAttempts : Z := 100.

Section Download.
Context {F W T S : Type} `{!OsFile F} `{!Sha256} `{!UnicodeTables} `{!IoReader S} `{!Env T S}.
Context (onCommit : option (trackAssembler F W -> option go_error * W)).

(** The variables of the loop. *)
Record session := mkSession {
  ses_config : Config;
  ses_serverURL : bytes;
  ses_requestNumber : Z;
  ses_playerTimeMs : Z;
  ses_selectedFormat : bool;
  ses_bufferedRanges : list BufferedRange;
  ses_playbackCookie : bytes;
  ses_contexts : sabrContextState;
  ses_redirects : redirectTracker;
  ses_sabrErrors : Z;
  ses_reloads : Z;
  ses_assembler : trackAssembler F W;
  ses_world : T
}.

#[export] Instance eta_session : Eta session :=
  fun s => mkSession (ses_config s) (ses_serverURL s) (ses_requestNumber s) (ses_playerTimeMs s)
    (ses_selectedFormat s) (ses_bufferedRanges s) (ses_playbackCookie s) (ses_contexts s) (ses_redirects s)
    (ses_sabrErrors s) (ses_reloads s) (ses_assembler s) (ses_world s).

(** The loop variables of a download that does not resume. *)
Definition new_session (config : Config) (assembler : trackAssembler F W) (t : T) : session :=
  mkSession config (cfg_ServerURL config) 0 0 false [] [] newSabrContextState
    (newRedirectTracker (cfg_ServerURL config)) 0 0 assembler t.

Definition session_request (s : session) : playbackRequest :=
  let config := ses_config s in
  mkPlaybackRequest (cfg_Format config) (cfg_TrackKind config) (cfg_UstreamerConfig config) (cfg_ClientInfo config)
    (cfg_POToken config) (ses_bufferedRanges s) (ses_requestNumber s) (ses_playerTimeMs s) (ses_selectedFormat s)
    (cfg_DrcEnabled config) (cfg_AudioTrackID config) (ses_playbackCookie s)
    (Some (sabrContextState_clone (Some (ses_contexts s)))).

(** How an iteration of the loop ends. *)
Inductive outcome :=
| RoundNext (s : session)  (* the next round *)
| RoundAgain (s : session)  (* [round--; continue] *)
| RoundBreak (s : session)
| RoundFail (e : go_error) (s : session).

Definition with_world (s : session) (t : T) : session := s <| ses_world := t |>.

(** The recovery branch for [*SabrErrorSignal]. *)
Definition recover_sabrError (lim : limits) (s : session) : outcome :=
  let s := s <| ses_sabrErrors := ses_sabrErrors s + 1 |> in
  if ses_sabrErrors s >? lim_maxSabrErrors lim then RoundFail ErrSabrRecoveryBudget s
  else
    let '(sleepErr, t) := sleep (ses_world s) (recoveryBackoff (ses_config s) (ses_sabrErrors s)) in
    let s := with_world s t in
    match sleepErr with
    | Some e => RoundFail e s
    | None => RoundAgain s
    end.

(** The recovery branch for [*ReloadPlayerSignal]. *)
Definition recover_reload (lim : limits) (s : session) (token : bytes) : outcome :=
  let s := s <| ses_reloads := ses_reloads s + 1 |> in
  if ses_reloads s >? lim_maxReloads lim then RoundFail ErrReloadBudget s
  else
    match env_Reload with
    | None => RoundFail (ReloadPlayerSignal token) s
    | Some reload =>
        let config := ses_config s in
        let '(material, t) := reload (ses_world s)
          (mkReloadRequest (cfg_VideoID config) (ci_ClientName (cfg_ClientInfo config))
             (ci_ClientVersion (cfg_ClientInfo config)) (cfg_VisitorData config) (cfg_TrackKind config)
             (cfg_Format config) token) in
        let s := with_world s t in
        match material with
        | Err e => RoundFail e s
        | Ok material =>
            match applyRefreshMaterial (Some config) material (Some (ses_redirects s)) with
            | Err _ => RoundFail ErrReloadRejected s
            | Ok (config, redirects) =>
                let s := s <| ses_config := config |> <| ses_redirects := default (ses_redirects s) redirects |>
                           <| ses_serverURL := cfg_ServerURL config |> <| ses_playbackCookie := [] |>
                           <| ses_contexts := newSabrContextState |> <| ses_requestNumber := 0 |> in
                let '(sleepErr, t) := sleep (ses_world s) (recoveryBackoff (ses_config s) (ses_reloads s)) in
                let s := with_world s t in
                match sleepErr with
                | Some e => RoundFail e s
                | None => RoundAgain s
                end
            end
        end
    end.

(** After a round that committed: the new request state, progress, redirect
    and backoff. *)
Definition commit_round (s : session) (ctrl : roundControl) : outcome :=
  let s := match rc_cookie ctrl with Some cookie => s <| ses_playbackCookie := cookie |> | None => s end in
  let s := s <| ses_contexts := rc_contexts ctrl |> in
  let '(advance, ranges, selected) := playbackState (ses_assembler s) in
  let s := s <| ses_playerTimeMs := advance |> <| ses_bufferedRanges := ranges |> in
  let s := if selected : bool then s <| ses_selectedFormat := true |> else s in
  let '(emitErr, t) := if asm_totalWritten (ses_assembler s) >? 0
                       then env_Emit (ses_world s) KindProgress (asm_totalWritten (ses_assembler s))
                       else (None, ses_world s) in
  let s := with_world s t in
  match emitErr with
  | Some _ => RoundFail ErrEventSink s
  | None =>
      if trackComplete (ses_assembler s) then RoundBreak s
      else
        let s := match rc_redirectURL ctrl with
                 | Some url => s <| ses_redirects := redirectTracker_record (ses_redirects s) url |>
                                 <| ses_serverURL := url |>
                 | None => s
                 end in
        let '(waitErr, t) := if rc_backoff ctrl >? 0 then sleep (ses_world s) (rc_backoff ctrl)
                             else (None, ses_world s) in
        let s := with_world s t in
        match waitErr with
        | Some e => let '(_, t) := env_Emit (ses_world s) KindCancelled 0 in RoundFail e (with_world s t)
        | None => RoundNext (s <| ses_requestNumber := ses_requestNumber s + 1 |>)
        end
  end.

(** The round's POST, from the request body on. *)
Definition post_step (lim : limits) (s : session) : outcome :=
  let request := session_request s in
  match playbackRequest_marshal (env_mapOrder (ses_world s) (sabrContextState_clone (Some (ses_contexts s)))) request with
  | Err e => RoundFail e s
  | Ok body =>
      let '(r, assembler, t) := postRound onCommit (ses_config s) (ses_serverURL s) (ses_requestNumber s) body
        (ses_assembler s) (ses_contexts s) (ses_redirects s) (ses_world s) in
      let s := with_world (s <| ses_assembler := assembler |>) t in
      match r with
      | Ok ctrl => commit_round s ctrl
      | Err err =>
          let '(cancelled, t) := env_ctxErr (ses_world s) in
          let s := with_world s t in
          match cancelled with
          | Some e => RoundFail e s
          | None =>
              match err with
              | SabrErrorSignal _ _ => recover_sabrError lim s
              | ReloadPlayerSignal token => recover_reload lim s token
              | _ => RoundFail err s
              end
          end
      end
  end.

(** The body of the loop. *)
Definition Download_round (lim : limits) (s : session) : outcome :=
  if trackComplete (ses_assembler s) then RoundBreak s
  else
    let '(cancelled, t) := env_ctxErr (ses_world s) in
    let s := with_world s t in
    match cancelled with
    | Some e => let '(_, t) := env_Emit (ses_world s) KindCancelled 0 in RoundFail e (with_world s t)
    | None =>
        match env_POTokenSource with
        | None => post_step lim s
        | Some source =>
            let '(token, t) := source (ses_world s) in
            let s := with_world s t in
            match token with
            | Err e => RoundFail e s
            | Ok None => post_step lim s
            | Ok (Some token) => post_step lim (s <| ses_config := (ses_config s) <| cfg_POToken := token |> |>)
            end
        end
    end.

(** [for round := 0; round < maxRounds; round++]: the error that ends the
    download, if one does, and the session.  [None] is running out of fuel. *)
Fixpoint Download_loop (fuel : nat) (lim : limits) (round : Z) (s : session) : option (option go_error * session) :=
  match fuel with
  | O => None
  | Datatypes.S fuel =>
      if round <? lim_maxRounds lim then
        match Download_round lim s with
        | RoundNext s => Download_loop fuel lim (round + 1) s
        | RoundAgain s => Download_loop fuel lim round s
        | RoundBreak s => Some (None, s)
        | RoundFail e s => Some (Some e, s)
        end
      else Some (None, s)
  end.

(** Rounds, recoveries and reloads that remain: what the loop terminates by. *)
Definition budget (lim : limits) (round : Z) (s : session) : Z :=
  (lim_maxRounds lim - round) + (lim_maxSabrErrors lim - ses_sabrErrors s) + (lim_maxReloads lim - ses_reloads s).

(** The rounds and the completeness check after them; the fuel is enough
    ([Download_loop_total]). *)
Definition Download_rounds (lim : limits) (s : session) : res unit * session :=
  match Download_loop (Datatypes.S (Z.to_nat (budget lim 0 s))) lim 0 s with
  | None => (Err ErrRoundsExhausted, s)
  | Some (Some e, s) => (Err e, s)
  | Some (None, s) => if negb (trackComplete (ses_assembler s)) then (Err ErrRoundsExhausted, s) else (Ok tt, s)
  end.

End Download.
Arguments session : clear implicits.

(** ** Lemmas: termination *)

Section Lemmas.
Context {F W T S : Type} `{!OsFile F} `{!Sha256} `{!UnicodeTables} `{!IoReader S} `{!Env T S}.
Context (onCommit : option (trackAssembler F W -> option go_error * W)).
Implicit Types s : session F W T.

Definition outcome_session (o : outcome (F := F) (W := W) (T := T)) : session F W T :=
  match o with RoundNext s | RoundAgain s | RoundBreak s | RoundFail _ s => s end.

(** The recovery counters are within their budgets. *)
Definition counters_ok (lim : limits) s : Prop :=
  ses_sabrErrors s <= lim_maxSabrErrors lim /\ ses_reloads s <= lim_maxReloads lim.

(** What an iteration does to the counters. *)
Definition counted (lim : limits) s (o : outcome) : Prop :=
  match o with
  | RoundNext s' => ses_sabrErrors s' = ses_sabrErrors s /\ ses_reloads s' = ses_reloads s
  | RoundAgain s' => counters_ok lim s' /\
      ses_sabrErrors s' + ses_reloads s' = ses_sabrErrors s + ses_reloads s + 1
  | RoundBreak _ | RoundFail _ _ => True
  end.

Lemma counted_same lim s s' o :
  ses_sabrErrors s' = ses_sabrErrors s -> ses_reloads s' = ses_reloads s -> counted lim s' o -> counted lim s o.
Proof. intros E1 E2. destruct o; simpl; rewrite ?E1, ?E2; done. Qed.

Lemma commit_round_counted lim s ctrl : counted lim s (commit_round s ctrl).
Proof.
  unfold commit_round, with_world. destruct (playbackState _) as [[advance ranges] selected].
  destruct (rc_cookie ctrl), selected, (_ >? 0), (rc_redirectURL ctrl); repeat (case_match; simplify_eq/=); done.
Qed.

Lemma recover_sabrError_counted lim s : counters_ok lim s -> counted lim s (recover_sabrError lim s).
Proof.
  intros [? ?]. unfold recover_sabrError, with_world. simpl. destruct (Z.gtb_spec (ses_sabrErrors s + 1) (lim_maxSabrErrors lim)); [done|].
  destruct (sleep _ _) as [[e|] t]; simpl; [done|]. unfold counters_ok. simpl. lia.
Qed.

Lemma recover_reload_counted lim s token : counters_ok lim s -> counted lim s (recover_reload lim s token).
Proof.
  intros [? ?]. unfold recover_reload, with_world. simpl. destruct (Z.gtb_spec (ses_reloads s + 1) (lim_maxReloads lim)); [done|].
  destruct env_Reload as [reload|]; [|done]. destruct (reload _ _) as [[m|] t]; [|done].
  destruct (applyRefreshMaterial _ _ _) as [[config redirects]|]; [|done].
  destruct (sleep _ _) as [[e|] t']; simpl; [done|]. unfold counters_ok. simpl. lia.
Qed.

Lemma post_step_counted lim s : counters_ok lim s -> counted lim s (post_step onCommit lim s).
Proof.
  intros Hc. unfold post_step. destruct (playbackRequest_marshal _ _) as [body|]; [|done].
  destruct (postRound _ _ _ _ _ _ _ _ _) as [[[ctrl|err] a] t].
  - eapply counted_same; [| |apply commit_round_counted]; done.
  - set (s0 := with_world _ t). destruct (env_ctxErr (ses_world s0)) as [[e|] t']; [done|]. set (s1 := with_world s0 t').
    assert (counters_ok lim s1) as Hc1 by exact Hc.
    destruct err; try done; [apply (counted_same _ _ s1); [done..|]; by apply recover_sabrError_counted|].
    apply (counted_same _ _ s1); [done..|]. by apply recover_reload_counted.
Qed.

Lemma Download_round_counted lim s : counters_ok lim s -> counted lim s (Download_round onCommit lim s).
Proof.
  intros Hc. unfold Download_round. destruct (trackComplete _); [done|].
  destruct (env_ctxErr _) as [[e|] t]; [by destruct (env_Emit _ _ _)|].
  destruct env_POTokenSource as [source|]; [destruct (source _) as [[[token|]|e] t']; [..|done]|];
    (eapply counted_same; [| |by apply post_step_counted]; done).
Qed.

(** Enough fuel gives a result. *)
Lemma Download_loop_total fuel lim round s :
  counters_ok lim s -> round <= lim_maxRounds lim -> (Z.to_nat (budget lim round s) < fuel)%nat ->
  exists r, Download_loop onCommit fuel lim round s = Some r.
Proof.
  revert round s. induction fuel as [|fuel IH]; intros round s Hc Hr Hf; [lia|]. cbn [Download_loop].
  destruct (Z.ltb_spec round (lim_maxRounds lim)); [|eauto].
  pose proof (Download_round_counted lim s Hc) as Hcount. unfold counters_ok, budget in *.
  destruct (Download_round onCommit lim s) as [s'|s'|s'|e s']; simpl in Hcount; [| |eauto..].
  - apply IH; [lia|lia|]. unfold counters_ok in *. lia.
  - apply IH; [apply Hcount|lia|]. unfold counters_ok in *. lia.
Qed.

(** ** Lemmas: the session invariant *)

Record ses_inv (maxBytes : Z) s : Prop := {
  si_asm : asm_inv maxBytes (ses_assembler s);
  si_contexts : cs_inv (ses_contexts s);
  si_redirects : trk_count (ses_redirects s) <= MaxDirectiveRedirects;
  si_endpoint : exists u, ValidateSABRURL (ses_serverURL s) = Ok u
}.

(** The file after a failure: accounted for, or extended by one torn write. *)
Definition file_accounted (maxBytes : Z) (a : trackAssembler F W) : Prop :=
  asm_inv maxBytes a \/ exists a1, asm_inv maxBytes a1 /\ torn a1 a.

Definition outcome_ok (maxBytes : Z) (o : outcome) : Prop :=
  match o with
  | RoundNext s | RoundAgain s => ses_inv maxBytes s
  | RoundBreak s => ses_inv maxBytes s /\ trackComplete (ses_assembler s) = true
  | RoundFail _ s => file_accounted maxBytes (ses_assembler s)
  end.

Lemma redirect_validated redirects url :
  redirectTracker_validate redirects url = Ok tt ->
  (exists u, ValidateSABRURL url = Ok u) /\ trk_count (redirectTracker_record redirects url) <= MaxDirectiveRedirects.
Proof.
  intros Hv. apply bind_Ok_inv in Hv as (key & Hk & Hv). case_bool_decide; [done|].
  destruct (Z.geb_spec (trk_count redirects) MaxDirectiveRedirects); [done|]. split.
  - unfold sabrRedirectLoopKey in Hk. destruct (ValidateSABRURL url); [eauto|done].
  - unfold redirectTracker_record. case_bool_decide; [lia|]. rewrite Hk. simpl. lia.
Qed.

Lemma newRedirectTracker_count url : trk_count (newRedirectTracker url) = 0.
Proof. unfold newRedirectTracker. repeat case_match; done. Qed.

Lemma commit_round_ok maxBytes s ctrl :
  ses_inv maxBytes s -> round_ok (ses_redirects s) ctrl -> outcome_ok maxBytes (commit_round s ctrl).
Proof.
  intros [Ha Hc Hr He] (_ & _ & Hred & Hcs). unfold commit_round.
  destruct (playbackState _) as [[advance ranges] selected]. set (s1 := if selected : bool then _ else _).
  assert (ses_assembler s1 = ses_assembler s /\ ses_contexts s1 = rc_contexts ctrl /\ ses_redirects s1 = ses_redirects s /\
          ses_serverURL s1 = ses_serverURL s) as (E1 & E2 & E3 & E4)
    by (unfold s1; destruct selected, (rc_cookie ctrl); done).
  clearbody s1. destruct (if _ >? _ then _ else _) as [[e|] t]; [left; by rewrite <- E1 in Ha|].
  set (s2 := with_world s1 t). destruct (trackComplete (ses_assembler s2)) eqn:Etc.
  { split; [|done]. split; simpl; rewrite ?E1, ?E2, ?E3, ?E4; done. }
  set (s3 := match rc_redirectURL ctrl with Some _ => _ | None => _ end).
  assert (ses_inv maxBytes s3) as Hi3.
  { unfold s3. destruct (rc_redirectURL ctrl) as [url|]; simpl in Hred.
    - apply redirect_validated in Hred as [Hu Hcnt]. split; simpl; rewrite ?E1, ?E2, ?E3; done.
    - split; simpl; rewrite ?E1, ?E2, ?E3, ?E4; done. }
  clearbody s3. destruct Hi3. destruct (if rc_backoff ctrl >? 0 then _ else _) as [[e|] t'].
  - destruct (env_Emit _ _ _). by left.
  - by split.
Qed.

Lemma recover_sabrError_ok maxBytes lim s : ses_inv maxBytes s -> outcome_ok maxBytes (recover_sabrError lim s).
Proof.
  intros [Ha Hc Hr He]. unfold recover_sabrError. destruct (_ >? _); [by left|].
  destruct (sleep _ _) as [[e|] t]; [by left|by split].
Qed.

Lemma recover_reload_ok maxBytes lim s token : ses_inv maxBytes s -> outcome_ok maxBytes (recover_reload lim s token).
Proof.
  intros [Ha Hc Hr He]. unfold recover_reload. destruct (_ >? _); [by left|].
  destruct env_Reload as [reload|]; [|by left]. destruct (reload _ _) as [[m|] t]; [|by left].
  destruct (applyRefreshMaterial _ _ _) as [[config redirects]|] eqn:Em; [|by left].
  apply applyRefreshMaterial_ok in Em as (Hm & Hurl & ->).
  destruct (sleep _ _) as [[e|] t']; [by left|]. split; simpl; try done.
  - rewrite newRedirectTracker_count. unfold MaxDirectiveRedirects. lia.
  - rewrite Hurl. apply Hm.
Qed.

Lemma post_step_ok maxBytes lim s : ses_inv maxBytes s -> outcome_ok maxBytes (post_step onCommit lim s).
Proof.
  intros Hi. pose proof Hi as [Ha Hc Hr He]. unfold post_step. destruct (playbackRequest_marshal _ _) as [body|]; [|by left].
  destruct (postRound _ _ _ _ _ _ _ _ _) as [[r a] t] eqn:Ep. unfold postRound in Ep.
  pose proof (postRound_loop_accounts onCommit maxBytes _ _ _ _ _ _ _ _ _ _ _ _ _ _ _ Ha Ep) as Hacc.
  set (s0 := with_world _ t). destruct r as [ctrl|err].
  - apply commit_round_ok; [|by eapply postRound_loop_round]. destruct Hacc as [?|[(? & ? & _) _]]; [by split|done].
  - destruct (env_ctxErr (ses_world s0)) as [[e|] t']; [destruct Hacc as [?|[_ ?]]; [by left|by right]|].
    assert (recovery_signal err = true -> ses_inv maxBytes (with_world s0 t')) as Hsig.
    { intros Hs. destruct Hacc as [?|[(? & [= <-] & ?) _]]; [by split|congruence]. }
    destruct err; try (destruct Hacc as [?|[_ ?]]; [by left|by right]).
    + apply recover_sabrError_ok. by apply Hsig.
    + apply recover_reload_ok. by apply Hsig.
Qed.

Lemma Download_round_ok maxBytes lim s : ses_inv maxBytes s -> outcome_ok maxBytes (Download_round onCommit lim s).
Proof.
  intros Hi. pose proof Hi as [Ha Hc Hr He]. unfold Download_round. destruct (trackComplete _) eqn:Etc; [by split|].
  destruct (env_ctxErr _) as [[e|] t]; [destruct (env_Emit _ _ _); by left|].
  destruct env_POTokenSource as [source|]; [|apply post_step_ok; by split].
  destruct (source _) as [[[token|]|e] t']; [..|by left]; apply post_step_ok; by split.
Qed.

Lemma Download_loop_ok maxBytes fuel lim round s err s' :
  ses_inv maxBytes s -> Download_loop onCommit fuel lim round s = Some (err, s') ->
  match err with Some _ => file_accounted maxBytes (ses_assembler s') | None => ses_inv maxBytes s' end.
Proof.
  revert round s. induction fuel as [|fuel IH]; intros round s Hi; [done|]. cbn [Download_loop].
  destruct (round <? _); [|by intros [= <- <-]]. pose proof (Download_round_ok maxBytes lim s Hi) as Ho.
  destruct (Download_round onCommit lim s) as [s1|s1|s1|e s1]; [by apply IH|by apply IH|intros [= <- <-]; apply Ho|by intros [= <- <-]].
Qed.

Lemma Download_rounds_accounts maxBytes lim s :
  ses_inv maxBytes s -> counters_ok lim s -> 0 <= lim_maxRounds lim ->
  let '(r, s') := Download_rounds onCommit lim s in
  match r with
  | Ok _ => trackComplete (ses_assembler s') = true /\ ses_inv maxBytes s' /\
            exists init segs, progress maxBytes (ses_assembler s') init segs
  | Err _ => file_accounted maxBytes (ses_assembler s')
  end.
Proof.
  intros Hi Hc Hr. unfold Download_rounds.
  destruct (Download_loop_total (Datatypes.S (Z.to_nat (budget lim 0 s))) lim 0 s) as [[err s'] Hd]; [done|lia|lia|].
  rewrite Hd. apply (Download_loop_ok maxBytes) in Hd; [|done]. destruct err as [e|]; [done|].
  destruct (trackComplete _) eqn:E; simpl; [|left; apply Hd]. split_and!; try done. apply Hd.
Qed.

End Lemmas.

(** ** What is sent *)

(** The world that also records the requests the transport is given. *)
Section Logged.
Context {T S : Type} `{!Env T S}.

Definition in_log {A} (log : list httpRequest) (out : A * T) : A * (T * list httpRequest) := (out.1, (out.2, log)).

#[export, refine] Instance logged : Env (T * list httpRequest) S := {|
  env_ctxErr t := in_log t.2 (env_ctxErr t.1);
  env_stream t := in_log t.2 (env_stream t.1);
  env_Do t request := in_log (t.2 ++ [request]) (env_Do t.1 request);
  env_wait t delay := in_log t.2 (env_wait t.1 delay);
  env_Emit t kind n := in_log t.2 (env_Emit t.1 kind n);
  env_Reload := (fun reload t request => in_log t.2 (reload t.1 request)) <$> env_Reload;
  env_POTokenSource := (fun source t => in_log t.2 (source t.1)) <$> env_POTokenSource;
  mime_ParseMediaType := mime_ParseMediaType (T := T) (S := S);
  env_mapOrder t := env_mapOrder t.1
|}.
Proof.
  - intros [t log] e [t' log'] Hc. unfold in_log in Hc. simpl in Hc. destruct (env_ctxErr t) as [err t1] eqn:E.
    simpl in Hc. injection Hc as -> _ _. by eapply env_ctxErr_plain.
  - intros t state. apply env_mapOrder_perm.
Defined.

End Logged.

Section Sent.
Context {F W T S : Type} `{!OsFile F} `{!Sha256} `{!UnicodeTables} `{!IoReader S} `{!Env T S}.
Context (onCommit : option (trackAssembler F W -> option go_error * W)).
Implicit Types t : T * list httpRequest.
Implicit Types s : session F W (T * list httpRequest).

(** A request the engine may send: isolated, with the caller's headers. *)
Definition engine_request (headers : list (bytes * list bytes)) (request : httpRequest) : Prop :=
  exists config serverURL n body, isolated_request config serverURL n body request /\ cfg_Headers config = headers.

(** At most [k] more requests, all of them the engine's. *)
Definition sends (headers : list (bytes * list bytes)) (k : Z) t t' : Prop :=
  exists sent, t'.2 = t.2 ++ sent /\ Forall (engine_request headers) sent /\ zlen sent <= k.

Lemma sends_refl headers k t t' : 0 <= k -> t'.2 = t.2 -> sends headers k t t'.
Proof. intros Hk E. exists []. rewrite app_nil_r. by repeat split. Qed.

Lemma sends_trans headers k1 k2 k t1 t2 t3 :
  sends headers k1 t1 t2 -> sends headers k2 t2 t3 -> k1 + k2 <= k -> sends headers k t1 t3.
Proof.
  intros (l1 & E1 & F1 & L1) (l2 & E2 & F2 & L2) Hk. exists (l1 ++ l2).
  rewrite E2, E1, app_assoc, zlen_app. split_and!; [done|by apply Forall_app|lia].
Qed.

Lemma postOnce_sends config serverURL n body a contexts redirects t r a' t' :
  postOnce onCommit config serverURL n body a contexts redirects t = (r, a', t') -> sends (cfg_Headers config) 1 t t'.
Proof.
  unfold postOnce. destruct (postOnce_request _ _ _ _) as [request|] eqn:Er;
    [|intros [= _ _ <-]; by apply sends_refl]. apply postOnce_request_isolated in Er. intros Hp.
  assert (t'.2 = t.2 ++ [request]) as E.
  { revert Hp. simpl. unfold in_log. simpl. repeat (case_match; simplify_eq/=); intros; by simplify_eq/=. }
  exists [request]. split; [done|]. split; [|done]. constructor; [|done]. by exists config, serverURL, n, body.
Qed.

Lemma env_ctxErr_log t : (env_ctxErr t).2.2 = t.2. Proof. done. Qed.
Lemma env_Emit_log t kind n : (env_Emit t kind n).2.2 = t.2. Proof. done. Qed.
Lemma sleep_log t delay : (sleep t delay).2.2 = t.2.
Proof. unfold sleep. by destruct (_ <=? _). Qed.

Lemma postRound_loop_sends n attempts attempt config serverURL rn body contexts redirects lastErr a t r a' t' :
  postRound_loop onCommit n attempts attempt config serverURL rn body contexts redirects lastErr a t = (r, a', t') ->
  sends (cfg_Headers config) (Z.of_nat n) t t'.
Proof.
  revert attempt lastErr a t. induction n as [|n IH]; intros attempt lastErr a t;
    cbn [postRound_loop]; [intros [= _ _ <-]; by apply sends_refl|].
  destruct (postOnce _ _ _ _ _ _ _ _ _) as [[r1 a1] t1] eqn:Ep. apply postOnce_sends in Ep.
  assert (forall t2, t2.2 = t1.2 -> sends (cfg_Headers config) (Z.of_nat (Datatypes.S n)) t t2) as Hend.
  { intros t2 E. apply (sends_trans _ 1 0 _ t t1); [exact Ep|by apply sends_refl|lia]. }
  assert (forall t2 attempt' lastErr', t2.2 = t1.2 ->
    postRound_loop onCommit n attempts attempt' config serverURL rn body contexts redirects lastErr' a1 t2 = (r, a', t') ->
    sends (cfg_Headers config) (Z.of_nat (Datatypes.S n)) t t') as Hnext.
  { intros t2 attempt' lastErr' E Hl%IH. apply (sends_trans _ 1 (Z.of_nat n) _ t t1); [exact Ep| |lia].
    apply (sends_trans _ 0 (Z.of_nat n) _ t1 t2); [by apply sends_refl|exact Hl|lia]. }
  destruct r1 as [ctrl|err]; [intros [= _ _ <-]; by apply Hend|].
  pose proof (env_ctxErr_log t1) as E1. destruct (env_ctxErr t1) as [[e|] t2]; [intros [= _ _ <-]; by apply Hend|].
  destruct (negb _); [intros [= _ _ <-]; by apply Hend|]. destruct (_ <? _); [|by apply Hnext].
  pose proof (env_Emit_log t2 KindRetry (attempt + 1)) as E2.
  destruct (env_Emit t2 KindRetry (attempt + 1)) as [[e|] t3]; [intros [= _ _ <-]; apply Hend; simpl in *; congruence|].
  pose proof (sleep_log t3 (retryDelay config attempt)) as E3.
  destruct (sleep t3 _) as [[e|] t4]; [intros [= _ _ <-]; apply Hend; simpl in *; congruence|]. apply Hnext. simpl in *. congruence.
Qed.

(** Nothing is sent between the POSTs. *)
Definition keeps s s' : Prop :=
  (ses_world s').2 = (ses_world s).2 /\ cfg_Headers (ses_config s') = cfg_Headers (ses_config s) /\
  cfg_Attempts (ses_config s') = cfg_Attempts (ses_config s).

Lemma commit_round_keeps s ctrl : keeps s (outcome_session (commit_round s ctrl)).
Proof.
  unfold commit_round. destruct (playbackState _) as [[advance ranges] selected]. set (s1 := if selected : bool then _ else _).
  assert (ses_world s1 = ses_world s /\ ses_config s1 = ses_config s) as [E1 E2]
    by (unfold s1; destruct selected, (rc_cookie ctrl); done).
  clearbody s1. unfold keeps. rewrite <- E1, <- E2. clear E1 E2.
  destruct (if asm_totalWritten (ses_assembler s1) >? 0 then _ else _) as [err t] eqn:Em.
  assert (t.2 = (ses_world s1).2) as Et by (destruct (_ >? _); by injection Em as _ <-). destruct err; [done|].
  destruct (trackComplete _); [done|]. set (s3 := match rc_redirectURL ctrl with Some _ => _ | None => _ end).
  assert ((ses_world s3).2 = (ses_world s1).2 /\ ses_config s3 = ses_config s1) as [E3 E4]
    by (unfold s3; destruct (rc_redirectURL ctrl); done).
  clearbody s3. rewrite <- E3, <- E4. destruct (rc_backoff ctrl >? 0); [|done].
  pose proof (sleep_log (ses_world s3) (rc_backoff ctrl)) as El.
  destruct (sleep (ses_world s3) (rc_backoff ctrl)) as [[e|] t']; done.
Qed.

Lemma recover_sabrError_keeps lim s : keeps s (outcome_session (recover_sabrError lim s)).
Proof.
  unfold recover_sabrError. destruct (_ >? _); [done|].
  match goal with |- context [sleep ?t ?d] => pose proof (sleep_log t d) as El; destruct (sleep t d) as [[e|] t'] end; done.
Qed.

Lemma recover_reload_keeps lim s token : keeps s (outcome_session (recover_reload lim s token)).
Proof.
  unfold recover_reload. destruct (_ >? _); [done|].
  change (@env_Reload _ _ logged) with ((fun reload (t : T * list httpRequest) request => in_log t.2 (reload t.1 request)) <$> env_Reload (T := T) (S := S)).
  destruct (env_Reload (T := T) (S := S)) as [reload|]; simpl fmap; [|done]. cbv beta iota.
  destruct (reload _ _) as [[m|] t] eqn:Erl; unfold in_log; cbn [fst snd]; [|done].
  destruct (applyRefreshMaterial _ _ _) as [[config redirects]|] eqn:Em; [|done].
  apply applyRefreshMaterial_track in Em as [? ? ? ? ? ? ? ? ? ? ? (_ & _ & Hat & Hhd & _)].
  match goal with |- context [sleep ?t ?d] => pose proof (sleep_log t d) as El; destruct (sleep t d) as [[e|] t'] end; done.
Qed.

Lemma sends_keeps headers k s s' t : sends headers k t (ses_world s) -> keeps s s' -> sends headers k t (ses_world s').
Proof. intros Hs (E & _). unfold sends in *. by rewrite E. Qed.

Lemma round_attempts_pos config : 0 < round_attempts config.
Proof. unfold round_attempts. destruct (Z.leb_spec (cfg_Attempts config) 0); lia. Qed.

Lemma post_step_sends lim s :
  let s' := outcome_session (post_step onCommit lim s) in
  sends (cfg_Headers (ses_config s)) (round_attempts (ses_config s)) (ses_world s) (ses_world s') /\
  cfg_Headers (ses_config s') = cfg_Headers (ses_config s) /\ cfg_Attempts (ses_config s') = cfg_Attempts (ses_config s).
Proof.
  pose proof (round_attempts_pos (ses_config s)) as Hpos. unfold post_step.
  destruct (playbackRequest_marshal _ _) as [body|]; [|split; [apply sends_refl; [lia|done]|done]].
  destruct (postRound _ _ _ _ _ _ _ _ _) as [[r a] t] eqn:Ep. unfold postRound in Ep.
  apply postRound_loop_sends in Ep. rewrite Z2Nat.id in Ep by lia. set (s0 := with_world _ t).
  assert (forall s', keeps s0 s' -> sends (cfg_Headers (ses_config s)) (round_attempts (ses_config s)) (ses_world s) (ses_world s') /\
    cfg_Headers (ses_config s') = cfg_Headers (ses_config s) /\ cfg_Attempts (ses_config s') = cfg_Attempts (ses_config s)) as Hk.
  { intros s' Hk. split; [apply (sends_keeps _ _ s0); [exact Ep|done]|apply Hk]. }
  destruct r as [ctrl|err]; [apply Hk, commit_round_keeps|].
  pose proof (env_ctxErr_log (ses_world s0)) as El. destruct (env_ctxErr (ses_world s0)) as [[e|] t']; [by apply Hk|].
  assert (keeps s0 (with_world s0 t')) as Hk0 by done.
  destruct err; try (by apply Hk); apply Hk; destruct Hk0 as (K1 & K2 & K3).
  - destruct (recover_sabrError_keeps lim (with_world s0 t')) as (? & ? & ?). repeat split; congruence.
  - destruct (recover_reload_keeps lim (with_world s0 t') token) as (? & ? & ?). repeat split; congruence.
Qed.

Lemma Download_round_sends lim s :
  let s' := outcome_session (Download_round onCommit lim s) in
  sends (cfg_Headers (ses_config s)) (round_attempts (ses_config s)) (ses_world s) (ses_world s') /\
  cfg_Headers (ses_config s') = cfg_Headers (ses_config s) /\ cfg_Attempts (ses_config s') = cfg_Attempts (ses_config s).
Proof.
  pose proof (round_attempts_pos (ses_config s)) as Hpos.
  assert (forall s1, keeps s s1 -> let s' := outcome_session (post_step onCommit lim s1) in
    sends (cfg_Headers (ses_config s)) (round_attempts (ses_config s)) (ses_world s) (ses_world s') /\
    cfg_Headers (ses_config s') = cfg_Headers (ses_config s) /\ cfg_Attempts (ses_config s') = cfg_Attempts (ses_config s)) as Hstep.
  { intros s1 (K1 & K2 & K3). pose proof (post_step_sends lim s1) as Hp. unfold round_attempts, sends in *.
    by rewrite K1, K2, K3 in Hp. }
  assert (forall s1, keeps s s1 -> sends (cfg_Headers (ses_config s)) (round_attempts (ses_config s)) (ses_world s) (ses_world s1) /\
    cfg_Headers (ses_config s1) = cfg_Headers (ses_config s) /\ cfg_Attempts (ses_config s1) = cfg_Attempts (ses_config s)) as Hstop.
  { intros s1 (K1 & K2 & K3). split; [apply sends_refl; [lia|done]|done]. }
  unfold Download_round. destruct (trackComplete _); [by apply Hstop|].
  pose proof (env_ctxErr_log (ses_world s)) as El. destruct (env_ctxErr (ses_world s)) as [[e|] t]; [by apply Hstop|].
  change (@env_POTokenSource _ _ logged) with
    ((fun source (t : T * list httpRequest) => in_log t.2 (source t.1)) <$> env_POTokenSource (T := T) (S := S)).
  destruct (env_POTokenSource (T := T) (S := S)) as [source|]; simpl fmap; cbv beta iota; [|by apply Hstep].
  destruct (source _) as [[[token|]|e] t'] eqn:Es; unfold in_log; cbn [fst snd]; [by apply Hstep..|by apply Hstop].
Qed.

Lemma Download_loop_sends fuel lim round s err s' :
  counters_ok lim s -> round <= lim_maxRounds lim -> Download_loop onCommit fuel lim round s = Some (err, s') ->
  sends (cfg_Headers (ses_config s)) (round_attempts (ses_config s) * budget lim round s) (ses_world s) (ses_world s').
Proof.
  revert round s. induction fuel as [|fuel IH]; intros round s Hc Hr; [done|]. cbn [Download_loop].
  pose proof (round_attempts_pos (ses_config s)) as Hpos. unfold counters_ok, budget in *.
  destruct (Z.ltb_spec round (lim_maxRounds lim)); [|intros [= _ <-]; apply sends_refl; [nia|done]].
  pose proof (Download_round_counted onCommit lim s Hc) as Hcount. pose proof (Download_round_sends lim s) as Hs.
  destruct (Download_round onCommit lim s) as [s1|s1|s1|e s1]; simpl in Hcount, Hs; destruct Hs as (Hs & Hh1 & Hh2).
  - intros Hl. apply IH in Hl; [|lia|lia]. unfold round_attempts in *. rewrite Hh1, Hh2 in Hl.
    eapply sends_trans; [exact Hs|exact Hl|]. nia.
  - intros Hl. apply IH in Hl; [|apply Hcount|lia]. unfold round_attempts, counters_ok in *. rewrite Hh1, Hh2 in Hl.
    eapply sends_trans; [exact Hs|exact Hl|]. nia.
  - intros [= _ <-]. eapply sends_trans; [exact Hs|by apply (sends_refl _ 0)|nia].
  - intros [= _ <-]. eapply sends_trans; [exact Hs|by apply (sends_refl _ 0)|nia].
Qed.

End Sent.

(** ** Claims *)

Lemma clamp_range value max : 0 < max -> 1 <= clamp value max <= max.
Proof. unfold clamp. intros Hm. destruct (Z.leb_spec value 0), (Z.gtb_spec value max); simpl; lia. Qed.

Lemma limits_of_range config :
  1 <= lim_maxRounds (limits_of config) <= MaxRounds /\
  1 <= lim_maxSabrErrors (limits_of config) <= MaxSabrErrorRecoveries /\
  1 <= lim_maxReloads (limits_of config) <= MaxReloadAttempts.
Proof. split_and!; apply clamp_range; by vm_compute. Qed.

Section Claims.
Context {F W T S : Type} `{!OsFile F} `{!Sha256} `{!UnicodeTables} `{!IoReader S} `{!Env T S}.
Context (onCommit : option (trackAssembler F W -> option go_error * W)).

(** C13. The download loop terminates and what it sends is bounded and
    isolated: whatever the server, the clock and the callbacks do, it ends
    within the rounds, SABR-error recoveries and reloads that are allowed (69
    at most), each with at most the configured attempts, and every request goes
    to a validated endpoint with the engine's protected headers and the
    caller's other ones. *)
Theorem download_bounded_isolated (s : session F W (T * list httpRequest)) :
  let lim := limits_of (ses_config s) in
  ses_sabrErrors s = 0 -> ses_reloads s = 0 -> (ses_world s).2 = [] ->
  exists err s',
    Download_loop onCommit (Datatypes.S (Z.to_nat (budget lim 0 s))) lim 0 s = Some (err, s') /\
    Forall (engine_request (cfg_Headers (ses_config s))) (ses_world s').2 /\
    zlen (ses_world s').2 <=
      round_attempts (ses_config s) * (MaxRounds + MaxSabrErrorRecoveries + MaxReloadAttempts).
Proof.
  intros lim Hs Hr Hl. pose proof (limits_of_range (ses_config s)) as (B1 & B2 & B3). fold lim in B1, B2, B3.
  assert (counters_ok lim s) as Hc by (unfold counters_ok; lia).
  destruct (Download_loop_total onCommit (Datatypes.S (Z.to_nat (budget lim 0 s))) lim 0 s) as [[err s'] Hd]; [done|lia|lia|].
  exists err, s'. split; [done|]. apply Download_loop_sends in Hd as (sent & E & Hf & Hn); [|done|lia].
  rewrite Hl in E. simpl in E. rewrite E. split; [done|]. etrans; [exact Hn|].
  apply Z.mul_le_mono_nonneg_l; [pose proof (round_attempts_pos (ses_config s)); lia|]. unfold budget. lia.
Qed.

(** C8. A download succeeds only with a complete, accounted file: from a
    session in its invariant (a fresh or a resumed one), success means the
    track is complete, the file is the initialization segment and the segments
    in order, and the session kept its invariant (redirect budget, context
    bounds, a validated endpoint); after a failure the file is accounted for
    too, or extends such a file by one torn write, so that a checkpoint taken
    before it stays usable. *)
Theorem download_accounts maxBytes lim (s : session F W T) :
  ses_inv maxBytes s -> counters_ok lim s -> 0 <= lim_maxRounds lim ->
  let '(r, s') := Download_rounds onCommit lim s in
  match r with
  | Ok _ => trackComplete (ses_assembler s') = true /\ ses_inv maxBytes s' /\
            exists init segs, progress maxBytes (ses_assembler s') init segs
  | Err _ => file_accounted maxBytes (ses_assembler s')
  end.
Proof. apply Download_rounds_accounts. Qed.

End Claims.

(** ** Witnesses *)

Section Witnesses.
#[local] Existing Instance dotted_i_tables.
#[local] Existing Instance padded_digest.

(** A server that gives a list of responses. *)
#[local, refine] Instance scripted : Env (list (httpResponse bytes)) bytes := {|
  env_ctxErr t := (None, t);
  env_stream t := (fun _ => None, t);
  env_Do t _ := match t with [] => (Err (ErrOther 7), []) | response :: t => (Ok response, t) end;
  env_wait t _ := (None, t);
  env_Emit t _ _ := (None, t);
  env_Reload := None;
  env_POTokenSource := None;
  mime_ParseMediaType header := Some header;
  env_mapOrder _ state := elements (dom (cs_entries state))
|}.
Proof. all: done. Defined.

Definition ump_response (parts : list Part) : httpResponse bytes :=
  mkHttpResponse 200 (Header_Set ∅ (lit "Content-Type") (lit "application/vnd.yt-ump")) (frame_parts parts).

(** A retryable failure, the initialization segment and segment 0 with a
    redirect, a SABR error, and the rest of the track. *)
Definition sample_script : list (httpResponse bytes) :=
  [mkHttpResponse 503 ∅ [];
   ump_response (w_redirect_part :: track_parts w_format_payload w_init (take 1 w_segs));
   ump_response [mkPart PartSABRError w_error_payload];
   ump_response (ms_parts (w_segment 3 1 false [lit "d"; lit "ef"]))].

Definition sample_session : session bytes unit (list (httpResponse bytes) * list httpRequest) :=
  new_session sample_config w_new (sample_script, []).

Lemma download_bounded_isolated_witness :
  exists err s',
    Download_loop (S := bytes) None 14 (limits_of sample_config) 0 sample_session = Some (err, s') /\
    Forall (engine_request []) (ses_world s').2 /\ zlen (ses_world s').2 <= 2 * 69.
Proof. exact (download_bounded_isolated None sample_session eq_refl eq_refl eq_refl). Defined.

(** The whole script is played and the track assembled. *)
Lemma download_accounts_witness :
  let '(r, s') := Download_rounds (S := bytes) None (limits_of sample_config) sample_session in
  r = Ok tt /\ zlen (ses_world s').2 = 4 /\ asm_contents (ses_assembler s') = lit "initabcdef" /\
  exists init segs, progress 100 (ses_assembler s') init segs.
Proof.
  pose proof (download_accounts (S := bytes) None 100 (limits_of sample_config) sample_session) as Hd.
  destruct (Download_rounds None (limits_of sample_config) sample_session) as [r s'] eqn:E.
  assert ((r, zlen (ses_world s').2, asm_contents (ses_assembler s')) = (Ok tt, 4, lit "initabcdef")) as Hv.
  { apply (f_equal (fun o => (o.1, zlen (ses_world o.2).2, asm_contents (ses_assembler o.2)))) in E.
    etransitivity; [symmetry; exact E|]. vm_compute. reflexivity. }
  injection Hv as -> Hn Hc. split; [reflexivity|]. split; [exact Hn|]. split; [exact Hc|]. apply Hd.
  - split; [apply asm_inv_new; [reflexivity|lia]|apply cs_inv_new|vm_compute; discriminate|eexists; vm_compute; reflexivity].
  - split; vm_compute; discriminate.
  - vm_compute. discriminate.
Defined.

End Witnesses.
