(* ===== verification/Value.v ===== *)
(** * Ordered metadata values ([engine/value])

    The dynamic values that carry the metadata of the extractors, and the
    ordered object with its key index.  The index is a redundant structure: the
    theorems of this file show that every operation keeps it a bijection with
    the positions of the fields, so that an object behaves as an ordered
    association list with distinct keys ([al_set], [al_delete], [al_get]).

    A nil [*Object] reads as an object without fields, and [Delete] and
    [Merge] leave it alone, so it needs no representation of its own.  A
    [float64] is a [spec_float], the Standard Library's executable model of
    binary64. *)
From Stdlib Require Export SpecFloat.
From S2P Require Import Prelude.

Abbreviation float64 := spec_float.

(** ** Data *)

Record Field (V : Type) := mkField { Key : bytes; Val : V }.
Arguments mkField {V} Key Val.
Arguments Key {V} f.
Arguments Val {V} f.

Record ObjectOf (V : Type) := mkObject {
  fields : list (Field V);
  index : gmap bytes nat
}.
Arguments mkObject {V} fields index.
Arguments fields {V} o.
Arguments index {V} o.

Inductive Value :=
| Missing
| Null
| VBool (b : bool)
| VInt (z : Z)
| VFloat (f : float64)
| VString (s : bytes)
| VBytes (b : bytes)
| VList (l : list Value)
| VObject (o : ObjectOf Value).

Abbreviation Object := (ObjectOf Value).

(** ** Operations of an object *)

Section Operations.
Context {V : Type}.
Implicit Types (o : ObjectOf V) (k : bytes) (v : V).

Definition Object_Len o : nat := length (fields o).

Definition Object_Set o k v : ObjectOf V :=
  match index o !! k with
  | Some i => mkObject (<[i := mkField k v]> (fields o)) (index o)
  | None => mkObject (fields o ++ [mkField k v]) (<[k := length (fields o)]> (index o))
  end.

Definition empty_object : ObjectOf V := mkObject [] ∅.

Definition NewObject (fs : list (Field V)) : ObjectOf V :=
  foldl (fun o f => Object_Set o (Key f) (Val f)) empty_object fs.

Definition Object_Get o k : option V :=
  match index o !! k with
  | Some i => Val <$> fields o !! i
  | None => None
  end.

(** the loop of [Delete] that renumbers the fields behind the removed one *)
Definition renumber (fs : list (Field V)) (from : nat) (ix : gmap bytes nat) : gmap bytes nat :=
  foldl (fun m p => match fs !! p with Some f => <[Key f := p]> m | None => m end)
        ix (seq from (length fs - from)).

Definition Object_Delete o k : ObjectOf V * bool :=
  match index o !! k with
  | None => (o, false)
  | Some i =>
      let fs := take i (fields o) ++ drop (S i) (fields o) in
      (mkObject fs (renumber fs i (delete k (index o))), true)
  end.

End Operations.

Definition IsMissing (v : Value) : bool := match v with Missing => true | _ => false end.
Definition IsNull (v : Value) : bool := match v with Null => true | _ => false end.

Definition StringValue (v : Value) : option bytes := match v with VString s => Some s | _ => None end.
Definition Value_Int (v : Value) : option Z := match v with VInt z => Some z | _ => None end.
Definition Value_Float (v : Value) : option float64 := match v with VFloat f => Some f | _ => None end.
Definition Value_Bool (v : Value) : option bool := match v with VBool b => Some b | _ => None end.
Definition ListValue (v : Value) : option (list Value) := match v with VList l => Some l | _ => None end.

Definition Lookup (o : Object) (k : bytes) : Value := default Missing (Object_Get o k).

(** [Value.Clone] and [Object.Clone] *)
Fixpoint Clone (v : Value) : Value :=
  match v with
  | VList l => VList (map Clone l)
  | VObject o => VObject (NewObject (map (fun f => mkField (Key f) (Clone (Val f))) (fields o)))
  | _ => v
  end.

Definition Object_Clone (o : Object) : Object :=
  NewObject (map (fun f => mkField (Key f) (Clone (Val f))) (fields o)).

Definition Object_Merge (o other : Object) (overwrite : bool) : Object :=
  foldl (fun acc f =>
    if IsMissing (Val f) then acc
    else if bool_decide (is_Some (index acc !! Key f)) && negb overwrite then acc
    else Object_Set acc (Key f) (Clone (Val f))) o (fields other).

(** ** The contract: an ordered association list with distinct keys *)

Section Contract.
Context {V : Type}.
Implicit Types (l : list (Field V)) (o : ObjectOf V) (k : bytes) (v : V).

Fixpoint al_get l k : option V :=
  match l with
  | [] => None
  | f :: l' => if bool_decide (Key f = k) then Some (Val f) else al_get l' k
  end.

Fixpoint al_set l k v : list (Field V) :=
  match l with
  | [] => [mkField k v]
  | f :: l' => if bool_decide (Key f = k) then mkField k v :: l' else f :: al_set l' k v
  end.

Definition al_delete l k : list (Field V) := filter (fun f => Key f <> k) l.

(** the index holds exactly the positions of the keys *)
Definition indexed o : Prop :=
  forall k i, index o !! k = Some i <-> Key <$> fields o !! i = Some k.

Lemma indexed_NoDup o : indexed o -> NoDup (map Key (fields o)).
Proof.
  intros I. apply NoDup_alt. intros i j k. rewrite !list_lookup_fmap.
  intros Hi%I Hj%I. congruence.
Qed.

Lemma indexed_None o k : indexed o -> index o !! k = None -> k ∉ map Key (fields o).
Proof.
  intros I N. rewrite list_elem_of_lookup. intros [i Hi]. rewrite list_lookup_fmap in Hi.
  apply I in Hi. congruence.
Qed.

Lemma al_get_lookup l k v :
  NoDup (map Key l) -> al_get l k = Some v <-> exists i, l !! i = Some (mkField k v).
Proof.
  induction l as [|f l IH]; simpl.
  { intros _. split; [done|intros [i Hi]; by rewrite lookup_nil in Hi]. }
  intros [Nin ND]%NoDup_cons. case_bool_decide as E.
  - split.
    + intros [= <-]. exists 0%nat. destruct f; simpl in *; by subst.
    + intros [[|i] Hi]; simpl in Hi; [by injection Hi as ->|].
      destruct Nin. rewrite E. apply list_elem_of_lookup. exists i.
      by rewrite list_lookup_fmap, Hi.
  - rewrite (IH ND). split.
    + intros [i Hi]. by exists (S i).
    + intros [[|i] Hi]; simpl in Hi; [injection Hi as ->; by destruct E|by exists i].
Qed.

Lemma al_get_None l k : k ∉ map Key l -> al_get l k = None.
Proof.
  induction l as [|f l IH]; simpl; [done|]. intros [N1 N2]%not_elem_of_cons.
  rewrite bool_decide_false by done. auto.
Qed.

Lemma al_set_new l k v : k ∉ map Key l -> al_set l k v = l ++ [mkField k v].
Proof.
  induction l as [|f l IH]; simpl; [done|]. intros [N1 N2]%not_elem_of_cons.
  rewrite bool_decide_false by done. by rewrite IH.
Qed.

Lemma al_set_at l i k v :
  NoDup (map Key l) -> Key <$> l !! i = Some k -> al_set l k v = <[i := mkField k v]> l.
Proof.
  revert i. induction l as [|f l IH]; intros i; simpl; [done|].
  intros [Nin ND]%NoDup_cons H. destruct i as [|i]; simpl in *.
  - injection H as ->. by rewrite bool_decide_true.
  - rewrite bool_decide_false; [by rewrite (IH i)|].
    intros E. apply Nin. rewrite E. apply list_elem_of_lookup. exists i. by rewrite list_lookup_fmap.
Qed.

Lemma al_delete_new l k : k ∉ map Key l -> al_delete l k = l.
Proof.
  unfold al_delete. induction l as [|f l IH]; [done|]. intros [N1 N2]%not_elem_of_cons.
  rewrite filter_cons, decide_True by auto. f_equal. auto.
Qed.

Lemma al_delete_at l i k :
  NoDup (map Key l) -> Key <$> l !! i = Some k -> al_delete l k = take i l ++ drop (S i) l.
Proof.
  unfold al_delete. revert i. induction l as [|f l IH]; intros i; simpl; [done|].
  intros [Nin ND]%NoDup_cons H. rewrite filter_cons. destruct i as [|i]; simpl in *.
  - injection H as E. rewrite decide_False by auto. rewrite drop_0.
    apply (al_delete_new l k). congruence.
  - rewrite decide_True; [by rewrite (IH i)|].
    intros E. apply Nin. rewrite E. apply list_elem_of_lookup. exists i. by rewrite list_lookup_fmap.
Qed.

Lemma Object_Get_al o k : indexed o -> Object_Get o k = al_get (fields o) k.
Proof.
  intros I. pose proof (indexed_NoDup _ I) as ND. unfold Object_Get.
  destruct (index o !! k) as [i|] eqn:E.
  - apply I in E. destruct (fields o !! i) as [[k' v]|] eqn:F; simpl in *; [|done]. simplify_eq.
    symmetry. apply al_get_lookup; [done|]. by exists i.
  - symmetry. apply al_get_None. by apply indexed_None.
Qed.

Lemma Object_Set_al o k v : indexed o -> fields (Object_Set o k v) = al_set (fields o) k v.
Proof.
  intros I. unfold Object_Set. destruct (index o !! k) as [i|] eqn:E; simpl.
  - symmetry. apply al_set_at; [by apply indexed_NoDup|by apply I].
  - symmetry. apply al_set_new. by apply indexed_None.
Qed.

Lemma Object_Set_indexed o k v : indexed o -> indexed (Object_Set o k v).
Proof.
  unfold indexed. intros I k' j. unfold Object_Set. destruct (index o !! k) as [i|] eqn:E; simpl.
  - rewrite I. pose proof (proj1 (I _ _) E) as F. destruct (decide (i = j)) as [<-|N].
    + destruct (fields o !! i) eqn:L; [|done]. simpl in F. simplify_eq.
      rewrite list_lookup_insert_eq by (eapply lookup_lt_Some; eauto). done.
    + by rewrite list_lookup_insert_ne.
  - destruct (decide (k' = k)) as [->|N].
    + rewrite lookup_insert_eq. split.
      * intros [= <-]. by rewrite list_lookup_middle.
      * intros H. destruct (decide (j < length (fields o))%nat).
        -- rewrite lookup_app_l in H by done. apply I in H. congruence.
        -- destruct (decide (j = length (fields o))) as [->|]; [done|].
           rewrite lookup_ge_None_2 in H by (rewrite length_app; simpl; lia). done.
    + rewrite lookup_insert_ne by done. rewrite I.
      destruct (decide (j < length (fields o))%nat).
      * by rewrite lookup_app_l.
      * rewrite lookup_ge_None_2 by lia. destruct (decide (j = length (fields o))) as [->|].
        -- rewrite list_lookup_middle by done. simpl. split; [done|congruence].
        -- by rewrite lookup_ge_None_2 by (rewrite length_app; simpl; lia).
Qed.

(** a position that is at or behind [from] is found there after renumbering;
    every other key keeps the entry it had *)
Lemma renumber_lookup (fs : list (Field V)) from ix k :
  NoDup (map Key fs) ->
  renumber fs from ix !! k =
    match list_find (fun f => Key f = k) fs with
    | Some (p, _) => if decide (from <= p)%nat then Some p else ix !! k
    | None => ix !! k
    end.
Proof.
  intros ND. unfold renumber.
  enough (G : forall n start (m : gmap bytes nat),
    foldl (fun m p => match fs !! p with Some f => <[Key f := p]> m | None => m end)
          m (seq start n) !! k =
    match list_find (fun f => Key f = k) fs with
    | Some (p, _) => if decide (start <= p < start + n)%nat then Some p else m !! k
    | None => m !! k
    end).
  { rewrite G. destruct list_find as [[p f]|] eqn:E; [|done].
    apply list_find_Some in E as (L & _ & _). apply lookup_lt_Some in L.
    repeat case_decide; (done || lia). }
  induction n as [|n IH]; intros start m; simpl.
  { destruct list_find as [[p f]|]; [|done]. by rewrite decide_False by lia. }
  rewrite IH. clear IH. destruct list_find as [[p f]|] eqn:E.
  - apply list_find_Some in E as (L & <- & _).
    destruct (decide (start = p)) as [->|N].
    + rewrite decide_False, decide_True by lia. by rewrite L, lookup_insert_eq.
    + destruct (decide (S start <= p < S start + n)%nat).
      * by rewrite decide_True by lia.
      * rewrite decide_False by lia. destruct (fs !! start) as [g|] eqn:G; [|done].
        apply lookup_insert_ne. intros Ek. apply N. rewrite NoDup_alt in ND.
        apply (ND _ _ (Key g)); rewrite list_lookup_fmap; [by rewrite G|rewrite L; simpl; congruence].
  - destruct (fs !! start) as [g|] eqn:G; [|done]. apply lookup_insert_ne. intros Ek.
    apply list_find_None in E. rewrite Forall_lookup in E. by apply (E _ _ G).
Qed.

(** the position of a key in a list with distinct keys *)
Lemma list_find_key (fs : list (Field V)) k i :
  NoDup (map Key fs) ->
  (fst <$> list_find (fun f => Key f = k) fs = Some i <-> Key <$> fs !! i = Some k).
Proof.
  intros ND. split.
  - destruct list_find as [[p f]|] eqn:E; [|done]. intros [= <-].
    apply list_find_Some in E as (L & <- & _). by rewrite L.
  - intros H. destruct list_find as [[p f]|] eqn:E; simpl.
    + apply list_find_Some in E as (L & Ek & _). f_equal. rewrite NoDup_alt in ND.
      apply (ND _ _ k); rewrite list_lookup_fmap; [rewrite L; simpl; congruence|done].
    + apply list_find_None in E. rewrite Forall_lookup in E.
      destruct (fs !! i) eqn:G; [|done]. simpl in H. simplify_eq. by destruct (E _ _ G).
Qed.

Lemma al_delete_NoDup l k : NoDup (map Key l) -> NoDup (map Key (al_delete l k)).
Proof.
  unfold al_delete. induction l as [|f l IH]; [done|]. intros [Nin ND]%NoDup_cons.
  rewrite filter_cons. case_decide; [|auto]. simpl. apply NoDup_cons. split; [|auto].
  intros H1. apply Nin. apply list_elem_of_fmap in H1 as (g & -> & [_ Hg]%list_elem_of_filter).
  by apply list_elem_of_fmap_2.
Qed.

Lemma Object_Delete_al o k : indexed o -> fields (Object_Delete o k).1 = al_delete (fields o) k.
Proof.
  intros I. unfold Object_Delete. destruct (index o !! k) as [i|] eqn:E; simpl.
  - symmetry. apply al_delete_at; [by apply indexed_NoDup|by apply I].
  - apply indexed_None in E; [|done]. symmetry. by apply al_delete_new.
Qed.

Lemma Object_Delete_indexed o k : indexed o -> indexed (Object_Delete o k).1.
Proof.
  intros I k' j. pose proof (Object_Delete_al o k I) as A. revert A.
  unfold Object_Delete. destruct (index o !! k) as [i|] eqn:E; simpl; [|intros _; apply I].
  intros A. pose proof (al_delete_NoDup (fields o) k (indexed_NoDup _ I)) as ND.
  rewrite <- A in ND. rewrite renumber_lookup by done. rewrite <- list_find_key by done.
  pose proof (proj1 (I _ _) E) as F.
  assert (Li : (i < length (fields o))%nat) by (destruct (fields o !! i) eqn:G; [by eapply lookup_lt_Some|done]).
  destruct list_find as [[p f]|] eqn:L; simpl.
  - case_decide as Hp; [done|]. apply list_find_Some in L as (L & <- & _).
    rewrite lookup_app_l in L by (rewrite length_take; lia).
    rewrite lookup_take_lt in L by lia.
    rewrite lookup_delete_ne by (intros ->; assert (i = p); [|lia];
      pose proof (proj2 (I (Key f) p)) as Q; rewrite L in Q; specialize (Q eq_refl); congruence).
    pose proof (proj2 (I (Key f) p)) as Q. rewrite L in Q. specialize (Q eq_refl). by rewrite Q.
  - split; [|done]. intros H. exfalso. apply lookup_delete_Some in H as [N H]. apply I in H.
    destruct (fields o !! j) as [g|] eqn:G; [|done]. simpl in H. simplify_eq.
    apply list_find_None in L. rewrite Forall_forall in L. apply (L g); [|done]. rewrite A.
    apply list_elem_of_filter. split; [congruence|]. by eapply list_elem_of_lookup_2.
Qed.

Lemma empty_object_indexed : indexed (@empty_object V).
Proof. intros k i. simpl. rewrite lookup_empty. by destruct i. Qed.

Lemma foldl_Set_indexed (fs : list (Field V)) o :
  indexed o -> indexed (foldl (fun o f => Object_Set o (Key f) (Val f)) o fs).
Proof. revert o. induction fs as [|f fs IH]; simpl; auto using Object_Set_indexed. Qed.

Lemma NewObject_indexed fs : indexed (@NewObject V fs).
Proof. apply foldl_Set_indexed, empty_object_indexed. Qed.

(** adding fields with new and distinct keys appends them *)
Lemma foldl_Set_fields fs o :
  indexed o -> NoDup (map Key (fields o ++ fs)) ->
  fields (foldl (fun o f => Object_Set o (Key f) (Val f)) o fs) = fields o ++ fs.
Proof.
  revert o. induction fs as [|[k v] fs IH]; intros o I ND; simpl; [by rewrite app_nil_r|].
  assert (Hf : fields (Object_Set o k v) = fields o ++ [mkField k v]).
  { rewrite Object_Set_al by done. apply al_set_new.
    rewrite map_app, NoDup_app in ND. destruct ND as (_ & D & _). intros Hin.
    apply (D _ Hin). simpl. apply list_elem_of_here. }
  rewrite IH; [by rewrite Hf, <- app_assoc|by apply Object_Set_indexed|by rewrite Hf, <- app_assoc].
Qed.

Lemma NewObject_fields fs : NoDup (map Key fs) -> fields (@NewObject V fs) = fs.
Proof. intros ND. apply (foldl_Set_fields fs empty_object); [apply empty_object_indexed|done]. Qed.

(** the index is determined by the fields *)
Lemma indexed_eq o o' : indexed o -> indexed o' -> fields o = fields o' -> o = o'.
Proof.
  intros I I' E. destruct o as [fs ix], o' as [fs' ix']; simpl in *; subst. f_equal.
  apply map_eq. intros k. apply option_eq. intros i. by rewrite (I k i), (I' k i).
Qed.

End Contract.

(** ** Deep copies *)

Fixpoint value_ok (v : Value) : Prop :=
  match v with
  | VList l => foldr (fun v P => value_ok v /\ P) True l
  | VObject o => indexed o /\ foldr (fun f P => value_ok (Val f) /\ P) True (fields o)
  | _ => True
  end.

(** induction on values that reaches into lists and objects *)
Section ValueInd.
Variable P : Value -> Prop.
Hypothesis P_leaf : forall v, match v with VList _ | VObject _ => False | _ => True end -> P v.
Hypothesis P_list : forall l, Forall P l -> P (VList l).
Hypothesis P_object : forall o, Forall (fun f => P (Val f)) (fields o) -> P (VObject o).

Fixpoint Value_nested_ind (v : Value) : P v.
Proof.
  destruct v; try (apply P_leaf; exact I).
  - apply P_list. induction l as [|v l IH]; constructor; [apply Value_nested_ind|exact IH].
  - apply P_object. destruct o as [fs ix]. simpl.
    induction fs as [|f fs IH]; constructor; [apply Value_nested_ind|exact IH].
Defined.

End ValueInd.

Lemma Clone_ok v : value_ok v -> Clone v = v.
Proof.
  induction v as [v Hv|l IH|o IH] using Value_nested_ind.
  - by destruct v.
  - simpl. intros H. f_equal. induction IH as [|v l Hv _ IHl]; simpl in *; [done|].
    destruct H as [H1 H2]. f_equal; auto.
  - simpl. intros [I H]. f_equal.
    assert (E : map (fun f => mkField (Key f) (Clone (Val f))) (fields o) = fields o).
    { clear I. induction IH as [|f fs Hf _ IHl]; simpl in *; [done|].
      destruct H as [H1 H2]. rewrite Hf, IHl by done. by destruct f. }
    rewrite E. apply indexed_eq; [apply NewObject_indexed|done|].
    apply NewObject_fields. by apply indexed_NoDup.
Qed.

(** ** Sequences of operations *)

Inductive object_op :=
| OSet (k : bytes) (v : Value)
| ODelete (k : bytes)
| OMerge (other : Object) (overwrite : bool).

Definition apply_op (o : Object) (op : object_op) : Object :=
  match op with
  | OSet k v => Object_Set o k v
  | ODelete k => (Object_Delete o k).1
  | OMerge other overwrite => Object_Merge o other overwrite
  end.

Definition al_merge (l : list (Field Value)) (other : list (Field Value)) (overwrite : bool) :=
  foldl (fun acc f =>
    if IsMissing (Val f) then acc
    else match al_get acc (Key f) with
         | Some _ => if overwrite then al_set acc (Key f) (Clone (Val f)) else acc
         | None => al_set acc (Key f) (Clone (Val f))
         end) l other.

Definition al_apply (l : list (Field Value)) (op : object_op) : list (Field Value) :=
  match op with
  | OSet k v => al_set l k v
  | ODelete k => al_delete l k
  | OMerge other overwrite => al_merge l (fields other) overwrite
  end.

Lemma index_get (o : Object) k :
  indexed o -> bool_decide (is_Some (index o !! k)) = bool_decide (is_Some (al_get (fields o) k)).
Proof.
  intros I. rewrite <- Object_Get_al by done. unfold Object_Get.
  destruct (index o !! k) as [i|] eqn:E; [|done]. apply I in E.
  by destruct (fields o !! i).
Qed.

Lemma Object_Merge_al (o other : Object) overwrite :
  indexed o ->
  indexed (Object_Merge o other overwrite) /\
  fields (Object_Merge o other overwrite) = al_merge (fields o) (fields other) overwrite.
Proof.
  unfold Object_Merge, al_merge. generalize (fields other). intros fs. revert o.
  induction fs as [|f fs IH]; intros o I; simpl; [done|].
  destruct (IsMissing (Val f)); [by apply IH|].
  rewrite index_get by done.
  destruct (al_get (fields o) (Key f)); simpl; [destruct overwrite; simpl|]; try by apply IH.
  all: rewrite <- Object_Set_al by done; apply IH; by apply Object_Set_indexed.
Qed.

Lemma apply_op_al o op :
  indexed o -> indexed (apply_op o op) /\ fields (apply_op o op) = al_apply (fields o) op.
Proof.
  intros I. destruct op; simpl.
  - auto using Object_Set_indexed, Object_Set_al.
  - auto using Object_Delete_indexed, Object_Delete_al.
  - by apply Object_Merge_al.
Qed.

Lemma apply_ops_al ops o :
  indexed o ->
  indexed (foldl apply_op o ops) /\ fields (foldl apply_op o ops) = foldl al_apply (fields o) ops.
Proof.
  revert o. induction ops as [|op ops IH]; intros o I; simpl; [done|].
  destruct (apply_op_al o op I) as [I' <-]. by apply IH.
Qed.

(** C29. Any sequence of insertions, deletions and merges on a new object keeps the
    index exact, leaves the fields of the ordered association list and answers
    every lookup as it does. *)
Theorem object_refines_ordered_map (ops : list object_op) :
  let o := foldl apply_op empty_object ops in
  let l := foldl al_apply [] ops in
  indexed o /\ fields o = l /\ NoDup (map Key l) /\
  (forall k, Object_Get o k = al_get l k) /\ Object_Len o = length l.
Proof.
  intros o l. destruct (apply_ops_al ops empty_object empty_object_indexed) as [I E].
  fold o in I, E. simpl in E. fold l in E. split; [done|]. split; [done|].
  split; [rewrite <- E; by apply indexed_NoDup|].
  split; [intros k; rewrite <- E; by apply Object_Get_al|].
  unfold Object_Len. by rewrite E.
Qed.
