(* ===== verification/Runes.v ===== *)
(** * Runes: UTF-8 decoding and the Unicode classes

    [unicode/utf8] and the functions of [strings] and [unicode] that work on
    runes.  White space is the complete [White_Space] table; letters, numbers
    and marks are written out for ASCII and consult the Unicode tables, a
    parameter ([RuneTables]), beyond it. *)
From S2P Require Import Prelude GoStrings.

#[local] Open Scope Z_scope.

Definition RuneError : Z := 0xFFFD.

(** continuation bits of a lead or tail byte *)
Definition low_bits (k : Z) (c : byte) : Z := Z.land (b2z c) (2 ^ k - 1).

(** [utf8.DecodeRuneInString]: the rune and its width; [(RuneError, 1)] on an
    ill-formed sequence, [(RuneError, 0)] on the empty string *)
Definition DecodeRune (s : bytes) : Z * nat :=
  match s with
  | [] => (RuneError, 0%nat)
  | c :: s1 =>
      let bad := (RuneError, 1%nat) in
      if b2z c <? 0x80 then (b2z c, 1%nat)
      else if in_range 0xC2 0xDF c then
        match s1 with
        | c1 :: _ => if utf8_tail c1 then (low_bits 5 c * 64 + low_bits 6 c1, 2%nat) else bad
        | _ => bad
        end
      else if in_range 0xE0 0xEF c then
        match s1 with
        | c1 :: c2 :: _ =>
            if in_range (if is_byte xe0 c then 0xA0 else 0x80) (if is_byte xed c then 0x9F else 0xBF) c1 &&
               utf8_tail c2
            then ((low_bits 4 c * 64 + low_bits 6 c1) * 64 + low_bits 6 c2, 3%nat) else bad
        | _ => bad
        end
      else if in_range 0xF0 0xF4 c then
        match s1 with
        | c1 :: c2 :: c3 :: _ =>
            if in_range (if is_byte xf0 c then 0x90 else 0x80) (if is_byte xf4 c then 0x8F else 0xBF) c1 &&
               utf8_tail c2 && utf8_tail c3
            then (((low_bits 3 c * 64 + low_bits 6 c1) * 64 + low_bits 6 c2) * 64 + low_bits 6 c3, 4%nat)
            else bad
        | _ => bad
        end
      else bad
  end.

Definition RuneStart (c : byte) : bool := negb (utf8_tail c).

(** [utf8.DecodeLastRuneInString] *)
Definition DecodeLastRune (s : bytes) : Z * nat :=
  match last s with
  | None => (RuneError, 0%nat)
  | Some c =>
      if b2z c <? 0x80 then (b2z c, 1%nat)
      else
        let n := length s in
        match List.find (fun k => (k <=? n)%nat && RuneStart (nth (n - k) s x80)) [2; 3; 4]%nat with
        | None => (RuneError, 1%nat)
        | Some k =>
            let '(r, size) := DecodeRune (drop (n - k) s) in
            if (size =? k)%nat then (r, size) else (RuneError, 1%nat)
        end
  end.

(** the runes of a [range] loop over a string *)
Fixpoint runes_fuel (fuel : nat) (s : bytes) : list Z :=
  match fuel, s with
  | S n, _ :: _ => let '(r, w) := DecodeRune s in r :: runes_fuel n (drop w s)
  | _, _ => []
  end.
Definition runes (s : bytes) : list Z := runes_fuel (length s) s.

(** ** [unicode] *)

Definition IsSpace (r : Z) : bool :=
  (9 <=? r) && (r <=? 13) || (r =? 0x20) || (r =? 0x85) || (r =? 0xA0) || (r =? 0x1680) ||
  (0x2000 <=? r) && (r <=? 0x200A) || (r =? 0x2028) || (r =? 0x2029) || (r =? 0x202F) ||
  (r =? 0x205F) || (r =? 0x3000).

(** the classes of the runes beyond ASCII *)
Class RuneTables := {
  letter_table : Z -> bool;
  digit_table : Z -> bool;       (** category Nd *)
  number_table : Z -> bool;      (** categories Nl and No *)
  mark_table : Z -> bool
}.

Section Classes.
Context {UT : RuneTables}.

Definition ascii_letter (r : Z) : bool :=
  (97 <=? r) && (r <=? 122) || (65 <=? r) && (r <=? 90).
Definition ascii_digit (r : Z) : bool := (48 <=? r) && (r <=? 57).

Definition IsLetter (r : Z) : bool := if r <? 0x80 then ascii_letter r else letter_table r.
Definition IsDigit (r : Z) : bool := if r <? 0x80 then ascii_digit r else digit_table r.
Definition IsNumber (r : Z) : bool :=
  if r <? 0x80 then ascii_digit r else digit_table r || number_table r.
Definition IsMark (r : Z) : bool := if r <? 0x80 then false else mark_table r.

End Classes.

(** ** [strings] on runes *)

(** the bytes of the leading runes that satisfy [p] *)
Fixpoint prefix_len_fuel (p : Z -> bool) (fuel : nat) (s : bytes) : nat :=
  match fuel, s with
  | S n, _ :: _ =>
      let '(r, w) := DecodeRune s in
      if p r then (w + prefix_len_fuel p n (drop w s))%nat else 0%nat
  | _, _ => 0%nat
  end.
Definition prefix_len (p : Z -> bool) (s : bytes) : nat := prefix_len_fuel p (length s) s.

Definition TrimLeftFunc (p : Z -> bool) (s : bytes) : bytes := drop (prefix_len p s) s.

Fixpoint trim_right_fuel (p : Z -> bool) (fuel : nat) (s : bytes) : bytes :=
  match fuel, s with
  | S n, _ :: _ =>
      let '(r, w) := DecodeLastRune s in
      if p r then trim_right_fuel p n (take (length s - w) s) else s
  | _, _ => s
  end.
Definition TrimRightFunc (p : Z -> bool) (s : bytes) : bytes := trim_right_fuel p (length s) s.

Definition TrimSpace (s : bytes) : bytes := TrimRightFunc IsSpace (TrimLeftFunc IsSpace s).

(** [strings.Index]: the first position of [sub] in [s] *)
Fixpoint Index (s sub : bytes) : option nat :=
  if HasPrefix s sub then Some 0%nat
  else match s with [] => None | _ :: s' => S <$> Index s' sub end.

(** [strings.Join] *)
Fixpoint Join (l : list bytes) (sep : bytes) : bytes :=
  match l with
  | [] => []
  | [s] => s
  | s :: l' => s ++ sep ++ Join l' sep
  end.

(** [strings.Split] at a byte *)
Fixpoint Split (s : bytes) (c : byte) : list bytes :=
  match s with
  | [] => [[]]
  | d :: s' =>
      if is_byte c d then [] :: Split s' c
      else match Split s' c with
           | h :: t => (d :: h) :: t
           | [] => [[d]]
           end
  end.

(** ** Lemmas *)

#[global] Arguments DecodeRune s : simpl never.

Lemma is_byte_refl c : is_byte c c = true.
Proof. by apply is_byte_true. Qed.

Lemma DecodeRune_width s : s <> [] -> (1 <= (DecodeRune s).2 <= length s)%nat.
Proof.
  destruct s as [|c [|c1 [|c2 [|c3 s]]]]; [done|..]; intros _; unfold DecodeRune;
    repeat case_match; simpl; lia.
Qed.

Lemma DecodeRune_width4 s : ((DecodeRune s).2 <= 4)%nat.
Proof.
  destruct s as [|c [|c1 [|c2 [|c3 s]]]]; unfold DecodeRune; repeat case_match; simpl; lia.
Qed.

Lemma DecodeRune_ascii c s : b2z c < 0x80 -> DecodeRune (c :: s) = (b2z c, 1%nat).
Proof. intros H. unfold DecodeRune. by rewrite (proj2 (Z.ltb_lt _ _) H). Qed.

Section Prefix.
Variable p : Z -> bool.

Lemma prefix_len_fuel_le fuel s : (prefix_len_fuel p fuel s <= length s)%nat.
Proof.
  revert s. induction fuel as [|n IH]; intros [|c s]; try (simpl; lia).
  pose proof (DecodeRune_width (c :: s)) as W. simpl prefix_len_fuel.
  destruct (DecodeRune (c :: s)) as [r w]. simpl in W. specialize (W ltac:(done)).
  destruct (p r); [|lia].
  pose proof (IH (drop w (c :: s))) as B. rewrite length_drop in B. simpl length in *. lia.
Qed.

Lemma prefix_len_le s : (prefix_len p s <= length s)%nat.
Proof. apply prefix_len_fuel_le. Qed.

(** behind the prefix: the end, or a rune that does not satisfy [p] *)
Lemma prefix_len_fuel_stop fuel s :
  (length s <= fuel)%nat ->
  let t := drop (prefix_len_fuel p fuel s) s in t = [] \/ p (DecodeRune t).1 = false.
Proof.
  revert s. induction fuel as [|n IH]; intros [|c s] L; try (simpl in *; (lia || by left)).
  pose proof (DecodeRune_width (c :: s)) as W. simpl prefix_len_fuel.
  destruct (DecodeRune (c :: s)) as [r w] eqn:E. simpl in W. destruct (p r) eqn:Er.
  - rewrite <- drop_drop. apply IH. rewrite length_drop. simpl in *.
    specialize (W ltac:(done)). lia.
  - right. rewrite drop_0, E. done.
Qed.

Lemma prefix_len_stop s :
  let t := drop (prefix_len p s) s in t = [] \/ p (DecodeRune t).1 = false.
Proof. by apply prefix_len_fuel_stop. Qed.

Lemma prefix_len_nil : prefix_len p [] = 0%nat.
Proof. done. Qed.

Lemma prefix_len_0 s : p (DecodeRune s).1 = false -> prefix_len p s = 0%nat.
Proof.
  unfold prefix_len. destruct s as [|c s]; [done|]. simpl prefix_len_fuel. simpl length.
  destruct (DecodeRune (c :: s)) as [r w]. simpl. by intros ->.
Qed.

End Prefix.

Lemma Index_Some s sub i :
  Index s sub = Some i -> exists t, drop i s = sub ++ t /\ (i + length sub <= length s)%nat.
Proof.
  revert i. induction s as [|c s IH]; intros i; simpl.
  - destruct (HasPrefix [] sub) eqn:E; [|done]. intros [= <-].
    apply HasPrefix_app in E as [t E]. exists t. split; [done|].
    destruct sub; [done|]. discriminate.
  - destruct (HasPrefix (c :: s) sub) eqn:E.
    + intros [= <-]. apply HasPrefix_app in E as [t E]. exists t. rewrite drop_0. split; [done|].
      change (S (length s)) with (length (c :: s)). rewrite E, length_app. lia.
    + destruct (Index s sub) as [j|]; [|done]. simpl. intros [= <-].
      destruct (IH j eq_refl) as (t & Ht & L). exists t. simpl. split; [done|lia].
Qed.
