(* ===== verification/FilterNumber.v ===== *)
(** * Numbers of format filters ([internal/format/filter_number.go])

    The numeric constants of [[height<=720]] and [[filesize<50M]]: a decimal
    text is read as a binary64, else as a file size with a unit, and compared
    with a metadata number exactly.  Binary64 is [spec_float] at precision 53
    and exponent bound 1024; a decimal text is the correctly rounded quotient of
    its digits and a power of ten ([strconv.ParseFloat]). *)
From S2P Require Import Prelude GoStrings Runes Value.

#[local] Open Scope Z_scope.

(** ** binary64 *)

Definition f64_prec : Z := 53.
Definition f64_emax : Z := 1024.

Definition f64_mul : float64 -> float64 -> float64 := SFmul f64_prec f64_emax.

(** the binary64 nearest to [n / d], ties to even *)
Definition f64_ratio (n : Z) (d : positive) : float64 :=
  match n with
  | Z0 => S754_zero false
  | Zpos m => SFdiv f64_prec f64_emax (S754_finite false m 0) (S754_finite false d 0)
  | Zneg m => SFdiv f64_prec f64_emax (S754_finite true m 0) (S754_finite false d 0)
  end.

Definition f64_of_Z (n : Z) : float64 := f64_ratio n 1.

Definition f64_is_inf (f : float64) : bool := match f with S754_infinity _ => true | _ => false end.
Definition f64_is_nan (f : float64) : bool := match f with S754_nan => true | _ => false end.
Definition f64_sign (f : float64) : bool :=
  match f with S754_zero s | S754_infinity s | S754_finite s _ _ => s | S754_nan => false end.

(** the exact value of a finite number, as a fraction with a positive denominator *)
Definition f64_rat (f : float64) : option (Z * positive) :=
  match f with
  | S754_zero _ => Some (0, 1%positive)
  | S754_finite s m e =>
      let n := if s then Zneg m else Zpos m in
      match e with
      | Zneg k => Some (n, (2 ^ k)%positive)
      | _ => Some (n * 2 ^ e, 1%positive)
      end
  | _ => None
  end.

(** [math.RoundToEven] followed by the conversion to an integer *)
Definition round_even (n : Z) (d : positive) : Z :=
  let q := n / Zpos d in
  let r := 2 * (n mod Zpos d) in
  if r <? Zpos d then q
  else if Zpos d <? r then q + 1
  else if Z.even q then q else q + 1.

Definition float64ToBigInt_rounded (f : float64) : option Z :=
  match f64_rat f with
  | Some (n, d) => Some (round_even n d)
  | None => None
  end.

(** ** Decimal texts *)

Definition digit_of (c : byte) : Z := b2z c - 48.

Definition digits_value (s : bytes) : Z := foldl (fun acc c => acc * 10 + digit_of c) 0 s.

Definition dot : byte := "."%byte.

(** [strconv.ParseFloat] on the texts the callers pass, of digits and at most
    one point: an error when there is no digit.  The result is infinite when
    the number is out of range; the flag is the error of that case. *)
Definition ParseFloat_decimal (s : bytes) : option (float64 * bool) :=
  let '(whole, rest) := cut_at (is_byte dot) s in
  let frac := match rest with Some (_ :: f) => f | _ => [] end in
  let digits := whole ++ frac in
  if bool_decide (digits = []) || negb (forallb is_digit digits) then None
  else
    let f := f64_ratio (digits_value digits) (Z.to_pos (10 ^ zlen frac)) in
    Some (f, f64_is_inf f).

(** ** [filterNumericValue] *)

Inductive filterNumericValue :=
| NumInt (integer : Z)             (** [isInt], a [*big.Int] *)
| NumFloat (floating : float64).

Definition asFloat (v : filterNumericValue) : float64 :=
  match v with NumInt z => f64_of_Z z | NumFloat f => f end.

Definition int64Numeric (z : Z) : filterNumericValue := NumInt z.

Section Parse.
Context {UT : RuneTables}.

Definition parseFilterFloat (raw : bytes) : option filterNumericValue :=
  if existsb (any_of "eE+") raw || HasPrefix raw (lit "-") then None
  else if (1 <? CountByte raw dot)%nat then None
  else if existsb (fun r => negb (r =? 46) && ((r <? 48) || (57 <? r))) (runes raw) then None
  else if bool_decide (raw = lit ".") || bool_decide (raw = []) then None
  else match ParseFloat_decimal raw with
       | None => None
       | Some (parsed, err) =>
           if err && negb (f64_is_inf parsed && negb (f64_sign parsed)) || f64_is_nan parsed then None
           else Some (NumFloat parsed)
       end.

Definition pow1024 (exp : Z) : Z := 1024 ^ exp.

Definition unit_family (k : Z) (up lo ibi abi : string) : list (bytes * Z) :=
  [ (lit up ++ lit "iB", pow1024 k); (lit up ++ lit "B", 1000 ^ k); (lit lo ++ lit "B", pow1024 k);
    (lit up ++ lit "b", 1000 ^ k); (lit lo ++ lit "b", 1000 ^ k);
    (lit abi, 1000 ^ k); (lit ibi, pow1024 k) ].

Definition filterFilesizeUnits : list (bytes * Z) :=
  [(lit "B", 1); (lit "b", 1); (lit "bytes", 1)] ++
  unit_family 1 "K" "k" "kibibytes" "kilobytes" ++
  unit_family 2 "M" "m" "mebibytes" "megabytes" ++
  unit_family 3 "G" "g" "gibibytes" "gigabytes" ++
  unit_family 4 "T" "t" "tebibytes" "terabytes" ++
  unit_family 5 "P" "p" "pebibytes" "petabytes" ++
  unit_family 6 "E" "e" "exbibytes" "exabytes" ++
  unit_family 7 "Z" "z" "zebibytes" "zettabytes" ++
  unit_family 8 "Y" "y" "yobibytes" "yottabytes".

Definition unit_multiplier (u : bytes) : option Z :=
  snd <$> List.find (fun p => bool_decide (p.1 = u)) filterFilesizeUnits.

Definition size_char (r : Z) : bool := (r =? 44) || (r =? 46) || ascii_digit r.

Definition comma_to_dot (s : bytes) : bytes := map (fun c => if is_byte "," c then dot else c) s.

Definition parseFilterFilesize (raw0 : bytes) : option Z :=
  let raw := TrimSpace raw0 in
  if bool_decide (raw = []) then None else
  let index := prefix_len size_char raw in
  if (index =? 0)%nat then None else
  let numText := comma_to_dot (take index raw) in
  if (1 <? CountByte numText dot)%nat then None else
  match ParseFloat_decimal numText with
  | None | Some (_, true) => None
  | Some (number, false) =>
      let rest := TrimLeftFunc IsSpace (drop index raw) in
      if bool_decide (rest = []) then None else
      let unitEnd := prefix_len IsLetter rest in
      if (unitEnd =? 0)%nat then None else
      let after := drop unitEnd rest in
      let r := (DecodeRune after).1 in
      if negb (bool_decide (after = [])) && (IsLetter r || IsDigit r || (r =? 95)) then None else
      match unit_multiplier (take unitEnd rest) with
      | None => None
      | Some mult =>
          let product := f64_mul number (f64_of_Z mult) in
          if f64_is_nan product || f64_is_inf product then None
          else float64ToBigInt_rounded product
      end
  end.

Definition parseFilterNumber (raw : bytes) : option filterNumericValue :=
  if bool_decide (raw = []) then None
  else match parseFilterFloat raw with
       | Some n => Some n
       | None =>
           match parseFilterFilesize raw with
           | Some size => Some (NumInt size)
           | None => NumInt <$> parseFilterFilesize (raw ++ lit "B")
           end
       end.

End Parse.

(** ** Comparison *)

Inductive filterOperation :=
| filterOpEQ | filterOpNE | filterOpGT | filterOpGE | filterOpLT | filterOpLE
| filterOpPrefix | filterOpSuffix | filterOpContains | filterOpRegex.

#[global] Instance filterOperation_eq_dec : EqDecision filterOperation.
Proof. solve_decision. Defined.

Definition numeric_op (op : filterOperation) : bool :=
  match op with
  | filterOpPrefix | filterOpSuffix | filterOpContains | filterOpRegex => false
  | _ => true
  end.

(** [compareNumericOrder(cmp, op)] *)
Definition compareNumericOrder (cmp : comparison) (op : filterOperation) : bool :=
  match op, cmp with
  | filterOpEQ, Eq => true
  | filterOpNE, (Lt | Gt) => true
  | filterOpGT, Gt => true
  | filterOpGE, (Eq | Gt) => true
  | filterOpLT, Lt => true
  | filterOpLE, (Eq | Lt) => true
  | _, _ => false
  end.

(** Go's comparison operators on [float64]: all but [!=] are false on NaN *)
Definition compareFloats (l r : float64) (op : filterOperation) : bool :=
  match SFcompare l r with
  | Some c => compareNumericOrder c op
  | None => bool_decide (op = filterOpNE)
  end.

Definition num_rat (v : filterNumericValue) : option (Z * positive) :=
  match v with NumInt z => Some (z, 1%positive) | NumFloat f => f64_rat f end.

Definition rat_compare (a b : Z * positive) : comparison :=
  (a.1 * Zpos b.2) ?= (b.1 * Zpos a.2).

Definition sign_cmp (negative : bool) : comparison := if negative then Lt else Gt.

Definition is_int (v : filterNumericValue) : bool := match v with NumInt _ => true | _ => false end.

(** a value that is an infinite float, with its sign *)
Definition infinite (v : filterNumericValue) : option bool :=
  match v with NumFloat (S754_infinity s) => Some s | _ => None end.

(** [None] is the evaluation error of a comparison with a value that is not a
    number, or of an operator that is not numeric. *)
Definition compareFilterNumbers (left right : filterNumericValue) (op : filterOperation) : option bool :=
  let floats :=
    if numeric_op op then Some (compareFloats (asFloat left) (asFloat right) op) else None in
  if is_int left || is_int right then
    match infinite left, infinite right with
    | Some s, _ => Some (compareNumericOrder (sign_cmp s) op)
    | None, Some s => Some (compareNumericOrder (sign_cmp (negb s)) op)
    | None, None =>
        match num_rat left, num_rat right with
        | Some l, Some r =>
            if numeric_op op then Some (compareNumericOrder (rat_compare l r) op) else floats
        | _, _ => None
        end
    end
  else floats.
