(* ===== verification/Filter.v ===== *)
(** * Filters of the format selector ([internal/format/filter.go], [python_regex.go])

    A bracketed filter is split off by the parser ([parseFilter] of
    [selector.go]), compiled once to a predicate ([compileFilter]) and matched
    against the fields of a format object.  Regular expressions are translated
    and run by code behind an interface ([RegexEngine]): the translator of
    [internal/compat/pyregex] and the third-party engine, with the clock
    readings that the wall-time budget takes. *)
From S2P Require Import Prelude GoStrings Runes Value FilterNumber.

#[local] Open Scope nat_scope.

(** ** Errors of the package *)

Record span := mkSpan { start : nat; end_ : nat }.

(** the fixed text of a message and the texts it quotes *)
Definition message : Type := string * list bytes.
Definition msg (s : string) : message := (s, []).
Definition msgq (s : string) (q : bytes) : message := (s, [q]).

Inductive selector_error :=
| SyntaxError (Start End : nat) (Message : message)
| SelectorLimit (Start End : nat) (Message : message)
| FilterEvaluation (Message : message)
| Availability_failed (Message : message)
| ErrNoFormats
| ErrNoMatch
| ErrMultiOutput
| ErrInvalidPreference
| ErrInvalidFormats
| ErrFormatLimit
| ErrInvalidHeaders
| OutOfFuel.

Definition selectorSyntax (s e : nat) (m : message) : selector_error := SyntaxError s (max s e) m.
Definition selectorLimit (s e : nat) (m : message) : selector_error := SelectorLimit s (max s e) m.

Abbreviation res := (result selector_error).

Definition maxSelectorBytes : Z := 16384.
Definition maxRegexBytes : Z := 4096.
Definition maxTranslatedRegexBytes : Z := 16384.
Definition maxRegexPredicatesPerAST : nat := 32.
Definition maxRegexInputBytes : Z := 65536.
Definition maxRegexInspectedBytesPerPlan : Z := 64 * 2 ^ 20.
Definition maxRegexAttemptsPerPlan : Z := 131072.
(** nanoseconds *)
Definition regexAggregateWallBudget : Z := 250 * 10 ^ 6.

(** ** Data *)

Inductive filterKind := filterKindNumeric | filterKindString.

Record compiledFilter := mkCompiled {
  cf_kind : filterKind;
  cf_field : bytes;
  cf_operation : filterOperation;
  cf_negated : bool;
  cf_noneInclusive : bool;
  cf_number : filterNumericValue;
  cf_text : bytes;
  cf_expression : option bytes;      (** the translated regular expression *)
  cf_span : span
}.

Record Filter := mkFilter {
  f_Field : bytes;
  f_Operator : bytes;
  f_Value : bytes;
  f_raw : bytes;
  f_span : span;
  f_predicate : option compiledFilter
}.
#[global] Instance Filter_eta : Eta Filter := fun r =>
  mkFilter (f_Field r) (f_Operator r) (f_Value r) (f_raw r) (f_span r) (f_predicate r).

Record regexEvalBudget := mkBudget {
  attempts : Z;
  inspectedBytes : Z;
  wall : Z
}.
Definition newRegexEvalBudget : regexEvalBudget := mkBudget 0 0 0.

(** The outcome of running a regular expression: matched or not, or an engine
    error, which is a timeout or another failure. *)
Inductive regex_outcome := Matched (b : bool) | TimedOut | EngineFailed.

Class RegexEngine := {
  Translate : bytes -> option bytes;           (** [pyregex.Translate] *)
  regex_compiles : bytes -> bool;              (** [regexp2.Compile] succeeds *)
  regex_match : bytes -> bytes -> regex_outcome;
  since_start : Z -> Z;                        (** [time.Since(started)] at an attempt *)
  match_time : Z -> Z                          (** the duration of that attempt *)
}.

(** ** Splitting a filter ([parseFilter]) *)

Definition filter_operators : list string :=
  ["!^="; "!$="; "!*="; "!~="; "!="; ">="; "<="; "^="; "$="; "*="; "~="; "="; ">"; "<"]%string.

Definition dquote : byte := x22.
Definition squote : byte := "'"%byte.
Definition backslash : byte := "\"%byte.

(** a text in matching quotes, without them *)
Definition unquote (s : bytes) : bytes :=
  match s with
  | q :: _ :: _ =>
      if (is_byte dquote q || is_byte squote q) && bool_decide (last s = Some q)
      then take (length s - 2) (drop 1 s) else s
  | _ => s
  end.

Fixpoint parseFilter_ops (ops : list string) (input : bytes) (st : nat) : res Filter :=
  match ops with
  | [] => Err (selectorSyntax st (st + length input) (msgq "filter has no operator" input))
  | op :: ops' =>
      let operator := lit op in
      match Index input operator with
      | Some (S _ as index) =>
          let field := TrimSpace (take index input) in
          let filterValue := TrimSpace (drop (index + length operator) input) in
          if bool_decide (field = []) || bool_decide (filterValue = []) then
            Err (selectorSyntax st (st + length input) (msgq "malformed filter" input))
          else
            let legacyValue := unquote filterValue in
            if (maxSelectorBytes / 2 <? zlen legacyValue)%Z then
              Err (selectorSyntax (st + index + length operator) (st + length input)
                     (msg "filter value exceeds size limit"))
            else Ok (mkFilter field operator legacyValue input (mkSpan st (st + length input)) None)
      | _ => parseFilter_ops ops' input st
      end
  end.

Definition parseFilter (input : bytes) (st : nat) : res Filter :=
  parseFilter_ops filter_operators input st.

(** ** Compiling a filter *)

Section Compile.
Context {UT : RuneTables}.

Definition isPythonWordRune (r : Z) : bool := (r =? 95)%Z || IsLetter r || IsNumber r.

Definition key_rune (r : Z) : bool := (r =? 46)%Z || (r =? 45)%Z || isPythonWordRune r.

Definition isNumericFilterKey (field : bytes) : bool :=
  negb (bool_decide (field = [])) && forallb key_rune (runes field).

Definition isStringFilterKey (field : bytes) : bool :=
  negb (bool_decide (field = [])) &&
  forallb (fun r => ascii_letter r || ascii_digit r || (r =? 95)%Z || (r =? 46)%Z || (r =? 45)%Z)
          (runes field).

Definition isNumericFilterValue (v : bytes) : bool :=
  let '(number, rest) := cut_at (fun c => negb (is_digit c || is_byte dot c)) v in
  if bool_decide (number = []) then false
  else match rest with
       | None | Some [] => true
       | Some (u :: rest) =>
           any_of "kKmMgGtTpPeEzZyY" u &&
           let rest := match rest with c :: r => if is_byte "i" c then r else rest | [] => rest end in
           match rest with
           | [] => true
           | [c] => is_byte "B" c || is_byte "b" c
           | _ => false
           end
       end.

Definition needsLegacyQuotes (v : bytes) : bool :=
  bool_decide (v = []) || negb (forallb key_rune (runes v)).

Definition escapeLegacyQuotes (v : bytes) : bytes :=
  flat_map (fun c => if is_byte backslash c || is_byte dquote c then [backslash; c] else [c]) v.

Definition quoted_operators : list string :=
  ["~="; "!~="; "^="; "!^="; "$="; "!$="; "*="; "!*="; "="; "!="]%string.

Definition reconstructLegacyFilter (f : Filter) : bytes :=
  let v := if existsb (fun op => bool_decide (f_Operator f = lit op)) quoted_operators &&
              needsLegacyQuotes (f_Value f)
           then dquote :: escapeLegacyQuotes (f_Value f) ++ [dquote] else f_Value f in
  f_Field f ++ f_Operator f ++ v.

Definition numeric_ops : list (string * filterOperation) :=
  [("<=", filterOpLE); (">=", filterOpGE); ("!=", filterOpNE);
   ("=", filterOpEQ); ("<", filterOpLT); (">", filterOpGT)]%string.

(** an optional [?] before a value, and the value behind it *)
Definition cut_question (trim : bytes -> bytes) (rest : bytes) : bool * bytes :=
  match rest with
  | c :: r => if is_byte "?" c then (true, trim r) else (false, rest)
  | [] => (false, [])
  end.

Fixpoint compileNumeric_ops (ops : list (string * filterOperation)) (trimmed raw : bytes) (sp : span)
  : res (option compiledFilter) :=
  match ops with
  | [] => Ok None
  | (text, op) :: ops' =>
      match Index trimmed (lit text) with
      | Some (S _ as index) =>
          let field := TrimSpace (take index trimmed) in
          let '(noneInclusive, rest) :=
            cut_question TrimSpace (TrimSpace (drop (index + length (lit text)) trimmed)) in
          if isNumericFilterKey field && isNumericFilterValue rest then
            match parseFilterNumber rest with
            | None => Err (selectorSyntax (start sp) (end_ sp)
                             ("Invalid value in format specification"%string, [rest; raw]))
            | Some number =>
                Ok (Some (mkCompiled filterKindNumeric field op false noneInclusive number [] None sp))
            end
          else compileNumeric_ops ops' trimmed raw sp
      | _ => compileNumeric_ops ops' trimmed raw sp
      end
  end.

Definition compileNumericFilter (raw : bytes) (sp : span) : res (option compiledFilter) :=
  compileNumeric_ops numeric_ops (TrimSpace raw) raw sp.

(** one occurrence of an operator: where its negation starts, where it starts *)
Record stringOpMatch := mkOpMatch { negStart : nat; opStart : nat; opEnd : nat }.

Definition match_at (input op : bytes) (index : nat) : stringOpMatch :=
  let '(spaces, before) := cut_at (fun c => negb (IsSpace (b2z c))) (rev (take index input)) in
  let negStart :=
    match before with
    | Some (c :: _) => if is_byte "!" c then index - length spaces - 1 else index
    | _ => index
    end in
  mkOpMatch negStart index (index + length op).

Definition findStringOperator (input op : bytes) : list stringOpMatch :=
  map (match_at input op)
      (List.filter (fun index => HasPrefix (drop index input) op)
                   (seq 0 (S (length input) - length op))).

Definition isOnlySpaces (text : bytes) : bool := forallb IsSpace (runes text).

Definition isNegationPrefix (text : bytes) : bool :=
  match text with c :: t => is_byte "!" c && isOnlySpaces t | [] => false end.

Definition trimLeftSpaces (s : bytes) : bytes := TrimLeftFunc IsSpace s.

(** the body of a quoted value up to its closing quote; [index] is the position
    of [s] in the text, [acc] the builder *)
Fixpoint scan_quoted (quote : byte) (s acc : bytes) (index : nat) : option (bytes * nat) :=
  match s with
  | [] => None
  | ch :: s' =>
      if is_byte backslash ch then
        match s' with
        | c :: s'' => scan_quoted quote s'' (acc ++ [backslash; c]) (index + 2)
        | [] => None
        end
      else if is_byte quote ch then Some (acc, index + 1)
      else scan_quoted quote s' (acc ++ [ch]) (index + 1)
  end.

Definition parseStringFilterValue (rest : bytes) (sp : span) : res (bytes * nat) :=
  match rest with
  | [] => Ok ([], 0)
  | q :: body =>
      if is_byte dquote q || is_byte squote q then
        match scan_quoted q body [] 1 with
        | None => Err (selectorSyntax (start sp) (end_ sp) (msg "unclosed quoted filter value"))
        | Some ([], _) => Err (selectorSyntax (start sp) (end_ sp) (msg "empty quoted filter value"))
        | Some (captured, consumed) => Ok (captured, consumed)
        end
      else
        let index := prefix_len key_rune rest in
        Ok (take index rest, index)
  end.

Fixpoint unescapeFilterString (v : bytes) : bytes :=
  match v with
  | [] => []
  | c :: v' =>
      if is_byte backslash c then
        match v' with
        | next :: v'' =>
            if is_byte backslash next || is_byte dquote next || is_byte squote next
            then next :: unescapeFilterString v'' else c :: unescapeFilterString v'
        | [] => [c]
        end
      else c :: unescapeFilterString v'
  end.

Definition string_ops : list (string * filterOperation) :=
  [("^=", filterOpPrefix); ("$=", filterOpSuffix); ("*=", filterOpContains);
   ("~=", filterOpRegex); ("=", filterOpEQ)]%string.

Context {RE : RegexEngine}.

Definition compilePythonRegex (pattern : bytes) (sp : span) : res bytes :=
  if (maxRegexBytes <? zlen pattern)%Z then
    Err (selectorLimit (start sp) (end_ sp) (msg "regular expression exceeds size limit"))
  else if negb (utf8_Valid pattern) then
    Err (selectorSyntax (start sp) (end_ sp) (msg "regular expression is not valid UTF-8"))
  else match Translate pattern with
       | None => Err (selectorSyntax (start sp) (end_ sp) (msg "translation error"))
       | Some translated =>
           if (maxTranslatedRegexBytes <? zlen translated)%Z then
             Err (selectorLimit (start sp) (end_ sp)
                    (msg "translated regular expression exceeds size limit"))
           else if regex_compiles translated then Ok translated
           else Err (selectorSyntax (start sp) (end_ sp) (msg "invalid regular expression"))
       end.

(** one candidate operator at one place; [None] when the loop goes on *)
Definition compileString_at (trimmed : bytes) (op : filterOperation) (sp : span) (m : stringOpMatch)
  : res (option compiledFilter) :=
  let field := TrimSpace (take (negStart m) trimmed) in
  if negb (isStringFilterKey field) then Ok None else
  let negated := negStart m <? opStart m in
  if negated && negb (isNegationPrefix (take (opStart m - negStart m) (drop (negStart m) trimmed)))
  then Ok None else
  let '(noneInclusive, rest) :=
    cut_question trimLeftSpaces (trimLeftSpaces (drop (opEnd m) trimmed)) in
  '(captured, consumed) ← parseStringFilterValue rest sp;
  if (consumed =? 0) || negb (bool_decide (TrimSpace (drop consumed rest) = [])) then Ok None else
  let regex := bool_decide (op = filterOpRegex) in
  let text := if regex then captured else unescapeFilterString captured in
  expression ← (if regex then e ← compilePythonRegex text sp; Ok (Some e) else Ok None);
  Ok (Some (mkCompiled filterKindString field op negated noneInclusive (NumFloat (S754_zero false))
              text expression sp)).

Fixpoint first_match {A B} (f : A -> res (option B)) (l : list A) : res (option B) :=
  match l with
  | [] => Ok None
  | a :: l' =>
      r ← f a;
      match r with
      | Some b => Ok (Some b)
      | None => first_match f l'
      end
  end.

Definition compileStringFilter (raw : bytes) (sp : span) : res compiledFilter :=
  let trimmed := TrimSpace raw in
  r ← first_match (fun '(text, op) =>
        first_match (compileString_at trimmed op sp) (findStringOperator trimmed (lit text))) string_ops;
  match r with
  | Some predicate => Ok predicate
  | None => Err (selectorSyntax (start sp) (end_ sp) (msgq "Invalid filter specification" raw))
  end.

Definition compileFilterSpec (raw : bytes) (sp : span) : res compiledFilter :=
  if negb (utf8_Valid raw) then
    Err (selectorSyntax (start sp) (end_ sp) (msg "invalid UTF-8 in filter"))
  else
    r ← compileNumericFilter raw sp;
    match r with
    | Some predicate => Ok predicate
    | None => compileStringFilter raw sp
    end.

Definition compileFilter (f : Filter) : res Filter :=
  match f_predicate f with
  | Some _ => Ok f
  | None =>
      let f := if bool_decide (f_raw f = [])
               then let raw := reconstructLegacyFilter f in
                    f <| f_raw := raw |> <| f_span := mkSpan 0 (length raw) |>
               else f in
      predicate ← compileFilterSpec (f_raw f) (f_span f);
      let f := f <| f_predicate := Some predicate |> in
      Ok (if bool_decide (f_Field f = []) then f <| f_Field := cf_field predicate |> else f)
  end.

(** ** Matching *)

(** [pythonRegex.search] with a budget: the attempt is charged before it runs *)
Definition regex_search (expression : option bytes) (input : bytes) (b : regexEvalBudget)
  : res (bool * regexEvalBudget) :=
  match expression with
  | None => Err (FilterEvaluation (msg "missing regular expression"))
  | Some re =>
      if (maxRegexInputBytes <? zlen input)%Z then
        Err (selectorLimit 0 0 (msg "regular expression input exceeds size limit"))
      else if negb (utf8_Valid input) then
        Err (FilterEvaluation (msg "regular expression input is not valid UTF-8"))
      else
        let b := mkBudget (attempts b + 1) (inspectedBytes b + zlen input) (wall b) in
        if (maxRegexAttemptsPerPlan <? attempts b)%Z then
          Err (selectorLimit 0 0 (msg "regular expression attempt budget exhausted"))
        else if (maxRegexInspectedBytesPerPlan <? inspectedBytes b)%Z then
          Err (selectorLimit 0 0 (msg "regular expression inspected-byte budget exhausted"))
        else if (regexAggregateWallBudget <? since_start (attempts b))%Z then
          Err (selectorLimit 0 0 (msg "regular expression wall budget exhausted"))
        else
          let b := mkBudget (attempts b) (inspectedBytes b) (wall b + match_time (attempts b)) in
          if (regexAggregateWallBudget <? wall b)%Z then
            Err (selectorLimit 0 0 (msg "regular expression wall budget exhausted"))
          else match regex_match re input with
               | Matched m => Ok (m, b)
               | TimedOut => Err (selectorLimit 0 0 (msg "regular expression match timed out"))
               | EngineFailed => Err (selectorLimit 0 0 (msg "regular expression budget exhausted"))
               end
  end.

Definition actualNumericForFilter (actual : Value) : option filterNumericValue :=
  match actual with
  | VInt z => Some (int64Numeric z)
  | VFloat f => Some (NumFloat f)
  | VBool b => Some (int64Numeric (if b then 1 else 0))
  | _ => None
  end.

Definition matchNumeric (p : compiledFilter) (actual : Value) : res bool :=
  match actualNumericForFilter actual with
  | None =>
      match cf_operation p with
      | filterOpEQ => Ok false
      | filterOpNE => Ok true
      | _ => Err (FilterEvaluation (msgq "incompatible types for numeric comparison" (cf_field p)))
      end
  | Some actual_number =>
      match compareFilterNumbers actual_number (cf_number p) (cf_operation p) with
      | Some b => Ok b
      | None => Err (FilterEvaluation (msg "numeric comparison"))
      end
  end.

Definition matchString (p : compiledFilter) (actual : Value) (b : regexEvalBudget)
  : res (bool * regexEvalBudget) :=
  match StringValue actual with
  | None =>
      match cf_operation p with
      | filterOpEQ => Ok (cf_negated p, b)
      | _ => Err (FilterEvaluation (msgq "field is not a string" (cf_field p)))
      end
  | Some text =>
      '(matched, b) ←
        match cf_operation p with
        | filterOpEQ => Ok (bool_decide (text = cf_text p), b)
        | filterOpPrefix => Ok (HasPrefix text (cf_text p), b)
        | filterOpSuffix => Ok (HasSuffix text (cf_text p), b)
        | filterOpContains => Ok (Contains text (cf_text p), b)
        | filterOpRegex => regex_search (cf_expression p) text b
        | _ => Err (FilterEvaluation (msg "unknown string operator"))
        end;
      Ok (xorb (cf_negated p) matched, b)
  end.

Definition predicate_match (p : compiledFilter) (object : Object) (b : regexEvalBudget)
  : res (bool * regexEvalBudget) :=
  let actual := Lookup object (cf_field p) in
  if IsMissing actual || IsNull actual then Ok (cf_noneInclusive p, b)
  else match cf_kind p with
       | filterKindNumeric => m ← matchNumeric p actual; Ok (m, b)
       | filterKindString => matchString p actual b
       end.

(** [Filter.match] compiles a filter that has not been compiled *)
Definition Filter_match (f : Filter) (object : Object) (b : regexEvalBudget)
  : res (bool * regexEvalBudget) :=
  match f_predicate f with
  | Some p => predicate_match p object b
  | None =>
      f ← compileFilter f;
      match f_predicate f with
      | Some p => predicate_match p object b
      | None => Err (FilterEvaluation (msg "filter without predicate"))
      end
  end.

Fixpoint matchesFilters (object : Object) (filters : list Filter) (b : regexEvalBudget)
  : res (bool * regexEvalBudget) :=
  match filters with
  | [] => Ok (true, b)
  | f :: filters' =>
      r ← Filter_match f object b;
      let '(matched, b) := r : bool * regexEvalBudget in
      if matched then matchesFilters object filters' b else Ok (false, b)
  end.

End Compile.
