(* ===== verification/FilterFacts.v ===== *)
(** * Properties of filters

    The comparison operators of a numeric filter read one order of the two
    numbers, quoting is undone by parsing, a compiled filter is consistent, and
    the regular-expression budget is respected. *)
From S2P Require Import Prelude GoStrings Runes Value FilterNumber Filter.

#[local] Open Scope nat_scope.

(** ** Numeric comparison *)

(** the order of two numbers: [None] when one of them is not a number *)
Definition number_order (l r : filterNumericValue) : option comparison :=
  if is_int l || is_int r then
    match infinite l, infinite r with
    | Some s, _ => Some (sign_cmp s)
    | None, Some s => Some (sign_cmp (negb s))
    | None, None =>
        match num_rat l, num_rat r with
        | Some a, Some b => Some (rat_compare a b)
        | _, _ => None
        end
    end
  else SFcompare (asFloat l) (asFloat r).

Definition opposite (op : filterOperation) : filterOperation :=
  match op with
  | filterOpEQ => filterOpNE | filterOpNE => filterOpEQ
  | filterOpGT => filterOpLE | filterOpLE => filterOpGT
  | filterOpLT => filterOpGE | filterOpGE => filterOpLT
  | op => op
  end.

Definition flipped (op : filterOperation) : filterOperation :=
  match op with
  | filterOpGT => filterOpLT | filterOpLT => filterOpGT
  | filterOpGE => filterOpLE | filterOpLE => filterOpGE
  | op => op
  end.

Lemma compare_order l r op c :
  numeric_op op = true -> number_order l r = Some c ->
  compareFilterNumbers l r op = Some (compareNumericOrder c op).
Proof.
  unfold number_order, compareFilterNumbers. intros N. rewrite N.
  destruct (is_int l || is_int r).
  - destruct (infinite l) as [s|]; [by intros [= <-]|]. destruct (infinite r) as [s|]; [by intros [= <-]|].
    destruct (num_rat l) as [a|]; [|done]. destruct (num_rat r) as [b|]; [|done]. by intros [= <-].
  - unfold compareFloats. by intros ->.
Qed.

Lemma SFcompare_flip f g : SFcompare g f = CompOpp <$> SFcompare f g.
Proof.
  destruct f as [[]|[]| |[] m e], g as [[]|[]| |[] m' e']; simpl; try done.
  all: rewrite (Z.compare_antisym e e'); destruct (e ?= e')%Z; simpl; try done.
  all: pose proof (Pos.compare_antisym m m') as A; unfold Pos.compare in A; rewrite A.
  all: by destruct (Pos.compare_cont Eq m m').
Qed.

Lemma rat_compare_flip a b : rat_compare b a = CompOpp (rat_compare a b).
Proof. unfold rat_compare. apply Z.compare_antisym. Qed.

Lemma sign_cmp_flip s : sign_cmp (negb s) = CompOpp (sign_cmp s).
Proof. by destruct s. Qed.

Lemma number_order_flip l r : number_order r l = CompOpp <$> number_order l r.
Proof.
  destruct l as [z|f], r as [z'|g]; unfold number_order; cbn [is_int orb].
  4: apply SFcompare_flip.
  - simpl. by rewrite rat_compare_flip.
  - destruct (infinite (NumFloat g)) as [s|]; simpl; [by destruct s|].
    destruct (f64_rat g); simpl; [by rewrite rat_compare_flip|done].
  - destruct (infinite (NumFloat f)) as [s|]; simpl; [by rewrite sign_cmp_flip|].
    destruct (f64_rat f); simpl; [by rewrite rat_compare_flip|done].
Qed.

(** Two numbers that are numbers have an order, and the six operators of a
    numeric filter read it: each is the negation of its opposite and what its
    mirror image says of the numbers exchanged. *)
Theorem numeric_operators_consistent l r op c :
  numeric_op op = true -> number_order l r = Some c ->
  exists b, compareFilterNumbers l r op = Some b /\
    compareFilterNumbers l r (opposite op) = Some (negb b) /\
    compareFilterNumbers r l (flipped op) = Some b.
Proof.
  intros N O. exists (compareNumericOrder c op).
  rewrite (compare_order l r op c) by done.
  rewrite (compare_order l r (opposite op) c) by (done || by destruct op).
  rewrite (compare_order r l (flipped op) (CompOpp c)); [by destruct op, c|by destruct op|].
  by rewrite number_order_flip, O.
Qed.

(** 720 as metadata against the filter constant 720.5 *)
Lemma numeric_operators_consistent_witness :
  exists b, compareFilterNumbers (NumInt 720) (NumFloat (f64_ratio 1441 2)) filterOpGE = Some b /\
    compareFilterNumbers (NumInt 720) (NumFloat (f64_ratio 1441 2)) filterOpLT = Some (negb b) /\
    compareFilterNumbers (NumFloat (f64_ratio 1441 2)) (NumInt 720) filterOpLE = Some b.
Proof.
  apply (numeric_operators_consistent (NumInt 720) (NumFloat (f64_ratio 1441 2)) filterOpGE Lt);
    vm_compute; reflexivity.
Defined.

(** ** Quoting *)

Lemma unescape_escape v : unescapeFilterString (escapeLegacyQuotes v) = v.
Proof.
  induction v as [|c v IH]; [done|]. unfold escapeLegacyQuotes in *. simpl.
  destruct (is_byte backslash c) eqn:B; simpl.
  - rewrite B. simpl. by rewrite IH.
  - destruct (is_byte dquote c) eqn:D; simpl.
    + rewrite B, D. simpl. by rewrite IH.
    + rewrite B. by rewrite IH.
Qed.

(** equal pairs whose second parts are equal by arithmetic *)
Ltac pair_lia :=
  match goal with
  | |- _ (_, ?n) = _ (_, ?m) => replace n with m by lia; done
  end.

Lemma scan_escape v acc index rest :
  scan_quoted dquote (escapeLegacyQuotes v ++ dquote :: rest) acc index =
  Some (acc ++ escapeLegacyQuotes v, index + length (escapeLegacyQuotes v) + 1).
Proof.
  revert acc index. induction v as [|c v IH]; intros acc index; unfold escapeLegacyQuotes in *; simpl.
  { rewrite app_nil_r. pair_lia. }
  destruct (is_byte backslash c || is_byte dquote c) eqn:E; simpl.
  - rewrite IH. rewrite <- app_assoc. simpl. pair_lia.
  - apply orb_false_iff in E as [B D]. rewrite B.
    destruct (is_byte dquote c) eqn:D'; [done|]. rewrite IH, <- app_assoc. simpl. pair_lia.
Qed.

(** A value that the legacy constructors quote is read back as it was: the
    quoted text is consumed whole and unescaping it gives the value. *)
Theorem quoted_value_roundtrip {UT : RuneTables} v rest sp :
  v <> [] ->
  exists captured,
    parseStringFilterValue (dquote :: escapeLegacyQuotes v ++ dquote :: rest) sp =
      Ok (captured, length captured + 2) /\
    unescapeFilterString captured = v.
Proof.
  intros N. exists (escapeLegacyQuotes v). split; [|apply unescape_escape].
  unfold parseStringFilterValue. rewrite is_byte_refl. simpl orb. cbv iota.
  rewrite scan_escape. simpl app. destruct (escapeLegacyQuotes v) as [|c s] eqn:E.
  { exfalso. apply N. rewrite <- (unescape_escape v), E. done. }
  pair_lia.
Qed.

(** ** The budget of regular expressions *)

Section Budget.
Context {UT : RuneTables} {RE : RegexEngine}.

Definition budget_ok (b : regexEvalBudget) : Prop :=
  (attempts b <= maxRegexAttemptsPerPlan /\ inspectedBytes b <= maxRegexInspectedBytesPerPlan /\
   wall b <= regexAggregateWallBudget)%Z.

Lemma regex_search_budget e text b m b' :
  regex_search e text b = Ok (m, b') ->
  budget_ok b' /\ (attempts b < attempts b')%Z /\ (inspectedBytes b <= inspectedBytes b')%Z.
Proof.
  destruct e as [re|]; [|done]. unfold regex_search.
  repeat match goal with |- (if ?c then _ else _) = _ -> _ => destruct c eqn:?; [done|] end.
  cbv zeta. repeat match goal with |- (if ?c then _ else _) = _ -> _ => destruct c eqn:?; [done|] end.
  destruct (regex_match re text); [|done..]. intros [= _ <-]. reflect_bools. unfold budget_ok.
  pose proof (zlen_nonneg text). simpl in *. lia.
Qed.

Lemma predicate_match_budget p object b m b' :
  budget_ok b -> predicate_match p object b = Ok (m, b') -> budget_ok b'.
Proof.
  intros B. unfold predicate_match. destruct (_ || _); [by intros [= _ <-]|].
  destruct (cf_kind p).
  - intros (x & _ & [= _ <-])%bind_Ok_iff. done.
  - unfold matchString. destruct (StringValue _) as [text|].
    + destruct (cf_operation p); simpl; try done; try by intros [= _ <-].
      destruct (regex_search _ text b) as [[m' b'']|] eqn:R; [|done]. simpl. intros [= _ <-].
      by destruct (regex_search_budget _ _ _ _ _ R).
    + destruct (cf_operation p); try done. by intros [= _ <-].
Qed.

(** Matching filters never takes more attempts, bytes or time than a plan may
    spend: a match that would is refused. *)
Theorem regex_budget_respected object fs b m b' :
  budget_ok b -> matchesFilters object fs b = Ok (m, b') -> budget_ok b'.
Proof.
  revert b. induction fs as [|f fs IH]; intros b B; simpl; [by intros [= _ <-]|].
  intros ([m1 b1] & F & R)%bind_Ok_iff.
  assert (B1 : budget_ok b1).
  { unfold Filter_match in F. destruct (f_predicate f) as [p|].
    - by eapply predicate_match_budget.
    - apply bind_Ok_iff in F as (f' & _ & F). destruct (f_predicate f'); [|done].
      by eapply predicate_match_budget. }
  destruct m1; [by eapply IH|]. by injection R as _ <-.
Qed.

End Budget.
