(* ===== verification/Decimal.v ===== *)
(** * Decimal texts of integers

    [strconv.Itoa] writes the digits of a number, and [digits_value] reads them
    back. *)
From S2P Require Url.
From S2P Require Import Prelude GoStrings Runes Value FilterNumber.

#[local] Open Scope nat_scope.

Abbreviation Itoa := Url.Itoa.

Lemma digits_value_from v s :
  foldl (fun acc c => acc * 10 + digit_of c)%Z v s = (v * 10 ^ zlen s + digits_value s)%Z.
Proof.
  unfold digits_value. revert v. induction s as [|c s IH] using rev_ind; intros v; simpl.
  - unfold zlen. simpl. lia.
  - rewrite !foldl_app. simpl. rewrite IH, zlen_app. change (zlen [c]) with 1%Z.
    rewrite Z.pow_add_r by (unfold zlen; lia). lia.
Qed.

Lemma digits_value_app s t : digits_value (s ++ t) = (digits_value s * 10 ^ zlen t + digits_value t)%Z.
Proof. unfold digits_value at 1. rewrite foldl_app. apply digits_value_from. Qed.

Lemma digit_byte d : (0 <= d < 10)%Z -> is_digit (z2b (48 + d)) = true /\ digit_of (z2b (48 + d)) = d.
Proof.
  intros H. unfold is_digit, digit_of. rewrite b2z_z2b, Z.mod_small by lia.
  rewrite andb_true_iff, !Z.leb_le. lia.
Qed.

Lemma itoa_loop_spec fuel n acc :
  (0 <= n < 10 ^ Z.of_nat fuel)%Z -> (0 < fuel)%nat ->
  exists s, Url.itoa_loop fuel n acc = s ++ acc /\ s <> [] /\ forallb is_digit s = true /\ digits_value s = n.
Proof.
  revert n acc. induction fuel as [|f IH]; intros n acc B F; [lia|]. simpl.
  assert (D : (0 <= n mod 10 < 10)%Z) by (apply Z.mod_pos_bound; lia).
  destruct (digit_byte _ D) as [D1 D2]. destruct (Z.ltb_spec n 10) as [L|L].
  - exists [z2b (48 + n mod 10)]. simpl. rewrite D1. repeat split; [done|].
    unfold digits_value. simpl. rewrite D2, Z.mod_small; lia.
  - rewrite Nat2Z.inj_succ, Z.pow_succ_r in B by lia. assert (f <> 0) by (intros ->; simpl in B; lia).
    destruct (IH (n / 10)%Z (z2b (48 + n mod 10) :: acc)) as (s & -> & NE & DG & V); [|lia|].
    { Z.div_mod_to_equations. lia. }
    exists (s ++ [z2b (48 + n mod 10)]). rewrite <- app_assoc. split; [done|].
    split; [by destruct s|]. split; [rewrite forallb_app; simpl; by rewrite DG, D1|].
    rewrite digits_value_app, V. unfold digits_value, zlen. simpl. rewrite D2.
    Z.div_mod_to_equations. lia.
Qed.

Lemma Itoa_spec n :
  (0 <= n <= MaxInt64)%Z ->
  Itoa n <> [] /\ forallb is_digit (Itoa n) = true /\ digits_value (Itoa n) = n.
Proof.
  intros B. unfold Itoa. rewrite (proj2 (Z.ltb_ge n 0)) by lia.
  destruct (itoa_loop_spec 20 n []) as (s & -> & H); [|lia|by rewrite app_nil_r].
  unfold MaxInt64 in B. change (10 ^ Z.of_nat 20)%Z with 100000000000000000000%Z. lia.
Qed.
