(* ===== verification/Float64.v ===== *)
(** * binary64 arithmetic, reading and printing of the Go standard library

    What the sorter and the planner of [internal/format] use of [float64] and
    [strconv]: the arithmetic operations, [math.Round], [ParseFloat] on every
    text, and the shortest decimal of [FormatFloat(v, _, -1, 64)].  Numbers are
    [spec_float] at precision 53 and exponent bound 1024. *)
From S2P Require Import Prelude GoStrings Runes Value FilterNumber.

#[local] Open Scope Z_scope.

(** ** Arithmetic *)

Definition f64_add : float64 -> float64 -> float64 := SFadd f64_prec f64_emax.
Definition f64_sub : float64 -> float64 -> float64 := SFsub f64_prec f64_emax.
Definition f64_opp : float64 -> float64 := SFopp.
Definition f64_lt : float64 -> float64 -> bool := SFltb.
Definition f64_le : float64 -> float64 -> bool := SFleb.
Definition f64_eq : float64 -> float64 -> bool := SFeqb.

Definition f64_zero : float64 := S754_zero false.

Definition f64_finite (f : float64) : bool := negb (f64_is_nan f) && negb (f64_is_inf f).

(** [math.Round]: half away from zero *)
Definition f64_round (f : float64) : float64 :=
  match f64_rat f with
  | Some (n, d) =>
      let r := (2 * Z.abs n + Zpos d) / (2 * Zpos d) in
      if r =? 0 then S754_zero (f64_sign f) else f64_of_Z (if f64_sign f then - r else r)
  | None => f
  end.

(** the conversion [int64(f)] of a number in range, toward zero *)
Definition f64_trunc (f : float64) : Z :=
  match f64_rat f with
  | Some (n, d) => Z.quot n (Zpos d)
  | None => 0
  end.

(** ** [strconv.ParseFloat] *)

Definition lower_is (x : byte) (c : byte) : bool := is_byte x (lower_byte c).
Definition is_hex_letter (c : byte) : bool := in_range 97 102 (lower_byte c).
Definition is_mantissa_digit (hex : bool) (c : byte) : bool := is_digit c || hex && is_hex_letter c.
Definition hex_digit (c : byte) : Z := default 0 (unhex c).

Inductive last_seen := SawStart | SawDigit | SawUnderscore | SawOther.

(** the loop of [underscoreOK] *)
Fixpoint underscores_ok (hex : bool) (saw : last_seen) (s : bytes) : bool :=
  match s with
  | [] => match saw with SawUnderscore => false | _ => true end
  | c :: s' =>
      if is_mantissa_digit hex c then underscores_ok hex SawDigit s'
      else if is_byte "_" c then
        match saw with SawDigit => underscores_ok hex SawUnderscore s' | _ => false end
      else match saw with SawUnderscore => false | _ => underscores_ok hex SawOther s' end
  end.

Definition trim_sign (s : bytes) : bytes :=
  match s with c :: s' => if any_of "+-" c then s' else s | [] => [] end.

Definition underscoreOK (s : bytes) : bool :=
  match trim_sign s with
  | z :: x :: s' =>
      if is_byte "0" z && (lower_is "b" x || lower_is "o" x || lower_is "x" x)
      then underscores_ok (lower_is "x" x) SawDigit s'
      else underscores_ok false SawStart (z :: x :: s')
  | s' => underscores_ok false SawStart s'
  end.

(** the digits of a mantissa, those behind the point counted, and the rest *)
Fixpoint read_mantissa (hex : bool) (s : bytes) (sawdot : bool) (digits : bytes) (frac : Z)
  : bytes * Z * bytes :=
  match s with
  | [] => (digits, frac, [])
  | c :: s' =>
      if is_byte "_" c then read_mantissa hex s' sawdot digits frac
      else if is_byte "." c then
        if sawdot then (digits, frac, s) else read_mantissa hex s' true digits frac
      else if is_mantissa_digit hex c then
        read_mantissa hex s' sawdot (digits ++ [c]) (if sawdot then frac + 1 else frac)
      else (digits, frac, s)
  end.

(** the digits of an exponent; it stops growing at 10000 *)
Fixpoint read_exponent (s : bytes) (e : Z) : Z * bytes :=
  match s with
  | [] => (e, [])
  | c :: s' =>
      if is_byte "_" c then read_exponent s' e
      else if is_digit c then read_exponent s' (if e <? 10000 then e * 10 + digit_of c else e)
      else (e, s)
  end.

Definition signed_exponent (s : bytes) : option (Z * bytes) :=
  match s with
  | [] => None
  | c :: s' =>
      let neg := is_byte "-" c in
      let s := if neg || is_byte "+" c then s' else s in
      match s with
      | d :: _ => if is_digit d then let '(e, rest) := read_exponent s 0 in
                                     Some (if neg then - e else e, rest)
                  else None
      | [] => None
      end
  end.

Definition base_value (base : Z) (digits : bytes) : Z :=
  foldl (fun acc c => acc * base + hex_digit c) 0 digits.

(** [n * base^e] rounded; [None] is the range error *)
Definition scaled (neg : bool) (n base e : Z) : option float64 :=
  let f :=
    if n =? 0 then S754_zero neg
    else
      let n := if neg then - n else n in
      if e <? 0 then f64_ratio n (Z.to_pos (base ^ (- e))) else f64_ratio (n * base ^ e) 1 in
  if f64_is_inf f then None else Some f.

(** The finite results of [ParseFloat(s, 64)]: a syntax or range error, an
    infinity and a NaN are [None], which is how every caller treats them. *)
Definition ParseFloat (s : bytes) : option float64 :=
  let neg := HasPrefix s (lit "-") in
  let body := trim_sign s in
  let hex := match body with z :: x :: _ :: _ => is_byte "0" z && lower_is "x" x | _ => false end in
  let '(digits, frac, rest) := read_mantissa hex (if hex then drop 2 body else body) false [] 0 in
  if bool_decide (digits = []) then None
  else if existsb (is_byte "_") s && negb (underscoreOK s) then None
  else
    let n := base_value (if hex then 16 else 10) digits in
    let finish (e : Z) (rest : bytes) : option float64 :=
      if negb (bool_decide (rest = [])) then None
      else if hex then scaled neg n 2 (e - 4 * frac) else scaled neg n 10 (e - frac) in
    match rest with
    | c :: rest' =>
        if lower_is (if hex then "p" else "e")%byte c then
          match signed_exponent rest' with
          | Some (e, rest) => finish e rest
          | None => None
          end
        else None
    | [] => if hex then None else finish 0 []
    end.

(** ** The shortest decimal of a number *)

(** decimal digits and the position of the point: the number is
    [0.digits * 10^point] *)
Record decimal := mkDecimal { digits : bytes; point : Z }.

(** [strconv] of a non-negative integer, by the digits of its base-ten form *)
Fixpoint to_digits (fuel : nat) (n : Z) (acc : bytes) : bytes :=
  match fuel with
  | O => acc
  | S fuel =>
      let acc := z2b (48 + n mod 10) :: acc in
      if n <? 10 then acc else to_digits fuel (n / 10) acc
  end.
Definition decimal_digits (n : Z) : bytes := to_digits (S (Z.to_nat (Z.log2 n))) n [].

(** the least [k] with [n / d < 10^k], for a positive number, from an estimate *)
Fixpoint find_point (fuel : nat) (n d k : Z) : Z :=
  match fuel with
  | O => k
  | S fuel =>
      if (if k <? 0 then n * 10 ^ (- k) <? d else n <? d * 10 ^ k) then k else find_point fuel n d (k + 1)
  end.

Definition ratio10 (c : Z) (e : Z) : float64 :=
  if e <? 0 then f64_ratio c (Z.to_pos (10 ^ (- e))) else f64_ratio (c * 10 ^ e) 1.

(** [nd] digits of the number [n / d], rounded so that they read back to [f]:
    to the nearest when both neighbours do *)
Definition digits_at (f : float64) (n d k nd : Z) : option Z :=
  let e := nd - k in
  let '(a, b) := if e <? 0 then (n, d * 10 ^ (- e)) else (n * 10 ^ e, d) in
  let down := a / b in
  let up := down + 1 in
  let ok c := f64_eq (ratio10 c (- e)) f in
  if ok down && ok up then
    let r := 2 * (a mod b) in
    Some (if r <? b then down else if b <? r then up else if Z.even down then down else up)
  else if ok down then Some down
  else if ok up then Some up
  else None.

Fixpoint shortest_loop (fuel : nat) (f : float64) (n d k nd : Z) : Z * Z :=
  match fuel with
  | O => (0, nd)
  | S fuel =>
      match digits_at f n d k nd with
      | Some c => (c, nd)
      | None => shortest_loop fuel f n d k (nd + 1)
      end
  end.

Definition shortest (f : float64) : decimal :=
  match f64_rat f with
  | Some (n, d) =>
      if n =? 0 then mkDecimal [] 0
      else
        let n := Z.abs n in
        let k := find_point 700 n (Zpos d) (-330) in
        let '(c, nd) := shortest_loop 20 f n (Zpos d) k 1 in
        let ds := decimal_digits c in
        mkDecimal (TrimRightByte ds "0") (k + (zlen ds - nd))
  | None => mkDecimal [] 0
  end.

(** the shortest digits are those of the absolute value *)
Definition f64_abs (f : float64) : float64 := SFabs f.

Definition zeros (n : Z) : bytes := repeat ("0")%byte (Z.to_nat n).

Definition sign_text (f : float64) : bytes := if f64_sign f then lit "-" else [].

(** [FormatFloat(f, 'f', -1, 64)] *)
Definition FormatFloat_f (f : float64) : bytes :=
  let d := shortest (f64_abs f) in
  sign_text f ++
  (if point d <=? 0 then lit "0"
   else take (Z.to_nat (point d)) (digits d) ++ zeros (point d - zlen (digits d))) ++
  (if point d <? zlen (digits d) then
     lit "." ++ zeros (- point d) ++ drop (Z.to_nat (point d)) (digits d)
   else []).

(** [FormatFloat(f, 'g', -1, 64)] *)
Definition FormatFloat_g (f : float64) : bytes :=
  let d := shortest (f64_abs f) in
  let exp := if bool_decide (digits d = []) then 0 else point d - 1 in
  if (exp <? -4) || (6 <=? exp) then
    sign_text f ++ take 1 (digits d) ++
    (if 1 <? zlen (digits d) then lit "." ++ drop 1 (digits d) else []) ++
    lit "e" ++ (if exp <? 0 then lit "-" else lit "+") ++
    (if Z.abs exp <? 10 then lit "0" else []) ++ decimal_digits (Z.abs exp)
  else FormatFloat_f f.

Example parse_examples :
  map ParseFloat [lit "1.5"; lit "-0x1p4"; lit "1_0e-1"; lit ".5e1"; lit "1__0"; lit "1e999"; lit "inf"; lit "12k"] =
  [Some (f64_ratio 3 2); Some (f64_of_Z (-16)); Some (f64_of_Z 1); Some (f64_of_Z 5); None; None; None; None].
Proof. vm_compute. reflexivity. Qed.

Example format_examples :
  map FormatFloat_f [f64_of_Z 720; f64_ratio 1 10; f64_ratio 12345 100; f64_of_Z (10 ^ 21); f64_ratio 1 (10 ^ 7); f64_zero] =
  [lit "720"; lit "0.1"; lit "123.45"; lit "1000000000000000000000"; lit "0.0000001"; lit "0"].
Proof. vm_compute. reflexivity. Qed.

Example format_g_examples :
  map FormatFloat_g [f64_of_Z 720; f64_ratio 1 10; f64_of_Z (10 ^ 21); f64_ratio 1 (10 ^ 7); f64_of_Z (-123456789)] =
  [lit "720"; lit "0.1"; lit "1e+21"; lit "1e-07"; lit "-1.23456789e+08"].
Proof. vm_compute. reflexivity. Qed.
