(* ===== verification/Regex.v ===== *)
(** * Anchored regular expressions of the Go standard library

    The sorter and the option parser of [internal/format] use package [regexp]
    on fixed patterns that start with [^].  This file models that fragment: the
    syntax (literals, escapes, classes, [.], [$], groups, alternatives, [?], [*]
    and [+]), the flag [(?i)] with the simple case folding of the letters, and
    [MatchString], which asks whether a prefix of the text matches.

    The matcher computes the remainders a pattern can leave ([remainders]); the
    contract is the inductive relation [leaves], and the two agree
    ([MatchString_correct]). *)
From S2P Require Import Prelude GoStrings Runes.

#[local] Open Scope Z_scope.

(** ** Syntax *)

Inductive regex :=
| REmpty
| RSet (ranges : list (Z * Z))
| RAny                              (** [.]: any character but a newline *)
| REnd                              (** [$] *)
| RSeq (r1 r2 : regex)
| RAlt (r1 r2 : regex)
| RStar (r : regex).

Definition ROpt (r : regex) : regex := RAlt r REmpty.
Definition RPlus (r : regex) : regex := RSeq r (RStar r).

(** the characters that are equal to [c] under simple folding and ASCII, or [c]:
    the Kelvin sign folds to [k] and the long s to [s] *)
Definition fold_orbit (c : Z) : list Z :=
  if (65 <=? c) && (c <=? 90) then [c; c + 32]
  else if (97 <=? c) && (c <=? 122) then [c; c - 32]
  else if c =? 0x212A then [c; 107; 75]
  else if c =? 0x17F then [c; 115; 83]
  else [c].

Definition in_ranges (ranges : list (Z * Z)) (c : Z) : bool :=
  existsb (fun p => (fst p <=? c) && (c <=? snd p)) ranges.

Definition in_set (fold : bool) (ranges : list (Z * Z)) (c : Z) : bool :=
  existsb (in_ranges ranges) (if fold then fold_orbit c else [c]).

(** ** The matcher *)

Definition on_head (p : Z -> bool) (s : list Z) : list (list Z) :=
  match s with
  | c :: s' => if p c then [s'] else []
  | [] => []
  end.

Section Matcher.
Variable fold : bool.

(** what is left of [s] behind a match of [r] at its start; an iteration that
    consumes nothing adds nothing *)
Fixpoint remainders (r : regex) (s : list Z) : list (list Z) :=
  match r with
  | REmpty => [s]
  | RSet ranges => on_head (in_set fold ranges) s
  | RAny => on_head (fun c => negb (c =? 10)) s
  | REnd => match s with [] => [[]] | _ => [] end
  | RSeq r1 r2 => flat_map (remainders r2) (remainders r1 s)
  | RAlt r1 r2 => remainders r1 s ++ remainders r2 s
  | RStar r' =>
      (fix iterate (n : nat) (s : list Z) : list (list Z) :=
         s :: match n with
              | O => []
              | S n' => flat_map (iterate n')
                          (List.filter (fun s' => (length s' <? length s)%nat) (remainders r' s))
              end) (length s) s
  end.

Definition star_loop (r : regex) : nat -> list Z -> list (list Z) :=
  fix iterate n s :=
    s :: match n with
         | O => []
         | S n' => flat_map (iterate n')
                     (List.filter (fun s' => (length s' <? length s)%nat) (remainders r s))
         end.

(** ** The contract *)

Inductive leaves : regex -> list Z -> list Z -> Prop :=
| leaves_empty s : leaves REmpty s s
| leaves_set ranges c s : in_set fold ranges c = true -> leaves (RSet ranges) (c :: s) s
| leaves_any c s : c <> 10 -> leaves RAny (c :: s) s
| leaves_end : leaves REnd [] []
| leaves_seq r1 r2 s s1 s2 : leaves r1 s s1 -> leaves r2 s1 s2 -> leaves (RSeq r1 r2) s s2
| leaves_left r1 r2 s s' : leaves r1 s s' -> leaves (RAlt r1 r2) s s'
| leaves_right r1 r2 s s' : leaves r2 s s' -> leaves (RAlt r1 r2) s s'
| leaves_stop r s : leaves (RStar r) s s
| leaves_more r s s1 s2 : leaves r s s1 -> leaves (RStar r) s1 s2 -> leaves (RStar r) s s2.

Lemma leaves_length r s s' : leaves r s s' -> (length s' <= length s)%nat.
Proof. induction 1; simpl in *; lia. Qed.

Lemma on_head_In p s s' : In s' (on_head p s) <-> exists c, s = c :: s' /\ p c = true.
Proof.
  destruct s as [|c s]; simpl.
  { split; [done|]. by intros (c & ? & _). }
  destruct (p c) eqn:E; simpl; split; try done.
  - intros [->|[]]. by exists c.
  - intros (d & [= -> ->] & _). by left.
  - intros (d & [= -> ->] & D). congruence.
Qed.

Lemma star_loop_sound r n s s' :
  (forall s s', In s' (remainders r s) -> leaves r s s') ->
  In s' (star_loop r n s) -> leaves (RStar r) s s'.
Proof.
  intros R. revert s. induction n as [|n IH]; intros s; simpl.
  - intros [<-|[]]. constructor.
  - intros [<-|I]; [constructor|]. apply in_flat_map in I as (t & T & U).
    apply filter_In in T as [T _]. eapply leaves_more; [by apply R|]. by apply IH.
Qed.

Lemma star_loop_complete r n s s' :
  (forall s s', leaves r s s' -> In s' (remainders r s)) ->
  leaves (RStar r) s s' -> (length s <= n)%nat -> In s' (star_loop r n s).
Proof.
  intros R L. remember (RStar r) as q eqn:Q. revert n.
  induction L; try done; injection Q as ->; intros n N.
  - destruct n; by left.
  - pose proof (leaves_length _ _ _ L1) as LE.
    destruct (decide (length s1 = length s)) as [E|NE].
    + (* an iteration that consumes nothing leaves the text as it is *)
      enough (s1 = s) as -> by (by apply IHL2; [|lia]).
      clear -L1 E. revert E. induction L1; simpl in *; intros E; try done; try lia.
      * pose proof (leaves_length _ _ _ L1_1). pose proof (leaves_length _ _ _ L1_2).
        rewrite IHL1_2 by lia. apply IHL1_1. lia.
      * auto.
      * auto.
      * pose proof (leaves_length _ _ _ L1_1). pose proof (leaves_length _ _ _ L1_2).
        rewrite IHL1_2 by lia. apply IHL1_1. lia.
    + destruct n as [|n]; [lia|]. right. apply in_flat_map. exists s1. split.
      * apply filter_In. split; [by apply R|]. apply Nat.ltb_lt. lia.
      * apply IHL2; [done|lia].
Qed.

Lemma remainders_leaves r s s' : In s' (remainders r s) <-> leaves r s s'.
Proof.
  revert s s'. induction r as [|ranges| | |r1 IH1 r2 IH2|r1 IH1 r2 IH2|r IH]; intros s s'.
  - simpl. split; [intros [->|[]]; constructor|]. inversion 1; subst. by left.
  - simpl. rewrite on_head_In. split; [intros (c & -> & C); by constructor|].
    inversion 1; subst. eauto.
  - simpl. rewrite on_head_In. split.
    + intros (c & -> & C%negb_true_iff%Z.eqb_neq). by constructor.
    + inversion 1; subst. eexists. split; [done|]. by apply negb_true_iff, Z.eqb_neq.
  - simpl. destruct s; simpl; (split; [|inversion 1; subst; auto]); [intros [<-|[]]; constructor|done].
  - simpl. rewrite in_flat_map. split.
    + intros (t & T & U). econstructor; [by apply IH1|by apply IH2].
    + inversion 1; subst. eexists. split; [by apply IH1|by apply IH2].
  - simpl. rewrite in_app_iff, IH1, IH2. split; [intros []; by constructor|].
    inversion 1; subst; auto.
  - change (remainders (RStar r) s) with (star_loop r (length s) s). split.
    + apply star_loop_sound. intros; by apply IH.
    + intros L. by apply star_loop_complete; [intros; by apply IH| |].
Qed.

End Matcher.

(** ** Patterns *)

#[local] Open Scope byte_scope.

Definition single (c : byte) : Z * Z := (b2z c, b2z c).

(** the ranges of a class up to its closing bracket *)
Fixpoint parse_class (s : bytes) (acc : list (Z * Z)) : option (list (Z * Z) * bytes) :=
  match s with
  | [] => None
  | c :: s' =>
      if is_byte "]" c then Some (acc, s')
      else match s' with
           | d :: e :: s'' =>
               if is_byte "-" d && negb (is_byte "]" e) then parse_class s'' (acc ++ [(b2z c, b2z e)])
               else parse_class s' (acc ++ [single c])
           | _ => parse_class s' (acc ++ [single c])
           end
  end.

(** the postfix operator behind an item *)
Definition postfix (r : regex) (s : bytes) : regex * bytes :=
  match s with
  | c :: s' =>
      if is_byte "?" c then (ROpt r, s')
      else if is_byte "*" c then (RStar r, s')
      else if is_byte "+" c then (RPlus r, s')
      else (r, s)
  | [] => (r, s)
  end.

(** alternatives, up to the end or a closing parenthesis: [seq] is the sequence
    read so far *)
Fixpoint parse_alternatives (fuel : nat) (s : bytes) (seq : regex) : option (regex * bytes) :=
  match fuel with
  | O => None
  | S fuel =>
      let continue_with (r : regex) (rest : bytes) :=
        let '(r, rest) := postfix r rest in parse_alternatives fuel rest (RSeq seq r) in
      match s with
      | [] => Some (seq, [])
      | c :: s' =>
          if is_byte ")" c then Some (seq, s)
          else if is_byte "|" c then
            match parse_alternatives fuel s' REmpty with
            | Some (r, rest) => Some (RAlt seq r, rest)
            | None => None
            end
          else if is_byte "(" c then
            let body := if HasPrefix s' (lit "?:") then drop 2 s' else s' in
            match parse_alternatives fuel body REmpty with
            | Some (r, d :: rest) => if is_byte ")" d then continue_with r rest else None
            | _ => None
            end
          else if is_byte "[" c then
            match parse_class s' [] with
            | Some (ranges, rest) => continue_with (RSet ranges) rest
            | None => None
            end
          else if is_byte "\" c then
            match s' with
            | d :: rest => continue_with (RSet [single d]) rest
            | [] => None
            end
          else if is_byte "." c then continue_with RAny s'
          else if is_byte "$" c then continue_with REnd s'
          else continue_with (RSet [single c]) s'
      end
  end.

(** [regexp.MustCompile] of an anchored pattern, with its [(?i)] flag *)
Definition Compile (pattern : bytes) : option (bool * regex) :=
  let fold := HasPrefix pattern (lit "(?i)") in
  match (if fold then drop 4 pattern else pattern) with
  | c :: body =>
      if is_byte "^" c then
        match parse_alternatives (S (length body)) body REmpty with
        | Some (r, []) => Some (fold, r)
        | _ => None
        end
      else None
  | [] => None
  end.

(** [re.MatchString(text)]; a pattern that does not compile matches nothing *)
Definition MatchString (pattern text : bytes) : bool :=
  match Compile pattern with
  | Some (fold, r) => match remainders fold r (runes text) with [] => false | _ => true end
  | None => false
  end.

Lemma MatchString_correct pattern fold r text :
  Compile pattern = Some (fold, r) ->
  MatchString pattern text = true <-> exists rest, leaves fold r (runes text) rest.
Proof.
  unfold MatchString. intros ->. destruct (remainders fold r (runes text)) as [|t l] eqn:E.
  - split; [done|]. intros (rest & L%remainders_leaves). by rewrite E in L.
  - split; [|done]. intros _. exists t. apply remainders_leaves. rewrite E. by left.
Qed.

Example hevc_matches : map (MatchString (lit "^(?:[hx]265|he?vc?)")) [lit "hev1"; lit "hvc1"; lit "x265"; lit "avc1"]
  = [true; true; true; false].
Proof. vm_compute. reflexivity. Qed.

Example number_pattern : map (MatchString (lit "^[0-9]+(?:\.[0-9]+)?$")) [lit "12"; lit "12.5"; lit "12."; lit "a"]
  = [true; true; false; false].
Proof. vm_compute. reflexivity. Qed.
