(* ===== verification/SortSettings.v ===== *)
(** * The field table of the format sorter ([internal/format/sorter_settings.go])

    The fields formats can be sorted by, their aliases, the default order and
    the ordered values of the fields that rank names (codecs, protocols,
    extensions).  The ranks are patterns of package [regexp], kept as the texts
    of the source and compiled by [Regex]. *)
From S2P Require Import Prelude GoStrings Value FilterNumber Float64 Regex.

#[local] Open Scope Z_scope.

Inductive sortFieldType :=
| fieldTypeField | fieldTypeExtractor | fieldTypeBoolean | fieldTypeOrdered
| fieldTypeCombined | fieldTypeMultiple.

(** the values of the [convert] strings; [ConvertNone] is the empty one *)
Inductive convert :=
| ConvertNone | ConvertString | ConvertFloat | ConvertFloatNone | ConvertBytes
| ConvertOrder | ConvertFloatString | ConvertIgnore.

#[global] Instance sortFieldType_eq_dec : EqDecision sortFieldType.
Proof. solve_decision. Defined.
#[global] Instance convert_eq_dec : EqDecision convert.
Proof. solve_decision. Defined.

Record sorterFieldSetting := mkSetting {
  sf_canonical : bytes;
  sf_forced : bool;
  sf_priority : bool;
  sf_typ : sortFieldType;
  sf_field : list bytes;
  sf_notInList : list bytes;
  sf_convert : convert;
  sf_regex : bool;
  sf_order : list bytes;
  sf_orderFree : list bytes;
  sf_deprecated : bool;
  sf_default : option float64;       (** [defaultVal] when [hasDefault] *)
  sf_max : option float64            (** [max] when [maxSet] *)
}.
#[global] Instance sorterFieldSetting_eta : Eta sorterFieldSetting := fun r =>
  mkSetting (sf_canonical r) (sf_forced r) (sf_priority r) (sf_typ r) (sf_field r) (sf_notInList r)
    (sf_convert r) (sf_regex r) (sf_order r) (sf_orderFree r) (sf_deprecated r) (sf_default r) (sf_max r).

(** a setting with the zero values of the fields that the table leaves out *)
Definition setting (canonical : string) (typ : sortFieldType) (fields : list string) (c : convert)
  : sorterFieldSetting :=
  mkSetting (lit canonical) false false typ (map lit fields) [] c false [] [] false None None.

Definition pythonNoneOrder : bytes := z2b 0 :: lit "python-none".

Definition pinnedVideoCodecOrder : list bytes :=
  map lit ["av0?1"; "vp0?9\.0?2"; "vp0?9"; "[hx]265|he?vc?"; "[hx]264|avc";
           "vp0?8"; "mp4v|h263"; "theora"; ""]%string ++ [pythonNoneOrder; lit "none"].

Definition pinnedAudioCodecOrder : list bytes :=
  map lit ["[af]lac"; "wav|aiff"; "opus"; "vorbis|ogg"; "aac"; "mp?4a?";
           "mp3"; "ac-?4"; "e-?a?c-?3"; "ac-?3"; "dts"; ""]%string ++ [pythonNoneOrder; lit "none"].

Definition pinnedHDROrder : list bytes :=
  map lit ["dv"; "(hdr)?12"; "(hdr)?10\+"; "(hdr)?10"; "hlg"; ""; "sdr"]%string ++ [pythonNoneOrder].

Definition pinnedProtocolOrder : list bytes :=
  map lit ["(ht|f)tps"; "(ht|f)tp$"; "m3u8.*"; ".*dash"; "websocket_frag";
           "rtmpe?"; ""; "ws|websocket"; "f4"]%string.

Definition pinnedVideoExtOrder : list bytes := map lit ["mp4"; "mov"; "webm"; "flv"; ""; "none"]%string.
Definition pinnedVideoExtFree : list bytes := map lit ["webm"; "mp4"; "mov"; "flv"; ""; "none"]%string.
Definition pinnedAudioExtOrder : list bytes :=
  map lit ["m4a"; "aac"; "mp3"; "ogg"; "opus"; "web[am]"; ""; "none"]%string.
Definition pinnedAudioExtFree : list bytes :=
  map lit ["ogg"; "opus"; "web[am]"; "mp3"; "m4a"; "aac"; ""; "none"]%string.

(** a ranked field, with the order that [init] gives it *)
Definition ordered (canonical : string) (regex : bool) (field : string) (order orderFree : list bytes)
  : sorterFieldSetting :=
  (setting canonical fieldTypeOrdered [field] ConvertOrder)
    <| sf_regex := regex |> <| sf_order := order |> <| sf_orderFree := orderFree |>.

Definition numeric_setting (canonical field : string) : sorterFieldSetting :=
  setting canonical fieldTypeField [field] ConvertFloatNone.

Definition preference_setting (canonical field : string) : sorterFieldSetting :=
  (setting canonical fieldTypeField [field] ConvertFloat) <| sf_default := Some (f64_of_Z (-1)) |>.

Definition boolean_setting (canonical field : string) : sorterFieldSetting :=
  (setting canonical fieldTypeBoolean [field] ConvertFloatNone) <| sf_notInList := [lit "none"] |>.

Definition sorterFieldSettings : list sorterFieldSetting :=
  [ (setting "hidden" fieldTypeExtractor ["preference"] ConvertFloatNone)
      <| sf_forced := true |> <| sf_max := Some (f64_of_Z (-1000)) |>;
    (setting "aud_or_vid" fieldTypeMultiple ["vcodec"; "acodec"] ConvertNone) <| sf_forced := true |>;
    (boolean_setting "hasvid" "vcodec") <| sf_priority := true |>;
    (setting "ie_pref" fieldTypeExtractor ["preference"] ConvertFloatNone) <| sf_priority := true |>;
    preference_setting "lang" "language_preference";
    preference_setting "quality" "quality";
    setting "res" fieldTypeMultiple ["height"; "width"] ConvertNone;
    numeric_setting "fps" "fps";
    ordered "hdr" true "dynamic_range" pinnedHDROrder [];
    ordered "vcodec" true "vcodec" pinnedVideoCodecOrder [];
    numeric_setting "channels" "audio_channels";
    ordered "acodec" true "acodec" pinnedAudioCodecOrder [];
    setting "size" fieldTypeMultiple ["filesize"; "fs_approx"] ConvertBytes;
    setting "br" fieldTypeMultiple ["tbr"; "vbr"; "abr"] ConvertFloatNone;
    numeric_setting "asr" "asr";
    ordered "proto" true "protocol" pinnedProtocolOrder [];
    setting "ext" fieldTypeCombined ["vext"; "aext"] ConvertNone;
    boolean_setting "hasaud" "acodec";
    preference_setting "source" "source_preference";
    setting "id" fieldTypeField ["format_id"] ConvertString;
    ordered "vext" false "video_ext" pinnedVideoExtOrder pinnedVideoExtFree;
    ordered "aext" true "audio_ext" pinnedAudioExtOrder pinnedAudioExtFree;
    numeric_setting "height" "height";
    numeric_setting "width" "width";
    numeric_setting "tbr" "tbr";
    numeric_setting "vbr" "vbr";
    numeric_setting "abr" "abr";
    setting "filesize" fieldTypeField ["filesize"] ConvertBytes;
    setting "fs_approx" fieldTypeField ["filesize_approx"] ConvertBytes ]%string.

(** the name, its target and whether it is deprecated *)
Definition sorterAliasTable : list (string * string * bool) :=
  [ ("format_id", "id", false); ("preference", "ie_pref", false);
    ("language_preference", "lang", false); ("source_preference", "source", false);
    ("protocol", "proto", false); ("filesize_approx", "fs_approx", false);
    ("audio_channels", "channels", false);
    ("dimension", "res", true); ("resolution", "res", true); ("extension", "ext", true);
    ("bitrate", "br", true); ("total_bitrate", "tbr", true); ("video_bitrate", "vbr", true);
    ("audio_bitrate", "abr", true); ("framerate", "fps", true);
    ("filesize_estimate", "size", true); ("samplerate", "asr", true);
    ("video_ext", "vext", true); ("audio_ext", "aext", true);
    ("video_codec", "vcodec", true); ("audio_codec", "acodec", true);
    ("video", "hasvid", true); ("has_video", "hasvid", true);
    ("audio", "hasaud", true); ("has_audio", "hasaud", true);
    ("extractor", "ie_pref", true); ("extractor_preference", "ie_pref", true) ]%string.

Definition pinnedDefaultOrder : list bytes :=
  map lit ["hidden"; "aud_or_vid"; "hasvid"; "ie_pref"; "lang"; "quality"; "res"; "fps"; "hdr:12"; "vcodec";
           "channels"; "acodec"; "size"; "br"; "asr"; "proto"; "ext"; "hasaud"; "source"; "id"]%string.

(** ** Lookup *)

Definition find_setting (name : bytes) : option sorterFieldSetting :=
  List.find (fun s => bool_decide (sf_canonical s = name)) sorterFieldSettings.

Definition find_alias (name : bytes) : option (bytes * bool) :=
  (fun a => (lit a.1.2, a.2)) <$> List.find (fun a => bool_decide (lit a.1.1 = name)) sorterAliasTable.

(** the setting of a name or of its alias, and the canonical name *)
Definition lookupFieldSetting (name : bytes) : option (sorterFieldSetting * bytes) :=
  match find_setting name with
  | Some s => Some (s, name)
  | None =>
      match find_alias name with
      | Some (target, deprecated) =>
          match find_setting target with
          | Some s => Some (s <| sf_deprecated := deprecated |>, target)
          | None => None
          end
      | None => None
      end
  end.

(** ** The table is consistent *)

(** the pattern as [init] compiles it *)
Definition pinnedRegex (pattern : bytes) : bytes := lit "(?i)^(?:" ++ pattern ++ lit ")".

(** [MustCompile] of the package initializer does not panic *)
Lemma pinned_patterns_compile :
  forallb (fun p => bool_decide (p = []) || bool_decide (p = pythonNoneOrder) ||
                    bool_decide (is_Some (fst <$> Compile (pinnedRegex p))))
    (pinnedVideoCodecOrder ++ pinnedAudioCodecOrder ++ pinnedHDROrder ++ pinnedProtocolOrder ++
     pinnedAudioExtOrder ++ pinnedAudioExtFree) = true.
Proof. vm_compute. reflexivity. Qed.

(** names are canonical once, and every alias has a target that is canonical *)
Lemma settings_canonical :
  bool_decide (NoDup (map sf_canonical sorterFieldSettings)) = true /\
  forallb (fun a => bool_decide (is_Some (sf_canonical <$> find_setting (lit a.1.2)))) sorterAliasTable = true.
Proof. split; vm_compute; reflexivity. Qed.

Lemma find_setting_canonical name s : find_setting name = Some s -> sf_canonical s = name.
Proof. intros [_ E]%find_some. by apply bool_decide_eq_true in E. Qed.

(** the target of a lookup is canonical: looking it up again changes nothing *)
Lemma lookupFieldSetting_target name s target :
  lookupFieldSetting name = Some (s, target) ->
  sf_canonical s = target /\ exists s', lookupFieldSetting target = Some (s', target) /\
                             s = s' <| sf_deprecated := sf_deprecated s |>.
Proof.
  unfold lookupFieldSetting. destruct (find_setting name) as [s0|] eqn:F.
  - intros [= <- <-]. rewrite F. split; [by apply find_setting_canonical|]. exists s0. by destruct s0.
  - destruct (find_alias name) as [[t d]|]; [|done]. destruct (find_setting t) as [s0|] eqn:T; [|done].
    intros [= <- <-]. rewrite T. apply find_setting_canonical in T as T'. destruct s0. simpl in *. eauto.
Qed.
