(* ===== verification/SortOptions.v ===== *)
(** * Preference options of format selection ([internal/format/options.go])

    The options of the planner, the syntax of a user's sort field
    ([+FIELD], [FIELD:LIMIT], [FIELD~LIMIT]), the validation of the options and
    the ranks that an option gives to a format. *)
From S2P Require Import Prelude GoStrings Headers Runes Value FilterNumber Filter Float64 Regex SortSettings.

#[local] Open Scope Z_scope.

Definition maxSortFields : nat := 32.

Definition fieldPattern : bytes := lit "^[A-Za-z_][A-Za-z0-9_]*$".
Definition formatIDPattern : bytes := lit "^[A-Za-z0-9][A-Za-z0-9_.-]*$".

Record SortField := mkSortField {
  so_Field : bytes;
  so_Descending : bool;
  so_Closest : bool;
  so_Limit : option float64;
  so_LimitText : bytes;
  so_CombinedLimit : bytes
}.
#[global] Instance SortField_eta : Eta SortField := fun r =>
  mkSortField (so_Field r) (so_Descending r) (so_Closest r) (so_Limit r) (so_LimitText r) (so_CombinedLimit r).

Record Options := mkOptions {
  Sort : list SortField;
  SortForce : bool;
  PreferFreeFormats : bool;
  PreferExtensions : list bytes;
  AllowDRM : bool;
  AllowMultipleVideoStreams : bool;
  AllowMultipleAudioStreams : bool
}.

(** the zero value of [Options] *)
Definition zeroOptions : Options := mkOptions [] false false [] false false false.

(** ** Numbers with a decimal unit *)

Definition unit_of (c : byte) : option Z :=
  if lower_is "k" c then Some (10 ^ 3)
  else if lower_is "m" c then Some (10 ^ 6)
  else if lower_is "g" c then Some (10 ^ 9)
  else if lower_is "t" c then Some (10 ^ 12)
  else None.

Definition parseBoundedNumber (input : bytes) : option float64 :=
  if bool_decide (input = []) || (64 <? length input)%nat then None
  else
    let '(multiplier, body) :=
      match last input with
      | Some c => match unit_of c with
                  | Some m => (m, take (length input - 1) input)
                  | None => (1, input)
                  end
      | None => (1, input)
      end in
    match ParseFloat body with
    | Some parsed => Some (f64_mul parsed (f64_of_Z multiplier))
    | None => None
    end.

(** ** Sort fields *)

Section Fields.
Context {UT : RuneTables} {LT : UnicodeTables}.

(** the conversions whose limit may be a text *)
Definition textual (c : convert) : bool :=
  match c with ConvertOrder | ConvertString | ConvertFloatString => true | _ => false end.

(** the limit of a field, behind its separator *)
Definition parse_limit (field : SortField) (rawLimit : bytes) : res SortField :=
  if bool_decide (rawLimit = []) || (64 <? length rawLimit)%nat then Err ErrInvalidPreference
  else if existsb (any_of ":~") rawLimit then Ok (field <| so_CombinedLimit := rawLimit |>)
  else match parseBoundedNumber rawLimit with
       | Some limit => Ok (field <| so_Limit := Some limit |>)
       | None =>
           match lookupFieldSetting (so_Field field) with
           | None => Ok (field <| so_LimitText := rawLimit |>)
           | Some (s, _) =>
               if bool_decide (sf_typ s = fieldTypeCombined) then Ok (field <| so_CombinedLimit := rawLimit |>)
               else if negb (textual (sf_convert s)) then Err ErrInvalidPreference
               else Ok (field <| so_LimitText := rawLimit |>)
           end
       end.

Definition ParseSortField (input0 : bytes) : res SortField :=
  let input := TrimSpace input0 in
  if bool_decide (input = []) || (256 <? length input)%nat then Err ErrInvalidPreference
  else
    let descending := HasPrefix input (lit "+") in
    let input := if descending then drop 1 input else input in
    let field := mkSortField [] descending false None [] [] in
    match cut_at (any_of ":~") input with
    | (name, Some (separator :: rawLimit)) =>
        let field := field <| so_Closest := is_byte "~" separator |> <| so_Field := ToLower name |> in
        if negb (MatchString fieldPattern (so_Field field)) then Err ErrInvalidPreference
        else
          field ← parse_limit field rawLimit;
          if bool_decide (is_Some (so_Limit field)) && negb (MatchString fieldPattern name)
          then Err ErrInvalidPreference
          else Ok field
    | _ =>
        if negb (MatchString fieldPattern input) then Err ErrInvalidPreference
        else Ok (field <| so_Field := ToLower input |>)
    end.

Fixpoint parse_fields (inputs : list bytes) : res (list SortField) :=
  match inputs with
  | [] => Ok []
  | i :: rest => f ← ParseSortField i; fs ← parse_fields rest; Ok (f :: fs)
  end.

Definition ParseSortFields (inputs : list bytes) : res (list SortField) :=
  if (maxSortFields <? length inputs)%nat then Err ErrInvalidPreference else parse_fields inputs.

(** ** Validation *)

Definition sort_field_valid (item : SortField) : bool :=
  MatchString fieldPattern (so_Field item) &&
  match so_Limit item with Some l => f64_finite l | None => true end.

Definition extension_valid (extension : bytes) : bool :=
  (1 <=? length extension)%nat && (length extension <=? 16)%nat && MatchString formatIDPattern extension.

Definition Options_validate (options : Options) : res unit :=
  let extensions := map ToLower (PreferExtensions options) in
  if (maxSortFields <? length (Sort options))%nat || (maxSortFields <? length (PreferExtensions options))%nat
  then Err ErrInvalidPreference
  else if negb (forallb sort_field_valid (Sort options)) then Err ErrInvalidPreference
  else if negb (forallb extension_valid extensions) then Err ErrInvalidPreference
  else if negb (bool_decide (NoDup extensions)) then Err ErrInvalidPreference
  else Ok tt.

End Fields.

(** ** Ranks of a format *)

(** a format is DRM-protected when [has_drm] is true, a text other than
    [maybe], or a number that is not zero *)
Definition isDRM (object : Object) : bool :=
  match Lookup object (lit "has_drm") with
  | VBool drm => drm
  | VString text => negb (bool_decide (text = [])) && negb (bool_decide (text = lit "maybe"))
  | VInt integer => negb (integer =? 0)
  | VFloat floating => negb (f64_eq floating f64_zero)
  | _ => false
  end.

(** the case tables of strings that are not ASCII *)
Class CaseTables := {
  unicode_upper : bytes -> bytes;
  unicode_fold : bytes -> bytes -> bool
}.

Section Case.
Context {CT : CaseTables}.

Definition ToUpper (s : bytes) : bytes := if isASCII s then map upper_byte s else unicode_upper s.

Definition EqualFold (s t : bytes) : bool :=
  if isASCII s && isASCII t then bool_decide (map lower_byte s = map lower_byte t) else unicode_fold s t.

(** the first preference that is the extension of the format, from the end *)
Fixpoint rank_loop (ext : bytes) (preferences : list bytes) : Z :=
  match preferences with
  | [] => 0
  | p :: ps => if EqualFold ext p then zlen preferences else rank_loop ext ps
  end.

Definition extensionRank (object : Object) (preferences : list bytes) : Z :=
  rank_loop (default [] (StringValue (Lookup object (lit "ext")))) preferences.

End Case.

Example parse_sort_field :
  let UT := {| letter_table := fun _ => false; digit_table := fun _ => false;
               number_table := fun _ => false; mark_table := fun _ => false |} in
  let LT := {| unicode_lower := id |} in
  map (fun s => ParseSortField (lit s)) ["+res:720"; "vcodec:vp9"; "ext:mp4:m4a"; "size~50M"; "fps:x"]%string =
  [Ok (mkSortField (lit "res") true false (Some (f64_of_Z 720)) [] []);
   Ok (mkSortField (lit "vcodec") false false None (lit "vp9") []);
   Ok (mkSortField (lit "ext") false false None [] (lit "mp4:m4a"));
   Ok (mkSortField (lit "size") false true (Some (f64_of_Z 50000000)) [] []);
   Err ErrInvalidPreference].
Proof. vm_compute. reflexivity. Qed.
