(* ===== verification/Sorter.v ===== *)
(** * The format sorter ([internal/format/sorter.go], [sorter_values.go])

    Sort specifications are parsed to tokens, composed with the defaults to the
    field order of a sorter ([newSorter]), and a format is given a key, one
    typed preference per field; formats are sorted stably by their keys, worst
    first.  [sort.SliceStable] is the stable insertion sort ([sort_stable]):
    [SorterFacts] shows that for the order of the keys there is only one stable
    sorting. *)
From S2P Require Import Prelude GoStrings Runes Value FilterNumber Filter Float64 Regex SortSettings SortOptions.

#[local] Open Scope Z_scope.

Definition maxUserSortFields : nat := 32.
Definition maxExtractorSortFields : nat := 32.
Definition maxEffectiveSortFields : nat := 64.
Definition maxSortSpecBytes : nat := 256.
Definition maxCombinedLimitTokens : nat := 8.

(** ** Sort specifications *)

Record sortToken := mkToken {
  tk_canonical : bytes;
  tk_deprecated : bool;
  tk_reverse : bool;
  tk_closest : bool;
  tk_limitText : bytes;
  tk_limit : option float64
}.
#[global] Instance sortToken_eta : Eta sortToken := fun r =>
  mkToken (tk_canonical r) (tk_deprecated r) (tk_reverse r) (tk_closest r) (tk_limitText r) (tk_limit r).

(** the classes [\s] and [[A-Za-z0-9_]] of package [regexp] *)
Definition re_space (c : byte) : bool :=
  let z := b2z c in (z =? 9) || (z =? 10) || (z =? 12) || (z =? 13) || (z =? 32).
Definition re_word (c : byte) : bool := is_alpha c || is_digit c || is_byte "_" c.

Fixpoint skip_while (p : byte -> bool) (s : bytes) : bytes :=
  match s with c :: s' => if p c then skip_while p s' else s | [] => [] end.

Definition trim_end (p : byte -> bool) (s : bytes) : bytes := rev (skip_while p (rev s)).

(** [sortRegex.FindStringSubmatch]: the reverse mark, the field, the separator
    and the limit, which is the text behind the separator without its trailing
    space and must not hold a newline *)
Definition sortRegex_match (input : bytes) : option (bool * bytes * option byte * bytes) :=
  let s := skip_while re_space input in
  let reverse := HasPrefix s (lit "+") in
  let s := if reverse then drop 1 s else s in
  match cut_at (fun c => negb (re_word c)) s with
  | ([], _) => None
  | (field, None) => Some (reverse, field, None, [])
  | (field, Some []) => Some (reverse, field, None, [])
  | (field, Some (c :: rest)) =>
      if any_of ":~" c then
        let limit := trim_end re_space rest in
        if existsb (fun d => b2z d =? 10) limit then None else Some (reverse, field, Some c, limit)
      else if forallb re_space (c :: rest) then Some (reverse, field, None, [])
      else None
  end.

Section Specification.
Context {LT : UnicodeTables}.

Definition parseSortSpecification (input : bytes) : res sortToken :=
  if bool_decide (input = []) || (maxSortSpecBytes <? length input)%nat then Err ErrInvalidPreference
  else match sortRegex_match input with
  | None => Err ErrInvalidPreference
  | Some (reverse, field, separator, limitText) =>
      let closest := match separator with Some c => is_byte "~" c | None => false end in
      if bool_decide (is_Some separator) && bool_decide (limitText = []) then Err ErrInvalidPreference
      else if (64 <? length limitText)%nat then Err ErrInvalidPreference
      else
        let limit := if Contains limitText (lit ":") then None else parseBoundedNumber limitText in
        let token := mkToken (ToLower field) false reverse closest limitText limit in
        match lookupFieldSetting (ToLower field) with
        | None => Ok token
        | Some (s, target) =>
            if negb (bool_decide (limitText = [])) && bool_decide (limit = None) &&
               negb (bool_decide (sf_typ s = fieldTypeCombined)) && negb (textual (sf_convert s))
            then Err ErrInvalidPreference
            else Ok (token <| tk_canonical := target |> <| tk_deprecated := sf_deprecated s |>)
        end
  end.

End Specification.

Definition formatLimitText (f : float64) : bytes := if f64_finite f then FormatFloat_f f else [].

Definition encodeSortFieldToken (field : SortField) : bytes :=
  let separator := if so_Closest field then lit "~" else lit ":" in
  (if so_Descending field then lit "+" else []) ++ so_Field field ++
  (if negb (bool_decide (so_CombinedLimit field = [])) then separator ++ so_CombinedLimit field
   else if negb (bool_decide (so_LimitText field = [])) then separator ++ so_LimitText field
   else match so_Limit field with
        | Some limit => separator ++ formatLimitText limit
        | None => []
        end).

(** ** Ranks *)

Definition order_of (s : sorterFieldSetting) (useFreeOrder : bool) : list bytes :=
  if useFreeOrder && negb (bool_decide (sf_orderFree s = [])) then sf_orderFree s else sf_order s.

(** the position of the first element of a list that satisfies [p] *)
Fixpoint position {A} (p : A -> bool) (l : list A) : option nat :=
  match l with
  | [] => None
  | x :: l' => if p x then Some 0%nat else S <$> position p l'
  end.

Definition rank_at (order : list bytes) (i : nat) : float64 := f64_of_Z (zlen order - Z.of_nat i).

(** a place of the order that names values, in contrast to the marks of an
    unknown and of a missing value *)
Definition names_value (item : bytes) : bool :=
  negb (bool_decide (item = [])) && negb (bool_decide (item = pythonNoneOrder)).

Definition orderedRank (s : sorterFieldSetting) (v : bytes) (useFreeOrder : bool) : float64 :=
  let order := order_of s useFreeOrder in
  let emptyRank := rank_at order (default (length order) (position (fun i => bool_decide (i = [])) order)) in
  if bool_decide (v = []) then emptyRank
  else
    let matches item :=
      names_value item && (if sf_regex s then MatchString (pinnedRegex item) v else bool_decide (item = v)) in
    match position matches order with
    | Some i => rank_at order i
    | None => emptyRank
    end.

Definition orderedNoneRank (s : sorterFieldSetting) (useFreeOrder : bool) : float64 :=
  let order := order_of s useFreeOrder in
  match position (fun i => bool_decide (i = pythonNoneOrder)) order with
  | Some i => rank_at order i
  | None => orderedRank s [] useFreeOrder
  end.

(** ** Composition of the field order *)

Record sorter := mkSorter {
  sr_fields : list (sortToken * sorterFieldSetting);
  sr_useFreeOrder : bool;
  sr_extensionPreferences : list bytes
}.

Fixpoint split_on (c : byte) (s cur : bytes) : list bytes :=
  match s with
  | [] => [cur]
  | d :: s' => if is_byte c d then cur :: split_on c s' [] else split_on c s' (cur ++ [d])
  end.

Definition expandCombinedLimits (token : sortToken) (s : sorterFieldSetting) : list sortToken :=
  let parts := if bool_decide (tk_limitText token = []) then [] else split_on ":" (tk_limitText token) [] in
  let parts := take maxCombinedLimitTokens parts in
  imap (fun i field =>
    let limitText := match parts !! i with
                     | Some t => t
                     | None => default [] (head parts)
                     end in
    token <| tk_canonical := field |> <| tk_limitText := limitText |>
          <| tk_limit := if bool_decide (limitText = []) then None else parseBoundedNumber limitText |>)
    (sf_field s).

Section Compose.
Context {LT : UnicodeTables}.

Definition resolveSortTokenLimit (token : sortToken) (s : sorterFieldSetting) (useFreeOrder : bool) : sortToken :=
  if bool_decide (tk_limitText token = []) || negb (bool_decide (sf_convert s = ConvertOrder)) then token
  else token <| tk_limit := Some (orderedRank s (ToLower (tk_limitText token)) useFreeOrder) |>.

(** the setting of a field that the table does not know *)
Definition arbitrary_setting (name : bytes) (c : convert) : sorterFieldSetting :=
  mkSetting name false false fieldTypeField [name] [] c false [] [] false None None.

Definition text_limited (token : sortToken) : bool :=
  negb (bool_decide (tk_limitText token = [])) && bool_decide (tk_limit token = None).

Definition token_setting (token : sortToken) : sorterFieldSetting :=
  match lookupFieldSetting (tk_canonical token) with
  | None =>
      arbitrary_setting (tk_canonical token) (if text_limited token then ConvertString else ConvertFloatString)
  | Some (s, _) =>
      if bool_decide (sf_convert s = ConvertFloatString) && text_limited token
      then s <| sf_convert := ConvertString |> else s
  end.

(** the state of the composition: the fields so far and the names seen *)
Record composition := mkComposition {
  cm_fields : list (sortToken * sorterFieldSetting);
  cm_seen : gset bytes
}.

Definition add_field (c : composition) (token : sortToken) (s : sorterFieldSetting) : composition :=
  mkComposition (cm_fields c ++ [(token, s)]) ({[tk_canonical token]} ∪ cm_seen c).

(** one sub-field of a combined field *)
Definition add_sub (useFreeOrder : bool) (c : composition) (sub : sortToken) : composition :=
  if bool_decide (tk_canonical sub ∈ cm_seen c) then c
  else
    let s := match lookupFieldSetting (tk_canonical sub) with
             | Some (s, _) => s
             | None => arbitrary_setting (tk_canonical sub) ConvertFloatString
             end in
    add_field c (resolveSortTokenLimit sub s useFreeOrder) s.

Definition add_token (useFreeOrder : bool) (c : composition) (token : sortToken) : composition :=
  if bool_decide (tk_canonical token ∈ cm_seen c) then c
  else
    let s := token_setting token in
    let token := resolveSortTokenLimit token s useFreeOrder in
    if bool_decide (sf_typ s = fieldTypeCombined) then
      foldl (add_sub useFreeOrder)
        (mkComposition (cm_fields c) ({[tk_canonical token]} ∪ cm_seen c)) (expandCombinedLimits token s)
    else add_field c token s.

Fixpoint compose (useFreeOrder : bool) (rawList : list bytes) (c : composition) : res composition :=
  match rawList with
  | [] => Ok c
  | raw :: rawList' =>
      if bool_decide (raw = []) then compose useFreeOrder rawList' c
      else
        token ← parseSortSpecification raw;
        compose useFreeOrder rawList' (add_token useFreeOrder c token)
  end.

(** the default fields that come before those of the user *)
Definition leading_fields (sortForce : bool) : list bytes :=
  List.filter (fun field =>
    match lookupFieldSetting field with
    | Some (s, _) => sf_forced s || negb sortForce && sf_priority s
    | None => false
    end) pinnedDefaultOrder.

Definition newSorter (options : Options) (extractorFields : list bytes) : res sorter :=
  if (maxUserSortFields <? length (Sort options))%nat then Err ErrInvalidPreference
  else if (maxExtractorSortFields <? length extractorFields)%nat then Err ErrInvalidPreference
  else
    let rawList := leading_fields (SortForce options) ++ map encodeSortFieldToken (Sort options) ++
                   extractorFields ++ pinnedDefaultOrder in
    c ← compose (PreferFreeFormats options) rawList (mkComposition [] ∅);
    if (maxEffectiveSortFields <? length (cm_fields c))%nat then Err ErrInvalidPreference
    else Ok (mkSorter (cm_fields c) (PreferFreeFormats options) (PreferExtensions options)).

End Compose.

Fixpoint strings_of (l : list Value) : res (list bytes) :=
  match l with
  | [] => Ok []
  | v :: l' =>
      match StringValue v with
      | Some text => rest ← strings_of l'; Ok (text :: rest)
      | None => Err ErrInvalidPreference
      end
  end.

Definition extractExtractorSortFields (info : Object) : res (list bytes) :=
  match Lookup info (lit "_format_sort_fields") with
  | Missing | Null => Ok []
  | VList l => if (maxExtractorSortFields <? length l)%nat then Err ErrInvalidPreference else strings_of l
  | _ => Err ErrInvalidPreference
  end.
