(* ===== verification/SorterValues.v ===== *)
(** * Sort keys of formats ([internal/format/sorter_values.go], [sorter.go])

    The fields derived before sorting ([fillSortingFields]), the value of a
    sort field of a format, its preference, the comparison of keys and the
    stable sort. *)
From S2P Require Import Prelude GoStrings Runes Value FilterNumber Filter Float64 Regex SortSettings SortOptions Sorter.

#[local] Open Scope Z_scope.

(** ** Preferences *)

Inductive sortScalarKind := sortScalarMissing | sortScalarBelowLimit | sortScalarNumeric | sortScalarString.

Record sortFieldPreference := mkPreference {
  sp_class : sortScalarKind;
  sp_primary : float64;
  sp_secondary : float64;
  sp_text : bytes
}.

Definition missingPreference : sortFieldPreference := mkPreference sortScalarMissing f64_zero f64_zero [].
Definition numericPreference (primary secondary : float64) : sortFieldPreference :=
  mkPreference sortScalarNumeric primary secondary [].
Definition stringPreference (text : bytes) : sortFieldPreference :=
  mkPreference sortScalarString f64_zero f64_zero text.

(** ** Reading values *)

Section Values.
Context {UT : RuneTables} {LT : UnicodeTables} {CT : CaseTables}.

Definition floatOrNoneText (text : bytes) : option float64 :=
  let trimmed := TrimSpace text in
  if bool_decide (trimmed = []) then None else ParseFloat trimmed.

Definition finite_only (f : float64) : option float64 := if f64_finite f then Some f else None.

Definition numericValue (raw : Value) : option float64 :=
  match raw with
  | VInt z => Some (f64_of_Z z)
  | VFloat f => finite_only f
  | VString text => floatOrNoneText text
  | _ => None
  end.

Definition floatValue (raw : Value) : option float64 :=
  match raw with
  | VBool b => Some (f64_of_Z (if b then 1 else 0))
  | _ => numericValue raw
  end.

Definition byte_units : list (bytes * Z) :=
  imap (fun i s => (lit s, 1024 ^ Z.of_nat i)) [""; "K"; "M"; "G"; "T"; "P"; "E"; "Z"; "Y"]%string.

Definition bytesPattern : bytes := lit "^[0-9]+(?:\.[0-9]+)?$".

(** the loop over the units: the first whose suffix leaves a number *)
Fixpoint parseBytes_units (upper : bytes) (units : list (bytes * Z)) : option float64 :=
  match units with
  | [] => None
  | (suffix, mult) :: units' =>
      if negb (HasSuffix upper suffix) then parseBytes_units upper units'
      else
        let body := TrimSpace (TrimSuffix upper suffix) in
        if bool_decide (body = []) then None
        else
          let normalized := comma_to_dot body in
          if negb (MatchString bytesPattern normalized) then parseBytes_units upper units'
          else match ParseFloat normalized with
               | Some parsed => Some (f64_round (f64_mul parsed (f64_of_Z mult)))
               | None => None
               end
  end.

Definition parseBytesText (text : bytes) : option float64 :=
  let trimmed := TrimSpace text in
  if bool_decide (trimmed = []) then None else parseBytes_units (ToUpper trimmed) byte_units.

Definition resolveFieldValue (s : sorterFieldSetting) (raw : Value) (useFreeOrder : bool) : option float64 :=
  if bool_decide (sf_convert s = ConvertIgnore) then None
  else match raw with
  | Missing | Null => Some f64_zero
  | VInt z => Some (f64_of_Z z)
  | VFloat f => finite_only f
  | _ =>
      let text := ToLower (default [] (StringValue raw)) in
      match sf_convert s with
      | ConvertString => Some f64_zero
      | ConvertBytes => parseBytesText text
      | ConvertOrder => Some (orderedRank s text useFreeOrder)
      | _ => floatOrNoneText text
      end
  end.

(** ** The value of a field of a format *)

Definition first_field (s : sorterFieldSetting) (format : Object) : Value :=
  match sf_field s with
  | name :: _ => Lookup format name
  | [] => Missing
  end.

Definition is_absent (v : Value) : bool := IsMissing v || IsNull v.

(** the smallest of some numbers, in the order of the loop *)
Definition minimum (m : float64) (l : list float64) : float64 :=
  foldl (fun m c => if f64_lt c m then c else m) m l.

(** the bitrate: the first of the fields that is a number *)
Fixpoint first_number (read : Value -> option float64) (names : list bytes) (format : Object) : Value :=
  match names with
  | [] => Missing
  | name :: names' =>
      match read (Lookup format name) with
      | Some number => VFloat number
      | None => first_number read names' format
      end
  end.

Definition blank (v : Value) : bool :=
  match v with VString text => bool_decide (TrimSpace text = []) | _ => is_absent v end.

Definition bitrate_value (raw : Value) : option float64 := if blank raw then None else floatValue raw.

Definition size_value (raw : Value) : option float64 :=
  if blank raw then None
  else match parseBytesText (default [] (StringValue raw)) with
       | Some n => Some n
       | None => floatValue raw
       end.

Definition size_lookup (name : bytes) : bytes :=
  match lookupFieldSetting name with
  | Some (s, _) => default name (head (sf_field s))
  | None => name
  end.

Definition deriveMultipleValue (s : sorterFieldSetting) (format : Object) : Value :=
  if bool_decide (sf_canonical s = lit "res") then
    let values := omap (fun name => floatValue (Lookup format name)) (sf_field s) in
    match List.filter (fun v => negb (f64_le v f64_zero)) values with
    | [] => VInt 0
    | v :: vs => VFloat (minimum v vs)
    end
  else if bool_decide (sf_canonical s = lit "br") then first_number bitrate_value (sf_field s) format
  else if bool_decide (sf_canonical s = lit "size") then
    first_number size_value (map size_lookup (sf_field s)) format
  else if bool_decide (sf_canonical s = lit "aud_or_vid") then
    VInt (if existsb (fun name => negb (bool_decide (StringValue (Lookup format name) = Some (lit "none"))))
               (sf_field s) then 1 else 0)
  else Missing.

Definition nonempty_text (v : Value) : option bytes :=
  match v with VString (c :: t) => Some (c :: t) | _ => None end.

Definition deriveCombinedValue (s : sorterFieldSetting) (format : Object) : Value :=
  if bool_decide (sf_canonical s = lit "ext") then
    match nonempty_text (Lookup format (lit "video_ext")), nonempty_text (Lookup format (lit "audio_ext")) with
    | Some text, _ => VString text
    | None, Some text => VString text
    | None, None => Missing
    end
  else Missing.

Definition deriveFieldValue (s : sorterFieldSetting) (format : Object) : Value :=
  match sf_typ s with
  | fieldTypeBoolean =>
      match sf_field s with
      | [] => Missing
      | _ => match StringValue (first_field s format) with
             | Some text => VInt (if bool_decide (text ∈ sf_notInList s) then -1 else 0)
             | None => VInt 0
             end
      end
  | fieldTypeMultiple => deriveMultipleValue s format
  | fieldTypeCombined => deriveCombinedValue s format
  | fieldTypeExtractor | fieldTypeOrdered | fieldTypeField => first_field s format
  end.

(** ** The preference of a field *)

Definition mathAbs (f : float64) : float64 := if f64_lt f f64_zero then f64_opp f else f.

Definition limitedNumericPreference (resolved : float64) (token : sortToken) : sortFieldPreference :=
  let directed := numericPreference (if tk_reverse token then f64_opp resolved else resolved) f64_zero in
  match tk_limit token with
  | None => directed
  | Some limit =>
      if tk_closest token then
        numericPreference (f64_opp (mathAbs (f64_sub resolved limit)))
          (if tk_reverse token then f64_sub resolved limit else f64_sub limit resolved)
      else if f64_le resolved limit then directed
      else numericPreference (f64_opp resolved) f64_zero
  end.

Definition or_default (s : sorterFieldSetting) (token : sortToken) (v : option float64) : sortFieldPreference :=
  match v, sf_default s with
  | Some v, _ => limitedNumericPreference v token
  | None, Some d => limitedNumericPreference d token
  | None, None => missingPreference
  end.

Definition preferenceForValue (s : sorterFieldSetting) (token : sortToken) (raw : Value)
    (useFreeOrder : bool) : sortFieldPreference :=
  if bool_decide (sf_convert s = ConvertString) then
    match StringValue raw with Some text => stringPreference text | None => missingPreference end
  else if bool_decide (sf_typ s = fieldTypeExtractor) then
    match numericValue raw with
    | None => numericPreference (f64_of_Z (-1)) f64_zero
    | Some v =>
        match sf_max s with
        | Some max => if f64_le max v then numericPreference (f64_of_Z (-1)) f64_zero
                      else numericPreference v f64_zero
        | None => numericPreference v f64_zero
        end
    end
  else if bool_decide (sf_convert s = ConvertFloatString) then
    match numericValue raw, StringValue raw with
    | Some number, _ => limitedNumericPreference number token
    | None, Some text => stringPreference text
    | None, None => missingPreference
    end
  else if is_absent raw then
    if bool_decide (sf_convert s = ConvertOrder)
    then limitedNumericPreference (orderedNoneRank s useFreeOrder) token
    else or_default s token None
  else or_default s token (resolveFieldValue s raw useFreeOrder).

Definition calculateFieldPreference (format : Object) (s : sorterFieldSetting) (token : sortToken)
    (useFreeOrder : bool) : sortFieldPreference :=
  preferenceForValue s token (deriveFieldValue s format) useFreeOrder.

(** the key of a format; the legacy extension preference comes before the first
    extension field *)
Fixpoint calculate_key (sr : sorter) (format : Object) (inserted : bool)
    (fs : list (sortToken * sorterFieldSetting)) : list sortFieldPreference :=
  match fs with
  | [] => []
  | (token, s) :: fs' =>
      let preference := calculateFieldPreference format s token (sr_useFreeOrder sr) in
      let here := negb inserted && negb (bool_decide (sr_extensionPreferences sr = [])) &&
                  (bool_decide (tk_canonical token = lit "vext") || bool_decide (tk_canonical token = lit "aext")) in
      if here then
        numericPreference (f64_of_Z (extensionRank format (sr_extensionPreferences sr))) f64_zero ::
        preference :: calculate_key sr format true fs'
      else preference :: calculate_key sr format inserted fs'
  end.

Definition calculatePreference (sr : sorter) (format : Object) : list sortFieldPreference :=
  calculate_key sr format false (sr_fields sr).

End Values.

(** ** Comparison of keys

    [Lt] stands for -1, [Gt] for 1. *)

Definition class_rank (k : sortScalarKind) : Z :=
  match k with
  | sortScalarMissing => 0 | sortScalarBelowLimit => 1 | sortScalarNumeric => 2 | sortScalarString => 3
  end.

(** [if l != r { if l < r { -1 } else { 1 } } else { next }] *)
Definition compare_floats_then (l r : float64) (next : comparison) : comparison :=
  match SFcompare l r with
  | Some Eq => next
  | Some Lt => Lt
  | _ => Gt
  end.

(** [strings.Compare] *)
Fixpoint bytes_compare (l r : bytes) : comparison :=
  match l, r with
  | [], [] => Eq
  | [], _ => Lt
  | _, [] => Gt
  | c :: l', d :: r' =>
      match (b2z c ?= b2z d) with
      | Eq => bytes_compare l' r'
      | c => c
      end
  end.

Definition compareFieldPreferences (l r : sortFieldPreference) : comparison :=
  match class_rank (sp_class l) ?= class_rank (sp_class r) with
  | Eq =>
      match sp_class l with
      | sortScalarMissing => Eq
      | sortScalarBelowLimit =>
          if f64_lt (sp_primary l) (sp_primary r) then Lt
          else if f64_lt (sp_primary r) (sp_primary l) then Gt else Eq
      | sortScalarNumeric =>
          compare_floats_then (sp_primary l) (sp_primary r)
            (compare_floats_then (sp_secondary l) (sp_secondary r) Eq)
      | sortScalarString => bytes_compare (sp_text l) (sp_text r)
      end
  | c => c
  end.

Fixpoint comparePreferenceTuples (left right : list sortFieldPreference) : comparison :=
  match left, right with
  | [], [] => Eq
  | [], _ => Lt
  | _, [] => Gt
  | l :: left', r :: right' =>
      match compareFieldPreferences l r with
      | Eq => comparePreferenceTuples left' right'
      | c => c
      end
  end.

(** ** The stable sort *)

Section Sort.
Context {A : Type} (less : A -> A -> bool).

(** [x] came before the elements of the sorted list *)
Fixpoint insert_stable (x : A) (l : list A) : list A :=
  match l with
  | [] => [x]
  | y :: l' => if less y x then y :: insert_stable x l' else x :: l
  end.

Definition sort_stable (l : list A) : list A := foldr insert_stable [] l.

End Sort.

Section SortStable.
Context {UT : RuneTables} {LT : UnicodeTables} {CT : CaseTables}.

Definition worse (sr : sorter) (l r : Object) : bool :=
  match comparePreferenceTuples (calculatePreference sr l) (calculatePreference sr r) with
  | Lt => true
  | _ => false
  end.

(** the formats with what their position carries along *)
Definition sortStable {B} (sr : sorter) (formats : list (Object * B)) : list (Object * B) :=
  sort_stable (fun l r => worse sr l.1 r.1) formats.

(** ** Derived sorting fields *)

Definition knownExtensions : list string :=
  ["mp4"; "m4a"; "webm"; "opus"; "ogg"; "mp3"; "aac"; "flv"; "mkv"; "mov"; "wav"; "ts"; "m3u8"; "f4m";
   "f4f"; "vtt"; "srt"; "ttml"; "json"; "xml"]%string.

Definition isKnownExtension (v : bytes) : bool := existsb (fun s => bool_decide (lit s = v)) knownExtensions.

(** the text behind the last point of [s], when there is one *)
Fixpoint after_last_dot (s : bytes) : option bytes :=
  match s with
  | [] => None
  | c :: s' =>
      match after_last_dot s' with
      | Some t => Some t
      | None => if is_byte "." c then Some s' else None
      end
  end.

Definition determineExt (url : bytes) : bytes :=
  let defaultExt := lit "unknown_video" in
  match after_last_dot (cut_at (is_byte "?") url).1 with
  | None => defaultExt
  | Some guess =>
      if MatchString (lit "^[A-Za-z0-9]+$") guess then ToLower guess
      else
        let trimmed := ToLower (TrimRightByte guess "/") in
        if isKnownExtension trimmed then trimmed else defaultExt
  end.

Definition text_of (format : Object) (key : string) : bytes := default [] (StringValue (Lookup format (lit key))).

Definition determineProtocol (format : Object) : bytes :=
  match nonempty_text (Lookup format (lit "protocol")), nonempty_text (Lookup format (lit "url")) with
  | Some raw, _ => ToLower raw
  | None, None => []
  | None, Some url =>
      let lower := ToLower url in
      let ext := determineExt url in
      if HasPrefix lower (lit "rtmp") then lit "rtmp"
      else if bool_decide (ext = lit "m3u8") then
        if default false (Value_Bool (Lookup format (lit "is_live"))) then lit "m3u8" else lit "m3u8_native"
      else if bool_decide (ext = lit "f4m") then lit "f4m"
      else match Index lower (lit "://") with
           | Some (S i) => take (S i) lower
           | _ => []
           end
  end.

Definition isEmptyString (raw : Value) : bool :=
  match raw with VString text => bool_decide (text = []) | _ => is_absent raw end.

Definition isZeroLikeNumber (raw : Value) : bool :=
  match raw with
  | VString text => bool_decide (TrimSpace text = []) || bool_decide (text = lit "0") || bool_decide (text = lit "0.0")
  | VInt z => z =? 0
  | VFloat f => f64_eq f f64_zero
  | _ => is_absent raw
  end.

Definition matchesHEVC (vcodec : bytes) : bool :=
  negb (bool_decide (vcodec = [])) && MatchString (lit "^(?:[hx]265|he?vc?)") (ToLower vcodec).

Definition field_number (format : Object) (key : string) : option float64 := floatValue (Lookup format (lit key)).
Definition set_field (key : string) (v : Value) (format : Object) : Object := Object_Set format (lit key) v.

(** a bitrate that is derived from two others, or absent *)
Definition derive_rate (key : string) (combine : float64 -> float64 -> float64) (a b : string)
    (format : Object) : Object :=
  let format :=
    match field_number format a, field_number format b with
    | Some x, Some y =>
        let r := combine x y in
        set_field key (if f64_eq r f64_zero then Null else VFloat r) format
    | _, _ => format
    end in
  if isZeroLikeNumber (Lookup format (lit key)) then set_field key Null format else format.

Definition fill_protocol_ext (format : Object) : Object :=
  let format := if isEmptyString (Lookup format (lit "protocol"))
                then set_field "protocol" (VString (determineProtocol format)) format else format in
  if isEmptyString (Lookup format (lit "ext")) then
    match nonempty_text (Lookup format (lit "url")) with
    | Some url => set_field "ext" (VString (determineExt url)) format
    | None => format
    end
  else format.

Definition fill_exts (vcodec acodec ext : bytes) (format : Object) : Object :=
  if bool_decide (vcodec = lit "none") then
    set_field "video_ext" (VString (lit "none"))
      (set_field "audio_ext"
         (VString (if negb (bool_decide (acodec = lit "none")) && negb (bool_decide (ext = [])) then ext
                   else lit "none")) format)
  else set_field "audio_ext" (VString (lit "none")) (set_field "video_ext" (VString ext) format).

Definition fill_preference (vcodec ext : bytes) (format : Object) : Object :=
  if is_absent (Lookup format (lit "preference")) && bool_decide (ext = lit "flv") && matchesHEVC vcodec
  then set_field "preference" (VInt (-100)) format else format.

Definition fill_rates (vcodec acodec : bytes) (format : Object) : Object :=
  let silent := bool_decide (acodec = lit "none") in
  let blind := bool_decide (vcodec = lit "none") in
  let format := if blind then set_field "vbr" (VInt 0) format else format in
  let format := if silent then set_field "abr" (VInt 0) format else format in
  let format := if isZeroLikeNumber (Lookup format (lit "vbr")) && negb blind
                then derive_rate "vbr" f64_sub "tbr" "abr" format else format in
  let format := if isZeroLikeNumber (Lookup format (lit "abr")) && negb silent
                then derive_rate "abr" f64_sub "tbr" "vbr" format else format in
  if isZeroLikeNumber (Lookup format (lit "tbr")) then derive_rate "tbr" f64_add "vbr" "abr" format else format.

Definition fillSortingFields (format : Object) : Object :=
  let format := fill_protocol_ext format in
  let vcodec := text_of format "vcodec" in
  let acodec := text_of format "acodec" in
  let ext := text_of format "ext" in
  fill_rates vcodec acodec (fill_preference vcodec ext (fill_exts vcodec acodec ext format)).

End SortStable.
