(* ===== verification/Selection.v ===== *)
(** * Selections ([internal/format/select.go], [objectSelection] of [selector.go])

    A [Selection] is what the downloaders get of a format: its fields are read
    from the prepared object, a field of another type or an absent one as the
    zero value.  Three groups of fields are validated while they are read: the
    allowed hosts of HLS, the evidence for the reuse of fragments, and the HTTP
    headers.

    [net.ParseIP] is modelled on IPv4 addresses; an IPv6 address has a colon,
    which the next test of [normalizeAllowedHost] rejects. *)
From S2P Require Import Prelude GoStrings Headers Runes Value FilterNumber Filter Decimal Float64 Regex SortSettings SortOptions Sorter SorterValues.

#[local] Open Scope Z_scope.

(** ** Data *)

Record FragmentEquivalence := mkEquivalence { eq_Kind : bytes; eq_Value : bytes; eq_Scope : bytes }.

Definition zeroEquivalence : FragmentEquivalence := mkEquivalence [] [] [].

Record Selection := mkSelection {
  sel_ID : bytes;
  sel_URL : bytes;
  sel_Ext : bytes;
  sel_Filesize : Z;
  sel_Protocol : bytes;
  sel_VCodec : bytes;
  sel_ACodec : bytes;
  sel_Width : Z;
  sel_Height : Z;
  sel_FPS : Z;
  sel_Language : bytes;
  sel_TBR : float64;
  sel_Headers : http_Header;
  sel_HTTPChunkSize : Z;
  sel_HTTPChunkFixed : bool;
  sel_CredentialIsolated : bool;
  sel_AssetPolicy : bytes;
  sel_CredentialIsolatedReferer : bytes;
  sel_HostPolicy : bytes;
  sel_NiconicoScoped : bool;
  sel_MediaPolicy : bytes;
  sel_AllowedHosts : list bytes;
  sel_FragmentResumeIdentity : bytes;
  sel_FragmentEquivalence : FragmentEquivalence;
  sel_FragmentKeyIdentity : bytes;
  sel_YouTubePostLive : bool;
  sel_YouTubeLiveFromStart : bool;
  sel_YouTubeItag : Z;
  sel_YouTubeClient : bytes;
  sel_YouTubeSourceURL : bytes;
  sel_YouTubeVideoID : bytes;
  sel_YouTubeDrc : bool;
  sel_YouTubeAudioTrackID : bytes;
  sel_TargetDuration : float64;
  sel_YouTubeSABR : bool;
  sel_YouTubeSABRTrack : bytes;
  sel_YouTubeSABRItag : Z;
  sel_YouTubeSABRLastModified : Z;
  sel_YouTubeSABRXTags : bytes;
  sel_YouTubeSABRServerURL : bytes;
  sel_YouTubeSABRUstreamerConfig : bytes;
  sel_YouTubeSABRClientID : Z;
  sel_YouTubeSABRClientVersion : bytes;
  sel_YouTubeSABRUserAgent : bytes;
  sel_YouTubeSABRVisitorData : bytes;
  sel_YouTubeSABRDurationSec : Z;
  sel_YouTubeSABRVideoID : bytes;
  sel_YouTubeSABRClientName : bytes;
  sel_YouTubeSABRDrc : bool;
  sel_YouTubeSABRAudioTrackID : bytes;
  sel_LiveStartTimestamp : Z;
  sel_sourceIndex : nat;
  sel_sourceKnown : bool;
  sel_normalizedIndex : nat;
  sel_normalizedKnown : bool
}.
#[global] Instance Selection_eta : Eta Selection := fun r =>
  mkSelection (sel_ID r) (sel_URL r) (sel_Ext r) (sel_Filesize r) (sel_Protocol r) (sel_VCodec r) (sel_ACodec r)
    (sel_Width r) (sel_Height r) (sel_FPS r) (sel_Language r) (sel_TBR r) (sel_Headers r)
    (sel_HTTPChunkSize r) (sel_HTTPChunkFixed r) (sel_CredentialIsolated r) (sel_AssetPolicy r)
    (sel_CredentialIsolatedReferer r) (sel_HostPolicy r) (sel_NiconicoScoped r) (sel_MediaPolicy r)
    (sel_AllowedHosts r) (sel_FragmentResumeIdentity r) (sel_FragmentEquivalence r)
    (sel_FragmentKeyIdentity r) (sel_YouTubePostLive r) (sel_YouTubeLiveFromStart r) (sel_YouTubeItag r)
    (sel_YouTubeClient r) (sel_YouTubeSourceURL r) (sel_YouTubeVideoID r) (sel_YouTubeDrc r)
    (sel_YouTubeAudioTrackID r) (sel_TargetDuration r) (sel_YouTubeSABR r) (sel_YouTubeSABRTrack r)
    (sel_YouTubeSABRItag r) (sel_YouTubeSABRLastModified r) (sel_YouTubeSABRXTags r)
    (sel_YouTubeSABRServerURL r) (sel_YouTubeSABRUstreamerConfig r) (sel_YouTubeSABRClientID r)
    (sel_YouTubeSABRClientVersion r) (sel_YouTubeSABRUserAgent r) (sel_YouTubeSABRVisitorData r)
    (sel_YouTubeSABRDurationSec r) (sel_YouTubeSABRVideoID r) (sel_YouTubeSABRClientName r)
    (sel_YouTubeSABRDrc r) (sel_YouTubeSABRAudioTrackID r) (sel_LiveStartTimestamp r) (sel_sourceIndex r)
    (sel_sourceKnown r) (sel_normalizedIndex r) (sel_normalizedKnown r).

(** ** Reading fields *)

Definition int_of (object : Object) (key : string) : Z := default 0 (Value_Int (Lookup object (lit key))).
Definition flag_of (object : Object) (key : string) : bool := default false (Value_Bool (Lookup object (lit key))).

Definition numeric (input : Value) : option float64 :=
  match Value_Int input with Some z => Some (f64_of_Z z) | None => Value_Float input end.

Definition number_of (object : Object) (key : string) : float64 :=
  default f64_zero (numeric (Lookup object (lit key))).

Definition formatHTTPChunkOptions (object : Object) : Z * bool :=
  match Lookup object (lit "downloader_options") with
  | VObject options => (int_of options "http_chunk_size", flag_of options "http_chunk_fixed")
  | _ => (0, false)
  end.

(** the fields that are copied as they are *)
Definition read_selection (object : Object) : Selection := {|
  sel_ID := text_of object "format_id";
  sel_URL := text_of object "url";
  sel_Ext := text_of object "ext";
  sel_Filesize := int_of object "filesize";
  sel_Protocol := text_of object "protocol";
  sel_VCodec := text_of object "vcodec";
  sel_ACodec := text_of object "acodec";
  sel_Width := int_of object "width";
  sel_Height := int_of object "height";
  sel_FPS := int_of object "fps";
  sel_Language := text_of object "language";
  sel_TBR := number_of object "tbr";
  sel_Headers := ∅;
  sel_HTTPChunkSize := (formatHTTPChunkOptions object).1;
  sel_HTTPChunkFixed := (formatHTTPChunkOptions object).2;
  sel_CredentialIsolated := flag_of object "_credential_isolated";
  sel_AssetPolicy := text_of object "_asset_policy";
  sel_CredentialIsolatedReferer := text_of object "_credential_isolated_referer";
  sel_HostPolicy := text_of object "_host_policy";
  sel_NiconicoScoped := flag_of object "_niconico_scoped";
  sel_MediaPolicy := text_of object "_media_policy";
  sel_AllowedHosts := [];
  sel_FragmentResumeIdentity := [];
  sel_FragmentEquivalence := zeroEquivalence;
  sel_FragmentKeyIdentity := [];
  sel_YouTubePostLive := flag_of object "_youtube_post_live";
  sel_YouTubeLiveFromStart := flag_of object "_youtube_live_from_start";
  sel_YouTubeItag := int_of object "_youtube_itag";
  sel_YouTubeClient := text_of object "_youtube_client";
  sel_YouTubeSourceURL := text_of object "_youtube_source_url";
  sel_YouTubeVideoID := text_of object "_youtube_video_id";
  sel_YouTubeDrc := flag_of object "_youtube_drc";
  sel_YouTubeAudioTrackID := text_of object "_youtube_audio_track_id";
  sel_TargetDuration := number_of object "target_duration";
  sel_YouTubeSABR := flag_of object "_youtube_sabr";
  sel_YouTubeSABRTrack := text_of object "_youtube_sabr_track";
  sel_YouTubeSABRItag := int_of object "_youtube_sabr_itag";
  sel_YouTubeSABRLastModified := int_of object "_youtube_sabr_last_modified";
  sel_YouTubeSABRXTags := text_of object "_youtube_sabr_xtags";
  sel_YouTubeSABRServerURL := text_of object "_youtube_sabr_server_url";
  sel_YouTubeSABRUstreamerConfig := text_of object "_youtube_sabr_ustreamer_config";
  sel_YouTubeSABRClientID := int_of object "_youtube_sabr_client_id";
  sel_YouTubeSABRClientVersion := text_of object "_youtube_sabr_client_version";
  sel_YouTubeSABRUserAgent := text_of object "_youtube_sabr_user_agent";
  sel_YouTubeSABRVisitorData := text_of object "_youtube_sabr_visitor_data";
  sel_YouTubeSABRDurationSec := int_of object "_youtube_sabr_duration_sec";
  sel_YouTubeSABRVideoID := text_of object "_youtube_sabr_video_id";
  sel_YouTubeSABRClientName := text_of object "_youtube_client";
  sel_YouTubeSABRDrc := flag_of object "_youtube_sabr_drc";
  sel_YouTubeSABRAudioTrackID := text_of object "_youtube_sabr_audio_track_id";
  sel_LiveStartTimestamp := int_of object "live_start_timestamp";
  sel_sourceIndex := 0;
  sel_sourceKnown := false;
  sel_normalizedIndex := 0;
  sel_normalizedKnown := false
|}%nat.

(** ** Fragment evidence *)

Section Reading.
Context {LT : UnicodeTables}.

Definition validFragmentProofDigest (value : bytes) : bool :=
  (zlen value =? 64) && bool_decide (value = ToLower value) &&
  forallb (fun c => match unhex c with Some _ => true | None => false end) value.

Definition token_rune (r : Z) : bool :=
  ascii_letter r || ascii_digit r || existsb (fun c => r =? b2z c) (lit "._:-").

Definition validFragmentProofToken (value : bytes) : bool :=
  if bool_decide (value = []) || (256 <? zlen value) then false
  else forallb token_rune (runes value) &&
       negb (bool_decide (value = lit ".")) && negb (bool_decide (value = lit "..")).

Definition equivalence_kinds : list bytes := [lit "provider-immutable"; lit "content-identity"].

Definition readFragmentEquivalence (object : Object) : res (bytes * FragmentEquivalence * bytes) :=
  let identity := text_of object "_fragment_resume_identity" in
  let kind := text_of object "_fragment_equivalence_kind" in
  let proofValue := text_of object "_fragment_equivalence_digest" in
  let scope := text_of object "_fragment_equivalence_scope_digest" in
  let keyIdentity := text_of object "_fragment_key_identity" in
  if forallb (fun s => bool_decide (s = [])) [identity; kind; proofValue; scope; keyIdentity]
  then Ok ([], zeroEquivalence, [])
  else if negb (validFragmentProofToken identity) then Err ErrInvalidFormats
  else if negb (bool_decide (kind ∈ equivalence_kinds)) then Err ErrInvalidFormats
  else if negb (validFragmentProofDigest proofValue) || negb (validFragmentProofDigest scope)
  then Err ErrInvalidFormats
  else if negb (bool_decide (keyIdentity = [])) && negb (validFragmentProofToken keyIdentity)
  then Err ErrInvalidFormats
  else Ok (identity, mkEquivalence kind proofValue scope, keyIdentity).

(** ** Allowed hosts *)

(** a field of an IPv4 address: no leading zero, at most 255 *)
Definition ip_field (s : bytes) : bool :=
  negb (bool_decide (s = [])) && forallb is_digit s && (digits_value s <=? 255) &&
  (bool_decide (s = lit "0") || negb (HasPrefix s (lit "0"))).

Definition is_ipv4 (host : bytes) : bool :=
  let parts := Split host "." in
  (length parts =? 4)%nat && forallb ip_field parts.

Definition dash : byte := "-"%byte.

Definition label_rune (r : Z) : bool := ascii_letter r || ascii_digit r || (r =? 45).

Definition label_ok (label : bytes) : bool :=
  negb (bool_decide (label = [])) && (zlen label <=? 63) &&
  negb (bool_decide (head label = Some dash)) && negb (bool_decide (last label = Some dash)) &&
  forallb label_rune (runes label).

Definition forbidden_in_host (c : byte) : bool :=
  any_of "/\:" c || is_byte x00 c || is_byte x0d c || is_byte x0a c.

Definition normalizeAllowedHost (host : option bytes) : option bytes :=
  match host with
  | None => None
  | Some host =>
      if bool_decide (host = []) || (253 <? zlen host) || negb (bool_decide (host = TrimSpace host)) || is_ipv4 host
      then None
      else if existsb IsSpace (runes host) || existsb forbidden_in_host host then None
      else if forallb label_ok (Split host ".") then Some (ToLower host) else None
  end.

Fixpoint read_hosts (values : list Value) (hosts : list bytes) : res (list bytes) :=
  match values with
  | [] => Ok hosts
  | rawHost :: values' =>
      match normalizeAllowedHost (StringValue rawHost) with
      | None => Err ErrInvalidFormats
      | Some host =>
          if bool_decide (host ∈ hosts) then Err ErrInvalidFormats else read_hosts values' (hosts ++ [host])
      end
  end.

Definition maxAllowedHosts : nat := 32.

Definition readAllowedHosts (object : Object) : res (list bytes) :=
  match Lookup object (lit "_allowed_hosts") with
  | Missing => Ok []
  | VList values =>
      if (length values =? 0)%nat || (maxAllowedHosts <? length values)%nat then Err ErrInvalidFormats
      else read_hosts values []
  | _ => Err ErrInvalidFormats
  end.

(** ** The selection of an object *)

Definition objectSelection (object : Object) : res Selection :=
  let selection := read_selection object in
  let selection := if bool_decide (sel_HostPolicy selection = [])
                   then selection <| sel_HostPolicy := text_of object "_ted_host_policy" |> else selection in
  hosts ← readAllowedHosts object;
  '(identity, equivalence, keyIdentity) ← readFragmentEquivalence object;
  let selection :=
    selection <| sel_AllowedHosts := hosts |> <| sel_FragmentResumeIdentity := identity |>
              <| sel_FragmentEquivalence := equivalence |> <| sel_FragmentKeyIdentity := keyIdentity |> in
  Ok (if sel_YouTubeSABR selection then selection <| sel_Protocol := lit "youtube_sabr_ump" |> else selection).

Definition SelectionFromObject (object : Object) : res Selection := objectSelection object.

End Reading.

Definition setSourceFormatIndex (selection : Selection) (index : nat) : Selection :=
  selection <| sel_sourceIndex := index |> <| sel_sourceKnown := true |>.

Definition setNormalizedFormatIndex (selection : Selection) (index : nat) : Selection :=
  selection <| sel_normalizedIndex := index |> <| sel_normalizedKnown := true |>.

(** ** Headers *)

Definition line_break (c : byte) : bool := is_byte x0d c || is_byte x0a c.

Fixpoint merge_fields (fs : list (Field Value)) (headers : http_Header) : res http_Header :=
  match fs with
  | [] => Ok headers
  | f :: fs' =>
      let name := CanonicalHeaderKey (Key f) in
      match StringValue (Val f) with
      | None => Err ErrInvalidHeaders
      | Some text =>
          if bool_decide (name = []) || existsb line_break (Key f ++ text) then Err ErrInvalidHeaders
          else merge_fields fs' (Header_Set headers name text)
      end
  end.

Fixpoint merge_collections (values : list Value) (headers : http_Header) : res http_Header :=
  match values with
  | [] => Ok headers
  | (Missing | Null) :: values' => merge_collections values' headers
  | VObject object :: values' =>
      headers ← merge_fields (fields object) headers;
      merge_collections values' headers
  | _ :: _ => Err ErrInvalidHeaders
  end.

Definition mergeHeaders (values : list Value) : res http_Header := merge_collections values ∅.
