(* ===== verification/SelectionFacts.v ===== *)
(** * Properties of selections

    The hosts of a selection are distinct DNS names in lower case, the tokens
    of its fragment evidence are names of files, and its headers are those of
    the last collection that sets them. *)
From S2P Require Import Prelude GoStrings Headers Runes Value FilterNumber Filter Decimal Float64 Regex SortSettings SortOptions Sorter SorterValues Selection.

#[local] Open Scope Z_scope.

Lemma forallb_Forall {A} (p : A -> bool) l : forallb p l = true <-> Forall (fun x => p x = true) l.
Proof.
  induction l as [|x l IH]; simpl; [done|]. by rewrite andb_true_iff, IH, Forall_cons.
Qed.

(** ** ASCII runes *)

Lemma low_bits_mod k c : 0 <= k -> low_bits k c = b2z c mod 2 ^ k.
Proof. intros K. unfold low_bits. by apply land_mask. Qed.

Lemma is_byte_false d c : is_byte d c = false -> b2z c <> b2z d.
Proof. intros E H%b2z_inj. subst. by rewrite is_byte_refl in E. Qed.

(** the rune of a byte beyond ASCII is beyond ASCII *)
Lemma DecodeRune_high c s : 0x80 <= b2z c -> 0x80 <= (DecodeRune (c :: s)).1.
Proof.
  intros H. unfold DecodeRune. rewrite (proj2 (Z.ltb_ge _ _) H).
  unfold in_range. pose proof (b2z_range c).
  repeat case_match; cbn [fst]; unfold RuneError; try lia;
    repeat match goal with E : _ && _ = true |- _ => apply andb_true_iff in E as [? ?] end;
    rewrite ?low_bits_mod by lia;
    repeat match goal with E : (_ <=? _) = true |- _ => apply Z.leb_le in E end;
    repeat match goal with E : (if ?b then _ else _) <= _ |- _ => destruct b eqn:? end;
    repeat match goal with E : _ <= (if ?b then _ else _) |- _ => destruct b eqn:? end;
    repeat match goal with E : is_byte ?d c = false |- _ =>
      apply is_byte_false in E; let z := eval vm_compute in (b2z d) in change (b2z d) with z in E end;
    divmod_lia.
Qed.

Lemma runes_cons c s : runes (c :: s) = (DecodeRune (c :: s)).1 :: runes_fuel (length s) (drop (DecodeRune (c :: s)).2 (c :: s)).
Proof. unfold runes. simpl length. simpl runes_fuel. by destruct (DecodeRune (c :: s)). Qed.

Lemma runes_ascii s : isASCII s = true -> runes s = map b2z s.
Proof.
  unfold isASCII. induction s as [|c s IH]; simpl; [done|]. intros [H%Z.ltb_lt A]%andb_true_iff.
  rewrite runes_cons, DecodeRune_ascii by done. simpl. f_equal. by rewrite <- IH.
Qed.

(** a test that only ASCII runes pass looks at the bytes *)
Lemma forallb_runes (p : Z -> bool) s :
  (forall r, p r = true -> r < 0x80) -> forallb p (runes s) = true ->
  isASCII s = true /\ forallb (fun c => p (b2z c)) s = true.
Proof.
  intros P. induction s as [|c s IH]; [done|]. rewrite runes_cons. simpl. intros [Hc Hs]%andb_true_iff.
  destruct (Z_lt_le_dec (b2z c) 0x80) as [L|L].
  - rewrite DecodeRune_ascii in Hc, Hs by done. simpl in *. destruct (IH Hs) as [A F].
    unfold isASCII in *. simpl. by rewrite A, Hc, F, (proj2 (Z.ltb_lt _ _) L).
  - apply P in Hc. pose proof (DecodeRune_high c s L). lia.
Qed.

Lemma forallb_runes_back (p : Z -> bool) s :
  isASCII s = true -> forallb p (runes s) = forallb (fun c => p (b2z c)) s.
Proof. intros A. rewrite runes_ascii by done. clear. induction s as [|c s IH]; simpl; [done|]. by rewrite IH. Qed.

Lemma label_rune_ascii r : label_rune r = true -> r < 0x80.
Proof. unfold label_rune, ascii_letter, ascii_digit. intros H. reflect_bools. lia. Qed.

Lemma token_rune_ascii r : token_rune r = true -> r < 0x80.
Proof.
  unfold token_rune, ascii_letter, ascii_digit. simpl. intros H. vm_compute (b2z _) in H. reflect_bools. lia.
Qed.

(** ** Names in lower case *)

Definition host_byte (c : byte) : bool :=
  (97 <=? b2z c) && (b2z c <=? 122) || is_digit c || is_byte dash c.

(** a label of a DNS name, in lower case *)
Definition dns_label (label : bytes) : Prop :=
  1 <= zlen label <= 63 /\ forallb host_byte label = true /\
  head label <> Some dash /\ last label <> Some dash.

Definition dns_name (host : bytes) : Prop :=
  1 <= zlen host <= 253 /\ Forall dns_label (Split host ".") /\ is_ipv4 host = false.

Lemma lower_label_byte c : label_rune (b2z c) = true -> host_byte (lower_byte c) = true.
Proof. by destruct c. Qed.

Lemma lower_dash c : lower_byte c = dash -> c = dash.
Proof. by destruct c. Qed.

Lemma lower_digit c : is_digit (lower_byte c) = is_digit c.
Proof. by destruct c. Qed.

Lemma lower_dot c : is_byte "." (lower_byte c) = is_byte "." c.
Proof. by destruct c. Qed.

Lemma host_byte_label c : host_byte c = true -> label_rune (b2z c) = true /\ lower_byte c = c /\ b2z c <? 128 = true.
Proof. by destruct c. Qed.

Lemma host_byte_plain c :
  host_byte c || is_byte "." c = true -> IsSpace (b2z c) = false /\ forbidden_in_host c = false /\ b2z c <? 128 = true.
Proof. destruct c; vm_compute; intros [=]; done. Qed.

Lemma Split_map_lower s : Split (map lower_byte s) "." = map (map lower_byte) (Split s ".").
Proof.
  induction s as [|c s IH]; simpl; [done|]. rewrite lower_dot, IH. destruct (is_byte _ c); [done|].
  by destruct (Split s ".").
Qed.

(** a byte is in a part or it is the separator *)
Lemma Split_forallb (p : byte -> bool) s :
  Forall (fun part => forallb p part = true) (Split s ".") -> forallb (fun c => p c || is_byte "." c) s = true.
Proof.
  induction s as [|c s IH]; simpl; [done|]. destruct (is_byte "." c) eqn:E.
  - intros [_ H]%Forall_cons_1. rewrite orb_true_r. by apply IH.
  - rewrite orb_false_r. destruct (Split s ".") as [|h t]; intros [H F]%Forall_cons_1.
    + simpl in H. rewrite andb_true_r in H. rewrite H. by apply IH.
    + simpl in H. apply andb_true_iff in H as [-> H]. apply IH. by constructor.
Qed.

Lemma label_ok_ascii label : label_ok label = true ->
  isASCII label = true /\ forallb (fun c => label_rune (b2z c)) label = true.
Proof. unfold label_ok. intros [_ H]%andb_true_iff. by apply forallb_runes in H; [|apply label_rune_ascii]. Qed.

Lemma head_lower l : head (map lower_byte l) = Some dash -> head l = Some dash.
Proof. destruct l; simpl; [done|]. intros [= H%lower_dash]. by subst. Qed.

Lemma last_lower l : last (map lower_byte l) = Some dash -> last l = Some dash.
Proof. rewrite (fmap_last lower_byte l : last (map lower_byte l) = _). destruct (last l) as [c|]; simpl; [|done]. intros [= H%lower_dash]. by subst. Qed.

Lemma label_ok_dns label : label_ok label = true -> dns_label (map lower_byte label).
Proof.
  intros H. destruct (label_ok_ascii _ H) as [_ F]. unfold label_ok in H. reflect_bools.
  unfold dns_label, zlen in *. rewrite length_map. split_and!.
  - destruct label; [done|]. simpl. lia.
  - done.
  - clear - F. induction label as [|c l IH]; simpl in *; [done|]. apply andb_true_iff in F as [Fc F].
    by rewrite lower_label_byte, IH.
  - by intros ?%head_lower.
  - by intros ?%last_lower.
Qed.

Lemma host_bytes_ascii label : forallb host_byte label = true ->
  isASCII label = true /\ map lower_byte label = label /\ forallb (fun c => label_rune (b2z c)) label = true.
Proof.
  unfold isASCII. induction label as [|c l IH]; simpl; [done|]. intros [(L & E & A)%host_byte_label F]%andb_true_iff.
  destruct (IH F) as (A' & E' & L'). by rewrite A, A', E, E', L, L'.
Qed.

Lemma dns_label_ok label : dns_label label -> label_ok label = true.
Proof.
  intros (R & F & H1 & H2). destruct (host_bytes_ascii _ F) as (A & _ & L). unfold label_ok.
  rewrite (forallb_runes_back label_rune) by done. rewrite L, !bool_decide_false; [|done|done|].
  - rewrite (proj2 (Z.leb_le _ _)); [done|lia].
  - intros ->. unfold zlen in R. simpl in R. lia.
Qed.

Lemma ip_field_lower s : ip_field (map lower_byte s) = true -> map lower_byte s = s.
Proof.
  unfold ip_field. rewrite !andb_true_iff. intros [[[_ D] _] _]. clear - D.
  induction s as [|c s IH]; simpl in *; [done|]. rewrite lower_digit in D. apply andb_true_iff in D as [Dc D].
  rewrite IH by done. f_equal. clear - Dc. by destruct c.
Qed.

Lemma is_ipv4_lower s : is_ipv4 (map lower_byte s) = true -> is_ipv4 s = true.
Proof.
  unfold is_ipv4. rewrite Split_map_lower, length_map, !andb_true_iff. intros [-> F]. split; [done|].
  induction (Split s ".") as [|h t IH]; simpl in *; [done|]. apply andb_true_iff in F as [Fh F].
  rewrite (IH F). rewrite (ip_field_lower _ Fh) in Fh. by rewrite Fh.
Qed.

(** ** Spaces *)

Definition no_space (s : bytes) : bool := forallb (fun c => (b2z c <? 128) && negb (IsSpace (b2z c))) s.

Lemma trim_right_none fuel s : no_space s = true -> trim_right_fuel IsSpace fuel s = s.
Proof.
  destruct fuel as [|n], s as [|c s]; try done. intros H. simpl trim_right_fuel.
  assert (E : DecodeLastRune (c :: s) = (b2z (List.last (c :: s) c), 1%nat) /\ IsSpace (b2z (List.last (c :: s) c)) = false).
  { destruct (last (c :: s)) as [d|] eqn:L; [|by apply last_None in L].
    assert (D : List.last (c :: s) c = d) by (apply last_Some in L as [l ->]; by rewrite List.last_last).
    assert (I : d ∈ c :: s) by (apply last_Some in L as [l ->]; apply elem_of_app; right; apply list_elem_of_here).
    unfold no_space in H. rewrite forallb_forall in H. specialize (H d (proj1 (list_elem_of_In _ _) I)).
    apply andb_true_iff in H as [A S]. unfold DecodeLastRune. rewrite L, D, A. split; [done|].
    by apply negb_true_iff. }
  destruct E as [-> ->]. done.
Qed.

Lemma TrimSpace_none s : no_space s = true -> TrimSpace s = s.
Proof.
  intros H. unfold TrimSpace, TrimLeftFunc, TrimRightFunc. rewrite prefix_len_0.
  - rewrite drop_0. by apply trim_right_none.
  - destruct s as [|c s]; [done|]. simpl in H. apply andb_true_iff in H as [[A S]%andb_true_iff _].
    rewrite DecodeRune_ascii by (by apply Z.ltb_lt). by apply negb_true_iff.
Qed.

(** ** Allowed hosts *)

Section Hosts.
Context {LT : UnicodeTables}.

Lemma dns_bytes host : Forall dns_label (Split host ".") ->
  forallb (fun c => host_byte c || is_byte "." c) host = true.
Proof. intros F. apply Split_forallb. eapply Forall_impl; [exact F|]. by intros l (_ & ? & _). Qed.

(** what the bytes of a DNS name give *)
Lemma dns_plain host : forallb (fun c => host_byte c || is_byte "." c) host = true ->
  isASCII host = true /\ no_space host = true /\ existsb forbidden_in_host host = false /\ map lower_byte host = host.
Proof.
  unfold isASCII, no_space. induction host as [|c s IH]; simpl; [done|]. intros [H F]%andb_true_iff.
  destruct (IH F) as (-> & -> & -> & ->). destruct (host_byte_plain _ H) as (-> & -> & ->).
  split_and!; try done. f_equal. apply orb_true_iff in H as [H|H%is_byte_true]; [|by subst].
  by apply host_byte_label.
Qed.

Lemma normalize_dns host : dns_name host -> normalizeAllowedHost (Some host) = Some host.
Proof.
  intros (R & F & I). destruct (dns_plain host (dns_bytes host F)) as (A & N & B & L).
  unfold normalizeAllowedHost. rewrite (TrimSpace_none host N), I, B.
  rewrite (bool_decide_false (host = [])), (bool_decide_true (host = host)), (proj2 (Z.ltb_ge 253 _)).
  - simpl. rewrite orb_false_r. assert (S : existsb IsSpace (runes host) = false).
    { rewrite runes_ascii by done. clear - N. unfold no_space in N. induction host as [|c s IH]; simpl in *; [done|].
      apply andb_true_iff in N as [[_ S%negb_true_iff]%andb_true_iff N]. by rewrite S, IH. }
    rewrite S. assert (G : forallb label_ok (Split host ".") = true).
    { apply forallb_Forall. eapply Forall_impl; [exact F|]. apply dns_label_ok. }
    rewrite G. unfold ToLower. by rewrite A, L.
  - lia.
  - done.
  - intros ->. unfold zlen in R. simpl in R. lia.
Qed.

Lemma normalize_accepts host h : normalizeAllowedHost host = Some h -> dns_name h.
Proof.
  unfold normalizeAllowedHost. destruct host as [host|]; [|done].
  case_match eqn:E1; [done|]. case_match eqn:E2; [done|]. case_match eqn:F; [|done]. intros [= <-]. reflect_bools.
  assert (A : isASCII host = true).
  { unfold isASCII. rewrite forallb_forall. intros c Hc.
    assert (P : forallb (fun c => (b2z c <? 128) || is_byte "." c) host = true).
    { apply Split_forallb. apply forallb_Forall in F. eapply Forall_impl; [exact F|].
      intros l Hl. by apply label_ok_ascii in Hl as [? _]. }
    rewrite forallb_forall in P. specialize (P c Hc). by destruct c. }
  unfold ToLower. rewrite A. unfold dns_name, zlen in *. rewrite length_map, Split_map_lower. split_and!.
  - destruct host; [done|]. simpl. lia.
  - lia.
  - apply Forall_fmap. apply forallb_Forall in F. eapply Forall_impl; [exact F|]. apply label_ok_dns.
  - destruct (is_ipv4 (map lower_byte host)) eqn:I; [|done]. apply is_ipv4_lower in I. congruence.
Qed.

Lemma read_hosts_sound values hosts out :
  NoDup hosts -> Forall dns_name hosts -> read_hosts values hosts = Ok out ->
  NoDup out /\ Forall dns_name out /\ length out = (length hosts + length values)%nat.
Proof.
  revert hosts. induction values as [|v values IH]; intros hosts ND F; simpl.
  { intros <-%Ok_inj. split_and!; [done..|lia]. }
  destruct (normalizeAllowedHost _) as [host|] eqn:E; [|done]. case_bool_decide as M; [done|]. intros H.
  apply IH in H as (N & D & L).
  - split_and!; [done..|]. rewrite L, length_app. simpl. lia.
  - apply NoDup_app. split_and!; [done| |apply NoDup_singleton].
    intros x Hx ->%list_elem_of_singleton. done.
  - apply Forall_app. split; [done|]. constructor; [by eapply normalize_accepts|done].
Qed.

Lemma allowed_hosts_sound object hosts :
  readAllowedHosts object = Ok hosts ->
  NoDup hosts /\ (length hosts <= maxAllowedHosts)%nat /\
  Forall (fun h => dns_name h /\ normalizeAllowedHost (Some h) = Some h) hosts /\
  (hosts = [] <-> Lookup object (lit "_allowed_hosts") = Missing).
Proof.
  unfold readAllowedHosts. destruct (Lookup object _) eqn:E; try done.
  { intros <-%Ok_inj. split_and!; [constructor|simpl; lia|constructor|done]. }
  destruct (_ || _) eqn:B; [done|]. intros H. apply read_hosts_sound in H as (N & D & L); [|constructor..].
  reflect_bools. simpl in L. split_and!; [done|lia| |].
  - eapply Forall_impl; [exact D|]. intros h Hh. split; [done|]. by apply normalize_dns.
  - split; [intros ->; simpl in L; lia|done].
Qed.


(** ** Fragment evidence *)

Definition token_byte (c : byte) : bool :=
  is_alpha c || is_digit c || any_of "._:-" c.

(** a name that can stand for a file in a directory *)
Definition file_name (s : bytes) : Prop :=
  1 <= zlen s <= 256 /\ forallb token_byte s = true /\ s <> lit "." /\ s <> lit "..".

Definition lower_hex (s : bytes) : Prop :=
  zlen s = 64 /\ forallb (fun c => is_digit c || (97 <=? b2z c) && (b2z c <=? 102)) s = true.

Lemma token_rune_byte c : token_rune (b2z c) = token_byte c.
Proof. by destruct c. Qed.

Lemma proof_token value : validFragmentProofToken value = true -> file_name value.
Proof.
  unfold validFragmentProofToken. case_match eqn:E; [done|]. intros H. reflect_bools.
  apply forallb_runes in H as [_ F]; [|apply token_rune_ascii]. split_and!; try done.
  - destruct value; [done|]. unfold zlen. simpl. lia.
  - rewrite <- F. clear. induction value as [|c s IH]; simpl; [done|]. by rewrite token_rune_byte, IH.
Qed.

Lemma lower_hex_byte c d : lower_byte c = c -> unhex c = Some d ->
  is_digit c || (97 <=? b2z c) && (b2z c <=? 102) = true.
Proof. by destruct c. Qed.

Lemma proof_digest value : validFragmentProofDigest value = true -> lower_hex value.
Proof.
  unfold validFragmentProofDigest. intros H. reflect_bools. split; [done|].
  assert (A : isASCII value = true).
  { unfold isASCII. apply forallb_Forall. apply forallb_Forall in H0. eapply Forall_impl; [exact H0|].
    intros c. by destruct c. }
  unfold ToLower in *. rewrite A in *. clear - H0 H1. symmetry in H1.
  induction value as [|c s IH]; simpl in *; [done|]. injection H1 as E1 E2. apply andb_true_iff in H0 as [U F].
  rewrite (IH E2 F), andb_true_r. destruct (unhex c) as [d|] eqn:E; [|done]. by eapply lower_hex_byte.
Qed.

Definition evidence_ok (s : Selection) : Prop :=
  let e := sel_FragmentEquivalence s in
  file_name (sel_FragmentResumeIdentity s) /\ eq_Kind e ∈ equivalence_kinds /\
  lower_hex (eq_Value e) /\ lower_hex (eq_Scope e) /\
  (sel_FragmentKeyIdentity s = [] \/ file_name (sel_FragmentKeyIdentity s)).

Definition no_evidence (s : Selection) : Prop :=
  sel_FragmentResumeIdentity s = [] /\ sel_FragmentEquivalence s = zeroEquivalence /\ sel_FragmentKeyIdentity s = [].

Lemma fragment_evidence_sound object identity e key :
  readFragmentEquivalence object = Ok (identity, e, key) ->
  (identity = [] /\ e = zeroEquivalence /\ key = []) \/
  (file_name identity /\ eq_Kind e ∈ equivalence_kinds /\ lower_hex (eq_Value e) /\ lower_hex (eq_Scope e) /\
   (key = [] \/ file_name key)).
Proof.
  unfold readFragmentEquivalence. case_match; [intros [= <- <- <-]; by left|].
  do 3 (case_match; [done|]). case_match eqn:K; [done|]. intros [= <- <- <-]. right. reflect_bools. simpl.
  split_and!; auto using proof_token, proof_digest.
  apply andb_false_iff in K as [K|K]; reflect_bools; auto using proof_token.
Qed.

(** C23. A selection that is built has validated fields: its hosts are at most 32
    distinct DNS names in lower case, no addresses, in the form that the check
    gives them, and there is none exactly when the format names none; its
    fragment evidence is absent altogether or complete, with identities that are
    names of files and digests of 64 lower-case hexadecimal digits; a SABR
    format has the protocol of the SABR downloader. *)
Theorem selection_validated object s :
  objectSelection object = Ok s ->
  let hosts := sel_AllowedHosts s in
  (NoDup hosts /\ (length hosts <= maxAllowedHosts)%nat /\
   Forall (fun h => dns_name h /\ normalizeAllowedHost (Some h) = Some h) hosts /\
   (hosts = [] <-> Lookup object (lit "_allowed_hosts") = Missing)) /\
  (no_evidence s \/ evidence_ok s) /\
  sel_ID s = text_of object "format_id" /\ sel_URL s = text_of object "url" /\
  sel_Protocol s = (if flag_of object "_youtube_sabr" then lit "youtube_sabr_ump" else text_of object "protocol").
Proof.
  unfold objectSelection. intros (hosts & Hh & ([[identity e] key] & He & H)%bind_Ok_iff)%bind_Ok_iff.
  apply Ok_inj in H as <-. apply allowed_hosts_sound in Hh. apply fragment_evidence_sound in He.
  set (s0 := if bool_decide _ then _ else _).
  assert (S0 : sel_ID s0 = text_of object "format_id" /\ sel_URL s0 = text_of object "url" /\
               sel_Protocol s0 = text_of object "protocol" /\ sel_YouTubeSABR s0 = flag_of object "_youtube_sabr")
    by (subst s0; by destruct (bool_decide _)).
  clearbody s0. destruct S0 as (<- & <- & <- & <-). destruct s0. simpl. destruct sel_YouTubeSABR; (split; [exact Hh|split; [exact He|done]]).
Qed.

End Hosts.

(** ** Merged headers *)

(** a header field that may be sent *)
Definition header_ok (f : Field Value) : bool :=
  match StringValue (Val f) with
  | Some text => negb (bool_decide (CanonicalHeaderKey (Key f) = [])) && negb (existsb line_break (Key f ++ text))
  | None => false
  end.

Definition collection_ok (v : Value) : bool :=
  match v with
  | Missing | Null => true
  | VObject object => forallb header_ok (fields object)
  | _ => false
  end.

Definition header_fields (v : Value) : list (Field Value) :=
  match v with VObject object => fields object | _ => [] end.

(** the texts that fields give to a header, in order *)
Definition header_texts (name : bytes) (fs : list (Field Value)) : list bytes :=
  omap (fun f => if bool_decide (CanonicalHeaderKey (Key f) = name) then StringValue (Val f) else None) fs.

(** the values of a header behind some fields *)
Definition values_after (old : option (list bytes)) (texts : list bytes) : option (list bytes) :=
  match last texts with Some text => Some [text] | None => old end.

Lemma values_after_cons old text texts : values_after old (text :: texts) = values_after (Some [text]) texts.
Proof. unfold values_after. rewrite last_cons. by destruct (last texts). Qed.

Lemma header_texts_app name fs gs : header_texts name (fs ++ gs) = header_texts name fs ++ header_texts name gs.
Proof. apply omap_app. Qed.

Lemma values_after_app old a b : values_after old (a ++ b) = values_after (values_after old a) b.
Proof. unfold values_after. rewrite last_app. by destruct (last b). Qed.

Lemma merge_fields_spec fs headers h :
  merge_fields fs headers = Ok h <->
  forallb header_ok fs = true /\ forall name, h !! name = values_after (headers !! name) (header_texts name fs).
Proof.
  revert headers. induction fs as [|f fs IH]; intros headers; simpl.
  { split; [intros <-%Ok_inj; by split|]. intros [_ H]. f_equal. apply map_eq. intros name. by rewrite H. }
  unfold header_ok at 1. destruct (StringValue (Val f)) as [text|] eqn:T; [|naive_solver].
  rewrite <- negb_orb. destruct (_ || _) eqn:B; simpl; [naive_solver|].
  rewrite IH. apply and_iff_compat_l, forall_proper. intros name.
  unfold Header_Set. rewrite CanonicalHeaderKey_idem. rewrite lookup_insert.
  unfold header_texts. simpl. destruct (decide (CanonicalHeaderKey (Key f) = name)) as [E|E].
  - by rewrite bool_decide_true, values_after_cons by done.
  - by rewrite bool_decide_false by done.
Qed.

Lemma merge_collections_spec values headers h :
  merge_collections values headers = Ok h <->
  forallb collection_ok values = true /\
  forall name, h !! name = values_after (headers !! name) (header_texts name (flat_map header_fields values)).
Proof.
  revert headers. induction values as [|v values IH]; intros headers; simpl.
  { split; [intros <-%Ok_inj; by split|]. intros [_ H]. f_equal. apply map_eq. intros name. by rewrite H. }
  destruct v; simpl; try (exact (IH headers)); try (split; [discriminate|by intros [[=] _]]). rewrite bind_Ok_iff, andb_true_iff. split.
  - intros (h1 & [F H1]%merge_fields_spec & [C H]%IH). split_and!; [done..|].
    intros name. by rewrite header_texts_app, values_after_app, H, H1.
  - intros [[F C] H].
    destruct (merge_fields (fields o) headers) as [h1|e] eqn:M.
    + exists h1. split; [done|]. apply IH. split; [done|]. intros name.
      apply merge_fields_spec in M as [_ M]. by rewrite H, header_texts_app, values_after_app, M.
    + exfalso. clear - F M. revert headers M. induction (fields o) as [|f fs IHf]; intros headers; simpl in *; [done|].
      apply andb_true_iff in F as [Ff F]. unfold header_ok in Ff. destruct (StringValue (Val f)) as [text|]; [|done].
      rewrite <- negb_orb in Ff. apply negb_true_iff in Ff. rewrite Ff. by apply IHf.
Qed.

(** Merging succeeds exactly when every collection is absent or an object whose
    fields have a name, a text and no line break in either, and then a header
    has the one text that the last field with its name gives it: later
    collections override earlier ones, and no header is injected. *)
Theorem headers_merged values h :
  mergeHeaders values = Ok h <->
  forallb collection_ok values = true /\
  forall name, h !! name = (fun text => [text]) <$> last (header_texts name (flat_map header_fields values)).
Proof.
  unfold mergeHeaders. rewrite merge_collections_spec. apply and_iff_compat_l, forall_proper. intros name.
  rewrite lookup_empty. unfold values_after. by destruct (last _).
Qed.

(** ** A small format *)

Section Sample.
#[local] Instance sample_lower_tables : UnicodeTables := {| unicode_lower := id |}.

Definition hls_format : Object :=
  NewObject [mkField (lit "format_id") (VString (lit "hls"));
             mkField (lit "url") (VString (lit "https://cdn.example/a.m3u8"));
             mkField (lit "protocol") (VString (lit "m3u8_native"));
             mkField (lit "_allowed_hosts") (VList [VString (lit "CDN.example"); VString (lit "cdn-2.example")]);
             mkField (lit "_fragment_resume_identity") (VString (lit "clip:1"));
             mkField (lit "_fragment_equivalence_kind") (VString (lit "content-identity"));
             mkField (lit "_fragment_equivalence_digest") (VString (repeat "a"%byte 64));
             mkField (lit "_fragment_equivalence_scope_digest") (VString (repeat "0"%byte 64))].

Definition hls_selection : Selection := from_Ok (read_selection hls_format) (objectSelection hls_format).

Example hls_hosts : sel_AllowedHosts hls_selection = [lit "cdn.example"; lit "cdn-2.example"].
Proof. vm_compute. reflexivity. Qed.

Lemma selection_validated_witness :
  (no_evidence hls_selection \/ evidence_ok hls_selection) /\ NoDup (sel_AllowedHosts hls_selection).
Proof.
  destruct (selection_validated hls_format hls_selection) as ((N & _) & E & _).
  { apply from_Ok_eq. vm_compute. reflexivity. }
  by split.
Defined.

End Sample.
