(* ===== verification/Ordering.v ===== *)
(** * Comparison functions and stable sorting

    A comparison function is a total preorder on the values that satisfy a
    predicate ([preorder_on]); preorders compose lexicographically.  A list has
    exactly one stable sorting by such a function, and [sort_stable] computes it. *)
From S2P Require Import Prelude GoStrings Value Sorter SorterValues.
From Stdlib Require Import Sorting.Sorted Sorting.Permutation.

#[local] Open Scope Z_scope.

(** ** Total preorders *)

Record preorder_on {A} (P : A -> Prop) (cmp : A -> A -> comparison) : Prop := {
  po_flip x y : P x -> P y -> cmp y x = CompOpp (cmp x y);
  po_eq x y z : P x -> P y -> P z -> cmp x y = Eq -> cmp x z = cmp y z;
  po_lt x y z : P x -> P y -> P z -> cmp x y = Lt -> cmp y z = Lt -> cmp x z = Lt
}.

Definition lex (c d : comparison) : comparison := match c with Eq => d | _ => c end.

Section Preorders.
Context {A : Type} {P : A -> Prop}.

Lemma preorder_Z (f : A -> Z) : preorder_on P (fun x y => f x ?= f y).
Proof.
  split.
  - intros x y _ _. apply Z.compare_antisym.
  - intros x y z _ _ _ ->%Z.compare_eq. done.
  - intros x y z _ _ _. rewrite !Z.compare_lt_iff. lia.
Qed.

Lemma preorder_pull {B} {Q : B -> Prop} (f : A -> B) cmp :
  preorder_on Q cmp -> (forall x, P x -> Q (f x)) -> preorder_on P (fun x y => cmp (f x) (f y)).
Proof.
  intros O F. split; intros.
  - apply (po_flip _ _ O); auto.
  - by apply (po_eq _ _ O); auto.
  - by apply (po_lt _ _ O) with (f y); auto.
Qed.

Lemma preorder_ext cmp cmp' :
  (forall x y, P x -> P y -> cmp x y = cmp' x y) -> preorder_on P cmp -> preorder_on P cmp'.
Proof.
  intros E O. split; intros; rewrite <- ?E in * by done.
  - by apply (po_flip _ _ O).
  - by apply (po_eq _ _ O).
  - by apply (po_lt _ _ O) with y.
Qed.

(** the second comparison may depend on what the first compares *)
Lemma preorder_lex {K} (k : A -> K) cmp1 cmp2 :
  preorder_on P cmp1 -> (forall c, preorder_on P (cmp2 c)) ->
  (forall x y, P x -> P y -> cmp1 x y = Eq -> k x = k y) ->
  preorder_on P (fun x y => lex (cmp1 x y) (cmp2 (k x) x y)).
Proof.
  intros O1 O2 I. split.
  - intros x y X Y. pose proof (po_flip _ _ O1 x y X Y) as F. rewrite F.
    destruct (cmp1 x y) eqn:E; simpl; try done.
    rewrite <- (I x y) by done. by apply (po_flip _ _ (O2 (k x))).
  - intros x y z X Y Z. destruct (cmp1 x y) eqn:E; try done. simpl. intros E2.
    rewrite (po_eq _ _ O1 x y z) by done. rewrite (I x y) by done.
    rewrite (I x y) in E2 by done. destruct (cmp1 y z); simpl; try done.
    by apply (po_eq _ _ (O2 (k y))).
  - intros x y z X Y Z. destruct (cmp1 x y) eqn:E; simpl; try done.
    + intros L. rewrite (po_eq _ _ O1 x y z) by done.
      destruct (cmp1 y z) eqn:E'; simpl; try done. rewrite (I x y) in * by done.
      by apply (po_lt _ _ (O2 (k y))).
    + intros _. destruct (cmp1 y z) eqn:E'; simpl; try done.
      * pose proof (po_flip _ _ O1 z y Z Y) as F. pose proof (po_flip _ _ O1 y z Y Z) as F'.
        rewrite E' in F'. simpl in F'.
        assert (T : cmp1 z x = cmp1 y x) by by apply (po_eq _ _ O1).
        rewrite (po_flip _ _ O1 z x Z X), T, (po_flip _ _ O1 x y X Y), E. done.
      * by rewrite (po_lt _ _ O1 x y z).
Qed.

Lemma preorder_lex2 cmp1 cmp2 :
  preorder_on P cmp1 -> preorder_on P cmp2 -> preorder_on P (fun x y => lex (cmp1 x y) (cmp2 x y)).
Proof. intros O1 O2. by apply (preorder_lex (fun _ => tt) cmp1 (fun _ => cmp2)). Qed.

Context (cmp : A -> A -> comparison) (O : preorder_on P cmp).

Lemma po_refl x : P x -> cmp x x = Eq.
Proof. intros X. pose proof (po_flip _ _ O x x X X). by destruct (cmp x x). Qed.

Lemma po_sym x y : P x -> P y -> cmp x y = Eq -> cmp y x = Eq.
Proof. intros X Y E. rewrite (po_flip _ _ O x y X Y), E. done. Qed.

Lemma po_gt x y : P x -> P y -> cmp x y = Gt <-> cmp y x = Lt.
Proof. intros X Y. rewrite (po_flip _ _ O x y X Y). by destruct (cmp x y). Qed.

Lemma po_le x y z : P x -> P y -> P z -> cmp x y <> Gt -> cmp y z <> Gt -> cmp x z <> Gt.
Proof.
  intros X Y Z. destruct (cmp x y) eqn:E; [|intros _|done].
  - intros _. by rewrite (po_eq _ _ O x y z).
  - destruct (cmp y z) eqn:E'; [|by rewrite (po_lt _ _ O x y z)|done].
    intros _. rewrite (po_flip _ _ O z x Z X). rewrite (po_eq _ _ O z y x) by (done || by apply po_sym).
    by rewrite (po_flip _ _ O x y X Y), E.
Qed.

End Preorders.

(** ** Lists, lexicographically *)

Section Lists.
Context {A : Type} (P : A -> Prop) (cmp : A -> A -> comparison).

Fixpoint list_compare (l r : list A) : comparison :=
  match l, r with
  | [], [] => Eq
  | [], _ => Lt
  | _, [] => Gt
  | x :: l', y :: r' => lex (cmp x y) (list_compare l' r')
  end.

Lemma preorder_list : preorder_on P cmp -> preorder_on (Forall P) list_compare.
Proof.
  intros O. split.
  - induction x as [|a x IH]; intros [|b y] X Y; try done. simpl.
    apply Forall_cons in X as [? X]. apply Forall_cons in Y as [? Y].
    rewrite (po_flip _ _ O a b) by done. destruct (cmp a b); simpl; auto.
  - induction x as [|a x IH]; intros [|b y] [|c z] X Y Z; try done; simpl.
    apply Forall_cons in X as [? X], Y as [? Y], Z as [? Z].
    destruct (cmp a b) eqn:E; try done. simpl. intros L.
    rewrite (po_eq _ _ O a b c) by done. destruct (cmp b c); simpl; auto.
  - induction x as [|a x IH]; intros [|b y] [|c z] X Y Z; try done; simpl.
    apply Forall_cons in X as [? X], Y as [? Y], Z as [? Z].
    destruct (cmp a b) eqn:E; simpl; try done.
    + rewrite (po_eq _ _ O a b c) by done. destruct (cmp b c); simpl; eauto.
    + intros _. destruct (cmp b c) eqn:E'; simpl; try done.
      * rewrite (po_flip _ _ O c a), (po_eq _ _ O c b a), (po_flip _ _ O a b), E;
          try done; by apply (po_sym cmp O).
      * by rewrite (po_lt _ _ O a b c).
Qed.

End Lists.

(** ** Stable sorting *)

Section Stable.
Context {A : Type} (P : A -> Prop) (cmp : A -> A -> comparison) (O : preorder_on P cmp).

Definition less (x y : A) : bool := match cmp x y with Lt => true | _ => false end.
Definition same (x y : A) : bool := match cmp x y with Eq => true | _ => false end.
Definition ascending : list A -> Prop := StronglySorted (fun x y => cmp x y <> Gt).

Lemma less_true x y : less x y = true <-> cmp x y = Lt.
Proof. unfold less. by destruct (cmp x y). Qed.

Lemma insert_Permutation x l : Permutation (x :: l) (insert_stable less x l).
Proof.
  induction l as [|y l IH]; simpl; [done|]. destruct (less y x); [|done].
  etrans; [apply perm_swap|]. by constructor.
Qed.

Lemma sort_Permutation l : Permutation l (sort_stable less l).
Proof.
  induction l as [|x l IH]; simpl; [done|]. etrans; [|apply insert_Permutation]. by constructor.
Qed.

Lemma Forall_Permutation (l l' : list A) : Permutation l l' -> Forall P l -> Forall P l'.
Proof. by intros ->. Qed.

Lemma insert_ascending x l : P x -> Forall P l -> ascending l -> ascending (insert_stable less x l).
Proof.
  intros X. induction 1 as [|y l Y F IH]; intros S; simpl; [repeat constructor|].
  apply StronglySorted_inv in S as [S B]. destruct (less y x) eqn:L.
  - constructor; [by apply IH|]. apply less_true in L. rewrite <- (insert_Permutation x l).
    constructor; [by rewrite L|done].
  - constructor; [by constructor|].
    assert (C : cmp x y <> Gt).
    { rewrite (po_gt cmp O x y) by done. intros E. by rewrite (proj2 (less_true _ _) E) in L. }
    constructor; [done|]. rewrite List.Forall_forall in *. intros z I. by apply (po_le cmp O x y z); auto.
Qed.

Lemma sort_ascending l : Forall P l -> ascending (sort_stable less l).
Proof.
  induction 1 as [|x l X F IH]; simpl; [constructor|]. apply insert_ascending; [done| |done].
  by rewrite <- sort_Permutation.
Qed.

(** the elements that tie with [z] keep their order *)
Lemma insert_ties z x l : P z -> P x -> Forall P l ->
  List.filter (same z) (insert_stable less x l) = List.filter (same z) (x :: l).
Proof.
  intros Z X. induction 1 as [|y l Y F IH]; simpl; [done|].
  destruct (less y x) eqn:L; [|done]. simpl in *. rewrite IH. apply less_true in L. unfold same.
  destruct (cmp z x) eqn:ZX, (cmp z y) eqn:ZY; try done. exfalso.
  assert (cmp y x = Eq); [|congruence].
  rewrite (po_eq _ _ O y z x) by (done || by apply (po_sym cmp O)). done.
Qed.

Lemma sort_ties z l : P z -> Forall P l ->
  List.filter (same z) (sort_stable less l) = List.filter (same z) l.
Proof.
  intros Z. induction 1 as [|x l X F IH]; [done|]. simpl sort_stable.
  rewrite insert_ties; [|done|done|by rewrite <- sort_Permutation]. simpl. by rewrite IH.
Qed.

Lemma same_refl x : P x -> same x x = true.
Proof. intros X. unfold same. by rewrite (po_refl cmp O). Qed.

Lemma ties_In (l l' : list A) x :
  P x -> List.filter (same x) l = List.filter (same x) l' -> In x l -> In x l'.
Proof.
  intros X E I. assert (J : In x (List.filter (same x) l)) by (apply filter_In; auto using same_refl).
  rewrite E in J. by apply filter_In in J as [J _].
Qed.

(** two ascending lists in which ties are the same are the same *)
Lemma ascending_unique l l' :
  Forall P l -> Forall P l' -> ascending l -> ascending l' ->
  (forall z, P z -> List.filter (same z) l = List.filter (same z) l') -> l = l'.
Proof.
  intros F. revert l'. induction F as [|x l X F IH]; intros l' F' S S' T.
  - destruct F' as [|y l' Y F']; [done|]. specialize (T y Y). simpl in T. by rewrite same_refl in T.
  - destruct F' as [|y l' Y F']; [specialize (T x X); simpl in T; by rewrite same_refl in T|].
    apply StronglySorted_inv in S as [S B], S' as [S' B'].
    assert (E : cmp x y = Eq).
    { assert (I : In y (x :: l)) by (eapply ties_In; [done|symmetry; by apply T|by left]).
      assert (I' : In x (y :: l')) by (eapply ties_In; [done|by apply T|by left]).
      rewrite List.Forall_forall in B, B'. destruct I as [->|I]; [by apply (po_refl cmp O)|].
      destruct I' as [->|I']; [by apply (po_refl cmp O)|].
      specialize (B _ I). specialize (B' _ I'). rewrite (po_flip _ _ O x y) in B' by done.
      by destruct (cmp x y). }
    assert (x = y) as <-.
    { pose proof (T x X) as Tx. simpl in Tx. rewrite same_refl in Tx by done.
      unfold same in Tx at 2. rewrite E in Tx. by injection Tx. }
    f_equal. apply IH; auto. intros z Z. specialize (T z Z). simpl in T.
    destruct (same z x); [by injection T|done].
Qed.

Theorem stable_sorting_unique l l' :
  Forall P l -> Forall P l' -> ascending l' ->
  (forall z, P z -> List.filter (same z) l' = List.filter (same z) l) -> l' = sort_stable less l.
Proof.
  intros F F' S T. apply ascending_unique; auto using sort_ascending.
  - by rewrite <- sort_Permutation.
  - intros z Z. by rewrite sort_ties, T.
Qed.

End Stable.
