(* ===== verification/SorterFacts.v ===== *)
(** * Properties of the format sorter

    No sort key holds a NaN when the limits of the sorter are finite, so that
    keys are compared by a total preorder and the formats have exactly one
    stable order, worst first.  The field order of a sorter has no field twice,
    and the sorting fields that are derived are consistent. *)
From Stdlib Require Import Sorting.Sorted Sorting.Permutation.
From S2P Require Import Prelude GoStrings Runes Value FilterNumber Filter Float64 Regex SortSettings SortOptions Sorter SorterValues Ordering.

#[local] Open Scope Z_scope.

(** ** The order of binary64 *)

Definition number (f : float64) : Prop := f64_is_nan f = false.

(** sign and magnitude class, exponent and mantissa: the order of numbers is the
    lexicographic order of these *)
Definition float_class (f : float64) : Z :=
  match f with
  | S754_infinity s => if s then -2 else 2
  | S754_finite s _ _ => if s then -1 else 1
  | _ => 0
  end.
Definition float_exponent (f : float64) : Z :=
  match f with S754_finite s _ e => if s then - e else e | _ => 0 end.
Definition float_mantissa (f : float64) : Z :=
  match f with S754_finite s m _ => if s then Zneg m else Zpos m | _ => 0 end.

Definition float_compare (l r : float64) : comparison := default Gt (SFcompare l r).

Lemma float_compare_lex l r : number l -> number r ->
  lex (float_class l ?= float_class r)
      (lex (float_exponent l ?= float_exponent r) (float_mantissa l ?= float_mantissa r)) =
  float_compare l r.
Proof.
  unfold number, float_compare.
  destruct l as [[]|[]| |[] m e], r as [[]|[]| |[] m' e']; simpl; intros; try done.
  - rewrite Z.compare_opp, (Z.compare_antisym e e'). by destruct (e ?= e').
  - by destruct (e ?= e').
Qed.

Lemma float_preorder : preorder_on number float_compare.
Proof.
  eapply preorder_ext; [exact float_compare_lex|].
  apply preorder_lex2; [apply preorder_Z|]. apply preorder_lex2; apply preorder_Z.
Qed.

(** ** Arithmetic does not leave the numbers *)

Lemma shr_1_nonneg r : 0 <= shr_m r -> 0 <= shr_m (shr_1 r).
Proof. destruct r as [[|[]|[]] rr rs]; simpl; lia. Qed.

Lemma iter_shr_nonneg p r : 0 <= shr_m r -> 0 <= shr_m (iter_pos shr_1 p r).
Proof.
  revert r. induction p as [p IH|p IH|]; intros r R; simpl; auto using shr_1_nonneg.
Qed.

Lemma shr_fexp_nonneg m e l : 0 <= m -> 0 <= shr_m (shr_fexp f64_prec f64_emax m e l).1.
Proof.
  intros M. unfold shr_fexp, shr.
  assert (0 <= shr_m (shr_record_of_loc m l)) by (destruct l as [|[]]; done).
  destruct (_ - e); simpl; auto using iter_shr_nonneg.
Qed.

Lemma round_number s m e l : 0 <= m -> number (binary_round_aux f64_prec f64_emax s m e l).
Proof.
  intros M. unfold binary_round_aux, number.
  pose proof (shr_fexp_nonneg m e l M) as R. destruct (shr_fexp _ _ m e l) as [r e']. simpl in R.
  set (m' := round_nearest_even _ _).
  assert (M' : 0 <= m').
  { unfold m', round_nearest_even. destruct (loc_of_shr_record r) as [|[]]; try destruct (Z.even _); lia. }
  pose proof (shr_fexp_nonneg m' e' loc_Exact M') as R'.
  destruct (shr_fexp _ _ m' e' loc_Exact) as [r' e'']. simpl in R'.
  destruct (shr_m r'); [done|by destruct (_ <=? _)|lia].
Qed.

Lemma normalize_number m e s : number (binary_normalize f64_prec f64_emax m e s).
Proof.
  destruct m; simpl; [done| |]; unfold binary_round; destruct (shl_align _ _ _); by apply round_number.
Qed.

Lemma div_number s m s' m' :
  number (SFdiv f64_prec f64_emax (S754_finite s m 0) (S754_finite s' m' 0)).
Proof.
  simpl. unfold SFdiv_core_binary. cbv zeta.
  set (n := match _ - _ - _ with Z0 => _ | Zpos _ => _ | Zneg _ => _ end).
  assert (N : 0 <= n).
  { unfold n. destruct (_ - _ - _); [done| |done]. apply Z.shiftl_nonneg. done. }
  destruct (Z.div_eucl n (Zpos m')) as [q r] eqn:D. apply round_number.
  assert (q = n / Zpos m') as -> by (unfold Z.div; by rewrite D). by apply Z.div_pos.
Qed.

Lemma ratio_number n d : number (f64_ratio n d).
Proof. destruct n; [done|apply div_number..]. Qed.

Lemma of_Z_number n : number (f64_of_Z n).
Proof. apply ratio_number. Qed.

Lemma mul_number l r : f64_finite l = true -> f64_finite r = true -> number (f64_mul l r).
Proof. destruct l, r; try done; intros _ _. by apply round_number. Qed.

Lemma sub_number l r : number l -> f64_finite r = true -> number (f64_sub l r).
Proof. destruct l as [| | |], r as [| | |]; try done; simpl; intros _ _; try by destruct s, s0. apply normalize_number. Qed.

Lemma sub_number' l r : f64_finite l = true -> number r -> number (f64_sub l r).
Proof. destruct l as [| | |], r as [| | |]; try done; simpl; intros _ _; try by destruct s, s0. apply normalize_number. Qed.

Lemma opp_number f : number f -> number (f64_opp f).
Proof. by destruct f. Qed.

Lemma abs_number f : number f -> number (mathAbs f).
Proof. unfold mathAbs. destruct (f64_lt f f64_zero); auto using opp_number. Qed.

Lemma finite_number f : f64_finite f = true -> number f.
Proof. by destruct f. Qed.

Create HintDb numbers.
#[local] Hint Resolve of_Z_number ratio_number sub_number sub_number' opp_number abs_number finite_number : numbers.
#[local] Hint Extern 1 (number f64_zero) => reflexivity : numbers.

Lemma scaled_number neg n base e f : scaled neg n base e = Some f -> f64_finite f = true.
Proof.
  unfold scaled. set (g := if n =? 0 then _ else _).
  assert (N : number g).
  { unfold g. destruct (n =? 0); [done|]. destruct (e <? 0); auto with numbers. }
  destruct (f64_is_inf g) eqn:I; [done|]. intros [= <-]. unfold f64_finite. by rewrite I, N.
Qed.

Lemma ParseFloat_finite s f : ParseFloat s = Some f -> f64_finite f = true.
Proof.
  unfold ParseFloat. cbv zeta. destruct (read_mantissa _ _ _ _ _) as [[ds frac] rest].
  destruct (bool_decide (ds = [])); [done|]. destruct (_ && _); [done|].
  destruct rest as [|c rest].
  - match goal with |- context [if ?b then None else _] => destruct b end; [done|].
    simpl. apply scaled_number.
  - match goal with |- context [lower_is ?a c] => destruct (lower_is a c) end; [|done].
    destruct (signed_exponent rest) as [[e r]|]; [|done].
    destruct (negb _); [done|].
    match goal with |- context [if ?b then _ else _] => destruct b end; apply scaled_number.
Qed.

(** ** Keys without NaN *)

Definition preference_ok (p : sortFieldPreference) : Prop := number (sp_primary p) /\ number (sp_secondary p).

Definition limit_finite (token : sortToken) : bool :=
  match tk_limit token with Some l => f64_finite l | None => true end.

Definition limits_finite (sr : sorter) : bool := forallb (fun f => limit_finite f.1) (sr_fields sr).

Definition default_number (s : sorterFieldSetting) : Prop :=
  match sf_default s with Some d => number d | None => True end.

Lemma limited_ok v token : number v -> limit_finite token = true -> preference_ok (limitedNumericPreference v token).
Proof.
  unfold limitedNumericPreference, limit_finite, preference_ok. intros V L.
  destruct (tk_limit token) as [l|]; [destruct (tk_closest token)|]; [|destruct (f64_le v l)|];
    destruct (tk_reverse token); simpl; auto with numbers.
Qed.

Section Keys.
Context {UT : RuneTables} {LT : UnicodeTables} {CT : CaseTables}.

Lemma floatOrNoneText_number text f : floatOrNoneText text = Some f -> f64_finite f = true.
Proof. unfold floatOrNoneText. destruct (bool_decide _); [done|]. apply ParseFloat_finite. Qed.

Lemma finite_only_number f g : finite_only f = Some g -> number g.
Proof. unfold finite_only. destruct (f64_finite f) eqn:E; [|done]. intros [= <-]. auto with numbers. Qed.

Lemma numericValue_number raw f : numericValue raw = Some f -> number f.
Proof.
  destruct raw; simpl; try done.
  - intros [= <-]. auto with numbers.
  - apply finite_only_number.
  - intros ?%floatOrNoneText_number. auto with numbers.
Qed.

Lemma floatValue_number raw f : floatValue raw = Some f -> number f.
Proof. destruct raw; try apply numericValue_number. intros [= <-]. auto with numbers. Qed.

Lemma round_is_number f : number f -> number (f64_round f).
Proof.
  intros N. unfold f64_round. destruct (f64_rat f) as [[n d]|]; [|done].
  destruct (_ =? 0); auto with numbers.
Qed.

Lemma parseBytes_number upper units f :
  Forall (fun u => f64_finite (f64_of_Z u.2) = true) units -> parseBytes_units upper units = Some f -> number f.
Proof.
  induction 1 as [|[suffix mult] units U F IH]; simpl; [done|].
  destruct (negb _); [done|]. destruct (bool_decide _); [done|]. destruct (negb _); [done|].
  destruct (ParseFloat _) as [p|] eqn:E; [|done]. intros [= <-].
  apply round_is_number, mul_number; [by eapply ParseFloat_finite|done].
Qed.

Lemma parseBytesText_number text f : parseBytesText text = Some f -> number f.
Proof.
  unfold parseBytesText. destruct (bool_decide _); [done|]. apply parseBytes_number.
  repeat constructor; vm_compute; reflexivity.
Qed.

Lemma orderedRank_number s v b : number (orderedRank s v b).
Proof.
  unfold orderedRank, rank_at. destruct (bool_decide _); [auto with numbers|].
  destruct (position _ _); auto with numbers.
Qed.

Lemma orderedNoneRank_number s b : number (orderedNoneRank s b).
Proof.
  unfold orderedNoneRank, rank_at. destruct (position _ _); auto using orderedRank_number with numbers.
Qed.

Lemma resolveFieldValue_number s raw b f : resolveFieldValue s raw b = Some f -> number f.
Proof.
  unfold resolveFieldValue. destruct (bool_decide _); [done|].
  assert (T : forall text, match sf_convert s with
                           | ConvertString => Some f64_zero
                           | ConvertBytes => parseBytesText text
                           | ConvertOrder => Some (orderedRank s text b)
                           | _ => floatOrNoneText text end = Some f -> number f).
  { intros text. destruct (sf_convert s); try (intros ?%floatOrNoneText_number; auto with numbers).
    - by intros [= <-].
    - apply parseBytesText_number.
    - intros [= <-]. apply orderedRank_number. }
  destruct raw; try apply T; try (by intros [= <-]).
  - intros [= <-]. auto with numbers.
  - apply finite_only_number.
Qed.

Lemma preference_is_ok s token raw b :
  default_number s -> limit_finite token = true -> preference_ok (preferenceForValue s token raw b).
Proof.
  intros D L. unfold preferenceForValue.
  assert (N : forall v, number v -> preference_ok (numericPreference v f64_zero)) by done.
  assert (T : forall t, preference_ok (stringPreference t)) by done.
  assert (M : preference_ok missingPreference) by done.
  assert (OD : forall v, (forall f, v = Some f -> number f) -> preference_ok (or_default s token v)).
  { intros [v|] V; unfold or_default; [auto using limited_ok|].
    unfold default_number in D. destruct (sf_default s); auto using limited_ok. }
  destruct (bool_decide (sf_convert s = ConvertString)); [by destruct (StringValue raw)|].
  destruct (bool_decide (sf_typ s = fieldTypeExtractor)).
  { destruct (numericValue raw) as [v|] eqn:V; [|auto with numbers]. apply numericValue_number in V.
    destruct (sf_max s) as [m|]; [destruct (f64_le m v)|]; auto with numbers. }
  destruct (bool_decide (sf_convert s = ConvertFloatString)).
  { destruct (numericValue raw) as [v|] eqn:V; [|by destruct (StringValue raw)].
    apply limited_ok; [by eapply numericValue_number|done]. }
  destruct (is_absent raw); [destruct (bool_decide _)|].
  - auto using limited_ok, orderedNoneRank_number.
  - by apply OD.
  - apply OD. intros f. apply resolveFieldValue_number.
Qed.

Lemma calculate_key_ok sr format ins fs :
  Forall (fun f => default_number f.2 /\ limit_finite f.1 = true) fs ->
  Forall preference_ok (calculate_key sr format ins fs).
Proof.
  intros F. revert ins. induction F as [|[token s] fs [D L] F IH]; intros ins; simpl; [constructor|].
  assert (preference_ok (calculateFieldPreference format s token (sr_useFreeOrder sr)))
    by by apply preference_is_ok.
  destruct (_ && _); [|by apply Forall_cons]. apply Forall_cons; split; [|by apply Forall_cons].
  split; [apply of_Z_number|done].
Qed.

End Keys.

(** ** Keys are compared by a total preorder *)

Definition within (k : sortScalarKind) (l r : sortFieldPreference) : comparison :=
  match k with
  | sortScalarMissing => Eq
  | sortScalarBelowLimit => float_compare (sp_primary l) (sp_primary r)
  | sortScalarNumeric =>
      lex (float_compare (sp_primary l) (sp_primary r)) (float_compare (sp_secondary l) (sp_secondary r))
  | sortScalarString => list_compare (fun c d => b2z c ?= b2z d) (sp_text l) (sp_text r)
  end.

Lemma bytes_compare_list l r : bytes_compare l r = list_compare (fun c d => b2z c ?= b2z d) l r.
Proof.
  revert r. induction l as [|c l IH]; intros [|d r]; simpl; try done.
  rewrite IH. by destruct (b2z c ?= b2z d).
Qed.

Lemma compare_floats_then_lex l r c : compare_floats_then l r c = lex (float_compare l r) c.
Proof. unfold compare_floats_then, float_compare. by destruct (SFcompare l r) as [[]|]. Qed.

Lemma compareFieldPreferences_lex l r : preference_ok l -> preference_ok r ->
  lex (class_rank (sp_class l) ?= class_rank (sp_class r)) (within (sp_class l) l r) =
  compareFieldPreferences l r.
Proof.
  intros [L1 L2] [R1 R2]. unfold compareFieldPreferences, within.
  destruct (class_rank (sp_class l) ?= class_rank (sp_class r)); simpl; try done.
  destruct (sp_class l); try done.
  - unfold float_compare, f64_lt, SFltb.
    pose proof (po_flip _ _ float_preorder _ _ L1 R1) as F. unfold float_compare in F.
    destruct (SFcompare (sp_primary l) (sp_primary r)) as [[]|] eqn:E,
      (SFcompare (sp_primary r) (sp_primary l)) as [[]|] eqn:E'; try done;
      unfold number in *; by destruct (sp_primary l) as [| | |], (sp_primary r) as [| | |].
  - rewrite !compare_floats_then_lex.
    destruct (float_compare (sp_primary l) (sp_primary r)); simpl; try done.
    by destruct (float_compare (sp_secondary l) (sp_secondary r)).
  - symmetry. apply bytes_compare_list.
Qed.

Lemma within_preorder k : preorder_on preference_ok (within k).
Proof.
  destruct k; simpl.
  - by split.
  - apply (preorder_pull sp_primary _ float_preorder). by intros p [].
  - apply preorder_lex2.
    + apply (preorder_pull sp_primary _ float_preorder). by intros p [].
    + apply (preorder_pull sp_secondary _ float_preorder). by intros p [].
  - apply (preorder_pull (Q := Forall (fun _ => True)) sp_text).
    + apply preorder_list, preorder_Z.
    + intros p _. by apply Forall_true.
Qed.

Lemma preference_preorder : preorder_on preference_ok compareFieldPreferences.
Proof.
  eapply preorder_ext; [exact compareFieldPreferences_lex|].
  apply (preorder_lex sp_class _ within); [apply preorder_Z|exact within_preorder|].
  intros l r _ _ E%Z.compare_eq. by destruct (sp_class l), (sp_class r).
Qed.

Lemma tuples_list_compare l r : list_compare compareFieldPreferences l r = comparePreferenceTuples l r.
Proof.
  revert r. induction l as [|p l IH]; intros [|q r]; simpl; try done.
  rewrite IH. by destruct (compareFieldPreferences p q).
Qed.

Lemma tuples_preorder : preorder_on (Forall preference_ok) comparePreferenceTuples.
Proof.
  eapply preorder_ext; [intros; apply tuples_list_compare|]. apply preorder_list, preference_preorder.
Qed.

(** ** The field order of a sorter *)

Section Composition.
Context {LT : UnicodeTables}.

Definition names (c : composition) : list bytes := map (fun f => tk_canonical f.1) (cm_fields c).

(** a name that was seen is a field, or a combined field whose parts are fields *)
Definition covered (c : composition) (n : bytes) : Prop :=
  n ∈ names c \/
  exists s, lookupFieldSetting n = Some (s, n) /\ sf_typ s = fieldTypeCombined /\
            Forall (fun part => part ∈ names c) (sf_field s).

(** [pending] is a combined field whose parts are being added *)
Record composed (pending : option bytes) (c : composition) : Prop := {
  co_distinct : NoDup (names c);
  co_seen n : n ∈ names c -> n ∈ cm_seen c;
  co_covered n : n ∈ cm_seen c -> Some n <> pending -> covered c n;
  co_defaults : Forall (fun f => default_number f.2) (cm_fields c)
}.

Lemma find_setting_default n s : find_setting n = Some s -> default_number s.
Proof.
  intros [I _]%find_some.
  assert (F : Forall (fun s => match sf_default s with Some d => f64_is_nan d = false | None => True end)
                sorterFieldSettings) by (repeat constructor).
  rewrite List.Forall_forall in F. apply (F _ I).
Qed.

Lemma lookup_default n s t : lookupFieldSetting n = Some (s, t) -> default_number s.
Proof.
  unfold lookupFieldSetting. destruct (find_setting n) as [s0|] eqn:F.
  - intros [= <- <-]. by eapply find_setting_default.
  - destruct (find_alias n) as [[a d]|]; [|done]. destruct (find_setting a) as [s0|] eqn:A; [|done].
    intros [= <- <-]. apply find_setting_default in A. by destruct s0.
Qed.

Lemma token_setting_default token : default_number (token_setting token).
Proof.
  unfold token_setting. destruct (lookupFieldSetting _) as [[s t]|] eqn:L; [|done].
  apply lookup_default in L. destruct (_ && _); [by destruct s|done].
Qed.

Lemma resolve_canonical token s b : tk_canonical (resolveSortTokenLimit token s b) = tk_canonical token.
Proof. unfold resolveSortTokenLimit. by destruct (_ || _). Qed.

Lemma names_add c token s : names (add_field c token s) = names c ++ [tk_canonical token].
Proof. unfold names, add_field. simpl. by rewrite map_app. Qed.

Lemma covered_weaken c c' n :
  (forall m, m ∈ names c -> m ∈ names c') -> covered c n -> covered c' n.
Proof.
  intros W [I|(s & L & T & F)]; [left; auto|]. right. exists s. split_and!; [done|done|].
  eapply Forall_impl; [exact F|]. auto.
Qed.

Lemma add_field_composed x c token s :
  composed x c -> tk_canonical token ∉ cm_seen c -> default_number s -> composed x (add_field c token s).
Proof.
  intros [D S C F] N DN. split.
  - rewrite names_add. apply NoDup_app. split_and!; [done| |apply NoDup_singleton].
    intros n I ->%list_elem_of_singleton. auto.
  - intros n. rewrite names_add, elem_of_app, list_elem_of_singleton. simpl. set_solver.
  - intros n. simpl. intros [->%elem_of_singleton|I]%elem_of_union X.
    + left. rewrite names_add. set_solver.
    + eapply covered_weaken; [|by apply C]. intros m M. rewrite names_add. set_solver.
  - simpl. apply Forall_app. auto.
Qed.

Lemma add_sub_composed b x c sub :
  composed x c -> composed x (add_sub b c sub) /\ tk_canonical sub ∈ cm_seen (add_sub b c sub) /\
  (forall n, n ∈ cm_seen c -> n ∈ cm_seen (add_sub b c sub)).
Proof.
  intros C. unfold add_sub. case_bool_decide as M; [done|].
  split_and!.
  - apply add_field_composed; [done|by rewrite resolve_canonical|].
    destruct (lookupFieldSetting _) as [[s t]|] eqn:L; [by eapply lookup_default|done].
  - simpl. rewrite resolve_canonical. set_solver.
  - intros n N. simpl. set_solver.
Qed.

Lemma add_subs_composed b x subs c :
  composed x c ->
  let c' := foldl (add_sub b) c subs in
  composed x c' /\ Forall (fun sub => tk_canonical sub ∈ cm_seen c') subs /\
  (forall n, n ∈ cm_seen c -> n ∈ cm_seen c').
Proof.
  revert c. induction subs as [|sub subs IH]; intros c C; simpl; [done|].
  destruct (add_sub_composed b x c sub C) as (C1 & M1 & K1).
  destruct (IH _ C1) as (C2 & M2 & K2). split_and!; [done| |auto]. constructor; auto.
Qed.

(** the parts of a combined field are plain fields *)
Lemma combined_parts n s t :
  lookupFieldSetting n = Some (s, t) -> sf_typ s = fieldTypeCombined ->
  Forall (fun part => Some part <> Some t /\
            forall s', lookupFieldSetting part = Some (s', part) -> sf_typ s' <> fieldTypeCombined) (sf_field s).
Proof.
  intros L T. destruct (lookupFieldSetting_target n s t L) as (<- & s' & L' & ES).
  assert (ET : sf_typ s = sf_typ s') by (by rewrite ES). assert (EF : sf_field s = sf_field s') by (by rewrite ES).
  assert (EC : sf_canonical s = sf_canonical s') by (by rewrite ES). rewrite EF, EC. rewrite ET in T. rewrite EC in L'.
  assert (K : forallb (fun s => negb (bool_decide (sf_typ s = fieldTypeCombined)) ||
            forallb (fun part => negb (bool_decide (part = sf_canonical s)) &&
              match lookupFieldSetting part with
              | Some (s', _) => negb (bool_decide (sf_typ s' = fieldTypeCombined))
              | None => true
              end) (sf_field s)) sorterFieldSettings = true) by (vm_compute; reflexivity).
  rewrite forallb_forall in K. unfold lookupFieldSetting in L'.
  destruct (find_setting (sf_canonical _)) as [s0|] eqn:F.
  - injection L' as ->. apply find_some in F as [I _]. specialize (K _ I).
    rewrite (bool_decide_eq_true_2 _ T) in K.
    simpl in *. rewrite forallb_forall in K.
    rewrite List.Forall_forall. intros part P. specialize (K _ P). apply andb_true_iff in K as [K1 K2].
    rewrite negb_true_iff, bool_decide_eq_false in K1. split; [congruence|]. intros s'' L''. rewrite L'' in K2.
    by rewrite negb_true_iff, bool_decide_eq_false in K2.
  - destruct (find_alias _) as [[a d]|]; [|done]. destruct (find_setting a) eqn:A; [|done].
    injection L' as _ E. apply find_setting_canonical in A as A'. congruence.
Qed.

Lemma add_sub_prefix b c sub : cm_fields c `prefix_of` cm_fields (add_sub b c sub).
Proof. unfold add_sub. case_bool_decide; [done|]. simpl. by apply prefix_app_r. Qed.

Lemma add_subs_prefix b subs c : cm_fields c `prefix_of` cm_fields (foldl (add_sub b) c subs).
Proof.
  revert c. induction subs as [|s subs IH]; intros c; simpl; [done|].
  etrans; [apply add_sub_prefix|apply IH].
Qed.

Lemma add_token_prefix b c token : cm_fields c `prefix_of` cm_fields (add_token b c token).
Proof.
  unfold add_token. case_bool_decide; [done|]. case_bool_decide; [|by apply prefix_app_r].
  apply (add_subs_prefix b _ (mkComposition _ _)).
Qed.

Lemma token_setting_shape token s t :
  lookupFieldSetting (tk_canonical token) = Some (s, t) ->
  sf_typ (token_setting token) = sf_typ s /\ sf_field (token_setting token) = sf_field s.
Proof. unfold token_setting. intros ->. by destruct (_ && _). Qed.

Lemma expand_names token s : map tk_canonical (expandCombinedLimits token s) = sf_field s.
Proof.
  unfold expandCombinedLimits. generalize (sf_field s). intros l.
  set (f := fun (i : nat) (field : bytes) => _). 
  assert (E : forall i x, tk_canonical (f i x) = x) by done. clearbody f.
  revert f E. induction l as [|x l IH]; intros f E; simpl; [done|]. rewrite E, IH; [done|].
  intros i y. apply E.
Qed.

(** a token names a field by its canonical name *)
Definition canonical_token (token : sortToken) : Prop :=
  forall s t, lookupFieldSetting (tk_canonical token) = Some (s, t) -> t = tk_canonical token.

Lemma add_token_composed b c token :
  canonical_token token -> composed None c -> composed None (add_token b c token).
Proof.
  intros CT C. unfold add_token. case_bool_decide as M; [done|]. case_bool_decide as T.
  2:{ apply add_field_composed; [done|by rewrite resolve_canonical|apply token_setting_default]. }
  rewrite resolve_canonical. set (n := tk_canonical token) in *.
  set (c0 := mkComposition (cm_fields c) ({[n]} ∪ cm_seen c)).
  assert (C0 : composed (Some n) c0).
  { destruct C as [D S C F]. split; [done| |  |done].
    - intros m I%S. simpl. set_solver.
    - intros m I X. simpl in I. apply elem_of_union in I as [->%elem_of_singleton|I]; [done|]. by apply C. }
  set (subs := expandCombinedLimits _ _).
  assert (SN : map tk_canonical subs = sf_field (token_setting token)) by apply expand_names.
  destruct (add_subs_composed b (Some n) subs c0 C0) as ([D S C' F] & M1 & _).
  split; [done|done| |done]. set (c1 := foldl _ _ _) in *.
  intros m I _. destruct (decide (m = n)) as [->|NE]; [|apply C'; congruence].
  destruct (lookupFieldSetting n) as [[s t]|] eqn:L.
  2:{ unfold token_setting in T. fold n in T. by rewrite L in T. }
  destruct (token_setting_shape token s t L) as [ET EF]. rewrite ET in T.
  pose proof (CT s t L) as ->. right. exists s. split_and!; [done|done|].
  pose proof (combined_parts n s n L T) as PS. rewrite EF in SN.
  rewrite <- SN, List.Forall_map in *. rewrite List.Forall_forall in *. intros sub I'.
  destruct (PS _ I') as [NP PL]. destruct (C' _ (M1 _ I') NP) as [|(s' & L' & T' & _)]; [done|].
  by destruct (PL _ L').
Qed.

Lemma parse_canonical raw token : parseSortSpecification raw = Ok token -> canonical_token token.
Proof.
  unfold parseSortSpecification, canonical_token. destruct (_ || _); [done|].
  destruct (sortRegex_match raw) as [[[[reverse field] separator] limitText]|]; [|done].
  destruct (_ && _); [done|]. destruct (_ <? _)%nat; [done|]. cbv zeta.
  destruct (lookupFieldSetting (ToLower field)) as [[s0 t0]|] eqn:L.
  - destruct (_ && _); [done|]. intros [= <-] s t. simpl.
    destruct (lookupFieldSetting_target _ _ _ L) as (_ & s' & -> & _). congruence.
  - intros [= <-] s t. simpl. by rewrite L.
Qed.

Lemma add_token_seen b c token n :
  n = tk_canonical token \/ n ∈ cm_seen c -> composed None c -> n ∈ cm_seen (add_token b c token).
Proof.
  intros N C. unfold add_token. case_bool_decide as M; [by destruct N as [->|]|]. case_bool_decide as T.
  - rewrite resolve_canonical. set (c0 := mkComposition _ _).
    assert (I : n ∈ cm_seen c0) by (subst c0; simpl; set_solver).
    clearbody c0. revert c0 I. induction (expandCombinedLimits _ _) as [|sub subs IH]; intros c0 I; simpl; [done|].
    apply IH. unfold add_sub. case_bool_decide; [done|]. simpl. set_solver.
  - simpl. rewrite resolve_canonical. set_solver.
Qed.

Lemma compose_composed b l c c' :
  compose b l c = Ok c' -> composed None c ->
  composed None c' /\ cm_fields c `prefix_of` cm_fields c' /\ (forall n, n ∈ cm_seen c -> n ∈ cm_seen c') /\
  (forall raw token, raw ∈ l -> raw <> [] -> parseSortSpecification raw = Ok token -> tk_canonical token ∈ cm_seen c').
Proof.
  revert c. induction l as [|raw l IH]; intros c; simpl.
  { intros [= <-] C. split_and!; try done. set_solver. }
  case_bool_decide as E.
  - intros H C. destruct (IH _ H C) as (C' & P & K & S). split_and!; try done.
    intros r t [->|I]%elem_of_cons; [done|by apply S].
  - intros (token & T & H)%bind_Ok_iff C.
    pose proof (add_token_composed b c token (parse_canonical _ _ T) C) as C1.
    destruct (IH _ H C1) as (C' & P & K & S). split_and!; [done| | |].
    + etrans; [apply add_token_prefix|exact P].
    + intros n N. apply K, add_token_seen; auto.
    + intros r t [->|I]%elem_of_cons R TR; [|by apply (S r)].
      rewrite TR in T. injection T as <-. apply K, add_token_seen; auto.
Qed.

Lemma compose_app b l1 l2 c : compose b (l1 ++ l2) c = c1 ← compose b l1 c; compose b l2 c1.
Proof.
  revert c. induction l1 as [|raw l1 IH]; intros c; simpl; [done|].
  case_bool_decide; [apply IH|]. destruct (parseSortSpecification raw); simpl; [apply IH|done].
Qed.

Lemma empty_composed : composed None (mkComposition [] ∅).
Proof. split; simpl; [constructor|set_solver|set_solver|constructor]. Qed.

Definition leading_names (sortForce : bool) : list bytes :=
  map lit ["hidden"; "aud_or_vid"]%string ++ if sortForce then [] else map lit ["hasvid"; "ie_pref"]%string.

Lemma leading_composed b sortForce :
  exists c, compose b (leading_fields sortForce) (mkComposition [] ∅) = Ok c /\ names c = leading_names sortForce.
Proof. destruct sortForce; eexists; (split; [vm_compute; reflexivity|vm_compute; reflexivity]). Qed.

(** the canonical names of the default fields *)
Definition default_names : list bytes :=
  map lit ["hidden"; "aud_or_vid"; "hasvid"; "ie_pref"; "lang"; "quality"; "res"; "fps"; "hdr"; "vcodec";
           "channels"; "acodec"; "size"; "br"; "asr"; "proto"; "ext"; "hasaud"; "source"; "id"]%string.

Lemma default_tokens n : n ∈ default_names ->
  exists raw token, raw ∈ pinnedDefaultOrder /\ raw <> [] /\
    parseSortSpecification raw = Ok token /\ tk_canonical token = n.
Proof.
  assert (E : map (fun raw => match parseSortSpecification raw with Ok t => tk_canonical t | Err _ => [] end)
                pinnedDefaultOrder = default_names) by (vm_compute; reflexivity).
  rewrite <- E. intros (raw & -> & I)%list_elem_of_fmap.
  assert (K : forallb (fun raw => negb (bool_decide (raw = [])) &&
              match parseSortSpecification raw with Ok _ => true | Err _ => false end) pinnedDefaultOrder = true)
    by (vm_compute; reflexivity).
  rewrite forallb_forall in K. specialize (K raw (proj1 (list_elem_of_In _ _) I)).
  apply andb_true_iff in K as [N%negb_true_iff P]. apply bool_decide_eq_false in N.
  destruct (parseSortSpecification raw) as [t|] eqn:PR; [|done]. exists raw, t. by split_and!.
Qed.

Definition field_names (sr : sorter) : list bytes := map (fun f => tk_canonical f.1) (sr_fields sr).

(** The field order of a sorter names no field twice and at most 64 fields; the
    forced fields come first, and every default field takes part, the combined
    one by its parts. *)
Theorem sorter_fields_composed options extractorFields sr :
  newSorter options extractorFields = Ok sr ->
  let ns := field_names sr in
  NoDup ns /\ (length ns <= maxEffectiveSortFields)%nat /\ leading_names (SortForce options) `prefix_of` ns /\
  Forall (fun n => n ∈ ns \/ n = lit "ext" /\ lit "vext" ∈ ns /\ lit "aext" ∈ ns) default_names.
Proof.
  unfold newSorter. destruct (_ <? _)%nat; [done|]. destruct (_ <? _)%nat; [done|].
  intros (c & C & R)%bind_Ok_iff. destruct (maxEffectiveSortFields <? _)%nat eqn:M; [done|].
  injection R as <-. apply Nat.ltb_ge in M. unfold field_names. cbv zeta. simpl sr_fields.
  destruct (compose_composed _ _ _ _ C empty_composed) as ([D S CV _] & _ & _ & SE).
  rewrite compose_app in C. destruct (leading_composed (PreferFreeFormats options) (SortForce options)) as (c1 & C1 & N1).
  rewrite C1 in C. simpl in C.
  destruct (compose_composed _ _ _ _ C1 empty_composed) as (K1 & _).
  destruct (compose_composed _ _ _ _ C K1) as (_ & [k P] & _).
  split_and!; [done|by rewrite length_map| |].
  - rewrite <- N1. exists (map (fun f => tk_canonical f.1) k). rewrite P, map_app. done.
  - apply Forall_forall. intros n I. destruct (default_tokens n I) as (raw & token & RI & RN & T & <-).
    destruct (CV (tk_canonical token)) as [|(s & L & TS & F)]; [|done|by left|right].
    { apply (SE raw); [|done|done]. rewrite !elem_of_app. auto. }
    assert (EX : tk_canonical token = lit "ext" /\ sf_field s = [lit "vext"; lit "aext"]).
    { revert I L TS. clear. generalize (tk_canonical token). intros n I L TS.
      unfold default_names in I. simpl in I.
      repeat (apply elem_of_cons in I as [->|I];
              [vm_compute in L; injection L as <-; (by split) || done|]). by apply elem_of_nil in I. }
    destruct EX as [-> EF]. rewrite EF in F. apply Forall_cons in F as [? F]. apply Forall_cons in F as [? _]. done.
Qed.

End Composition.

(** ** The order of the formats *)

Section Sorted.
Context {UT : RuneTables} {LT : UnicodeTables} {CT : CaseTables}.

Definition key_compare (sr : sorter) (l r : Object) : comparison :=
  comparePreferenceTuples (calculatePreference sr l) (calculatePreference sr r).

Lemma newSorter_defaults options extractorFields sr :
  newSorter options extractorFields = Ok sr -> Forall (fun f => default_number f.2) (sr_fields sr).
Proof.
  unfold newSorter. destruct (_ <? _)%nat; [done|]. destruct (_ <? _)%nat; [done|].
  intros (c & C & R)%bind_Ok_iff. destruct (maxEffectiveSortFields <? _)%nat; [done|]. injection R as <-.
  by destruct (compose_composed _ _ _ _ C empty_composed) as ([_ _ _ F] & _).
Qed.

Lemma key_preorder options extractorFields sr {B} :
  newSorter options extractorFields = Ok sr -> limits_finite sr = true ->
  preorder_on (fun _ => True) (fun a b : Object * B => key_compare sr a.1 b.1).
Proof.
  intros N L. unfold key_compare.
  refine (preorder_pull (fun a : Object * B => calculatePreference sr a.1) comparePreferenceTuples tuples_preorder _).
  intros a _. unfold calculatePreference. apply calculate_key_ok. apply newSorter_defaults in N.
  unfold limits_finite in L. rewrite forallb_forall in L. rewrite List.Forall_forall in *.
  intros f I. split; [by apply N|by apply L].
Qed.

(** C17. The canonical order of formats: a permutation of the input, worst first by
    the keys, in which formats that tie keep their order; and there is no other
    list with these properties, so that the result does not depend on the
    sorting algorithm. *)
Theorem formats_sorted_stably {B} options extractorFields sr (formats : list (Object * B)) :
  newSorter options extractorFields = Ok sr -> limits_finite sr = true ->
  let cmp := fun a b : Object * B => key_compare sr a.1 b.1 in
  let out := sortStable sr formats in
  Permutation formats out /\ ascending cmp out /\
  (forall z, List.filter (same cmp z) out = List.filter (same cmp z) formats) /\
  (forall out', ascending cmp out' ->
     (forall z, List.filter (same cmp z) out' = List.filter (same cmp z) formats) -> out' = out).
Proof.
  intros N L cmp out. pose proof (key_preorder options extractorFields sr (B := B) N L) as O. fold cmp in O.
  assert (T : forall l : list (Object * B), Forall (fun _ => True) l) by (intros l; by apply Forall_true).
  change out with (sort_stable (less cmp) formats). split_and!.
  - apply sort_Permutation.
  - by apply (sort_ascending _ _ O).
  - intros z. by apply (sort_ties _ _ O).
  - intros out' S U. apply (stable_sorting_unique _ _ O); auto.
Qed.

End Sorted.

(** ** A small catalogue *)

Section Sample.
#[local] Instance sample_runes : RuneTables :=
  {| letter_table := fun _ => false; digit_table := fun _ => false;
     number_table := fun _ => false; mark_table := fun _ => false |}.
#[local] Instance sample_lower : UnicodeTables := {| unicode_lower := id |}.
#[local] Instance sample_case : CaseTables :=
  {| unicode_upper := id; unicode_fold := fun _ _ => false |}.

Definition sample_format (id v a : string) (height : Z) (size : string) : Object :=
  NewObject [mkField (lit "format_id") (VString (lit id)); mkField (lit "vcodec") (VString (lit v));
             mkField (lit "acodec") (VString (lit a)); mkField (lit "height") (VInt height);
             mkField (lit "filesize") (VString (lit size))].

Definition sample_formats : list (Object * Z) :=
  [(sample_format "22" "avc1" "mp4a" 720 "10M", 0); (sample_format "137" "avc1" "none" 1080 "30M", 1);
   (sample_format "140" "none" "mp4a" 0 "3M", 2); (sample_format "248" "vp9" "none" 1080 "30M", 3)].

(** prefer the size nearest to 12 MiB *)
Definition sample_options : Options :=
  mkOptions [mkSortField (lit "size") false true (Some (f64_of_Z 12000000)) [] []] false false [] false false false.

Definition sample_sorter : sorter :=
  from_Ok (mkSorter [] false []) (newSorter sample_options [lit "+fps"]).

Example sample_order : map snd (sortStable sample_sorter sample_formats) = [2; 1; 3; 0].
Proof. vm_compute. reflexivity. Qed.

Lemma sample_sorter_ok : newSorter sample_options [lit "+fps"] = Ok sample_sorter.
Proof. apply from_Ok_eq. vm_compute. reflexivity. Qed.

Lemma formats_sorted_stably_witness :
  let cmp := fun a b : Object * Z => key_compare sample_sorter a.1 b.1 in
  let out := sortStable sample_sorter sample_formats in
  Permutation sample_formats out /\ ascending cmp out /\
  (forall z, List.filter (same cmp z) out = List.filter (same cmp z) sample_formats) /\
  (forall out', ascending cmp out' ->
     (forall z, List.filter (same cmp z) out' = List.filter (same cmp z) sample_formats) -> out' = out).
Proof.
  apply (formats_sorted_stably sample_options [lit "+fps"] sample_sorter sample_formats).
  - exact sample_sorter_ok.
  - vm_compute. reflexivity.
Defined.

Lemma sorter_fields_composed_witness :
  let ns := field_names sample_sorter in
  NoDup ns /\ (length ns <= maxEffectiveSortFields)%nat /\ leading_names false `prefix_of` ns /\
  Forall (fun n => n ∈ ns \/ n = lit "ext" /\ lit "vext" ∈ ns /\ lit "aext" ∈ ns) default_names.
Proof. apply (sorter_fields_composed sample_options [lit "+fps"]). exact sample_sorter_ok. Defined.

End Sample.
