(* ===== verification/Selector.v ===== *)
(** * The format selector parser ([internal/format/parser.go], [atoms.go], [ast.go])

    A recursive-descent parser of yt-dlp's selector language: comma-separated
    outputs, slash alternatives, plus merges, groups, atoms and bracketed
    filters.  The parser state is the position, the number of nodes created and
    the nesting depth; the input is a section variable.

    The recursion through a group is by levels: a level stands for one open
    parenthesis, and [pushDepth] refuses the thirty-third, so that
    [maxNestingDepth + 1] levels are enough.  The loops take the length of the
    input as fuel; every turn consumes a byte. *)
From S2P Require Import Prelude GoStrings Runes Value FilterNumber Filter.

#[local] Open Scope nat_scope.

(** ** Data *)

Inductive astKind := astComma | astPickFirst | astMerge | astGroup | astAtom.

Inductive atomKind :=
| atomDirectID | atomQuality | atomExtension | atomAll | atomMergeAll | atomFilterOnly.

Inductive AtomMedia := AtomMediaCombined | AtomMediaVideo | AtomMediaAudio.

Record Atom := mkAtom {
  at_OK : bool;
  at_Best : bool;
  at_Media : AtomMedia;
  at_Star : bool;
  at_Index : Z;
  at_indexText : bytes;
  at_indexTooLarge : bool
}.
#[global] Instance Atom_eta : Eta Atom := fun r =>
  mkAtom (at_OK r) (at_Best r) (at_Media r) (at_Star r) (at_Index r) (at_indexText r) (at_indexTooLarge r).

Definition zeroAtom : Atom := mkAtom false false AtomMediaCombined false 0 [] false.

Record atomSpec := mkSpec { as_kind : atomKind; as_text : bytes; as_quality : Atom }.
#[global] Instance atomSpec_eta : Eta atomSpec := fun r =>
  mkSpec (as_kind r) (as_text r) (as_quality r).

Inductive astNode := mkNode {
  n_kind : astKind;
  n_children : list astNode;
  n_filters : list Filter;
  n_atom : atomSpec;
  n_span : span
}.

#[global] Instance astKind_eq_dec : EqDecision astKind.
Proof. solve_decision. Defined.
#[global] Instance atomKind_eq_dec : EqDecision atomKind.
Proof. solve_decision. Defined.
#[global] Instance AtomMedia_eq_dec : EqDecision AtomMedia.
Proof. solve_decision. Defined.

Definition maxASTNodes : nat := 256.
Definition maxNestingDepth : nat := 32.
Definition maxCommaOutputs : nat := 64.
Definition maxCartesianCandidates : nat := 256.
Definition maxAlternatives : nat := 64.
Definition MaxMergeTracks : nat := 16.
Definition maxMergeTerms : nat := MaxMergeTracks.
Definition maxTermFilters : nat := 32.
#[global] Arguments maxASTNodes : simpl never.
#[global] Arguments maxNestingDepth : simpl never.
#[global] Arguments maxCommaOutputs : simpl never.
#[global] Arguments maxCartesianCandidates : simpl never.
#[global] Arguments maxAlternatives : simpl never.
#[global] Arguments MaxMergeTracks : simpl never.
#[global] Arguments maxTermFilters : simpl never.

(** ** Atoms *)

Definition member (l : list string) (s : bytes) : bool := existsb (fun x => bool_decide (lit x = s)) l.

Definition selectionAudioExts : list string :=
  ["aiff"; "alac"; "flac"; "m4a"; "mka"; "mp3"; "ogg"; "opus"; "wav"]%string.
Definition selectionVideoExts : list string :=
  ["avi"; "flv"; "mkv"; "mov"; "mp4"; "webm"; "3gp"]%string.
Definition selectionStoryboardExts : list string := ["mhtml"]%string.

Definition isExtensionSelector (text : bytes) : bool :=
  member selectionAudioExts text || member selectionVideoExts text ||
  member selectionStoryboardExts text.

Definition classifyExtensionToken (text : bytes) : option atomKind :=
  if bool_decide (text = lit "all") then Some atomAll
  else if bool_decide (text = lit "mergeall") then Some atomMergeAll
  else if member selectionAudioExts text then Some atomExtension
  else if member selectionVideoExts text then Some atomExtension
  else if member selectionStoryboardExts text then Some atomExtension
  else None.

(** video, audio, storyboard *)
Definition extensionMediaKind (text : bytes) : bool * bool * bool :=
  if member selectionStoryboardExts text then (false, false, true)
  else if member selectionAudioExts text then (false, true, false)
  else if member selectionVideoExts text then (true, false, false)
  else (false, false, false).

Definition cutQualityPrefix (name : bytes) : option (bool * nat) :=
  if HasPrefix name (lit "best") then Some (true, 4)
  else if HasPrefix name (lit "worst") then Some (false, 5)
  else if HasPrefix name (lit "b") then Some (true, 1)
  else if HasPrefix name (lit "w") then Some (false, 1)
  else None.

Definition cutMediaPrefix (name : bytes) : option (AtomMedia * nat) :=
  if HasPrefix name (lit "video") then Some (AtomMediaVideo, 5)
  else if HasPrefix name (lit "audio") then Some (AtomMediaAudio, 5)
  else if HasPrefix name (lit "v") then Some (AtomMediaVideo, 1)
  else if HasPrefix name (lit "a") then Some (AtomMediaAudio, 1)
  else None.

Definition cutAtomStem (name : bytes) : option (Atom * bytes) :=
  match cutQualityPrefix name with
  | None => None
  | Some (best, prefixLen) =>
      let rest := drop prefixLen name in
      let '(media, rest) :=
        match cutMediaPrefix rest with
        | Some (media, mediaLen) => (media, drop mediaLen rest)
        | None => (AtomMediaCombined, rest)
        end in
      let '(star, rest) :=
        if HasPrefix rest (lit "*") then (true, drop 1 rest) else (false, rest) in
      Some (mkAtom false best media star 1 [] false, rest)
  end.

(** digits to [int], saturating: the flag tells that the number does not fit *)
Fixpoint parseAtomIndex_loop (digits : bytes) (value : Z) : Z * bool :=
  match digits with
  | [] => (value, false)
  | c :: digits' =>
      let digit := (b2z c - 48)%Z in
      if ((MaxInt64 - digit) / 10 <? value)%Z then (MaxInt64, true)
      else parseAtomIndex_loop digits' (value * 10 + digit)%Z
  end.
Definition parseAtomIndex (digits : bytes) : Z * bool := parseAtomIndex_loop digits 0.

(** the zero atom, which is not [OK], is a text that is no quality atom *)
Definition parseAtomToken (name : bytes) : Atom :=
  match cutAtomStem name with
  | None => zeroAtom
  | Some (atom, rest) =>
      match rest with
      | [] => atom <| at_OK := true |>
      | d :: digits =>
          if negb (is_byte dot d) then zeroAtom
          else match digits with
               | [] => zeroAtom
               | c :: _ =>
                   if is_digit c && negb (is_byte "0" c) && forallb is_digit digits then
                     let '(i, tooLarge) := parseAtomIndex digits in
                     atom <| at_OK := true |> <| at_Index := i |> <| at_indexText := digits |>
                          <| at_indexTooLarge := tooLarge |>
                   else zeroAtom
               end
      end
  end.

Section Parser.
Context {UT : RuneTables}.

Definition id_punctuation : list Z :=
  map b2z (lit "-.*/+!$?`:%&;<=>@^|~{}").

Definition id_rune (r : Z) : bool :=
  IsLetter r || IsNumber r || IsMark r || (r =? 95)%Z || existsb (Z.eqb r) id_punctuation.

Definition validDirectIDToken (text : bytes) : bool :=
  negb (bool_decide (text = [])) && forallb id_rune (runes text).

Definition parseAtomSpec (text : bytes) (absStart : nat) : res atomSpec :=
  if bool_decide (text = []) then Err (selectorSyntax absStart absStart (msg "empty atom"))
  else match classifyExtensionToken text with
       | Some kind => Ok (mkSpec kind text zeroAtom)
       | None =>
           let atom := parseAtomToken text in
           if at_OK atom then Ok (mkSpec atomQuality [] atom)
           else if validDirectIDToken text then Ok (mkSpec atomDirectID text zeroAtom)
           else Err (selectorSyntax absStart (absStart + length text) (msgq "unknown term" text))
       end.

(** ** The parser *)

Record selectorParser := mkParser { pos : nat; nodeCount : nat; depth : nat }.

#[global] Instance selectorParser_eta : Eta selectorParser := fun r =>
  mkParser (pos r) (nodeCount r) (depth r).

Variable input : bytes.

(** a parsing step: the state behind it, or the error *)
Definition P (A : Type) : Type := selectorParser -> res (A * selectorParser).

#[global] Instance P_ret : MRet P := fun A a p => Ok (a, p).
#[global] Instance P_bind : MBind P := fun A B f m p =>
  match m p with
  | Ok (a, p') => f a p'
  | Err e => Err e
  end.

Definition fail_at {A} (s e : nat) (m : message) : P A := fun _ => Err (selectorSyntax s e m).
Definition getPos : P nat := fun p => Ok (pos p, p).
Definition advance (n : nat) : P unit := fun p => Ok (tt, p <| pos := pos p + n |>).

(** the bytes from the position on; [peek] is its first byte, [None] at the end *)
Definition rest_at (p : selectorParser) : bytes := drop (pos p) input.
Definition peek : P (option byte) := fun p => Ok (head (rest_at p), p).
Definition remaining : P bytes := fun p => Ok (rest_at p, p).

Definition skipSpace : P unit := fun p =>
  Ok (tt, p <| pos := pos p + prefix_len IsSpace (rest_at p) |>).

Definition incNode : P unit := fun p =>
  let p := p <| nodeCount := S (nodeCount p) |> in
  if maxASTNodes <? nodeCount p
  then Err (selectorSyntax 0 (length input) (msg "selector AST exceeds node limit"))
  else Ok (tt, p).

Definition pushDepth : P unit := fun p =>
  let p := p <| depth := S (depth p) |> in
  if maxNestingDepth <? depth p
  then Err (selectorSyntax (pos p - 1) (pos p) (msg "selector nesting exceeds limit"))
  else Ok (tt, p).

Definition popDepth : P unit := fun p => Ok (tt, p <| depth := depth p - 1 |>).

Definition isByte (c : byte) (o : option byte) : bool :=
  match o with Some d => is_byte c d | None => false end.
Definition atEnd (o : option byte) : bool := match o with None => true | _ => false end.

(** the end of what the enclosing construct reads: the end of the input, or the
    closing parenthesis inside a group *)
Definition closed (insideGroup : bool) (o : option byte) : bool :=
  atEnd o || insideGroup && isByte ")" o.

Definition isSelectorDelimiter (c : byte) : bool := any_of "[],/+()" c.

Definition runeWidth (s : bytes) : nat :=
  match (DecodeRune s).2 with 0 => 1 | w => w end.

(** [hasJoinableOperator] at the start of [s] *)
Definition hasJoinableOperator (s : bytes) : bool :=
  match s with
  | c :: next :: _ =>
      is_byte "/" c && (is_byte "/" next || is_byte "=" next) || is_byte "+" c && is_byte "=" next
  | _ => false
  end.

(** ** Nodes *)

Definition zeroSpec : atomSpec := mkSpec atomDirectID [] zeroAtom.

Definition newFilterOnlyAtom (at_ : nat) : P astNode :=
  incNode ;; mret (mkNode astAtom [] [] (mkSpec atomFilterOnly [] zeroAtom) (mkSpan at_ at_)).

Definition newAtomNode (spec : atomSpec) (s e : nat) : P astNode :=
  incNode ;; mret (mkNode astAtom [] [] spec (mkSpan s e)).

Definition newGroupNode (s e : nat) (child : option astNode) : P astNode :=
  incNode ;;
  mret (mkNode astGroup (match child with Some c => [c] | None => [] end) [] zeroSpec (mkSpan s e)).

Definition mergeNodes (kind : astKind) (left right : astNode) : P astNode :=
  incNode ;;
  mret (mkNode kind [left; right] [] zeroSpec (mkSpan (start (n_span left)) (end_ (n_span right)))).

Definition last_end (outputs : list astNode) : nat :=
  match last outputs with Some n => end_ (n_span n) | None => 0 end.
Definition first_start (outputs : list astNode) : nat :=
  match outputs with n :: _ => start (n_span n) | [] => 0 end.

Definition newCommaNode (outputs : list astNode) : P astNode :=
  incNode ;;
  mret (mkNode astComma outputs [] zeroSpec (mkSpan (first_start outputs) (last_end outputs))).

(** ** Atoms *)

Definition is_bad_rune (rw : Z * nat) : bool := (rw.1 =? RuneError)%Z && (rw.2 =? 1).

(** the loop of [parseAtom]: the text joined so far and where it ends *)
Fixpoint parseAtom_loop (fuel : nat) (text : bytes) (e : nat) : P (bytes * nat) :=
  match fuel with
  | 0 => fun _ => Err OutOfFuel
  | S n =>
      s ← remaining;
      match s with
      | [] => mret (text, e)
      | c :: _ =>
          if hasJoinableOperator s then
            advance 2;; at_ ← getPos; parseAtom_loop n (text ++ take 2 s) at_
          else if isSelectorDelimiter c then mret (text, e)
          else
            let '(r, width) := DecodeRune s in
            at_ ← getPos;
            if is_bad_rune (r, width) then fail_at at_ (at_ + 1) (msg "invalid UTF-8 in selector")
            else if IsSpace r then advance width;; parseAtom_loop n text e
            else advance width;; parseAtom_loop n (text ++ take width s) (at_ + width)
      end
  end.

Definition parseAtom : P astNode :=
  st ← getPos;
  s ← remaining;
  '(text, e) ← parseAtom_loop (S (length input)) [] st;
  if bool_decide (text = []) then fail_at st (st + runeWidth s) (msg "expected atom")
  else match parseAtomSpec text st with
       | Err err => fun _ => Err err
       | Ok spec => newAtomNode spec st e
       end.

(** ** Attached filters *)

(** the scan for the closing bracket, from position [at_] on: its position, or
    [None] with the start of the quoted value that is still open *)
Fixpoint scan_filter (s : bytes) (at_ : nat) (quote : option byte) (quoteStart : nat) (escaped : bool)
  : nat + option nat :=
  match s with
  | [] => inr (match quote with Some _ => Some quoteStart | None => None end)
  | c :: s' =>
      match quote with
      | Some q =>
          if escaped then scan_filter s' (S at_) quote quoteStart false
          else if is_byte backslash c then scan_filter s' (S at_) quote quoteStart true
          else scan_filter s' (S at_) (if is_byte q c then None else quote) quoteStart false
      | None =>
          if is_byte squote c || is_byte dquote c then scan_filter s' (S at_) (Some c) at_ false
          else if is_byte "]" c then inl at_
          else scan_filter s' (S at_) None quoteStart false
      end
  end.

Fixpoint parseAttachedFilters_loop (fuel : nat) (filters : list Filter) : P (list Filter) :=
  match fuel with
  | 0 => fun _ => Err OutOfFuel
  | S n =>
      skipSpace;; s ← remaining;
      match s with
      | c :: body =>
          if is_byte "[" c then
            open ← getPos;
            match scan_filter body (S open) None 0 false with
            | inl contentEnd =>
                match parseFilter (take (contentEnd - S open) body) (S open) with
                | Err err => fun _ => Err err
                | Ok f => advance (S contentEnd - open);; parseAttachedFilters_loop n (filters ++ [f])
                end
            | inr (Some quoteStart) =>
                fail_at quoteStart (length input) (msg "unclosed quoted filter value")
            | inr None => fail_at open (length input) (msg "unclosed filter")
            end
          else mret filters
      | [] => mret filters
      end
  end.

Definition parseAttachedFilters : P (list Filter) :=
  parseAttachedFilters_loop (S (length input)) [].

(** ** Primary, merge, choice, comma

    [group] parses what stands inside a parenthesis. *)

Section Levels.
Variable group : P astNode.

Definition parseGroup (st : nat) : P astNode :=
  advance 1;; pushDepth;; skipSpace;; o ← peek;
  if isByte ")" o then
    advance 1;; popDepth;; e ← getPos; newGroupNode st e None
  else
    child ← group;
    popDepth;; skipSpace;; o ← peek; s ← remaining; at_ ← getPos;
    if atEnd o then fail_at st (length input) (msg "unclosed group")
    else if negb (isByte ")" o) then
      fail_at at_ (at_ + runeWidth s) (msg "expected closing parenthesis")
    else advance 1;; e ← getPos; newGroupNode st e (Some child).

Definition parseOperand (insideGroup : bool) (st : nat) (s : bytes) (c : byte) : P astNode :=
  if is_byte "(" c then parseGroup st
  else if is_byte "[" c then newFilterOnlyAtom st
  else if is_byte ")" c then
    fail_at st (st + 1) (msg (if insideGroup then "expected a selector" else "unexpected )"))
  else if is_byte "]" c || is_byte "," c then fail_at st (st + 1) (msgq "unexpected" [c])
  else if (is_byte "/" c || is_byte "+" c) && negb (hasJoinableOperator s) then
    fail_at st (st + 1) (msgq "unexpected" [c])
  else parseAtom.

Definition parsePrimary (insideGroup : bool) : P astNode :=
  skipSpace;; s ← remaining; st ← getPos;
  match s with
  | [] => fail_at st st (msg "expected a selector")
  | c :: _ =>
      current ← parseOperand insideGroup st s c;
      filters ← parseAttachedFilters;
      e ← getPos;
      let all := n_filters current ++ filters in
      if maxTermFilters <? length all then
        fail_at (start (n_span current)) e (msg "too many filters")
      else
        let sp := if bool_decide (filters = []) then n_span current
                  else mkSpan (start (n_span current)) e in
        mret (mkNode (n_kind current) (n_children current) all (n_atom current) sp)
  end.

Fixpoint parseMerge_loop (fuel : nat) (insideGroup : bool) (current : astNode) (terms : nat) : P astNode :=
  match fuel with
  | 0 => fun _ => Err OutOfFuel
  | S n =>
      skipSpace;; o ← peek;
      if closed insideGroup o || negb (isByte "+" o) then mret current
      else
        operator ← getPos;
        advance 1;; skipSpace;; o ← peek;
        if closed insideGroup o || isByte "+" o || isByte "/" o || isByte "," o then
          fail_at operator (operator + 1) (msgq "must be followed by a format selector" (lit "+"))
        else
          right ← parsePrimary insideGroup;
          current ← mergeNodes astMerge current right;
          if maxMergeTerms <? S terms then
            fail_at (start (n_span current)) (end_ (n_span current)) (msg "too many merge terms")
          else parseMerge_loop n insideGroup current (S terms)
  end.

Definition parseMerge (insideGroup : bool) : P astNode :=
  current ← parsePrimary insideGroup;
  parseMerge_loop (S (length input)) insideGroup current 1.

Fixpoint parseChoice_loop (fuel : nat) (insideGroup : bool) (current : astNode) (alternatives : nat)
  : P astNode :=
  match fuel with
  | 0 => fun _ => Err OutOfFuel
  | S n =>
      skipSpace;; o ← peek;
      if closed insideGroup o || negb (isByte "/" o) then mret current
      else
        operator ← getPos;
        advance 1;; skipSpace;; o ← peek;
        if closed insideGroup o || isByte "," o then mret current
        else if isByte "/" o then
          fail_at operator (operator + 1) (msgq "must be followed by a format selector" (lit "/"))
        else
          right ← parseMerge insideGroup;
          current ← mergeNodes astPickFirst current right;
          if maxAlternatives <? S alternatives then
            fail_at (start (n_span current)) (end_ (n_span current)) (msg "too many selector alternatives")
          else parseChoice_loop n insideGroup current (S alternatives)
  end.

Definition parseChoice (insideGroup : bool) : P astNode :=
  current ← parseMerge insideGroup;
  parseChoice_loop (S (length input)) insideGroup current 1.

Fixpoint parseComma_loop (fuel : nat) (insideGroup : bool) (outputs : list astNode) : P (list astNode) :=
  match fuel with
  | 0 => fun _ => Err OutOfFuel
  | S n =>
      skipSpace;; o ← peek;
      if closed insideGroup o || negb (isByte "," o) then mret outputs
      else
        operator ← getPos;
        advance 1;; skipSpace;; o ← peek;
        if closed insideGroup o then mret outputs
        else if isByte "," o then
          fail_at (operator + 1) (operator + 2) (msgq "must follow a format selector" (lit ","))
        else
          right ← parseChoice insideGroup;
          let outputs := outputs ++ [right] in
          if maxCommaOutputs <? length outputs then
            fail_at (first_start outputs) (last_end outputs) (msg "too many comma-separated outputs")
          else parseComma_loop n insideGroup outputs
  end.

Definition parseComma_at (insideGroup : bool) : P astNode :=
  first ← parseChoice insideGroup;
  outputs ← parseComma_loop (S (length input)) insideGroup [first];
  match outputs with
  | [only] => mret only
  | _ => newCommaNode outputs
  end.

End Levels.

(** [parseComma] with [levels] open parentheses to go *)
Fixpoint parseComma (levels : nat) (insideGroup : bool) : P astNode :=
  match levels with
  | 0 => fun _ => Err OutOfFuel
  | S n => parseComma_at (parseComma n true) insideGroup
  end.

Definition parseSelector_from : P astNode :=
  skipSpace;; o ← peek;
  if atEnd o then fail_at 0 (length input) (msg "selector is empty")
  else
    root ← parseComma (S maxNestingDepth) false;
    skipSpace;; s ← remaining; at_ ← getPos;
    match s with
    | [] => mret root
    | _ => fail_at at_ (at_ + runeWidth s) (msgq "unexpected text" (take (runeWidth s) s))
    end.

Definition parseSelectorAST : res astNode :=
  if (maxSelectorBytes <? zlen input)%Z then
    Err (selectorSyntax 0 (length input) (msg "selector exceeds size limit"))
  else
    '(root, _) ← parseSelector_from (mkParser 0 0 0);
    Ok root.

End Parser.
