(* ===== verification/SelectorFacts.v ===== *)
(** * Correctness of the selector parser

    A weakest-precondition calculus for the parser monad ([sat]) and, with it,
    one specification of every parsing function: it never runs out of fuel, an
    error names a byte range of the input, and a node that is returned is well
    formed, within the limits and inside the range that was read. *)
From S2P Require Import Prelude GoStrings Runes Value FilterNumber Filter Selector.

#[local] Open Scope nat_scope.

(** ** Well-formed trees *)

(** induction on trees that gives the hypothesis for every child *)
Section NodeInd.
Variable Q : astNode -> Prop.
Hypothesis Q_node : forall k cs fs a sp, Forall Q cs -> Q (mkNode k cs fs a sp).

Fixpoint astNode_nested_ind (n : astNode) : Q n.
Proof.
  destruct n as [k cs fs a sp]. apply Q_node.
  induction cs as [|c cs IH]; constructor; [apply astNode_nested_ind|exact IH].
Defined.

End NodeInd.

(** number of nodes *)
Fixpoint node_size (n : astNode) : nat :=
  match n with mkNode _ cs _ _ _ => S (list_sum (map node_size cs)) end.

(** the operands a node of each kind has, and where filters may stand *)
Definition shape_ok (n : astNode) : bool :=
  let arity := length (n_children n) in
  match n_kind n with
  | astComma => (2 <=? arity) && (arity <=? maxCommaOutputs) && bool_decide (length (n_filters n) = 0)
  | astPickFirst | astMerge => (arity =? 2) && bool_decide (length (n_filters n) = 0)
  | astGroup => arity <=? 1
  | astAtom => arity =? 0
  end && (length (n_filters n) <=? maxTermFilters).

Definition within (outer inner : span) : bool :=
  (start outer <=? start inner) && (start inner <=? end_ inner) && (end_ inner <=? end_ outer).

(** a quality atom is complete and counts from one; a named atom has a name *)
Definition spec_ok (a : atomSpec) : bool :=
  match as_kind a with
  | atomQuality => at_OK (as_quality a) && (1 <=? at_Index (as_quality a))%Z
  | atomDirectID | atomExtension => negb (bool_decide (length (as_text a) = 0))
  | _ => true
  end.

(** [levels] bounds the nesting of groups *)
Fixpoint node_ok (levels : nat) (n : astNode) : bool :=
  match n with
  | mkNode k cs fs a sp =>
      shape_ok (mkNode k cs fs a sp) && (start sp <=? end_ sp) &&
      match k with
      | astGroup => (1 <=? levels) && forallb (node_ok (levels - 1)) cs
      | astAtom => spec_ok a
      | _ => forallb (node_ok levels) cs
      end &&
      forallb (fun c => within sp (n_span c)) cs
  end.

#[global] Arguments node_ok : simpl never.

Lemma node_ok_eq levels k cs fs a sp :
  node_ok levels (mkNode k cs fs a sp) =
  shape_ok (mkNode k cs fs a sp) && (start sp <=? end_ sp) &&
  match k with
  | astGroup => (1 <=? levels) && forallb (node_ok (levels - 1)) cs
  | astAtom => spec_ok a
  | _ => forallb (node_ok levels) cs
  end &&
  forallb (fun c => within sp (n_span c)) cs.
Proof. done. Qed.

Lemma node_ok_levels n l l' : (l <= l') -> node_ok l n = true -> node_ok l' n = true.
Proof.
  revert n l l'. fix IH 1. intros [k cs fs a sp] l l' L. rewrite !node_ok_eq.
  assert (R : forall m m', m <= m' -> forallb (node_ok m) cs = true -> forallb (node_ok m') cs = true).
  { intros m m' Hm. clear -IH Hm. induction cs as [|c cs IHc]; simpl; [done|].
    rewrite !andb_true_iff. intros [H1 H2]. split; [by apply (IH c m m')|auto]. }
  rewrite !andb_true_iff. intros [[H1 H2] H3]. split; [|done]. split; [done|].
  destruct k; try (by eapply R); [|done].
  rewrite !andb_true_iff in *. destruct H2 as [H2 H4]. apply Nat.leb_le in H2.
  split; [apply Nat.leb_le; lia|]. eapply R; [|done]. lia.
Qed.

Section Sat.
Context {UT : RuneTables}.
Variable input : bytes.

Abbreviation len := (length input).

(** the errors of the parser: a syntax error on a range of the input *)
Definition err_ok (e : selector_error) : Prop :=
  match e with SyntaxError s e _ => s <= e <= len | _ => False end.

Definition sat {A} (m : P A) (p : selectorParser) (Q : A -> selectorParser -> Prop) : Prop :=
  match m p with
  | Ok (a, p') => Q a p'
  | Err e => err_ok e
  end.

Lemma sat_bind {A B} (m : P A) (f : A -> P B) p Q :
  sat m p (fun a p' => sat (f a) p' Q) -> sat (m ≫= f) p Q.
Proof. unfold sat, mbind, P_bind. by destruct (m p) as [[a p']|e]. Qed.

Lemma sat_mono {A} (m : P A) p (Q Q' : A -> selectorParser -> Prop) :
  sat m p Q -> (forall a p', Q a p' -> Q' a p') -> sat m p Q'.
Proof. unfold sat. destruct (m p) as [[a p']|e]; auto. Qed.

Lemma sat_fail {A} s e m p (Q : A -> selectorParser -> Prop) :
  s <= e <= len -> sat (fail_at s e m) p Q.
Proof. unfold sat, fail_at, selectorSyntax; simpl. lia. Qed.

Lemma sat_error {A} err p (Q : A -> selectorParser -> Prop) :
  err_ok err -> sat (fun _ => Err err) p Q.
Proof. done. Qed.

(** the invariant of the parser state *)
Record pinv (p : selectorParser) : Prop := {
  pos_le : pos p <= len;
  nodes_le : nodeCount p <= maxASTNodes;
  depth_le : depth p <= maxNestingDepth
}.

(** [p'] is a later state at the same depth *)
Record after (p p' : selectorParser) : Prop := {
  after_pos : pos p <= pos p';
  after_len : pos p' <= len;
  after_depth : depth p' = depth p;
  after_nodes : nodeCount p' = nodeCount p
}.

Lemma after_inv p p' : pinv p -> after p p' -> pinv p'.
Proof. intros [] []. split; lia. Qed.

Lemma rest_nil p : rest_at input p = [] <-> len <= pos p.
Proof.
  unfold rest_at. split; intros H.
  - apply (f_equal length) in H. rewrite length_drop in H. simpl in H. lia.
  - by apply drop_ge.
Qed.

Lemma rest_length p : length (rest_at input p) = len - pos p.
Proof. apply length_drop. Qed.

Lemma sat_skipSpace p Q :
  pos p <= len -> (forall p', after p p' -> Q tt p') -> sat (skipSpace input) p Q.
Proof.
  intros L H. unfold sat, skipSpace. apply H. pose proof (prefix_len_le IsSpace (rest_at input p)) as B.
  rewrite rest_length in B. split; simpl; lia.
Qed.

Lemma sat_advance n p Q :
  pos p + n <= len ->
  (forall p', after p p' -> pos p' = pos p + n -> Q tt p') -> sat (advance n) p Q.
Proof. intros L H. unfold sat, advance. apply H; [split|]; simpl; lia. Qed.

Lemma sat_incNode p (Q : unit -> selectorParser -> Prop) :
  (nodeCount p < maxASTNodes -> Q tt (p <| nodeCount := S (nodeCount p) |>)) ->
  sat (incNode input) p Q.
Proof.
  intros H. unfold sat, incNode. simpl. destruct (Nat.ltb_spec maxASTNodes (S (nodeCount p))).
  - simpl. lia.
  - apply H. lia.
Qed.

End Sat.

(** what a parsing function returns: a well-formed node, inside what was read,
    whose nodes were all counted *)
Record node_post {UT : RuneTables} (input : bytes) (p : selectorParser) (n : astNode) (p' : selectorParser)
  : Prop := {
  np_order : pos p <= start (n_span n) <= end_ (n_span n) /\
             end_ (n_span n) <= pos p' <= length input;
  np_depth : depth p' = depth p;
  np_count : nodeCount p' = nodeCount p + node_size n;
  np_limit : nodeCount p' <= maxASTNodes;
  np_ok : node_ok (maxNestingDepth - depth p) n = true
}.

(** ** Atoms *)

Lemma parseAtomIndex_loop_ge digits v :
  forallb is_digit digits = true -> (1 <= v <= MaxInt64)%Z ->
  (1 <= (parseAtomIndex_loop digits v).1)%Z.
Proof.
  revert v. induction digits as [|c digits IH]; intros v D V; simpl in *; [lia|].
  apply andb_true_iff in D as [D1 D2]. unfold is_digit in D1. reflect_bools.
  destruct (Z.ltb_spec ((MaxInt64 - (b2z c - 48)) / 10) v); [unfold MaxInt64; simpl; lia|].
  apply IH; [done|]. unfold MaxInt64 in *. Z.div_mod_to_equations. lia.
Qed.

Lemma parseAtomToken_index name :
  at_OK (parseAtomToken name) = true -> (1 <= at_Index (parseAtomToken name))%Z.
Proof.
  unfold parseAtomToken. destruct (cutAtomStem name) as [[a rest]|] eqn:C; [|done].
  assert (A : at_Index a = 1%Z).
  { unfold cutAtomStem in C. repeat case_match; simplify_eq; done. }
  destruct rest as [|d digits]; simpl; [lia|].
  destruct (negb (is_byte dot d)); [done|]. destruct digits as [|c digits]; [done|].
  destruct (is_digit c && negb (is_byte "0" c) && forallb is_digit (c :: digits)) eqn:D; [|done].
  destruct (parseAtomIndex (c :: digits)) as [i tooLarge] eqn:E. simpl. intros _.
  apply (f_equal fst) in E. simpl in E. rewrite <- E. unfold parseAtomIndex. simpl.
  simpl in D. unfold is_digit in D. reflect_bools.
  assert (b2z c <> 48)%Z.
  { intros E0. match goal with H : is_byte "0" c = false |- _ => rename H into N end.
    apply not_true_iff_false in N. apply N, is_byte_true. by apply b2z_inj. }
  destruct (Z.ltb_spec ((MaxInt64 - (b2z c - 48)) / 10) 0).
  { exfalso. unfold MaxInt64 in *. Z.div_mod_to_equations. lia. }
  apply parseAtomIndex_loop_ge; [done|]. unfold MaxInt64. lia.
Qed.

Section ParserFacts.
Context {UT : RuneTables}.
Variable input : bytes.

Abbreviation len := (length input).
Abbreviation sat := (sat input).
Abbreviation after := (after input).
Abbreviation pinv := (pinv input).
Abbreviation node_post := (node_post input).

Lemma parseAtomSpec_sat text st :
  st + length text <= len ->
  match parseAtomSpec text st with
  | Ok spec => spec_ok spec = true
  | Err e => err_ok input e
  end.
Proof.
  intros L. unfold parseAtomSpec. case_bool_decide as E; [simpl; lia|].
  assert (N : negb (bool_decide (length text = 0)) = true).
  { apply negb_true_iff, bool_decide_eq_false. by destruct text. }
  destruct (classifyExtensionToken text) as [k|] eqn:C.
  - unfold classifyExtensionToken in C. by repeat case_match; simplify_eq.
  - destruct (at_OK (parseAtomToken text)) eqn:O.
    + pose proof (parseAtomToken_index _ O). unfold spec_ok. simpl. rewrite O. simpl.
      by apply Z.leb_le.
    + destruct (validDirectIDToken text); [done|]. simpl. lia.
Qed.

(** compose [after] *)
Lemma after_trans p q r : after p q -> after q r -> after p r.
Proof. intros [] []. split; lia. Qed.

Lemma joinable_length s : hasJoinableOperator s = true -> 2 <= length s.
Proof. destruct s as [|c [|d s]]; simpl; (done || lia). Qed.

Lemma parseAtom_loop_sat fuel text e st p :
  pos p <= len -> len - pos p < fuel -> e <= pos p -> st + length text <= e ->
  sat (parseAtom_loop input fuel text e) p (fun r p' =>
    after p p' /\ st + length r.1 <= r.2 /\ e <= r.2 <= pos p').
Proof.
  revert text e p. induction fuel as [|n IH]; intros text e p L F E T; [lia|]. simpl.
  apply sat_bind. unfold sat, remaining. pose proof (rest_length input p) as RL.
  assert (A0 : after p p) by (split; lia).
  destruct (rest_at input p) as [|c s] eqn:R; [by split; [|simpl; lia]|].
  destruct (hasJoinableOperator (c :: s)) eqn:J.
  { apply joinable_length in J. apply sat_bind, sat_advance; [lia|]. intros p1 A1 P1.
    apply sat_bind. unfold sat at 1, getPos.
    eapply sat_mono; [apply IH; [destruct A1; lia|lia|lia|]|].
    - rewrite length_app, length_take. lia.
    - intros r p' (A & H1 & H2). split; [by eapply after_trans|]. destruct A1. lia. }
  destruct (isSelectorDelimiter c); [by split; [|simpl; lia]|].
  pose proof (DecodeRune_width (c :: s) ltac:(done)) as W.
  destruct (DecodeRune (c :: s)) as [r w]. cbn [snd] in W.
  apply sat_bind. unfold sat at 1, getPos.
  destruct (is_bad_rune (r, w)); [apply sat_fail; lia|].
  destruct (IsSpace r); apply sat_bind, sat_advance; try lia; intros p1 A1 P1;
    (eapply sat_mono; [apply IH; [destruct A1; lia|lia|lia|rewrite ?length_app, ?length_take; lia]|]);
    intros r' p' (A & H1 & H2); (split; [by eapply after_trans|destruct A1; lia]).
Qed.

Lemma sat_getPos p Q : Q (pos p) p -> sat getPos p Q.
Proof. done. Qed.
Lemma sat_remaining p Q : Q (rest_at input p) p -> sat (remaining input) p Q.
Proof. done. Qed.
Lemma sat_peek p Q : Q (head (rest_at input p)) p -> sat (peek input) p Q.
Proof. done. Qed.
Lemma sat_ret {A} (a : A) p Q : Q a p -> sat (mret a) p Q.
Proof. done. Qed.

(** one step of a parsing function *)
Ltac step :=
  match goal with
  | |- SelectorFacts.sat _ (_ ≫= _) _ _ => apply sat_bind
  | |- SelectorFacts.sat _ getPos _ _ => apply sat_getPos
  | |- SelectorFacts.sat _ (remaining _) _ _ => apply sat_remaining
  | |- SelectorFacts.sat _ (peek _) _ _ => apply sat_peek
  | |- SelectorFacts.sat _ (mret _) _ _ => apply sat_ret
  end; cbv beta.

Lemma newAtomNode_sat spec s e p :
  pinv p -> spec_ok spec = true -> s <= e <= pos p ->
  sat (newAtomNode input spec s e) p (fun n p' =>
    depth p' = depth p /\ pos p' = pos p /\ nodeCount p' = S (nodeCount p) /\
    nodeCount p' <= maxASTNodes /\ n = mkNode astAtom [] [] spec (mkSpan s e)).
Proof.
  intros [] S E. unfold newAtomNode. step. apply sat_incNode. intros L. step. simpl. auto 10 with lia.
Qed.

(** ** Building nodes *)

Lemma node_ok_span l n : node_ok l n = true -> start (n_span n) <= end_ (n_span n).
Proof. destruct n. rewrite node_ok_eq. rewrite !andb_true_iff. intros [[[_ H] _] _]. by apply Nat.leb_le in H. Qed.

Lemma node_ok_filters l k cs a s e fs e' :
  k = astAtom \/ k = astGroup -> node_ok l (mkNode k cs [] a (mkSpan s e)) = true ->
  length fs <= maxTermFilters -> e <= e' -> node_ok l (mkNode k cs fs a (mkSpan s e')) = true.
Proof.
  intros K H F E. rewrite node_ok_eq in *. rewrite !andb_true_iff in *. destruct H as [[[H1 H2] H3] H4].
  apply Nat.leb_le in H2. simpl in H2.
  split; [split; [split|]|]; [..|exact H3|].
  - unfold shape_ok in *. simpl in *.
    assert (F' : (length fs <=? maxTermFilters) = true) by by apply Nat.leb_le.
    destruct K as [-> | ->]; rewrite F', andb_true_r in *; exact H1.
  - simpl. apply Nat.leb_le. lia.
  - clear -H4 E. induction cs as [|c cs IH]; simpl in *; [done|].
    rewrite andb_true_iff in *. destruct H4 as [W H4]. split; [|auto].
    unfold within in *. simpl in *. rewrite !andb_true_iff, !Nat.leb_le in *. lia.
Qed.

Lemma binary_ok l k a b :
  k = astPickFirst \/ k = astMerge -> node_ok l a = true -> node_ok l b = true ->
  end_ (n_span a) <= start (n_span b) ->
  node_ok l (mkNode k [a; b] [] zeroSpec (mkSpan (start (n_span a)) (end_ (n_span b)))) = true.
Proof.
  intros K A B O. pose proof (node_ok_span _ _ A). pose proof (node_ok_span _ _ B).
  rewrite node_ok_eq; cbn [forallb]. rewrite !andb_true_iff. unfold within. simpl.
  rewrite !andb_true_iff, !Nat.leb_le. destruct K as [-> | ->]; rewrite ?A, ?B;
    repeat split; (done || lia).
Qed.

(** ** What the steps of the parser satisfy *)

Lemma after_refl p : pos p <= len -> after p p.
Proof. intros L. split; lia. Qed.

(** an operand before its filters *)
Definition operand_post p n p' : Prop :=
  node_post p n p' /\ n_filters n = [] /\ (n_kind n = astAtom \/ n_kind n = astGroup).

Lemma atom_ok l spec s e :
  spec_ok spec = true -> s <= e -> node_ok l (mkNode astAtom [] [] spec (mkSpan s e)) = true.
Proof.
  intros S E. rewrite node_ok_eq; cbn [forallb]. rewrite S. simpl. rewrite !andb_true_iff, Nat.leb_le. simpl. done.
Qed.

Lemma parseAtom_sat p :
  pinv p -> pos p < len -> sat (parseAtom input) p (operand_post p).
Proof.
  intros I L. pose proof I as [_ IN ID]. unfold parseAtom. step. step. step. step. step.
  eapply sat_mono; [apply (parseAtom_loop_sat (S len) [] (pos p) (pos p)); simpl; lia|].
  intros [text e] p1 (A & T & E). simpl in T, E.
  case_bool_decide as N.
  { apply sat_fail. unfold runeWidth. pose proof (rest_length input p) as RL.
    pose proof (DecodeRune_width (rest_at input p)) as W.
    destruct (rest_at input p) as [|c s] eqn:R; [simpl in RL; lia|].
    specialize (W ltac:(done)). destruct (DecodeRune (c :: s)).2; lia. }
  pose proof (parseAtomSpec_sat text (pos p)) as PS. destruct A.
  specialize (PS ltac:(lia)). destruct (parseAtomSpec text (pos p)) as [spec|err]; [|done].
  eapply sat_mono; [apply newAtomNode_sat; [split; lia|done|lia]|].
  intros n p2 (D & P2 & NC & LIM & ->). split; [|auto].
  split; [simpl; lia..|apply atom_ok; [done|lia]].
Qed.

Lemma newFilterOnlyAtom_sat p :
  pinv p -> sat (newFilterOnlyAtom input (pos p)) p (operand_post p).
Proof.
  intros [L N D]. unfold newFilterOnlyAtom. step. apply sat_incNode. intros LT. step.
  split; [|auto]. split; [simpl; lia..|by apply atom_ok].
Qed.

Lemma parseFilter_sat s st :
  st + length s <= len -> match parseFilter s st with Ok _ => True | Err e => err_ok input e end.
Proof.
  intros L. unfold parseFilter. induction filter_operators as [|op ops IH]; simpl; [lia|].
  destruct (Index s (lit op)) as [[|i]|] eqn:E; [done| |done].
  apply Index_Some in E as (t & _ & E).
  destruct (_ || _); [simpl; lia|]. destruct (_ <? _)%Z; [simpl; lia|done].
Qed.

Lemma scan_filter_range s at_ quote qs escaped :
  match scan_filter s at_ quote qs escaped with
  | inl e => at_ <= e < at_ + length s
  | inr (Some q) => at_ <= q < at_ + length s \/ (q = qs /\ quote <> None)
  | inr None => True
  end.
Proof.
  revert at_ quote qs escaped. induction s as [|c s IH]; intros at_ quote qs escaped; simpl.
  - destruct quote; [by right|done].
  - assert (G : forall at' quote' qs' esc', at' = S at_ ->
      (quote' <> None -> quote <> None /\ qs' = qs \/ at_ <= qs' < S at_) ->
      match scan_filter s at' quote' qs' esc' with
      | inl e => at_ <= e < at_ + S (length s)
      | inr (Some q) => at_ <= q < at_ + S (length s) \/ (q = qs /\ quote <> None)
      | inr None => True
      end).
    { intros at' quote' qs' esc' -> Q. specialize (IH (S at_) quote' qs' esc').
      destruct (scan_filter s (S at_) quote' qs' esc') as [e|[q|]]; [lia| |done].
      destruct IH as [B|[-> B]]; [lia|]. destruct (Q B) as [[? ->]|?]; [by right|lia]. }
    destruct quote as [q|].
    + destruct escaped; [by apply G; [|left]|].
      destruct (is_byte backslash c); [by apply G; [|left]|].
      apply G; [done|]. intros _. by left.
    + destruct (_ || _); [apply G; [done|right; lia]|].
      destruct (is_byte "]" c); [lia|]. by apply G.
Qed.

Lemma parseAttachedFilters_loop_sat fuel fs p :
  pos p <= len -> len - pos p < fuel ->
  sat (parseAttachedFilters_loop input fuel fs) p (fun _ p' => after p p').
Proof.
  revert fs p. induction fuel as [|n IH]; intros fs p L F; [lia|]. simpl.
  step. apply sat_skipSpace; [done|]. intros p1 A1. step. step. pose proof (rest_length input p1) as RL.
  destruct (rest_at input p1) as [|c body] eqn:R; [by step|]. simpl in RL.
  destruct (is_byte "[" c); [|by step]. step. step.
  pose proof (scan_filter_range body (S (pos p1)) None 0 false) as SR.
  destruct (scan_filter body (S (pos p1)) None 0 false) as [e|[q|]].
  - pose proof (parseFilter_sat (take (e - S (pos p1)) body) (S (pos p1))) as PF.
    rewrite length_take in PF. specialize (PF ltac:(lia)).
    destruct (parseFilter _ _) as [f|err]; [|done].
    apply sat_bind, sat_advance; [lia|]. intros p2 A2 P2.
    eapply sat_mono; [apply IH|]; [destruct A2; lia|destruct A1, A2; lia|].
    intros fs' p' A'. eauto using after_trans.
  - destruct SR as [SR|[_ []]]; [|done]. apply sat_fail. lia.
  - apply sat_fail. lia.
Qed.

(** ** The levels

    [d] is the depth at which the functions run, one less than the depth at
    which [group] runs. *)

Section LevelFacts.
Variable group : P astNode.
Variable d : nat.
Hypothesis group_sat : forall p, pinv p -> depth p = S d -> sat group p (node_post p).

Lemma newGroupNode_sat s child p Q :
  (nodeCount p < maxASTNodes ->
   Q (mkNode astGroup (match child with Some c => [c] | None => [] end) [] zeroSpec (mkSpan s (pos p)))
     (p <| nodeCount := S (nodeCount p) |>)) ->
  sat (newGroupNode input s (pos p) child) p Q.
Proof. intros H. unfold newGroupNode. step. apply sat_incNode. intros L. step. auto. Qed.

Lemma sat_pushDepth p (Q : unit -> selectorParser -> Prop) :
  1 <= pos p <= len ->
  (depth p < maxNestingDepth -> Q tt (p <| depth := S (depth p) |>)) -> sat pushDepth p Q.
Proof.
  intros L H. unfold SelectorFacts.sat, pushDepth. simpl.
  destruct (Nat.ltb_spec maxNestingDepth (S (depth p))); [simpl; lia|]. apply H. lia.
Qed.

Lemma sat_popDepth p (Q : unit -> selectorParser -> Prop) :
  Q tt (p <| depth := depth p - 1 |>) -> sat popDepth p Q.
Proof. done. Qed.

Lemma group_node_ok l s e (child : option astNode) :
  1 <= l -> s <= e ->
  match child with
  | Some c => node_ok (l - 1) c = true /\ s <= start (n_span c) /\ end_ (n_span c) <= e
  | None => True
  end ->
  node_ok l (mkNode astGroup (match child with Some c => [c] | None => [] end) [] zeroSpec (mkSpan s e)) = true.
Proof.
  intros L E C. destruct l as [|l]; [lia|]. rewrite node_ok_eq.
  assert (E' : (s <=? e) = true) by by apply Nat.leb_le.
  destruct child as [c|]; [destruct C as (C1 & C2 & C3)|]; cbn [forallb];
    rewrite !andb_true_iff; repeat split; try done.
  pose proof (node_ok_span _ _ C1). unfold within; cbn [start end_].
  rewrite !andb_true_iff, !Nat.leb_le. lia.
Qed.

Lemma parseGroup_sat p :
  pinv p -> depth p = d -> pos p < len -> sat (parseGroup input group (pos p)) p (operand_post p).
Proof.
  intros [IL IN ID] D L. unfold parseGroup. step. apply sat_advance; [lia|]. intros p1 [] P1.
  step. apply sat_pushDepth; [lia|]. intros PD. set (p2 := p1 <| depth := _ |>).
  step. apply sat_skipSpace; [simpl; lia|]. intros p3 []. simpl in *. step. step.
  destruct (isByte ")" (head (rest_at input p3))) eqn:O.
  - assert (pos p3 < len).
    { pose proof (rest_length input p3) as RL. destruct (rest_at input p3); [done|]. simpl in RL. lia. }
    step. apply sat_advance; [lia|]. intros p4 [] P4. step. apply sat_popDepth. step. step.
    apply newGroupNode_sat. simpl. intros LT. split; [|auto].
    split; simpl; [lia..|]. apply (group_node_ok _ _ _ None); [lia..|done].
  - step. eapply sat_mono; [apply group_sat; [split; lia|lia]|].
    intros child p4 [NO ND NC NL NK]. step. apply sat_popDepth. step.
    apply sat_skipSpace; [simpl; lia|]. intros p5 []. simpl in *.
    do 6 step. pose proof (rest_length input p5) as RL.
    destruct (rest_at input p5) as [|c s] eqn:R; simpl; [apply sat_fail; lia|]. simpl in RL.
    destruct (negb (is_byte ")" c)).
    + apply sat_fail. unfold runeWidth. pose proof (DecodeRune_width (c :: s) ltac:(done)) as W.
      simpl length in W. destruct (DecodeRune (c :: s)).2; lia.
    + step. apply sat_advance; [lia|]. intros p6 [] P6. step. step.
      apply newGroupNode_sat. simpl. intros LT. split; [|auto].
      split; simpl; [lia..|]. apply (group_node_ok _ _ _ (Some child)); [lia..|].
      replace (maxNestingDepth - depth p - 1) with (maxNestingDepth - depth p3) by lia.
      split; [done|]. lia.
Qed.

Lemma parseOperand_sat insideGroup s c p :
  pinv p -> depth p = d -> pos p < len ->
  sat (parseOperand input group insideGroup (pos p) s c) p (operand_post p).
Proof.
  intros I D L. unfold parseOperand.
  repeat match goal with
  | |- SelectorFacts.sat _ (if ?b then _ else _) _ _ => destruct b
  end; try (apply sat_fail; lia).
  - by apply parseGroup_sat.
  - by apply newFilterOnlyAtom_sat.
  - by apply parseAtom_sat.
Qed.

Lemma parsePrimary_sat insideGroup p :
  pinv p -> depth p = d -> sat (parsePrimary input group insideGroup) p (node_post p).
Proof.
  intros I D. pose proof I as [IL IN ID]. unfold parsePrimary. step. apply sat_skipSpace; [done|].
  intros p1 A1. pose proof A1 as []. do 4 step. pose proof (rest_length input p1) as RL.
  destruct (rest_at input p1) as [|c s] eqn:R; [apply sat_fail; lia|]. simpl in RL.
  step. eapply sat_mono; [apply parseOperand_sat; [by eapply after_inv|lia|lia]|].
  intros n p2 ([NO ND NC NL NK] & NF & K). destruct n as [k cs fs a [s0 e0]]. simpl in *. subst fs.
  step. eapply sat_mono; [apply parseAttachedFilters_loop_sat; lia|]. intros fs p3 [].
  step. step. simpl. destruct (Nat.ltb_spec maxTermFilters (length fs)) as [LF|LF].
  - apply sat_fail. lia.
  - step. case_bool_decide.
    + subst fs. split; simpl in *; [lia..|].
      rewrite <- after_depth0. exact NK.
    + split; simpl in *; [lia..|]. rewrite <- after_depth0.
      eapply node_ok_filters; [done|exact NK|done|lia].
Qed.

Lemma mergeNodes_sat k left right p0 p1 p :
  k = astPickFirst \/ k = astMerge ->
  node_post p0 left p1 -> node_post p1 right p -> sat (mergeNodes input k left right) p (fun n p' => node_post p0 n p' /\ pos p' = pos p).
Proof.
  intros K [] []. unfold mergeNodes. step. apply sat_incNode. intros LT. step. split; [|done].
  split; simpl; [lia..|]. apply binary_ok; [done|done| |lia].
  by replace (depth p0) with (depth p1).
Qed.

(** a later state only moves the position *)
Lemma node_post_after p0 n p1 p : node_post p0 n p1 -> after p1 p -> node_post p0 n p.
Proof. intros [] []. split; (done || lia). Qed.

Lemma node_post_inv p0 n p : pinv p0 -> node_post p0 n p -> pinv p.
Proof. intros [] []. split; lia. Qed.

Lemma isByte_lt c p : isByte c (head (rest_at input p)) = true -> pos p < len.
Proof.
  pose proof (rest_length input p) as RL. destruct (rest_at input p); [done|]. simpl in RL. lia.
Qed.

Lemma operator_lt b c p : b || negb (isByte c (head (rest_at input p))) = false -> pos p < len.
Proof. intros [_ H%negb_false_iff]%orb_false_iff. by eapply isByte_lt. Qed.

(** the common head of the three loops: the operator [c], or the end *)
Lemma operator_sat {A} (c : byte) (insideGroup : bool) (stop : P A) (k : nat -> option byte -> P A) p Q :
  pos p <= len ->
  (forall p1, after p p1 -> sat stop p1 Q) ->
  (forall op p1, after p p1 -> pos p <= op < pos p1 ->
     sat (k op (head (rest_at input p1))) p1 Q) ->
  sat (skipSpace input;; o ← peek input;
       if closed insideGroup o || negb (isByte c o) then stop
       else operator ← getPos; advance 1;; skipSpace input;; o ← peek input; k operator o) p Q.
Proof.
  intros L STOP K. step. apply sat_skipSpace; [done|]. intros p1 A1. do 2 step.
  destruct (_ || negb _) eqn:O; [by apply STOP|]. apply operator_lt in O. pose proof A1 as []. do 3 step.
  apply sat_advance; [lia|]. intros p2 A2 P2. pose proof A2 as []. step. apply sat_skipSpace; [lia|].
  intros p3 A3. pose proof A3 as []. do 2 step. apply K; [eauto using after_trans|lia].
Qed.

(** one turn of the merge or choice loop behind its operator *)
Lemma binary_turn_sat k (m : P astNode) current p0 p p1 (next : astNode -> P astNode) :
  k = astPickFirst \/ k = astMerge -> pinv p0 -> node_post p0 current p -> after p p1 ->
  sat m p1 (node_post p1) ->
  (forall n p2, node_post p0 n p2 -> pos p1 <= pos p2 -> sat (next n) p2 (node_post p0)) ->
  sat (right ← m; current ← mergeNodes input k current right; next current) p1 (node_post p0).
Proof.
  intros K I NP A M N. step. eapply sat_mono; [exact M|]. intros right p2 R. step.
  eapply sat_mono; [apply (mergeNodes_sat k current right p0 p1); eauto using node_post_after|].
  intros n p3 [N3 E]. apply N; [done|]. destruct R. lia.
Qed.

Lemma parseMerge_loop_sat fuel insideGroup current terms p0 p :
  pinv p0 -> depth p0 = d -> node_post p0 current p -> len - pos p < fuel ->
  sat (parseMerge_loop input group fuel insideGroup current terms) p (node_post p0).
Proof.
  revert current terms p. induction fuel as [|n IH]; intros current terms p I0 D NP F; [lia|].
  pose proof (node_post_inv _ _ _ I0 NP) as I. simpl.
  apply operator_sat; [by destruct I|intros p1 A1; step; by eapply node_post_after|].
  intros op p1 A1 O. pose proof (node_post_after _ _ _ _ NP A1) as NP1. pose proof A1 as [].
  destruct (_ || isByte "," _); [apply sat_fail; lia|].
  apply (binary_turn_sat astMerge _ current p0 p p1); [by auto|done..| |].
  { apply parsePrimary_sat; [by apply (node_post_inv p0 current)|destruct NP1; lia]. }
  intros node p2 N2 L2. destruct (Nat.ltb_spec maxMergeTerms (S terms)).
  - apply sat_fail. destruct N2. lia.
  - apply IH; (done || lia).
Qed.

Lemma parseMerge_sat insideGroup p :
  pinv p -> depth p = d -> sat (parseMerge input group insideGroup) p (node_post p).
Proof.
  intros I D. unfold parseMerge. step. eapply sat_mono; [by apply parsePrimary_sat|].
  intros n p1 N. apply parseMerge_loop_sat; (done || lia).
Qed.

Lemma parseChoice_loop_sat fuel insideGroup current alternatives p0 p :
  pinv p0 -> depth p0 = d -> node_post p0 current p -> len - pos p < fuel ->
  sat (parseChoice_loop input group fuel insideGroup current alternatives) p (node_post p0).
Proof.
  revert current alternatives p. induction fuel as [|n IH]; intros current alternatives p I0 D NP F; [lia|].
  pose proof (node_post_inv _ _ _ I0 NP) as I. simpl.
  apply operator_sat; [by destruct I|intros p1 A1; step; by eapply node_post_after|].
  intros op p1 A1 O. pose proof (node_post_after _ _ _ _ NP A1) as NP1. pose proof A1 as [].
  destruct (_ || isByte "," _); [by step|].
  destruct (isByte "/" _); [apply sat_fail; lia|].
  apply (binary_turn_sat astPickFirst _ current p0 p p1); [by auto|done..| |].
  { apply parseMerge_sat; [by apply (node_post_inv p0 current)|destruct NP1; lia]. }
  intros node p2 N2 L2. destruct (Nat.ltb_spec maxAlternatives (S alternatives)).
  - apply sat_fail. destruct N2. lia.
  - apply IH; (done || lia).
Qed.

Lemma parseChoice_sat insideGroup p :
  pinv p -> depth p = d -> sat (parseChoice input group insideGroup) p (node_post p).
Proof.
  intros I D. unfold parseChoice. step. eapply sat_mono; [by apply parseMerge_sat|].
  intros n p1 N. apply parseChoice_loop_sat; (done || lia).
Qed.

(** the outputs read so far: ordered, well formed and counted *)
Record outputs_post (p0 : selectorParser) (outputs : list astNode) (p : selectorParser) : Prop := {
  op_some : outputs <> [];
  op_len : length outputs <= maxCommaOutputs;
  op_ok : Forall (fun n => node_ok (maxNestingDepth - depth p0) n = true) outputs;
  op_range : Forall (fun n => first_start outputs <= start (n_span n) /\
                              end_ (n_span n) <= last_end outputs) outputs;
  op_start : pos p0 <= first_start outputs;
  op_end : last_end outputs <= pos p <= len;
  op_depth : depth p = depth p0;
  op_count : nodeCount p = nodeCount p0 + list_sum (map node_size outputs);
  op_limit : nodeCount p <= maxASTNodes
}.

Lemma outputs_post_after p0 l p p' : outputs_post p0 l p -> after p p' -> outputs_post p0 l p'.
Proof. intros [] []. split; (done || lia). Qed.

Lemma outputs_post_snoc p0 l p n p' :
  outputs_post p0 l p -> node_post p n p' -> length (l ++ [n]) <= maxCommaOutputs ->
  outputs_post p0 (l ++ [n]) p'.
Proof.
  intros [] [] L. assert (F : first_start (l ++ [n]) = first_start l) by by destruct l.
  assert (E : last_end (l ++ [n]) = end_ (n_span n)) by by unfold last_end; rewrite last_snoc.
  assert (FE : first_start l <= last_end l).
  { destruct l as [|m l]; [done|]. apply Forall_inv in op_range0. apply Forall_inv in op_ok0.
    apply node_ok_span in op_ok0. simpl in *. lia. }
  split; rewrite ?F, ?E; try (done || lia).
  - by destruct l.
  - apply Forall_app. split; [done|]. constructor; [|done]. congruence.
  - apply Forall_app. split; [|constructor; [lia|done]].
    eapply Forall_impl; [exact op_range0|]. simpl. lia.
  - rewrite map_app, list_sum_app. simpl. lia.
Qed.

Lemma parseComma_loop_sat fuel insideGroup outputs p0 p :
  pinv p0 -> depth p0 = d -> outputs_post p0 outputs p -> len - pos p < fuel ->
  sat (parseComma_loop input group fuel insideGroup outputs) p (outputs_post p0).
Proof.
  revert outputs p. induction fuel as [|n IH]; intros outputs p I0 D NP F; [lia|]. simpl.
  apply operator_sat; [by destruct NP; lia|intros p1 A1; step; by eapply outputs_post_after|].
  intros op p1 A1 O. pose proof (outputs_post_after _ _ _ _ NP A1) as NP1. pose proof A1 as [].
  destruct (closed _ _) eqn:C; [by step|].
  destruct (isByte "," _) eqn:B; [apply isByte_lt in B; apply sat_fail; lia|].
  step. eapply sat_mono; [apply parseChoice_sat; destruct NP1, I0; [split|]; lia|].
  intros right p2 R. destruct (Nat.ltb_spec maxCommaOutputs (length (outputs ++ [right]))) as [G|G].
  - apply sat_fail. destruct NP1, R. unfold last_end. rewrite last_snoc.
    assert (first_start (outputs ++ [right]) = first_start outputs) as -> by by destruct outputs.
    destruct outputs as [|m l]; [done|]. apply Forall_inv in op_range0. apply Forall_inv in op_ok0.
    apply node_ok_span in op_ok0. simpl in *. lia.
  - apply IH; [done|done|by eapply outputs_post_snoc|]. destruct R. lia.
Qed.

Lemma newCommaNode_sat outputs p0 p :
  outputs_post p0 outputs p -> 2 <= length outputs ->
  sat (newCommaNode input outputs) p (node_post p0).
Proof.
  intros [] L2. unfold newCommaNode. step. apply sat_incNode. intros LT. step.
  assert (FE : first_start outputs <= last_end outputs).
  { destruct outputs as [|m l]; [done|]. apply Forall_inv in op_range0. apply Forall_inv in op_ok0.
    apply node_ok_span in op_ok0. simpl in *. lia. }
  split; simpl; [lia..|]. rewrite node_ok_eq. cbn [start end_]. rewrite !andb_true_iff.
  repeat split.
  - unfold shape_ok. cbn [n_kind n_children n_filters length].
    by rewrite (proj2 (Nat.leb_le _ _) L2), (proj2 (Nat.leb_le _ _) op_len0).
  - by apply Nat.leb_le.
  - apply forallb_forall. rewrite Forall_forall in op_ok0. intros n Hn. apply op_ok0.
    by apply list_elem_of_In.
  - apply forallb_forall. rewrite Forall_forall in op_range0, op_ok0. intros n Hn%list_elem_of_In.
    pose proof (node_ok_span _ _ (op_ok0 _ Hn)). specialize (op_range0 _ Hn).
    unfold within. simpl. rewrite !andb_true_iff, !Nat.leb_le. lia.
Qed.

Lemma parseComma_at_sat insideGroup p :
  pinv p -> depth p = d -> sat (parseComma_at input group insideGroup) p (node_post p).
Proof.
  intros I D. unfold parseComma_at. step. eapply sat_mono; [by apply parseChoice_sat|].
  intros first p1 [NO ND NC NL NK]. step.
  eapply sat_mono; [apply (parseComma_loop_sat (S len) insideGroup [first] p p1); [done..| |lia]|].
  { split; unfold last_end; simpl; try (done || lia).
    - unfold maxCommaOutputs. lia.
    - by constructor.
    - by constructor. }
  intros outputs p2 O. destruct outputs as [|n [|m l]]; [by destruct O| |].
  - step. destruct O. apply Forall_inv in op_ok0. pose proof (node_ok_span _ _ op_ok0).
    unfold last_end in *. simpl in *. split; (done || lia).
  - apply newCommaNode_sat; [done|simpl; lia].
Qed.

End LevelFacts.

Lemma parseComma_sat levels insideGroup p :
  pinv p -> maxNestingDepth < levels + depth p ->
  sat (parseComma input levels insideGroup) p (node_post p).
Proof.
  revert insideGroup p. induction levels as [|n IH]; intros insideGroup p I L.
  { destruct I. lia. }
  simpl. apply (parseComma_at_sat _ (depth p)); [|done..]. intros q Iq Dq. apply IH; [done|lia].
Qed.

Lemma parseSelectorAST_sat :
  match parseSelectorAST input with
  | Ok root => node_ok maxNestingDepth root = true /\ node_size root <= maxASTNodes /\
               end_ (n_span root) <= len
  | Err e => err_ok input e
  end.
Proof.
  unfold parseSelectorAST. destruct (_ <? _)%Z; [simpl; lia|].
  assert (S : sat (parseSelector_from input) (mkParser 0 0 0) (fun root _ =>
    node_ok maxNestingDepth root = true /\ node_size root <= maxASTNodes /\
    end_ (n_span root) <= len)).
  { unfold parseSelector_from. step. apply sat_skipSpace; [simpl; lia|]. intros p [PP PL PD PN].
    cbn in PP, PD, PN. do 2 step. destruct (atEnd _); [apply sat_fail; lia|]. step.
    eapply sat_mono; [apply (parseComma_sat (S maxNestingDepth)); [split|]; lia|]. intros root p1 [].
    step. apply sat_skipSpace; [lia|]. intros p2 []. do 4 step.
    pose proof (rest_length input p2) as RL. destruct (rest_at input p2) as [|c s] eqn:R.
    - step. rewrite PD in *. rewrite Nat.sub_0_r in *. split; [done|]. lia.
    - simpl in RL. apply sat_fail. unfold runeWidth. pose proof (DecodeRune_width (c :: s) ltac:(done)) as W.
      simpl length in W. destruct (DecodeRune (c :: s)).2; lia. }
  unfold SelectorFacts.sat in S. destruct (parseSelector_from input _) as [[root p]|e]; [|done]. exact S.
Qed.

End ParserFacts.

(** C20. A selector text of any form is parsed in bounded time: the parser returns a
    tree, or a syntax error on a byte range of the text.  The tree is well
    formed, has at most 256 nodes and 32 open groups on any path, at most 64
    outputs and 32 filters in a place, and every node's range lies inside its
    parent's. *)
Theorem selector_parse_total {UT : RuneTables} (input : bytes) :
  match parseSelectorAST input with
  | Ok root => node_ok maxNestingDepth root = true /\ node_size root <= maxASTNodes /\
               end_ (n_span root) <= length input
  | Err (SyntaxError s e _) => s <= e <= length input
  | Err _ => False
  end.
Proof.
  pose proof (parseSelectorAST_sat input) as S. destruct (parseSelectorAST input) as [root|e]; [done|].
  destruct e; exact S.
Qed.
