(* ===== verification/SelectorSyntax.v ===== *)
(** * The selector language and its parser

    A grammar of selectors as data ([prim], [selector]) with its concrete text
    ([print]) and its tree ([tree_of]), and the theorem that the parser reads
    the text of every selector within the limits back to its tree: precedence
    and associativity of comma, slash and plus, grouping, atoms and filters. *)
From S2P Require Import Prelude GoStrings Runes Value FilterNumber Filter Selector SelectorFacts.

#[local] Open Scope nat_scope.

(** ** Grammar *)

(** a comma list of slash lists of plus lists of operands; an operand is a
    word, a leading filter or a group, followed by filters *)
Inductive prim :=
| PWord (w : bytes) (fs : list bytes)
| PFilter (f : bytes) (fs : list bytes)
| PGroup (c : list (list (list prim))) (fs : list bytes).

Definition selector : Type := list (list (list prim)).

Definition sep_by (c : byte) (l : list bytes) : bytes :=
  match l with
  | [] => []
  | x :: xs => x ++ flat_map (cons c) xs
  end.

Definition print_filters (fs : list bytes) : bytes :=
  flat_map (fun f => "["%byte :: f ++ ["]"%byte]) fs.

Fixpoint print_prim (p : prim) : bytes :=
  match p with
  | PWord w fs => w ++ print_filters fs
  | PFilter f fs => print_filters (f :: fs)
  | PGroup c fs =>
      "("%byte ::
      sep_by "," (map (fun ch => sep_by "/" (map (fun m => sep_by "+" (map print_prim m)) ch)) c) ++
      ")"%byte :: print_filters fs
  end.

Definition print_merge (m : list prim) : bytes := sep_by "+" (map print_prim m).
Definition print_choice (ch : list (list prim)) : bytes := sep_by "/" (map print_merge ch).
Definition print (s : selector) : bytes := sep_by "," (map print_choice s).

(** ** Trees *)

(** a syntax tree without ranges; a filter is its text *)
Inductive tree := TNode (k : astKind) (cs : list tree) (fs : list bytes) (a : atomSpec).

Fixpoint erase (n : astNode) : tree :=
  match n with mkNode k cs fs a _ => TNode k (map erase cs) (map f_raw fs) a end.

Fixpoint tsize (t : tree) : nat :=
  match t with TNode _ cs _ _ => S (list_sum (map tsize cs)) end.

(** left-associated applications of a binary operator *)
Definition fold_op (k : astKind) (l : list tree) : option tree :=
  match l with
  | [] => None
  | t :: ts => Some (foldl (fun acc t => TNode k [acc; t] [] zeroSpec) t ts)
  end.

Definition comma_tree (l : list tree) : tree :=
  match l with
  | [t] => t
  | _ => TNode astComma l [] zeroSpec
  end.

Section Trees.
Context {UT : RuneTables}.

Definition word_spec (w : bytes) : atomSpec :=
  match parseAtomSpec w 0 with Ok spec => spec | Err _ => zeroSpec end.

Definition or_empty (t : option tree) : tree := default (TNode astGroup [] [] zeroSpec) t.

Fixpoint tree_of_prim (p : prim) : tree :=
  match p with
  | PWord w fs => TNode astAtom [] fs (word_spec w)
  | PFilter f fs => TNode astAtom [] (f :: fs) (mkSpec atomFilterOnly [] zeroAtom)
  | PGroup c fs =>
      TNode astGroup
        (match c with
         | [] => []
         | _ => [comma_tree (map (fun ch => or_empty (fold_op astPickFirst
                  (map (fun m => or_empty (fold_op astMerge (map tree_of_prim m))) ch))) c)]
         end) fs zeroSpec
  end.

Definition tree_of_merge (m : list prim) : tree := or_empty (fold_op astMerge (map tree_of_prim m)).
Definition tree_of_choice (ch : list (list prim)) : tree :=
  or_empty (fold_op astPickFirst (map tree_of_merge ch)).
Definition tree_of (s : selector) : tree := comma_tree (map tree_of_choice s).

(** ** Selectors that the grammar admits *)

(** a byte that stands for itself inside a word *)
Definition word_byte (c : byte) : bool :=
  (b2z c <? 0x80)%Z && negb (IsSpace (b2z c)) && negb (isSelectorDelimiter c).

Definition word_ok (w : bytes) : bool :=
  match w with
  | [] => false
  | c :: _ => negb (is_byte "=" c) && forallb word_byte w &&
              match parseAtomSpec w 0 with Ok _ => true | Err _ => false end
  end.

(** a filter text ends outside quotes and has no closing bracket outside them *)
Fixpoint filter_body (f : bytes) (quote : option byte) (escaped : bool) : bool :=
  match f with
  | [] => match quote with None => true | Some _ => false end
  | c :: f' =>
      match quote with
      | Some q =>
          if escaped then filter_body f' quote false
          else if is_byte backslash c then filter_body f' quote true
          else filter_body f' (if is_byte q c then None else quote) false
      | None =>
          if is_byte squote c || is_byte dquote c then filter_body f' (Some c) false
          else negb (is_byte "]" c) && filter_body f' None false
      end
  end.

Definition filter_ok (f : bytes) : bool :=
  filter_body f None false && match parseFilter f 0 with Ok _ => true | Err _ => false end.

Definition filters_ok (fs : list bytes) : bool :=
  forallb filter_ok fs && (length fs <=? maxTermFilters).

Definition some_of {A} (l : list A) : bool := match l with [] => false | _ => true end.

(** [levels] bounds the nesting of groups *)
Fixpoint prim_ok (levels : nat) (p : prim) : bool :=
  match p with
  | PWord w fs => word_ok w && filters_ok fs
  | PFilter f fs => filters_ok (f :: fs)
  | PGroup c fs =>
      filters_ok fs && (1 <=? levels) && (length c <=? maxCommaOutputs) &&
      forallb (fun ch => some_of ch && (length ch <=? maxAlternatives) &&
        forallb (fun m => some_of m && (length m <=? maxMergeTerms) &&
          forallb (prim_ok (levels - 1)) m) ch) c
  end.

Definition merge_ok (levels : nat) (m : list prim) : bool :=
  some_of m && (length m <=? maxMergeTerms) && forallb (prim_ok levels) m.
Definition choice_ok (levels : nat) (ch : list (list prim)) : bool :=
  some_of ch && (length ch <=? maxAlternatives) && forallb (merge_ok levels) ch.
Definition selector_ok (s : selector) : bool :=
  some_of s && (length s <=? maxCommaOutputs) && forallb (choice_ok maxNestingDepth) s &&
  (tsize (tree_of s) <=? maxASTNodes) && (zlen (print s) <=? maxSelectorBytes)%Z.

End Trees.

(** induction on operands through the lists of a group *)
Section PrimInd.
Variable Q : prim -> Prop.
Hypothesis Q_word : forall w fs, Q (PWord w fs).
Hypothesis Q_filter : forall f fs, Q (PFilter f fs).
Hypothesis Q_group : forall c fs, Forall (Forall (Forall Q)) c -> Q (PGroup c fs).

Fixpoint prim_nested_ind (p : prim) : Q p.
Proof.
  destruct p as [w fs|f fs|c fs]; [apply Q_word|apply Q_filter|]. apply Q_group.
  induction c as [|ch c IHc]; constructor; [|exact IHc].
  induction ch as [|m ch IHch]; constructor; [|exact IHch].
  induction m as [|p m IHm]; constructor; [apply prim_nested_ind|exact IHm].
Defined.

End PrimInd.

(** ** Reading printed text *)

#[local] Arguments hasJoinableOperator : simpl never.
#[local] Arguments isSelectorDelimiter : simpl never.
#[local] Arguments word_byte : simpl never.

Section Reading.
Context {UT : RuneTables}.
Variable input : bytes.

(** the step succeeds and leads to [Q] *)
Definition wp {A} (m : P A) (p : selectorParser) (Q : A -> selectorParser -> Prop) : Prop :=
  match m p with Ok (a, p') => Q a p' | Err _ => False end.

Lemma wp_bind {A B} (m : P A) (f : A -> P B) p Q :
  wp m p (fun a p' => wp (f a) p' Q) -> wp (m ≫= f) p Q.
Proof. unfold wp, mbind, P_bind. by destruct (m p) as [[a p']|e]. Qed.

Lemma wp_mono {A} (m : P A) p (Q Q' : A -> selectorParser -> Prop) :
  wp m p Q -> (forall a p', Q a p' -> Q' a p') -> wp m p Q'.
Proof. unfold wp. destruct (m p) as [[a p']|e]; auto. Qed.

Lemma wp_ret {A} (a : A) p Q : Q a p -> wp (mret a) p Q.
Proof. done. Qed.
Lemma wp_getPos p Q : Q (pos p) p -> wp getPos p Q.
Proof. done. Qed.
Lemma wp_remaining p s Q : rest_at input p = s -> Q s p -> wp (remaining input) p Q.
Proof. unfold wp, remaining. by intros ->. Qed.
Lemma wp_peek p s Q : rest_at input p = s -> Q (head s) p -> wp (peek input) p Q.
Proof. unfold wp, peek. by intros ->. Qed.

(** moving the position keeps the counters *)
Record moved (p : selectorParser) (s : bytes) (p' : selectorParser) : Prop := {
  mv_rest : rest_at input p' = s;
  mv_depth : depth p' = depth p;
  mv_nodes : nodeCount p' = nodeCount p
}.

Lemma moved_refl p : moved p (rest_at input p) p.
Proof. done. Qed.

Lemma moved_trans p s p' t p'' : moved p s p' -> moved p' t p'' -> moved p t p''.
Proof. intros [] []. split; congruence. Qed.

Lemma wp_advance n p s Q :
  drop n (rest_at input p) = s -> (forall p', moved p s p' -> Q tt p') -> wp (advance n) p Q.
Proof.
  intros E H. unfold wp, advance. apply H. split; [|done|done]. unfold rest_at in *. simpl.
  rewrite <- drop_drop. done.
Qed.

(** a text whose first rune is not a space *)
Definition solid (s : bytes) : Prop :=
  match s with [] => True | c :: _ => (b2z c < 0x80)%Z /\ IsSpace (b2z c) = false end.

Lemma wp_skipSpace p Q : solid (rest_at input p) -> Q tt p -> wp (skipSpace input) p Q.
Proof.
  intros S H. unfold wp, skipSpace.
  assert (Z0 : prefix_len IsSpace (rest_at input p) = 0).
  { destruct (rest_at input p) as [|c s]; [done|]. destruct S as [A N]. apply prefix_len_0.
    by rewrite DecodeRune_ascii. }
  rewrite Z0. destruct p. simpl. by rewrite Nat.add_0_r.
Qed.

(** [t] is empty or starts with one of [cs], and joins with nothing *)
Definition follows (cs : string) (t : bytes) : Prop :=
  t = [] \/ exists c t', t = c :: t' /\ any_of cs c = true /\ hasJoinableOperator t = false.

Lemma any_of_In cs c : any_of cs c = true -> In c (lit cs).
Proof.
  unfold any_of, ContainsByte. intros (d & I & E)%existsb_exists. apply is_byte_true in E as ->. done.
Qed.

Lemma follows_weaken cs cs' t :
  (forall c, In c (lit cs) -> any_of cs' c = true) -> follows cs t -> follows cs' t.
Proof.
  intros W [->|(c & t' & -> & A & J)]; [by left|right]. exists c, t'. split; [done|].
  split; [by apply W, any_of_In|done].
Qed.

Lemma follows_solid t : follows "[+/,)" t -> solid t.
Proof.
  intros [->|(c & t' & -> & A%any_of_In & _)]; [done|]. simpl in A.
  repeat destruct A as [<-|A]; try done.
Qed.

Lemma follows_delimiter c t : follows "[+/,)" (c :: t) ->
  isSelectorDelimiter c = true /\ hasJoinableOperator (c :: t) = false.
Proof.
  intros [H|(c' & t' & [= <- <-] & A%any_of_In & J)]; [done|]. split; [|done]. simpl in A.
  repeat destruct A as [<-|A]; done.
Qed.

(** *** Words *)

Lemma word_byte_facts c s :
  word_byte c = true ->
  hasJoinableOperator (c :: s) = false /\ isSelectorDelimiter c = false /\
  DecodeRune (c :: s) = (b2z c, 1) /\ IsSpace (b2z c) = false /\ is_bad_rune (b2z c, 1) = false.
Proof.
  unfold word_byte. rewrite !andb_true_iff, !negb_true_iff, Z.ltb_lt. intros [[A S] D].
  assert (N : is_byte "/" c = false /\ is_byte "+" c = false).
  { split; apply not_true_iff_false; intros E%is_byte_true; subst c; vm_compute in D; discriminate D. }
  destruct N as [N1 N2]. split; [destruct s; [done|]; unfold hasJoinableOperator; by rewrite N1, N2|].
  split; [done|]. split; [by apply DecodeRune_ascii|]. split; [done|].
  unfold is_bad_rune. simpl. rewrite andb_true_r. apply Z.eqb_neq. unfold RuneError. lia.
Qed.

Lemma parseAtom_loop_word fuel w t text e p :
  length w < fuel -> forallb word_byte w = true -> follows "[+/,)" t ->
  rest_at input p = w ++ t ->
  wp (parseAtom_loop input fuel text e) p (fun r p' => r.1 = text ++ w /\ moved p t p').
Proof.
  revert w text e p. induction fuel as [|n IH]; intros w text e p L W F R; [lia|]. simpl.
  apply wp_bind. eapply wp_remaining; [exact R|]. destruct w as [|c w]; simpl in *.
  - destruct t as [|c t].
    + apply wp_ret. rewrite app_nil_r. split; [done|]. by rewrite <- R.
    + destruct (follows_delimiter c t F) as [D J]. rewrite J, D. apply wp_ret.
      rewrite app_nil_r. split; [done|]. by rewrite <- R.
  - apply andb_true_iff in W as [Wc W]. destruct (word_byte_facts c (w ++ t) Wc) as (J & D & DR & S & B).
    rewrite J, D, DR. apply wp_bind, wp_getPos. rewrite B, S. apply wp_bind.
    apply (wp_advance 1 p (w ++ t)); [by rewrite R|]. intros p1 M1.
    eapply wp_mono; [apply (IH w); [lia|done|done|apply M1]|].
    intros r p' [-> M2]. split; [by rewrite <- app_assoc|by eapply moved_trans].
Qed.

Lemma wp_incNode p (Q : unit -> selectorParser -> Prop) :
  nodeCount p < maxASTNodes -> Q tt (p <| nodeCount := S (nodeCount p) |>) -> wp (incNode input) p Q.
Proof.
  intros L H. unfold wp, incNode. simpl. by rewrite (proj2 (Nat.ltb_ge _ _)) by lia.
Qed.

(** what reading a text with tree [t] does *)
Record read (p : selectorParser) (t : tree) (tail : bytes) (n : astNode) (p' : selectorParser) : Prop := {
  rd_tree : erase n = t;
  rd_rest : rest_at input p' = tail;
  rd_depth : depth p' = depth p;
  rd_nodes : nodeCount p' = nodeCount p + tsize t
}.

Lemma parseAtomSpec_pos w st :
  word_ok w = true -> parseAtomSpec w st = Ok (word_spec w).
Proof.
  destruct w as [|c w]; [done|]. unfold word_ok. rewrite !andb_true_iff. intros [_ H]. revert H.
  unfold word_spec, parseAtomSpec. rewrite (bool_decide_false (c :: w = [])) by done.
  destruct (classifyExtensionToken (c :: w)); [done|]. destruct (at_OK _); [done|].
  by destruct (validDirectIDToken (c :: w)).
Qed.

Lemma parseAtom_word w t p :
  word_ok w = true -> follows "[+/,)" t -> rest_at input p = w ++ t -> nodeCount p < maxASTNodes ->
  wp (parseAtom input) p (read p (TNode astAtom [] [] (word_spec w)) t).
Proof.
  intros W F R L. unfold parseAtom. apply wp_bind, wp_getPos, wp_bind.
  eapply wp_remaining; [exact R|]. apply wp_bind.
  assert (LW : length w < S (length input)).
  { pose proof (rest_length input p) as RL. rewrite R, length_app in RL. lia. }
  assert (WB : forallb word_byte w = true /\ w <> []).
  { destruct w as [|c w]; [done|]. unfold word_ok in W. rewrite !andb_true_iff in W. by destruct W as [[_ W] _]. }
  eapply wp_mono; [apply (parseAtom_loop_word _ w t); [done|apply WB|done|done]|].
  intros [text e] p1 [E M]. simpl in E. subst text.
  rewrite bool_decide_false by apply WB. rewrite parseAtomSpec_pos by done. unfold newAtomNode.
  apply wp_bind, wp_incNode; [by rewrite (mv_nodes _ _ _ M)|]. apply wp_ret.
  destruct M. split; simpl; [done|done|done|]. lia.
Qed.

(** *** Filters *)

Lemma scan_filter_body f quote escaped at_ qs rest :
  filter_body f quote escaped = true ->
  scan_filter (f ++ "]"%byte :: rest) at_ quote qs escaped = inl (at_ + length f).
Proof.
  revert quote escaped at_ qs. induction f as [|c f IH]; intros quote escaped at_ qs; simpl.
  { destruct quote; [done|]. intros _. f_equal. lia. }
  intros B. destruct quote as [q|].
  - destruct escaped; [rewrite IH by done; f_equal; lia|].
    destruct (is_byte backslash c); rewrite IH by done; f_equal; lia.
  - destruct (is_byte squote c || is_byte dquote c); [rewrite IH by done; f_equal; lia|].
    apply andb_true_iff in B as [B1 B2]. apply negb_true_iff in B1. rewrite B1, IH by done. f_equal. lia.
Qed.

Lemma parseFilter_anywhere f st :
  filter_ok f = true -> exists x, parseFilter f st = Ok x /\ f_raw x = f.
Proof.
  unfold filter_ok, parseFilter. rewrite andb_true_iff. intros [_ H]. revert H.
  induction filter_operators as [|op ops IH]; simpl; [done|].
  destruct (Index f (lit op)) as [[|i]|]; [exact IH| |exact IH].
  destruct (_ || _); [done|]. destruct (_ <? _)%Z; [done|]. eauto.
Qed.

Lemma attached_filters fuel fs acc t p :
  length fs < fuel -> forallb filter_ok fs = true -> follows "+/,)" t ->
  rest_at input p = print_filters fs ++ t ->
  wp (parseAttachedFilters_loop input fuel acc) p (fun r p' =>
    map f_raw r = map f_raw acc ++ fs /\ moved p t p').
Proof.
  revert fs acc p. induction fuel as [|n IH]; intros fs acc p L B F R; [lia|].
  cbn [parseAttachedFilters_loop].
  assert (SO : solid (rest_at input p)).
  { rewrite R. destruct fs; [|done]. simpl. apply follows_solid. eapply follows_weaken; [|exact F].
    simpl. intros c H. repeat destruct H as [<-|H]; done. }
  apply wp_bind, wp_skipSpace; [done|]. apply wp_bind. eapply wp_remaining; [exact R|].
  destruct fs as [|f fs].
  - assert (M : map f_raw acc = map f_raw acc ++ [] /\ moved p t p) by (rewrite app_nil_r; split; [done|]; by split).
    simpl. destruct t as [|c t]; [by apply wp_ret|].
    assert (N : is_byte "[" c = false).
    { destruct F as [F|(c' & t' & [= <- <-] & A%any_of_In & _)]; [done|]. simpl in A.
      repeat destruct A as [<-|A]; done. }
    rewrite N. by apply wp_ret.
  - simpl in B. apply andb_true_iff in B as [Bf B].
    pose proof Bf as [BB _]%andb_true_iff. cbn [print_filters flat_map app].
    rewrite <- !app_assoc. cbn [app]. rewrite is_byte_refl.
    apply wp_bind, wp_getPos. rewrite scan_filter_body by done.
    replace (S (pos p) + length f - S (pos p)) with (length f) by lia.
    rewrite take_app_exact by done.
    destruct (parseFilter_anywhere f (S (pos p)) Bf) as (x & -> & X).
    replace (S (S (pos p) + length f) - pos p) with (S (S (length f))) by lia.
    apply wp_bind. eapply (wp_advance _ p (print_filters fs ++ t)).
    { rewrite R. cbn [print_filters flat_map app drop]. rewrite <- !app_assoc. cbn [app].
      replace (S (length f)) with (length f + 1) by lia. rewrite <- drop_drop, drop_app_exact by done. done. }
    intros p1 M1. simpl in L. eapply wp_mono; [apply (IH fs); [lia|done|done|apply M1]|].
    intros r p' [E M]. split; [|by eapply moved_trans]. rewrite E, map_app, <- app_assoc. simpl. by rewrite X.
Qed.

(** *** Operands *)

(** the first byte of an operand *)
Definition starter (c : byte) : Prop :=
  (b2z c < 0x80)%Z /\ IsSpace (b2z c) = false /\ Forall (fun d => is_byte d c = false) (lit "+/,)=]").

Lemma starter_word c : word_byte c = true -> is_byte "=" c = false -> starter c.
Proof.
  intros W E. pose proof W as W'. unfold word_byte in W'.
  rewrite !andb_true_iff, !negb_true_iff, Z.ltb_lt in W'. destruct W' as [[A S] D].
  split; [done|]. split; [done|].
  assert (N : forall d, isSelectorDelimiter d = true -> is_byte d c = false).
  { intros d Hd. apply not_true_iff_false. intros X%is_byte_true. subst d. congruence. }
  repeat constructor; [apply N; reflexivity..|done|apply N; reflexivity].
Qed.

Lemma starter_prim n q : prim_ok n q = true -> exists c s, print_prim q = c :: s /\ starter c.
Proof.
  destruct q as [w fs|f fs|c fs]; simpl.
  - intros [W _]%andb_true_iff. destruct w as [|c w]; [done|]. exists c, (w ++ print_filters fs).
    split; [done|]. unfold word_ok in W. rewrite !andb_true_iff, negb_true_iff in W. destruct W as [[E W] _].
    simpl in W. apply andb_true_iff in W as [W _]. by apply starter_word.
  - intros _. eexists _, _. split; [reflexivity|]. split; [done|]. split; [done|]. by repeat constructor.
  - intros _. eexists _, _. split; [reflexivity|]. split; [done|]. split; [done|]. by repeat constructor.
Qed.

Lemma starter_solid c s : starter c -> solid (c :: s).
Proof. intros (A & S & _). done. Qed.

Lemma starter_not c d : starter c -> In d (lit "+/,)=]") -> is_byte d c = false.
Proof. intros (_ & _ & F) I. rewrite Forall_forall in F. apply F. by apply list_elem_of_In. Qed.

Lemma starter_joins op c s : starter c -> hasJoinableOperator (op :: c :: s) = false.
Proof.
  intros C. unfold hasJoinableOperator. rewrite (starter_not c "/"), (starter_not c "=") by (done || simpl; tauto).
  by rewrite !andb_false_r.
Qed.

(** texts that start an operand *)
Definition starts (x : bytes) : Prop := exists c s, x = c :: s /\ starter c.

Lemma starts_app x y : starts x -> starts (x ++ y).
Proof. intros (c & s & -> & S). by exists c, (s ++ y). Qed.

Lemma sep_by_starts c x xs : starts x -> starts (sep_by c (x :: xs)).
Proof. apply starts_app. Qed.

Lemma sep_follows op cs l t :
  any_of cs op = true -> Forall starts l -> follows cs t -> follows cs (flat_map (cons op) l ++ t).
Proof.
  intros A S F. destruct S as [|x l (c & s & -> & C) _]; [done|]. right. simpl.
  eexists _, _. split; [reflexivity|]. split; [done|]. by apply starter_joins.
Qed.

Definition room (n : nat) (p : selectorParser) : Prop := depth p + n <= maxNestingDepth.

(** [m] reads the text [x] to the tree [t], before a text that follows [cs] *)
Definition reads (n : nat) (m : P astNode) (cs : string) (x : bytes) (t : tree) : Prop :=
  forall p tail, follows cs tail -> rest_at input p = x ++ tail ->
    nodeCount p + tsize t <= maxASTNodes -> room n p -> wp m p (read p t tail).

Lemma follows_prim t : follows "+/,)" t -> follows "[+/,)" t.
Proof. apply follows_weaken. simpl. intros c H. repeat destruct H as [<-|H]; done. Qed.

Lemma print_filters_follows fs t : follows "+/,)" t -> follows "[+/,)" (print_filters fs ++ t).
Proof.
  intros F. destruct fs as [|f fs]; [by apply follows_prim|]. right. eexists _, _.
  split; [reflexivity|]. split; [done|]. unfold hasJoinableOperator.
  cbn [print_filters flat_map app]. by destruct ((f ++ ["]"%byte]) ++ flat_map _ fs) as [|]; destruct t.
Qed.

Lemma print_filters_length fs : length fs <= length (print_filters fs).
Proof. induction fs as [|f fs IH]; simpl; [lia|]. rewrite !length_app. simpl. lia. Qed.

Section Levels.
Variable group : P astNode.

(** an operand and its filters *)
Lemma primary_reads ig n q (operand : bytes) k cs a fs :
  starts operand ->
  (forall p tail c s, operand = c :: s -> follows "[+/,)" tail -> rest_at input p = operand ++ tail ->
     nodeCount p + tsize (TNode k cs [] a) <= maxASTNodes -> room n p ->
     wp (parseOperand input group ig (pos p) (operand ++ tail) c) p (read p (TNode k cs [] a) tail)) ->
  filters_ok fs = true ->
  q = operand ++ print_filters fs ->
  reads n (parsePrimary input group ig) "+/,)" q (TNode k cs fs a).
Proof.
  intros (c & s & -> & C) OP FO -> p tail F R L RM. rewrite <- app_assoc in R. unfold parsePrimary.
  apply wp_bind, wp_skipSpace; [rewrite R; by apply starter_solid|].
  apply wp_bind. eapply wp_remaining; [exact R|]. apply wp_bind, wp_getPos. cbn [app].
  apply wp_bind. eapply wp_mono.
  { apply (OP p (print_filters fs ++ tail) c s); auto using print_filters_follows. }
  intros nd p1 [T RR D N]. apply andb_true_iff in FO as [FO FL]. apply Nat.leb_le in FL.
  destruct nd as [k' cs' fs' a' sp]. simpl in T. injection T as -> TC TF ->.
  destruct fs' as [|]; [|done]. apply wp_bind.
  eapply wp_mono; [apply (attached_filters _ fs [] tail); [|done|done|done]|].
  { pose proof (rest_length input p1) as RL. rewrite RR, length_app in RL.
    pose proof (print_filters_length fs). lia. }
  intros r p2 [E M]. simpl in E. apply wp_bind, wp_getPos. simpl.
  assert (LR : length r = length fs) by (rewrite <- E, length_map; done).
  rewrite (proj2 (Nat.ltb_ge _ _)) by lia. apply wp_ret. destruct M.
  split; simpl; [by rewrite TC, E|done|congruence|]. simpl in N. lia.
Qed.

Lemma word_reads ig n w fs :
  prim_ok n (PWord w fs) = true ->
  reads n (parsePrimary input group ig) "+/,)" (print_prim (PWord w fs)) (tree_of_prim (PWord w fs)).
Proof.
  intros OK. pose proof OK as [W F]%andb_true_iff. apply (primary_reads ig n _ w); [|..|done|done].
  { destruct (starter_prim 0 (PWord w [])) as (c & s & E & S); [simpl; by rewrite W|].
    simpl in E. rewrite app_nil_r in E. by exists c, s. }
  intros p tail c s -> FL R L _. unfold parseOperand.
  assert (D : isSelectorDelimiter c = false).
  { unfold word_ok in W. rewrite !andb_true_iff in W. destruct W as [[_ W] _]. simpl in W.
    apply andb_true_iff in W as [W _]. apply (word_byte_facts c s W). }
  assert (N : forall d, isSelectorDelimiter d = true -> is_byte d c = false).
  { intros d Hd. apply not_true_iff_false. intros X%is_byte_true. subst d. congruence. }
  rewrite !N by reflexivity. cbn [orb andb negb]. apply parseAtom_word; auto. simpl in L. lia.
Qed.

Lemma filter_reads ig n f fs :
  prim_ok n (PFilter f fs) = true ->
  reads n (parsePrimary input group ig) "+/,)" (print_prim (PFilter f fs)) (tree_of_prim (PFilter f fs)).
Proof.
  intros OK p tail F R L RM. simpl in OK. unfold parsePrimary. simpl in R.
  apply wp_bind, wp_skipSpace; [by rewrite R|].
  apply wp_bind. eapply wp_remaining; [exact R|]. apply wp_bind, wp_getPos.
  unfold parseOperand. cbn [is_byte]. change (is_byte "(" "[") with false. change (is_byte "[" "[") with true.
  cbv iota. unfold newFilterOnlyAtom. apply wp_bind, wp_bind, wp_incNode; [simpl in L; lia|]. apply wp_ret.
  apply andb_true_iff in OK as [FO FL]. apply Nat.leb_le in FL. apply wp_bind.
  eapply wp_mono; [apply (attached_filters _ (f :: fs) [] tail); [|done|done|exact R]|].
  { pose proof (rest_length input p) as RL. rewrite R in RL. cbn [app length] in RL. rewrite !length_app in RL.
    pose proof (print_filters_length fs). unfold print_filters in *. simpl in *. lia. }
  intros r p2 [E M]. apply wp_bind, wp_getPos. cbn [n_filters app map] in *.
  assert (LR : length r = length (f :: fs)) by (rewrite <- E, length_map; done).
  rewrite (proj2 (Nat.ltb_ge _ _)) by lia. apply wp_ret. destruct M. split; simpl in *; [by rewrite E|done..|lia].
Qed.

Definition group_children (c : selector) : list tree :=
  match c with [] => [] | _ => [tree_of c] end.

Lemma close_follows s : follows ")" (")"%byte :: s).
Proof. right. eexists _, _. split; [reflexivity|]. split; [done|]. by destruct s. Qed.

Lemma wp_pushDepth p (Q : unit -> selectorParser -> Prop) :
  depth p < maxNestingDepth -> Q tt (p <| depth := S (depth p) |>) -> wp pushDepth p Q.
Proof. intros L H. unfold wp, pushDepth. simpl. by rewrite (proj2 (Nat.ltb_ge _ _)) by lia. Qed.

Lemma wp_newGroupNode st child p (Q : astNode -> selectorParser -> Prop) :
  nodeCount p < maxASTNodes ->
  Q (mkNode astGroup (match child with Some c => [c] | None => [] end) [] zeroSpec (mkSpan st (pos p)))
    (p <| nodeCount := S (nodeCount p) |>) ->
  wp (newGroupNode input st (pos p) child) p Q.
Proof. intros L H. unfold newGroupNode. apply wp_bind, wp_incNode; [done|]. by apply wp_ret. Qed.

Lemma group_reads ig n c fs :
  (c <> [] -> reads n group ")" (print c) (tree_of c)) ->
  Forall starts (map print_choice c) -> filters_ok fs = true ->
  reads (S n) (parsePrimary input group ig) "+/,)" (print_prim (PGroup c fs)) (tree_of_prim (PGroup c fs)).
Proof.
  intros G ST FO.
  apply (primary_reads ig (S n) _ ("("%byte :: print c ++ [")"%byte]) astGroup (group_children c)); [|..|done|].
  { eexists _, _. split; [reflexivity|]. split; [done|]. split; [done|]. by repeat constructor. }
  2: { cbn [print_prim app]. by rewrite <- app_assoc. }
  intros p t b s [= <- <-] F R L RM. unfold room in RM. unfold parseOperand.
  change (is_byte "(" "(") with true. cbv iota. unfold parseGroup. cbn [app] in R. rewrite <- app_assoc in R.
  apply wp_bind, (wp_advance 1 p (print c ++ ")"%byte :: t)); [by rewrite R|]. intros p1 M1.
  destruct M1 as [R1 D1 N1].
  apply wp_bind, wp_pushDepth; [lia|]. apply wp_bind.
  assert (R2 : rest_at input (p1 <| depth := S (depth p1) |>) = print c ++ ")"%byte :: t) by exact R1.
  assert (SO : solid (print c ++ ")"%byte :: t)).
  { destruct c as [|ch c]; [done|]. destruct (sep_by_starts "," (print_choice ch) (map print_choice c)) as (b & s & E & S).
    - by apply Forall_inv in ST.
    - unfold print. simpl map. rewrite E. by apply starter_solid. }
  apply wp_skipSpace; [by rewrite R2|]. apply wp_bind. eapply wp_peek; [exact R2|].
  destruct c as [|ch c].
  - change (isByte ")" (head (print [] ++ ")"%byte :: t))) with true. cbv iota.
    apply wp_bind, (wp_advance 1 _ t); [by rewrite R2|]. intros p2 [R3 D3 N3]. apply wp_bind.
    unfold wp at 1, popDepth. apply wp_bind, wp_getPos. apply wp_newGroupNode; simpl in *; [lia|].
    split; simpl; [done|done|lia|lia].
  - assert (NC : isByte ")" (head (print (ch :: c) ++ ")"%byte :: t)) = false).
    { destruct (sep_by_starts "," (print_choice ch) (map print_choice c)) as (b & s & E & S).
      - by apply Forall_inv in ST.
      - unfold print. simpl map. rewrite E. simpl. apply (starter_not b); [done|simpl; tauto]. }
    rewrite NC. apply wp_bind. eapply wp_mono.
    { apply (G ltac:(done) _ (")"%byte :: t)); [apply close_follows|exact R2|simpl in *; lia|unfold room; simpl; lia]. }
    intros nd p2 [T R3 D3 N3]. apply wp_bind. unfold wp at 1, popDepth. apply wp_bind.
    apply wp_skipSpace; [by change (rest_at input _) with (rest_at input p2); rewrite R3|].
    apply wp_bind. eapply (wp_peek _ (")"%byte :: t)); [exact R3|]. apply wp_bind.
    eapply (wp_remaining _ (")"%byte :: t)); [exact R3|]. apply wp_bind, wp_getPos. simpl head. cbn [atEnd].
    change (negb (isByte ")" (Some ")"%byte))) with false. cbv iota. apply wp_bind.
    apply (wp_advance 1 _ t); [by change (rest_at input _) with (rest_at input p2); rewrite R3|].
    intros p3 [R4 D4 N4]. apply wp_bind, wp_getPos. simpl in *. apply wp_newGroupNode; [lia|].
    split; simpl; [by rewrite T|done|lia|lia].
Qed.

(** *** Operators *)

(** the head of a loop: stop when [c] does not follow *)
Lemma wp_stop {A} c cs ig (stop : P A) (k : nat -> option byte -> P A) p t Q :
  rest_at input p = t -> follows cs t -> any_of cs c = false -> follows "[+/,)" t ->
  wp stop p Q ->
  wp (skipSpace input;; o ← peek input;
      if closed ig o || negb (isByte c o) then stop
      else operator ← getPos; advance 1;; skipSpace input;; o ← peek input; k operator o) p Q.
Proof.
  intros R F NC F' H. apply wp_bind, wp_skipSpace; [rewrite R; by apply follows_solid|].
  apply wp_bind. eapply wp_peek; [exact R|]. destruct F as [->|(d & t' & -> & AO & _)]; [done|].
  change (head (d :: t')) with (Some d). assert (N : isByte c (Some d) = false).
  { simpl. apply not_true_iff_false. intros E%is_byte_true. subst d. congruence. }
  rewrite N. cbn [negb]. by rewrite orb_true_r.
Qed.

(** the head of a loop: the operator [c] and then an operand *)
Lemma wp_operator {A} c ig (stop : P A) (k : nat -> option byte -> P A) p x Q :
  is_byte ")" c = false -> (b2z c < 0x80)%Z -> IsSpace (b2z c) = false ->
  rest_at input p = c :: x -> starts x ->
  (forall op p1, moved p x p1 -> wp (k op (head x)) p1 Q) ->
  wp (skipSpace input;; o ← peek input;
      if closed ig o || negb (isByte c o) then stop
      else operator ← getPos; advance 1;; skipSpace input;; o ← peek input; k operator o) p Q.
Proof.
  intros NP LT SP R (d & s & -> & D) K. apply wp_bind, wp_skipSpace; [by rewrite R|].
  apply wp_bind. eapply wp_peek; [exact R|]. change (head (c :: d :: s)) with (Some c). unfold closed. cbn [isByte].
  rewrite NP, andb_false_r, is_byte_refl. cbn [atEnd orb negb].
  apply wp_bind, wp_getPos, wp_bind, (wp_advance 1 p (d :: s)); [by rewrite R|]. intros p1 M1.
  apply wp_bind, wp_skipSpace; [rewrite (mv_rest _ _ _ M1); by apply starter_solid|].
  apply wp_bind. eapply wp_peek; [apply M1|]. by apply K.
Qed.

(** what stands behind an operator is not a delimiter *)
Lemma operand_head ig x :
  starts x ->
  closed ig (head x) = false /\ isByte "+" (head x) = false /\ isByte "/" (head x) = false /\
  isByte "," (head x) = false.
Proof.
  intros (c & s & -> & C). unfold closed. simpl.
  rewrite !(starter_not c) by (done || simpl; tauto). by rewrite andb_false_r.
Qed.

Definition op_tree (k : astKind) (acc t : tree) : tree := TNode k [acc; t] [] zeroSpec.

Lemma tsize_fold k acc ts :
  tsize (foldl (op_tree k) acc ts) = tsize acc + list_sum (map (fun t => S (tsize t)) ts).
Proof.
  revert acc. induction ts as [|t ts IH]; intros acc; simpl; [lia|]. rewrite IH. simpl. lia.
Qed.

Lemma wp_mergeNodes k current right p (Q : astNode -> selectorParser -> Prop) :
  nodeCount p < maxASTNodes ->
  (forall n, erase n = op_tree k (erase current) (erase right) ->
     Q n (p <| nodeCount := S (nodeCount p) |>)) ->
  wp (mergeNodes input k current right) p Q.
Proof. intros L H. unfold mergeNodes. apply wp_bind, wp_incNode; [done|]. apply wp_ret. by apply H. Qed.

(** *** Lists of a binary operator

    The plus and the slash loop have one shape: [c] is the operator, [k] its
    node, [operand] what stands between, [ends] what may follow the list. *)

Definition rest_text (c : byte) (xs : list bytes) (t : bytes) : bytes := flat_map (cons c) xs ++ t.

Lemma rest_text_length c xs t : length xs <= length (rest_text c xs t).
Proof.
  unfold rest_text. induction xs as [|x xs IH]; simpl; [lia|]. rewrite !length_app in *. simpl. lia.
Qed.

Section BinaryList.
Variables (n : nat) (c : byte) (k : astKind) (operand_ends ends : string) (operand : P astNode) (limit : nat).
Variable loop : nat -> astNode -> nat -> P astNode.

Hypothesis op_any : any_of operand_ends c = true.
Hypothesis ends_any : forall d, In d (lit ends) -> any_of operand_ends d = true.
Hypothesis loop_stop : forall fuel current terms p t (Q : astNode -> selectorParser -> Prop),
  rest_at input p = t -> follows ends t -> Q current p -> wp (loop (S fuel) current terms) p Q.
Hypothesis loop_turn : forall fuel current terms p x (Q : astNode -> selectorParser -> Prop),
  rest_at input p = c :: x -> starts x -> S terms <= limit ->
  (forall p1, moved p x p1 ->
     wp (right ← operand; current ← mergeNodes input k current right; loop fuel current (S terms)) p1 Q) ->
  wp (loop (S fuel) current terms) p Q.

Variables (A : Type) (print_of : A -> bytes) (tree_of_item : A -> tree).

Definition item_ok (q : A) : Prop :=
  reads n operand operand_ends (print_of q) (tree_of_item q) /\ starts (print_of q).

Lemma items_follow qs t :
  Forall item_ok qs -> follows ends t -> follows operand_ends (rest_text c (map print_of qs) t).
Proof.
  intros RQ F. apply sep_follows; [done| |by eapply follows_weaken].
  apply Forall_fmap. eapply Forall_impl; [exact RQ|]. by intros ? [_ ?].
Qed.

(** the loop reads the operands that are left, on top of [current] *)
Lemma loop_reads qs : forall fuel current terms p t,
  length qs < fuel -> terms + length qs <= limit -> follows ends t -> Forall item_ok qs ->
  rest_at input p = rest_text c (map print_of qs) t ->
  nodeCount p + list_sum (map (fun t => S (tsize t)) (map tree_of_item qs)) <= maxASTNodes -> room n p ->
  wp (loop fuel current terms) p (fun nd p' =>
    erase nd = foldl (op_tree k) (erase current) (map tree_of_item qs) /\ rest_at input p' = t /\
    depth p' = depth p /\
    nodeCount p' = nodeCount p + list_sum (map (fun t => S (tsize t)) (map tree_of_item qs))).
Proof.
  induction qs as [|q qs IH]; intros fuel current terms p t L TM F RQ R N RM;
    (destruct fuel as [|fuel]; [simpl in L; lia|]).
  - apply (loop_stop _ _ _ _ t); [done|done|]. simpl. split; [done|]. split; [done|]. split; [done|lia].
  - apply Forall_cons in RQ as [[RQ ST] RQS]. simpl in L, TM, N.
    pose proof (items_follow qs t RQS F) as FQ.
    unfold rest_text in R. cbn [map flat_map app] in R. rewrite <- app_assoc in R.
    eapply loop_turn; [exact R|by apply starts_app|lia|]. intros p1 [R1 D1 N1].
    apply wp_bind. eapply wp_mono; [apply (RQ p1 _ FQ R1); [lia|unfold room in *; lia]|].
    intros nq p2 [T2 R2 D2 N2]. apply wp_bind, wp_mergeNodes; [lia|]. intros nd E.
    eapply wp_mono; [apply (IH fuel nd (S terms) _ t); [lia|lia|done|done|exact R2|simpl; lia|]|].
    { unfold room in *. simpl. lia. }
    intros n' p' (E' & R' & D' & N'). simpl in N', D'. split; [by rewrite E', E, T2|].
    split; [done|]. split; [lia|]. simpl. lia.
Qed.

Lemma list_reads q qs :
  length (q :: qs) <= limit -> Forall item_ok (q :: qs) ->
  reads n (current ← operand; loop (S (length input)) current 1) ends (sep_by c (map print_of (q :: qs)))
    (or_empty (fold_op k (map tree_of_item (q :: qs)))) /\
  starts (sep_by c (map print_of (q :: qs))).
Proof.
  intros L [[RQ ST] RQS]%Forall_cons. split; [|by apply sep_by_starts].
  intros p t F R N RM. cbn [map fold_op or_empty default] in *. fold (op_tree k) in *.
  change (tsize _) with (tsize (foldl (op_tree k) (tree_of_item q) (map tree_of_item qs))) in N.
  rewrite tsize_fold in N. pose proof (items_follow qs t RQS F) as FQ.
  cbn [map sep_by] in R. rewrite <- app_assoc in R. apply wp_bind.
  eapply wp_mono; [apply (RQ p _ FQ R); [lia|done]|].
  intros nq p1 [T1 R1 D1 N1]. eapply wp_mono.
  { apply (loop_reads qs (S (length input)) nq 1 p1 t); [|simpl in L; lia|done|done|exact R1|lia|].
    - pose proof (rest_length input p1) as RL. rewrite R1 in RL.
      pose proof (rest_text_length c (map print_of qs) t) as B.
      rewrite length_map in B. lia.
    - unfold room in *. lia. }
  intros nd p2 (E2 & R2 & D2 & N2). split; [by rewrite E2, T1|done|lia|].
  change (tsize _) with (tsize (foldl (op_tree k) (tree_of_item q) (map tree_of_item qs))).
  rewrite tsize_fold. lia.
Qed.

End BinaryList.

Lemma merge_reads n ig m :
  merge_ok n m = true ->
  Forall (item_ok n "+/,)" (parsePrimary input group ig) prim print_prim tree_of_prim) m ->
  reads n (parseMerge input group ig) "/,)" (print_merge m) (tree_of_merge m) /\ starts (print_merge m).
Proof.
  unfold merge_ok. destruct m as [|q qs]; [done|]. rewrite !andb_true_iff. intros [[_ L] _] RQ.
  apply Nat.leb_le in L.
  apply (list_reads n "+" astMerge "+/,)" "/,)" _ maxMergeTerms (fun f => parseMerge_loop input group f ig));
    [done|simpl; intros c I; repeat destruct I as [<-|I]; done| | |done|done].
  - intros fuel current terms p t Q R F H. cbn [parseMerge_loop].
    apply (wp_stop "+" "/,)" ig _ _ p t); [done|done|done| |by apply wp_ret].
    eapply follows_weaken; [|exact F]. simpl. intros c I. repeat destruct I as [<-|I]; done.
  - intros fuel current terms p x Q R ST L' H. cbn [parseMerge_loop].
    eapply (wp_operator "+"); [done|done|done|exact R|done|]. intros op p1 M1.
    destruct (operand_head ig x ST) as (-> & -> & -> & ->). cbn [orb].
    rewrite (proj2 (Nat.ltb_ge maxMergeTerms (S terms)) L'). by apply H.
Qed.

Lemma choice_reads n ig ch :
  choice_ok n ch = true ->
  Forall (Forall (item_ok n "+/,)" (parsePrimary input group ig) prim print_prim tree_of_prim)) ch ->
  reads n (parseChoice input group ig) ",)" (print_choice ch) (tree_of_choice ch) /\ starts (print_choice ch).
Proof.
  unfold choice_ok. destruct ch as [|m ms]; [done|]. rewrite !andb_true_iff. intros [[_ L] OK] RQ.
  apply Nat.leb_le in L.
  apply (list_reads n "/" astPickFirst "/,)" ",)" _ maxAlternatives (fun f => parseChoice_loop input group f ig));
    [done|simpl; intros c I; repeat destruct I as [<-|I]; done| | |done|].
  - intros fuel current terms p t Q R F H. cbn [parseChoice_loop].
    apply (wp_stop "/" ",)" ig _ _ p t); [done|done|done| |by apply wp_ret].
    eapply follows_weaken; [|exact F]. simpl. intros c I. repeat destruct I as [<-|I]; done.
  - intros fuel current terms p x Q R ST L' H. cbn [parseChoice_loop].
    eapply (wp_operator "/"); [done|done|done|exact R|done|]. intros op p1 M1.
    destruct (operand_head ig x ST) as (-> & _ & -> & ->). cbn [orb].
    rewrite (proj2 (Nat.ltb_ge maxAlternatives (S terms)) L'). by apply H.
  - rewrite forallb_forall in OK. rewrite Forall_forall in RQ |- *. intros m' I.
    apply merge_reads; [by apply OK, list_elem_of_In|by apply RQ].
Qed.

(** *** The comma list *)

Lemma comma_loop_reads n ig chs : forall fuel outputs p t,
  length chs < fuel -> length outputs + length chs <= maxCommaOutputs -> follows ")" t ->
  Forall (item_ok n ",)" (parseChoice input group ig) _ print_choice tree_of_choice) chs ->
  rest_at input p = rest_text "," (map print_choice chs) t ->
  nodeCount p + list_sum (map tsize (map tree_of_choice chs)) <= maxASTNodes -> room n p ->
  wp (parseComma_loop input group fuel ig outputs) p (fun r p' =>
    map erase r = map erase outputs ++ map tree_of_choice chs /\ rest_at input p' = t /\
    depth p' = depth p /\ nodeCount p' = nodeCount p + list_sum (map tsize (map tree_of_choice chs))).
Proof.
  induction chs as [|ch chs IH]; intros fuel outputs p t L TM F RQ R N RM;
    (destruct fuel as [|fuel]; [simpl in L; lia|]); cbn [parseComma_loop].
  - apply (wp_stop "," ")" ig _ _ p t); [done|done|done| |].
    { eapply follows_weaken; [|exact F]. simpl. intros c I. repeat destruct I as [<-|I]; done. }
    apply wp_ret. rewrite app_nil_r. simpl. split; [done|]. split; [done|]. split; [done|lia].
  - pose proof RQ as [[RC ST] RQS]%Forall_cons. simpl in L, TM, N.
    assert (FQ : follows ",)" (rest_text "," (map print_choice chs) t)).
    { apply sep_follows; [done| |].
      - apply Forall_fmap. eapply Forall_impl; [exact RQS|]. by intros ? [_ ?].
      - eapply follows_weaken; [|exact F]. simpl. intros c I. repeat destruct I as [<-|I]; done. }
    unfold rest_text in R. cbn [map flat_map app] in R. rewrite <- app_assoc in R.
    eapply (wp_operator ","); [done|done|done|exact R|by apply starts_app|]. intros op p1 [R1 D1 N1].
    destruct (operand_head ig _ (starts_app _ (rest_text "," (map print_choice chs) t) ST)) as (C1 & _ & _ & C4).
    unfold rest_text in C1, C4. rewrite C1, C4.
    apply wp_bind. eapply wp_mono; [apply (RC p1 _ FQ R1); [lia|unfold room in *; lia]|].
    intros nq p2 [T2 R2 D2 N2].
    assert (LO : length (outputs ++ [nq]) <= maxCommaOutputs) by (rewrite length_app; simpl; lia).
    rewrite (proj2 (Nat.ltb_ge maxCommaOutputs (length (outputs ++ [nq]))) LO).
    eapply wp_mono; [apply (IH fuel (outputs ++ [nq]) p2 t); [lia| |done|done|exact R2|lia|unfold room in *; lia]|].
    { rewrite length_app. simpl. lia. }
    intros r p' (E & R' & D' & N'). split; [|split; [done|split; [lia|simpl; lia]]].
    rewrite E, map_app. simpl. by rewrite T2, <- app_assoc.
Qed.

Lemma comma_reads n ig s :
  some_of s = true -> length s <= maxCommaOutputs ->
  Forall (item_ok n ",)" (parseChoice input group ig) _ print_choice tree_of_choice) s ->
  reads n (parseComma_at input group ig) ")" (print s) (tree_of s).
Proof.
  destruct s as [|ch chs]; [done|]. intros _ L [[RC ST] RQS]%Forall_cons p t F R N RM. simpl in L.
  assert (SZ : tsize (tree_of_choice ch) + list_sum (map tsize (map tree_of_choice chs)) +
               match chs with [] => 0 | _ => 1 end = tsize (tree_of (ch :: chs))).
  { unfold tree_of. destruct chs; simpl; lia. }
  assert (FQ : follows ",)" (rest_text "," (map print_choice chs) t)).
  { apply sep_follows; [done| |].
    - apply Forall_fmap. eapply Forall_impl; [exact RQS|]. by intros ? [_ ?].
    - eapply follows_weaken; [|exact F]. simpl. intros c I. repeat destruct I as [<-|I]; done. }
  unfold print in R. cbn [map sep_by] in R. rewrite <- app_assoc in R. unfold parseComma_at.
  apply wp_bind. eapply wp_mono; [apply (RC p _ FQ R); [lia|done]|]. intros nq p1 [T1 R1 D1 N1].
  apply wp_bind. eapply wp_mono.
  { apply (comma_loop_reads n ig chs (S (length input)) [nq] p1 t); [|simpl; lia|done|done|exact R1|lia|].
    - pose proof (rest_length input p1) as RL. rewrite R1 in RL.
      pose proof (rest_text_length "," (map print_choice chs) t) as B. rewrite length_map in B. lia.
    - unfold room in *. lia. }
  intros r p2 (E & R2 & D2 & N2). simpl in E. rewrite T1 in E.
  destruct chs as [|ch' chs].
  - destruct r as [|o [|]]; try done. injection E as E. apply wp_ret. simpl in N2. split; [by rewrite E|done|lia|].
    unfold tree_of. simpl. lia.
  - destruct r as [|o [|o' r]]; try done. unfold newCommaNode. apply wp_bind, wp_incNode; [lia|]. apply wp_ret.
    split; simpl in *; [by rewrite E|done|lia|]. unfold tree_of in *. simpl in *. lia.
Qed.

(** the outputs of a list are read when its operands are *)
Lemma choices_items n ig s :
  Forall (Forall (Forall (fun q => prim_ok n q = true ->
    item_ok n "+/,)" (parsePrimary input group ig) prim print_prim tree_of_prim q))) s ->
  forallb (choice_ok n) s = true ->
  Forall (item_ok n ",)" (parseChoice input group ig) _ print_choice tree_of_choice) s.
Proof.
  rewrite forallb_forall, !Forall_forall. intros H OK ch I.
  assert (CO : choice_ok n ch = true) by by apply OK, list_elem_of_In. apply choice_reads; [done|].
  unfold choice_ok in CO. rewrite !andb_true_iff, forallb_forall in CO. destruct CO as [_ CO].
  specialize (H _ I). rewrite Forall_forall in H |- *. intros m Im. specialize (H _ Im).
  assert (MO : merge_ok n m = true) by by apply CO, list_elem_of_In.
  unfold merge_ok in MO. rewrite !andb_true_iff, forallb_forall in MO. destruct MO as [_ MO].
  rewrite Forall_forall in H |- *. intros q Iq. apply H; [done|]. by apply MO, list_elem_of_In.
Qed.

End Levels.

(** *** Every operand is read *)

Lemma prim_reads q : forall n ig,
  prim_ok n q = true ->
  item_ok n "+/,)" (parsePrimary input (parseComma input n true) ig) prim print_prim tree_of_prim q.
Proof.
  induction q as [w fs|f fs|c fs IH] using prim_nested_ind; intros n ig OK;
    (split; [|eapply starter_prim; exact OK]).
  - by apply word_reads.
  - by apply filter_reads.
  - cbn [prim_ok] in OK. rewrite !andb_true_iff in OK. destruct OK as [[[FO L1] LC] OK].
    destruct n as [|n]; [done|]. apply Nat.leb_le in LC. replace (S n - 1) with n in OK by lia.
    change (forallb (choice_ok n) c = true) in OK.
    assert (IT : Forall (item_ok n ",)" (parseChoice input (parseComma input n true) true) _
                           print_choice tree_of_choice) c).
    { apply choices_items; [|done]. eapply Forall_impl; [exact IH|]. intros ch IHc.
      eapply Forall_impl; [exact IHc|]. intros m IHm. eapply Forall_impl; [exact IHm|]. auto. }
    apply group_reads; [|apply Forall_fmap; eapply Forall_impl; [exact IT|by intros ? [_ ?]]|done].
    intros NE. cbn [parseComma]. apply comma_reads; [by destruct c|done|done].
Qed.

End Reading.

(** ** The parser inverts printing *)

(** C21. Every selector of the grammar that is within the limits is parsed back from
    its text to its tree: comma binds weakest, then slash, then plus, all three
    to the left, and groups, words and filters keep their place. *)
Theorem selector_print_parse {UT : RuneTables} s :
  selector_ok s = true -> exists root, parseSelectorAST (print s) = Ok root /\ erase root = tree_of s.
Proof.
  unfold selector_ok. rewrite !andb_true_iff. intros [[[[SO LC] OK] SZ] LB].
  apply Nat.leb_le in LC, SZ. apply Z.leb_le in LB.
  pose proof (choices_items (print s) (parseComma (print s) maxNestingDepth true) maxNestingDepth false s) as IT.
  specialize (IT ltac:(apply Forall_true; intros ch; apply Forall_true; intros m; apply Forall_true;
                       intros q Q; by apply prim_reads) OK).
  assert (ST : starts (print s)).
  { destruct s as [|ch chs]; [done|]. apply Forall_inv in IT as [_ ST]. by apply sep_by_starts. }
  assert (W : wp (parseSelector_from (print s)) (mkParser 0 0 0) (fun root _ => erase root = tree_of s)).
  { destruct ST as (c & x & E & C). unfold parseSelector_from.
    assert (R : rest_at (print s) (mkParser 0 0 0) = print s ++ []) by by rewrite app_nil_r.
    apply wp_bind, wp_skipSpace; [rewrite R, E; by apply starter_solid|]. apply wp_bind.
    eapply wp_peek; [exact R|]. rewrite E at 1. change (atEnd (head ((c :: x) ++ []))) with false. cbv iota.
    apply wp_bind. eapply wp_mono.
    { apply (comma_reads (print s) _ maxNestingDepth false s SO LC IT _ []); [by left|exact R|simpl; lia|].
      unfold room. simpl. lia. }
    intros root p [T R1 _ _]. apply wp_bind, wp_skipSpace; [by rewrite R1|]. apply wp_bind.
    eapply wp_remaining; [exact R1|]. apply wp_bind, wp_getPos. by apply wp_ret. }
  unfold parseSelectorAST. rewrite (proj2 (Z.ltb_ge _ _)) by done. unfold wp in W.
  destruct (parseSelector_from (print s) _) as [[root p]|e]; [|done]. by exists root.
Qed.

Definition sample : selector :=
  [[[PWord (lit "bv*") [lit "height<=720"; lit "vcodec^='avc]1'"]; PWord (lit "ba") []];
    [PGroup [[[PWord (lit "mp4") []]]; [[PFilter (lit "fps>30") []]; [PWord (lit "22") []]]] [lit "ext=mp4"]]];
   [[PWord (lit "worst.2") []]]].

Lemma selector_print_parse_witness :
  let UT := {| letter_table := fun _ => false; digit_table := fun _ => false;
               number_table := fun _ => false; mark_table := fun _ => false |} in
  print sample = lit "bv*[height<=720][vcodec^='avc]1']+ba/(mp4,[fps>30]/22)[ext=mp4],worst.2" /\
  exists root, parseSelectorAST (print sample) = Ok root /\ erase root = tree_of sample.
Proof.
  intros UT. split; [reflexivity|]. apply (@selector_print_parse UT sample). vm_compute. reflexivity.
Defined.
