(* ===== verification/Normalize.v ===== *)
(** * Preparation of formats ([internal/format/normalize.go])

    [Prepare] makes the canonical view of an extractor's formats: it clones the
    metadata, drops formats that are protected or have no URL, coerces fields to
    their types, derives the sorting fields, sorts, and gives every format an
    identifier that a selector can name.

    The source mutates the cloned objects in place; no two formats share an
    object behind [Clone], so that the model passes their values.  When the
    metadata has no format list it is itself the only format, and its object is
    both the format and the canonical metadata: [prepareFormats] then returns it
    in both places.  The groups of equal identifiers are disjoint, so that the
    order in which the source iterates the map of groups is not observable. *)
From S2P Require Import Prelude GoStrings Runes Value FilterNumber Filter Decimal Float64 Regex SortSettings SortOptions Sorter SorterValues Selector.

#[local] Open Scope Z_scope.

Definition MaxNormalizedFormats : nat := 4096.
Definition maxNormalizedIDBytes : Z := 16384.
Definition maxNormalizedTotal : Z := 4 * 2 ^ 20.

Definition formatNumericFields : list bytes :=
  map lit ["width"; "height"; "asr"; "audio_channels"; "fps"; "tbr"; "abr"; "vbr"; "filesize"; "filesize_approx";
           "timestamp"; "release_timestamp"; "available_at"; "duration"; "view_count"; "like_count";
           "dislike_count"; "repost_count"; "save_count"; "average_rating"; "comment_count"; "age_limit";
           "start_time"; "end_time"; "chapter_number"; "season_number"; "episode_number"; "track_number";
           "disc_number"; "release_year"]%string.

Record normalizedFormat := mkNormalized {
  nf_Object : Object;
  nf_Source : nat;
  nf_Index : nat;
  nf_ID : bytes
}.
#[global] Instance normalizedFormat_eta : Eta normalizedFormat := fun r =>
  mkNormalized (nf_Object r) (nf_Source r) (nf_Index r) (nf_ID r).

Record Prepared := mkPrepared {
  p_info : Object;
  p_formats : list normalizedFormat;
  p_options : Options
}.

(** ** Coercion of fields *)

(** the digit of a decimal character that is not ASCII ([unicode.Nd]) *)
Class DigitTables := { nd_digit : Z -> option Z }.

Section Coercion.
Context {UT : RuneTables} {DT : DigitTables}.

Definition decimalDigit (r : Z) : option Z := if ascii_digit r then Some (r - 48) else nd_digit r.

(** the loop over the runes of an integer: the magnitude so far and whether the
    last one was a digit *)
Fixpoint int_digits (rs : list Z) (magnitude : Z) (lastWasDigit : bool) : option Z :=
  match rs with
  | [] => if lastWasDigit then Some magnitude else None
  | r :: rs' =>
      if r =? 95 then if lastWasDigit then int_digits rs' magnitude false else None
      else match decimalDigit r with
           | Some d => int_digits rs' (magnitude * 10 + d) true
           | None => None
           end
  end.

Definition TrimFunc (p : Z -> bool) (s : bytes) : bytes := TrimRightFunc p (TrimLeftFunc p s).

Definition parsePythonInt (text : bytes) : option Z :=
  let trimmed := TrimFunc IsSpace text in
  let negative := HasPrefix trimmed (lit "-") in
  let digits := trim_sign trimmed in
  match int_digits (runes digits) 0 false with
  | None => None
  | Some magnitude =>
      if 2 ^ 64 <=? magnitude then None
      else if negative then if 2 ^ 63 <? magnitude then None else Some (- magnitude)
      else if MaxInt64 <? magnitude then None else Some magnitude
  end.

(** [int64(f)] of a number in the range of [int64] *)
Definition int_of_float (f : float64) : option Z :=
  if negb (f64_finite f) then None
  else if f64_le (f64_of_Z MaxInt64) f || f64_lt f (f64_of_Z MinInt64) then None
  else Some (f64_trunc f).

Definition intOrNone (raw : Value) : option Z :=
  match raw with
  | VBool b => Some (if b then 1 else 0)
  | VInt z => Some z
  | VFloat f => int_of_float f
  | VString text => parsePythonInt text
  | _ => None
  end.

Definition lowerhex (z : Z) : byte := z2b (if z <? 10 then 48 + z else 87 + z).

Definition python_byte (c : byte) : bytes :=
  let z := b2z c in
  if (z =? 92) || (z =? 39) then [z2b 92; c]
  else if z =? 9 then lit "\t"
  else if z =? 10 then lit "\n"
  else if z =? 13 then lit "\r"
  else if (32 <=? z) && (z <? 127) then [c]
  else lit "\x" ++ [lowerhex (z / 16); lowerhex (z mod 16)].

Definition pythonBytesString (input : bytes) : bytes := lit "b'" ++ flat_map python_byte input ++ lit "'".

Definition python_float (f : float64) : bytes :=
  match f with
  | S754_nan => lit "nan"
  | S754_infinity s => if s then lit "-inf" else lit "inf"
  | _ => let text := FormatFloat_g f in
         if existsb (any_of ".eE") text then text else text ++ lit ".0"
  end.

Definition pythonStringValue (raw : Value) : option bytes :=
  match raw with
  | VString text => Some text
  | VInt z => Some (Itoa z)
  | VFloat f => Some (python_float f)
  | VBool b => Some (if b then lit "True" else lit "False")
  | VBytes b => Some (pythonBytesString b)
  | _ => None
  end.

Definition coerce_id (object : Object) : res Object :=
  match Lookup object (lit "format_id") with
  | Missing | Null | VString _ => Ok object
  | raw =>
      match pythonStringValue raw with
      | None => Err ErrInvalidFormats
      | Some text =>
          if maxNormalizedIDBytes <? zlen text then Err ErrFormatLimit
          else Ok (Object_Set object (lit "format_id") (VString text))
      end
  end.

Definition coerce_numeric (object : Object) (field : bytes) : Object :=
  match Lookup object field with
  | Missing | Null | VInt _ | VFloat _ | VBool _ => object
  | raw => Object_Set object field (match intOrNone raw with Some z => VInt z | None => Null end)
  end.

Definition coerceFormatFields (object : Object) : res Object :=
  object ← coerce_id object;
  Ok (foldl coerce_numeric object formatNumericFields).

(** a format without a URL is dropped; a URL of bytes becomes a string *)
Definition normalizeFormatURL (object : Object) : option Object :=
  let sabr := default false (Value_Bool (Lookup object (lit "_youtube_sabr"))) in
  if sabr && negb (bool_decide (text_of object "_youtube_sabr_server_url" = [])) then Some object
  else match Lookup object (lit "url") with
       | VString text => if bool_decide (text = []) then None else Some object
       | VBytes b =>
           if bool_decide (b = []) || negb (utf8_Valid b) then None
           else Some (Object_Set object (lit "url") (VString b))
       | _ => None
       end.

(** the formats that are kept, with their places in the list *)
Fixpoint filter_formats (options : Options) (i : nat) (raw : list Value) : res (list (Object * nat)) :=
  match raw with
  | [] => Ok []
  | VObject object :: raw' =>
      if negb (AllowDRM options) && isDRM object then filter_formats options (S i) raw'
      else match normalizeFormatURL object with
           | None => filter_formats options (S i) raw'
           | Some object =>
               object ← coerceFormatFields object;
               rest ← filter_formats options (S i) raw';
               Ok ((object, i) :: rest)
           end
  | _ :: _ => Err ErrInvalidFormats
  end.

End Coercion.

(** ** Identifiers *)

Definition encode_rune (r : Z) : bytes :=
  if r <? 0x80 then [z2b r]
  else if r <? 0x800 then [z2b (0xC0 + r / 64); z2b (0x80 + r mod 64)]
  else if r <? 0x10000 then [z2b (0xE0 + r / 4096); z2b (0x80 + r / 64 mod 64); z2b (0x80 + r mod 64)]
  else [z2b (0xF0 + r / 262144); z2b (0x80 + r / 4096 mod 64); z2b (0x80 + r / 64 mod 64); z2b (0x80 + r mod 64)].

Definition isPythonRegexWhitespace (r : Z) : bool :=
  (9 <=? r) && (r <=? 13) || (r =? 32) || (28 <=? r) && (r <=? 31) || IsSpace r.

Definition structural_rune (r : Z) : bool := existsb (fun c => r =? b2z c) (lit ",/+[]()").

Definition sanitizeFormatID (id : bytes) : bytes :=
  flat_map (fun r => if isPythonRegexWhitespace r || structural_rune r then lit "_" else encode_rune r) (runes id).

Definition lookupExt (object : Object) : bytes := text_of object "ext".

Definition id_fits (id : bytes) : bool := zlen id <=? maxNormalizedIDBytes.

(** an identifier and its place in the object *)
Definition set_id (f : normalizedFormat) (id : bytes) : normalizedFormat :=
  f <| nf_ID := id |> <| nf_Object := Object_Set (nf_Object f) (lit "format_id") (VString id) |>.

Definition with_id (f : normalizedFormat) (id : bytes) : res normalizedFormat :=
  if id_fits id then Ok (set_id f id) else Err ErrFormatLimit.

(** apply a step to every format, in order *)
Fixpoint each (step : normalizedFormat -> res normalizedFormat) (l : list normalizedFormat)
  : res (list normalizedFormat) :=
  match l with
  | [] => Ok []
  | f :: l' => f ← step f; l' ← each step l'; Ok (f :: l')
  end.

(** the sanitized identifier of a format, or its place in the list *)
Definition first_id (f : normalizedFormat) : res normalizedFormat :=
  match Lookup (nf_Object f) (lit "format_id") with
  | Missing | Null => with_id f (sanitizeFormatID (Itoa (Z.of_nat (nf_Index f))))
  | VString text =>
      let text := if bool_decide (text = []) then Itoa (Z.of_nat (nf_Index f)) else text in
      if id_fits text then with_id f (sanitizeFormatID text) else Err ErrFormatLimit
  | _ => Err ErrInvalidFormats
  end.

(** the places of the formats with the identifier [id] *)
Definition group_of (l : list normalizedFormat) (id : bytes) : list nat :=
  map nf_Index (List.filter (fun f => bool_decide (nf_ID f = id)) l).

(** a member of a group of two or more gets its ordinal in the group *)
Definition distinguish (l : list normalizedFormat) (f : normalizedFormat) : res normalizedFormat :=
  let members := group_of l (nf_ID f) in
  if (length members <=? 1)%nat then Ok f
  else
    let ordinal := length (List.filter (fun i => (i <? nf_Index f)%nat) members) in
    with_id f (nf_ID f ++ lit "-" ++ Itoa (Z.of_nat ordinal)).

(** an identifier that is the extension of another format is prefixed *)
Definition avoid_extension (f : normalizedFormat) : res normalizedFormat :=
  if isExtensionSelector (nf_ID f) && negb (bool_decide (nf_ID f = lookupExt (nf_Object f)))
  then with_id f (lit "f" ++ nf_ID f) else Ok f.

Definition assign_ids (l : list normalizedFormat) : res (list normalizedFormat) :=
  l ← each first_id l;
  l ← each (distinguish l) l;
  l ← each avoid_extension l;
  if maxNormalizedTotal <? foldr Z.add 0 (map (fun f => zlen (nf_ID f)) l) then Err ErrFormatLimit else Ok l.

(** ** Preparation *)

Section Prepare.
Context {UT : RuneTables} {LT : UnicodeTables} {CT : CaseTables} {DT : DigitTables}.

(** the sorted formats with their places *)
Definition number_formats (l : list (Object * nat)) : list normalizedFormat :=
  imap (fun i p => mkNormalized p.1 p.2 i []) l.

Definition order_formats (options : Options) (canonical : Object) (filtered : list (Object * nat))
  : res (list normalizedFormat) :=
  extractorFields ← extractExtractorSortFields canonical;
  sr ← newSorter options extractorFields;
  Ok (number_formats (sortStable sr (map (fun p => (fillSortingFields p.1, p.2)) filtered))).

(** the raw formats, and whether the metadata is itself the format *)
Definition raw_formats (canonical : Object) : res (list Value * bool) :=
  match Lookup canonical (lit "formats") with
  | Missing | Null => Ok ([VObject canonical], true)
  | VList [] => Err ErrNoFormats
  | VList l => Ok (l, false)
  | _ => Err ErrInvalidFormats
  end.

Definition prepareFormats (info : Object) (options : Options) : res Prepared :=
  Options_validate options;;
  let canonical := Object_Clone info in
  '(raw, implicit) ← raw_formats canonical;
  if (MaxNormalizedFormats <? length raw)%nat then Err ErrFormatLimit
  else
    filtered ← filter_formats options 0 raw;
    match filtered with
    | [] => if implicit : bool then Ok (mkPrepared canonical [] options) else Err ErrNoFormats
    | (first, _) :: _ =>
        let canonical := if implicit : bool then first else canonical in
        ordered ← order_formats options canonical filtered;
        formats ← assign_ids ordered;
        let canonical :=
          if implicit : bool then match formats with f :: _ => nf_Object f | [] => canonical end
          else Object_Set canonical (lit "formats") (VList (map (fun f => VObject (nf_Object f)) formats)) in
        Ok (mkPrepared canonical formats options)
    end.

Definition Prepare (info : Object) (options : Options) : res Prepared := prepareFormats info options.

End Prepare.
