(* ===== verification/NormalizeFacts.v ===== *)
(** * Properties of the preparation of formats

    Preparation keeps the metadata of a format outside the derived fields,
    keeps every format that may be kept once, and labels it with an identifier
    that has no delimiter of the selector language. *)
From Stdlib Require Import Sorting.Permutation.
From S2P Require Import Prelude GoStrings Runes Value FilterNumber Filter Decimal Float64 Regex SortSettings SortOptions Sorter SorterValues Ordering SorterFacts Selector Normalize.

#[local] Open Scope nat_scope.

(** ** Fields that a step leaves alone *)

Lemma Lookup_Set (o : Object) k v k' :
  indexed o -> Lookup (Object_Set o k v) k' = if bool_decide (k = k') then v else Lookup o k'.
Proof.
  intros I. unfold Lookup. rewrite !Object_Get_al, Object_Set_al by auto using Object_Set_indexed.
  induction (fields o) as [|[k0 v0] l IH]; simpl; [by destruct (bool_decide (k = k'))|].
  destruct (decide (k0 = k)) as [->|N].
  - rewrite bool_decide_true by done. simpl. by destruct (bool_decide (k = k')).
  - rewrite bool_decide_false by done. simpl. destruct (decide (k0 = k')) as [->|N'].
    + rewrite (bool_decide_true (k' = k')), (bool_decide_false (k = k')) by congruence. done.
    + by rewrite bool_decide_false.
Qed.

(** [o'] is [o] but for the fields of [ks] *)
Definition keeps (ks : list bytes) (o o' : Object) : Prop :=
  indexed o -> indexed o' /\ forall k, k ∉ ks -> Lookup o' k = Lookup o k.

Lemma keeps_refl ks o : keeps ks o o.
Proof. by split. Qed.

Lemma keeps_trans ks o1 o2 o3 : keeps ks o1 o2 -> keeps ks o2 o3 -> keeps ks o1 o3.
Proof.
  intros A B I. destruct (A I) as [I2 A2]. destruct (B I2) as [I3 B3]. split; [done|].
  intros k K. rewrite B3, A2; done.
Qed.

Lemma keeps_set ks o k v : k ∈ ks -> keeps ks o (Object_Set o k v).
Proof.
  intros K I. split; [by apply Object_Set_indexed|]. intros k' K'. rewrite Lookup_Set by done.
  rewrite bool_decide_false; [done|]. by intros ->.
Qed.

Lemma keeps_set_field ks key v o : lit key ∈ ks -> keeps ks o (set_field key v o).
Proof. apply keeps_set. Qed.

Definition derived_fields : list bytes :=
  map lit ["format_id"; "url"; "protocol"; "ext"; "video_ext"; "audio_ext"; "preference"; "vbr"; "abr"; "tbr"]%string
  ++ formatNumericFields.

Ltac keeps_step :=
  first [ apply keeps_refl
        | apply keeps_set_field; decided
        | apply keeps_set; decided ].

Section Keeps.
Context {UT : RuneTables} {LT : UnicodeTables} {CT : CaseTables} {DT : DigitTables}.

Abbreviation kept := (keeps derived_fields).

Lemma derive_rate_keeps key f a b o : lit key ∈ derived_fields -> kept o (derive_rate key f a b o).
Proof.
  intros K. unfold derive_rate. cbv zeta. set (o' := match field_number o a with Some _ => _ | None => _ end).
  assert (kept o o').
  { unfold o'. destruct (field_number o a), (field_number o b); try apply keeps_refl. by apply keeps_set_field. }
  destruct (isZeroLikeNumber _); [|done]. eapply keeps_trans; [done|by apply keeps_set_field].
Qed.

Lemma fill_keeps o : kept o (fillSortingFields o).
Proof.
  unfold fillSortingFields. cbv zeta.
  apply keeps_trans with (fill_protocol_ext o).
  { unfold fill_protocol_ext. cbv zeta. set (o' := if isEmptyString (Lookup o (lit "protocol")) then _ else _).
    apply keeps_trans with o'; [unfold o'; destruct (isEmptyString _); keeps_step|].
    clearbody o'. destruct (isEmptyString _); [destruct (nonempty_text _)|]; keeps_step. }
  set (o1 := fill_protocol_ext o). generalize (text_of o1 "vcodec") (text_of o1 "acodec") (text_of o1 "ext").
  intros vcodec acodec ext. apply keeps_trans with (fill_exts vcodec acodec ext o1).
  { unfold fill_exts. destruct (bool_decide _);
      (eapply keeps_trans; [|apply keeps_set_field; decided]); keeps_step. }
  apply keeps_trans with (fill_preference vcodec ext (fill_exts vcodec acodec ext o1)).
  { unfold fill_preference. destruct (_ && _); keeps_step. }
  generalize (fill_preference vcodec ext (fill_exts vcodec acodec ext o1)). intros o2. unfold fill_rates. cbv zeta.
  repeat match goal with
  | |- kept _ (if ?c then derive_rate ?k ?f ?a ?b ?x else ?x) =>
      apply keeps_trans with x; [|destruct c; [apply derive_rate_keeps; decided|apply keeps_refl]]
  | |- kept _ (if ?c then set_field ?k ?v ?x else ?x) =>
      apply keeps_trans with x; [|destruct c; keeps_step]
  end. apply keeps_refl.
Qed.

Lemma coerce_numeric_keeps o field : field ∈ formatNumericFields -> kept o (coerce_numeric o field).
Proof.
  intros F. unfold coerce_numeric. assert (field ∈ derived_fields) by (apply elem_of_app; by right).
  destruct (Lookup o field); try apply keeps_refl; by apply keeps_set.
Qed.

Lemma coerce_keeps o o' : coerceFormatFields o = Ok o' -> kept o o'.
Proof.
  unfold coerceFormatFields. intros (o1 & C & <-%Ok_inj)%bind_Ok_iff. apply keeps_trans with o1.
  - unfold coerce_id in C. destruct (Lookup o (lit "format_id")) eqn:E; try (by injection C as <-);
      (destruct (pythonStringValue _) as [text|]; [|done]); (destruct (_ <? _)%Z; [done|]); injection C as <-; keeps_step.
  - clear C. assert (F : forall fs, (forall f, f ∈ fs -> f ∈ formatNumericFields) -> kept o1 (foldl coerce_numeric o1 fs)).
    { intros fs. revert o1. induction fs as [|f fs IH]; intros o1 F; simpl; [apply keeps_refl|].
      eapply keeps_trans; [apply coerce_numeric_keeps, F; by left|]. apply IH. intros g G. apply F. by right. }
    by apply F.
Qed.

Lemma url_keeps o o' : normalizeFormatURL o = Some o' -> kept o o'.
Proof.
  unfold normalizeFormatURL. destruct (_ && _); [intros [= <-]; apply keeps_refl|].
  destruct (Lookup o (lit "url")) eqn:E; try done.
  - destruct (bool_decide _); [done|]. intros [= <-]. apply keeps_refl.
  - destruct (_ || _); [done|]. intros [= <-]. keeps_step.
Qed.

End Keeps.

(** ** The formats that are kept *)

Definition offered (raw : list Value) (i : nat) : option Object :=
  match raw !! i with Some (VObject o) => Some o | _ => None end.

(** [o'] is the format at [i], with its derived fields *)
Definition comes_from (options : Options) (raw : list Value) (i : nat) (o' : Object) : Prop :=
  indexed o' /\ (AllowDRM options = true \/ isDRM o' = false) /\
  exists o, offered raw i = Some o /\ forall k, k ∉ derived_fields -> Lookup o' k = Lookup o k.

Definition objects_indexed (raw : list Value) : Prop :=
  Forall (fun v => match v with VObject o => indexed o | _ => True end) raw.

Lemma isDRM_kept o o' :
  (forall k, k ∉ derived_fields -> Lookup o' k = Lookup o k) -> isDRM o' = isDRM o.
Proof.
  intros K. unfold isDRM. rewrite K; [done|]. decided.
Qed.

Lemma comes_from_keeps options raw i o o' :
  keeps derived_fields o o' -> comes_from options raw i o -> comes_from options raw i o'.
Proof.
  intros K (I & D & o0 & O & L). destruct (K I) as [I' L']. split_and!; [done| |].
  - rewrite (isDRM_kept o o') by done. done.
  - exists o0. split; [done|]. intros k N. rewrite L', L; done.
Qed.

Section Filtered.
Context {UT : RuneTables} {LT : UnicodeTables} {CT : CaseTables} {DT : DigitTables}.

Lemma filter_formats_spec options i raw l :
  objects_indexed raw -> filter_formats options i raw = Ok l ->
  NoDup (map snd l) /\
  Forall (fun p => i <= p.2 < i + length raw /\ comes_from options raw (p.2 - i) p.1) l.
Proof.
  intros IX. revert i l. induction IX as [|v raw V IX IH]; intros i l; simpl.
  { intros <-%Ok_inj. split; constructor. }
  destruct v; try done.
  assert (SHIFT : forall l, Forall (fun p : Object * nat => S i <= p.2 < S i + length raw /\
                     comes_from options raw (p.2 - S i) p.1) l ->
                   Forall (fun p => i <= p.2 < i + S (length raw) /\
                     comes_from options (VObject o :: raw) (p.2 - i) p.1) l).
  { intros l' F. eapply Forall_impl; [exact F|]. intros [o' j] (B & I & D & o0 & O & L). simpl in *.
    split; [lia|]. split_and!; [done|done|]. exists o0. split; [|done].
    replace (j - i) with (S (j - S i)) by lia. done. }
  destruct (negb (AllowDRM options) && isDRM o) eqn:DRM.
  { intros [N F]%IH. split; [done|by apply SHIFT]. }
  destruct (normalizeFormatURL o) as [o1|] eqn:U.
  2:{ intros [N F]%IH. split; [done|by apply SHIFT]. }
  intros (o2 & C & R)%bind_Ok_iff. apply bind_Ok_iff in R as (rest & R & <-%Ok_inj).
  apply IH in R as [N F]. simpl. split.
  - apply NoDup_cons. split; [|done]. intros (p & E & P)%list_elem_of_fmap.
    rewrite Forall_forall in F. destruct (F p P) as [B _]. rewrite <- E in B. lia.
  - apply Forall_cons. split; [|by apply SHIFT]. simpl. split; [lia|].
    eapply comes_from_keeps; [eapply keeps_trans; [by eapply url_keeps|by eapply coerce_keeps]|].
    split_and!; [done| |exists o; by rewrite Nat.sub_diag].
    destruct (AllowDRM options); [by left|right]. by destruct (isDRM o).
Qed.

Lemma order_formats_spec options canonical filtered ordered raw :
  order_formats options canonical filtered = Ok ordered ->
  NoDup (map snd filtered) -> Forall (fun p => comes_from options raw p.2 p.1) filtered ->
  length ordered = length filtered /\ NoDup (map nf_Source ordered) /\
  forall i f, ordered !! i = Some f ->
    nf_Index f = i /\ comes_from options raw (nf_Source f) (nf_Object f).
Proof.
  unfold order_formats. intros H ND F. apply bind_Ok_iff in H as (ef & _ & H).
  apply bind_Ok_iff in H as (sr & _ & <-%Ok_inj).
  set (l := map (fun p : Object * nat => (fillSortingFields p.1, p.2)) filtered).
  assert (P : Permutation l (sortStable sr l)) by apply sort_Permutation.
  assert (ND' : NoDup (map snd (sortStable sr l))).
  { rewrite <- P. unfold l. rewrite map_map. done. }
  assert (F' : Forall (fun p => comes_from options raw p.2 p.1) (sortStable sr l)).
  { rewrite <- P. unfold l. apply List.Forall_map. eapply Forall_impl; [exact F|]. intros p C. simpl.
    eapply comes_from_keeps; [apply fill_keeps|done]. }
  apply Permutation_length in P. unfold l at 1 in P. rewrite length_map in P.
  revert P ND' F'. generalize (sortStable sr l). intros s P ND' F'. unfold number_formats. split_and!.
  - by rewrite length_imap.
  - clear -ND'. assert (E : map nf_Source (imap (fun i p => mkNormalized p.1 p.2 i []) s) = map snd s).
    { generalize 0. intros _. apply list_eq. intros i. rewrite !list_lookup_fmap, list_lookup_imap.
      by destruct (s !! i). }
    by rewrite E.
  - intros i f. rewrite list_lookup_imap. destruct (s !! i) as [p|] eqn:E; [|done].
    simpl. intros [= <-]. simpl. split; [done|]. rewrite Forall_forall in F'. apply F'.
    by eapply list_elem_of_lookup_2.
Qed.

End Filtered.

(** ** Identifiers *)

(** a byte that neither ends a selector term nor is ASCII space *)
Definition id_byte (c : byte) : bool :=
  negb (any_of ",/+[]()" c) && negb ((b2z c <? 0x80)%Z && isPythonRegexWhitespace (b2z c)).

(** not empty, without a delimiter of the selector language and without ASCII
    space *)
Definition undelimited_id (id : bytes) : bool := negb (bool_decide (id = [])) && forallb id_byte id.

Lemma low_bits_range k c : (0 <= k)%Z -> (0 <= low_bits k c < 2 ^ k)%Z.
Proof.
  intros K. unfold low_bits. replace (2 ^ k - 1)%Z with (Z.ones k) by (rewrite Z.ones_equiv; lia).
  rewrite Z.land_ones by done. apply Z.mod_pos_bound. lia.
Qed.

Lemma DecodeRune_range s : (0 <= (DecodeRune s).1 < 2 ^ 21)%Z.
Proof.
  assert (L : forall k c, (k = 3 \/ k = 4 \/ k = 5 \/ k = 6)%Z -> (0 <= low_bits k c < 2 ^ k)%Z)
    by (intros k c K; apply low_bits_range; lia).
  destruct s as [|c s1]; [by vm_compute|]. unfold DecodeRune. pose proof (b2z_range c) as B.
  repeat case_match; cbn [fst]; unfold RuneError; try lia;
    repeat match goal with |- context [low_bits ?k ?c] =>
      let H := fresh in pose proof (L k c ltac:(lia)) as H; revert H; generalize (low_bits k c); intros ? H end;
    simpl in *; lia.
Qed.

Lemma runes_range fuel s : Forall (fun r => 0 <= r < 2 ^ 21)%Z (runes_fuel fuel s).
Proof.
  revert s. induction fuel as [|n IH]; intros [|c s]; simpl; try constructor.
  pose proof (DecodeRune_range (c :: s)). destruct (DecodeRune (c :: s)) as [r w]. by constructor.
Qed.

Lemma high_byte_id z : (0x80 <= z < 256)%Z -> id_byte (z2b z) = true.
Proof.
  intros R. assert (B : b2z (z2b z) = z) by (rewrite b2z_z2b; apply Z.mod_small; lia).
  revert B. generalize (z2b z). intros c B. subst z. destruct c; vm_compute in R |- *; try done; by destruct R as [[]].
Qed.

Lemma low_byte_id z : (0 <= z < 0x80)%Z ->
  isPythonRegexWhitespace z || structural_rune z = false -> id_byte (z2b z) = true.
Proof.
  intros R. assert (B : b2z (z2b z) = z) by (rewrite b2z_z2b; apply Z.mod_small; lia).
  revert B. generalize (z2b z). intros c B. subst z. destruct c; vm_compute in R |- *; try done; by destruct R.
Qed.

Lemma undelimited_parts a : undelimited_id a = true <-> a <> [] /\ forallb id_byte a = true.
Proof. unfold undelimited_id. by rewrite andb_true_iff, negb_true_iff, bool_decide_eq_false. Qed.

Lemma sanitize_rune r : (0 <= r < 2 ^ 21)%Z ->
  undelimited_id (if isPythonRegexWhitespace r || structural_rune r then lit "_" else encode_rune r) = true.
Proof.
  intros R. destruct (_ || _) eqn:E; [done|]. apply undelimited_parts. unfold encode_rune. change (2 ^ 21)%Z with 2097152%Z in R.
  destruct (Z.ltb_spec r 0x80); [|destruct (Z.ltb_spec r 0x800); [|destruct (Z.ltb_spec r 0x10000)]];
    (split; [done|]); simpl forallb; rewrite ?andb_true_r.
  - apply low_byte_id; [lia|done].
  - rewrite !high_byte_id; [done|Z.div_mod_to_equations; lia..].
  - rewrite !high_byte_id; [done|Z.div_mod_to_equations; lia..].
  - rewrite !high_byte_id; [done|Z.div_mod_to_equations; lia..].
Qed.

Lemma undelimited_app a b : undelimited_id a = true -> forallb id_byte b = true -> undelimited_id (a ++ b) = true.
Proof.
  unfold undelimited_id. rewrite !andb_true_iff, !negb_true_iff, !bool_decide_eq_false, forallb_app.
  intros [N A] B. rewrite A, B. split; [|done]. by destruct a.
Qed.

Lemma sanitize_undelimited id : id <> [] -> undelimited_id (sanitizeFormatID id) = true.
Proof.
  intros N. unfold sanitizeFormatID, runes. pose proof (runes_range (length id) id) as R.
  assert (NE : runes_fuel (length id) id <> []).
  { destruct id as [|c s]; [done|]. simpl. by destruct (DecodeRune (c :: s)). }
  destruct R as [|r rs Hr R]; [done|]. simpl. apply undelimited_app; [by apply sanitize_rune|].
  clear -R. induction R as [|r rs Hr R IH]; simpl; [done|]. rewrite forallb_app, IH, andb_true_r.
  by apply undelimited_parts, sanitize_rune.
Qed.

Lemma digits_id s : forallb is_digit s = true -> forallb id_byte s = true.
Proof.
  rewrite !forallb_forall. intros D c C. specialize (D c C). by destruct c.
Qed.

Lemma Itoa_id n : (0 <= n <= MaxInt64)%Z -> undelimited_id (Itoa n) = true.
Proof. intros B. destruct (Itoa_spec n B) as (N & D & _). apply undelimited_parts. auto using digits_id. Qed.

(** a format with its identifier in place *)
Definition labelled (f : normalizedFormat) : Prop :=
  Lookup (nf_Object f) (lit "format_id") = VString (nf_ID f) /\ undelimited_id (nf_ID f) = true /\
  id_fits (nf_ID f) = true.

(** [g] is [f] but for its identifier *)
Definition relabels (f g : normalizedFormat) : Prop :=
  nf_Source g = nf_Source f /\ nf_Index g = nf_Index f /\
  keeps [lit "format_id"] (nf_Object f) (nf_Object g).

Lemma relabels_refl f : relabels f f.
Proof. split_and!; [done|done|apply keeps_refl]. Qed.

Lemma relabels_trans f g h : relabels f g -> relabels g h -> relabels f h.
Proof. intros (? & ? & K) (? & ? & K'). split_and!; [congruence..|by eapply keeps_trans]. Qed.

Lemma with_id_relabels f id g : with_id f id = Ok g ->
  relabels f g /\ nf_ID g = id /\ (indexed (nf_Object f) -> undelimited_id id = true -> labelled g).
Proof.
  unfold with_id. destruct (id_fits id) eqn:F; [|done]. intros <-%Ok_inj. split_and!; try done.
  - split_and!; [done|done|]. apply keeps_set. by left.
  - intros I S. split_and!; [|done|done]. simpl. rewrite Lookup_Set by done. by rewrite bool_decide_true.
Qed.

Lemma each_Forall2 step l l' : each step l = Ok l' -> Forall2 (fun f g => step f = Ok g) l l'.
Proof.
  revert l'. induction l as [|f l IH]; intros l'; simpl.
  - intros <-%Ok_inj. constructor.
  - intros (g & G & R)%bind_Ok_iff. apply bind_Ok_iff in R as (r & R & <-%Ok_inj). constructor; auto.
Qed.

Definition small (f : normalizedFormat) : Prop := nf_Index f < MaxNormalizedFormats /\ indexed (nf_Object f).

Lemma small_Itoa n : n < MaxNormalizedFormats -> undelimited_id (Itoa (Z.of_nat n)) = true.
Proof. intros B. apply Itoa_id. unfold MaxNormalizedFormats in B. unfold MaxInt64. lia. Qed.

Lemma first_id_labelled f g : small f -> first_id f = Ok g -> relabels f g /\ labelled g.
Proof.
  intros [B I]. pose proof (proj1 (undelimited_parts _) (small_Itoa _ B)) as [N _].
  assert (S : forall id, id <> [] -> with_id f (sanitizeFormatID id) = Ok g -> relabels f g /\ labelled g).
  { intros id NE (R & _ & L)%with_id_relabels. auto using sanitize_undelimited. }
  unfold first_id. destruct (Lookup (nf_Object f) (lit "format_id")); try done; try by apply S.
  case_bool_decide as E; (destruct (id_fits _); [|done]); by apply S.
Qed.

Lemma distinguish_labelled l f g : length l <= MaxNormalizedFormats -> small f -> labelled f ->
  distinguish l f = Ok g -> relabels f g /\ labelled g.
Proof.
  intros B [BI I] L. unfold distinguish. destruct (_ <=? 1).
  { intros <-%Ok_inj. auto using relabels_refl. }
  cbv zeta. set (n := length _). assert (Hn : n <= MaxNormalizedFormats).
  { unfold n. etrans; [apply filter_length_le|]. unfold group_of. rewrite length_map.
    etrans; [apply filter_length_le|done]. }
  intros (R & _ & K)%with_id_relabels. split; [done|]. apply K; [done|].
  destruct L as (_ & S & _). apply undelimited_app; [done|]. simpl.
  assert (D : undelimited_id (Itoa (Z.of_nat n)) = true)
    by (apply Itoa_id; unfold MaxNormalizedFormats in Hn; unfold MaxInt64; lia).
  by apply undelimited_parts in D as [_ D].
Qed.

(** no extension stays one behind the prefix *)
Lemma prefixed_extension id : isExtensionSelector id = true -> isExtensionSelector (lit "f" ++ id) = false.
Proof.
  intros E. assert (M : exists s, In s (selectionAudioExts ++ selectionVideoExts ++ selectionStoryboardExts) /\ lit s = id).
  { unfold isExtensionSelector, member in E. rewrite !orb_true_iff, !existsb_exists in E.
    destruct E as [[(s & I & D)|(s & I & D)]|(s & I & D)]; apply bool_decide_eq_true in D; exists s;
      rewrite !in_app_iff; auto. }
  destruct M as (s & I & <-).
  assert (K : forallb (fun s => negb (isExtensionSelector (lit "f" ++ lit s)))
                (selectionAudioExts ++ selectionVideoExts ++ selectionStoryboardExts) = true) by (vm_compute; reflexivity).
  rewrite forallb_forall in K. by apply negb_true_iff, K.
Qed.

Lemma avoid_labelled f g : small f -> labelled f -> avoid_extension f = Ok g ->
  relabels f g /\ labelled g /\ (isExtensionSelector (nf_ID g) = true -> nf_ID g = lookupExt (nf_Object g)).
Proof.
  intros [_ I] L. unfold avoid_extension. destruct (isExtensionSelector (nf_ID f)) eqn:E; simpl.
  2:{ intros <-%Ok_inj. split_and!; [apply relabels_refl|done|congruence]. }
  case_bool_decide as D; simpl.
  { intros <-%Ok_inj. auto using relabels_refl. }
  intros (R & ID & K)%with_id_relabels. split_and!; [done| |].
  - apply K; [done|]. destruct L as (_ & S & _). apply undelimited_parts in S as [_ S]. by apply (undelimited_app (lit "f")).
  - rewrite ID. intros C. pose proof (prefixed_extension _ E) as X. simpl in X. congruence.
Qed.

(** the label of a canonical format *)
Definition well_labelled (f : normalizedFormat) : Prop :=
  labelled f /\ (isExtensionSelector (nf_ID f) = true -> nf_ID f = lookupExt (nf_Object f)).

Lemma Forall2_step (P Q : normalizedFormat -> Prop) (R : normalizedFormat -> normalizedFormat -> Prop)
    (step : normalizedFormat -> res normalizedFormat) l l' :
  (forall f g, P f -> step f = Ok g -> R f g /\ Q g) ->
  Forall P l -> each step l = Ok l' -> Forall2 R l l' /\ Forall Q l'.
Proof.
  intros S F E. apply each_Forall2 in E. induction E as [|f g l l' E _ IH]; [done|].
  apply Forall_cons in F as [Pf F]. destruct (S f g Pf E) as [Rf Qg]. destruct (IH F) as [R' Q'].
  split; by constructor.
Qed.

Lemma relabels_small f g : small f -> relabels f g -> small g.
Proof. intros [B I] (_ & E & K). split; [congruence|]. by destruct (K I). Qed.

Lemma assign_ids_spec l l' :
  length l <= MaxNormalizedFormats -> Forall small l -> assign_ids l = Ok l' ->
  Forall2 relabels l l' /\ Forall well_labelled l' /\
  (foldr Z.add 0 (map (fun f => zlen (nf_ID f)) l') <= maxNormalizedTotal)%Z.
Proof.
  intros B S. unfold assign_ids. intros (l1 & E1 & R)%bind_Ok_iff. apply bind_Ok_iff in R as (l2 & E2 & R).
  apply bind_Ok_iff in R as (l3 & E3 & R). destruct (_ <? _)%Z eqn:T; [done|]. apply Ok_inj in R as <-.
  apply Z.ltb_ge in T.
  destruct (Forall2_step small (fun f => small f /\ labelled f) relabels first_id l l1) as [R1 Q1]; [|done|done|].
  { intros f g F G. destruct (first_id_labelled f g F G) as [R L]. eauto using relabels_small. }
  assert (B1 : length l1 <= MaxNormalizedFormats) by (by rewrite <- (Forall2_length _ _ _ R1)).
  destruct (Forall2_step (fun f => small f /\ labelled f) (fun f => small f /\ labelled f) relabels
    (distinguish l1) l1 l2) as [R2 Q2]; [|done|done|].
  { intros f g [F L] G. destruct (distinguish_labelled l1 f g B1 F L G) as [R L']. eauto using relabels_small. }
  destruct (Forall2_step (fun f => small f /\ labelled f) well_labelled relabels avoid_extension l2 l3)
    as [R3 Q3]; [|done|done|].
  { intros f g [F L] G. destruct (avoid_labelled f g F L G) as (R & L' & X). done. }
  split_and!; [|done|done].
  eapply Forall2_trans; [exact relabels_trans|exact R1|].
  eapply Forall2_trans; [exact relabels_trans|exact R2|exact R3].
Qed.

(** ** Preparation *)

Lemma keeps_mono ks ks' o o' : (forall k, k ∈ ks -> k ∈ ks') -> keeps ks o o' -> keeps ks' o o'.
Proof. intros M K I. destruct (K I) as [I' L]. split; [done|]. intros k N. apply L. auto. Qed.

Lemma relabels_comes_from options raw f g :
  relabels f g -> comes_from options raw (nf_Source f) (nf_Object f) ->
  comes_from options raw (nf_Source g) (nf_Object g).
Proof.
  intros (-> & _ & K). apply comes_from_keeps. eapply keeps_mono; [|exact K].
  intros k ->%list_elem_of_singleton. decided.
Qed.

Lemma value_ok_list l : value_ok (VList l) -> Forall value_ok l.
Proof. simpl. induction l as [|v l IH]; simpl; [constructor|]. intros [V L]. constructor; auto. Qed.

Lemma Lookup_ok o k : value_ok (VObject o) -> value_ok (Lookup o k).
Proof.
  intros [I F]. unfold Lookup. rewrite Object_Get_al by done. clear I.
  induction (fields o) as [|f fs IH]; simpl in *; [done|]. destruct F as [V F].
  case_bool_decide; simpl; auto.
Qed.

Lemma Object_Clone_ok o : value_ok (VObject o) -> Object_Clone o = o.
Proof. intros V. pose proof (Clone_ok (VObject o) V) as E. simpl in E. by injection E. Qed.

Lemma raw_formats_ok o raw implicit :
  value_ok (VObject o) -> raw_formats o = Ok (raw, implicit) -> objects_indexed raw.
Proof.
  intros V. unfold raw_formats. pose proof (Lookup_ok o (lit "formats") V) as L.
  assert (IX : indexed o) by apply V.
  destruct (Lookup o (lit "formats")) as [| | | | | | |l|]; try done.
  - intros [= <- <-]. constructor; [done|constructor].
  - intros [= <- <-]. constructor; [done|constructor].
  - destruct l as [|v l]; [done|]. intros [= <- <-]. apply value_ok_list in L.
    eapply Forall_impl; [exact L|]. intros w W. destruct w; try done. apply W.
Qed.

Section Prepared.
Context {UT : RuneTables} {LT : UnicodeTables} {CT : CaseTables} {DT : DigitTables}.

Lemma filter_formats_length options i raw l : filter_formats options i raw = Ok l -> length l <= length raw.
Proof.
  revert i l. induction raw as [|v raw IH]; intros i l; simpl; [by intros <-%Ok_inj|].
  destruct v; try done. destruct (_ && _); [intros E%IH; lia|].
  destruct (normalizeFormatURL o); [|intros E%IH; lia].
  intros (o2 & _ & R)%bind_Ok_iff. apply bind_Ok_iff in R as (rest & E%IH & <-%Ok_inj). simpl. lia.
Qed.

(** the formats that an extractor offers *)
Definition offered_formats (info : Object) : list Value :=
  match raw_formats info with Ok (raw, _) => raw | Err _ => [] end.

Lemma prepared_formats options info raw filtered ordered formats canonical implicit :
  value_ok (VObject info) -> raw_formats info = Ok (raw, implicit) -> length raw <= MaxNormalizedFormats ->
  filter_formats options 0 raw = Ok filtered -> order_formats options canonical filtered = Ok ordered ->
  assign_ids ordered = Ok formats ->
  length formats <= MaxNormalizedFormats /\ NoDup (map nf_Source formats) /\
  (foldr Z.add 0 (map (fun f => zlen (nf_ID f)) formats) <= maxNormalizedTotal)%Z /\
  forall i f, formats !! i = Some f ->
    nf_Index f = i /\ well_labelled f /\ comes_from options raw (nf_Source f) (nf_Object f).
Proof.
  intros V R B F O A. pose proof (raw_formats_ok _ _ _ V R) as IX.
  pose proof (filter_formats_length _ _ _ _ F) as FL.
  destruct (filter_formats_spec options 0 raw filtered IX F) as [ND FC].
  destruct (order_formats_spec options canonical filtered ordered raw O ND) as (OL & OD & OF).
  { eapply Forall_impl; [exact FC|]. intros p [_ C]. by rewrite Nat.sub_0_r in C. }
  assert (S : Forall small ordered).
  { apply Forall_lookup. intros i f E. destruct (OF i f E) as [EI (I & _)]. split; [|done].
    apply lookup_lt_Some in E. lia. }
  destruct (assign_ids_spec ordered formats) as (RL & WL & T); [lia|done|done|].
  split_and!; [|  |done|].
  - rewrite <- (Forall2_length _ _ _ RL). lia.
  - assert (E : map nf_Source formats = map nf_Source ordered).
    { clear -RL. induction RL as [|f g l l' (E & _) _ IH]; simpl; congruence. }
    by rewrite E.
  - intros i g G. destruct (Forall2_lookup_r _ _ _ _ _ RL G) as (f & E & RF).
    destruct (OF i f E) as [EI C]. split_and!.
    + destruct RF as (_ & -> & _). done.
    + rewrite Forall_lookup in WL. by eapply WL.
    + by eapply relabels_comes_from.
Qed.

Lemma prepare_facts info options p :
  value_ok (VObject info) -> Prepare info options = Ok p ->
  length (p_formats p) <= MaxNormalizedFormats /\ NoDup (map nf_Source (p_formats p)) /\
  (foldr Z.add 0 (map (fun f => zlen (nf_ID f)) (p_formats p)) <= maxNormalizedTotal)%Z /\
  forall i f, p_formats p !! i = Some f ->
    nf_Index f = i /\ well_labelled f /\ comes_from options (offered_formats info) (nf_Source f) (nf_Object f).
Proof.
  intros V. unfold Prepare, prepareFormats. intros (? & _ & H)%bind_Ok_iff. rewrite Object_Clone_ok in H by done.
  apply bind_Ok_iff in H as ([raw implicit] & R & H). unfold offered_formats. rewrite R.
  destruct (_ <? _) eqn:B; [done|]. apply Nat.ltb_ge in B. apply bind_Ok_iff in H as (filtered & F & H).
  destruct filtered as [|[first i0] filtered].
  { destruct implicit; [|done]. apply Ok_inj in H as <-. simpl.
    split_and!; [lia|constructor|by vm_compute|]. intros i f. by rewrite lookup_nil. }
  apply bind_Ok_iff in H as (ordered & O & H). apply bind_Ok_iff in H as (formats & A & <-%Ok_inj).
  by eapply prepared_formats.
Qed.


End Prepared.

(** ** A small page *)

Section Sample.
#[local] Instance page_runes : RuneTables :=
  {| letter_table := fun _ => false; digit_table := fun _ => false;
     number_table := fun _ => false; mark_table := fun _ => false |}.
#[local] Instance page_lower : UnicodeTables := {| unicode_lower := id |}.
#[local] Instance page_case : CaseTables := {| unicode_upper := id; unicode_fold := fun _ _ => false |}.
#[local] Instance page_digits : DigitTables := {| nd_digit := fun _ => None |}.

Definition page_format (id ext : string) (height : Z) (more : list (Field Value)) : Value :=
  VObject (NewObject ([mkField (lit "format_id") (VString (lit id)); mkField (lit "ext") (VString (lit ext));
                       mkField (lit "url") (VString (lit "https://media.example/v"));
                       mkField (lit "height") (VInt height)] ++ more)).

Definition page_info : Object :=
  NewObject [mkField (lit "id") (VString (lit "clip"));
             mkField (lit "formats") (VList
               [page_format "hd (1)" "mp4" 720 []; page_format "mp4" "webm" 480 [];
                page_format "sd" "mp4" 360 []; page_format "sd" "mp4" 240 [];
                page_format "locked" "mp4" 2160 [mkField (lit "has_drm") (VBool true)]])].

(** delimiters are replaced, equal identifiers are numbered, an identifier that
    reads as an extension is prefixed, and the protected format is dropped *)
Example page_prepared :
  match Prepare page_info zeroOptions with
  | Ok p => map (fun f => (nf_ID f, nf_Source f)) (p_formats p)
  | Err _ => []
  end = [(lit "sd-0", 3); (lit "sd-1", 2); (lit "fmp4", 1); (lit "hd__1_", 0)]%nat.
Proof. vm_compute. reflexivity. Qed.

Lemma NewObject_ok (fs : list (Field Value)) :
  NoDup (map Key fs) -> foldr (fun f P => value_ok (Val f) /\ P) True fs -> value_ok (VObject (NewObject fs)).
Proof. intros ND H. split; [apply NewObject_indexed|]. by rewrite NewObject_fields. Qed.

Lemma page_format_ok id ext height more :
  more = [] \/ more = [mkField (lit "has_drm") (VBool true)] -> value_ok (page_format id ext height more).
Proof. intros [-> | ->]; apply NewObject_ok; [decided|done|decided|done]. Qed.

Lemma page_info_ok : value_ok (VObject page_info).
Proof.
  apply NewObject_ok; [decided|]. split; [done|]. split; [|done].
  repeat (split; [by apply page_format_ok; auto|]). done.
Qed.

Definition page : Prepared := from_Ok (mkPrepared page_info [] zeroOptions) (Prepare page_info zeroOptions).

Lemma page_ok : Prepare page_info zeroOptions = Ok page.
Proof. apply from_Ok_eq. vm_compute. reflexivity. Qed.

(** An identifier may still be one that no selector names: the parser refuses
    its runes, or reads it as another term. *)
Example unselectable_identifiers :
  map sanitizeFormatID [lit "a#b"; lit "best"] = [lit "a#b"; lit "best"] /\
  forallb undelimited_id [lit "a#b"; lit "best"] = true /\
  (exists e, parseAtomSpec (lit "a#b") 0 = Err e) /\
  (exists spec, parseAtomSpec (lit "best") 0 = Ok spec /\ as_kind spec <> atomDirectID).
Proof. vm_compute. split_and!; eauto. eexists. split; [done|]. done. Qed.


End Sample.
