(* ===== verification/PreparedTypes.v ===== *)
(** * The types of prepared formats

    Behind preparation a format is well formed, its numeric fields are neither
    texts nor collections, its identifier is a string, and it has something to
    download.  The steps behind the coercion are edits: assignments of scalars that respect the
    types and leave the address of the media alone. *)
From Stdlib Require Import Sorting.Permutation.
From S2P Require Import Prelude GoStrings Runes Value FilterNumber Filter Decimal Float64 Regex SortSettings SortOptions Sorter SorterValues Ordering Selector Normalize NormalizeFacts.

#[local] Open Scope nat_scope.

(** ** Edits *)

(** no text and no collection: a truth value is left as it is, as in Python,
    where it is an integer *)
Definition number_like (v : Value) : bool :=
  match v with Missing | Null | VInt _ | VFloat _ | VBool _ => true | _ => false end.

Definition scalar (v : Value) : bool := match v with VList _ | VObject _ => false | _ => true end.

Definition address_fields : list bytes := map lit ["url"; "_youtube_sabr"; "_youtube_sabr_server_url"]%string.

Inductive edits (o : Object) : Object -> Prop :=
| edits_refl : edits o o
| edits_set o' k v : edits o o' -> scalar v = true -> (k ∈ formatNumericFields -> number_like v = true) ->
    k ∉ address_fields -> edits o (Object_Set o' k v).

Lemma edits_trans o1 o2 o3 : edits o1 o2 -> edits o2 o3 -> edits o1 o3.
Proof. intros A B. induction B; [done|]. by constructor. Qed.

(** an assignment to a literal key that is no numeric field, or of a number *)
Lemma edits_text o key v : scalar v = true -> lit key ∉ formatNumericFields -> lit key ∉ address_fields ->
  edits o (set_field key v o).
Proof. intros S N A. constructor; [constructor|done| |done]. done. Qed.

Lemma edits_number o k v : number_like v = true -> scalar v = true -> k ∉ address_fields -> edits o (Object_Set o k v).
Proof. intros N S A. by constructor; [constructor|..]. Qed.

Ltac edit := first [ exact (edits_refl _)
                   | apply edits_text; [done|decided|decided]
                   | apply edits_number; [done|done|decided] ].

(** ** What edits preserve *)

Lemma value_ok_object o : value_ok (VObject o) <-> indexed o /\ Forall (fun f => value_ok (Val f)) (fields o).
Proof.
  simpl. apply and_iff_compat_l. induction (fields o) as [|f fs IH]; simpl; [done|]. by rewrite Forall_cons, IH.
Qed.

Lemma Object_Set_ok o k v : value_ok (VObject o) -> value_ok v -> value_ok (VObject (Object_Set o k v)).
Proof.
  rewrite !value_ok_object. intros [I F] V. split; [by apply Object_Set_indexed|].
  rewrite Object_Set_al by done. clear I. induction (fields o) as [|f fs IH]; simpl; [by constructor|].
  apply Forall_cons in F as [Vf F]. case_bool_decide; by constructor; auto.
Qed.

Definition typed (o : Object) : Prop := forall k, k ∈ formatNumericFields -> number_like (Lookup o k) = true.

Lemma scalar_ok v : scalar v = true -> value_ok v.
Proof. by destruct v. Qed.

Lemma edits_ok o o' : edits o o' -> value_ok (VObject o) -> value_ok (VObject o').
Proof. intros E V. induction E; [done|]. apply Object_Set_ok; auto using scalar_ok. Qed.

Lemma ok_indexed o : value_ok (VObject o) -> indexed o.
Proof. by intros [? _]. Qed.

Lemma edits_typed o o' : edits o o' -> value_ok (VObject o) -> typed o -> typed o'.
Proof.
  intros E V T. induction E as [|o' k v E IH S N A]; [done|]. intros k' K'.
  rewrite Lookup_Set by (apply ok_indexed; by eapply edits_ok). case_bool_decide; [subst; auto|by apply IH].
Qed.

Lemma edits_address o o' k : edits o o' -> value_ok (VObject o) -> k ∈ address_fields -> Lookup o' k = Lookup o k.
Proof.
  intros E V K. induction E as [|o' k' v E IH S N A]; [done|].
  rewrite Lookup_Set by (apply ok_indexed; by eapply edits_ok). rewrite bool_decide_false; [done|]. by intros ->.
Qed.

(** there is something to download: a streaming server of the format's own or
    a URL, and it is a text of at least one byte *)
Definition has_text (o : Object) (k : bytes) : Prop := exists s, Lookup o k = VString s /\ s <> [].

Definition has_address (o : Object) : Prop :=
  (Lookup o (lit "_youtube_sabr") = VBool true /\ has_text o (lit "_youtube_sabr_server_url")) \/ has_text o (lit "url").

Lemma edits_has_address o o' : edits o o' -> value_ok (VObject o) -> has_address o -> has_address o'.
Proof. intros E V. unfold has_address, has_text. by rewrite !(edits_address o o') by (done || decided). Qed.

(** ** The steps are edits *)

Section Steps.
Context {UT : RuneTables} {LT : UnicodeTables} {CT : CaseTables} {DT : DigitTables}.

Lemma derive_rate_edits key f a b o : lit key ∉ address_fields -> edits o (derive_rate key f a b o).
Proof.
  intros K. unfold derive_rate. cbv zeta. set (o' := match field_number o a with Some _ => _ | None => _ end).
  assert (edits o o').
  { unfold o'. destruct (field_number o a), (field_number o b); try apply edits_refl.
    apply edits_number; [by destruct (f64_eq _ _)..|done]. }
  destruct (isZeroLikeNumber _); [|done]. eapply edits_trans; [done|by apply edits_number].
Qed.

Lemma fill_edits o : edits o (fillSortingFields o).
Proof.
  unfold fillSortingFields. cbv zeta.
  apply edits_trans with (fill_protocol_ext o).
  { unfold fill_protocol_ext. cbv zeta. set (o' := if isEmptyString (Lookup o (lit "protocol")) then _ else _).
    apply edits_trans with o'; [unfold o'; destruct (isEmptyString _); edit|].
    clearbody o'. destruct (isEmptyString _); [destruct (nonempty_text _)|]; edit. }
  set (o1 := fill_protocol_ext o). generalize (text_of o1 "vcodec") (text_of o1 "acodec") (text_of o1 "ext").
  intros vcodec acodec ext. apply edits_trans with (fill_exts vcodec acodec ext o1).
  { unfold fill_exts. destruct (bool_decide _); (eapply edits_trans; [|apply edits_text; [done|decided|decided]]); edit. }
  apply edits_trans with (fill_preference vcodec ext (fill_exts vcodec acodec ext o1)).
  { unfold fill_preference. destruct (_ && _); edit. }
  generalize (fill_preference vcodec ext (fill_exts vcodec acodec ext o1)). intros o2. unfold fill_rates. cbv zeta.
  repeat match goal with
  | |- edits _ (if ?c then derive_rate ?k ?f ?a ?b ?x else ?x) =>
      apply edits_trans with x; [|destruct c; [apply derive_rate_edits; decided|apply edits_refl]]
  | |- edits _ (if ?c then set_field ?k ?v ?x else ?x) =>
      apply edits_trans with x; [|destruct c; edit]
  end. apply edits_refl.
Qed.

Lemma numeric_not_address k : k ∈ formatNumericFields -> k ∉ address_fields.
Proof.
  intros K. assert (F : Forall (fun k => k ∉ address_fields) formatNumericFields) by decided.
  rewrite Forall_forall in F. auto.
Qed.

Lemma coerce_numeric_edits o k : k ∈ formatNumericFields -> edits o (coerce_numeric o k).
Proof.
  intros K. pose proof (numeric_not_address k K). unfold coerce_numeric.
  destruct (Lookup o k); try apply edits_refl; apply edits_number; try done; by destruct (intOrNone _).
Qed.

Lemma coerce_numeric_typed o k : indexed o -> number_like (Lookup (coerce_numeric o k) k) = true.
Proof.
  intros I. unfold coerce_numeric. destruct (Lookup o k) eqn:E; try (by rewrite E);
    rewrite Lookup_Set, bool_decide_true by done; by destruct (intOrNone _).
Qed.

Lemma coerce_numeric_other o k k' : indexed o -> k <> k' -> Lookup (coerce_numeric o k) k' = Lookup o k'.
Proof.
  intros I N. unfold coerce_numeric. destruct (Lookup o k); try done; by rewrite Lookup_Set, bool_decide_false.
Qed.

Lemma coerce_all_typed fs o : value_ok (VObject o) -> (forall k, k ∈ fs -> k ∈ formatNumericFields) ->
  edits o (foldl coerce_numeric o fs) /\
  forall k, k ∈ fs \/ number_like (Lookup o k) = true -> number_like (Lookup (foldl coerce_numeric o fs) k) = true.
Proof.
  revert o. induction fs as [|f fs IH]; intros o V F; simpl.
  { split; [constructor|]. intros k [K|K]; [by apply not_elem_of_nil in K|done]. }
  pose proof (coerce_numeric_edits o f ltac:(apply F; by left)) as E.
  destruct (IH (coerce_numeric o f)) as [E' T]; [by eapply edits_ok|intros k K; apply F; by right|].
  split; [by eapply edits_trans|]. intros k K. apply T. destruct (decide (f = k)) as [->|N].
  - right. by apply coerce_numeric_typed, ok_indexed.
  - rewrite coerce_numeric_other by (done || by apply ok_indexed). rewrite elem_of_cons in K. naive_solver.
Qed.

Lemma coerce_edits o o' : value_ok (VObject o) -> coerceFormatFields o = Ok o' -> edits o o' /\ typed o'.
Proof.
  intros V. unfold coerceFormatFields. intros (o1 & C & <-%Ok_inj)%bind_Ok_iff.
  assert (E1 : edits o o1).
  { unfold coerce_id in C. destruct (Lookup o (lit "format_id")) eqn:E; try (injection C as <-; apply edits_refl);
      (destruct (pythonStringValue _) as [text|]; [|done]); (destruct (_ <? _)%Z; [done|]); injection C as <-;
      (apply (edits_text o "format_id"); [done|decided|decided]). }
  destruct (coerce_all_typed formatNumericFields o1) as [E2 T]; [by eapply edits_ok|done|].
  split; [by eapply edits_trans|]. intros k K. apply T. by left.
Qed.

Lemma url_step o o' : value_ok (VObject o) -> normalizeFormatURL o = Some o' -> value_ok (VObject o') /\ has_address o'.
Proof.
  intros V. unfold normalizeFormatURL, text_of.
  destruct (_ && _) eqn:S; [|destruct (Lookup o (lit "url")) as [| | | | |s|b| |] eqn:U; try done].
  - apply andb_true_iff in S as [S1 S2]. intros [= <-]. split; [done|]. left. unfold has_text.
    destruct (Lookup o (lit "_youtube_sabr")) as [| |[]| | | | | |]; try done. split; [done|].
    destruct (Lookup o (lit "_youtube_sabr_server_url")); try done. eexists. split; [done|].
    apply negb_true_iff, bool_decide_eq_false in S2. done.
  - destruct (bool_decide (s = [])) eqn:B; [by intros [=]|]. intros [= <-]. split; [done|]. right. exists s.
    by apply bool_decide_eq_false in B.
  - destruct (_ || _) eqn:B; [done|]. apply orb_false_iff in B as [B%bool_decide_eq_false _]. intros [= <-].
    split; [by apply Object_Set_ok|]. right. exists b. by rewrite Lookup_Set, bool_decide_true by (done || by apply ok_indexed).
Qed.

(** ** Prepared formats *)

Definition well_typed (o : Object) : Prop := value_ok (VObject o) /\ typed o /\ has_address o.

Lemma edits_well_typed o o' : edits o o' -> well_typed o -> well_typed o'.
Proof. intros E (V & T & A). split_and!; [by eapply edits_ok|by eapply edits_typed|by eapply edits_has_address]. Qed.

Lemma filter_formats_typed options i raw l :
  Forall value_ok raw -> filter_formats options i raw = Ok l -> Forall (fun p => well_typed p.1) l.
Proof.
  intros F. revert i l. induction F as [|v raw V _ IH]; intros i l; simpl; [intros <-%Ok_inj; constructor|].
  destruct v; try done. destruct (_ && _); [by apply IH|]. destruct (normalizeFormatURL o) as [o1|] eqn:U; [|by apply IH].
  intros (o2 & C & (rest & R & <-%Ok_inj)%bind_Ok_iff)%bind_Ok_iff. constructor; [|by eapply IH]. simpl.
  destruct (url_step o o1 V U) as [V1 A]. destruct (coerce_edits o1 o2 V1 C) as [E T].
  split_and!; [by eapply edits_ok|done|by eapply edits_has_address].
Qed.

Lemma set_id_edits f id : edits (nf_Object f) (nf_Object (set_id f id)).
Proof. apply (edits_text (nf_Object f) "format_id"); [done|decided|decided]. Qed.

Lemma each_typed (step : normalizedFormat -> res normalizedFormat) l l' :
  (forall f g, step f = Ok g -> g = f \/ exists id, g = set_id f id) -> each step l = Ok l' ->
  Forall (fun f => well_typed (nf_Object f)) l -> Forall (fun f => well_typed (nf_Object f)) l'.
Proof.
  intros S E%each_Forall2 F. induction E as [|f g l l' Sg _ IH]; [done|]. apply Forall_cons in F as [Ff F].
  constructor; [|by apply IH]. destruct (S f g Sg) as [->|[id ->]]; [done|].
  eapply edits_well_typed; [apply set_id_edits|done].
Qed.

Lemma with_id_set f id g : with_id f id = Ok g -> g = f \/ exists id, g = set_id f id.
Proof. unfold with_id. destruct (id_fits id); [|done]. intros <-%Ok_inj. eauto. Qed.

Lemma assign_ids_typed l l' : assign_ids l = Ok l' ->
  Forall (fun f => well_typed (nf_Object f)) l -> Forall (fun f => well_typed (nf_Object f)) l'.
Proof.
  unfold assign_ids. intros (l1 & E1 & (l2 & E2 & (l3 & E3 & H)%bind_Ok_iff)%bind_Ok_iff)%bind_Ok_iff F.
  destruct (_ <? _)%Z; [done|]. apply Ok_inj in H as <-.
  eapply (each_typed avoid_extension); [|exact E3|eapply (each_typed (distinguish l1)); [|exact E2|
    eapply (each_typed first_id); [|exact E1|done]]]; intros f g.
  - unfold avoid_extension. destruct (_ && _); [apply with_id_set|]. intros <-%Ok_inj. by left.
  - unfold distinguish. destruct (_ <=? _); [intros <-%Ok_inj; by left|apply with_id_set].
  - unfold first_id. destruct (Lookup _ _); try done; try apply with_id_set.
    destruct (id_fits _); [apply with_id_set|done].
Qed.

Lemma order_formats_typed options canonical l l' : order_formats options canonical l = Ok l' ->
  Forall (fun p => well_typed p.1) l -> Forall (fun f => well_typed (nf_Object f)) l'.
Proof.
  unfold order_formats. intros (xs & _ & (sr & _ & <-%Ok_inj)%bind_Ok_iff)%bind_Ok_iff F.
  set (m := map _ l). assert (P : Permutation m (sortStable sr m)) by apply sort_Permutation.
  assert (G : Forall (fun p => well_typed p.1) (sortStable sr m)).
  { rewrite <- P. unfold m. apply List.Forall_map. eapply Forall_impl; [exact F|]. intros p W. simpl.
    eapply edits_well_typed; [apply fill_edits|done]. }
  revert G. generalize (sortStable sr m). intros s G. unfold number_formats. apply Forall_lookup. intros i f.
  rewrite list_lookup_imap. destruct (s !! i) as [p|] eqn:E; [|done]. intros [= <-]. simpl.
  rewrite Forall_lookup in G. by apply (G i p).
Qed.

Lemma raw_formats_values o raw implicit : value_ok (VObject o) -> raw_formats o = Ok (raw, implicit) -> Forall value_ok raw.
Proof.
  intros V. unfold raw_formats. pose proof (Lookup_ok o (lit "formats") V) as L.
  destruct (Lookup o (lit "formats")) as [| | | | | | |l|]; try done.
  - intros [= <- <-]. by constructor.
  - intros [= <- <-]. by constructor.
  - destruct l as [|v l]; [done|]. intros [= <- <-]. by apply value_ok_list.
Qed.


End Steps.

(** ** The small page *)

#[local] Existing Instances page_runes page_lower page_case page_digits.

