(* ===== verification/Evaluate.v ===== *)
(** * Evaluation of format selectors ([internal/format/eval.go], [selector.go])

    A selector is evaluated against the canonical list of formats, from worst to
    best, into independent outputs, each a list of tracks to merge.  A format
    is a reference ([*value.Object] of the source): two occurrences of the same
    reference are the same object, and the availability cache is keyed by it.

    The context that a group copies (the formats it sees) is an argument; what
    evaluation changes is the state [evalState]: the regular-expression budget
    and the availability cache are shared with the groups, as the source shares
    the pointer and the map, and the counter of merge candidates is a field of
    the copied context, so that what a group adds to it is lost when the group
    ends.  [calls] records the calls of the availability callback.

    [Plan.v] builds the plans of the selected tracks. *)
From S2P Require Import Prelude GoStrings Runes Value FilterNumber Filter SortOptions Selector.

#[local] Open Scope nat_scope.

(** ** Compiled selectors *)

Record Term := mkTerm { t_Name : bytes; t_Atom : Atom; t_Filters : list Filter }.
Definition Choice : Type := list Term.

Record Selector := mkSelector { sel_root : option astNode; sel_Alternatives : list Choice }.

Section Compiled.
Context {UT : RuneTables} {RE : RegexEngine}.

Fixpoint compileFilters (fs : list Filter) : res (list Filter) :=
  match fs with
  | [] => Ok []
  | f :: fs' => f ← compileFilter f; fs' ← compileFilters fs'; Ok (f :: fs')
  end.

Fixpoint compileNodeFilters (node : astNode) : res astNode :=
  match node with
  | mkNode k children filters a sp =>
      filters ← compileFilters filters;
      children ← (fix go (cs : list astNode) : res (list astNode) :=
                    match cs with
                    | [] => Ok []
                    | c :: cs' => c ← compileNodeFilters c; cs' ← go cs'; Ok (c :: cs')
                    end) children;
      Ok (mkNode k children filters a sp)
  end.

Definition is_regex (f : Filter) : bool :=
  match f_predicate f with
  | Some p => match cf_expression p with Some _ => true | None => false end
  | None => false
  end.

Fixpoint countRegexPredicates (node : astNode) : nat :=
  match node with
  | mkNode _ children filters _ _ =>
      length (List.filter is_regex filters) + list_sum (map countRegexPredicates children)
  end.

Definition enforceRegexPredicateLimit (node : astNode) : res unit :=
  if maxRegexPredicatesPerAST <? countRegexPredicates node
  then Err (selectorLimit (start (n_span node)) (end_ (n_span node))
              (msg "too many regular expression predicates"))
  else Ok tt.

Definition ParseSelector (input : bytes) : res Selector :=
  root ← parseSelectorAST input;
  root ← compileNodeFilters root;
  enforceRegexPredicateLimit root;;
  Ok (mkSelector (Some root) []).

(** ** Legacy alternatives *)

Definition resolveLegacyAtomName (name : bytes) : option Atom :=
  let atom best media := mkAtom true best media false 1 [] false in
  if bool_decide (name = lit "best") then Some (atom true AtomMediaCombined)
  else if bool_decide (name = lit "worst") then Some (atom false AtomMediaCombined)
  else if bool_decide (name = lit "bestvideo") then Some (atom true AtomMediaVideo)
  else if bool_decide (name = lit "worstvideo") then Some (atom false AtomMediaVideo)
  else if bool_decide (name = lit "bestaudio") then Some (atom true AtomMediaAudio)
  else if bool_decide (name = lit "worstaudio") then Some (atom false AtomMediaAudio)
  else
    let a := parseAtomToken name in
    if at_OK a then Some (if (at_Index a <? 1)%Z then a <| at_Index := 1%Z |> else a) else None.

Definition resolveAtom (term : Term) : option Atom :=
  let a := t_Atom term in
  if at_OK a then Some (if (at_Index a <? 1)%Z then a <| at_Index := 1%Z |> else a)
  else resolveLegacyAtomName (t_Name term).

Definition legacyTermToAST (term : Term) : astNode :=
  let name := t_Name term in
  let spec :=
    if bool_decide (name = lit "all") then mkSpec atomAll name zeroAtom
    else if bool_decide (name = lit "mergeall") then mkSpec atomMergeAll name zeroAtom
    else match resolveAtom term with
         | Some a => mkSpec atomQuality [] a
         | None =>
             match classifyExtensionToken name with
             | Some kind => mkSpec kind name zeroAtom
             | None =>
                 match parseAtomSpec name 0 with
                 | Ok a => a
                 | Err _ => mkSpec atomDirectID name zeroAtom
                 end
             end
         end in
  mkNode astAtom [] (t_Filters term) spec (mkSpan 0 0).

(** the left fold of the binary operator of the two legacy conversions *)
Definition join (k : astKind) (nodes : list astNode) : option astNode :=
  match nodes with
  | [] => None
  | n :: ns => Some (foldl (fun acc n => mkNode k [acc; n] [] zeroSpec (mkSpan 0 0)) n ns)
  end.

Definition legacyChoiceToAST (choice : Choice) : res astNode :=
  match join astMerge (map legacyTermToAST choice) with
  | None => Err (selectorSyntax 0 0 (msg "empty choice"))
  | Some n => Ok n
  end.

Fixpoint legacyChoices (alternatives : list Choice) : res (list astNode) :=
  match alternatives with
  | [] => Ok []
  | c :: cs => n ← legacyChoiceToAST c; ns ← legacyChoices cs; Ok (n :: ns)
  end.

Definition legacyAlternativesToAST (alternatives : list Choice) : res astNode :=
  branches ← legacyChoices alternatives;
  match join astPickFirst branches with
  | None => Err (selectorSyntax 0 0 (msg "selector is empty"))
  | Some n => Ok n
  end.

Definition rootNode (selector : Selector) : res astNode :=
  match sel_root selector with
  | Some root => Ok root
  | None =>
      if bool_decide (sel_Alternatives selector = []) then
        Err (selectorSyntax 0 0 (msg "selector is empty"))
      else
        root ← legacyAlternativesToAST (sel_Alternatives selector);
        root ← compileNodeFilters root;
        enforceRegexPredicateLimit root;;
        Ok root
  end.

End Compiled.

(** ** The evaluator *)

Definition ref : Type := nat.
Definition tracks : Type := list ref.

Record evalContext := mkCtx {
  formats : list ref;
  options : Options;
  incomplete : bool;
  hasMerged : bool
}.
#[global] Instance evalContext_eta : Eta evalContext := fun r =>
  mkCtx (formats r) (options r) (incomplete r) (hasMerged r).

Record evalState := mkState {
  mergeCandidates : nat;
  regexBudget : regexEvalBudget;
  cache : gmap ref bool;
  calls : list ref
}.
#[global] Instance evalState_eta : Eta evalState := fun r =>
  mkState (mergeCandidates r) (regexBudget r) (cache r) (calls r).

(** The availability callback may depend on the calls made before. *)
Definition FormatAvailability : Type := list ref -> ref -> result message bool.

Section Evaluator.
Context {UT : RuneTables} {RE : RegexEngine}.
Variable object_of : ref -> Object.
Variable Availability : option FormatAvailability.

Definition E (A : Type) : Type := evalState -> res (A * evalState).

#[global] Instance E_ret : MRet E := fun A a st => Ok (a, st).
#[global] Instance E_bind : MBind E := fun A B f m st =>
  match m st with
  | Ok (a, st') => f a st'
  | Err e => Err e
  end.

Definition raise {A} (e : selector_error) : E A := fun _ => Err e.

Definition matches (o : ref) (filters : list Filter) : E bool := fun st =>
  match matchesFilters (object_of o) filters (regexBudget st) with
  | Ok (b, budget) => Ok (b, st <| regexBudget := budget |>)
  | Err e => Err e
  end.

Definition isAvailableCached (o : ref) : E bool := fun st =>
  match Availability with
  | None => Ok (true, st)
  | Some f =>
      match cache st !! o with
      | Some b => Ok (b, st)
      | None =>
          match f (calls st) o with
          | Err m => Err (Availability_failed m)
          | Ok b => Ok (b, st <| cache := <[o := b]> (cache st) |> <| calls := calls st ++ [o] |>)
          end
      end
  end.

Definition codec (o : ref) (key : string) : option bytes := StringValue (Lookup (object_of o) (lit key)).

Definition codecNotNone (o : ref) (key : string) : bool :=
  match codec o key with Some text => negb (bool_decide (text = lit "none")) | None => true end.

Definition codecExplicitlyNone (o : ref) (key : string) : bool :=
  match codec o key with Some text => bool_decide (text = lit "none") | None => false end.

Definition readStringField (o : ref) (key : string) : bytes := default [] (codec o key).
Definition hasMediaKind (codec : bytes) : bool := negb (bool_decide (codec = lit "none")).

Definition atomMatches (o : ref) (atom : Atom) : bool :=
  let v := codecNotNone o "vcodec" in
  let a := codecNotNone o "acodec" in
  match at_Media atom, at_Star atom with
  | AtomMediaCombined, false => v && a
  | AtomMediaCombined, true => v || a
  | AtomMediaVideo, true => v && (v || a)
  | AtomMediaAudio, true => a && (v || a)
  | AtomMediaVideo, false => codecExplicitlyNone o "acodec" && (v || a)
  | AtomMediaAudio, false => codecExplicitlyNone o "vcodec" && (v || a)
  end.

Definition extensionObjectMatches (o : ref) (kind : bool * bool * bool) : bool :=
  let '(video, audio, storyboard) := kind in
  if storyboard : bool then codecExplicitlyNone o "acodec" && codecExplicitlyNone o "vcodec"
  else if audio : bool then codecNotNone o "acodec"
  else if video : bool then codecNotNone o "acodec" && codecNotNone o "vcodec"
  else false.

Definition incompleteFormats (fs : list ref) : bool :=
  negb (bool_decide (fs = [])) &&
  (forallb (fun o => codecExplicitlyNone o "vcodec") fs ||
   forallb (fun o => codecExplicitlyNone o "acodec") fs).

Definition hasMergedFormat (fs : list ref) : bool :=
  existsb (fun o => codecNotNone o "vcodec" && codecNotNone o "acodec") fs.

(** *** Multistream suppression and merging *)

Fixpoint suppress (opts : Options) (seenVideo seenAudio : bool) (ts : tracks) : tracks :=
  match ts with
  | [] => []
  | o :: ts' =>
      let hasVideo := hasMediaKind (readStringField o "vcodec") in
      let hasAudio := hasMediaKind (readStringField o "acodec") in
      if negb hasVideo && negb hasAudio then suppress opts seenVideo seenAudio ts'
      else if negb (AllowMultipleVideoStreams opts) && hasVideo && seenVideo then
        suppress opts seenVideo seenAudio ts'
      else if negb (AllowMultipleAudioStreams opts) && hasAudio && seenAudio then
        suppress opts seenVideo seenAudio ts'
      else o :: suppress opts (seenVideo || hasVideo) (seenAudio || hasAudio) ts'
  end.

Definition applyMultistreamSuppression (ts : tracks) (opts : Options) : tracks :=
  if length ts <=? 1 then ts else suppress opts false false ts.

Definition enforceMergeTrackCount (count : nat) (sp : span) : E unit :=
  if maxMergeTerms <? count
  then raise (selectorLimit (start sp) (end_ sp) (msg "too many merge tracks in one output"))
  else mret tt.

Definition enforceOutputCount (count : nat) (sp : span) : E unit :=
  if maxCommaOutputs <? count
  then raise (selectorLimit (start sp) (end_ sp) (msg "too many independent outputs"))
  else mret tt.

Definition countCandidate : E unit := fun st =>
  let st := st <| mergeCandidates := S (mergeCandidates st) |> in
  if maxCartesianCandidates <? mergeCandidates st
  then Err (selectorLimit 0 0 (msg "merge cartesian product exceeds limit"))
  else Ok (tt, st).

(** the two nested loops of [mergeTrackGroups], over the pairs in order *)
Fixpoint mergePairs (ctx : evalContext) (pairs : list (tracks * tracks)) (merged : list tracks)
  : E (list tracks) :=
  match pairs with
  | [] => mret merged
  | (leftTracks, rightTracks) :: pairs' =>
      let combined := applyMultistreamSuppression (leftTracks ++ rightTracks) (options ctx) in
      if bool_decide (combined = []) then mergePairs ctx pairs' merged
      else
        countCandidate;;
        enforceMergeTrackCount (length combined) (mkSpan 0 0);;
        mergePairs ctx pairs' (merged ++ [combined])
  end.

Definition mergeTrackGroups (ctx : evalContext) (left right : list tracks) : E (list tracks) :=
  if bool_decide (left = []) || bool_decide (right = []) then mret []
  else mergePairs ctx (flat_map (fun l => map (fun r => (l, r)) right) left) [].

(** *** Atoms *)

Fixpoint filterFormats_loop (fs : list ref) (filters : list Filter) : E (list ref) :=
  match fs with
  | [] => mret []
  | o :: fs' =>
      matched ← matches o filters;
      rest ← filterFormats_loop fs' filters;
      mret (if matched : bool then o :: rest else rest)
  end.

Definition filterFormats (fs : list ref) (filters : list Filter) : E (list ref) :=
  if bool_decide (length filters = 0) then mret fs else filterFormats_loop fs filters.

(** the guards every atom applies to a candidate, in the order of the source:
    [pre] before the filters, [post] behind them, then availability *)
Definition candidate (pre post : ref -> bool) (filters : list Filter) (o : ref) : E bool :=
  if negb (pre o) then mret false
  else
    matched ← matches o filters;
    if negb (matched && post o) then mret false else isAvailableCached o.

(** the candidate number [index], counting from [seen + 1] *)
Fixpoint findCandidate (pre post : ref -> bool) (filters : list Filter) (index : Z) (seen : Z)
    (fs : list ref) : E (option ref) :=
  match fs with
  | [] => mret None
  | o :: fs' =>
      ok ← candidate pre post filters o;
      if ok : bool then
        if (seen + 1 =? index)%Z then mret (Some o)
        else findCandidate pre post filters index (seen + 1) fs'
      else findCandidate pre post filters index seen fs'
  end.

Definition yes (_ : ref) : bool := true.

Fixpoint atomAll_loop (node : astNode) (fs : list ref) (outputs : list tracks) : E (list tracks) :=
  match fs with
  | [] => mret outputs
  | o :: fs' =>
      ok ← candidate yes yes (n_filters node) o;
      if ok : bool then
        let outputs := outputs ++ [[o]] in
        if maxCommaOutputs <? length outputs then
          raise (selectorLimit (start (n_span node)) (end_ (n_span node)) (msg "too many all outputs"))
        else atomAll_loop node fs' outputs
      else atomAll_loop node fs' outputs
  end.

Definition atomAllMatches (ctx : evalContext) (node : astNode) : E (list tracks) :=
  atomAll_loop node (rev (formats ctx)) [].

Definition playable (o : ref) : bool := codecNotNone o "vcodec" || codecNotNone o "acodec".

Fixpoint atomMergeAll_loop (node : astNode) (fs : list ref) (checked : list ref) : E (list ref) :=
  match fs with
  | [] => mret checked
  | o :: fs' =>
      ok ← candidate yes playable (n_filters node) o;
      atomMergeAll_loop node fs' (if ok : bool then checked ++ [o] else checked)
  end.

Definition atomMergeAllMatches (ctx : evalContext) (node : astNode) : E (list tracks) :=
  checked ← atomMergeAll_loop node (formats ctx) [];
  if bool_decide (checked = []) then mret []
  else
    let ts := applyMultistreamSuppression (rev checked) (options ctx) in
    if bool_decide (ts = []) then mret []
    else if maxMergeTerms <? length ts then
      raise (selectorLimit (start (n_span node)) (end_ (n_span node)) (msg "too many mergeall tracks"))
    else mret [ts].

Definition as_output (o : option ref) : list tracks :=
  match o with Some o => [[o]] | None => [] end.

Definition field_is (key : string) (text : bytes) (o : ref) : bool :=
  bool_decide (readStringField o key = text).

Definition atomDirectIDMatches (ctx : evalContext) (node : astNode) (id : bytes) : E (list tracks) :=
  o ← findCandidate (field_is "format_id" id) yes (n_filters node) 1 0 (rev (formats ctx));
  mret (as_output o).

Definition atomExtensionMatches (ctx : evalContext) (node : astNode) (ext : bytes) : E (list tracks) :=
  let kind := extensionMediaKind ext in
  o ← findCandidate (field_is "ext" ext) (fun o => extensionObjectMatches o kind)
        (n_filters node) 1 0 (rev (formats ctx));
  match o with
  | Some o => mret [[o]]
  | None =>
      if kind.1.1 && negb (hasMerged ctx) then
        o ← findCandidate (field_is "ext" ext) (fun o => codecNotNone o "vcodec")
              (n_filters node) 1 0 (rev (formats ctx));
        mret (as_output o)
      else mret []
  end.

Definition atomAllowsIncompleteFallback (atom : Atom) : bool :=
  bool_decide (at_Media atom = AtomMediaCombined) && negb (at_Star atom).

Definition atomQualityMatches (ctx : evalContext) (node : astNode) (atom : Atom) : E (list tracks) :=
  if at_indexTooLarge atom then mret []
  else
    let index := if (at_Index atom <? 1)%Z then 1%Z else at_Index atom in
    let order := if at_Best atom then rev (formats ctx) else formats ctx in
    selected ← findCandidate yes (fun o => atomMatches o atom) (n_filters node) index 0 order;
    match selected with
    | Some o => mret [[o]]
    | None =>
        if atomAllowsIncompleteFallback atom && incomplete ctx then
          selected ← findCandidate yes playable (n_filters node) index 0 order;
          mret (as_output selected)
        else mret []
    end.

Definition bestAtom : Atom := mkAtom true true AtomMediaCombined false 1 [] false.

Definition evaluateAtom (ctx : evalContext) (node : astNode) : E (list tracks) :=
  let spec := n_atom node in
  match as_kind spec with
  | atomFilterOnly => atomQualityMatches ctx node bestAtom
  | atomAll => atomAllMatches ctx node
  | atomMergeAll => atomMergeAllMatches ctx node
  | atomDirectID => atomDirectIDMatches ctx node (as_text spec)
  | atomExtension => atomExtensionMatches ctx node (as_text spec)
  | atomQuality => atomQualityMatches ctx node (as_quality spec)
  end.

Definition bad_node {A} (sp : span) (m : string) : E A :=
  raise (selectorSyntax (start sp) (end_ sp) (msg m)).

(** the child of a group works on a copy of the counter of merge candidates *)
Definition in_child {A} (m : E A) : E A := fun st =>
  match m st with
  | Ok (a, st') => Ok (a, st' <| mergeCandidates := mergeCandidates st |>)
  | Err e => Err e
  end.

Fixpoint evaluateNode (ctx : evalContext) (node : astNode) : E (list tracks) :=
  match node with
  | mkNode kind children filters atom sp =>
      match kind with
      | astComma =>
          (fix go (cs : list astNode) (combined : list tracks) : E (list tracks) :=
             match cs with
             | [] => mret combined
             | c :: cs' =>
                 branch ← evaluateNode ctx c;
                 let combined := combined ++ branch in
                 enforceOutputCount (length combined) sp;;
                 go cs' combined
             end) children []
      | astPickFirst =>
          match children with
          | [l; r] =>
              left ← evaluateNode ctx l;
              if bool_decide (left = []) then evaluateNode ctx r else mret left
          | _ => bad_node sp "invalid pick-first node"
          end
      | astMerge =>
          match children with
          | [l; r] =>
              left ← evaluateNode ctx l;
              right ← evaluateNode ctx r;
              mergeTrackGroups ctx left right
          | _ => bad_node sp "invalid merge node"
          end
      | astGroup =>
          match children with
          | [] => mret []
          | [c] =>
              filtered ← filterFormats (formats ctx) filters;
              in_child (evaluateNode (ctx <| formats := filtered |>) c)
          | _ => bad_node sp "invalid group node"
          end
      | astAtom => evaluateAtom ctx (mkNode kind children filters atom sp)
      end
  end.

(** ** The initial context and state *)

Definition rootContext (fs : list ref) (opts : Options) : evalContext :=
  mkCtx fs opts (incompleteFormats fs) (hasMergedFormat fs).

Definition initialState : evalState := mkState 0 newRegexEvalBudget ∅ [].

End Evaluator.
