(* ===== verification/EvaluateFacts.v ===== *)
(** * Correctness of selector evaluation

    A denotational reading of a selector ([denote]): a pure function of the
    formats, of what the filters say ([filters_hold]) and of which formats are
    available, without budgets, caches or limits.  The evaluator computes it,
    or stops with a limit, filter or availability error. *)
From S2P Require Import Prelude GoStrings Runes Value FilterNumber Filter SortOptions Selector SelectorFacts Evaluate.

#[local] Open Scope nat_scope.

(** ** What a filter says *)

Section FilterMeaning.
Context {UT : RuneTables} {RE : RegexEngine}.

Definition string_holds (p : compiledFilter) (text : bytes) : bool :=
  match cf_operation p with
  | filterOpEQ => bool_decide (text = cf_text p)
  | filterOpPrefix => HasPrefix text (cf_text p)
  | filterOpSuffix => HasSuffix text (cf_text p)
  | filterOpContains => Contains text (cf_text p)
  | filterOpRegex =>
      match cf_expression p with
      | Some re => match regex_match re text with Matched m => m | _ => false end
      | None => false
      end
  | _ => false
  end.

(** the meaning of a predicate on a field that is present *)
Definition present_holds (p : compiledFilter) (actual : Value) : bool :=
  match cf_kind p with
  | filterKindNumeric =>
      match actualNumericForFilter actual with
      | Some n => default false (compareFilterNumbers n (cf_number p) (cf_operation p))
      | None => bool_decide (cf_operation p = filterOpNE)
      end
  | filterKindString =>
      xorb (cf_negated p) (match StringValue actual with Some text => string_holds p text | None => false end)
  end.

Definition predicate_holds (p : compiledFilter) (object : Object) : bool :=
  match Lookup object (cf_field p) with
  | Missing | Null => cf_noneInclusive p
  | actual => present_holds p actual
  end.

Definition filters_hold (fs : list Filter) (object : Object) : bool :=
  forallb (fun f => match f_predicate f with Some p => predicate_holds p object | None => false end) fs.

(** errors that evaluation may stop with *)
Definition eval_error (e : selector_error) : Prop :=
  match e with SelectorLimit _ _ _ | FilterEvaluation _ | Availability_failed _ => True | _ => False end.

Lemma regex_search_holds e text b :
  match regex_search e text b with
  | Ok (m, _) => exists re, e = Some re /\ regex_match re text = Matched m
  | Err err => eval_error err
  end.
Proof.
  destruct e as [re|]; simpl; [|done].
  repeat match goal with |- context [if ?b then _ else _] => destruct b; [done|] end.
  destruct (regex_match re text) eqn:R; [|done..]. by exists re.
Qed.

Lemma predicate_match_holds p object b :
  match predicate_match p object b with
  | Ok (m, _) => m = predicate_holds p object
  | Err err => eval_error err
  end.
Proof.
  unfold predicate_match, predicate_holds.
  destruct (IsMissing _ || IsNull _) eqn:M.
  { by destruct (Lookup object (cf_field p)). }
  assert (P : match Lookup object (cf_field p) with Missing | Null => cf_noneInclusive p
              | actual => present_holds p actual end = present_holds p (Lookup object (cf_field p)))
    by by destruct (Lookup object (cf_field p)).
  rewrite P. clear M P. generalize (Lookup object (cf_field p)). intros actual. unfold present_holds.
  destruct (cf_kind p).
  - unfold matchNumeric. destruct (actualNumericForFilter actual) as [n|]; simpl.
    + by destruct (compareFilterNumbers _ _ _).
    + by destruct (cf_operation p).
  - unfold matchString, string_holds. destruct (StringValue actual) as [text|].
    + destruct (cf_operation p); try done. pose proof (regex_search_holds (cf_expression p) text b) as R.
      destruct (regex_search _ _ _) as [[m b']|e]; [|done]. destruct R as (re & -> & ->). done.
    + destruct (cf_operation p); try done. simpl. by rewrite xorb_false_r.
Qed.

Definition compiled (fs : list Filter) : bool :=
  forallb (fun f => match f_predicate f with Some _ => true | None => false end) fs.

Lemma matchesFilters_holds object fs b :
  compiled fs = true ->
  match matchesFilters object fs b with
  | Ok (m, _) => m = filters_hold fs object
  | Err err => eval_error err
  end.
Proof.
  revert b. induction fs as [|f fs IH]; intros b C; simpl in *; [done|].
  apply andb_true_iff in C as [C1 C2]. unfold Filter_match.
  destruct (f_predicate f) as [p|]; [|done]. pose proof (predicate_match_holds p object b) as PM.
  destruct (predicate_match p object b) as [[m b']|e]; [|done]. subst m. simpl.
  destruct (predicate_holds p object); [by apply IH|done].
Qed.

End FilterMeaning.

(** ** The denotation *)

Section Denotation.
Context {UT : RuneTables} {RE : RegexEngine}.
Variable object_of : ref -> Object.
Variable available : ref -> bool.

Definition holds (fs : list Filter) (o : ref) : bool := filters_hold fs (object_of o).

Definition accept (pre post : ref -> bool) (fs : list Filter) (o : ref) : bool :=
  pre o && (holds fs o && post o) && available o.

(** candidate number [i] (from one) in the order given *)
Definition pick (pre post : ref -> bool) (fs : list Filter) (i : Z) (order : list ref) : option ref :=
  List.filter (accept pre post fs) order !! Z.to_nat (i - 1).

Definition quality_order (atom : Atom) (fs : list ref) : list ref :=
  if at_Best atom then rev fs else fs.

Definition denote_quality (ctx : evalContext) (fs : list Filter) (atom : Atom) : list tracks :=
  if at_indexTooLarge atom then []
  else
    let i := Z.max 1 (at_Index atom) in
    let order := quality_order atom (formats ctx) in
    match pick yes (fun o => atomMatches object_of o atom) fs i order with
    | Some o => [[o]]
    | None =>
        if atomAllowsIncompleteFallback atom && incomplete ctx
        then as_output (pick yes (playable object_of) fs i order) else []
    end.

Definition denote_extension (ctx : evalContext) (fs : list Filter) (ext : bytes) : list tracks :=
  let kind := extensionMediaKind ext in
  match pick (field_is object_of "ext" ext) (fun o => extensionObjectMatches object_of o kind) fs 1
             (rev (formats ctx)) with
  | Some o => [[o]]
  | None =>
      if kind.1.1 && negb (hasMerged ctx)
      then as_output (pick (field_is object_of "ext" ext) (fun o => codecNotNone object_of o "vcodec") fs 1
                           (rev (formats ctx)))
      else []
  end.

Definition denote_mergeall (ctx : evalContext) (fs : list Filter) : list tracks :=
  let ts := applyMultistreamSuppression object_of
              (rev (List.filter (accept yes (playable object_of) fs) (formats ctx))) (options ctx) in
  if bool_decide (ts = []) then [] else [ts].

Definition denote_atom (ctx : evalContext) (fs : list Filter) (spec : atomSpec) : list tracks :=
  match as_kind spec with
  | atomFilterOnly => denote_quality ctx fs bestAtom
  | atomAll => map (fun o => [o]) (List.filter (accept yes yes fs) (rev (formats ctx)))
  | atomMergeAll => denote_mergeall ctx fs
  | atomDirectID =>
      as_output (pick (field_is object_of "format_id" (as_text spec)) yes fs 1 (rev (formats ctx)))
  | atomExtension => denote_extension ctx fs (as_text spec)
  | atomQuality => denote_quality ctx fs (as_quality spec)
  end.

(** every merge of a left with a right output that leaves a track *)
Definition merges (opts : Options) (left right : list tracks) : list tracks :=
  List.filter (fun ts => negb (bool_decide (ts = [])))
    (flat_map (fun l => map (fun r => applyMultistreamSuppression object_of (l ++ r) opts) right) left).

Fixpoint denote (ctx : evalContext) (node : astNode) : list tracks :=
  match node with
  | mkNode kind children filters atom _ =>
      match kind, children with
      | astComma, _ => flat_map (denote ctx) children
      | astPickFirst, [l; r] =>
          let left := denote ctx l in if bool_decide (left = []) then denote ctx r else left
      | astMerge, [l; r] => merges (options ctx) (denote ctx l) (denote ctx r)
      | astGroup, [c] => denote (ctx <| formats := List.filter (holds filters) (formats ctx) |>) c
      | astAtom, _ => denote_atom ctx filters atom
      | _, _ => []
      end
  end.

End Denotation.

(** ** What the denotation guarantees *)

Section Outputs.
Context {UT : RuneTables} {RE : RegexEngine}.
Variable object_of : ref -> Object.
Variable available : ref -> bool.

Definition has_video (o : ref) : bool := codecNotNone object_of o "vcodec".
Definition has_audio (o : ref) : bool := codecNotNone object_of o "acodec".

Lemma hasMediaKind_codec o key :
  hasMediaKind (readStringField object_of o key) = codecNotNone object_of o key.
Proof. unfold hasMediaKind, readStringField, codecNotNone. by destruct (codec object_of o key). Qed.

Definition count (p : ref -> bool) (ts : tracks) : nat := length (List.filter p ts).

(** one stream of a kind unless more are allowed *)
Definition streams_ok (opts : Options) (ts : tracks) : Prop :=
  (AllowMultipleVideoStreams opts = false -> count has_video ts <= 1) /\
  (AllowMultipleAudioStreams opts = false -> count has_audio ts <= 1).

Lemma suppress_count opts sv sa ts :
  let r := suppress object_of opts sv sa ts in
  (AllowMultipleVideoStreams opts = false -> count has_video r <= if sv then 0 else 1) /\
  (AllowMultipleAudioStreams opts = false -> count has_audio r <= if sa then 0 else 1) /\
  Forall (fun o => has_video o || has_audio o = true) r.
Proof.
  revert sv sa. induction ts as [|o ts IH]; intros sv sa; simpl.
  { split; [intros _; destruct sv; unfold count; simpl; lia|].
    split; [intros _; destruct sa; unfold count; simpl; lia|constructor]. }
  rewrite !hasMediaKind_codec. fold (has_video o) (has_audio o).
  destruct (negb (has_video o) && negb (has_audio o)) eqn:N; [apply IH|].
  destruct (negb (AllowMultipleVideoStreams opts) && has_video o && sv) eqn:V; [apply IH|].
  destruct (negb (AllowMultipleAudioStreams opts) && has_audio o && sa) eqn:A; [apply IH|].
  specialize (IH (sv || has_video o) (sa || has_audio o)). destruct IH as (IV & IA & IP).
  unfold count in *. simpl. split; [|split; [|constructor; [|done]]].
  - intros E. specialize (IV E). rewrite E in V. simpl in V.
    destruct (has_video o), sv; simpl in *; (done || lia).
  - intros E. specialize (IA E). rewrite E in A. simpl in A.
    destruct (has_audio o), sa; simpl in *; (done || lia).
  - by destruct (has_video o), (has_audio o).
Qed.

Lemma suppress_sublist opts sv sa ts : sublist (suppress object_of opts sv sa ts) ts.
Proof.
  revert sv sa. induction ts as [|o ts IH]; intros sv sa; simpl; [constructor|].
  repeat case_match; try (by apply sublist_cons); by apply sublist_skip.
Qed.

Lemma count_le p ts : count p ts <= length ts.
Proof. unfold count. induction ts as [|o ts IH]; simpl; [lia|]. destruct (p o); simpl; lia. Qed.

Lemma suppression_streams ts opts : streams_ok opts (applyMultistreamSuppression object_of ts opts).
Proof.
  unfold applyMultistreamSuppression, streams_ok. destruct (Nat.leb_spec (length ts) 1) as [L|L].
  - pose proof (count_le has_video ts). pose proof (count_le has_audio ts). lia.
  - by destruct (suppress_count opts false false ts) as (V & A & _).
Qed.

Lemma suppression_sublist ts opts : sublist (applyMultistreamSuppression object_of ts opts) ts.
Proof.
  unfold applyMultistreamSuppression. destruct (length ts <=? 1); [done|apply suppress_sublist].
Qed.

Lemma streams_ok_one opts o : streams_ok opts [o].
Proof. pose proof (count_le has_video [o]). pose proof (count_le has_audio [o]). done. Qed.

(** an output that the formats [fs] can give *)
Definition drawn (opts : Options) (fs : list ref) (ts : tracks) : Prop :=
  Forall (fun o => o ∈ fs /\ available o = true) ts /\ streams_ok opts ts.

Lemma drawn_incl opts fs fs' ts :
  (forall o, o ∈ fs -> o ∈ fs') -> drawn opts fs ts -> drawn opts fs' ts.
Proof. intros S [F O]. split; [|done]. eapply Forall_impl; [exact F|]. naive_solver. Qed.

Lemma drawn_accept (fs l : list ref) pre post filters :
  (forall o, o ∈ l -> o ∈ fs) ->
  Forall (fun o => o ∈ fs /\ available o = true)
         (List.filter (accept object_of available pre post filters) l).
Proof.
  intros S. apply Forall_forall. intros o [H1%list_elem_of_In H2]%list_elem_of_In%filter_In.
  split; [auto|]. unfold accept in H2. by apply andb_true_iff in H2 as [_ H2].
Qed.

Lemma drawn_pick opts (fs : list ref) pre post filters i (l : list ref) :
  (forall o, o ∈ l -> o ∈ fs) ->
  Forall (drawn opts fs) (as_output (pick object_of available pre post filters i l)).
Proof.
  intros S. destruct (pick _ _ _ _ _ _ l) as [o|] eqn:P; [|done]. constructor; [|done].
  split; [|apply streams_ok_one]. constructor; [|done].
  pose proof (drawn_accept fs l pre post filters S) as D. rewrite Forall_forall in D.
  apply D. by eapply list_elem_of_lookup_2.
Qed.

Lemma sublist_Forall (Q : ref -> Prop) (l l' : tracks) : sublist l l' -> Forall Q l' -> Forall Q l.
Proof. rewrite !Forall_forall. intros S F o Ho. apply F. by eapply elem_of_sublist. Qed.

Lemma elem_of_rev (o : ref) fs : o ∈ rev fs -> o ∈ fs.
Proof. rewrite !list_elem_of_In. by rewrite <- in_rev. Qed.

Lemma drawn_pick_match opts (fs : list ref) pre post filters i l rest :
  (forall o, o ∈ l -> o ∈ fs) -> Forall (drawn opts fs) rest ->
  Forall (drawn opts fs)
    (match pick object_of available pre post filters i l with Some o => [[o]] | None => rest end).
Proof.
  intros S R. pose proof (drawn_pick opts fs pre post filters i l S) as D.
  by destruct (pick _ _ _ _ _ _ l).
Qed.

Lemma denote_atom_drawn ctx filters spec :
  Forall (drawn (options ctx) (formats ctx)) (denote_atom object_of available ctx filters spec).
Proof.
  assert (Q : forall atom, Forall (drawn (options ctx) (formats ctx))
                (denote_quality object_of available ctx filters atom)).
  { intros atom. unfold denote_quality. destruct (at_indexTooLarge atom); [done|].
    assert (S : forall o, o ∈ quality_order atom (formats ctx) -> o ∈ formats ctx).
    { unfold quality_order. destruct (at_Best atom); auto using elem_of_rev. }
    apply drawn_pick_match; [done|]. destruct (_ && _); [by apply drawn_pick|done]. }
  unfold denote_atom. destruct (as_kind spec); auto using drawn_pick, elem_of_rev.
  - unfold denote_extension. apply drawn_pick_match; [auto using elem_of_rev|].
    destruct (_ && _); [|done]. apply drawn_pick. auto using elem_of_rev.
  - pose proof (drawn_accept (formats ctx) (rev (formats ctx)) yes yes filters) as D.
    specialize (D ltac:(auto using elem_of_rev)). induction D as [|o l Ho _ IH]; simpl; [done|].
    constructor; [|done]. split; [by constructor|apply streams_ok_one].
  - unfold denote_mergeall. case_bool_decide; [done|]. constructor; [|done].
    split; [|apply suppression_streams].
    eapply sublist_Forall; [apply suppression_sublist|]. rewrite Forall_forall. intros o Ho%elem_of_rev.
    pose proof (drawn_accept (formats ctx) (formats ctx) yes (playable object_of) filters) as D.
    rewrite Forall_forall in D. apply D; auto.
Qed.

Lemma merges_drawn opts fs left right :
  Forall (drawn opts fs) left -> Forall (drawn opts fs) right ->
  Forall (drawn opts fs) (merges object_of opts left right).
Proof.
  intros L R. apply Forall_forall. intros ts [H _]%list_elem_of_In%filter_In.
  apply in_flat_map in H as (l & Hl & [r [<- Hr]]%in_map_iff).
  rewrite Forall_forall in L, R. destruct (L l) as [L1 _]; [by apply list_elem_of_In|].
  destruct (R r) as [R1 _]; [by apply list_elem_of_In|].
  split; [|apply suppression_streams]. eapply sublist_Forall; [apply suppression_sublist|].
  by apply Forall_app.
Qed.

Lemma denote_drawn node ctx :
  Forall (drawn (options ctx) (formats ctx)) (denote object_of available ctx node).
Proof.
  revert ctx. induction node as [k cs fs a sp IH] using astNode_nested_ind. intros ctx.
  destruct k; cbn [denote].
  - induction IH as [|c cs Hc _ IHc]; simpl; [done|]. by apply Forall_app.
  - destruct cs as [|l [|r [|? ?]]]; try done. apply Forall_cons in IH as [L [R _]%Forall_cons].
    case_bool_decide; auto.
  - destruct cs as [|l [|r [|? ?]]]; try done. apply Forall_cons in IH as [L [R _]%Forall_cons].
    apply merges_drawn; auto.
  - destruct cs as [|c [|? ?]]; try done. apply Forall_cons in IH as [C _].
    eapply Forall_impl; [apply C|]. intros ts. apply drawn_incl. intros o. simpl.
    rewrite !list_elem_of_In. by intros [H _]%filter_In.
  - apply denote_atom_drawn.
Qed.

End Outputs.

(** ** The evaluator computes the denotation *)

(** every filter of the tree is compiled *)
Fixpoint node_compiled (n : astNode) : bool :=
  match n with mkNode _ cs fs _ _ => compiled fs && forallb node_compiled cs end.

Definition output_ok (ts : tracks) : Prop := ts <> [] /\ length ts <= maxMergeTerms.

Section Refinement.
Context {UT : RuneTables} {RE : RegexEngine}.
Variable object_of : ref -> Object.
Variable Availability : option FormatAvailability.
Variable available : ref -> bool.

(** the callback answers as [available] says, whenever it answers *)
Definition stable : Prop :=
  match Availability with
  | None => forall o, available o = true
  | Some f => forall cs o b, f cs o = Ok b -> b = available o
  end.

Hypothesis Hstable : stable.

(** the cache holds the answers of the calls made, one call for a format *)
Record sinv (st : evalState) : Prop := {
  cache_answers : forall o b, cache st !! o = Some b -> b = available o;
  calls_once : NoDup (calls st);
  calls_cached : forall o, o ∈ calls st <-> is_Some (cache st !! o);
  candidates_le : mergeCandidates st <= maxCartesianCandidates
}.

Definition ev {A} (m : E A) (st : evalState) (Q : A -> evalState -> Prop) : Prop :=
  match m st with
  | Ok (a, st') => Q a st'
  | Err e => eval_error e
  end.

Lemma ev_bind {A B} (m : E A) (f : A -> E B) st Q :
  ev m st (fun a st' => ev (f a) st' Q) -> ev (m ≫= f) st Q.
Proof. unfold ev, mbind, E_bind. by destruct (m st) as [[a st']|e]. Qed.

Lemma ev_mono {A} (m : E A) st (Q Q' : A -> evalState -> Prop) :
  ev m st Q -> (forall a st', Q a st' -> Q' a st') -> ev m st Q'.
Proof. unfold ev. destruct (m st) as [[a st']|e]; auto. Qed.

Lemma ev_ret {A} (a : A) st (Q : A -> evalState -> Prop) : Q a st -> ev (mret a) st Q.
Proof. done. Qed.

Lemma ev_raise {A} e st (Q : A -> evalState -> Prop) : eval_error e -> ev (raise e) st Q.
Proof. done. Qed.

(** [st'] is reached from [st] without a merge *)
Record keeps (st st' : evalState) : Prop := {
  keeps_inv : sinv st';
  keeps_count : mergeCandidates st' = mergeCandidates st;
  keeps_calls : calls st ⊆ calls st'
}.

Lemma keeps_same st : sinv st -> keeps st st.
Proof. done. Qed.

Lemma keeps_then st st' st'' : keeps st st' -> keeps st' st'' -> keeps st st''.
Proof. intros [] []. split; [done|congruence|set_solver]. Qed.

(** the callback, if there is one, was asked about [o] *)
Definition asked (st : evalState) (o : ref) : Prop :=
  match Availability with None => True | Some _ => o ∈ calls st end.

Lemma asked_mono st st' o : calls st ⊆ calls st' -> asked st o -> asked st' o.
Proof. unfold asked. destruct Availability; [|done]. set_solver. Qed.

Lemma matches_ev o fs st :
  sinv st -> compiled fs = true ->
  ev (matches object_of o fs) st (fun b st' => b = holds object_of fs o /\ keeps st st').
Proof.
  intros I C. unfold ev, matches. pose proof (matchesFilters_holds (object_of o) fs (regexBudget st) C) as M.
  destruct (matchesFilters _ _ _) as [[b budget]|e]; [|done]. split; [done|].
  destruct st, I. by split.
Qed.

Lemma isAvailableCached_ev o st :
  sinv st -> ev (isAvailableCached Availability o) st (fun b st' => b = available o /\ keeps st st' /\ asked st' o).
Proof.
  intros I. unfold ev, isAvailableCached, asked. unfold stable in Hstable.
  destruct Availability as [f|]; [|by rewrite Hstable].
  destruct (cache st !! o) as [b|] eqn:C.
  { split; [by eapply cache_answers|]. split; [done|]. apply calls_cached; [done|]. by exists b. }
  destruct (f (calls st) o) as [b|m] eqn:F; [|done]. apply Hstable in F. split; [done|].
  split; [|simpl; set_solver].
  destruct I as [CA CO CC CL]. split; [|done|simpl; set_solver]. split; simpl; [| | |done].
  - intros o' b' [[<- <-]|[N H]]%lookup_insert_Some; [done|by eapply CA].
  - apply NoDup_app. split; [done|]. split; [|apply NoDup_singleton].
    intros o' H ->%list_elem_of_singleton. apply CC in H. rewrite C in H. by destruct H.
  - intros o'. rewrite elem_of_app, list_elem_of_singleton, CC, lookup_insert_is_Some.
    destruct (decide (o = o')); intuition congruence.
Qed.

Lemma candidate_ev pre post fs o st :
  sinv st -> compiled fs = true ->
  ev (candidate object_of Availability pre post fs o) st (fun b st' =>
    b = accept object_of available pre post fs o /\ keeps st st' /\ (b = true -> asked st' o)).
Proof.
  intros I C. unfold candidate, accept. destruct (pre o); [|by apply ev_ret]. simpl.
  apply ev_bind. eapply ev_mono; [by apply matches_ev|]. intros b st1 [-> K].
  destruct (holds object_of fs o && post o); simpl; [|by apply ev_ret].
  eapply ev_mono; [apply isAvailableCached_ev, K|]. intros b st2 (-> & K2 & A). eauto using keeps_then.
Qed.

Lemma findCandidate_ev pre post fs i seen order st :
  sinv st -> compiled fs = true -> (0 <= seen < i)%Z ->
  ev (findCandidate object_of Availability pre post fs i seen order) st (fun r st' =>
    r = List.filter (accept object_of available pre post fs) order !! Z.to_nat (i - seen - 1) /\
    keeps st st' /\ (forall o, r = Some o -> asked st' o)).
Proof.
  revert seen st. induction order as [|o order IH]; intros seen st I C Hs; simpl; [by apply ev_ret|].
  apply ev_bind. eapply ev_mono; [by apply candidate_ev|]. intros b st1 (-> & K & A).
  assert (T : forall s, (0 <= s < i)%Z ->
    ev (findCandidate object_of Availability pre post fs i s order) st1 (fun r st' =>
      r = List.filter (accept object_of available pre post fs) order !! Z.to_nat (i - s - 1) /\
      keeps st st' /\ (forall o, r = Some o -> asked st' o))).
  { intros s Hs'. eapply ev_mono; [apply IH; [apply K|done|done]|]. intros r st2 (-> & K2 & A2).
    eauto using keeps_then. }
  destruct (accept object_of available pre post fs o); [|by apply T].
  destruct (Z.eqb_spec (seen + 1) i) as [<-|N].
  - apply ev_ret. replace (Z.to_nat _) with 0 by lia. split; [done|]. split; [done|].
    intros o' [= <-]. auto.
  - eapply ev_mono; [apply T; lia|]. intros r st2 (-> & K2). split; [|done].
    replace (Z.to_nat (i - seen - 1)) with (S (Z.to_nat (i - (seen + 1) - 1))) by lia. done.
Qed.

Lemma pick_ev pre post fs i order st :
  sinv st -> compiled fs = true -> (1 <= i)%Z ->
  ev (findCandidate object_of Availability pre post fs i 0 order) st (fun r st' =>
    r = pick object_of available pre post fs i order /\ keeps st st' /\
    (forall o, r = Some o -> asked st' o)).
Proof.
  intros I C Hi. eapply ev_mono; [apply findCandidate_ev; [done|done|lia]|].
  intros r st' [-> K]. split; [|done]. unfold pick. by rewrite Z.sub_0_r.
Qed.

Lemma filterFormats_ev fs filters st :
  sinv st -> compiled filters = true ->
  ev (filterFormats object_of fs filters) st (fun r st' =>
    r = List.filter (holds object_of filters) fs /\ keeps st st').
Proof.
  intros I C. unfold filterFormats. case_bool_decide as N.
  { apply ev_ret. split; [|done]. destruct filters; [|done]. clear. induction fs; [done|]. simpl. by f_equal. }
  clear N. revert st I. induction fs as [|o fs IH]; intros st I; simpl; [by apply ev_ret|].
  apply ev_bind. eapply ev_mono; [by apply matches_ev|]. intros b st1 [-> K1].
  apply ev_bind. eapply ev_mono; [apply IH, K1|]. intros r st2 [-> K2]. apply ev_ret.
  split; [by destruct (holds object_of filters o)|eauto using keeps_then].
Qed.

(** *** Atoms *)

Lemma output_ok_singleton (o : ref) : output_ok [o].
Proof. split; [done|]. unfold maxMergeTerms, MaxMergeTracks. simpl. lia. Qed.

Definition outputs_ok (st : evalState) (out : list tracks) : Prop :=
  Forall (fun ts => output_ok ts /\ Forall (asked st) ts) out /\ length out <= maxCartesianCandidates.

Lemma outputs_ok_nil st : outputs_ok st [].
Proof. split; [done|simpl; lia]. Qed.

Lemma outputs_mono st st' out :
  calls st ⊆ calls st' -> Forall (fun ts => output_ok ts /\ Forall (asked st) ts) out ->
  Forall (fun ts => output_ok ts /\ Forall (asked st') ts) out.
Proof.
  intros S F. eapply Forall_impl; [exact F|]. intros ts [O A]. split; [done|].
  eapply Forall_impl; [exact A|]. eauto using asked_mono.
Qed.

Lemma outputs_ok_one st ts : output_ok ts -> Forall (asked st) ts -> outputs_ok st [ts].
Proof. split; [by constructor|]. unfold maxCartesianCandidates. simpl. lia. Qed.

Lemma outputs_ok_as_output st o :
  (forall o', o = Some o' -> asked st o') -> outputs_ok st (as_output o).
Proof.
  intros A. destruct o as [o|]; [|apply outputs_ok_nil].
  apply outputs_ok_one; [apply output_ok_singleton|]. constructor; [auto|done].
Qed.

(** what evaluating a node guarantees *)
Record node_result (d : list tracks) (st : evalState) (out : list tracks) (st' : evalState) : Prop := {
  nr_denotes : out = d;
  nr_outputs : outputs_ok st' out;
  nr_inv : sinv st';
  nr_count : mergeCandidates st <= mergeCandidates st';
  nr_calls : calls st ⊆ calls st'
}.

Lemma node_result_keeps d st out st' :
  out = d -> outputs_ok st' out -> keeps st st' -> node_result d st out st'.
Proof. intros E O [I M S]. split; try done. lia. Qed.

Lemma node_result_none st st' : keeps st st' -> node_result [] st [] st'.
Proof. intros K. apply node_result_keeps; [done|apply outputs_ok_nil|done]. Qed.

Lemma node_result_pick st st' r :
  keeps st st' -> (forall o, r = Some o -> asked st' o) -> node_result (as_output r) st (as_output r) st'.
Proof. intros K A. apply node_result_keeps; [done|by apply outputs_ok_as_output|done]. Qed.

Lemma node_result_after d st st1 out st2 :
  mergeCandidates st <= mergeCandidates st1 -> calls st ⊆ calls st1 ->
  node_result d st1 out st2 -> node_result d st out st2.
Proof. intros M S []. split; try done; [lia|set_solver]. Qed.

Lemma atomAll_loop_ev node fs outputs st :
  sinv st -> compiled (n_filters node) = true ->
  Forall (fun ts => output_ok ts /\ Forall (asked st) ts) outputs -> length outputs <= maxCommaOutputs ->
  ev (atomAll_loop object_of Availability node fs outputs) st (fun out st' =>
    out = outputs ++ map (fun o => [o])
            (List.filter (accept object_of available yes yes (n_filters node)) fs) /\
    Forall (fun ts => output_ok ts /\ Forall (asked st') ts) out /\
    length out <= maxCommaOutputs /\ keeps st st').
Proof.
  revert outputs st. induction fs as [|o fs IH]; intros outputs st I C O L; simpl.
  { apply ev_ret. by rewrite app_nil_r. }
  apply ev_bind. eapply ev_mono; [by apply candidate_ev|]. intros b st1 (-> & K & A).
  pose proof (outputs_mono _ _ _ (keeps_calls _ _ K) O) as O1.
  destruct (accept object_of available yes yes (n_filters node) o).
  - destruct (Nat.ltb_spec maxCommaOutputs (length (outputs ++ [[o]]))); [by apply ev_raise|].
    eapply ev_mono; [apply IH; [apply K|done| |done]|].
    + apply Forall_app. split; [done|]. repeat constructor; auto using output_ok_singleton.
    + intros out st2 (-> & H1 & H2 & K2). rewrite <- app_assoc. simpl.
      rewrite <- app_assoc in H1, H2. eauto using keeps_then.
  - eapply ev_mono; [apply IH; [apply K|done..]|]. intros out st2 (-> & H1 & H2 & K2).
    eauto using keeps_then.
Qed.

Lemma atomMergeAll_loop_ev node fs checked st :
  sinv st -> compiled (n_filters node) = true -> Forall (asked st) checked ->
  ev (atomMergeAll_loop object_of Availability node fs checked) st (fun r st' =>
    r = checked ++ List.filter (accept object_of available yes (playable object_of) (n_filters node)) fs /\
    Forall (asked st') r /\ keeps st st').
Proof.
  revert checked st. induction fs as [|o fs IH]; intros checked st I C A; simpl.
  { apply ev_ret. by rewrite app_nil_r. }
  apply ev_bind. eapply ev_mono; [by apply candidate_ev|]. intros b st1 (-> & K & A1).
  assert (A' : Forall (asked st1) checked).
  { eapply Forall_impl; [exact A|]. intros o'. apply asked_mono, K. }
  assert (A2 : Forall (asked st1) (if accept object_of available yes (playable object_of) (n_filters node) o
                                   then checked ++ [o] else checked)).
  { destruct (accept _ _ _ _ _ o); [|done]. apply Forall_app. split; [done|]. constructor; auto. }
  eapply ev_mono; [apply IH; [apply K|done|exact A2]|]. intros r st2 (-> & A3 & K2).
  destruct (accept _ _ _ _ _ o); rewrite <- ?app_assoc in *; eauto using keeps_then.
Qed.

Lemma quality_ev ctx node atom st :
  sinv st -> compiled (n_filters node) = true ->
  ev (atomQualityMatches object_of Availability ctx node atom) st
     (node_result (denote_quality object_of available ctx (n_filters node) atom) st).
Proof.
  intros I C. unfold atomQualityMatches, denote_quality, quality_order.
  destruct (at_indexTooLarge atom); [by apply ev_ret, node_result_none|].
  assert (M : (if (at_Index atom <? 1)%Z then 1%Z else at_Index atom) = Z.max 1 (at_Index atom)).
  { destruct (Z.ltb_spec (at_Index atom) 1); lia. }
  rewrite M. clear M. set (order := if at_Best atom then _ else _).
  apply ev_bind. eapply ev_mono; [apply pick_ev; [done|done|lia]|]. intros r st1 (-> & K & A).
  destruct (pick _ _ _ _ _ _ order) as [o|]; [by apply ev_ret, (node_result_pick st st1 (Some o))|].
  destruct (_ && incomplete ctx); [|by apply ev_ret, node_result_none].
  apply ev_bind. eapply ev_mono; [apply pick_ev; [apply K|done|lia]|]. intros r st2 (-> & K2 & A2).
  apply ev_ret, node_result_pick; eauto using keeps_then.
Qed.

Lemma extension_ev ctx node ext st :
  sinv st -> compiled (n_filters node) = true ->
  ev (atomExtensionMatches object_of Availability ctx node ext) st
     (node_result (denote_extension object_of available ctx (n_filters node) ext) st).
Proof.
  intros I C. unfold atomExtensionMatches, denote_extension.
  apply ev_bind. eapply ev_mono; [by apply pick_ev|]. intros r st1 (-> & K & A).
  destruct (pick _ _ _ _ _ _ _) as [o|]; [by apply ev_ret, (node_result_pick st st1 (Some o))|].
  destruct (_ && _); [|by apply ev_ret, node_result_none].
  apply ev_bind. eapply ev_mono; [apply pick_ev; [apply K|done..]|]. intros r st2 (-> & K2 & A2).
  apply ev_ret, node_result_pick; eauto using keeps_then.
Qed.

Lemma mergeall_ev ctx node st :
  sinv st -> compiled (n_filters node) = true ->
  ev (atomMergeAllMatches object_of Availability ctx node) st
     (node_result (denote_mergeall object_of available ctx (n_filters node)) st).
Proof.
  intros I C. unfold atomMergeAllMatches, denote_mergeall. apply ev_bind.
  eapply ev_mono; [by apply atomMergeAll_loop_ev|]. intros r st1 (-> & A & K). simpl in *.
  revert A. set (l := List.filter _ _). intros A. case_bool_decide as N.
  { rewrite N. by apply ev_ret, node_result_none. }
  set (ts := applyMultistreamSuppression _ _ _). case_bool_decide as T; [by apply ev_ret, node_result_none|].
  destruct (Nat.ltb_spec maxMergeTerms (length ts)); [by apply ev_raise|].
  apply ev_ret, node_result_keeps; [done| |done]. apply outputs_ok_one; [done|].
  eapply sublist_Forall; [apply suppression_sublist|]. rewrite Forall_forall in A |- *.
  intros o Ho%elem_of_rev. auto.
Qed.

Lemma evaluateAtom_ev ctx node st :
  sinv st -> compiled (n_filters node) = true ->
  ev (evaluateAtom object_of Availability ctx node) st
     (node_result (denote_atom object_of available ctx (n_filters node) (n_atom node)) st).
Proof.
  intros I C. unfold evaluateAtom, denote_atom. destruct (as_kind (n_atom node)).
  - unfold atomDirectIDMatches. apply ev_bind. eapply ev_mono; [by apply pick_ev|].
    intros r st1 (-> & K & A). by apply ev_ret, node_result_pick.
  - by apply quality_ev.
  - by apply extension_ev.
  - unfold atomAllMatches. eapply ev_mono; [apply atomAll_loop_ev; [done..|simpl; lia]|].
    intros out st1 (-> & O & L & K). apply node_result_keeps; [done| |done]. split; [done|].
    unfold maxCommaOutputs, maxCartesianCandidates in *. lia.
  - by apply mergeall_ev.
  - by apply quality_ev.
Qed.

(** *** Merging *)

Lemma countCandidate_ev st :
  sinv st ->
  ev countCandidate st (fun _ st' =>
    sinv st' /\ mergeCandidates st' = S (mergeCandidates st) /\ calls st' = calls st).
Proof.
  intros []. unfold ev, countCandidate. simpl.
  destruct (Nat.ltb_spec maxCartesianCandidates (S (mergeCandidates st))); [done|].
  split; [by split|done].
Qed.

Definition nonempty (ts : tracks) : bool := negb (bool_decide (ts = [])).
Definition merge_pair (opts : Options) (lr : tracks * tracks) : tracks :=
  applyMultistreamSuppression object_of (lr.1 ++ lr.2) opts.

Lemma mergePairs_ev ctx pairs merged st :
  sinv st -> Forall output_ok merged -> length merged <= mergeCandidates st ->
  ev (mergePairs object_of ctx pairs merged) st (fun out st' =>
    out = merged ++ List.filter nonempty (map (merge_pair (options ctx)) pairs) /\
    Forall output_ok out /\ length out <= mergeCandidates st' /\
    sinv st' /\ mergeCandidates st <= mergeCandidates st' /\ calls st' = calls st).
Proof.
  revert merged st. induction pairs as [|[l r] pairs IH]; intros merged st I O L; simpl.
  { apply ev_ret. rewrite app_nil_r. auto 10. }
  unfold nonempty at 1, merge_pair at 1. simpl.
  set (combined := applyMultistreamSuppression object_of (l ++ r) (options ctx)).
  destruct (decide (combined = [])) as [N|N].
  { rewrite !bool_decide_true by done. by apply IH. }
  rewrite !bool_decide_false by done.
  apply ev_bind. eapply ev_mono; [by apply countCandidate_ev|]. intros _ st1 (I1 & M1 & C1).
  apply ev_bind. unfold enforceMergeTrackCount. simpl.
  destruct (Nat.ltb_spec maxMergeTerms (length combined)); [by apply ev_raise|]. apply ev_ret.
  eapply ev_mono; [apply IH; [done| |]|].
  - apply Forall_app. split; [done|]. by constructor.
  - rewrite length_app. simpl. lia.
  - intros out st2 (-> & H1 & H2 & I2 & M2 & C2). rewrite <- app_assoc in *. simpl in *.
    split; [done|]. split; [done|]. split; [done|]. split; [done|]. split; [lia|congruence].
Qed.

Lemma merges_pairs opts (left right : list tracks) :
  merges object_of opts left right =
  List.filter nonempty (map (merge_pair opts) (flat_map (fun l => map (fun r => (l, r)) right) left)).
Proof.
  unfold merges. f_equal. induction left as [|l left IH]; simpl; [done|]. rewrite map_app, IH. f_equal.
  by rewrite map_map.
Qed.

Lemma merges_asked st opts (left right : list tracks) :
  Forall (Forall (asked st)) left -> Forall (Forall (asked st)) right ->
  Forall (Forall (asked st)) (merges object_of opts left right).
Proof.
  intros L R. apply Forall_forall. intros ts [H _]%list_elem_of_In%filter_In.
  apply in_flat_map in H as (l & Hl & [r [<- Hr]]%in_map_iff).
  rewrite Forall_forall in L, R. eapply sublist_Forall; [apply suppression_sublist|].
  apply Forall_app. split; [apply L|apply R]; by apply list_elem_of_In.
Qed.

Lemma outputs_asked st out : outputs_ok st out -> Forall (Forall (asked st)) out.
Proof. intros [F _]. eapply Forall_impl; [exact F|]. by intros ts [_ A]. Qed.

Lemma mergeTrackGroups_ev ctx (left right : list tracks) st :
  sinv st -> Forall (Forall (asked st)) left -> Forall (Forall (asked st)) right ->
  ev (mergeTrackGroups object_of ctx left right) st
     (node_result (merges object_of (options ctx) left right) st).
Proof.
  intros I AL AR. pose proof (merges_asked st (options ctx) left right AL AR) as A.
  unfold mergeTrackGroups. destruct (bool_decide (left = []) || bool_decide (right = [])) eqn:B.
  - apply ev_ret. assert (E : merges object_of (options ctx) left right = []).
    { apply orb_true_iff in B as [B%bool_decide_eq_true|B%bool_decide_eq_true]; subst; [done|].
      clear. unfold merges. induction left as [|x left IH]; [done|]. simpl. exact IH. }
    rewrite E. by apply node_result_none.
  - eapply ev_mono; [apply mergePairs_ev; [done..|simpl; lia]|].
    intros out st' (-> & O & L & I' & M & C). simpl app in *. rewrite <- merges_pairs in *.
    split; [done| |done|done|rewrite C; done]. destruct I'. split; [|lia].
    apply Forall_and. split; [done|]. unfold asked in A |- *. rewrite C. exact A.
Qed.

(** *** Nodes *)

Definition good (c : astNode) : Prop := forall ctx st, sinv st ->
  ev (evaluateNode object_of Availability ctx c) st (node_result (denote object_of available ctx c) st).

(** the loop of a comma node *)
Lemma comma_ev ctx sp cs combined st
    (go := fix go (cs : list astNode) (combined : list tracks) : E (list tracks) :=
       match cs with
       | [] => mret combined
       | c :: cs' =>
           branch ← evaluateNode object_of Availability ctx c;
           let combined := combined ++ branch in
           enforceOutputCount (length combined) sp;;
           go cs' combined
       end) :
  Forall good cs -> sinv st -> outputs_ok st combined ->
  ev (go cs combined) st
     (node_result (combined ++ flat_map (denote object_of available ctx) cs) st).
Proof.
  intros F. revert combined st. induction F as [|c cs Hc _ IH]; intros combined st I O; simpl.
  { apply ev_ret, node_result_keeps; [by rewrite app_nil_r|done|done]. }
  apply ev_bind. eapply ev_mono; [by apply Hc|]. intros branch st1 [-> O1 I1 M1 C1].
  apply ev_bind. unfold enforceOutputCount.
  destruct (Nat.ltb_spec maxCommaOutputs (length (combined ++ denote object_of available ctx c))) as [G|G];
    [by apply ev_raise|]. apply ev_ret.
  eapply ev_mono; [apply IH; [done|]|].
  - split; [apply Forall_app; split; [|apply O1]|].
    + eapply outputs_mono; [exact C1|apply O].
    + unfold maxCommaOutputs, maxCartesianCandidates in *. lia.
  - intros out st2 R. rewrite <- app_assoc in R. by eapply node_result_after.
Qed.

Lemma in_child_ev d (m : E (list tracks)) st0 st :
  sinv st -> keeps st0 st -> ev m st (node_result d st) -> ev (in_child m) st (node_result d st0).
Proof.
  intros I [_ K KC] H. unfold ev, in_child in *. destruct (m st) as [[out st']|e]; [|done].
  destruct H as [-> O [] M C]. split; [done|exact O| |simpl; lia|simpl; set_solver].
  destruct I. by split.
Qed.

Lemma evaluateNode_ev levels node :
  node_ok levels node = true -> node_compiled node = true -> good node.
Proof.
  revert levels. induction node as [k cs fs a sp IH] using astNode_nested_ind. intros levels.
  rewrite node_ok_eq. intros OK C ctx st I. cbn [node_compiled] in C.
  apply andb_true_iff in C as [CF CC]. rewrite !andb_true_iff in OK. destruct OK as [[[SH _] OKC] _].
  assert (G : forall l, forallb (node_ok l) cs = true -> Forall good cs).
  { clear -IH CC. intros l. induction IH as [|c cs Hc _ IHc]; simpl in *; [done|].
    apply andb_true_iff in CC as [C1 C2]. intros [O1 O2]%andb_true_iff. constructor; [|auto].
    by eapply Hc. }
  unfold shape_ok in SH. cbn [n_kind n_children n_filters] in SH.
  destruct k; cbn [evaluateNode denote].
  - apply (comma_ev ctx sp cs [] st); [by eapply G|done|apply outputs_ok_nil].
  - destruct cs as [|l [|r [|? ?]]]; try done. apply G in OKC. clear SH.
    apply Forall_cons in OKC as [GL [GR _]%Forall_cons]. apply ev_bind. eapply ev_mono; [by apply GL|].
    intros left st1 [-> O1 I1 M1 C1]. case_bool_decide; [|by apply ev_ret].
    eapply ev_mono; [by apply GR|]. intros out st2. by apply node_result_after.
  - destruct cs as [|l [|r [|? ?]]]; try done. apply G in OKC.
    apply Forall_cons in OKC as [GL [GR _]%Forall_cons]. apply ev_bind. eapply ev_mono; [by apply GL|].
    intros left st1 [-> O1 I1 M1 C1]. apply ev_bind. eapply ev_mono; [by apply GR|].
    intros right st2 [-> O2 I2 M2 C2]. eapply ev_mono; [apply mergeTrackGroups_ev; [done| |by apply outputs_asked]|].
    + eapply Forall_impl; [by apply outputs_asked|]. intros ts A. eapply Forall_impl; [exact A|].
      intros o. by apply asked_mono.
    + intros out st3. apply node_result_after; [lia|set_solver].
  - apply andb_true_iff in OKC as [_ OKC]. apply G in OKC.
    destruct cs as [|c [|? ?]]; try done; [by apply ev_ret, node_result_none|].
    apply Forall_cons in OKC as [GC _]. apply ev_bind. eapply ev_mono; [by apply filterFormats_ev|].
    intros fs' st1 [-> K1]. apply (in_child_ev _ _ st); [apply K1|done|]. apply GC, K1.
  - by apply (evaluateAtom_ev ctx (mkNode astAtom cs fs a sp)).
Qed.

End Refinement.

(** ** Compiled selectors *)

Section Compiled.
Context {UT : RuneTables} {RE : RegexEngine}.

Lemma compileFilter_predicate f f' : compileFilter f = Ok f' -> f_predicate f' <> None.
Proof.
  unfold compileFilter. destruct (f_predicate f) as [p|] eqn:P; [congruence|].
  intros (p & _ & H)%bind_Ok_iff. injection H as <-. by case_bool_decide.
Qed.

Lemma compileFilters_ok fs fs' :
  compileFilters fs = Ok fs' -> length fs' = length fs /\ compiled fs' = true.
Proof.
  revert fs'. induction fs as [|f fs IH]; intros fs'; simpl; [by intros [= <-]|].
  intros (g & G & (gs & GS & [= <-])%bind_Ok_iff)%bind_Ok_iff. destruct (IH gs GS) as [L C].
  simpl. apply compileFilter_predicate in G. destruct (f_predicate g); [|done]. auto.
Qed.

(** the loop of [compileNodeFilters] over the children *)
Definition compileChildren : list astNode -> res (list astNode) :=
  fix go cs :=
    match cs with
    | [] => Ok []
    | c :: cs' => c ← compileNodeFilters c; cs' ← go cs'; Ok (c :: cs')
    end.

Lemma compileNodeFilters_eq k cs fs a sp :
  compileNodeFilters (mkNode k cs fs a sp) =
  (fs ← compileFilters fs; cs ← compileChildren cs; Ok (mkNode k cs fs a sp)).
Proof. done. Qed.

(** compiling changes neither the shape nor the ranges *)
Definition compiles_ok (n : astNode) : Prop := forall l n',
  node_ok l n = true -> compileNodeFilters n = Ok n' ->
  node_ok l n' = true /\ node_compiled n' = true /\ n_span n' = n_span n.

Lemma compileChildren_ok cs cs' l :
  Forall compiles_ok cs -> forallb (node_ok l) cs = true -> compileChildren cs = Ok cs' ->
  length cs' = length cs /\ forallb (node_ok l) cs' = true /\
  forallb node_compiled cs' = true /\ map n_span cs' = map n_span cs.
Proof.
  intros F. revert cs'. induction F as [|c cs Hc _ IH]; intros cs' OK; simpl; [by intros [= <-]|].
  simpl in OK. apply andb_true_iff in OK as [O1 O2].
  intros (c' & C & (cs'' & CS & [= <-])%bind_Ok_iff)%bind_Ok_iff.
  destruct (Hc l c' O1 C) as (N1 & N2 & N3), (IH cs'' O2 CS) as (IL & I1 & I2 & I3).
  simpl. rewrite IL, N1, N2, N3, I1, I2, I3. auto.
Qed.

Lemma forallb_within sp cs :
  forallb (fun c => within sp (n_span c)) cs = forallb (within sp) (map n_span cs).
Proof. induction cs as [|c cs IH]; simpl; [done|]. by rewrite IH. Qed.

Lemma compileNodeFilters_ok n : compiles_ok n.
Proof.
  induction n as [k cs fs a sp IH] using astNode_nested_ind. intros l n' OK.
  rewrite compileNodeFilters_eq. intros (fs' & F & (cs' & C & [= <-])%bind_Ok_iff)%bind_Ok_iff.
  apply compileFilters_ok in F as [LF CF].
  rewrite node_ok_eq, !andb_true_iff in OK. destruct OK as [[[SH SP] OKC] W].
  set (m := match k with astGroup => l - 1 | _ => l end).
  assert (M : forallb (node_ok m) cs = true).
  { destruct k; try exact OKC; [by apply andb_true_iff in OKC as [_ OKC]|].
    unfold shape_ok in SH. simpl in SH. by destruct cs. }
  destruct (compileChildren_ok cs cs' m IH M C) as (L & N1 & N2 & N3).
  split; [|split; [simpl; by rewrite CF, N2|done]].
  rewrite node_ok_eq, forallb_within, N3, <- forallb_within, W, SP.
  assert (S' : shape_ok (mkNode k cs' fs' a sp) = true).
  { unfold shape_ok in *. cbn [n_kind n_children n_filters] in *. by rewrite L, LF. }
  rewrite S'. simpl. rewrite andb_true_r. destruct k; try exact N1; [|exact OKC].
  apply andb_true_iff in OKC as [O1 _]. apply andb_true_iff. split; [exact O1|exact N1].
Qed.

Lemma ParseSelector_ok input selector :
  ParseSelector input = Ok selector ->
  exists root, sel_root selector = Some root /\ node_ok maxNestingDepth root = true /\
    node_compiled root = true /\ countRegexPredicates root <= maxRegexPredicatesPerAST.
Proof.
  unfold ParseSelector. intros (ast & A & (root & R & (u & L & [= <-])%bind_Ok_iff)%bind_Ok_iff)%bind_Ok_iff.
  pose proof (parseSelectorAST_sat input) as P. rewrite A in P. destruct P as [P _].
  destruct (compileNodeFilters_ok ast _ root P R) as (O & C & _). exists root.
  unfold enforceRegexPredicateLimit in L.
  destruct (Nat.ltb_spec maxRegexPredicatesPerAST (countRegexPredicates root)); [done|]. auto.
Qed.

End Compiled.

(** ** Properties *)

Section Properties.
Context {UT : RuneTables} {RE : RegexEngine}.
Variable object_of : ref -> Object.
Variable Availability : option FormatAvailability.

Lemma initial_sinv available : sinv available initialState.
Proof.
  split; simpl; [done|constructor| |lia].
  intros o. rewrite lookup_empty. split; [by intros ?%not_elem_of_nil|by intros []].
Qed.

Lemma evaluate_parsed available input selector fs opts :
  ParseSelector input = Ok selector -> stable Availability available ->
  exists root, sel_root selector = Some root /\
    ev (evaluateNode object_of Availability (rootContext object_of fs opts) root) initialState
       (node_result Availability available (denote object_of available (rootContext object_of fs opts) root) initialState).
Proof.
  intros (root & -> & O & C & _)%ParseSelector_ok S. exists root. split; [done|].
  eapply evaluateNode_ev; eauto using initial_sinv.
Qed.

(** C16. A parsed selector is evaluated to its denotation, or evaluation stops with a
    limit, a filter or an availability error: never with a syntax error. *)
Theorem evaluation_refines_denotation available input selector fs opts :
  ParseSelector input = Ok selector -> stable Availability available ->
  exists root, sel_root selector = Some root /\
    match evaluateNode object_of Availability (rootContext object_of fs opts) root initialState with
    | Ok (out, _) => out = denote object_of available (rootContext object_of fs opts) root
    | Err e => eval_error e
    end.
Proof.
  intros P S. destruct (evaluate_parsed available input selector fs opts P S) as (root & R & V).
  exists root. split; [done|]. unfold ev in V.
  destruct (evaluateNode _ _ _ _ _) as [[out st]|e]; [|done]. by destruct V as [-> _ _ _ _].
Qed.

Lemma parsed_outputs available input selector root fs opts out st :
  ParseSelector input = Ok selector -> sel_root selector = Some root ->
  stable Availability available ->
  evaluateNode object_of Availability (rootContext object_of fs opts) root initialState = Ok (out, st) ->
  Forall (fun ts => 1 <= length ts <= maxMergeTerms /\
                    Forall (fun o => o ∈ fs /\ available o = true) ts /\
                    streams_ok object_of opts ts) out.
Proof.
  intros P R S E. destruct (evaluate_parsed available input selector fs opts P S) as (root' & R' & V).
  rewrite R in R'. injection R' as <-. unfold ev in V. rewrite E in V.
  destruct V as [-> [O _] _ _ _].
  pose proof (denote_drawn object_of available root (rootContext object_of fs opts)) as D.
  apply Forall_and. split; [|exact D]. eapply Forall_impl; [exact O|].
  intros ts [[N L] _]. split; [|done]. destruct ts; [done|]. simpl. lia.
Qed.

(** The outputs of a parsed selector: each has between one and sixteen tracks,
    all of them formats that were offered and are available, with one video and
    one audio stream unless more are allowed. *)
Theorem selected_tracks_sound available input selector root fs opts out st :
  ParseSelector input = Ok selector -> sel_root selector = Some root ->
  stable Availability available ->
  evaluateNode object_of Availability (rootContext object_of fs opts) root initialState = Ok (out, st) ->
  Forall (fun ts => 1 <= length ts <= maxMergeTerms /\
                    Forall (fun o => o ∈ fs /\ available o = true) ts /\
                    streams_ok object_of opts ts) out.
Proof. apply parsed_outputs. Qed.

(** The availability callback is asked at most once about a format, and about
    every format that is selected. *)
Theorem availability_asked_once f available input selector root fs opts out st :
  Availability = Some f ->
  ParseSelector input = Ok selector -> sel_root selector = Some root ->
  stable Availability available ->
  evaluateNode object_of Availability (rootContext object_of fs opts) root initialState = Ok (out, st) ->
  NoDup (calls st) /\ Forall (Forall (fun o => o ∈ calls st)) out.
Proof.
  intros A P R S E. destruct (evaluate_parsed available input selector fs opts P S) as (root' & R' & V).
  rewrite R in R'. injection R' as <-. unfold ev in V. rewrite E in V.
  pose proof (outputs_asked _ _ _ (nr_outputs _ _ _ _ _ _ V)) as O.
  unfold asked in O. rewrite A in O. split; [|done]. by destruct V as [_ _ [] _ _].
Qed.

(** A group hands its merge candidates back: what it counted against the limit
    of 256 is forgotten when it ends, so that the limit holds for each group and
    not for the whole selector. *)
Theorem group_forgets_candidates ctx child fs a sp st out st' :
  evaluateNode object_of Availability ctx (mkNode astGroup [child] fs a sp) st = Ok (out, st') ->
  mergeCandidates st' = mergeCandidates st.
Proof.
  cbn [evaluateNode]. unfold mbind, E_bind.
  destruct (filterFormats object_of (formats ctx) fs st) as [[fs' st1]|e] eqn:F; [|done].
  assert (M : mergeCandidates st1 = mergeCandidates st).
  { revert F. unfold filterFormats. case_bool_decide; [by intros [= _ <-]|]. clear.
    revert fs' st st1. induction (formats ctx) as [|o l IH]; intros fs' st st1; simpl; [by intros [= _ <-]|].
    unfold mbind, E_bind, matches.
    destruct (matchesFilters _ _ _) as [[b bd]|e]; [|done].
    destruct (filterFormats_loop object_of l fs _) as [[r st2]|e] eqn:E; [|done]. intros [= _ <-].
    by apply IH in E. }
  unfold in_child. destruct (evaluateNode _ _ _ _ st1) as [[r st2]|e]; [|done]. intros [= _ <-]. simpl. done.
Qed.

End Properties.
