(* ===== verification/SelectionExamples.v ===== *)
(** * Selections of a small catalogue

    Five formats, a regular-expression engine that searches for a literal and an
    availability callback that refuses one format: the theorems on selectors
    applied to concrete texts. *)
From S2P Require Import Prelude GoStrings Runes Value FilterNumber Filter SortOptions Selector SelectorFacts Evaluate EvaluateFacts.

#[local] Open Scope nat_scope.

#[local] Instance ascii_tables : RuneTables :=
  {| letter_table := fun _ => false; digit_table := fun _ => false;
     number_table := fun _ => false; mark_table := fun _ => false |}.

#[local] Instance literal_engine : RegexEngine :=
  {| Translate := Some; regex_compiles := fun _ => true;
     regex_match := fun p s => Matched (Contains s p);
     since_start := fun _ => 0%Z; match_time := fun _ => 0%Z |}.

Definition format (id v a : string) (height : Z) : Object :=
  NewObject [mkField (lit "format_id") (VString (lit id)); mkField (lit "vcodec") (VString (lit v));
             mkField (lit "acodec") (VString (lit a)); mkField (lit "height") (VInt height);
             mkField (lit "ext") (VString (lit "mp4"))].

Definition catalogue : list Object :=
  [format "140" "none" "mp4a" 0; format "134" "avc1" "none" 360; format "136" "avc1" "none" 720;
   format "22" "avc1" "mp4a" 720; format "248" "vp9" "none" 1080].

Definition catalogue_of (r : ref) : Object := default empty_object (catalogue !! r).
Definition all_refs : list ref := [0; 1; 2; 3; 4].
Definition one_of_each : Options := zeroOptions.

(** every format but the last is available *)
Definition not_the_last (r : ref) : bool := negb (r =? 4).
Definition refuse_last : FormatAvailability := fun _ r => Ok (not_the_last r).

Lemma refuse_last_stable : stable (Some refuse_last) not_the_last.
Proof. intros cs o b. unfold refuse_last. by intros [= <-]. Qed.

Definition selector_text : bytes := lit "bv[height<=720]+ba/b, all".

Definition parsed : Selector :=
  match ParseSelector selector_text with Ok s => s | Err _ => mkSelector None [] end.
Definition parsed_root : astNode :=
  match sel_root parsed with Some n => n | None => mkNode astAtom [] [] zeroSpec (mkSpan 0 0) end.

Definition selected : result selector_error (list tracks * evalState) :=
  evaluateNode catalogue_of (Some refuse_last) (rootContext catalogue_of all_refs one_of_each)
    parsed_root initialState.

Definition selected_out : list tracks := match selected with Ok (out, _) => out | Err _ => [] end.
Definition selected_state : evalState := match selected with Ok (_, st) => st | Err _ => initialState end.

Lemma parsed_ok : ParseSelector selector_text = Ok parsed.
Proof. vm_compute. reflexivity. Qed.

Lemma selected_ok : selected = Ok (selected_out, selected_state).
Proof. vm_compute. reflexivity. Qed.

(** the video of at most 720 lines with the best audio, then every available format *)
Example selected_out_value : selected_out = [[2; 0]; [3]; [2]; [1]; [0]].
Proof. vm_compute. reflexivity. Qed.

Lemma evaluation_refines_denotation_witness :
  exists root, sel_root parsed = Some root /\
    match evaluateNode catalogue_of (Some refuse_last) (rootContext catalogue_of all_refs one_of_each)
            root initialState with
    | Ok (out, _) => out = denote catalogue_of not_the_last (rootContext catalogue_of all_refs one_of_each) root
    | Err e => eval_error e
    end.
Proof.
  apply (evaluation_refines_denotation catalogue_of (Some refuse_last) not_the_last selector_text).
  - exact parsed_ok.
  - exact refuse_last_stable.
Defined.

Lemma selected_tracks_sound_witness :
  Forall (fun ts => 1 <= length ts <= maxMergeTerms /\
                    Forall (fun o => o ∈ all_refs /\ not_the_last o = true) ts /\
                    streams_ok catalogue_of one_of_each ts) selected_out.
Proof.
  apply (selected_tracks_sound catalogue_of (Some refuse_last) not_the_last selector_text
           parsed parsed_root all_refs one_of_each selected_out selected_state).
  - exact parsed_ok.
  - vm_compute. reflexivity.
  - exact refuse_last_stable.
  - exact selected_ok.
Defined.

Lemma availability_asked_once_witness :
  NoDup (calls selected_state) /\ Forall (Forall (fun o => o ∈ calls selected_state)) selected_out.
Proof.
  apply (availability_asked_once catalogue_of (Some refuse_last) refuse_last not_the_last selector_text
           parsed parsed_root all_refs one_of_each selected_out selected_state).
  - reflexivity.
  - exact parsed_ok.
  - vm_compute. reflexivity.
  - exact refuse_last_stable.
  - exact selected_ok.
Defined.

(** ** The limit on merge candidates is per group

    Twelve formats give 144 merges of two.  Two alternatives that each try them
    pass the limit of 256 together; in groups each counts for itself. *)

Definition many : list ref := seq 0 12.
Definition many_of (r : ref) : Object := format "x" "avc1" "mp4a" (Z.of_nat r).

Definition outcome (text : string) : result selector_error (list tracks) :=
  selector ← ParseSelector (lit text);
  root ← rootNode selector;
  '(out, _) ← evaluateNode many_of None (rootContext many_of many one_of_each) root initialState;
  Ok out.

Definition grouped : string := "(all+all)+nope/(all+all)+nope/best".
Definition ungrouped : string := "all+all+nope/all+all+nope/best".

Definition grouped_root : astNode :=
  match ParseSelector (lit "(all+all)") with
  | Ok (mkSelector (Some n) _) => n
  | _ => mkNode astAtom [] [] zeroSpec (mkSpan 0 0)
  end.

Definition grouped_run : result selector_error (list tracks * evalState) :=
  evaluateNode many_of None (rootContext many_of many one_of_each) grouped_root initialState.

Lemma group_forgets_candidates_witness :
  (exists out st, grouped_run = Ok (out, st) /\ mergeCandidates st = 0 /\ length out = 144) /\
  outcome grouped = Ok [[11]] /\
  outcome ungrouped = Err (SelectorLimit 0 0 (msg "merge cartesian product exceeds limit")).
Proof.
  split; [|split; vm_compute; reflexivity].
  destruct grouped_run as [[out st]|e] eqn:E; [|vm_compute in E; discriminate E].
  exists out, st. split; [reflexivity|]. split.
  - apply (group_forgets_candidates many_of None (rootContext many_of many one_of_each)
             (default grouped_root (head (n_children grouped_root))) [] zeroSpec (mkSpan 0 9)
             initialState out st).
    rewrite <- E. vm_compute. reflexivity.
  - apply (f_equal (fun r => match r with Ok (o, _) => length o | Err _ => 0 end)) in E.
    rewrite <- E. vm_compute. reflexivity.
Defined.
