(* ===== verification/Output.v ===== *)
(** * Output plans: labels, containers and the default selector

    [PlanID] and [DestinationSuffix] ([internal/format/ast.go]) label the files
    of an output, [compatibleExtension] ([compatible_ext.go]) chooses the
    container of a merge, [DefaultSelectorSpec] ([default_policy.go]) the
    selector used when none is given, and [Canonical] ([atoms.go]) the long
    form of a quality atom. *)
From S2P Require Import Prelude GoStrings Runes Value FilterNumber Filter Decimal SortOptions Selector SelectorFacts Selection Evaluate.

#[local] Open Scope nat_scope.

(** ** Labels *)

Definition maxPlanID : nat := 64.

Definition safe_byte (c : byte) : bool :=
  is_alpha c || is_digit c || is_byte "_" c || is_byte "-" c || is_byte "." c.

Definition sanitizePlanID (id : bytes) : bytes :=
  if bool_decide (id = []) then lit "0"
  else
    let id := if maxPlanID <? length id then take maxPlanID id else id in
    let out := map (fun c => if safe_byte c then c else "_"%byte) id in
    if bool_decide (out = []) then lit "0" else out.

(** [PlanID] on the format ids of the tracks *)
Definition PlanID (ids : list bytes) : bytes :=
  match ids with
  | [] => lit "0"
  | [id] => sanitizePlanID id
  | _ => sanitizePlanID (Join (map sanitizePlanID ids) (lit "+"))
  end.

Definition DestinationSuffix (ids : list bytes) (planIndex : Z) : bytes :=
  let planIndex := if (planIndex <? 1)%Z then 1%Z else planIndex in
  Itoa planIndex ++ lit "_" ++ PlanID ids.

(** ** Containers *)

Section Container.
Context {UL : UnicodeTables}.

Definition setType : Type := list bytes.

Definition contains (s : setType) (needle : bytes) : bool := bool_decide (needle ∈ s).

Definition csvToSet (csv : bytes) : setType :=
  foldl (fun set part =>
    let trimmed := TrimSpace part in
    if bool_decide (trimmed = []) || contains set trimmed then set else set ++ [trimmed])
    [] (Split csv ",").

Definition containsAll (s other : setType) : bool :=
  if bool_decide (length other = 0) then true
  else if length s <? length other then false
  else forallb (contains s) other.

Definition sanitizeCodec (codec : bytes) : bytes :=
  if bool_decide (codec = []) then []
  else
    let '(head, _) := cut_at (is_byte dot) codec in
    List.filter (fun c => negb (is_byte "0" c)) (ToLower head).

Definition firstOrEmpty (values : list bytes) : bytes := default [] (head values).

Definition compatibleCodecs (ext : bytes) : option bytes :=
  if bool_decide (ext = lit "mp4") then Some (lit "av1,hevc,avc1,mp4a,ac-4,h264,aacl,ec-3")
  else if bool_decide (ext = lit "webm") then Some (lit "av1,vp9,vp8,opus,vrbs,vp9x,vp8x")
  else None.

Definition compatibleExts : list setType :=
  [csvToSet (lit "mp3,mp4,m4a,m4p,m4b,m4r,m4v,ismv,isma,mov"); csvToSet (lit "webm,weba")].

(** the pass over the codec sets; [None] when the loop ends *)
Fixpoint codec_pass (vcodec acodec : bytes) (exts : list bytes) : option bytes :=
  match exts with
  | [] => None
  | ext :: exts' =>
      if bool_decide (ext = lit "mkv") then Some (lit "mkv")
      else match compatibleCodecs ext with
           | None => codec_pass vcodec acodec exts'
           | Some text =>
               let set := csvToSet text in
               if contains set vcodec && contains set acodec then Some (ToLower ext)
               else codec_pass vcodec acodec exts'
           end
  end.

(** the pass over the extension families *)
Fixpoint family_pass (vexts aexts : list bytes) (exts : list bytes) : option bytes :=
  match exts with
  | [] => None
  | ext :: exts' =>
      if bool_decide (ext = lit "mkv") then Some (lit "mkv")
      else
        let current := csvToSet (ext ++ lit "," ++ Join vexts (lit ",") ++ lit "," ++ Join aexts (lit ",")) in
        if (length current =? 1) && contains current ext then Some ext
        else if existsb (fun family => containsAll family current) compatibleExts then Some ext
        else family_pass vexts aexts exts'
  end.

(** [None] is the panic on slices of different lengths *)
Definition compatibleExtension (vcodecs acodecs vexts aexts preferences : list bytes) : option bytes :=
  if negb (length vcodecs =? length vexts) || negb (length acodecs =? length aexts) then None
  else
    let allowMKV := bool_decide (preferences = []) || contains preferences (lit "mkv") in
    if allowMKV && ((1 <? length vcodecs) || (1 <? length acodecs)) then Some (lit "mkv")
    else
      let vcodec := sanitizeCodec (firstOrEmpty vcodecs) in
      let acodec := sanitizeCodec (firstOrEmpty acodecs) in
      match codec_pass vcodec acodec
              (if bool_decide (preferences = []) then [lit "mp4"; lit "webm"] else preferences) with
      | Some ext => Some ext
      | None =>
          match family_pass vexts aexts (if bool_decide (preferences = []) then vexts else preferences) with
          | Some ext => Some ext
          | None =>
              if allowMKV then Some (lit "mkv") else Some (default [] (last preferences))
          end
      end.

Definition partitionSelectionCodecs (ts : list Selection)
  : list bytes * list bytes * list bytes * list bytes :=
  let video := List.filter (fun t => hasMediaKind (sel_VCodec t)) ts in
  let audio := List.filter (fun t => hasMediaKind (sel_ACodec t)) ts in
  (map sel_VCodec video, map sel_ACodec audio, map sel_Ext video, map sel_Ext audio).

Definition CompatibleExtensionForSelections (ts : list Selection) (preferences : list bytes) : option bytes :=
  let '(vcodecs, acodecs, vexts, aexts) := partitionSelectionCodecs ts in
  compatibleExtension vcodecs acodecs vexts aexts preferences.

End Container.

(** ** The default selector *)

Record PlannerCapabilities := mkCapabilities { CanMergeFormats : bool; OutputToStdout : bool }.
Record DefaultSelectorContext := mkDefaultContext {
  IsLive : bool; LiveFromStart : bool; LegacyFormatSpec : bool }.

Definition DefaultSelectorSpec (capabilities : PlannerCapabilities) (context : DefaultSelectorContext)
    (opts : Options) : bytes :=
  let preferBest := OutputToStdout capabilities || (IsLive context && negb (LiveFromStart context)) in
  let preferBest := if negb preferBest && negb (CanMergeFormats capabilities) then true else preferBest in
  let compatibilityMode := AllowMultipleAudioStreams opts || LegacyFormatSpec context in
  if preferBest then lit "best/bestvideo+bestaudio"
  else if compatibilityMode then lit "bestvideo+bestaudio/best"
  else lit "bestvideo*+bestaudio/best".

(** ** The canonical text of a quality atom *)

Definition Canonical (atom : Atom) : bytes :=
  if negb (at_OK atom) then []
  else
    (if at_Best atom then lit "best" else lit "worst") ++
    match at_Media atom with
    | AtomMediaVideo => lit "video"
    | AtomMediaAudio => lit "audio"
    | AtomMediaCombined => []
    end ++
    (if at_Star atom then lit "*" else []) ++
    (if negb (bool_decide (at_indexText atom = [])) && negb (bool_decide (at_indexText atom = lit "1"))
     then lit "." ++ at_indexText atom
     else if (1 <? at_Index atom)%Z then lit "." ++ Itoa (at_Index atom) else []).

(** ** Labels are safe and distinct *)

Lemma sanitizePlanID_safe id :
  1 <= length (sanitizePlanID id) <= maxPlanID /\ forallb safe_byte (sanitizePlanID id) = true.
Proof.
  assert (Z0 : 1 <= length (lit "0") <= maxPlanID /\ forallb safe_byte (lit "0") = true).
  { split; [unfold maxPlanID; simpl; lia|done]. }
  unfold sanitizePlanID. repeat (case_bool_decide; [exact Z0|]).
  match goal with H : map _ ?l <> [] |- _ => set (t := l) in *; rename H into N end.
  rewrite length_map. split.
  - split; [destruct t; [done|simpl; lia]|]. subst t.
    destruct (Nat.ltb_spec maxPlanID (length id)); [rewrite length_take; lia|lia].
  - clear. induction t as [|c t IH]; simpl; [done|]. rewrite IH, andb_true_r.
    destruct (safe_byte c) eqn:E; [done|reflexivity].
Qed.

(** A plan label has between 1 and 64 bytes, all of them letters, digits,
    underscores, dashes or dots: no separator of any file system gets through. *)
Theorem plan_id_safe ids :
  1 <= length (PlanID ids) <= maxPlanID /\ forallb safe_byte (PlanID ids) = true.
Proof.
  unfold PlanID. destruct ids as [|id [|id' ids]]; [|apply sanitizePlanID_safe..].
  split; [unfold maxPlanID; simpl; lia|done].
Qed.

Lemma digits_then_underscore s t s' t' :
  forallb is_digit s = true -> forallb is_digit s' = true ->
  s ++ "_"%byte :: t = s' ++ "_"%byte :: t' -> s = s' /\ t = t'.
Proof.
  revert s'. induction s as [|c s IH]; intros [|c' s'] D D' E; simpl in *; try by simplify_eq.
  all: repeat match goal with H : _ && _ = true |- _ => apply andb_true_iff in H as [? ?] end.
  all: simplify_eq; try done. destruct (IH s') as [-> ->]; auto.
Qed.

(** Two outputs of one selector never share a destination suffix: the suffix
    determines the ordinal of the output and its label. *)
Theorem destination_suffix_injective ids ids' i j :
  (1 <= i <= MaxInt64)%Z -> (1 <= j <= MaxInt64)%Z ->
  DestinationSuffix ids i = DestinationSuffix ids' j -> i = j /\ PlanID ids = PlanID ids'.
Proof.
  intros Bi Bj. unfold DestinationSuffix. rewrite (proj2 (Z.ltb_ge i 1)), (proj2 (Z.ltb_ge j 1)) by lia.
  destruct (Itoa_spec i ltac:(lia)) as (_ & Di & Vi), (Itoa_spec j ltac:(lia)) as (_ & Dj & Vj).
  intros E. change (lit "_") with ["_"%byte] in E. simpl in E.
  apply digits_then_underscore in E as [E1 E2]; [|done..]. split; [congruence|done].
Qed.

Lemma destination_suffix_injective_witness :
  DestinationSuffix [lit "137"; lit "140"] 1 <> DestinationSuffix [lit "137"; lit "140"] 12.
Proof.
  intros E. apply destination_suffix_injective in E as [E _]; [discriminate E|..]; unfold MaxInt64; lia.
Defined.

(** ** Containers come from the preferences *)

Section ContainerFacts.
Context {UL : UnicodeTables}.

Lemma codec_pass_from vcodec acodec exts r : codec_pass vcodec acodec exts = Some r -> r ∈ exts.
Proof.
  induction exts as [|ext exts IH]; simpl; [done|]. case_bool_decide as M.
  { intros [= <-]. subst. apply list_elem_of_here. }
  unfold compatibleCodecs.
  repeat case_bool_decide; subst; try (intros ?; apply list_elem_of_further; auto; fail);
    (destruct (_ && _); [intros [= <-]; apply list_elem_of_here|intros ?; apply list_elem_of_further; auto]).
Qed.

Lemma family_pass_from vexts aexts exts r : family_pass vexts aexts exts = Some r -> r ∈ exts.
Proof.
  induction exts as [|ext exts IH]; simpl; [done|]. case_bool_decide as M.
  { intros [= <-]. subst. apply list_elem_of_here. }
  destruct (_ && _); [intros [= <-]; apply list_elem_of_here|].
  destruct (_ || _); [intros [= <-]; apply list_elem_of_here|].
  intros H. apply list_elem_of_further. auto.
Qed.

(** the containers a merge may get *)
Definition allowed_containers (vexts preferences : list bytes) : list bytes :=
  if bool_decide (preferences = []) then [lit "mkv"; lit "mp4"; lit "webm"] ++ vexts else preferences.

Lemma allowed_mkv vexts preferences :
  bool_decide (preferences = []) || contains preferences (lit "mkv") = true ->
  lit "mkv" ∈ allowed_containers vexts preferences.
Proof.
  unfold allowed_containers, contains. case_bool_decide; cbn [orb].
  { intros _. apply list_elem_of_here. }
  by intros ?%bool_decide_eq_true.
Qed.

Lemma compatibleExtension_allowed vcodecs acodecs vexts aexts preferences :
  length vcodecs = length vexts -> length acodecs = length aexts ->
  exists ext, compatibleExtension vcodecs acodecs vexts aexts preferences = Some ext /\
    ext ∈ allowed_containers vexts preferences.
Proof.
  intros L1 L2. unfold compatibleExtension. rewrite L1, L2, !Nat.eqb_refl. cbn [negb orb].
  pose proof (allowed_mkv vexts preferences) as MKV.
  destruct (_ && _) eqn:A.
  { apply andb_true_iff in A as [A _]. eauto. }
  clear A. destruct (codec_pass _ _ _) as [ext|] eqn:C.
  { exists ext. split; [done|]. apply codec_pass_from in C. unfold allowed_containers.
    case_bool_decide; [|done]. apply elem_of_app. left. by apply list_elem_of_further. }
  destruct (family_pass _ _ _) as [ext|] eqn:F.
  { exists ext. split; [done|]. apply family_pass_from in F. unfold allowed_containers.
    case_bool_decide; [|done]. apply elem_of_app. by right. }
  destruct (bool_decide (preferences = []) || contains preferences (lit "mkv")) eqn:A; [eauto|].
  eexists. split; [reflexivity|]. apply orb_false_iff in A as [A _]. unfold allowed_containers.
  rewrite A. apply bool_decide_eq_false in A.
  destruct (last preferences) as [e|] eqn:LE; [|by apply last_None in LE].
  simpl. apply last_Some in LE as [l ->]. apply elem_of_app. right. apply list_elem_of_here.
Qed.

(** The container of a merge is always defined; with preferences it is one of
    them, without it is Matroska, MP4, WebM or an extension of a video track. *)
Theorem container_respects_preferences ts preferences :
  exists ext, CompatibleExtensionForSelections ts preferences = Some ext /\
    ext ∈ allowed_containers (map sel_Ext (List.filter (fun t => hasMediaKind (sel_VCodec t)) ts)) preferences.
Proof. apply compatibleExtension_allowed; by rewrite !length_map. Qed.

End ContainerFacts.

(** ** The default selector parses *)

(** The selector used when none is given is accepted by the parser, whatever
    the capabilities, the context and the options. *)
Theorem default_selector_parses {UT : RuneTables} {RE : RegexEngine} capabilities context opts :
  exists selector, ParseSelector (DefaultSelectorSpec capabilities context opts) = Ok selector.
Proof.
  unfold DefaultSelectorSpec. cbv zeta.
  repeat match goal with |- context [ParseSelector (if ?b then _ else _)] => destruct b end;
    eexists; vm_compute; reflexivity.
Qed.

(** ** Quality atoms survive their canonical form *)

Lemma HasPrefix_cons c s d t : HasPrefix (c :: s) (d :: t) = is_byte d c && HasPrefix s t.
Proof.
  unfold HasPrefix. simpl take. destruct (is_byte d c) eqn:E.
  - apply is_byte_true in E as ->. apply bool_decide_ext. split; [by intros [= ->]|by intros ->].
  - apply bool_decide_eq_false. intros [= -> _]. apply not_true_iff_false in E. apply E.
    by apply is_byte_true.
Qed.

Lemma HasPrefix_nil s : HasPrefix s [] = true.
Proof. by destruct s. Qed.

Lemma HasPrefix_empty c s : HasPrefix [] (c :: s) = false.
Proof. done. Qed.

Definition stem_text (best : bool) (media : AtomMedia) (star : bool) : bytes :=
  (if best then lit "best" else lit "worst") ++
  match media with
  | AtomMediaVideo => lit "video"
  | AtomMediaAudio => lit "audio"
  | AtomMediaCombined => []
  end ++ (if star then lit "*" else []).

(** a suffix that an index may start: nothing, or a point *)
Definition index_suffix (s : bytes) : Prop := s = [] \/ exists t, s = dot :: t.

Lemma cutAtomStem_text best media star suffix :
  index_suffix suffix ->
  cutAtomStem (stem_text best media star ++ suffix) = Some (mkAtom false best media star 1 [] false, suffix).
Proof.
  intros S. unfold cutAtomStem, cutQualityPrefix, cutMediaPrefix.
  destruct best, media, star, S as [-> | [t ->]];
    cbn [stem_text lit String.list_byte_of_string app];
    repeat (rewrite ?HasPrefix_cons, ?HasPrefix_nil, ?HasPrefix_empty; cbn); reflexivity.
Qed.

(** what [parseAtomToken] does behind the stem *)
Definition finish_atom (atom : Atom) (suffix : bytes) : Atom :=
  match suffix with
  | [] => atom <| at_OK := true |>
  | d :: digits =>
      if negb (is_byte dot d) then zeroAtom
      else match digits with
           | [] => zeroAtom
           | c :: _ =>
               if is_digit c && negb (is_byte "0" c) && forallb is_digit digits then
                 let '(i, tooLarge) := parseAtomIndex digits in
                 atom <| at_OK := true |> <| at_Index := i |> <| at_indexText := digits |>
                      <| at_indexTooLarge := tooLarge |>
               else zeroAtom
           end
  end.

Lemma parseAtomToken_finish name :
  parseAtomToken name =
  match cutAtomStem name with Some (atom, rest) => finish_atom atom rest | None => zeroAtom end.
Proof. unfold parseAtomToken. by destruct (cutAtomStem name) as [[atom [|d r]]|]. Qed.

Lemma cutAtomStem_fields name atom rest :
  cutAtomStem name = Some (atom, rest) ->
  atom = mkAtom false (at_Best atom) (at_Media atom) (at_Star atom) 1 [] false.
Proof. unfold cutAtomStem. intros H. repeat case_match; simplify_eq; done. Qed.

(** the parts of an atom that evaluation reads *)
Definition same_atom (a b : Atom) : Prop :=
  at_OK a = at_OK b /\ at_Best a = at_Best b /\ at_Media a = at_Media b /\ at_Star a = at_Star b /\
  at_Index a = at_Index b /\ at_indexTooLarge a = at_indexTooLarge b.

(** the index that the canonical text carries *)
Definition index_text (a : Atom) : bytes :=
  if negb (bool_decide (at_indexText a = [])) && negb (bool_decide (at_indexText a = lit "1"))
  then lit "." ++ at_indexText a
  else if (1 <? at_Index a)%Z then lit "." ++ Itoa (at_Index a) else [].

Lemma Canonical_text a :
  at_OK a = true -> Canonical a = stem_text (at_Best a) (at_Media a) (at_Star a) ++ index_text a.
Proof. intros O. unfold Canonical, stem_text. rewrite O. cbn [negb]. by rewrite <- !app_assoc. Qed.

Lemma index_text_suffix a : index_suffix (index_text a).
Proof.
  unfold index_text, index_suffix. destruct (_ && _); [right; by eexists|].
  destruct (1 <? at_Index a)%Z; [right; by eexists|by left].
Qed.

Lemma parse_Canonical a :
  at_OK a = true ->
  parseAtomToken (Canonical a) =
  finish_atom (mkAtom false (at_Best a) (at_Media a) (at_Star a) 1 [] false) (index_text a).
Proof.
  intros O. rewrite Canonical_text, parseAtomToken_finish by done.
  rewrite cutAtomStem_text by apply index_text_suffix. done.
Qed.

(** Every spelling of a quality atom denotes the same atom as its canonical
    text: reading [bv*.2], printing it as [bestvideo*.2] and reading it again
    gives the same selection rule. *)
Theorem atom_canonical_roundtrip name :
  at_OK (parseAtomToken name) = true ->
  same_atom (parseAtomToken (Canonical (parseAtomToken name))) (parseAtomToken name).
Proof.
  intros O. rewrite parse_Canonical by done. revert O. rewrite (parseAtomToken_finish name).
  destruct (cutAtomStem name) as [[a rest]|] eqn:C; [|done].
  apply cutAtomStem_fields in C. rewrite C. clear C name.
  generalize (at_Best a) (at_Media a) (at_Star a). intros best media star. clear a.
  destruct rest as [|d digits]; [done|]. cbn [finish_atom].
  destruct (negb (is_byte dot d)); [done|]. destruct digits as [|c digits]; [done|].
  destruct (is_digit c && negb (is_byte "0" c) && forallb is_digit (c :: digits)) eqn:D; [|done].
  destruct (parseAtomIndex (c :: digits)) as [i tooLarge] eqn:I. intros _. unfold index_text. simpl at_indexText.
  destruct (decide (c :: digits = lit "1")) as [E|E].
  - rewrite E in *. injection I as <- <-. done.
  - rewrite (bool_decide_false (c :: digits = [])), (bool_decide_false (c :: digits = lit "1")) by done.
    cbn [negb andb]. change (lit "." ++ c :: digits) with (dot :: c :: digits).
    unfold finish_atom. change (negb (is_byte dot dot)) with false. cbv iota. rewrite D, I. done.
Qed.

Lemma atom_canonical_roundtrip_witness :
  Canonical (parseAtomToken (lit "bv*.2")) = lit "bestvideo*.2" /\
  same_atom (parseAtomToken (lit "bestvideo*.2")) (parseAtomToken (lit "bv*.2")).
Proof.
  split; [reflexivity|].
  change (lit "bestvideo*.2") with (Canonical (parseAtomToken (lit "bv*.2"))).
  apply (atom_canonical_roundtrip (lit "bv*.2")). reflexivity.
Defined.
