(* ===== verification/PlanMetadata.v ===== *)
(** * Metadata of an output ([internal/format/plan_metadata.go])

    The metadata of a single track is a copy of its format; that of a merge is
    the dictionary of merged formats: the requested formats, joined labels,
    summed sizes and rates, and the fields of the only video and the only audio
    track.

    Two results of the platform are parameters: whether [net/url] accepts the
    authority of a URL ([AuthorityCheck]), and the [int64] that a conversion of a
    float outside its range gives, which Go leaves to the implementation
    ([FloatConversion]). *)
From S2P Require Import Prelude GoStrings Runes Value FilterNumber Filter Decimal Float64 Regex SortSettings SortOptions Sorter SorterValues Selector Normalize Selection Evaluate Output.
From S2P Require Url.

#[local] Open Scope Z_scope.

Class AuthorityCheck := { authority_ok : bytes -> bool }.
Class FloatConversion := { int64_out_of_range : float64 -> Z }.

(** ** Joined labels *)

(** the non-empty texts of a field *)
Definition field_texts (key : string) (requested : list Object) : list bytes :=
  List.filter (fun t => negb (bool_decide (t = []))) (map (fun o => text_of o key) requested).

Definition joinNonEmptyField (requested : list Object) (key : string) : bytes :=
  Join (field_texts key requested) (lit "+").

Definition keep_first (seen : list bytes) (text : bytes) : list bytes :=
  if bool_decide (text ∈ seen) then seen else seen ++ [text].

Definition joinUniqueField (requested : list Object) (key : string) : bytes :=
  Join (foldl keep_first [] (field_texts key requested)) (lit "+").

(** ** Protocols *)

Section Protocols.
Context {LT : UnicodeTables} {AC : AuthorityCheck}.

(** the scheme and the path of [url.Parse] *)
Definition parse_rest (scheme rest : bytes) : option (bytes * bytes) :=
  let low := map lower_byte scheme in
  let rest := (cut_at (is_byte "?"%byte) rest).1 in
  if negb (HasPrefix rest (lit "/")) && negb (bool_decide (scheme = [])) then Some (low, [])
  else if negb (HasPrefix rest (lit "/")) && ContainsByte (cut_at (is_byte "/"%byte) rest).1 ":"%byte then None
  else if (negb (bool_decide (scheme = [])) || negb (HasPrefix rest (lit "///"))) && HasPrefix rest (lit "//") then
    let '(authority, path) := cut_at (is_byte "/"%byte) (drop 2 rest) in
    if authority_ok authority then path ← unescape (default [] path) encodePath; Some (low, path) else None
  else path ← unescape rest encodePath; Some (low, path).

Definition parse_scheme_path (raw : bytes) : option (bytes * bytes) :=
  let '(u, frag) := cut_at (is_byte "#"%byte) raw in
  _ ← unescape (drop 1 (default [] frag)) encodePath;
  if Url.has_ctl u then None
  else if bool_decide (u = lit "*") then Some ([], lit "*")
  else '(scheme, rest) ← Url.getScheme u; parse_rest scheme rest.

(** [path.Ext], without its dot *)
Definition path_ext (path : bytes) : bytes :=
  let name := match Url.from_last "/"%byte path with Some t => drop 1 t | None => path end in
  match Url.from_last "."%byte name with Some t => drop 1 t | None => [] end.

Definition inferProtocolFromURL (rawURL : bytes) (isLive : bool) : bytes :=
  match parse_scheme_path rawURL with
  | None => []
  | Some (scheme, path) =>
      if HasPrefix scheme (lit "rtmp") then lit "rtmp"
      else
        let ext := ToLower (path_ext path) in
        if bool_decide (ext = lit "m3u8") then if isLive then lit "m3u8" else lit "m3u8_native"
        else if bool_decide (ext = lit "f4m") then lit "f4m"
        else scheme
  end.

Definition protocol_of (live : bool) (o : Object) : option bytes :=
  if negb (bool_decide (text_of o "protocol" = [])) then Some (text_of o "protocol")
  else if negb (bool_decide (text_of o "url" = [])) then Some (inferProtocolFromURL (text_of o "url") live)
  else None.

Definition joinProtocols (requested : list Object) (isLive : Value) : bytes :=
  Join (omap (protocol_of (default false (Value_Bool isLive))) requested) (lit "+").

End Protocols.

(** ** Sums *)

(** an integer sum that turns into a float when it overflows, or when a float
    is added *)
Inductive total := IntTotal (n : Z) | FloatTotal (f : float64).

Definition total_float (t : total) : float64 :=
  match t with IntTotal n => f64_of_Z n | FloatTotal f => f end.

Definition overflows (sum integer : Z) : bool :=
  (0 <? integer) && (MaxInt64 - integer <? sum) || (integer <? 0) && (sum <? MinInt64 - integer).

Definition add_total (t : total) (v : Value) : total :=
  match v with
  | VInt integer =>
      match t with
      | IntTotal sum =>
          if overflows sum integer then FloatTotal (f64_add (f64_of_Z sum) (f64_of_Z integer))
          else IntTotal (sum + integer)
      | FloatTotal sum => FloatTotal (f64_add sum (f64_of_Z integer))
      end
  | VFloat number => FloatTotal (f64_add (total_float t) number)
  | _ => t
  end.

Definition is_number (v : Value) : bool := match v with VInt _ | VFloat _ => true | _ => false end.

(** the first of the fields that is a number *)
Definition first_numeric (keys : list bytes) (o : Object) : option Value :=
  List.find is_number (map (Lookup o) keys).

Definition sumFirstField (requested : list Object) (keys : list bytes) : option Value :=
  match omap (first_numeric keys) requested with
  | [] => None
  | numbers => Some match foldl add_total (IntTotal 0) numbers with
                    | IntTotal n => VInt n
                    | FloatTotal f => VFloat f
                    end
  end.

(** ** Resolutions *)

Section Resolution.
Context {FC : FloatConversion}.

(** [int64(value)] *)
Definition to_int64 (f : float64) : Z := match int_of_float f with Some n => n | None => int64_out_of_range f end.

Fixpoint int_text (fuel : nat) (value : Z) (digits : bytes) : bytes :=
  match fuel with
  | O => digits
  | S n => if 0 <? value then int_text n (value / 10) (z2b (48 + value mod 10) :: digits) else digits
  end.

Definition intToString (value : Z) : bytes :=
  if value =? 0 then lit "0"
  else
    let negative := value <? 0 in
    let value := if negative then i64 (- value) else value in
    let digits := int_text 20 value [] in
    if negative then lit "-" ++ digits else digits.

(** the fraction, while the text [b] has at most 12 bytes *)
Fixpoint frac_text (fuel : nat) (frac : float64) (b : bytes) : bytes :=
  match fuel with
  | O => b
  | S n =>
      if f64_lt f64_zero frac then
        let frac := f64_mul frac (f64_of_Z 10) in
        let digit := to_int64 frac in
        let b := b ++ [z2b (48 + digit)] in
        let frac := f64_sub frac (f64_of_Z digit) in
        if 12 <? zlen b then b else frac_text n frac b
      else b
  end.

Definition floatToString (value : float64) : bytes :=
  let b := if f64_lt value f64_zero then lit "-" else [] in
  let value := if f64_lt value f64_zero then f64_opp value else value in
  let whole := to_int64 value in
  let frac := f64_sub value (f64_of_Z whole) in
  let b := b ++ intToString whole in
  if f64_lt f64_zero frac then frac_text 14 frac (b ++ lit ".") else b.

Definition numericString (value : float64) : bytes :=
  if f64_eq value (f64_of_Z (to_int64 value)) then intToString (to_int64 value) else floatToString value.

Definition numericField (v : Value) : option float64 := numeric v.

(** a number above zero *)
Definition positive (v : Value) : option float64 :=
  match numericField v with
  | Some f => if f64_lt f64_zero f then Some f else None
  | None => None
  end.

Definition formatResolution (format : Object) : bytes :=
  if bool_decide (text_of format "vcodec" = lit "none") && negb (bool_decide (text_of format "acodec" = lit "none"))
  then lit "audio only"
  else if negb (bool_decide (text_of format "resolution" = [])) then text_of format "resolution"
  else match positive (Lookup format (lit "width")), positive (Lookup format (lit "height")) with
       | Some width, Some height => numericString width ++ lit "x" ++ numericString height
       | None, Some height => numericString height ++ lit "p"
       | Some width, None => numericString width ++ lit "x?"
       | None, None => []
       end.

(** ** The dictionary of an output *)

Context {LT : UnicodeTables} {AC : AuthorityCheck}.

Definition setStringOrNull (target : Object) (key : string) (text : bytes) : Object :=
  set_field key (if bool_decide (text = []) then Null else VString text) target.

Definition copyFieldIfPresent (source target : Object) (key : string) : Object :=
  set_field key (if is_absent (Lookup source (lit key)) then Null else Lookup source (lit key)) target.

Definition video_fields : list string :=
  ["width"; "height"; "fps"; "dynamic_range"; "vcodec"; "vbr"; "stretched_ratio"; "aspect_ratio"]%string.
Definition audio_fields : list string := ["acodec"; "abr"; "asr"; "audio_channels"]%string.

Definition copyVideoFields (target source : Object) : Object :=
  let target := foldl (copyFieldIfPresent source) target video_fields in
  set_field "resolution"
    (VString (if negb (bool_decide (text_of source "resolution" = [])) then text_of source "resolution"
              else formatResolution source)) target.

Definition copyAudioFields (target source : Object) : Object :=
  foldl (copyFieldIfPresent source) target audio_fields.

(** the fields of the only track of a kind *)
Definition promote (copy : Object -> Object -> Object) (tracks : list Object) (target : Object) : Object :=
  match tracks with [only] => copy target only | _ => target end.

Definition with_codec (key : string) (requested : list Object) : list Object :=
  List.filter (fun o => hasMediaKind (text_of o key)) requested.

(** [None] is the panic of [compatibleExtension] *)
Definition buildMergedMetadata (target : Object) (objects : list Object) (prepared : Prepared) : option Object :=
  let requested := map Object_Clone objects in
  let video := with_codec "vcodec" requested in
  let audio := with_codec "acodec" requested in
  let texts key := map (fun o => text_of o key) in
  let target := set_field "requested_formats" (VList (map VObject requested)) target in
  let target := set_field "format" (VString (joinNonEmptyField requested "format")) target in
  let target := set_field "format_id" (VString (joinNonEmptyField requested "format_id")) target in
  let preferences := if PreferFreeFormats (p_options prepared) then [lit "webm"; lit "mkv"] else [] in
  ext ← compatibleExtension (texts "vcodec"%string video) (texts "acodec"%string audio)
          (texts "ext"%string video) (texts "ext"%string audio) preferences;
  let target := set_field "ext" (VString ext) target in
  let target := set_field "protocol"
                  (VString (joinProtocols requested (Lookup (p_info prepared) (lit "is_live")))) target in
  let target := setStringOrNull target "language" (joinUniqueField requested "language") in
  let target := setStringOrNull target "format_note" (joinUniqueField requested "format_note") in
  let target := set_field "filesize_approx"
                  (default Null (sumFirstField requested [lit "filesize"; lit "filesize_approx"])) target in
  let target := set_field "tbr"
                  (default (VInt 0) (sumFirstField requested [lit "tbr"; lit "vbr"; lit "abr"])) target in
  Some (promote copyAudioFields audio (promote copyVideoFields video target)).

Definition buildSingleTrackMetadata (target source : Object) : Object :=
  foldl (fun target f => Object_Set target (Key f) (Val f)) target (fields (Object_Clone source)).

Definition planMetadataFor (objects : list Object) (prepared : Prepared) : option Object :=
  match objects with
  | [] => Some empty_object
  | [source] => Some (buildSingleTrackMetadata empty_object source)
  | _ => buildMergedMetadata empty_object objects prepared
  end.

End Resolution.
