(* ===== verification/MetadataSpec.v ===== *)
(** * What the fields of merged metadata mean

    Reference definitions for the labels, protocols and sums of a merge, stated
    on the formats and not by the helpers of [plan_metadata.go], and that the
    helpers compute them. *)
From S2P Require Import Prelude GoStrings Headers Runes Value FilterNumber Filter Decimal Float64 Regex SortSettings SortOptions Sorter SorterValues Selection Selector Normalize Evaluate Output PlanMetadata.
From S2P Require Url.

#[local] Open Scope Z_scope.

(** ** Labels *)

(** the text of a field, if it is one and not empty *)
Definition text_at (key : string) (o : Object) : option bytes :=
  match Lookup o (lit key) with
  | VString (c :: t) => Some (c :: t)
  | _ => None
  end.

Fixpoint plus_joined (ts : list bytes) : bytes :=
  match ts with
  | [] => []
  | t :: ts' => t ++ match ts' with [] => [] | _ => "+"%byte :: plus_joined ts' end
  end.

(** each text once, where it comes first *)
Definition first_occurrences (ts : list bytes) : list bytes := reverse (remove_dups (reverse ts)).

Lemma Join_plus ts : Join ts (lit "+") = plus_joined ts.
Proof.
  induction ts as [|t [|t' ts] IH]; [done|simpl; by rewrite app_nil_r|]. simpl in *. by rewrite IH.
Qed.

Lemma field_texts_at key requested : field_texts key requested = omap (text_at key) requested.
Proof.
  unfold field_texts, text_of, text_at. induction requested as [|o l IH]; [done|]. simpl. rewrite IH.
  by destruct (Lookup o (lit key)) as [| | | | |[|c t]| | |].
Qed.

Lemma joinNonEmptyField_spec requested key :
  joinNonEmptyField requested key = plus_joined (omap (text_at key) requested).
Proof. unfold joinNonEmptyField. by rewrite Join_plus, field_texts_at. Qed.

Lemma keep_first_occurrences ts : foldl keep_first [] ts = first_occurrences ts.
Proof.
  unfold first_occurrences. induction ts as [|t ts IH] using rev_ind; [done|]. rewrite foldl_snoc, IH, reverse_snoc.
  unfold keep_first. simpl. destruct (decide_rel elem_of t (reverse ts)) as [I|I].
  - rewrite bool_decide_true; [done|]. by rewrite elem_of_reverse, elem_of_remove_dups.
  - rewrite bool_decide_false; [by rewrite reverse_cons|]. by rewrite elem_of_reverse, elem_of_remove_dups.
Qed.

Lemma joinUniqueField_spec requested key :
  joinUniqueField requested key = plus_joined (first_occurrences (omap (text_at key) requested)).
Proof. unfold joinUniqueField. by rewrite Join_plus, keep_first_occurrences, field_texts_at. Qed.

Lemma plus_joined_nil ts : Forall (fun t => t <> []) ts -> plus_joined ts = [] -> ts = [].
Proof. intros F. destruct F as [|t ts T _]; [done|]. by destruct t. Qed.

Lemma text_at_nonempty key requested : Forall (fun t => t <> []) (omap (text_at key) requested).
Proof.
  apply Forall_forall. intros t (o & _ & T)%list_elem_of_omap. unfold text_at in T.
  destruct (Lookup o (lit key)) as [| | | | |[|c s]| | |]; by simplify_eq.
Qed.

Lemma first_occurrences_nonempty key requested :
  Forall (fun t => t <> []) (first_occurrences (omap (text_at key) requested)).
Proof.
  apply Forall_forall. intros t T. unfold first_occurrences in T. rewrite elem_of_reverse, elem_of_remove_dups, elem_of_reverse in T.
  by apply (proj1 (Forall_forall _ _) (text_at_nonempty key requested)).
Qed.

(** null without a text *)
Definition label_or_null (ts : list bytes) : Value :=
  match ts with [] => Null | _ => VString (plus_joined ts) end.

Lemma setStringOrNull_spec requested key :
  (if bool_decide (joinUniqueField requested key = []) then Null else VString (joinUniqueField requested key)) =
  label_or_null (first_occurrences (omap (text_at key) requested)).
Proof.
  rewrite joinUniqueField_spec. pose proof (first_occurrences_nonempty key requested) as F.
  case_bool_decide as E; [by rewrite (plus_joined_nil _ F E)|]. by destruct (first_occurrences _).
Qed.

(** ** Protocols *)

Section Protocols.
Context {LT : UnicodeTables} {AC : AuthorityCheck}.

(** [scheme://authority path ?query]: a scheme of letters, digits and [+-.], an
    authority that [net/url] accepts, and a path without escapes *)
Record web_url (url scheme authority path query : bytes) : Prop := {
  wu_url : url = scheme ++ lit "://" ++ authority ++ path ++ query;
  wu_scheme : match scheme with c :: _ => is_alpha c = true | [] => False end /\
    Forall (fun c => is_alpha c || is_digit c || any_of "+-." c = true) scheme;
  wu_authority : authority_ok authority = true /\ Forall (fun c => any_of "/?#" c = false) authority;
  wu_path : match path with [] => True | c :: _ => c = "/"%byte end /\ Forall (fun c => any_of "%?#" c = false) path;
  wu_query : match query with [] => True | c :: _ => c = "?"%byte end /\ "#"%byte ∉ query;
  wu_printable : Url.has_ctl url = false
}.

(** the last name of the path ends in a dot and [ext], in any case of letters *)
Definition named (path : bytes) (ext : string) : Prop :=
  exists stem e, path = stem ++ lit "." ++ e /\ "."%byte ∉ e /\ "/"%byte ∉ e /\ ToLower e = lit ext.

Definition is_rtmp (scheme : bytes) : Prop := exists rest, scheme = lit "rtmp" ++ rest.

(** the protocol of a URL *)
Definition url_protocol (live : bool) (url p : bytes) : Prop :=
  forall scheme authority path query, web_url url scheme authority path query ->
  let scheme := map lower_byte scheme in
  (is_rtmp scheme /\ p = lit "rtmp") \/
  (~ is_rtmp scheme /\
    ((named path "m3u8" /\ p = lit (if live then "m3u8" else "m3u8_native")%string) \/
     (named path "f4m" /\ p = lit "f4m") \/
     (~ named path "m3u8" /\ ~ named path "f4m" /\ p = scheme))).

(** the protocol of a track: its own, else that of its URL, else none *)
Definition track_protocol (live : bool) (o : Object) (p : option bytes) : Prop :=
  match text_at "protocol" o, text_at "url" o with
  | Some own, _ => p = Some own
  | None, Some url => exists q, p = Some q /\ url_protocol live url q
  | None, None => p = None
  end.

Lemma unescape_path s : "%"%byte ∉ s -> unescape s encodePath = Some s.
Proof.
  induction s as [|c s IH]; [done|]. rewrite not_elem_of_cons. intros [C N]. simpl.
  destruct (is_byte "%" c) eqn:E; [by apply is_byte_true in E|]. by rewrite IH.
Qed.

Lemma getScheme_word raw pre scheme rest :
  (pre <> [] \/ match scheme with c :: _ => is_alpha c = true | [] => False end) ->
  Forall (fun c => is_alpha c || is_digit c || any_of "+-." c = true) scheme ->
  Url.getScheme_loop raw pre (scheme ++ ":"%byte :: rest) = Some (pre ++ scheme, rest).
Proof.
  intros P F. revert pre P. induction F as [|c l C F IH]; intros pre P.
  { destruct P as [P|[]]. rewrite app_nil_r. by destruct pre. }
  cbn [app Url.getScheme_loop]. destruct (is_alpha c) eqn:A.
  - rewrite IH by (left; by destruct pre). by rewrite <- app_assoc.
  - destruct P as [P|P]; [|congruence]. simpl in C. rewrite C. destruct pre as [|d pre]; [done|].
    rewrite IH by by left. by rewrite <- app_assoc.
Qed.

Lemma any_of_not s c l : Forall (fun c => any_of s c = false) l -> any_of s c = true -> c ∉ l.
Proof. intros F A I. rewrite Forall_forall in F. specialize (F c I). congruence. Qed.

Lemma is_byte_Forall c l : c ∉ l -> Forall (fun d => is_byte c d = false) l.
Proof.
  intros N. apply Forall_forall. intros d D. destruct (is_byte c d) eqn:E; [|done]. apply is_byte_true in E as ->. done.
Qed.

Lemma parse_web_url url scheme authority path query :
  web_url url scheme authority path query -> parse_scheme_path url = Some (map lower_byte scheme, path).
Proof.
  intros [-> [SH SW] [AO AF] [PH PF] [QH QF] PR]. unfold parse_scheme_path.
  assert (SF : Forall (fun d => is_byte "#" d = false) scheme) by (eapply Forall_impl; [exact SW|]; by intros []).
  rewrite <- (app_nil_r (scheme ++ _)), cut_at_unique; [|repeat (apply Forall_app; split)|done].
  2: exact SF. 2: by repeat constructor. 2-4: apply is_byte_Forall.
  2: by apply (any_of_not "/?#"). 2: by apply (any_of_not "%?#"). 2: done.
  simpl default. rewrite unescape_path by apply not_elem_of_nil. cbn [mbind option_bind]. rewrite PR.
  rewrite bool_decide_false by (by destruct scheme as [|? [|]]).
  unfold Url.getScheme. change (lit "://" ++ ?r) with (":"%byte :: lit "//" ++ r).
  rewrite getScheme_word by (auto; by right). cbn [app mbind option_bind]. unfold parse_rest. cbv zeta.
  assert (C : cut_at (is_byte "?") (lit "//" ++ authority ++ path ++ query) =
              (lit "//" ++ authority ++ path, match query with [] => None | _ => Some query end)).
  { rewrite !app_assoc. apply cut_at_unique; [|by destruct query as [|c q]; [|subst c]].
    repeat (apply Forall_app; split); [by repeat constructor|apply is_byte_Forall; by apply (any_of_not "/?#")|
      apply is_byte_Forall; by apply (any_of_not "%?#")]. }
  rewrite C. cbn [fst app lit list_byte_of_string]. rewrite !(bool_decide_false (scheme = [])) by (by destruct scheme).
  assert (HasPrefix (lit "//" ++ authority ++ path) (lit "/") = true) as -> by (apply HasPrefix_app; by eexists (lit "/" ++ _)).
  assert (HasPrefix (lit "//" ++ authority ++ path) (lit "//") = true) as -> by (apply HasPrefix_app; by eexists).
  cbn [negb andb orb]. change (drop 2 (lit "//" ++ authority ++ path)) with (authority ++ path).
  rewrite cut_at_unique; [|apply is_byte_Forall; by apply (any_of_not "/?#")|by destruct path as [|c q]; [|subst c]].
  rewrite AO. assert (default [] match path with [] => None | _ => Some path end = path) as -> by by destruct path.
  by rewrite unescape_path by (by apply (any_of_not "%?#")).
Qed.

Lemma from_last_at c a b : c ∉ b -> Url.from_last c (a ++ c :: b) = Some (c :: b).
Proof.
  intros N. assert (Url.from_last c (c :: b) = Some (c :: b)) as E.
  { simpl. rewrite (proj2 (Url.from_last_None c b)) by (by rewrite <- list_elem_of_In). by rewrite (proj2 (is_byte_true c c)). }
  induction a as [|d a IH]; [exact E|]. cbn [app Url.from_last]. by rewrite IH.
Qed.

(** the name behind the last slash *)
Definition last_name (path : bytes) : bytes :=
  match Url.from_last "/"%byte path with Some t => drop 1 t | None => path end.

Lemma last_name_app a b : "/"%byte ∉ b -> last_name (a ++ b) = last_name a ++ b.
Proof.
  intros N. unfold last_name. destruct (decide ("/"%byte ∈ a)) as [I|I].
  - apply list_elem_of_split_r in I as (a1 & a2 & -> & N2). rewrite <- app_assoc. simpl.
    rewrite !from_last_at; [done|done|]. by rewrite not_elem_of_app.
  - rewrite !(proj2 (Url.from_last_None _ _)); [done|by rewrite <- list_elem_of_In..|].
    rewrite <- list_elem_of_In, not_elem_of_app. done.
Qed.

Lemma path_ext_spec path e :
  e <> [] -> path_ext path = e <-> exists stem, path = stem ++ lit "." ++ e /\ "."%byte ∉ e /\ "/"%byte ∉ e.
Proof.
  intros E0. unfold path_ext. fold (last_name path). split.
  - intros E. destruct (decide ("."%byte ∈ last_name path)) as [I|I].
    + apply list_elem_of_split_r in I as (a & b & Hn & N). rewrite Hn, from_last_at in E by done. rewrite skipn_cons, drop_0 in E. subst e.
      unfold last_name in Hn. destruct (decide ("/"%byte ∈ path)) as [J|J].
      * apply list_elem_of_split_r in J as (p1 & p2 & -> & N2). rewrite from_last_at in Hn by done. rewrite skipn_cons, drop_0 in Hn. subst p2.
        exists (p1 ++ "/"%byte :: a). rewrite <- app_assoc. split; [done|]. split; [done|].
        intros B. apply N2, elem_of_app. right. by right.
      * rewrite (proj2 (Url.from_last_None _ _)) in Hn by (by rewrite <- list_elem_of_In). subst path.
        exists a. split; [done|]. split; [done|]. intros B. apply J, elem_of_app. right. by right.
    + rewrite (proj2 (Url.from_last_None _ _)) in E by (by rewrite <- list_elem_of_In). congruence.
  - intros (stem & -> & N1 & N2). rewrite last_name_app by (simpl; by rewrite not_elem_of_cons).
    change (lit "." ++ e) with ("."%byte :: e). by rewrite from_last_at.
Qed.

Lemma path_ext_named path ext : lit ext <> [] -> ToLower (path_ext path) = lit ext <-> named path ext.
Proof.
  intros X. unfold named. destruct (decide (path_ext path = [])) as [E|E].
  - rewrite E. split; [intros H; by rewrite <- H in X|]. intros (stem & e & -> & N1 & N2 & L).
    assert (e <> []) as Ne by (intros ->; by rewrite <- L in X).
    assert (path_ext (stem ++ lit "." ++ e) = e) as E' by (apply path_ext_spec; eauto). congruence.
  - pose proof (proj1 (path_ext_spec path _ E) eq_refl) as (stem & P & N1 & N2). split; [intros L; by exists stem, (path_ext path)|].
    intros (stem' & e & P' & M1 & M2 & L). assert (e <> []) as Ne by (intros ->; by rewrite <- L in X).
    assert (path_ext path = e) as -> by (apply path_ext_spec; eauto). done.
Qed.

Lemma inferProtocol_spec live url : url_protocol live url (inferProtocolFromURL url live).
Proof.
  intros scheme authority path query W. unfold inferProtocolFromURL. rewrite (parse_web_url _ _ _ _ _ W). cbv zeta.
  pose proof (path_ext_named path "m3u8" ltac:(done)) as M. pose proof (path_ext_named path "f4m" ltac:(done)) as F.
  destruct (HasPrefix _ (lit "rtmp")) eqn:R.
  - left. by apply HasPrefix_app in R.
  - right. split; [intros R'%HasPrefix_app; congruence|]. case_bool_decide as E1; [left; split; [by apply M|by destruct live]|].
    case_bool_decide as E2; [right; left; split; [by apply F|done]|]. right. right. split_and!; [by rewrite <- M|by rewrite <- F|done].
Qed.

Lemma protocol_of_spec live o : track_protocol live o (protocol_of live o).
Proof.
  unfold track_protocol, protocol_of, text_at, text_of.
  destruct (Lookup o (lit "protocol")) as [| | | | |[|c p]| | |]; try done;
    destruct (Lookup o (lit "url")) as [| | | | |[|d u]| | |]; try done; simpl; eexists; (split; [done|apply inferProtocol_spec]).
Qed.

Lemma joinProtocols_spec requested isLive :
  let live := default false (Value_Bool isLive) in
  exists ps, Forall2 (track_protocol live) requested ps /\ joinProtocols requested isLive = plus_joined (omap id ps).
Proof.
  intros live. exists (map (protocol_of live) requested). split.
  - apply Forall2_fmap_r, Forall_Forall2_diag, Forall_forall. intros o _. apply protocol_of_spec.
  - unfold joinProtocols. rewrite Join_plus. f_equal. fold live. generalize (protocol_of live). intros f.
    induction requested as [|o l IH]; [done|]. simpl. destruct (f o); simpl; by f_equal || exact IH.
Qed.

End Protocols.
