(* ===== verification/MetadataFacts.v ===== *)
(** * Properties of the metadata of an output

    The sum of a field is exact while it is an integer, the metadata of a
    single track are those of its format, and those of a merge hold the
    requested formats, the labels and the fields of the only track of a kind. *)
From S2P Require Import Prelude GoStrings Headers Runes Value FilterNumber Filter Decimal Float64 Regex SortSettings SortOptions Sorter SorterValues Selection Selector Normalize NormalizeFacts Evaluate Output PlanMetadata MetadataSpec.

#[local] Open Scope Z_scope.

(** ** Sums *)

Definition sum (zs : list Z) : Z := foldr Z.add 0 zs.

(** the sum of the first numbers stays in the range of [int64] *)
Definition sums_fit (s : Z) (zs : list Z) : Prop := forall k, is_i64 (s + sum (take k zs)).

Lemma overflows_range s n : is_i64 s -> overflows s n = false <-> is_i64 (s + n).
Proof.
  unfold overflows, is_i64, MaxInt64, MinInt64. intros H.
  rewrite orb_false_iff, !andb_false_iff, !Z.ltb_ge. lia.
Qed.

Lemma foldl_float f l : exists g, foldl add_total (FloatTotal f) l = FloatTotal g.
Proof. revert f. induction l as [|v l IH]; intros f; simpl; [eauto|]. destruct v; simpl; eauto. Qed.

Lemma sums_fit_cons s z zs : is_i64 s -> sums_fit s (z :: zs) <-> is_i64 (s + z) /\ sums_fit (s + z) zs.
Proof.
  intros R. unfold sums_fit. split.
  - intros H. split.
    + specialize (H 1%nat). simpl in H. by replace (s + z) with (s + (z + 0)) by lia.
    + intros k. specialize (H (S k)). simpl in H. by replace (s + z + sum (take k zs)) with (s + (z + sum (take k zs))) by lia.
  - intros [H1 H] [|k]; simpl; [by replace (s + 0) with s by lia|].
    replace (s + (z + sum (take k zs))) with (s + z + sum (take k zs)) by lia. apply H.
Qed.

Lemma foldl_total s l n : is_i64 s -> Forall (fun v => is_number v = true) l ->
  foldl add_total (IntTotal s) l = IntTotal n <-> exists zs, l = map VInt zs /\ n = s + sum zs /\ sums_fit s zs.
Proof.
  intros R F. revert s R. induction F as [|v l V _ IH]; intros s R; simpl.
  { split.
    - intros [= <-]. exists []. split_and!; [done|simpl; lia|]. intros k. rewrite take_nil. simpl. by replace (s + 0) with s by lia.
    - intros (zs & E & -> & _). symmetry in E. apply map_eq_nil in E as ->. simpl. f_equal. lia. }
  destruct v as [| | |z|f| | | |]; try done; simpl.
  - destruct (overflows s z) eqn:O.
    + destruct (foldl_float (f64_add (f64_of_Z s) (f64_of_Z z)) l) as [g ->]. split; [done|].
      intros ([|z' zs] & E & _ & S); [done|]. simpl in E. injection E as <- _.
      apply sums_fit_cons in S as [S _]; [|done]. apply overflows_range in S; [congruence|done].
    + apply overflows_range in O; [|done]. rewrite IH by done. split.
      * intros (zs & -> & -> & S). exists (z :: zs). split_and!; [done|simpl; lia|]. by apply sums_fit_cons.
      * intros ([|z' zs] & E & -> & S); [done|]. simpl in E. injection E as <- ->. exists zs.
        apply sums_fit_cons in S as [_ S]; [|done]. split_and!; [done|simpl; lia|done].
  - destruct (foldl_float (f64_add (f64_of_Z s) f) l) as [g ->]. split; [done|]. by intros ([|? ?] & E & _).
Qed.

Lemma first_numerics keys requested : Forall (fun v => is_number v = true) (omap (first_numeric keys) requested).
Proof.
  induction requested as [|o l IH]; simpl; [done|]. destruct (first_numeric keys o) as [v|] eqn:E; [|done].
  constructor; [|done]. by apply find_some in E as [_ ?].
Qed.

(** The sum of a field over the tracks takes the first number of each: it is
    an integer exactly when every number is one and no partial sum leaves the
    range of 64 bits, and then it is the exact sum; it is absent exactly when
    no track has a number; otherwise it is a float. *)
Theorem sum_first_field_exact requested keys :
  let numbers := omap (first_numeric keys) requested in
  let exact n zs := numbers = map VInt zs /\ n = sum zs /\ sums_fit 0 zs in
  (sumFirstField requested keys = None <-> numbers = []) /\
  (forall n, sumFirstField requested keys = Some (VInt n) <-> numbers <> [] /\ exists zs, exact n zs) /\
  (numbers <> [] -> ~ (exists n zs, exact n zs) -> exists f, sumFirstField requested keys = Some (VFloat f)).
Proof.
  cbv zeta. pose proof (first_numerics keys requested) as F. unfold sumFirstField.
  assert (T : forall n, foldl add_total (IntTotal 0) (omap (first_numeric keys) requested) = IntTotal n <->
    exists zs, omap (first_numeric keys) requested = map VInt zs /\ n = sum zs /\ sums_fit 0 zs).
  { intros n. apply foldl_total; [width_lia|done]. }
  destruct (omap (first_numeric keys) requested) as [|v l]; [naive_solver|].
  destruct (foldl add_total (IntTotal 0) (v :: l)) as [m|f].
  - destruct (proj1 (T m) eq_refl) as (zs & E). split_and!; [done| |].
    + intros n. split; [intros [= ->]; naive_solver|]. intros [_ H%T]. by injection H as ->.
    + intros _ H. exfalso. naive_solver.
  - split_and!; [done| |eauto]. intros n. split; [done|]. intros [_ H%T]. done.
Qed.

(** *** Which number a track gives, and what the sum is *)

(** the value of the first of the keys that is a number; zero is one *)
Fixpoint first_number (keys : list string) (o : Object) : option Value :=
  match keys with
  | [] => None
  | key :: keys =>
      match Lookup o (lit key) with
      | VInt z => Some (VInt z)
      | VFloat f => Some (VFloat f)
      | _ => first_number keys o
      end
  end.

Definition float_of (v : Value) : float64 :=
  match v with VInt z => f64_of_Z z | VFloat f => f | _ => f64_zero end.

(** nothing without a number; the exact sum of integers while every partial sum
    fits; and from the first number on that is a float or does not fit, the
    binary64 additions in order *)
Inductive sums_to : list Value -> option Value -> Prop :=
| sum_none : sums_to [] None
| sum_int zs : zs <> [] -> sums_fit 0 zs -> sums_to (map VInt zs) (Some (VInt (sum zs)))
| sum_float zs v rest : sums_fit 0 zs -> ~ (exists z, v = VInt z /\ is_i64 (sum zs + z)) ->
    sums_to (map VInt zs ++ v :: rest) (Some (VFloat (foldl f64_add (f64_of_Z (sum zs)) (map float_of (v :: rest))))).

Lemma first_numeric_number keys o : first_numeric (map lit keys) o = first_number keys o.
Proof.
  unfold first_numeric. induction keys as [|key keys IH]; [done|]. simpl. by destruct (Lookup o (lit key)).
Qed.

Lemma sum_app a b : sum (a ++ b) = sum a + sum b.
Proof. induction a as [|z a IH]; simpl; lia. Qed.

Lemma sums_fit_snoc zs z : sums_fit 0 zs -> is_i64 (sum zs + z) -> sums_fit 0 (zs ++ [z]).
Proof.
  intros S R k. destruct (decide (k <= length zs)%nat) as [K|K].
  - rewrite take_app_le by done. apply S.
  - rewrite take_ge by (rewrite length_app; simpl; lia). rewrite sum_app. simpl. by replace (0 + (sum zs + (z + 0))) with (sum zs + z) by lia.
Qed.

Lemma sums_fit_all zs : sums_fit 0 zs -> is_i64 (sum zs).
Proof. intros S. specialize (S (length zs)). by rewrite firstn_all in S. Qed.

Lemma foldl_float_sum l f : Forall (fun v => is_number v = true) l ->
  foldl add_total (FloatTotal f) l = FloatTotal (foldl f64_add f (map float_of l)).
Proof. intros F. revert f. induction F as [|v l V _ IH]; intros f; [done|]. simpl. destruct v; try done; apply IH. Qed.

(** the total behind the integers [zs] and the numbers [l] *)
Definition total_of (zs : list Z) (l : list Value) (t : total) : Prop :=
  match t with
  | IntTotal n => exists zs', l = map VInt zs' /\ sums_fit 0 (zs ++ zs') /\ n = sum (zs ++ zs')
  | FloatTotal f => exists zs' v rest, l = map VInt zs' ++ v :: rest /\ sums_fit 0 (zs ++ zs') /\
      ~ (exists z, v = VInt z /\ is_i64 (sum (zs ++ zs') + z)) /\
      f = foldl f64_add (f64_of_Z (sum (zs ++ zs'))) (map float_of (v :: rest))
  end.

Lemma foldl_total_of l zs : Forall (fun v => is_number v = true) l -> sums_fit 0 zs ->
  total_of zs l (foldl add_total (IntTotal (sum zs)) l).
Proof.
  intros F. revert zs. induction F as [|v l V F IH]; intros zs S.
  { exists []. rewrite app_nil_r. done. }
  pose proof (sums_fit_all _ S) as R. destruct v as [| | |z|f| | | |]; try done; cbn [foldl add_total].
  - destruct (overflows (sum zs) z) eqn:O.
    + rewrite foldl_float_sum by done. exists [], (VInt z), l. rewrite app_nil_r. split_and!; try done.
      intros (z' & [= <-] & Hz). apply overflows_range in Hz; [congruence|done].
    + apply overflows_range in O; [|done]. specialize (IH (zs ++ [z]) (sums_fit_snoc _ _ S O)).
      rewrite sum_app in IH. simpl in IH. replace (sum zs + (z + 0)) with (sum zs + z) in IH by lia.
      destruct (foldl add_total (IntTotal (sum zs + z)) l); simpl in *.
      * destruct IH as (zs' & -> & S' & ->). exists (z :: zs'). rewrite <- app_assoc in *. done.
      * destruct IH as (zs' & v & rest & -> & S' & N & ->). exists (z :: zs'), v, rest. rewrite <- app_assoc in *. done.
  - rewrite foldl_float_sum by done. exists [], (VFloat f), l. rewrite app_nil_r. split_and!; try done. by intros (z & ? & _).
Qed.

Lemma sumFirstField_spec requested keys :
  sums_to (omap (first_number keys) requested) (sumFirstField requested (map lit keys)).
Proof.
  assert (E : omap (first_number keys) requested = omap (first_numeric (map lit keys)) requested).
  { induction requested as [|o l IH]; [done|]. simpl. rewrite first_numeric_number.
    destruct (first_number keys o); [f_equal|]; exact IH. }
  rewrite E. clear E. unfold sumFirstField. pose proof (first_numerics (map lit keys) requested) as F.
  destruct (omap (first_numeric (map lit keys)) requested) as [|v l]; [constructor|].
  assert (S : sums_fit 0 []) by (intros k; rewrite take_nil; simpl; width_lia).
  pose proof (foldl_total_of (v :: l) [] F S) as T. change (sum []) with 0 in T.
  destruct (foldl add_total (IntTotal 0) (v :: l)).
  - destruct T as (zs & El & S' & ->). rewrite El. apply (sum_int zs); [by intros ->|done].
  - destruct T as (zs & w & rest & El & S' & N & ->). rewrite El. by apply (sum_float zs).
Qed.

(** ** Copied fields *)

Lemma set_field_indexed key v o : indexed o -> indexed (set_field key v o).
Proof. apply Object_Set_indexed. Qed.
#[local] Hint Resolve set_field_indexed : core.

Lemma Lookup_set_field key v o k :
  indexed o -> Lookup (set_field key v o) k = if bool_decide (lit key = k) then v else Lookup o k.
Proof. apply Lookup_Set. Qed.

Definition copied (source : Object) (k : bytes) : Value :=
  if is_absent (Lookup source k) then Null else Lookup source k.

Lemma Lookup_copy source keys target k : indexed target ->
  indexed (foldl (copyFieldIfPresent source) target keys) /\
  Lookup (foldl (copyFieldIfPresent source) target keys) k =
    if bool_decide (k ∈ map lit keys) then copied source k else Lookup target k.
Proof.
  revert target. induction keys as [|key keys IH]; intros target I; simpl; [done|].
  destruct (IH (copyFieldIfPresent source target key)) as [I' ->]; [by apply set_field_indexed|]. split; [done|].
  unfold copyFieldIfPresent. rewrite Lookup_set_field by done.
  destruct (decide (lit key = k)) as [<-|N].
  - rewrite (bool_decide_true (_ ∈ _ :: _)), (bool_decide_true (lit key = lit key)) by (done || apply list_elem_of_here).
    by case_bool_decide.
  - rewrite (bool_decide_false (lit key = k)) by done.
    rewrite (bool_decide_ext (k ∈ lit key :: map lit keys) (k ∈ map lit keys)); [done|].
    rewrite elem_of_cons. naive_solver.
Qed.

Section Merged.
Context {LT : UnicodeTables} {AC : AuthorityCheck} {FC : FloatConversion}.

(** what promotion does to a field *)
Definition promoted (keys : list string) (tracks : list Object) (target : Object) (k : bytes) : Value :=
  match tracks with
  | [only] => if bool_decide (k ∈ map lit keys) then copied only k else Lookup target k
  | _ => Lookup target k
  end.

Lemma promote_audio tracks target k : indexed target ->
  Lookup (promote copyAudioFields tracks target) k = promoted audio_fields tracks target k.
Proof. intros I. destruct tracks as [|o [|? ?]]; try done. by apply Lookup_copy. Qed.

Lemma promote_video tracks target k : indexed target ->
  indexed (promote copyVideoFields tracks target) /\
  (k <> lit "resolution" -> Lookup (promote copyVideoFields tracks target) k = promoted video_fields tracks target k).
Proof.
  intros I. destruct tracks as [|o [|? ?]]; try done. simpl. unfold copyVideoFields.
  destruct (Lookup_copy o video_fields target k I) as [I' L]. split; [auto|]. intros N.
  rewrite Lookup_set_field, bool_decide_false by done. exact L.
Qed.

(** the fields of the dictionary before promotion *)
Definition merged_fields (requested : list Object) (prepared : Prepared) (ext : bytes) : list (string * Value) :=
  [("requested_formats", VList (map VObject requested));
   ("format", VString (joinNonEmptyField requested "format"));
   ("format_id", VString (joinNonEmptyField requested "format_id"));
   ("ext", VString ext);
   ("protocol", VString (joinProtocols requested (Lookup (p_info prepared) (lit "is_live"))));
   ("language", if bool_decide (joinUniqueField requested "language" = []) then Null
                else VString (joinUniqueField requested "language"));
   ("format_note", if bool_decide (joinUniqueField requested "format_note" = []) then Null
                   else VString (joinUniqueField requested "format_note"));
   ("filesize_approx", default Null (sumFirstField requested [lit "filesize"; lit "filesize_approx"]));
   ("tbr", default (VInt 0) (sumFirstField requested [lit "tbr"; lit "vbr"; lit "abr"]))]%string.

Definition set_all (fs : list (string * Value)) (target : Object) : Object :=
  foldl (fun o f => set_field f.1 f.2 o) target fs.

Lemma set_all_indexed fs target : indexed target -> indexed (set_all fs target).
Proof. revert target. induction fs as [|f fs IH]; intros target I; simpl; auto. Qed.

Lemma Lookup_set_all_other fs target k :
  indexed target -> k ∉ map (fun f => lit f.1) fs -> Lookup (set_all fs target) k = Lookup target k.
Proof.
  revert target. induction fs as [|f fs IH]; intros target I N; simpl; [done|]. simpl in N.
  apply not_elem_of_cons in N as [N1 N2]. rewrite IH by auto. by rewrite Lookup_set_field, bool_decide_false by done.
Qed.

Lemma Lookup_set_all fs target key v :
  indexed target -> NoDup (map (fun f => lit f.1) fs) -> (key, v) ∈ fs -> Lookup (set_all fs target) (lit key) = v.
Proof.
  revert target. induction fs as [|f fs IH]; intros target I ND H; [by apply not_elem_of_nil in H|].
  simpl in *. apply NoDup_cons in ND as [N ND]. apply elem_of_cons in H as [<-|H]; [|by apply IH; auto].
  simpl in *. rewrite (Lookup_set_all_other fs) by auto. by rewrite Lookup_set_field, bool_decide_true by done.
Qed.

Lemma merged_is_set_all objects prepared m : Forall (fun o => value_ok (VObject o)) objects ->
  buildMergedMetadata empty_object objects prepared = Some m ->
  let video := with_codec "vcodec" objects in
  let audio := with_codec "acodec" objects in
  let preferences := if PreferFreeFormats (p_options prepared) then [lit "webm"; lit "mkv"] else [] in
  exists ext, ext ∈ allowed_containers (map (fun o => text_of o "ext") video) preferences /\
    m = promote copyAudioFields audio
          (promote copyVideoFields video (set_all (merged_fields objects prepared ext) empty_object)).
Proof.
  intros F. unfold buildMergedMetadata. cbv zeta.
  replace (map Object_Clone objects) with objects
    by (symmetry; induction F as [|o l V _ IH]; simpl; [done|by rewrite IH, Object_Clone_ok]).
  match goal with |- context [compatibleExtension ?v ?a ?ve ?ae ?pr] =>
    destruct (compatibleExtension_allowed v a ve ae pr) as (ext & -> & A); [by rewrite !length_map..|] end.
  intros [= <-]. exists ext. split; [exact A|]. unfold setStringOrNull, set_all, merged_fields.
  cbn [foldl fst snd]. reflexivity.
Qed.

(** ** The dictionary of a merge *)

Lemma promoted_none keys tracks target k : k ∉ map lit keys -> promoted keys tracks target k = Lookup target k.
Proof. intros N. destruct tracks as [|o [|? ?]]; try done. simpl. by rewrite bool_decide_false. Qed.

Definition merged_keys : list bytes :=
  map lit ["requested_formats"; "format"; "format_id"; "ext"; "protocol"; "language"; "format_note";
           "filesize_approx"; "tbr"]%string.

Lemma merged_fields_keys requested prepared ext :
  map (fun f => lit f.1) (merged_fields requested prepared ext) = merged_keys.
Proof. reflexivity. Qed.

Lemma merged_keys_apart :
  NoDup merged_keys /\
  Forall (fun k => k <> lit "resolution" /\ k ∉ map lit video_fields /\ k ∉ map lit audio_fields) merged_keys /\
  Forall (fun k => k <> lit "resolution" /\ k ∉ map lit audio_fields /\ k ∉ merged_keys) (map lit video_fields) /\
  Forall (fun k => k <> lit "resolution" /\ k ∉ map lit video_fields /\ k ∉ merged_keys) (map lit audio_fields).
Proof. decided. Qed.

(** a field of the whole dictionary *)
Lemma Lookup_promoted audio video base k : indexed base -> k <> lit "resolution" ->
  Lookup (promote copyAudioFields audio (promote copyVideoFields video base)) k =
  match audio with
  | [only] => if bool_decide (k ∈ map lit audio_fields) then copied only k else promoted video_fields video base k
  | _ => promoted video_fields video base k
  end.
Proof.
  intros I N. destruct (promote_video video base k I) as [I' L]. rewrite promote_audio by done.
  unfold promoted at 1. by rewrite L.
Qed.

(** What the metadata [m] of a merge of [objects] say, whatever is promoted.
    The fields are described from the formats alone: the labels are the texts
    of the formats joined by a plus sign, languages and notes each once and null
    without one, the protocols those of the tracks, and the sums run over the
    first number that each format has. *)
Record merged_spec (objects : list Object) (live : bool) (containers : list bytes) (m : Object) : Prop := {
  ms_formats : Lookup m (lit "requested_formats") = VList (map VObject objects);
  ms_labels : Forall (fun key => Lookup m (lit key) = VString (plus_joined (omap (text_at key) objects))) ["format"; "format_id"]%string;
  ms_unique : Forall (fun key => Lookup m (lit key) = label_or_null (first_occurrences (omap (text_at key) objects)))
                ["language"; "format_note"]%string;
  ms_ext : exists ext, ext ∈ containers /\ Lookup m (lit "ext") = VString ext;
  ms_protocol : exists ps, Forall2 (track_protocol live) objects ps /\ Lookup m (lit "protocol") = VString (plus_joined (omap id ps));
  ms_size : exists v, sums_to (omap (first_number ["filesize"; "filesize_approx"]%string) objects) v /\
              Lookup m (lit "filesize_approx") = default Null v;
  ms_rate : exists v, sums_to (omap (first_number ["tbr"; "vbr"; "abr"]%string) objects) v /\
              Lookup m (lit "tbr") = default (VInt 0) v
}.

Lemma merged_fields_spec objects prepared ext containers m :
  ext ∈ containers -> Forall (fun f => Lookup m (lit f.1) = f.2) (merged_fields objects prepared ext) ->
  merged_spec objects (default false (Value_Bool (Lookup (p_info prepared) (lit "is_live")))) containers m.
Proof.
  intros A F. unfold merged_fields in F. rewrite !setStringOrNull_spec, !joinNonEmptyField_spec in F.
  repeat (let H := fresh "H" in apply Forall_cons in F as [H F]; simpl in H).
  destruct (joinProtocols_spec objects (Lookup (p_info prepared) (lit "is_live"))) as (ps & P & E). rewrite E in *.
  split; try done.
  - by repeat constructor.
  - by repeat constructor.
  - by exists ext.
  - by exists ps.
  - eexists. split; [apply sumFirstField_spec|done].
  - eexists. split; [apply sumFirstField_spec|done].
Qed.


(** The metadata of a single track are a copy of its format. *)
Lemma single_metadata o prepared :
  value_ok (VObject o) -> planMetadataFor [o] prepared = Some o.
Proof.
  intros V. simpl. f_equal. unfold buildSingleTrackMetadata. rewrite Object_Clone_ok by done.
  destruct V as [I _]. apply indexed_eq; [|done|].
  - change (indexed (NewObject (fields o))). apply NewObject_indexed.
  - rewrite foldl_Set_fields; [done|apply empty_object_indexed|]. by apply indexed_NoDup.
Qed.

End Merged.
