(* ===== verification/Plan.v ===== *)
(** * Output plans ([internal/format/eval.go], [select.go], [selector.go], [ast.go])

    [PlanWithOptions] evaluates a selector on the prepared formats and builds,
    for every output, the selections of its tracks and its metadata.  A
    reference of the evaluator is the place of a format in the canonical list;
    after [Prepare] every place has an object of its own. *)
From S2P Require Import Prelude GoStrings Headers Runes Value FilterNumber Filter Decimal Float64 Regex SortSettings SortOptions Sorter SorterValues Selection Selector Normalize Evaluate Output PlanMetadata.

#[local] Open Scope nat_scope.

(** [Metadata] is [None] where its construction panics *)
Record OutputPlan := mkPlan { Tracks : list Selection; Metadata : option Object }.

Definition OutputPlan_PlanID (plan : OutputPlan) : bytes := PlanID (map sel_ID (Tracks plan)).

Definition OutputPlan_DestinationSuffix (plan : OutputPlan) (planIndex : Z) : bytes :=
  DestinationSuffix (map sel_ID (Tracks plan)) planIndex.

Record EvaluationOptions := mkEvaluation { Availability : option FormatAvailability }.

Section Plan.
Context {UT : RuneTables} {LT : UnicodeTables} {CT : CaseTables} {DT : DigitTables} {RE : RegexEngine}.
Context {AC : AuthorityCheck} {FC : FloatConversion}.

(** ** Prepared formats *)

Definition object_at (prepared : Prepared) (r : ref) : Object :=
  match p_formats prepared !! r with Some f => nf_Object f | None => empty_object end.

Definition refs (prepared : Prepared) : list ref := seq 0 (length (p_formats prepared)).

Definition Prepared_Info (prepared : Prepared) : Object := p_info prepared.

(** the objects of the list, where it has them *)
Fixpoint rebind (formats : list normalizedFormat) (list : list Value) : Datatypes.list normalizedFormat :=
  match formats, list with
  | f :: formats', VObject object :: list' => f <| nf_Object := object |> :: rebind formats' list'
  | f :: formats', _ :: list' => f :: rebind formats' list'
  | _, _ => formats
  end.

Definition SyncInfo (prepared : Prepared) (info : Object) : Prepared :=
  let formats := p_formats prepared in
  mkPrepared info
    match Lookup info (lit "formats") with
    | Missing | Null => match formats with [f] => [f <| nf_Object := info |>] | _ => formats end
    | VList list => rebind formats list
    | _ => formats
    end (p_options prepared).

(** ** Plans *)

Definition track_selection (prepared : Prepared) (r : ref) : res Selection :=
  let object := object_at prepared r in
  selection ← objectSelection object;
  let selection :=
    match p_formats prepared !! r with
    | Some item => setNormalizedFormatIndex (setSourceFormatIndex selection (nf_Source item)) (nf_Index item)
    | None => selection
    end in
  headers ← mergeHeaders [Lookup (p_info prepared) (lit "http_headers"); Lookup object (lit "http_headers")];
  Ok (selection <| sel_Headers := headers |>).

Fixpoint track_selections (prepared : Prepared) (ts : tracks) : res (list Selection) :=
  match ts with
  | [] => Ok []
  | r :: ts' =>
      s ← track_selection prepared r;
      rest ← track_selections prepared ts';
      Ok (s :: rest)
  end.

Fixpoint build_plans (prepared : Prepared) (groups : list tracks) : res (list OutputPlan) :=
  match groups with
  | [] => Ok []
  | ts :: groups' =>
      if maxMergeTerms <? length ts then
        Err (selectorLimit 0 0 (msg "too many merge tracks in one output"))
      else
        selections ← track_selections prepared ts;
        rest ← build_plans prepared groups';
        Ok (mkPlan selections (planMetadataFor (map (object_at prepared) ts) prepared) :: rest)
  end.

Definition PlanWithOptions (prepared : Prepared) (selector : Selector) (evalOptions : EvaluationOptions)
  : res (list OutputPlan) :=
  if bool_decide (p_formats prepared = []) then Err ErrNoFormats
  else
    root ← rootNode selector;
    let ctx := rootContext (object_at prepared) (refs prepared) (p_options prepared) in
    '(groups, _) ← evaluateNode (object_at prepared) (Availability evalOptions) ctx root initialState;
    if bool_decide (groups = []) then Err ErrNoMatch
    else
      plans ← build_plans prepared groups;
      if maxCommaOutputs <? length plans then
        Err (selectorLimit 0 0 (msg "too many independent outputs"))
      else Ok plans.

Definition Prepared_Plan (prepared : Prepared) (selector : Selector) : res (list OutputPlan) :=
  PlanWithOptions prepared selector (mkEvaluation None).

Definition PlanSelectWithEvaluationOptions (info : Object) (selector : Selector) (formatOptions : Options)
    (evaluationOptions : EvaluationOptions) : res (list OutputPlan) :=
  prepared ← Prepare info formatOptions;
  PlanWithOptions prepared selector evaluationOptions.

Definition PlanSelectWithOptions (info : Object) (selector : Selector) (options : Options)
  : res (list OutputPlan) :=
  PlanSelectWithEvaluationOptions info selector options (mkEvaluation None).

Definition PlanSelect (info : Object) (selector : Selector) : res (list OutputPlan) :=
  PlanSelectWithOptions info selector zeroOptions.

(** the tracks of the only plan *)
Definition single_output (plans : list OutputPlan) : res (list Selection) :=
  match plans with
  | [plan] => Ok (Tracks plan)
  | _ => Err ErrMultiOutput
  end.

Definition SelectWithOptions (info : Object) (selector : Selector) (options : Options) : res (list Selection) :=
  plans ← PlanSelectWithOptions info selector options;
  single_output plans.

Definition Select (info : Object) (selector : Selector) : res (list Selection) :=
  SelectWithOptions info selector zeroOptions.

(** ** The default selection *)

Definition DefaultWithContext (prepared : Prepared) (capabilities : PlannerCapabilities)
    (context : DefaultSelectorContext) (evaluationOptions : EvaluationOptions) : res (list OutputPlan) :=
  selector ← ParseSelector (DefaultSelectorSpec capabilities context (p_options prepared));
  PlanWithOptions prepared selector evaluationOptions.

Definition Prepared_Default (prepared : Prepared) : res (list Selection) :=
  plans ← DefaultWithContext prepared (mkCapabilities true false) (mkDefaultContext false false false)
            (mkEvaluation None);
  single_output plans.

Definition Default (info : Object) (options : Options) : res (list Selection) :=
  prepared ← Prepare info options;
  Prepared_Default prepared.

(** ** The first playable format *)

Definition unplayable (object : Object) : bool :=
  negb (flag_of object "_youtube_sabr") && bool_decide (text_of object "url" = []).

Fixpoint best_of (info : Object) (formats : list normalizedFormat) : res Selection :=
  match formats with
  | [] => Err ErrNoFormats
  | candidate :: formats' =>
      let object := nf_Object candidate in
      if unplayable object then best_of info formats'
      else
        headers ← mergeHeaders [Lookup info (lit "http_headers"); Lookup object (lit "http_headers")];
        selection ← objectSelection object;
        let selection := selection <| sel_Headers := headers |> in
        Ok (setNormalizedFormatIndex (setSourceFormatIndex selection (nf_Source candidate)) (nf_Index candidate))
  end.

Definition Prepared_Best (prepared : Prepared) : res Selection := best_of (p_info prepared) (p_formats prepared).

Definition Best (info : Object) : res Selection :=
  prepared ← Prepare info zeroOptions;
  Prepared_Best prepared.

End Plan.
