(* ===== verification/PlanFacts.v ===== *)
(** * Properties of output plans

    Every track of a plan is a format that was offered, with its place and its
    identifier; the metadata of a plan describe its tracks. *)
From Stdlib Require Import Sorting.Permutation.
From S2P Require Import Prelude GoStrings Headers Runes Value FilterNumber Filter Decimal Float64 Regex SortSettings SortOptions Sorter SorterValues Ordering Selection SelectionFacts Selector Normalize Evaluate EvaluateFacts NormalizeFacts Output PlanMetadata Plan.

#[local] Open Scope nat_scope.

Section Plans.
Context {UT : RuneTables} {LT : UnicodeTables} {CT : CaseTables} {DT : DigitTables} {RE : RegexEngine}.
Context {AC : AuthorityCheck} {FC : FloatConversion}.

(** ** The tracks of a plan *)

Lemma objectSelection_ID object s : objectSelection object = Ok s -> sel_ID s = text_of object "format_id".
Proof.
  unfold objectSelection. intros (hosts & _ & ([[identity e] key] & _ & H)%bind_Ok_iff)%bind_Ok_iff.
  apply Ok_inj in H as <-. destruct (bool_decide _), (flag_of object "_youtube_sabr") eqn:F; simpl; by rewrite F.
Qed.

(** the selection [s] is that of the format [f] *)
Definition selects (p : Prepared) (f : normalizedFormat) (s : Selection) : Prop :=
  sel_ID s = nf_ID f /\ sel_sourceIndex s = nf_Source f /\ sel_sourceKnown s = true /\
  sel_normalizedIndex s = nf_Index f /\ sel_normalizedKnown s = true /\
  mergeHeaders [Lookup (p_info p) (lit "http_headers"); Lookup (nf_Object f) (lit "http_headers")] = Ok (sel_Headers s).

Lemma track_selection_sound p r f s :
  p_formats p !! r = Some f -> well_labelled f -> track_selection p r = Ok s -> selects p f s.
Proof.
  intros F [L _]. unfold track_selection, object_at. rewrite F.
  intros (s0 & S & (h & Hh & <-%Ok_inj)%bind_Ok_iff)%bind_Ok_iff.
  apply objectSelection_ID in S. unfold selects. simpl. split_and!; try done. rewrite S.
  destruct L as (L & _). unfold text_of. by rewrite L.
Qed.

Lemma track_selections_Forall2 p ts ss :
  track_selections p ts = Ok ss -> Forall2 (fun r s => track_selection p r = Ok s) ts ss.
Proof.
  revert ss. induction ts as [|r ts IH]; intros ss; simpl; [by intros <-%Ok_inj|].
  intros (s & S & (rest & R & <-%Ok_inj)%bind_Ok_iff)%bind_Ok_iff. constructor; [done|]. by apply IH.
Qed.

Lemma build_plans_Forall2 p groups plans :
  build_plans p groups = Ok plans ->
  Forall2 (fun ts plan => track_selections p ts = Ok (Tracks plan) /\
                          Metadata plan = planMetadataFor (map (object_at p) ts) p) groups plans.
Proof.
  revert plans. induction groups as [|ts groups IH]; intros plans; simpl; [by intros <-%Ok_inj|].
  destruct (_ <? _); [done|]. intros (ss & S & (rest & R & <-%Ok_inj)%bind_Ok_iff)%bind_Ok_iff.
  constructor; [done|]. by apply IH.
Qed.

(** ** Metadata always exist *)

Lemma merged_metadata_defined target objects p :
  exists m, buildMergedMetadata target objects p = Some m.
Proof.
  unfold buildMergedMetadata. cbv zeta.
  match goal with |- context [compatibleExtension ?v ?a ?ve ?ae ?pr] =>
    destruct (compatibleExtension_allowed v a ve ae pr) as (ext & -> & _); [by rewrite !length_map..|] end.
  eexists. reflexivity.
Qed.

Lemma metadata_defined objects p : exists m, planMetadataFor objects p = Some m.
Proof. destruct objects as [|o [|o' l]]; simpl; [eauto..|apply merged_metadata_defined]. Qed.

(** ** Plans are sound *)

(** a plan for the tracks [ts], each an available format of [p] that was offered *)
Record plan_for (info : Object) (opts : Options) (available : ref -> bool) (p : Prepared)
    (ts : tracks) (plan : OutputPlan) : Prop := {
  pf_length : 1 <= length ts <= maxMergeTerms;
  pf_streams : streams_ok (object_at p) opts ts;
  pf_tracks : Forall2 (fun r s => exists f,
    p_formats p !! r = Some f /\ available r = true /\ selects p f s /\
    comes_from opts (offered_formats info) (nf_Source f) (nf_Object f)) ts (Tracks plan);
  pf_metadata : exists m, Metadata plan = Some m /\ planMetadataFor (map (object_at p) ts) p = Some m
}.

Lemma Prepare_options info opts p : Prepare info opts = Ok p -> p_options p = opts.
Proof.
  unfold Prepare, prepareFormats. intros (? & _ & ([raw implicit] & _ & H)%bind_Ok_iff)%bind_Ok_iff.
  destruct (_ <? _); [done|]. apply bind_Ok_iff in H as (filtered & _ & H).
  destruct filtered as [|[first i0] filtered]; [destruct implicit; [by apply Ok_inj in H as <-|done]|].
  by apply bind_Ok_iff in H as (ordered & _ & (formats & _ & <-%Ok_inj)%bind_Ok_iff).
Qed.

Lemma plan_sound info opts available p input selector ev plans :
  value_ok (VObject info) -> Prepare info opts = Ok p -> ParseSelector input = Ok selector ->
  stable (Availability ev) available -> PlanWithOptions p selector ev = Ok plans ->
  1 <= length plans <= maxCommaOutputs /\
  Forall (fun plan => exists ts, plan_for info opts available p ts plan) plans.
Proof.
  intros V P S St. unfold PlanWithOptions. pose proof (Prepare_options _ _ _ P) as EO.
  apply (prepare_facts info opts p V) in P as (_ & _ & _ & PF). case_bool_decide as N0; [done|]. clear N0.
  intros (root & R & ([groups st] & G & H)%bind_Ok_iff)%bind_Ok_iff. cbv beta iota in H.
  case_bool_decide as NE; [done|]. apply bind_Ok_iff in H as (plans' & B & H).
  destruct (_ <? _) eqn:L; [done|]. apply Ok_inj in H as ->. apply Nat.ltb_ge in L.
  destruct (ParseSelector_ok _ _ S) as (root' & SR & _). unfold rootNode in R. rewrite SR in R. apply Ok_inj in R as ->.
  pose proof (parsed_outputs _ _ available input selector root _ _ groups st S ltac:(by rewrite SR) St G) as O.
  apply build_plans_Forall2 in B. split.
  - split; [|done]. rewrite <- (Forall2_length _ _ _ B). destruct groups; [done|]. simpl. lia.
  - rewrite EO in O. clear NE L G. induction B as [|ts plan groups plans [T M] _ IH]; [done|].
    apply Forall_cons in O as [(LT' & F & SO) O]. constructor; [|by apply IH]. exists ts. split; try done.
    + apply track_selections_Forall2 in T. clear - T F PF. induction T as [|r s ts ss E _ IH]; [done|].
      apply Forall_cons in F as [[I A] F]. constructor; [|by apply IH].
      apply elem_of_seq in I. destruct (p_formats p !! r) as [f|] eqn:Ef;
        [|by apply lookup_ge_None in Ef; lia].
      exists f. destruct (PF r f Ef) as (_ & W & C). split_and!; [done..| |done]. by eapply track_selection_sound.
    + rewrite M. destruct (metadata_defined (map (object_at p) ts) p) as [m E]. eauto.
Qed.


(** ** Synchronization *)

Lemma rebind_same (l : list normalizedFormat) : rebind l (map (fun f => VObject (nf_Object f)) l) = l.
Proof. induction l as [|[]]; simpl; [done|]. by f_equal. Qed.

Lemma formats_not_derived : lit "formats" ∉ derived_fields.
Proof. decided. Qed.

Lemma each_length step l l' : each step l = Ok l' -> length l' = length l.
Proof. intros H%each_Forall2. symmetry. by eapply Forall2_length. Qed.

Lemma assign_ids_length l l' : assign_ids l = Ok l' -> length l' = length l.
Proof.
  unfold assign_ids. intros (l1 & E1 & (l2 & E2 & (l3 & E3 & H)%bind_Ok_iff)%bind_Ok_iff)%bind_Ok_iff.
  destruct (_ <? _)%Z; [done|]. apply Ok_inj in H as <-.
  by rewrite (each_length _ _ _ E3), (each_length _ _ _ E2), (each_length _ _ _ E1).
Qed.

Lemma order_formats_length options canonical l l' :
  order_formats options canonical l = Ok l' -> length l' = length l.
Proof.
  unfold order_formats. intros (xs & _ & (sr & _ & <-%Ok_inj)%bind_Ok_iff)%bind_Ok_iff.
  unfold number_formats. rewrite length_imap.
  match goal with |- length (sortStable sr ?m) = _ =>
    assert (P : Permutation m (sortStable sr m)) by apply sort_Permutation end.
  apply Permutation_length in P. rewrite <- P. apply length_map.
Qed.

(** whether the metadata are themselves the format *)
Lemma raw_formats_implicit info raw : raw_formats info = Ok (raw, true) ->
  raw = [VObject info] /\ is_absent (Lookup info (lit "formats")) = true.
Proof. unfold raw_formats. destruct (Lookup _ _) as [| | | | | | |[]|]; try done; intros [= <-]; done. Qed.

(** Synchronizing a prepared view with its own metadata changes nothing: the
    metadata hold, in order, the objects that selectors are evaluated on. *)
Theorem sync_own_info info opts p :
  value_ok (VObject info) -> Prepare info opts = Ok p -> SyncInfo p (Prepared_Info p) = p.
Proof.
  intros V P. pose proof (prepare_facts info opts p V P) as (_ & _ & _ & PF).
  unfold Prepare, prepareFormats in P. apply bind_Ok_iff in P as (? & _ & P). rewrite Object_Clone_ok in P by done.
  apply bind_Ok_iff in P as ([raw implicit] & R & P). unfold offered_formats in PF. rewrite R in PF.
  destruct (_ <? _); [done|]. apply bind_Ok_iff in P as (filtered & F & P).
  destruct filtered as [|[first i0] filtered].
  { destruct implicit; [|done]. apply Ok_inj in P as <-. unfold SyncInfo. simpl. f_equal. by case_match. }
  apply bind_Ok_iff in P as (ordered & O & (formats & A & <-%Ok_inj)%bind_Ok_iff).
  unfold SyncInfo, Prepared_Info. simpl. f_equal. destruct implicit.
  - apply raw_formats_implicit in R as [-> AB]. apply filter_formats_length in F.
    apply assign_ids_length in A. rewrite (order_formats_length _ _ _ _ O) in A. simpl in *.
    destruct formats as [|f [|? ?]]; simpl in *; try lia.
    destruct (PF 0 f eq_refl) as (_ & _ & _ & _ & o & OF & K).
    assert (o = info) as ->.
    { unfold offered in OF. destruct (nf_Source f); simpl in OF; [by injection OF|done]. }
    rewrite (K _ formats_not_derived). by destruct f, (Lookup info (lit "formats")).
  - rewrite Lookup_Set, bool_decide_true by (done || apply V). apply rebind_same.
Qed.

End Plans.
