(* ===== verification/PlanExamples.v ===== *)
(** * Plans of a small page

    The theorems on plans, metadata and synchronization applied to a page with
    a video track, an audio track and a combined format. *)
From S2P Require Import Prelude GoStrings Headers Runes Value FilterNumber Filter Decimal Float64 Regex SortSettings SortOptions Sorter SorterValues Selection SelectionFacts Selector Normalize Evaluate EvaluateFacts SelectionExamples NormalizeFacts Output PlanMetadata MetadataSpec MetadataFacts Plan PlanFacts.

#[local] Open Scope nat_scope.

#[local] Existing Instances page_runes page_lower page_case page_digits literal_engine.
#[local] Instance any_authority : AuthorityCheck := {| authority_ok := fun _ => true |}.
#[local] Instance amd64_conversion : FloatConversion := {| int64_out_of_range := fun _ => MinInt64 |}.

Definition clip_format (id v a : string) (height size : Z) : Value :=
  VObject (NewObject [mkField (lit "format_id") (VString (lit id)); mkField (lit "vcodec") (VString (lit v));
                      mkField (lit "acodec") (VString (lit a)); mkField (lit "height") (VInt height);
                      mkField (lit "ext") (VString (lit "mp4")); mkField (lit "filesize") (VInt size);
                      mkField (lit "url") (VString (lit "https://media.example/v"))]).

Definition clip_info : Object :=
  NewObject [mkField (lit "id") (VString (lit "clip"));
             mkField (lit "formats") (VList
               [clip_format "22" "avc1" "mp4a" 720 10; clip_format "137" "avc1" "none" 1080 30;
                clip_format "140" "none" "mp4a" 0 3])].

Lemma clip_info_ok : value_ok (VObject clip_info).
Proof.
  apply NewObject_ok; [decided|]. split; [done|]. split; [|done].
  repeat (split; [apply NewObject_ok; [decided|done]|]). done.
Qed.

Definition clip : Prepared := from_Ok (mkPrepared clip_info [] zeroOptions) (Prepare clip_info zeroOptions).

Lemma clip_prepared : Prepare clip_info zeroOptions = Ok clip.
Proof. apply from_Ok_eq. vm_compute. reflexivity. Qed.

Definition clip_selector : Selector := from_Ok (mkSelector None []) (ParseSelector (lit "bv+ba/b,b")).

Definition clip_plans : list OutputPlan := from_Ok [] (PlanSelect clip_info clip_selector).

(** two outputs: the merged pair and the combined format *)
Example clip_outputs :
  map (fun plan => map (fun s => (sel_ID s, sel_sourceIndex s)) (Tracks plan)) clip_plans =
  [[(lit "137", 1); (lit "140", 2)]; [(lit "22", 0)]].
Proof. vm_compute. reflexivity. Qed.

Example clip_sizes :
  map (fun plan => (fun m => Lookup m (lit "filesize_approx")) <$> Metadata plan) clip_plans =
  [Some (VInt 33); Some Missing].
Proof. vm_compute. reflexivity. Qed.


Lemma sync_own_info_witness : SyncInfo clip (Prepared_Info clip) = clip.
Proof. apply (sync_own_info clip_info zeroOptions clip); [exact clip_info_ok|exact clip_prepared]. Defined.

(** the two tracks of the merge *)
Definition pair : list Object :=
  map (fun v => match v with VObject o => o | _ => empty_object end)
    [clip_format "137" "avc1" "none" 1080 30; clip_format "140" "none" "mp4a" 0 3].

Definition pair_metadata : Object := default empty_object (buildMergedMetadata empty_object pair clip).

Lemma pair_metadata_ok : buildMergedMetadata empty_object pair clip = Some pair_metadata.
Proof.
  unfold pair_metadata. destruct (buildMergedMetadata empty_object pair clip) as [m|] eqn:E; [done|].
  destruct (merged_metadata_defined empty_object pair clip) as [m M]. congruence.
Qed.

(** A playlist on a web server, its extension in capitals. *)
Example playlist_protocol :
  let url := lit "HTTPS://media.example/live/INDEX.M3U8?part=1" in
  web_url url (lit "HTTPS") (lit "media.example") (lit "/live/INDEX.M3U8") (lit "?part=1") /\
  named (lit "/live/INDEX.M3U8") "m3u8" /\ inferProtocolFromURL url false = lit "m3u8_native".
Proof.
  split_and!; [|by exists (lit "/live/INDEX"), (lit "M3U8"); split_and!; decided|by vm_compute].
  split; [done|split; [done|decided]|split; [done|decided]|split; [done|decided]|split; [done|decided]|by vm_compute].
Qed.

(** Integers are added exactly until the sum leaves 64 bits. *)
Example sums_leave_integers :
  let size n := NewObject [mkField (lit "filesize") (VInt n)] in
  sumFirstField [size 5%Z; size 0%Z; size 7%Z] [lit "filesize"] = Some (VInt 12) /\
  sumFirstField [size MaxInt64; size 1%Z] [lit "filesize"] = Some (VFloat (f64_add (f64_of_Z MaxInt64) (f64_of_Z 1))).
Proof. split; vm_compute; reflexivity. Qed.


(** [Best] takes the first format of the canonical order, which is from worst
    to best: on this page the audio track, and not the 1080p video. *)
Example best_takes_first : (match Best clip_info with Ok s => sel_ID s | Err _ => [] end) = lit "140".
Proof. vm_compute. reflexivity. Qed.
