(* ===== verification/FilePath.v ===== *)
(** * File paths

    What the engine uses of [path/filepath] on Unix: [Clean], [Join], [Dir],
    [Base], [Abs] and [Rel].  A path is its bytes; a cleaned path is whether it
    starts at the root and its components, and each function renders them back. *)
From S2P Require Import Prelude GoStrings Runes.

(** ** Definitions *)

Definition slash : byte := "/"%byte.
Definition dotdot : bytes := lit "..".

Definition IsAbs (path : bytes) : bool := HasPrefix path (lit "/").

(** One component of [Clean], with the components so far reversed. *)
Definition clean_step (rooted : bool) (stack : list bytes) (component : bytes) : list bytes :=
  if bool_decide (component = []) || bool_decide (component = lit ".") then stack
  else if bool_decide (component = dotdot) then
    match stack with
    | top :: below => if bool_decide (top = dotdot) then dotdot :: stack else below
    | [] => if rooted then [] else [dotdot]
    end
  else component :: stack.

Definition clean_components (rooted : bool) (path : bytes) : list bytes :=
  reverse (foldl (clean_step rooted) [] (Split path slash)).

Definition render (rooted : bool) (components : list bytes) : bytes :=
  if rooted then lit "/" ++ Runes.Join components (lit "/")
  else if bool_decide (components = []) then lit "." else Runes.Join components (lit "/").

Definition Clean (path : bytes) : bytes := render (IsAbs path) (clean_components (IsAbs path) path).

(** [filepath.Join(a, b)] *)
Definition Join2 (a b : bytes) : bytes :=
  match List.filter (fun s => negb (bool_decide (s = []))) [a; b] with
  | [] => []
  | elems => Clean (Runes.Join elems (lit "/"))
  end.

(** What follows the last separator, and what comes before it. *)
Definition after_slash (path : bytes) : bytes := List.last (Split path slash) [].
Definition up_to_slash (path : bytes) : bytes := take (length path - length (after_slash path)) path.

Definition Dir (path : bytes) : bytes := Clean (up_to_slash path).

Definition Base (path : bytes) : bytes :=
  if bool_decide (path = []) then lit "."
  else
    let base := after_slash (TrimRightByte path slash) in
    if bool_decide (base = []) then lit "/" else base.

(** [cwd] is [os.Getwd]. *)
Definition Abs {E} (cwd : result E bytes) (path : bytes) : result E bytes :=
  if IsAbs path then Ok (Clean path) else cwd ← cwd; Ok (Join2 cwd path).

(** What is left of both lists without their common prefix. *)
Fixpoint strip_common (base targ : list bytes) : list bytes * list bytes :=
  match base, targ with
  | b :: base', t :: targ' => if bool_decide (b = t) then strip_common base' targ' else (base, targ)
  | _, _ => (base, targ)
  end.

(** [filepath.Rel]; [None] is its error. *)
Definition Rel (basepath targpath : bytes) : option bytes :=
  if negb (Bool.eqb (IsAbs basepath) (IsAbs targpath)) then None
  else
    let '(base, targ) := strip_common (clean_components (IsAbs basepath) basepath)
                                      (clean_components (IsAbs targpath) targpath) in
    if bool_decide (head base = Some dotdot) && negb (bool_decide (targ = [])) then None
    else Some (render false (repeat dotdot (length base) ++ targ)).

(** ** Lemmas *)

(** Components that [Clean] keeps: no separator, not empty, [.] or [..]. *)
Definition plain (component : bytes) : Prop :=
  component <> [] /\ component <> lit "." /\ component <> dotdot /\ slash ∉ component.

Lemma Split_nonempty s c : Split s c <> [].
Proof. destruct s as [|d s]; simpl; [done|]. by repeat case_match. Qed.

Lemma Split_no_sep s c x : x ∈ Split s c -> c ∉ x.
Proof.
  revert x. induction s as [|d s IH]; intros x; simpl.
  - intros ->%list_elem_of_singleton. by apply not_elem_of_nil.
  - destruct (is_byte c d) eqn:E.
    + intros [->|?]%elem_of_cons; [by apply not_elem_of_nil|auto].
    + destruct (Split s c) as [|h t] eqn:Es; [by destruct (Split_nonempty s c)|].
      intros [->|Hx]%elem_of_cons; [|apply IH; by right].
      apply not_elem_of_cons. split; [|apply IH; by left]. intros ->. by rewrite is_byte_refl in E.
Qed.

Lemma Split_app_sep a b c : Split (a ++ c :: b) c = Split a c ++ Split b c.
Proof.
  induction a as [|d a IH]; simpl; [by rewrite is_byte_refl|]. rewrite IH. destruct (is_byte c d); [done|].
  destruct (Split a c) as [|h t] eqn:E; [by destruct (Split_nonempty a c)|done].
Qed.

Lemma Split_no a c : c ∉ a -> Split a c = [a].
Proof.
  induction a as [|d a IH]; [done|]. rewrite not_elem_of_cons. intros [Hne Ha]. simpl.
  destruct (is_byte c d) eqn:E; [by apply is_byte_true in E|]. by rewrite IH.
Qed.

Lemma Split_Join l c : l <> [] -> Forall (fun x => c ∉ x) l -> Split (Runes.Join l [c]) c = l.
Proof.
  intros Hl Hf. induction Hf as [|x l Hx Hf IH]; [done|]. destruct l as [|y l]; [by apply Split_no|].
  change (Runes.Join (x :: y :: l) [c]) with (x ++ c :: Runes.Join (y :: l) [c]).
  rewrite Split_app_sep, Split_no, IH by done. done.
Qed.

(** The components of a rooted path are plain. *)
Lemma clean_step_plain stack component :
  Forall plain stack -> slash ∉ component -> Forall plain (clean_step true stack component).
Proof.
  intros Hs Hc. unfold clean_step. destruct (_ || _) eqn:E; [done|]. reflect_bools.
  case_bool_decide as Ed; [|by constructor]. destruct Hs as [|top below [_ [_ [Ht _]]] Hs]; [done|]. by rewrite bool_decide_false.
Qed.

Lemma clean_components_plain path : Forall plain (clean_components true path).
Proof.
  unfold clean_components. apply Forall_reverse.
  assert (forall l stack, Forall plain stack -> Forall (fun x => slash ∉ x) l -> Forall plain (foldl (clean_step true) stack l)) as Hf.
  { intros l. induction l as [|x l IH]; intros stack Hs Hl; [done|]. inversion_clear Hl. simpl. apply IH; [|done]. by apply clean_step_plain. }
  apply Hf; [done|]. apply Forall_forall. intros x. apply Split_no_sep.
Qed.

(** Plain components are kept. *)
Lemma clean_step_keep rooted stack x : plain x -> clean_step rooted stack x = x :: stack.
Proof. intros (H1 & H2 & H3 & _). unfold clean_step. by rewrite !bool_decide_false. Qed.

Lemma clean_foldl_plain rooted stack l : Forall plain l -> foldl (clean_step rooted) stack l = reverse l ++ stack.
Proof.
  intros Hl. revert stack. induction Hl as [|x l Hx Hl IH]; intros stack; [done|].
  simpl. by rewrite clean_step_keep, IH, reverse_cons, <- app_assoc.
Qed.

Lemma plain_no_slash l : Forall plain l -> Forall (fun x => slash ∉ x) l.
Proof. intros Hl. eapply Forall_impl; [exact Hl|]. by intros x (_ & _ & _ & ?). Qed.

Lemma Split_Join_plain l : Forall plain l -> l <> [] -> Split (Runes.Join l (lit "/")) slash = l.
Proof. intros Hl Hne. apply (Split_Join l slash Hne). by apply plain_no_slash. Qed.

(** Cleaning a rendered path gives its components back. *)
Lemma clean_render l : Forall plain l -> clean_components true (render true l) = l.
Proof.
  intros Hl. unfold clean_components, render. destruct (decide (l = [])) as [->|Hne]; [done|].
  change (lit "/" ++ Runes.Join l (lit "/")) with ([] ++ slash :: Runes.Join l (lit "/")).
  rewrite Split_app_sep. change (Split [] slash) with [@nil byte]. rewrite Split_Join_plain by done.
  rewrite foldl_app. simpl. rewrite clean_foldl_plain by done. by rewrite app_nil_r, reverse_involutive.
Qed.

Lemma clean_render_rel l : Forall plain l -> clean_components false (render false l) = l.
Proof.
  intros Hl. unfold clean_components, render. destruct (decide (l = [])) as [->|Hne]; [done|].
  rewrite bool_decide_false by done. rewrite Split_Join_plain by done.
  rewrite clean_foldl_plain by done. by rewrite app_nil_r, reverse_involutive.
Qed.

Lemma IsAbs_render l : IsAbs (render true l) = true.
Proof. unfold IsAbs, render. apply HasPrefix_app. by eexists. Qed.

Lemma strip_common_spec base targ base' targ' :
  strip_common base targ = (base', targ') -> exists common, base = common ++ base' /\ targ = common ++ targ'.
Proof.
  revert targ. induction base as [|b base IH]; intros [|t targ]; simpl; try (intros [= <- <-]; by exists []).
  case_bool_decide as E; [|intros [= <- <-]; by exists []]. subst t.
  intros (common & -> & ->)%IH. by exists (b :: common).
Qed.

Lemma strip_common_prefix base targ : strip_common base (base ++ targ) = ([], targ).
Proof. induction base as [|b base IH]; simpl; [by destruct targ|]. by rewrite bool_decide_true. Qed.

(** The path of [base] to a path below it is the rest of its components; a
    path that is not below starts with [..]. *)
Lemma Rel_abs base targ :
  Forall plain base -> Forall plain targ ->
  exists up rest common, base = common ++ up /\ targ = common ++ rest /\
    Rel (render true base) (render true targ) = Some (render false (repeat dotdot (length up) ++ rest)).
Proof.
  intros Hb Ht. unfold Rel. rewrite !IsAbs_render. cbn [Bool.eqb negb]. rewrite !clean_render by done.
  destruct (strip_common base targ) as [up rest] eqn:E. apply strip_common_spec in E as (common & -> & ->).
  exists up, rest, common. split; [done|]. split; [done|]. apply Forall_app in Hb as [_ Hu].
  destruct Hu as [|x up (_ & _ & Hx & _) Hu]; simpl; [done|]. rewrite bool_decide_false by congruence. done.
Qed.

Lemma Rel_inside base targ relative :
  Forall plain base -> Forall plain targ -> Rel (render true base) (render true targ) = Some relative ->
  bool_decide (relative = dotdot) || HasPrefix relative (lit "../") = false ->
  exists rest, targ = base ++ rest /\ relative = render false rest.
Proof.
  intros Hb Ht Hr Hg. destruct (Rel_abs base targ Hb Ht) as (up & rest & common & -> & -> & E).
  rewrite E in Hr. injection Hr as <-. apply orb_false_iff in Hg as [Hg1%bool_decide_eq_false Hg2].
  destruct up as [|u up]; [exists rest; by rewrite app_nil_r|]. exfalso. cbn [length repeat app] in Hg1, Hg2.
  unfold render in Hg1, Hg2. rewrite bool_decide_false in Hg1, Hg2 by done.
  destruct (repeat dotdot (length up) ++ rest) as [|x l] eqn:El; [done|].
  change (Runes.Join (dotdot :: x :: l) (lit "/")) with (lit "../" ++ Runes.Join (x :: l) (lit "/")) in Hg2.
  apply not_true_iff_false in Hg2. apply Hg2, HasPrefix_app. by eexists.
Qed.

(** The directory of a relative path is all but its last component. *)
Lemma Join_snoc l x : l <> [] -> Runes.Join (l ++ [x]) (lit "/") = Runes.Join l (lit "/") ++ slash :: x.
Proof.
  induction l as [|y l IH]; [done|]. intros _. destruct l as [|z l]; [done|]. simpl app.
  change (Runes.Join (y :: z :: l ++ [x]) (lit "/")) with (y ++ slash :: Runes.Join (z :: l ++ [x]) (lit "/")).
  change (Runes.Join (y :: z :: l) (lit "/")) with (y ++ slash :: Runes.Join (z :: l) (lit "/")).
  simpl app in IH. rewrite IH by done. by rewrite <- app_assoc.
Qed.

Lemma after_slash_app a x : slash ∉ x -> after_slash (a ++ slash :: x) = x.
Proof.
  intros Hx. unfold after_slash. rewrite Split_app_sep, (Split_no x) by done. apply last_last.
Qed.

Lemma up_to_slash_app a x : slash ∉ x -> up_to_slash (a ++ slash :: x) = a ++ [slash].
Proof.
  intros Hx. unfold up_to_slash. rewrite after_slash_app by done.
  replace (a ++ slash :: x) with ((a ++ [slash]) ++ x) by (by rewrite <- app_assoc).
  rewrite take_app_exact; [done|]. rewrite !length_app. lia.
Qed.

Lemma Dir_render l x : Forall plain l -> plain x -> Dir (render false (l ++ [x])) = render false l.
Proof.
  intros Hl (X1 & X2 & X3 & X4). unfold render at 1. rewrite bool_decide_false by (by destruct l). unfold Dir.
  destruct (decide (l = [])) as [->|Hne].
  - simpl. unfold up_to_slash, after_slash. rewrite Split_no by done. simpl. by rewrite Nat.sub_diag.
  - rewrite Join_snoc, up_to_slash_app by done. unfold Clean.
    assert (IsAbs (Runes.Join l (lit "/") ++ [slash]) = false) as ->.
    { apply not_true_iff_false. intros Habs%HasPrefix_app. destruct Habs as [t Ht]. destruct Hl as [|y l (Y1 & _ & _ & Y4) _]; [by destruct Hne|]. destruct y as [|c y]; [done|].
      destruct l; injection Ht as -> _; apply Y4; by left. }
    f_equal. unfold clean_components. change [slash] with (slash :: []). rewrite Split_app_sep.
    rewrite Split_Join_plain, foldl_app, (clean_foldl_plain _ [] l), app_nil_r by done.
    exact (reverse_involutive l).
Qed.
