(* ===== verification/Disk.v ===== *)
(** * Disk

    What the engine uses of the file system, for one process that may die at
    any moment.

    A disk is names (file paths, as the program spells them) and file nodes, so
    that hard links share their bytes.  Every system call may fail (the
    [fault]s are an oracle), a failing write may be torn, and every state the
    disk goes through is recorded: [fs_trace] holds the moments at which the
    process or the machine may stop.  A node knows how much of it has reached
    stable storage.  [survives] says what is found after a stop: the bytes that
    were synchronized, and each name as it was at some moment up to the stop,
    for the engine never synchronizes a directory.  Directories are not tracked:
    a name of one is [EOther]. *)
From S2P Require Import Prelude Errors GoStrings Url Assembler Digest Recovery Checkpoint.

(** ** State *)

Record inode := mkInode {
  ino_data : bytes;
  ino_stable : Z;  (* bytes of the prefix that is on stable storage *)
  ino_synced : bool  (* everything is on stable storage *)
}.

Inductive entry :=
| EFile (i : positive)  (* a regular file *)
| ESymlink
| EOther (removable : bool).  (* a directory or a device *)

#[export] Instance entry_eq_dec : EqDecision entry.
Proof. solve_decision. Defined.

Record disk := mkDisk {
  d_names : gmap bytes entry;
  d_inodes : gmap positive inode
}.

#[export] Instance eta_disk : Eta disk := fun d => mkDisk (d_names d) (d_inodes d).

(** How a system call goes: a failing one fails with the error [code], and a
    write or a read after [n] bytes. *)
Inductive fault := NoFault | Fault (code : nat) (n : Z).

Record fsys := mkFsys {
  fs_disk : disk;
  fs_trace : list disk;  (* the disks so far, the last one last *)
  fs_faults : list fault;  (* of the calls to come; no more faults after them *)
  fs_random : list Z  (* the numbers [os.CreateTemp] draws *)
}.

#[export] Instance eta_fsys : Eta fsys := fun fs => mkFsys (fs_disk fs) (fs_trace fs) (fs_faults fs) (fs_random fs).

(** A machine that starts on [d]. *)
Definition boot (d : disk) (faults : list fault) (random : list Z) : fsys := mkFsys d [d] faults random.

Definition os_ErrNotExist : go_error := ErrOther 2.
Definition os_ErrExist : go_error := ErrOther 3.
Definition os_fault (code : nat) : go_error := ErrOther (4 + code).

(** ** Effects *)

Definition fsM (A : Type) : Type := fsys -> res A * fsys.

#[export] Instance fsM_ret : MRet fsM := fun A a fs => (Ok a, fs).
#[export] Instance fsM_bind : MBind fsM := fun A B k m fs =>
  match m fs with
  | (Ok a, fs) => k a fs
  | (Err e, fs) => (Err e, fs)
  end.

(** [return err] *)
Definition throw {A} (e : go_error) : fsM A := fun fs => (Err e, fs).

Definition lift {A} (r : res A) : fsM A := fun fs => (r, fs).

(** A call whose error is looked at. *)
Definition try {A} (m : fsM A) : fsM (res A) := fun fs => let '(r, fs) := m fs in (Ok r, fs).

(** [_ = m] *)
Definition ignore {A} (m : fsM A) : fsM unit := fun fs => let '(_, fs) := m fs in (Ok tt, fs).

(** [defer cleanup] and then [m] *)
Definition deferred {A B} (cleanup : fsM B) (m : fsM A) : fsM A := fun fs =>
  let '(r, fs) := m fs in (r, (cleanup fs).2).

(** ** Calls *)

Definition next_fault (fs : fsys) : fault * fsys :=
  match fs_faults fs with
  | [] => (NoFault, fs)
  | f :: faults => (f, fs <| fs_faults := faults |>)
  end.

(** A call that either fails without effect or does [m]. *)
Definition faulty {A} (m : fsM A) : fsM A := fun fs =>
  match next_fault fs with
  | (NoFault, fs) => m fs
  | (Fault code _, fs) => (Err (os_fault code), fs)
  end.

Definition push (d : disk) (fs : fsys) : fsys := fs <| fs_disk := d |> <| fs_trace := fs_trace fs ++ [d] |>.

Definition set_disk (d : disk) : fsM unit := fun fs => (Ok tt, push d fs).

Definition get_disk : fsM disk := fun fs => (Ok (fs_disk fs), fs).

Definition data_of (d : disk) (i : positive) : bytes := default [] (ino_data <$> d_inodes d !! i).

Definition put_inode (d : disk) (i : positive) (ino : inode) : disk := d <| d_inodes := <[i := ino]> (d_inodes d) |>.

Definition os_Lstat (path : bytes) : fsM lstat_result := fun fs =>
  match next_fault fs with
  | (Fault code _, fs) => (Ok (LstatErr (os_fault code)), fs)
  | (NoFault, fs) =>
      (Ok match d_names (fs_disk fs) !! path with
          | None => LstatNotExist
          | Some (EFile i) => LstatInfo true (zlen (data_of (fs_disk fs) i))
          | Some _ => LstatInfo false 0
          end, fs)
  end.

(** [os.Open], [os.ReadFile] and [os.OpenFile] of a symbolic link would follow
    it; the engine calls them only on names it has seen to be regular files or
    absent, and here they fail on anything else. *)
Definition os_ReadFile (path : bytes) : fsM bytes :=
  faulty (fun fs =>
    match d_names (fs_disk fs) !! path with
    | None => (Err os_ErrNotExist, fs)
    | Some (EFile i) => (Ok (data_of (fs_disk fs) i), fs)
    | Some _ => (Err os_ErrInvalid, fs)
    end).

(** The file and how its reads go. *)
Definition os_Open (path : bytes) : fsM ioFile :=
  faulty (fun fs =>
    match d_names (fs_disk fs) !! path with
    | None => (Err os_ErrNotExist, fs)
    | Some (EFile i) =>
        match next_fault fs with
        | (NoFault, fs) => (Ok (mkIoFile (data_of (fs_disk fs) i) None), fs)
        | (Fault code n, fs) => (Ok (mkIoFile (take (Z.to_nat n) (data_of (fs_disk fs) i)) (Some (os_fault code))), fs)
        end
    | Some _ => (Err os_ErrInvalid, fs)
    end).

Definition new_file (d : disk) (path : bytes) : positive * disk :=
  let i := fresh (dom (d_inodes d) : gset positive) in
  (i, mkDisk (<[path := EFile i]> (d_names d)) (<[i := mkInode [] 0 false]> (d_inodes d))).

(** The name with the first number that is not taken. *)
Fixpoint create_temp (prefix : bytes) (random : list Z) : fsM (bytes * positive) := fun fs =>
  match random with
  | [] => (Err os_ErrExist, fs <| fs_random := [] |>)
  | n :: random =>
      let name := prefix ++ Itoa n in
      match d_names (fs_disk fs) !! name with
      | Some _ => create_temp prefix random fs
      | None =>
          let '(i, d) := new_file (fs_disk fs) name in
          (Ok (name, i), push d (fs <| fs_random := random |>))
      end
  end.

(** [os.CreateTemp(dir, prefix + "*")]: the name and the open file *)
Definition os_CreateTemp (dir prefix : bytes) : fsM (bytes * positive) :=
  faulty (fun fs => create_temp ((if HasSuffix dir (lit "/") then dir else dir ++ lit "/") ++ prefix) (fs_random fs) fs).

(** [os.OpenFile(path, O_CREATE|O_RDWR, _)], with [O_TRUNC] if [trunc] *)
Definition os_OpenFile (path : bytes) (trunc : bool) : fsM positive :=
  faulty (fun fs =>
    match d_names (fs_disk fs) !! path with
    | None => let '(i, d) := new_file (fs_disk fs) path in (Ok i, push d fs)
    | Some (EFile i) =>
        if trunc then (Ok i, push (put_inode (fs_disk fs) i (mkInode [] 0 false)) fs) else (Ok i, fs)
    | Some _ => (Err os_ErrInvalid, fs)
    end).

Definition os_MkdirAll (path : bytes) : fsM unit := faulty (mret tt).

(** Renaming a file onto a hard link of itself does nothing. *)
Definition os_Rename (source destination : bytes) : fsM unit :=
  faulty (d ← get_disk;
    match d_names d !! source with
    | None => throw os_ErrNotExist
    | Some e =>
        if bool_decide (d_names d !! destination = Some e) then mret tt
        else match d_names d !! destination with
             | Some (EOther _) => throw os_ErrExist
             | _ => set_disk (d <| d_names := <[destination := e]> (delete source (d_names d)) |>)
             end
    end).

Definition os_Link (source destination : bytes) : fsM unit :=
  faulty (d ← get_disk;
    match d_names d !! source with
    | None => throw os_ErrNotExist
    | Some e =>
        match d_names d !! destination with
        | Some _ => throw os_ErrExist
        | None => set_disk (d <| d_names := <[destination := e]> (d_names d) |>)
        end
    end).

Definition os_Remove (path : bytes) : fsM unit :=
  faulty (d ← get_disk;
    match d_names d !! path with
    | None => throw os_ErrNotExist
    | Some (EOther false) => throw os_ErrInvalid
    | Some _ => set_disk (d <| d_names := delete path (d_names d) |>)
    end).

(** An open file at its end. *)
Definition append_data (d : disk) (i : positive) (data : bytes) : disk :=
  put_inode d i (mkInode (data_of d i ++ data) (default 0 (ino_stable <$> d_inodes d !! i)) false).

(** The bytes reach the file one after the other. *)
Definition fd_Write (i : positive) (data : bytes) : fsM unit := fun fs =>
  let '(f, fs) := next_fault fs in
  let count := match f with NoFault => length data | Fault _ n => min (Z.to_nat n) (length data) end in
  let d := fs_disk fs in
  let fs := foldl (fun fs k => push (append_data d i (take k data)) fs) fs (seq 1 count) in
  (match f with NoFault => Ok tt | Fault code _ => Err (os_fault code) end, fs).

Definition fd_Sync (i : positive) : fsM unit :=
  faulty (d ← get_disk; set_disk (put_inode d i (mkInode (data_of d i) (zlen (data_of d i)) true))).

Definition fd_Close (i : positive) : fsM unit := faulty (mret tt).

Definition fd_Size (i : positive) : fsM Z := faulty (d ← get_disk; mret (zlen (data_of d i))).

Definition fd_Truncate (i : positive) (size : Z) : fsM unit :=
  faulty (d ← get_disk;
    set_disk (put_inode d i (mkInode (take (Z.to_nat size) (data_of d i))
      (Z.min size (default 0 (ino_stable <$> d_inodes d !! i))) false))).

(** ** After a stop *)

(** A node that was synchronized has its bytes, of another one the stable
    prefix is left. *)
Definition nodes_survive (d d' : disk) : Prop :=
  forall i ino, d_inodes d !! i = Some ino ->
    exists ino', d_inodes d' !! i = Some ino' /\
      (ino_synced ino = true -> ino_data ino' = ino_data ino) /\
      exists tail, ino_data ino' = take (Z.to_nat (ino_stable ino)) (ino_data ino) ++ tail.

(** What a stop leaves.  [h] are the moments up to the stop, from one on whose
    names had reached the disk.  A name is found as it was at one of them, each
    independently of the others: creations, renamings and removals are durable
    late and in any order.  The stop of a process alone, which leaves the names
    as they are, is [h = [d]]. *)
Definition survives (h : list disk) (d' : disk) : Prop :=
  (forall q, exists d, d ∈ h /\ d_names d' !! q = d_names d !! q) /\
  exists d, last h = Some d /\ nodes_survive d d'.

Lemma nodes_survive_refl d : nodes_survive d d.
Proof.
  intros i ino Hi. exists ino. split_and!; [done|done|].
  exists (drop (Z.to_nat (ino_stable ino)) (ino_data ino)). by rewrite take_drop.
Qed.

Lemma survives_refl d : survives [d] d.
Proof.
  split; [|exists d; split; [done|apply nodes_survive_refl]]. intros q. exists d. split; [apply list_elem_of_here|done].
Qed.

(** ** Chains of moments *)

Fixpoint chained (Step : disk -> disk -> Prop) (d : disk) (l : list disk) (e : disk) : Prop :=
  match l with
  | [] => d = e
  | d1 :: l => Step d d1 /\ chained Step d1 l e
  end.

Lemma chained_app Step d l1 m l2 e : chained Step d l1 m -> chained Step m l2 e -> chained Step d (l1 ++ l2) e.
Proof. revert d. induction l1 as [|d1 l1 IH]; intros d; simpl; [by intros ->|]. intros [? ?] ?. eauto. Qed.

Lemma chained_split Step d l1 l2 e :
  chained Step d (l1 ++ l2) e -> exists m, chained Step d l1 m /\ chained Step m l2 e.
Proof.
  revert d. induction l1 as [|d1 l1 IH]; intros d; simpl; [by eauto|]. intros [Hs Hc].
  destruct (IH d1 Hc) as (m & ? & ?). eauto.
Qed.

Lemma chained_mono (S S' : disk -> disk -> Prop) d l e :
  (forall d d', S d d' -> S' d d') -> chained S d l e -> chained S' d l e.
Proof. intros HS. revert d. induction l as [|d1 l IH]; intros d; simpl; [done|]. intros [? ?]. auto. Qed.

Lemma chained_last Step d l e : chained Step d l e -> last (d :: l) = Some e.
Proof.
  revert d. induction l as [|d1 l IH]; intros d; simpl; [by intros ->|]. intros [_ Hc]. by apply IH.
Qed.

Lemma chained_and (S S' : disk -> disk -> Prop) d l e :
  chained S d l e -> chained S' d l e -> chained (fun d d' => S d d' /\ S' d d') d l e.
Proof. revert d. induction l as [|d1 l IH]; intros d; simpl; [done|]. intros [? ?] [? ?]. auto. Qed.

Lemma chained_when (S : disk -> disk -> Prop) (P : disk -> Prop) d l e :
  chained (fun d d' => P d' -> S d d') d l e -> Forall P l -> chained S d l e.
Proof.
  revert d. induction l as [|d1 l IH]; intros d; simpl; [done|]. intros [? ?] [? ?]%Forall_cons. auto.
Qed.

(** The steps from a moment on. *)
Lemma chained_from Step d0 l e pre d rest :
  chained Step d0 l e -> d0 :: l = pre ++ d :: rest ->
  (d = d0 \/ exists m, Step m d) /\ chained Step d rest e.
Proof.
  intros Hc. destruct pre as [|p pre]; intros [= -> ->]; [by auto|].
  apply chained_split in Hc as (m & _ & Hs & Hc). split; [right; by exists m|done].
Qed.

(** A property that the steps keep. *)
Lemma chained_inv (Step : disk -> disk -> Prop) (I : disk -> Prop) d l e :
  (forall d d', I d -> Step d d' -> I d') -> I d -> chained Step d l e -> Forall I (d :: l) /\ I e.
Proof.
  intros HI. revert d. induction l as [|d1 l IH]; intros d Hd; simpl; [intros <-; auto|]. intros [Hs Hc].
  destruct (IH d1 (HI _ _ Hd Hs) Hc). auto.
Qed.

Lemma chained_Forall (C : disk -> Prop) (Step : disk -> disk -> Prop) d l e :
  (forall d d', Step d d' -> C d') -> chained Step d l e -> Forall C l.
Proof.
  intros HC. revert d. induction l as [|d1 l IH]; intros d; simpl; [done|]. intros [Hs Hc]. constructor; eauto.
Qed.

(** The steps from every moment to the last. *)
Lemma chained_to_last (Step T : disk -> disk -> Prop) d l e :
  Reflexive T -> Transitive T -> (forall d d', Step d d' -> T d d') -> chained Step d l e -> Forall (fun m => T m e) (d :: l).
Proof.
  intros Tr Tt HS. revert d. induction l as [|d1 l IH]; intros d; simpl; [by intros ->; auto|]. intros [Hs Hc].
  specialize (IH d1 Hc). constructor; [|done]. apply Forall_cons in IH as [H1 _]. eauto.
Qed.

(** ** A logic of disks

    [wps R Step m Q d]: started on [d], [m] ends with a result and a disk in
    [Q], and every disk it goes through is a [Step] from the one before; [wp] is
    the case of a property of the disks alone.  [R] says that no call fails. *)

Definition reliable (R : bool) (fs : fsys) : Prop := R = true -> fs_faults fs = [].

Definition wps {A} (R : bool) (Step : disk -> disk -> Prop) (m : fsM A) (Q : res A -> disk -> Prop) (d : disk) : Prop :=
  forall fs, fs_disk fs = d -> reliable R fs ->
  let '(r, fs') := m fs in
  Q r (fs_disk fs') /\ reliable R fs' /\ exists new, fs_trace fs' = fs_trace fs ++ new /\ chained Step d new (fs_disk fs').

Abbreviation wp R C := (wps R (fun _ d => C d)).

Section Rules.
Context (R : bool) (Step : disk -> disk -> Prop).

Lemma dwp_mono {A} (m : fsM A) (Q Q' : res A -> disk -> Prop) d :
  wps R Step m Q d -> (forall r d', Q r d' -> Q' r d') -> wps R Step m Q' d.
Proof. intros Hm HQ fs Hd Hr. specialize (Hm fs Hd Hr). destruct (m fs) as [r fs']. naive_solver. Qed.

Lemma wps_weaken {A} (Step' : disk -> disk -> Prop) (m : fsM A) Q d :
  (forall d d', Step d d' -> Step' d d') -> wps R Step m Q d -> wps R Step' m Q d.
Proof.
  intros HS Hm fs Hd Hr. specialize (Hm fs Hd Hr). destruct (m fs) as [r fs']. destruct Hm as (? & ? & new & ? & ?).
  split_and!; [done|done|]. exists new. split; [done|]. by eapply chained_mono.
Qed.

(** What is known of a run in two ways. *)
Lemma wps_and {A} (Step' : disk -> disk -> Prop) (m : fsM A) Q Q' d :
  wps R Step m Q d -> wps R Step' m Q' d -> wps R (fun d d' => Step d d' /\ Step' d d') m (fun r d' => Q r d' /\ Q' r d') d.
Proof.
  intros Hm Hm' fs Hd Hr. specialize (Hm fs Hd Hr). specialize (Hm' fs Hd Hr). destruct (m fs) as [r fs'].
  destruct Hm as (? & ? & new & Ht & Hc), Hm' as (? & _ & new' & Ht' & Hc'). rewrite Ht in Ht'. apply app_inv_head in Ht' as <-.
  split_and!; [done..|]. exists new. split; [done|by apply chained_and].
Qed.

Lemma wps_still {A} (Q : res A -> disk -> Prop) r fs fs' d :
  fs_disk fs = d -> fs_disk fs' = d -> fs_trace fs' = fs_trace fs -> reliable R fs' -> Q r d ->
  Q r (fs_disk fs') /\ reliable R fs' /\ exists new, fs_trace fs' = fs_trace fs ++ new /\ chained Step d new (fs_disk fs').
Proof. intros Hd Hd' Ht Hr HQ. rewrite Hd', Ht. split_and!; [done|done|]. exists []. by rewrite app_nil_r. Qed.

Lemma wps_push {A} (Q : res A -> disk -> Prop) r fs fs' d d1 :
  fs_disk fs' = d1 -> fs_trace fs' = fs_trace fs ++ [d1] -> reliable R fs' -> Step d d1 -> Q r d1 ->
  Q r (fs_disk fs') /\ reliable R fs' /\ exists new, fs_trace fs' = fs_trace fs ++ new /\ chained Step d new (fs_disk fs').
Proof. intros Hd' Ht Hr HS HQ. rewrite Hd', Ht. split_and!; [done|done|]. by exists [d1]. Qed.

Lemma dwp_ret {A} (a : A) Q d : Q (Ok a) d -> wps R Step (mret a) Q d.
Proof. intros HQ fs Hd Hr. by eapply wps_still. Qed.

Lemma wp_throw {A} e (Q : res A -> disk -> Prop) d : Q (Err e) d -> wps R Step (throw e) Q d.
Proof. intros HQ fs Hd Hr. by eapply wps_still. Qed.

Lemma wp_lift {A} r (Q : res A -> disk -> Prop) d : Q r d -> wps R Step (lift r) Q d.
Proof. intros HQ fs Hd Hr. by eapply wps_still. Qed.

Lemma dwp_bind {A B} (m : fsM A) (k : A -> fsM B) Q d :
  wps R Step m (fun r d' => match r with Ok a => wps R Step (k a) Q d' | Err e => Q (Err e) d' end) d -> wps R Step (m ≫= k) Q d.
Proof.
  intros Hm fs Hd Hr. specialize (Hm fs Hd Hr). unfold mbind, fsM_bind. destruct (m fs) as [[a|e] fs']; [|done].
  destruct Hm as (Hk & Hr' & new & Ht & Hc). specialize (Hk fs' eq_refl Hr'). destruct (k a fs') as [r fs2].
  destruct Hk as (HQ & Hr2 & new2 & Ht2 & Hc2). split_and!; [done|done|]. exists (new ++ new2).
  split; [by rewrite Ht2, Ht, app_assoc|by eapply chained_app].
Qed.

Lemma wp_try {A} (m : fsM A) Q d : wps R Step m (fun r d' => Q (Ok r) d') d -> wps R Step (try m) Q d.
Proof. intros Hm fs Hd Hr. specialize (Hm fs Hd Hr). unfold try. by destruct (m fs). Qed.

Lemma wp_ignore {A} (m : fsM A) Q d : wps R Step m (fun _ d' => Q (Ok tt) d') d -> wps R Step (ignore m) Q d.
Proof. intros Hm fs Hd Hr. specialize (Hm fs Hd Hr). unfold ignore. by destruct (m fs). Qed.

Lemma wp_deferred {A B} (cleanup : fsM B) (m : fsM A) Q d :
  wps R Step m (fun r d' => wps R Step cleanup (fun _ d'' => Q r d'') d') d -> wps R Step (deferred cleanup m) Q d.
Proof.
  intros Hm fs Hd Hr. specialize (Hm fs Hd Hr). unfold deferred. destruct (m fs) as [r fs'].
  destruct Hm as (Hk & Hr' & new & Ht & Hc). specialize (Hk fs' eq_refl Hr'). destruct (cleanup fs') as [r2 fs2].
  destruct Hk as (HQ & Hr2 & new2 & Ht2 & Hc2). split_and!; [done|done|]. exists (new ++ new2).
  split; [simpl; by rewrite Ht2, Ht, app_assoc|by eapply chained_app].
Qed.

Lemma next_fault_disk fs : let '(_, fs') := next_fault fs in
  fs_disk fs' = fs_disk fs /\ fs_trace fs' = fs_trace fs /\ fs_random fs' = fs_random fs /\ (reliable R fs -> reliable R fs').
Proof.
  unfold next_fault, reliable. destruct (fs_faults fs) as [|f l] eqn:E; simpl; [by rewrite E|].
  split_and!; try done. intros HR HRt. by specialize (HR HRt).
Qed.

Lemma next_fault_reliable fs code n fs' : reliable R fs -> next_fault fs = (Fault code n, fs') -> R = false.
Proof.
  unfold next_fault, reliable. intros Hr. destruct R; [|done]. by rewrite Hr.
Qed.

Lemma wp_faulty {A} (m : fsM A) Q d :
  (R = false -> forall code, Q (Err (os_fault code)) d) -> wps R Step m Q d -> wps R Step (faulty m) Q d.
Proof.
  intros Hf Hm fs <- Hr. unfold faulty. pose proof (next_fault_disk fs) as Hn.
  destruct (next_fault fs) as [f fs'] eqn:E. destruct Hn as (Hd & Htr & _ & Hr'). rewrite <- Htr.
  destruct f as [|code n]; [by apply Hm; auto|]. eapply wps_still; eauto. by eapply Hf, next_fault_reliable.
Qed.

Lemma wp_set_disk d' (Q : res unit -> disk -> Prop) d : Step d d' -> Q (Ok tt) d' -> wps R Step (set_disk d') Q d.
Proof. intros HC HQ fs <- Hr. by eapply wps_push. Qed.

Lemma wp_get_disk (Q : res disk -> disk -> Prop) d : Q (Ok d) d -> wps R Step get_disk Q d.
Proof. intros HQ fs <- Hr. by eapply wps_still. Qed.

(** *** The calls *)

Lemma wp_Lstat path Q d :
  (R = false -> forall code, Q (Ok (LstatErr (os_fault code))) d) ->
  Q (Ok match d_names d !! path with
        | None => LstatNotExist
        | Some (EFile i) => LstatInfo true (zlen (data_of d i))
        | Some _ => LstatInfo false 0
        end) d -> wps R Step (os_Lstat path) Q d.
Proof.
  intros Hf HQ fs <- Hr. unfold os_Lstat. pose proof (next_fault_disk fs) as Hn.
  destruct (next_fault fs) as [f fs'] eqn:E. destruct Hn as (Hd & Htr & _ & Hr').
  destruct f as [|code n]; (eapply wps_still; [done|done|done|auto|]); [by rewrite Hd|by eapply Hf, next_fault_reliable].
Qed.

Lemma wp_ReadFile path Q d :
  (R = false -> forall code, Q (Err (os_fault code)) d) ->
  Q match d_names d !! path with
    | None => Err os_ErrNotExist
    | Some (EFile i) => Ok (data_of d i)
    | Some _ => Err os_ErrInvalid
    end d -> wps R Step (os_ReadFile path) Q d.
Proof.
  intros Hf HQ. apply wp_faulty; [done|]. intros fs <- Hr.
  destruct (d_names (fs_disk fs) !! path) as [[]|]; by eapply wps_still.
Qed.

Lemma wp_Open path Q d :
  (R = false -> forall code, Q (Err (os_fault code)) d) ->
  match d_names d !! path with
  | None => Q (Err os_ErrNotExist) d
  | Some (EFile i) => Q (Ok (mkIoFile (data_of d i) None)) d /\
      (R = false -> forall code n, Q (Ok (mkIoFile (take n (data_of d i)) (Some (os_fault code)))) d)
  | Some _ => Q (Err os_ErrInvalid) d
  end -> wps R Step (os_Open path) Q d.
Proof.
  intros Hf HQ. apply wp_faulty; [done|]. intros fs <- Hr.
  destruct (d_names (fs_disk fs) !! path) as [[i| |]|]; try by eapply wps_still.
  pose proof (next_fault_disk fs) as Hn. destruct (next_fault fs) as [f fs'] eqn:E. destruct Hn as (Hd & Htr & _ & Hr').
  destruct f as [|code n]; (eapply wps_still; [done|done|done|auto|]); rewrite Hd; [apply HQ|].
  apply HQ. by eapply next_fault_reliable.
Qed.

Lemma wp_Remove path Q d :
  (R = false -> forall code, Q (Err (os_fault code)) d) ->
  match d_names d !! path with
  | None => Q (Err os_ErrNotExist) d
  | Some (EOther false) => Q (Err os_ErrInvalid) d
  | Some _ => let d' := d <| d_names := delete path (d_names d) |> in Step d d' /\ Q (Ok tt) d'
  end -> wps R Step (os_Remove path) Q d.
Proof.
  intros Hf HQ. apply wp_faulty; [done|]. apply dwp_bind, wp_get_disk.
  destruct (d_names d !! path) as [[i| |[]]|]; (by apply wp_throw) || (destruct HQ; by apply wp_set_disk).
Qed.

Lemma wp_Rename source destination Q d :
  (R = false -> forall code, Q (Err (os_fault code)) d) ->
  match d_names d !! source with
  | None => Q (Err os_ErrNotExist) d
  | Some e =>
      if bool_decide (d_names d !! destination = Some e) then Q (Ok tt) d
      else match d_names d !! destination with
           | Some (EOther _) => Q (Err os_ErrExist) d
           | _ => let d' := d <| d_names := <[destination := e]> (delete source (d_names d)) |> in Step d d' /\ Q (Ok tt) d'
           end
  end -> wps R Step (os_Rename source destination) Q d.
Proof.
  intros Hf HQ. apply wp_faulty; [done|]. apply dwp_bind, wp_get_disk. destruct (d_names d !! source) as [e|]; [|by apply wp_throw].
  case_bool_decide; [by apply dwp_ret|].
  destruct (d_names d !! destination) as [[i| |b]|]; (by apply wp_throw) || (destruct HQ; by apply wp_set_disk).
Qed.

Lemma wp_Link source destination Q d :
  (R = false -> forall code, Q (Err (os_fault code)) d) ->
  match d_names d !! source, d_names d !! destination with
  | None, _ => Q (Err os_ErrNotExist) d
  | Some _, Some _ => Q (Err os_ErrExist) d
  | Some e, None => let d' := d <| d_names := <[destination := e]> (d_names d) |> in Step d d' /\ Q (Ok tt) d'
  end -> wps R Step (os_Link source destination) Q d.
Proof.
  intros Hf HQ. apply wp_faulty; [done|]. apply dwp_bind, wp_get_disk. destruct (d_names d !! source) as [e|]; [|by apply wp_throw].
  destruct (d_names d !! destination); [by apply wp_throw|]. destruct HQ. by apply wp_set_disk.
Qed.

Lemma wp_Sync i Q d :
  (R = false -> forall code, Q (Err (os_fault code)) d) ->
  (let d' := put_inode d i (mkInode (data_of d i) (zlen (data_of d i)) true) in Step d d' /\ Q (Ok tt) d') ->
  wps R Step (fd_Sync i) Q d.
Proof. intros Hf [? ?]. apply wp_faulty; [done|]. by apply dwp_bind, wp_get_disk, wp_set_disk. Qed.

Lemma wp_Close i Q d :
  (R = false -> forall code, Q (Err (os_fault code)) d) -> Q (Ok tt) d -> wps R Step (fd_Close i) Q d.
Proof. intros Hf HQ. apply wp_faulty; [done|]. by apply dwp_ret. Qed.

Lemma wp_Size i Q d :
  (R = false -> forall code, Q (Err (os_fault code)) d) -> Q (Ok (zlen (data_of d i))) d -> wps R Step (fd_Size i) Q d.
Proof. intros Hf HQ. apply wp_faulty; [done|]. by apply dwp_bind, wp_get_disk, dwp_ret. Qed.

Lemma wp_Truncate i size Q d :
  (R = false -> forall code, Q (Err (os_fault code)) d) ->
  (let d' := put_inode d i (mkInode (take (Z.to_nat size) (data_of d i))
      (Z.min size (default 0 (ino_stable <$> d_inodes d !! i))) false) in Step d d' /\ Q (Ok tt) d') ->
  wps R Step (fd_Truncate i size) Q d.
Proof. intros Hf [? ?]. apply wp_faulty; [done|]. by apply dwp_bind, wp_get_disk, wp_set_disk. Qed.

Lemma wp_Write i data Q d :
  Step d (append_data d i (take 1 data)) ->
  (forall k, Step (append_data d i (take (S k) data)) (append_data d i (take (S (S k)) data))) ->
  Q (Ok tt) (append_data d i data) -> data <> [] ->
  (R = false -> forall code k, Q (Err (os_fault code)) (append_data d i (take k data)) /\ Q (Err (os_fault code)) d) ->
  wps R Step (fd_Write i data) Q d.
Proof.
  intros H1 HS HQ Hne Hf fs <- Hr. unfold fd_Write. pose proof (next_fault_disk fs) as Hn.
  destruct (next_fault fs) as [f fs1] eqn:E. destruct Hn as (Hd & Htr & _ & Hr'). rewrite <- Htr, Hd. set (d := fs_disk fs) in *.
  set (count := match f with NoFault => length data | Fault _ n => _ end).
  assert (forall n, let fs2 := foldl (fun fs k => push (append_data d i (take k data)) fs) fs1 (seq 1 n) in
    reliable R fs2 /\ (exists new, fs_trace fs2 = fs_trace fs1 ++ new /\ chained Step d new (fs_disk fs2)) /\
    fs_disk fs2 = match n with O => d | _ => append_data d i (take n data) end) as Hfold.
  { intros n. cbv zeta. induction n as [|n IH]; [simpl; rewrite Hd; split_and!; auto; exists []; by rewrite app_nil_r|].
    rewrite seq_S, foldl_app. simpl in *. destruct IH as (I1 & (new & I2 & I3) & I4). split_and!; [done| |done].
    exists (new ++ [append_data d i (take (S n) data)]). split; [by rewrite I2, app_assoc|]. eapply chained_app; [exact I3|].
    rewrite I4. destruct n; simpl; auto. }
  destruct (Hfold count) as (F1 & F2 & F3). split; [|by split]. rewrite F3. destruct f as [|code n]; subst count.
  - destruct (length data) as [|c] eqn:El; [by destruct data|]. by rewrite <- El, take_ge.
  - pose proof (next_fault_reliable _ _ _ _ Hr E) as HR. destruct (min _ _) as [|c]; by apply Hf.
Qed.

(** A new file: its node is new. *)
Lemma wp_CreateTemp dir prefix Q d :
  (R = false -> forall code, Q (Err (os_fault code)) d) -> Q (Err os_ErrExist) d ->
  (forall n i, let name := (if HasSuffix dir (lit "/") then dir else dir ++ lit "/") ++ prefix ++ Itoa n in
    d_names d !! name = None -> d_inodes d !! i = None ->
    let d' := mkDisk (<[name := EFile i]> (d_names d)) (<[i := mkInode [] 0 false]> (d_inodes d)) in
    Step d d' /\ Q (Ok (name, i)) d') ->
  wps R Step (os_CreateTemp dir prefix) Q d.
Proof.
  intros Hf HE HQ. apply wp_faulty; [done|]. intros fs Hd Hr. generalize (fs_random fs) at 1. intros random.
  induction random as [|n random IH]; simpl; [exact (wps_still _ _ _ _ _ Hd Hd eq_refl Hr HE)|]. rewrite Hd in *. rewrite <- app_assoc.
  destruct (d_names d !! _) eqn:En; [done|]. simpl.
  destruct (HQ n (fresh (dom (d_inodes d) : gset positive))) as [H1 H2]; [done|apply not_elem_of_dom, is_fresh|].
  split_and!; [done|done|]. eexists [_]. split; [reflexivity|]. by split.
Qed.

Lemma wp_OpenFile path (trunc : bool) Q d :
  (R = false -> forall code, Q (Err (os_fault code)) d) ->
  match d_names d !! path with
  | None => forall i, d_inodes d !! i = None ->
      let d' := mkDisk (<[path := EFile i]> (d_names d)) (<[i := mkInode [] 0 false]> (d_inodes d)) in Step d d' /\ Q (Ok i) d'
  | Some (EFile i) =>
      if trunc then let d' := put_inode d i (mkInode [] 0 false) in Step d d' /\ Q (Ok i) d' else Q (Ok i) d
  | Some _ => Q (Err os_ErrInvalid) d
  end -> wps R Step (os_OpenFile path trunc) Q d.
Proof.
  intros Hf HQ. apply wp_faulty; [done|]. intros fs Hd Hr. rewrite Hd.
  destruct (d_names d !! path) as [[i| |]|]; try by eapply wps_still.
  - destruct trunc; [destruct HQ; by eapply wps_push|by eapply wps_still].
  - destruct (HQ (fresh (dom (d_inodes d) : gset positive))) as [H1 H2]; [apply not_elem_of_dom, is_fresh|]. by eapply wps_push.
Qed.

Lemma wp_MkdirAll path Q d :
  (R = false -> forall code, Q (Err (os_fault code)) d) -> Q (Ok tt) d -> wps R Step (os_MkdirAll path) Q d.
Proof. intros Hf HQ. apply wp_faulty; [done|]. by apply dwp_ret. Qed.

End Rules.
