(* ===== verification/Persist.v ===== *)
(** * Durable state

    [checkpoint.go] and [output.go] on the disk: loading and saving
    checkpoints, the completion markers of published tracks, the partial file,
    and the checks and moves of output files ([finalize_unix.go]). *)
From S2P Require Import Prelude Errors Varint GoStrings Url Wire Messages UmpReader Assembler Digest Recovery Checkpoint.
From S2P Require Import Runes FilePath Disk.

(** ** JSON

    [encoding/json] of a struct [A].  [json_strings] are the strings a value
    holds: they are written as they are when they are valid UTF-8 and with
    replacement runes otherwise.  [json_widths] says that its integers fit
    their fields: decoding refuses others. *)
Class JsonStruct (A : Type) := {
  json_strings : A -> list bytes;
  json_widths : A -> Prop
}.

Class JsonCodec (A : Type) `{!JsonStruct A} := {
  json_Marshal : A -> bytes;
  (** [Decoder.Decode] with [DisallowUnknownFields]: the first value and what
      follows it *)
  json_Decode : bytes -> res (A * bytes);
  json_roundtrip x :
    Forall (fun s => utf8_Valid s = true) (json_strings x) -> json_widths x -> json_Decode (json_Marshal x) = Ok (x, []);
  json_decoded data x rest : json_Decode data = Ok (x, rest) -> json_widths x;
  json_nonempty x : json_Marshal x <> []
}.

Definition json_space (c : byte) : bool := is_byte " " c || is_byte x09 c || is_byte x0a c || is_byte x0d c.

(** The second [Decode] must find the end of the input. *)
Definition decodeStrictJSON `{JsonCodec A} (data : bytes) : res A :=
  '(value, rest) ← json_Decode data;
  if forallb json_space rest then Ok value else Err ErrCheckpointInvalid.

#[export] Instance checkpoint_struct : JsonStruct sabrCheckpoint := {|
  json_strings state :=
    [cp_VideoID state; cp_ClientVersion state; cp_TrackKind state; cp_XTags state; cp_UstreamerSHA256 state;
     cp_AudioTrackID state; cp_InitDigest state] ++ map cps_Digest (cp_Segments state);
  json_widths := checkpoint_typed
|}.

(** ** Secrets *)

Definition quoted (s : string) : bytes := [x22] ++ lit s ++ [x22].

Definition forbidden_needles : list bytes :=
  [quoted "po_token"; quoted "playback_cookie"; quoted "cookie"; quoted "authorization"; quoted "proxy-authorization";
   quoted "visitor_data"; quoted "visitor"; quoted "server_url"; quoted "signed_url"; quoted "sabr_context";
   quoted "contexts"; quoted "headers"; lit "googlevideo.com"; lit "pot="; lit "sig="].

Definition containsForbiddenCheckpointBytes `{!UnicodeTables} (encoded : bytes) : bool :=
  let lower := ToLower encoded in
  if existsb (Contains lower) forbidden_needles then true
  else Contains lower (lit "https://") || Contains lower (lit "http://").

(** ** [output.go] *)

(** [regularOrAbsent] *)
Definition regular_at (path : bytes) : fsM unit := l ← os_Lstat path; lift (regularOrAbsent l).

Definition outputPreflight (destination : bytes) (overwrite : bool) : fsM unit :=
  l ← os_Lstat destination;
  match l with
  | LstatNotExist => mret tt
  | LstatErr e => throw e
  | LstatInfo regular _ =>
      if negb overwrite then throw ErrDestinationExists
      else if negb regular then throw ErrUnsafeDestination
      else mret tt
  end.

(** [err == nil && info.Mode()&os.ModeSymlink != 0] of [os.Lstat] *)
Definition pathSymlink (path : bytes) : fsM bool := fun fs =>
  match next_fault fs with
  | (Fault _ _, fs) => (Ok false, fs)
  | (NoFault, fs) => (Ok (bool_decide (d_names (fs_disk fs) !! path = Some ESymlink)), fs)
  end.

Fixpoint check_components (current : bytes) (components : list bytes) : fsM unit :=
  match components with
  | [] => mret tt
  | component :: components =>
      if bool_decide (component = []) || bool_decide (component = lit ".") then check_components current components
      else
        let current := Join2 current component in
        symlink ← pathSymlink current;
        if symlink : bool then throw ErrUnsafeDestination else check_components current components
  end.

(** [cwd] is [os.Getwd]. *)
Definition validateDestination (cwd : res bytes) (root destination : bytes) : fsM unit :=
  rootAbs ← lift (Abs cwd root);
  destinationAbs ← lift (Abs cwd destination);
  match Rel rootAbs destinationAbs with
  | None => throw ErrUnsafeDestination
  | Some relative =>
      if bool_decide (relative = dotdot) || HasPrefix relative (lit "../") then throw ErrUnsafeDestination
      else check_components rootAbs (Split (Dir relative) slash)
  end.

(** [finalize_unix.go] *)
Definition replaceDestination (source destination : bytes) : fsM unit := os_Rename source destination.

Definition installDestination (source destination : bytes) : fsM unit :=
  _ ← os_Link source destination;
  os_Remove source.

Definition publishOutput (tempPath destination : bytes) (overwrite : bool) : fsM unit :=
  if overwrite then replaceDestination tempPath destination else installDestination tempPath destination.

(** [outputFile]: a file under construction *)
Record outputFile := mkOutputFile {
  of_path : bytes;
  of_file : option positive;
  of_published : bool;
  of_persistOnFailure : bool
}.

Definition openOutputTemp (destination : bytes) : fsM outputFile :=
  _ ← regular_at destination;
  '(name, i) ← os_CreateTemp (Dir destination) (lit "." ++ Base destination ++ lit ".tmp-");
  mret (mkOutputFile name (Some i) false false).

Definition closeAndRemove (output : outputFile) : fsM outputFile :=
  _ ← match of_file output with Some i => ignore (fd_Close i) | None => mret tt end;
  _ ← if negb (of_published output) && negb (of_persistOnFailure output) then ignore (os_Remove (of_path output)) else mret tt;
  mret (mkOutputFile (of_path output) None (of_published output) (of_persistOnFailure output)).

(** ** Replacing a small file

    The statements that [saveCheckpoint] and [writeCompletionMarkerDurable]
    share, from the first check of the path on: a new file beside it is
    written, synchronized and renamed onto it; if the rename fails, the old
    file is removed and the rename tried once more. *)

Definition temp_prefix (path : bytes) : bytes := lit "." ++ Base path ++ lit ".tmp-".

Definition rename_retry (temporaryPath path : bytes) : fsM unit :=
  renamed ← try (os_Rename temporaryPath path);
  match renamed with
  | Ok _ => mret tt
  | Err _ =>
      _ ← regular_at path;
      removed ← try (os_Remove path);
      match removed with
      | Err e =>
          if negb (bool_decide (e = os_ErrNotExist)) then throw ErrDownloadFailed
          else retried ← try (os_Rename temporaryPath path);
               match retried with Ok _ => mret tt | Err _ => throw ErrDownloadFailed end
      | Ok _ => retried ← try (os_Rename temporaryPath path);
                match retried with Ok _ => mret tt | Err _ => throw ErrDownloadFailed end
      end
  end.

Definition write_temp (i : positive) (encoded : bytes) : fsM unit :=
  err ← try (_ ← fd_Write i encoded; fd_Sync i);
  closeErr ← try (fd_Close i);
  match err, closeErr with
  | Ok _, Ok _ => mret tt
  | _, _ => throw ErrDownloadFailed
  end.

Definition replaceFile (path encoded : bytes) : fsM unit :=
  _ ← regular_at path;
  created ← try (os_CreateTemp (Dir path) (temp_prefix path));
  match created with
  | Err _ => throw ErrDownloadFailed
  | Ok (temporaryPath, i) =>
      deferred (os_Remove temporaryPath)
        (_ ← write_temp i encoded;
         _ ← regular_at path;
         rename_retry temporaryPath path)
  end.

(** ** Checkpoints *)

Section Checkpoints.
Context `{!UnicodeTables} `{!JsonCodec sabrCheckpoint}.

(** [Ok None] is [(sabrCheckpoint{}, false, nil)]. *)
Definition loadCheckpoint (statePath : bytes) (identity : checkpointIdentity) : fsM (option sabrCheckpoint) :=
  _ ← regular_at statePath;
  info ← os_Lstat statePath;
  match info with
  | LstatNotExist => mret None
  | LstatErr e => throw e
  | LstatInfo regular size =>
      if negb regular then throw ErrUnsafeDestination
      else if size <=? 0 then mret None
      else if size >? MaxCheckpointBytes then throw ErrCheckpointInvalid
      else
        encoded ← os_ReadFile statePath;
        if zlen encoded >? MaxCheckpointBytes then throw ErrCheckpointInvalid
        else if containsForbiddenCheckpointBytes encoded then throw ErrCheckpointInvalid
        else
          match decodeStrictJSON encoded with
          | Err _ => mret None
          | Ok state =>
              match validateCheckpoint state with
              | Err _ => mret None
              | Ok _ => if negb (checkpointIdentity_matches identity state) then mret None else mret (Some state)
              end
          end
  end.

Definition saveCheckpoint (statePath : bytes) (state : sabrCheckpoint) : fsM unit :=
  _ ← lift (validateCheckpoint state);
  let encoded := json_Marshal state in
  if zlen encoded >? MaxCheckpointBytes then throw ErrCheckpointInvalid
  else if containsForbiddenCheckpointBytes encoded then throw ErrCheckpointInvalid
  else replaceFile statePath encoded.

End Checkpoints.

Definition removeCheckpoint (statePath : bytes) : fsM unit := ignore (os_Remove statePath).

Definition clearResumeArtifacts (partPath statePath : bytes) : fsM unit :=
  _ ← ignore (os_Remove partPath);
  ignore (os_Remove statePath).

(** ** The partial file *)

(** [file.Seek] *)
Definition fd_Seek (i : positive) (offset : Z) : fsM unit := faulty (mret tt).

(** [err] after [_ = file.Close()] *)
Definition close_fail {A} (i : positive) (e : go_error) : fsM A := _ ← ignore (fd_Close i); throw e.

Definition openResumePart (partPath : bytes) (offset : Z) : fsM positive :=
  _ ← regular_at partPath;
  i ← os_OpenFile partPath (offset =? 0);
  if offset >? 0 then
    size ← try (fd_Size i);
    match size with
    | Err e => close_fail i e
    | Ok size =>
        if size <? offset then close_fail i ErrCheckpointInvalid
        else
          cut ← try (if size >? offset then fd_Truncate i offset else mret tt);
          match cut with
          | Err e => close_fail i e
          | Ok _ =>
              sought ← try (fd_Seek i offset);
              match sought with
              | Err e => close_fail i e
              | Ok _ => mret i
              end
          end
    end
  else mret i.

(** [verifyCheckpointPartBytes] with the calls it makes: none after a check
    that fails. *)
Definition verify_part `{!Sha256} (partPath : bytes) (state : sabrCheckpoint) : fsM unit :=
  _ ← lift (validateCheckpoint state);
  before ← os_Lstat partPath;
  _ ← lift (regularOrAbsent before);
  info ← os_Lstat partPath;
  opened ← match info with
           | LstatInfo true size =>
               if size <? cp_TotalWritten state then mret (Err ErrCheckpointInvalid) else try (os_Open partPath)
           | _ => mret (Err ErrCheckpointInvalid)
           end;
  lift (verifyCheckpointPartBytes before info opened state).

(** ** Completion markers *)

(** What a marker is bound to: the fields of a checkpoint's identity, in a type
    of its own. *)
Record ResumeIdentity := mkResumeIdentity {
  rid_VideoID : bytes;
  rid_ClientName : Z;
  rid_ClientVersion : bytes;
  rid_TrackKind : bytes;
  rid_Format : FormatID;
  rid_DurationSec : Z;
  rid_UstreamerSHA256 : bytes;
  rid_AudioTrackID : bytes;
  rid_DrcEnabled : bool
}.

Definition IdentityFromConfig `{!Sha256} (config : Config) : ResumeIdentity :=
  let identity := identityFromConfig config in
  mkResumeIdentity (id_VideoID identity) (id_ClientName identity) (id_ClientVersion identity) (id_TrackKind identity)
    (id_Format identity) (id_DurationSec identity) (id_UstreamerSHA256 identity) (id_AudioTrackID identity)
    (id_DrcEnabled identity).

Record sabrCompletionMarker := mkMarker {
  cm_Version : Z;
  cm_VideoID : bytes;
  cm_ClientName : Z;
  cm_ClientVersion : bytes;
  cm_TrackKind : bytes;
  cm_Itag : Z;
  cm_LastModified : Z;
  cm_XTags : bytes;
  cm_DurationSec : Z;
  cm_UstreamerSHA256 : bytes;
  cm_AudioTrackID : bytes;
  cm_DrcEnabled : bool;
  cm_TotalBytes : Z;
  cm_ContentSHA256 : bytes
}.

#[export] Instance marker_struct : JsonStruct sabrCompletionMarker := {|
  json_strings m :=
    [cm_VideoID m; cm_ClientVersion m; cm_TrackKind m; cm_XTags m; cm_UstreamerSHA256 m; cm_AudioTrackID m; cm_ContentSHA256 m];
  json_widths m := is_i64 (cm_TotalBytes m)
|}.

Definition completionMarkerPath (destination : bytes) : bytes := destination ++ lit ".sabr.json".

Definition matchesCompletion (identity : ResumeIdentity) (marker : sabrCompletionMarker) : bool :=
  bool_decide (cm_VideoID marker = rid_VideoID identity) &&
  (cm_ClientName marker =? rid_ClientName identity) &&
  bool_decide (cm_ClientVersion marker = rid_ClientVersion identity) &&
  bool_decide (cm_TrackKind marker = rid_TrackKind identity) &&
  (cm_Itag marker =? fmt_Itag (rid_Format identity)) &&
  (cm_LastModified marker =? fmt_LastModified (rid_Format identity)) &&
  bool_decide (cm_XTags marker = fmt_XTags (rid_Format identity)) &&
  (cm_DurationSec marker =? rid_DurationSec identity) &&
  bool_decide (cm_UstreamerSHA256 marker = rid_UstreamerSHA256 identity) &&
  bool_decide (cm_AudioTrackID marker = rid_AudioTrackID identity) &&
  Bool.eqb (cm_DrcEnabled marker) (rid_DrcEnabled identity).

Definition completion_marker (identity : ResumeIdentity) (totalBytes : Z) (contentHash : bytes) : sabrCompletionMarker :=
  mkMarker checkpointVersion (rid_VideoID identity) (rid_ClientName identity) (rid_ClientVersion identity)
    (rid_TrackKind identity) (fmt_Itag (rid_Format identity)) (fmt_LastModified (rid_Format identity))
    (fmt_XTags (rid_Format identity)) (rid_DurationSec identity) (rid_UstreamerSHA256 identity)
    (rid_AudioTrackID identity) (rid_DrcEnabled identity) totalBytes contentHash.

Definition validateCompletionMarker (marker : sabrCompletionMarker) : res unit :=
  if negb (cm_Version marker =? checkpointVersion) then Err ErrCheckpointInvalid
  else if negb (nonempty (cm_VideoID marker)) || (cm_ClientName marker =? 0) || negb (nonempty (cm_ClientVersion marker))
          || (cm_Itag marker =? 0) || (cm_DurationSec marker <=? 0) then Err ErrCheckpointInvalid
  else if negb (bool_decide (cm_TrackKind marker = TrackAudio)) && negb (bool_decide (cm_TrackKind marker = TrackVideo))
  then Err ErrCheckpointInvalid
  else if negb (nonempty (cm_UstreamerSHA256 marker)) ||
          negb (zlen (cm_UstreamerSHA256 marker) =? maxCheckpointDigestHexBytes) then Err ErrCheckpointInvalid
  else if negb (bool_decide (is_Some (hex_DecodeString (cm_UstreamerSHA256 marker)))) then Err ErrCheckpointInvalid
  else if (cm_TotalBytes marker <=? 0) || (cm_TotalBytes marker >? MaxMediaBytes) then Err ErrCheckpointInvalid
  else
    match decodeDigest (cm_ContentSHA256 marker) with
    | Err _ => Err ErrCheckpointInvalid
    | Ok _ =>
        if (zlen (cm_VideoID marker) >? maxCheckpointVideoIDBytes) ||
           (zlen (cm_ClientVersion marker) >? maxCheckpointClientVerBytes) ||
           (zlen (cm_XTags marker) >? maxCheckpointXTagsBytes) ||
           (zlen (cm_AudioTrackID marker) >? maxCheckpointAudioTrackBytes) ||
           has_control (cm_VideoID marker) then Err ErrCheckpointInvalid
        else Ok tt
    end.

Section Markers.
Context `{!Sha256} `{!UnicodeTables} `{!JsonCodec sabrCompletionMarker}.

(** The digest always has the size of SHA-256. *)
Definition hashFileSHA256 (path : bytes) : fsM bytes :=
  file ← os_Open path;
  let '(copied, err, _) := io_CopyLimit file (MaxMediaBytes + 1) in
  match err with
  | Some e => throw e
  | None => mret (hex_EncodeToString (sha256_Sum256 copied))
  end.

Definition writeCompletionMarkerDurable (mediaPath destination : bytes) (identity : ResumeIdentity) (totalBytes : Z)
  : fsM unit :=
  if totalBytes <=? 0 then throw ErrCheckpointInvalid
  else
    contentHash ← hashFileSHA256 mediaPath;
    let marker := completion_marker identity totalBytes contentHash in
    _ ← lift (validateCompletionMarker marker);
    let encoded := json_Marshal marker in
    if containsForbiddenCheckpointBytes encoded then throw ErrCheckpointInvalid
    else replaceFile (completionMarkerPath destination) encoded.

Definition WriteCompletionMarker (destination : bytes) (identity : ResumeIdentity) (totalBytes : Z) : fsM unit :=
  writeCompletionMarkerDurable destination destination identity totalBytes.

(** [Ok None] is [(0, false, nil)]. *)
Definition ValidateCompletedTrack (destination : bytes) (identity : ResumeIdentity) : fsM (option Z) :=
  _ ← regular_at destination;
  info ← os_Lstat destination;
  match info with
  | LstatNotExist => mret None
  | LstatErr e => throw e
  | LstatInfo regular size =>
      if negb regular then throw ErrUnsafeDestination
      else if size <=? 0 then mret None
      else
        let markerPath := completionMarkerPath destination in
        _ ← regular_at markerPath;
        read ← try (os_ReadFile markerPath);
        match read with
        | Err e => if bool_decide (e = os_ErrNotExist) then mret None else throw e
        | Ok encoded =>
            if (zlen encoded >? MaxCheckpointBytes) || containsForbiddenCheckpointBytes encoded
            then throw ErrCheckpointInvalid
            else
              match decodeStrictJSON encoded with
              | Err _ => mret None
              | Ok marker =>
                  match validateCompletionMarker marker with
                  | Err _ => mret None
                  | Ok _ =>
                      if negb (matchesCompletion identity marker) then mret None
                      else if negb (cm_TotalBytes marker =? size) then mret None
                      else
                        got ← hashFileSHA256 destination;
                        if negb (bool_decide (got = cm_ContentSHA256 marker)) then throw ErrCheckpointInvalid
                        else
                          let '(partPath, statePath) := checkpointPaths destination in
                          _ ← clearResumeArtifacts partPath statePath;
                          mret (Some (cm_TotalBytes marker))
                  end
              end
        end
  end.

End Markers.

Definition removeCompletionMarker (destination : bytes) : fsM unit :=
  ignore (os_Remove (completionMarkerPath destination)).
