(* ===== verification/PersistFacts.v ===== *)
(** * Durable state: what the operations guarantee

    Replacing a file is atomic: at every moment the path names the old file or
    the new one, complete and synchronized; a saved checkpoint is read back;
    a validated track is the one its marker was written for. *)
From S2P Require Import Prelude Errors Varint GoStrings Url Wire Messages UmpReader Assembler Digest Recovery Checkpoint.
From S2P Require Import Runes Decimal FilePath Disk Persist.

(** ** Names *)

Lemma after_slash_no a : slash ∉ a -> after_slash a = a.
Proof. intros Ha. unfold after_slash. by rewrite Split_no. Qed.

Lemma after_slash_suffix a b : slash ∉ b -> after_slash (a ++ b) = after_slash a ++ b.
Proof.
  intros Hb. destruct (decide (slash ∈ a)) as [Ha|Ha].
  - apply list_elem_of_split_r in Ha as (a1 & a2 & -> & Ha2). rewrite <- app_assoc. simpl.
    rewrite !after_slash_app; try done. by rewrite not_elem_of_app.
  - rewrite !after_slash_no; try done. by rewrite not_elem_of_app.
Qed.

Lemma after_slash_no_slash a : slash ∉ after_slash a.
Proof.
  destruct (decide (slash ∈ a)) as [Ha|Ha]; [|by rewrite after_slash_no].
  apply list_elem_of_split_r in Ha as (a1 & a2 & -> & Ha2). by rewrite after_slash_app.
Qed.

Lemma TrimRightByte_snoc s c d : is_byte c d = false -> TrimRightByte (s ++ [d]) c = s ++ [d].
Proof. intros E. induction s as [|x s IH]; simpl; [by rewrite E|]. rewrite IH. by destruct s. Qed.

(** The base name of a path that ends in an extension. *)
Lemma Base_ext a b c : slash ∉ b ++ [c] -> Base (a ++ b ++ [c]) = after_slash a ++ b ++ [c].
Proof.
  intros Hb. unfold Base. rewrite bool_decide_false by (by destruct a, b).
  rewrite app_assoc, TrimRightByte_snoc, <- app_assoc, after_slash_suffix, bool_decide_false; try done.
  - by destruct (after_slash a), b.
  - destruct (is_byte slash c) eqn:E; [|done]. apply is_byte_true in E as <-. exfalso. apply Hb, elem_of_app. right. by left.
Qed.

(** The names [os.CreateTemp] may give beside [path]. *)
Definition temp_of (path : bytes) (n : Z) : bytes :=
  (if HasSuffix (Dir path) (lit "/") then Dir path else Dir path ++ lit "/") ++ temp_prefix path ++ Itoa n.

Definition temp_name (path name : bytes) : Prop := exists n, name = temp_of path n.

Lemma digit_not_slash s : forallb is_digit s = true -> slash ∉ s.
Proof. intros Hd Hs. rewrite forallb_forall in Hd. by specialize (Hd slash (proj1 (list_elem_of_In _ _) Hs)). Qed.

Lemma Itoa_no_slash n : slash ∉ Itoa n.
Proof.
  unfold Itoa. assert (forall fuel m acc, slash ∉ acc -> slash ∉ itoa_loop fuel m acc) as Hl.
  { intros fuel. induction fuel as [|fuel IH]; intros m acc Ha; [done|]. simpl.
    assert (slash ∉ z2b (48 + m mod 10) :: acc) as Hc.
    { rewrite not_elem_of_cons. split; [|done]. intros E. pose proof (Z.mod_pos_bound m 10 ltac:(lia)).
      apply (f_equal b2z) in E. rewrite b2z_z2b, Z.mod_small in E by lia. change (b2z slash) with 47 in E. lia. }
    destruct (m <? 10); [done|]. by apply IH. }
  destruct (n <? 0); [rewrite not_elem_of_cons; split; [done|]|]; apply Hl, not_elem_of_nil.
Qed.

(** They have a longer base name than [path]. *)
Lemma temp_name_base a b c name :
  slash ∉ b ++ [c] -> temp_name (a ++ b ++ [c]) name ->
  exists s, after_slash name = lit "." ++ (after_slash a ++ b ++ [c]) ++ lit ".tmp-" ++ s.
Proof.
  intros Hb (n & ->). exists (Itoa n). unfold temp_of, temp_prefix. rewrite Base_ext by done.
  set (dir := if HasSuffix _ _ then _ else _).
  assert (exists d0, dir = d0 ++ [slash]) as (d0 & ->).
  { subst dir. destruct (HasSuffix _ _) eqn:E; [|by eexists]. apply HasSuffix_app in E as [t ->]. by exists t. }
  rewrite <- app_assoc. simpl. rewrite after_slash_app; [by rewrite <- !app_assoc|].
  rewrite not_elem_of_cons. split; [done|]. rewrite !not_elem_of_app. rewrite not_elem_of_app in Hb.
  split_and!; try apply Hb; try apply after_slash_no_slash; try apply Itoa_no_slash.
  by apply (bool_decide_unpack _).
Qed.

(** ** Replacing a file *)

(** [path] is a regular file or free. *)
Definition regular_or_absent (d : disk) (path : bytes) : bool :=
  match d_names d !! path with None | Some (EFile _) => true | Some _ => false end.

Lemma wp_regular_at R Step path (Q : res unit -> disk -> Prop) d :
  (R = false -> forall code, Q (Err (os_fault code)) d) ->
  (regular_or_absent d path = false -> Q (Err ErrUnsafeDestination) d) ->
  (regular_or_absent d path = true -> Q (Ok tt) d) -> wps R Step (regular_at path) Q d.
Proof.
  intros Hf Hu HQ. unfold regular_or_absent in *. apply dwp_bind, wp_Lstat; [intros HR code; by apply wp_lift, Hf|].
  apply wp_lift. destruct (d_names d !! path) as [[]|]; simpl; auto.
Qed.

(** An error counts as no symbolic link. *)
Lemma wp_pathSymlink R Step path (Q : res bool -> disk -> Prop) d :
  (R = false -> Q (Ok false) d) -> Q (Ok (bool_decide (d_names d !! path = Some ESymlink))) d -> wps R Step (pathSymlink path) Q d.
Proof.
  intros Hf HQ fs <- Hr. unfold pathSymlink. pose proof (next_fault_disk R fs) as Hn.
  destruct (next_fault fs) as [f fs'] eqn:E. destruct Hn as (Hd & Htr & _ & Hr').
  destruct f as [|code n]; (eapply wps_still; [done|done|done|auto|]); [by rewrite Hd|by eapply Hf, next_fault_reliable].
Qed.

Section Replace.
Context (R : bool) (path encoded : bytes) (d0 : disk).
Hypothesis Htemp : forall name, temp_name path name -> name <> path.
Hypothesis Henc : encoded <> [].

(** Nothing else has changed: the other names, but for one temporary one, and
    the files there were. *)
Record framed (name : bytes) (d : disk) : Prop := {
  fr_names q : q <> path -> q <> name -> d_names d !! q = d_names d0 !! q;
  fr_inodes i ino : d_inodes d0 !! i = Some ino -> d_inodes d !! i = Some ino
}.

(** [path] names a file with the new contents, on stable storage. *)
Definition holds (d : disk) : Prop :=
  exists i, d_names d !! path = Some (EFile i) /\ d_inodes d !! i = Some (mkInode encoded (zlen encoded) true).

(** The same, and the file is new. *)
Definition installed (d : disk) : Prop :=
  exists i, d_inodes d0 !! i = None /\ d_names d !! path = Some (EFile i) /\
            d_inodes d !! i = Some (mkInode encoded (zlen encoded) true).

Lemma installed_holds d : installed d -> holds d.
Proof. intros (i & _ & ? & ?). by exists i. Qed.

(** Every moment of the replacement: the old entry or the new file, and
    nothing only after a rename that failed. *)
Definition replacing (d : disk) : Prop :=
  (exists name, temp_name path name /\ framed name d) /\
  (d_names d !! path = d_names d0 !! path \/ installed d \/ (R = false /\ d_names d !! path = None)).

(** A synchronized node never changes. *)
Definition solid (d d' : disk) : Prop :=
  forall i ino, d_inodes d !! i = Some ino -> ino_synced ino = true -> d_inodes d' !! i = Some ino.

(** A step of the replacement: what [path] names stays, or the new file takes
    its place, or nothing after a rename that failed. *)
Definition replaces (d d' : disk) : Prop :=
  (replacing d /\ replacing d') /\ solid d d' /\
  (d_names d' !! path = d_names d !! path \/ installed d' \/ (R = false /\ d_names d' !! path = None)).

Lemma replaces_names d d' :
  d_inodes d' = d_inodes d -> replacing d -> replacing d' ->
  (d_names d' !! path = d_names d !! path \/ installed d' \/ (R = false /\ d_names d' !! path = None)) -> replaces d d'.
Proof. intros Hi Hr Hr' He. split; [done|]. split; [|done]. intros i ino Hd _. by rewrite Hi. Qed.

Lemma solid_put d i ino ino' : d_inodes d !! i = Some ino -> ino_synced ino = false -> solid d (put_inode d i ino').
Proof. intros Hi Hs j inoj Hj Hsj. simpl. rewrite lookup_insert_ne; [done|]. intros ->. congruence. Qed.

Lemma solid_put_put d i ino ino' : ino_synced ino = false -> solid (put_inode d i ino) (put_inode d i ino').
Proof.
  intros Hs j inoj Hj Hsj. simpl in *. destruct (decide (i = j)) as [->|Hne].
  - rewrite lookup_insert_eq in Hj. congruence.
  - by rewrite lookup_insert_ne in Hj |- *.
Qed.

Context (Step : disk -> disk -> Prop).
Hypothesis HC : forall d d', replaces d d' -> Step d d'.

(** The temporary file [name] beside the old entry. *)
Record staged (name : bytes) (i : positive) (ino : inode) (d : disk) : Prop := {
  st_temp : temp_name path name;
  st_new : d_names d0 !! name = None /\ d_inodes d0 !! i = None;
  st_name : d_names d !! name = Some (EFile i);
  st_inode : d_inodes d !! i = Some ino;
  st_framed : framed name d
}.

Definition old_entry (d : disk) : Prop := d_names d !! path = d_names d0 !! path.

Lemma staged_data name i ino d : staged name i ino d -> data_of d i = ino_data ino.
Proof. intros [_ _ _ Hi _]. unfold data_of. by rewrite Hi. Qed.

Lemma staged_put name i ino ino' d : staged name i ino d -> staged name i ino' (put_inode d i ino').
Proof.
  intros [? [Hn Hi0] ? ? [Hf1 Hf2]]. split; try done; simpl; [by rewrite lookup_insert_eq|].
  split; [done|]. simpl. intros j ino0 Hj. rewrite lookup_insert_ne by congruence. by apply Hf2.
Qed.

Lemma staged_replacing name i ino d : staged name i ino d -> old_entry d -> replacing d.
Proof. intros [] ?. split; [by exists name|by left]. Qed.

(** The error is one of the file system or of the engine. *)
Definition plain_err (r : res unit) : Prop := forall e, r = Err e -> recovery_signal e = false.

(** What the replacement ends with: an error on a disk that does not fail
    leaves everything as it was. *)
Definition replaced (r : res unit) (d : disk) : Prop :=
  replacing d /\ (r = Ok tt -> installed d) /\ plain_err r /\
  (R = true -> (forall q, q <> path -> d_names d !! q = d_names d0 !! q) /\ (r = Ok tt \/ d = d0)).

(** The same before the temporary name is removed. *)
Definition nearly (name : bytes) (r : res unit) (d : disk) : Prop :=
  temp_name path name /\ framed name d /\ d_names d0 !! name = None /\ (d_names d !! name = None \/ exists i, d_names d !! name = Some (EFile i)) /\
  (d_names d !! path = d_names d0 !! path \/ installed d \/ (R = false /\ d_names d !! path = None)) /\
  (r = Ok tt -> installed d) /\ plain_err r /\ (R = true -> r = Ok tt).

Lemma staged_nearly name i ino d e :
  R = false -> staged name i ino d -> old_entry d -> recovery_signal e = false -> nearly name (Err e) d.
Proof.
  intros HR [? [? ?] ? ? ?] ? ?. split_and!; try done; [right; eauto|by left|by intros ? [= <-]|congruence].
Qed.

(** The name is moved onto [path]. *)
Lemma wp_rename_staged name i d (Q : res unit -> disk -> Prop) :
  staged name i (mkInode encoded (zlen encoded) true) d -> replacing d ->
  regular_or_absent d path = true ->
  (R = false -> forall code, Q (Err (os_fault code)) d) ->
  (forall d', nearly name (Ok tt) d' -> Q (Ok tt) d') ->
  wps R Step (os_Rename name path) Q d.
Proof.
  intros Hs Hrp Hreg Hf HQ. pose proof Hs as [Ht [Hn0 Hi0] Hn Hi [Hf1 Hf2]]. pose proof (Htemp _ Ht) as Hne.
  apply wp_Rename; [done|]. rewrite Hn. case_bool_decide as Ed.
  { apply HQ. assert (installed d) as Hh by (by exists i). split_and!; auto; [by split|right; eauto|done]. }
  set (d' := d <| d_names := _ |>).
  assert (installed d') as Hh. { exists i. simpl. by rewrite lookup_insert_eq. }
  assert (framed name d') as Hfr.
  { split; [|done]. intros q Hq1 Hq2. simpl. rewrite lookup_insert_ne, lookup_delete_ne by done. by apply Hf1. }
  assert (d_names d' !! name = None) as Hgone. { simpl. by rewrite lookup_insert_ne, lookup_delete_eq. }
  assert (Step d d' /\ Q (Ok tt) d') as HR.
  { split; [apply HC, replaces_names; [done|done|split; [by exists name|by right; left]|by right; left]|]. apply HQ. split_and!; auto; done. }
  unfold regular_or_absent in Hreg. by destruct (d_names d !! path) as [[]|].
Qed.

Lemma wp_rename_retry name i d :
  staged name i (mkInode encoded (zlen encoded) true) d -> old_entry d -> regular_or_absent d path = true ->
  wps R Step (rename_retry name path) (nearly name) d.
Proof.
  intros Hs Hold Hreg. pose proof (Htemp _ (st_temp _ _ _ _ Hs)) as Hne. pose proof (staged_replacing _ _ _ _ Hs Hold) as Hrp0.
  unfold rename_retry. apply dwp_bind, wp_try.
  apply (wp_rename_staged name i); [done|done|done| |by intros d' Hd'; apply dwp_ret].
  intros HR _. apply dwp_bind, wp_regular_at; [intros _ code; by eapply staged_nearly|by rewrite Hreg|intros _].
  apply dwp_bind, wp_try.
  assert (forall d', staged name i (mkInode encoded (zlen encoded) true) d' -> replacing d' -> regular_or_absent d' path = true ->
    (forall e, recovery_signal e = false -> nearly name (Err e) d') ->
    wps R Step (retried ← try (os_Rename name path); match retried with Ok _ => mret tt | Err _ => throw ErrDownloadFailed end)
      (nearly name) d') as Hretry.
  { intros d' Hs' Hrp' Hr' Hn'. apply dwp_bind, wp_try. apply (wp_rename_staged name i); [done|done|done| |by intros; apply dwp_ret].
    intros _ code. by apply wp_throw, Hn'. }
  apply wp_Remove; [intros _ code; rewrite bool_decide_false by done; by apply wp_throw; eapply staged_nearly|].
  destruct (d_names d !! path) as [e|] eqn:Ep.
  - set (d' := d <| d_names := delete path (d_names d) |>).
    assert (staged name i (mkInode encoded (zlen encoded) true) d') as Hs'.
    { destruct Hs as [? ? Hn ? [Hf1 Hf2]]. split; try done; simpl; [by rewrite lookup_delete_ne|].
      split; [|done]. intros q Hq1 Hq2. simpl. rewrite lookup_delete_ne by done. by apply Hf1. }
    assert (d_names d' !! path = None) as Hp' by (simpl; by rewrite lookup_delete_eq).
    assert (forall e, recovery_signal e = false -> nearly name (Err e) d') as Hn'.
    { intros err He. destruct Hs' as [? [? ?] ? ? ?]. split_and!; try done; [right; eauto|by right; right|by intros ? [= <-]|congruence]. }
    assert (replacing d') as Hrp by (destruct Hs'; split; [by exists name|by right; right]).
    unfold regular_or_absent in Hreg. rewrite Ep in Hreg. destruct e as [j| |]; try done.
    split; [apply HC, replaces_names; [done..|by right; right]|].
    apply Hretry; [done|done| |exact Hn']. unfold regular_or_absent. by rewrite Hp'.
  - rewrite bool_decide_true by done. apply Hretry; [done..|]. intros e He. by eapply staged_nearly.
Qed.

(** What writing the temporary file ends with. *)
Definition written (name : bytes) (i : positive) (r : res unit) (d : disk) : Prop :=
  old_entry d /\ exists ino, staged name i ino d /\
    (r = Ok tt -> ino = mkInode encoded (zlen encoded) true) /\ plain_err r /\ (R = true -> r = Ok tt).

Lemma wp_write_temp name i d :
  staged name i (mkInode [] 0 false) d -> old_entry d -> wps R Step (write_temp i encoded) (written name i) d.
Proof.
  intros Hs Hold. unfold write_temp. apply dwp_bind, wp_try, dwp_bind.
  assert (forall k, append_data d i (take k encoded) = put_inode d i (mkInode (take k encoded) 0 false)) as Ea
    by (intros k; unfold append_data; by rewrite (staged_data _ _ _ _ Hs), (st_inode _ _ _ _ Hs)).
  assert (forall k, let d' := append_data d i (take k encoded) in
    staged name i (mkInode (take k encoded) 0 false) d' /\ old_entry d' /\ replacing d') as Happ.
  { intros k. cbv zeta. rewrite Ea. pose proof (staged_put _ _ _ (mkInode (take k encoded) 0 false) _ Hs) as Hs'.
    split_and!; [done|done|by eapply staged_replacing]. }
  assert (forall d' ino e, R = false -> staged name i ino d' -> old_entry d' -> wps R Step
    (closeErr ← try (fd_Close i); match @Err go_error unit e, closeErr with Ok _, Ok _ => mret tt | _, _ => throw ErrDownloadFailed end)
    (written name i) d') as Hfail.
  { intros d' ino e HR Hs' Ho'. apply dwp_bind, wp_try, wp_Close; [intros _ code|]; apply wp_throw;
      (split; [done|]; exists ino; split_and!; [done|done|by intros ? [= <-]|congruence]). }
  pose proof (Happ (length encoded)) as Hall. rewrite take_ge in Hall by done. cbv zeta in Hall.
  pose proof (staged_replacing _ _ _ _ Hs Hold) as Hrp.
  apply wp_Write.
  - apply HC. split; [split; [done|apply Happ]|]. split; [rewrite Ea; eapply solid_put; [apply Hs|done]|]. left. by rewrite Ea.
  - intros k. apply HC. split; [split; apply Happ|]. split; [rewrite !Ea; by apply solid_put_put|]. left. by rewrite !Ea.
  - destruct Hall as (Hs1 & Ho1 & Hrp1). apply wp_Sync; [intros HR code; by apply (Hfail _ _ (os_fault code) HR Hs1)|].
    rewrite (staged_data _ _ _ _ Hs1). cbn [ino_data].
    pose proof (staged_put _ _ _ (mkInode encoded (zlen encoded) true) _ Hs1) as Hs2. set (d2 := put_inode _ i _) in *.
    split.
    + apply HC. split; [split; [done|by eapply staged_replacing]|]. split; [eapply solid_put; [apply Hs1|done]|by left].
    + apply dwp_bind, wp_try, wp_Close; [intros HR code; apply wp_throw|apply dwp_ret];
        (split; [done|]; eexists; split_and!; [done|done|by intros ? [= <-]|by (done || congruence)]).
  - done.
  - intros HR code k. split; [apply (Hfail _ _ (os_fault code) HR (proj1 (Happ k))); apply Happ|by apply (Hfail _ _ (os_fault code) HR Hs)].
Qed.

Lemma temp_exists : exists name, temp_name path name.
Proof. eexists. by exists 0. Qed.

Lemma replacing_start : replacing d0.
Proof. destruct temp_exists as [name Hn]. split; [|by left]. exists name. by split; [|split]. Qed.

Lemma replaced_start e : recovery_signal e = false -> replaced (Err e) d0.
Proof. intros He. split; [apply replacing_start|]. split_and!; [done|by intros ? [= <-]|]. intros _. split; [done|by right]. Qed.

(** The temporary name is removed, if it is still there. *)
Lemma wp_remove_temp name r d : nearly name r d -> wps R Step (os_Remove name) (fun _ d' => replaced r d') d.
Proof.
  intros (Ht & [Hf1 Hf2] & Hn0 & Hnm & Hp & Hr & Hpl & Hrel). pose proof (Htemp _ Ht) as Hne.
  assert (replacing d) as Hrd by (split; [exists name; by split|done]).
  apply wp_Remove; [intros HR code; split_and!; try done; congruence|].
  destruct Hnm as [Hnm|[j Hnm]]; rewrite Hnm.
  - split_and!; try done. intros HR. split; [|by left; auto]. intros q Hq.
    destruct (decide (q = name)) as [->|]; [congruence|by apply Hf1].
  - set (d' := d <| d_names := delete name (d_names d) |>).
    assert (d_names d' !! path = d_names d !! path) as Hp' by (simpl; by rewrite lookup_delete_ne).
    assert (installed d -> installed d') as Hh by (intros (k & ? & ? & ?); exists k; by rewrite Hp').
    assert (replacing d') as Hrd'.
    { split; [exists name; split; [done|]|rewrite Hp'; naive_solver]. split; [|done]. intros q Hq1 Hq2. simpl.
      rewrite lookup_delete_ne by done. by apply Hf1. }
    split; [apply HC, replaces_names; by auto|]. split_and!; try done; [intros Hr'; by apply Hh, Hr|].
    intros HR. split; [|by left; auto]. intros q Hq. simpl.
    destruct (decide (q = name)) as [->|]; [by rewrite lookup_delete_eq|]. rewrite lookup_delete_ne by done. by apply Hf1.
Qed.

(** From the new temporary file on; without failing calls it succeeds. *)
Lemma wp_replace_temp name i d1 :
  staged name i (mkInode [] 0 false) d1 -> old_entry d1 -> regular_or_absent d0 path = true ->
  wps R Step (deferred (os_Remove name) (_ ← write_temp i encoded; _ ← regular_at path; rename_retry name path))
    (fun r d => replaced r d /\ (R = true -> r = Ok tt)) d1.
Proof.
  intros Hs1 Ho1 Hreg. apply wp_deferred, dwp_bind.
  assert (forall r d, nearly name r d -> wps R Step (os_Remove name) (fun _ d' => replaced r d' /\ (R = true -> r = Ok tt)) d) as Hrm.
  { intros r d Hd. eapply dwp_mono; [by apply wp_remove_temp|]. intros r' d' Hd'. split; [done|]. by destruct Hd as (_ & _ & _ & _ & _ & _ & _ & ?). }
  eapply dwp_mono; [by apply wp_write_temp|]. intros [[]|e] d2 (Ho2 & ino & Hs2 & Hino & Hpl & Hrel).
  2: { apply Hrm. eapply staged_nearly; [|done..|by apply Hpl]. destruct R; [by specialize (Hrel eq_refl)|done]. }
  rewrite (Hino eq_refl) in Hs2.
  assert (regular_or_absent d2 path = true) as Hreg2 by (unfold regular_or_absent in *; by rewrite Ho2).
  apply dwp_bind, wp_regular_at; [intros HR code; by apply Hrm; eapply staged_nearly|by rewrite Hreg2|].
  intros _. eapply dwp_mono; [by eapply wp_rename_retry|]. intros r d3 Hd3. by apply Hrm.
Qed.

(** The new temporary file beside the old one. *)
Lemma created_staged n i :
  let name := temp_of path n in
  d_names d0 !! name = None -> d_inodes d0 !! i = None ->
  let d1 := mkDisk (<[name := EFile i]> (d_names d0)) (<[i := mkInode [] 0 false]> (d_inodes d0)) in
  staged name i (mkInode [] 0 false) d1 /\ old_entry d1.
Proof.
  intros name Hname Hi d1. assert (temp_name path name) as Ht by by exists n. split.
  - split; simpl; [done|done|by rewrite lookup_insert_eq|by rewrite lookup_insert_eq|].
    split; simpl; [intros q _ Hq; by rewrite lookup_insert_ne|]. intros j ino Hj. rewrite lookup_insert_ne by congruence. done.
  - unfold old_entry. simpl. rewrite lookup_insert_ne; [done|]. by apply Htemp.
Qed.

(** [replaceFile] is atomic. *)
Lemma wp_replaceFile : wps R Step (replaceFile path encoded) replaced d0.
Proof.
  unfold replaceFile. apply dwp_bind, wp_regular_at; [intros _ code; by apply replaced_start|by intros _; apply replaced_start|intros Hreg].
  apply dwp_bind, wp_try, wp_CreateTemp; [intros _ code; by apply wp_throw, replaced_start|by apply wp_throw, replaced_start|].
  intros n i name Hname Hi d1. destruct (created_staged n i Hname Hi) as [Hs1 Ho1]. split.
  { apply HC. split; [split; [apply replacing_start|by eapply staged_replacing]|]. split; [|by left].
    intros j ino Hj _. by apply (st_framed _ _ _ _ Hs1). }
  eapply dwp_mono; [by apply wp_replace_temp|]. by intros r d [? _].
Qed.

End Replace.

(** Without failing calls, and if one of the numbers drawn gives a free name,
    the file is replaced. *)
Lemma create_temp_run prefix random fs :
  Exists (fun n => d_names (fs_disk fs) !! (prefix ++ Itoa n) = None) random ->
  exists n i rest, let name := prefix ++ Itoa n in
    d_names (fs_disk fs) !! name = None /\ d_inodes (fs_disk fs) !! i = None /\
    create_temp prefix random fs = (Ok (name, i),
      push (mkDisk (<[name := EFile i]> (d_names (fs_disk fs))) (<[i := mkInode [] 0 false]> (d_inodes (fs_disk fs)))) (fs <| fs_random := rest |>)).
Proof.
  induction random as [|n random IH]; [by intros ?%Exists_nil|]. simpl. destruct (d_names (fs_disk fs) !! (prefix ++ Itoa n)) eqn:En.
  - intros [E|Hf]%Exists_cons; [congruence|by apply IH].
  - intros _. exists n, (fresh (dom (d_inodes (fs_disk fs)) : gset positive)), random. split_and!; [done|apply not_elem_of_dom, is_fresh|done].
Qed.

Lemma replaceFile_succeeds path encoded fs :
  (forall name, temp_name path name -> name <> path) -> encoded <> [] ->
  fs_faults fs = [] -> regular_or_absent (fs_disk fs) path = true ->
  Exists (fun n => d_names (fs_disk fs) !! temp_of path n = None) (fs_random fs) ->
  let '(r, fs') := replaceFile path encoded fs in
  r = Ok tt /\ fs_faults fs' = [] /\ replaced true path encoded (fs_disk fs) r (fs_disk fs').
Proof.
  intros Htemp Henc Hf Hreg Hfree. unfold temp_of in Hfree.
  assert (Exists (fun n => d_names (fs_disk fs) !! (((if HasSuffix (Dir path) (lit "/") then Dir path else Dir path ++ lit "/") ++ temp_prefix path) ++ Itoa n) = None)
    (fs_random fs)) as Hfree' by (eapply Exists_impl; [exact Hfree|]; intros n; by rewrite <- app_assoc).
  apply create_temp_run in Hfree' as (n & i & rest & Hname & Hi & Hrun). rewrite <- app_assoc in Hname, Hrun.
  assert (regular_at path fs = (Ok tt, fs)) as Hrg.
  { unfold regular_at, mbind, fsM_bind, os_Lstat, next_fault, lift. rewrite Hf. unfold regular_or_absent in Hreg.
    by destruct (d_names (fs_disk fs) !! path) as [[]|]. }
  assert (os_CreateTemp (Dir path) (temp_prefix path) fs = (Ok (temp_of path n, i),
    push (mkDisk (<[temp_of path n := EFile i]> (d_names (fs_disk fs))) (<[i := mkInode [] 0 false]> (d_inodes (fs_disk fs)))) (fs <| fs_random := rest |>))) as Hct
    by (unfold os_CreateTemp, faulty, next_fault; rewrite Hf; exact Hrun).
  unfold replaceFile, mbind at 1, fsM_bind at 1. rewrite Hrg. unfold mbind at 1, fsM_bind at 1, try. rewrite Hct.
  destruct (created_staged path (fs_disk fs) Htemp n i Hname Hi) as [Hs1 Ho1].
  match goal with |- context [deferred _ _ ?f] => set (fs1 := f) end.
  pose proof (wp_replace_temp true path encoded (fs_disk fs) Htemp Henc (fun _ _ => True) ltac:(done) _ _ _ Hs1 Ho1 Hreg fs1 eq_refl ltac:(by intros _)) as Hw.
  destruct (deferred _ _ fs1) as [r fs']. destruct Hw as ([Hrep Hok] & Hrel & _). split_and!; [by apply Hok|by apply Hrel|done].
Qed.

(** ** Files of a disk *)

Definition file_at (d : disk) (path : bytes) : option bytes :=
  match d_names d !! path with
  | Some (EFile i) => ino_data <$> d_inodes d !! i
  | _ => None
  end.

(** A file, if [path] names one, is on stable storage. *)
Definition synced_at (d : disk) (path : bytes) : Prop :=
  forall i, d_names d !! path = Some (EFile i) -> exists data, d_inodes d !! i = Some (mkInode data (zlen data) true).

Lemma file_at_data d path data : file_at d path = Some data -> exists i, d_names d !! path = Some (EFile i) /\ data_of d i = data.
Proof.
  unfold file_at, data_of. destruct (d_names d !! path) as [[i| |]|]; try done.
  destruct (d_inodes d !! i) eqn:E; [|done]. intros [= <-]. exists i. by rewrite E.
Qed.

(** A synchronized file that a moment of the run names. *)
Lemma file_at_survives (h : list disk) d dn d' path data i :
  last h = Some d -> survives h d' -> d_names d' !! path = d_names dn !! path ->
  d_names dn !! path = Some (EFile i) -> d_inodes d !! i = Some (mkInode data (zlen data) true) ->
  file_at d' path = Some data.
Proof.
  intros Hl [_ (d1 & Hl1 & Hi)] Hn Hp He. rewrite Hl in Hl1. injection Hl1 as <-. unfold file_at. rewrite Hn, Hp.
  destruct (Hi _ _ He) as (ino' & -> & Hs & _). simpl. by rewrite Hs.
Qed.

#[export] Instance solid_refl : Reflexive solid.
Proof. intros d i ino Hi _. done. Qed.

#[export] Instance solid_trans : Transitive solid.
Proof. intros d1 d2 d3 H1 H2 i ino Hi Hs. auto. Qed.

Lemma chained_solid R path encoded d0 d l e :
  chained (replaces R path encoded d0) d l e -> Forall (fun m => solid m e) (d :: l).
Proof. apply chained_to_last; [apply _..|]. by intros ? ? (_ & ? & _). Qed.

(** Whenever a replacement is stopped, and whichever of its names have reached
    the disk: the old entry or the whole new file is found. *)
Lemma replaces_survives R path encoded d0 l e d' :
  chained (replaces R path encoded d0) d0 l e -> survives (d0 :: l) d' ->
  d_names d' !! path = d_names d0 !! path \/ file_at d' path = Some encoded \/ (R = false /\ d_names d' !! path = None).
Proof.
  intros Hc Hsv. pose proof (chained_last _ _ _ _ Hc) as Hl.
  pose proof (chained_solid _ _ _ _ _ _ _ Hc) as Hsolid.
  assert (Forall (replacing R path encoded d0) (d0 :: l)) as Hrep.
  { constructor; [apply replacing_start|]. eapply chained_Forall; [|exact Hc]. by intros ? ? ([_ ?] & _). }
  destruct (proj1 Hsv path) as (dn & Hdn & Hn). rewrite Forall_forall in Hrep, Hsolid.
  destruct (Hrep dn Hdn) as [_ [He|[(i & _ & Hp & Hi)|[HR He]]]]; [left; congruence| |right; right; split; [done|congruence]].
  right. left. eapply file_at_survives; eauto. by apply (Hsolid dn Hdn).
Qed.

(** Runs on a machine that starts on [d]. *)
Lemma wps_boot {A} R Step (m : fsM A) Q d faults random :
  wps R Step m Q d -> (R = true -> faults = []) ->
  let '(r, fs) := m (boot d faults random) in
  Q r (fs_disk fs) /\ reliable R fs /\ exists l, fs_trace fs = d :: l /\ chained Step d l (fs_disk fs).
Proof.
  intros Hm HR. specialize (Hm (boot d faults random) eq_refl HR). destruct (m _) as [r fs].
  destruct Hm as (? & ? & new & Ht & ?). split_and!; [done|done|]. by exists new.
Qed.

Lemma wp_boot {A} R (C : disk -> Prop) (m : fsM A) Q d faults random :
  wp R C m Q d -> C d -> (R = true -> faults = []) ->
  let '(r, fs) := m (boot d faults random) in Q r (fs_disk fs) /\ Forall C (fs_trace fs).
Proof.
  intros Hm HC HR. pose proof (wps_boot R _ m Q d faults random Hm HR) as Hb. destruct (m _) as [r fs].
  destruct Hb as (HQ & _ & l & -> & Hc). split; [done|]. constructor; [done|].
  eapply chained_Forall; [|exact Hc]. done.
Qed.

(** ... and in the middle of one. *)
Lemma wp_trace {A} R (C : disk -> Prop) (m : fsM A) Q fs :
  wp R C m Q (fs_disk fs) -> reliable R fs -> Forall C (fs_trace fs) ->
  let '(r, fs') := m fs in Q r (fs_disk fs') /\ reliable R fs' /\ Forall C (fs_trace fs').
Proof.
  intros Hm Hr Ht. specialize (Hm fs eq_refl Hr). destruct (m fs) as [r fs']. destruct Hm as (? & ? & new & -> & Hc).
  split_and!; [done|done|]. apply Forall_app. split; [done|]. eapply chained_Forall; [|exact Hc]. done.
Qed.

Lemma wp_run {A} (m : fsM A) Q d random :
  wp true (fun _ => True) m Q d -> Q (m (boot d [] random)).1 (fs_disk (m (boot d [] random)).2).
Proof. intros Hm. pose proof (wp_boot _ _ _ _ _ [] random Hm I ltac:(done)) as H. destruct (m _). apply H. Qed.

(** ** Checkpoints *)

Section Checkpoints.
Context `{!UnicodeTables} `{!JsonCodec sabrCheckpoint}.

(** What a checkpoint read back for [identity] satisfies. *)
Record storable (identity : checkpointIdentity) (state : sabrCheckpoint) : Prop := {
  sb_valid : validateCheckpoint state = Ok tt;
  sb_identity : checkpointIdentity_matches identity state = true;
  sb_size : zlen (json_Marshal state) <= MaxCheckpointBytes;
  sb_public : containsForbiddenCheckpointBytes (json_Marshal state) = false;
  sb_text : Forall (fun s => utf8_Valid s = true) (json_strings state);
  sb_typed : checkpoint_typed state
}.

Lemma decodeStrict_marshal `{JsonCodec A} (x : A) :
  Forall (fun s => utf8_Valid s = true) (json_strings x) -> json_widths x -> decodeStrictJSON (json_Marshal x) = Ok x.
Proof. intros Hx Hw. unfold decodeStrictJSON. by rewrite json_roundtrip. Qed.

(** A file that is read back as [state] for [identity]. *)
Record loadable (identity : checkpointIdentity) (encoded : bytes) (state : sabrCheckpoint) : Prop := {
  lo_size : 0 < zlen encoded <= MaxCheckpointBytes;
  lo_public : containsForbiddenCheckpointBytes encoded = false;
  lo_decodes : decodeStrictJSON encoded = Ok state;
  lo_valid : validateCheckpoint state = Ok tt;
  lo_identity : checkpointIdentity_matches identity state = true
}.

Lemma storable_loadable identity state : storable identity state -> loadable identity (json_Marshal state) state.
Proof.
  intros [Hv Hm Hz Hp Ht Hty]. split; try done; [|by apply decodeStrict_marshal].
  split; [|done]. pose proof (json_nonempty state) as Hne. pose proof (zlen_nonneg (json_Marshal state)).
  rewrite <- zlen_0_nil in Hne. lia.
Qed.

Lemma loadable_det identity encoded s1 s2 : loadable identity encoded s1 -> loadable identity encoded s2 -> s1 = s2.
Proof. intros [_ _ H1 _ _] [_ _ H2 _ _]. congruence. Qed.

Lemma loadable_typed identity encoded state : loadable identity encoded state -> checkpoint_typed state.
Proof.
  intros [_ _ Hd _ _]. apply bind_Ok_inv in Hd as ([x rest] & Hx & Hr). destruct (forallb json_space rest); [|done].
  injection Hr as <-. by apply (json_decoded _ _ _ Hx).
Qed.

(** Without failing calls, exactly the loadable files are loaded. *)
Lemma wp_load_iff Step path identity d :
  wps true Step (loadCheckpoint path identity)
    (fun r d' => d' = d /\ forall cp, r = Ok (Some cp) <-> exists encoded, file_at d path = Some encoded /\ loadable identity encoded cp) d.
Proof.
  assert (forall r : res (option sabrCheckpoint), (forall encoded cp, file_at d path = Some encoded -> loadable identity encoded cp -> False) ->
    (forall cp, r <> Ok (Some cp)) -> d = d /\ forall cp, r = Ok (Some cp) <-> exists encoded, file_at d path = Some encoded /\ loadable identity encoded cp) as Hno.
  { intros r Hn Hr. split; [done|]. intros cp. split; [by intros ?%Hr|]. intros (encoded & Hf & Hl). by destruct (Hn _ _ Hf Hl). }
  unfold loadCheckpoint. apply dwp_bind, wp_regular_at; [done| |intros _].
  { intros Hreg. apply Hno; [|done]. unfold regular_or_absent, file_at in *. by destruct (d_names d !! path) as [[]|]. }
  apply dwp_bind, wp_Lstat; [done|]. unfold file_at in *. destruct (d_names d !! path) as [[i| |]|] eqn:Ep.
  2-3: by apply wp_throw, Hno. 2: by apply dwp_ret, Hno. cbn [negb].
  assert (forall encoded, ino_data <$> d_inodes d !! i = Some encoded -> data_of d i = encoded) as Hdata
    by (intros encoded; unfold data_of; by intros ->).
  destruct (Z.leb_spec (zlen (data_of d i)) 0).
  { apply dwp_ret, Hno; [|done]. intros encoded cp <-%Hdata [Hs _ _ _ _]. lia. }
  destruct (Z.gtb_spec (zlen (data_of d i)) MaxCheckpointBytes).
  { apply wp_throw, Hno; [|done]. intros encoded cp <-%Hdata [Hs _ _ _ _]. lia. }
  apply dwp_bind, wp_ReadFile; [done|]. rewrite Ep. assert (zlen (data_of d i) >? MaxCheckpointBytes = false) as -> by lia.
  destruct (containsForbiddenCheckpointBytes _) eqn:Ef.
  { apply wp_throw, Hno; [|done]. intros encoded cp <-%Hdata [_ Hp _ _ _]. congruence. }
  destruct (decodeStrictJSON _) as [state|] eqn:Ed.
  2: { apply dwp_ret, Hno; [|done]. intros encoded cp <-%Hdata [_ _ Hd _ _]. congruence. }
  destruct (validateCheckpoint state) as [[]|] eqn:Ev.
  2: { apply dwp_ret, Hno; [|done]. intros encoded cp <-%Hdata [_ _ Hd Hv _]. congruence. }
  destruct (checkpointIdentity_matches identity state) eqn:Em; cbn [negb]; apply dwp_ret.
  2: { apply Hno; [|done]. intros encoded cp <-%Hdata [_ _ Hd Hv Hm]. congruence. }
  split; [done|]. intros cp. split.
  - intros [= <-]. exists (data_of d i). split; [|done]. unfold data_of in *. by destruct (d_inodes d !! i).
  - intros (encoded & <-%Hdata & [_ _ Hd _ _]). congruence.
Qed.

(** Either the checkpoint is refused and nothing happens, or its file is
    replaced. *)
Lemma wp_saveCheckpoint R Step path state (Q : res unit -> disk -> Prop) d0 :
  (forall name, temp_name path name -> name <> path) ->
  (forall e, recovery_signal e = false -> Q (Err e) d0) ->
  (validateCheckpoint state = Ok tt -> zlen (json_Marshal state) <= MaxCheckpointBytes ->
   containsForbiddenCheckpointBytes (json_Marshal state) = false ->
   (forall d d', replaces R path (json_Marshal state) d0 d d' -> Step d d') /\
   (forall r d, replaced R path (json_Marshal state) d0 r d -> Q r d)) ->
  wps R Step (saveCheckpoint path state) Q d0.
Proof.
  intros Ht He HQ. unfold saveCheckpoint. apply dwp_bind, wp_lift.
  destruct (validateCheckpoint state) as [[]|e] eqn:Ev; [|apply He; apply validateCheckpoint_err in Ev as ->; done].
  destruct (Z.gtb_spec (zlen (json_Marshal state)) MaxCheckpointBytes); [by apply wp_throw, He|].
  destruct (containsForbiddenCheckpointBytes _); [by apply wp_throw, He|].
  destruct HQ as [HC HQ]; try done. eapply dwp_mono; [apply wp_replaceFile; [done|apply json_nonempty|done]|exact HQ].
Qed.

End Checkpoints.

(** ** Paths of a download *)

Definition partPath_of (destination : bytes) : bytes := (checkpointPaths destination).1.
Definition statePath_of (destination : bytes) : bytes := (checkpointPaths destination).2.

Lemma statePath_eq destination : statePath_of destination = destination ++ lit ".part.json".
Proof. unfold statePath_of. simpl. by rewrite <- app_assoc. Qed.

(** The temporary names beside [destination ++ ext] are none of the paths of
    the download. *)
Lemma temp_name_far destination ext c suffix name :
  slash ∉ ext ++ [c] -> slash ∉ suffix -> (length suffix <= S (length ext))%nat ->
  temp_name (destination ++ ext ++ [c]) name -> name <> destination ++ suffix.
Proof.
  intros He Hs Hl (s & Hn)%temp_name_base E; [|done]. rewrite E, after_slash_suffix in Hn by done.
  apply (f_equal length) in Hn. rewrite !length_app in Hn. simpl in Hn. lia.
Qed.

Definition download_suffixes : list bytes := [[]; lit ".part"; lit ".part.json"; lit ".sabr.json"].

Lemma download_suffixes_short : Forall (fun s => slash ∉ s /\ (length s <= 10)%nat) download_suffixes.
Proof. decided. Qed.

Lemma temp_of_state destination suffix name :
  suffix ∈ download_suffixes -> temp_name (statePath_of destination) name -> name <> destination ++ suffix.
Proof.
  intros [Hs1 Hs2]%(proj1 (Forall_forall _ _) download_suffixes_short). unfold statePath_of. simpl. rewrite <- app_assoc.
  by apply (temp_name_far destination (lit ".part.jso") "n"%byte); [decided|..].
Qed.

Lemma temp_of_state_self destination name : temp_name (statePath_of destination) name -> name <> statePath_of destination.
Proof.
  intros Ht. pose proof (temp_of_state destination (lit ".part.json") name ltac:(decided) Ht) as Hne. by rewrite statePath_eq.
Qed.

Lemma temp_of_marker destination suffix name :
  suffix ∈ download_suffixes -> temp_name (completionMarkerPath destination) name -> name <> destination ++ suffix.
Proof.
  intros [Hs1 Hs2]%(proj1 (Forall_forall _ _) download_suffixes_short).
  by apply (temp_name_far destination (lit ".sabr.jso") "n"%byte); [decided|..].
Qed.

(** ** Completion markers *)

Section Markers.
Context `{!Sha256} `{!UnicodeTables} `{!JsonCodec sabrCompletionMarker}.

(** The hash of a file within the size bound. *)
Lemma wp_hashFile R Step path (Q : res bytes -> disk -> Prop) d :
  (forall e, Q (Err e) d) ->
  (forall data, file_at d path = Some data -> zlen data <= MaxMediaBytes -> Q (Ok (hex_EncodeToString (sha256_Sum256 data))) d) ->
  (forall i, d_names d !! path = Some (EFile i) -> is_Some (d_inodes d !! i) /\ zlen (data_of d i) <= MaxMediaBytes) ->
  wps R Step (hashFileSHA256 path) Q d.
Proof.
  intros He HQ Hsz. unfold hashFileSHA256. apply dwp_bind, wp_Open; [by intros|].
  destruct (d_names d !! path) as [[i| |]|] eqn:Ep; try apply He. destruct (Hsz i) as [[ino Hi] Hz]; [done|].
  assert (file_at d path = Some (data_of d i)) as Hf by (unfold file_at, data_of; by rewrite Ep, Hi).
  unfold io_CopyLimit. cbn [io_rest io_err].
  split.
  - assert (zlen (data_of d i) >=? MaxMediaBytes + 1 = false) as -> by (rewrite Z.geb_leb; apply Z.leb_gt; lia).
    apply dwp_ret. by apply HQ.
  - intros _ code n. assert (zlen (take n (data_of d i)) >=? MaxMediaBytes + 1 = false) as ->; [|by apply wp_throw].
    rewrite Z.geb_leb. apply Z.leb_gt. unfold zlen in *. rewrite length_take. lia.
Qed.

(** What [ValidateCompletedTrack] accepts. *)
Record completed (d : disk) (destination : bytes) (identity : ResumeIdentity) (size : Z) (data : bytes)
    (marker : sabrCompletionMarker) : Prop := {
  co_data : file_at d destination = Some data /\ zlen data = size /\ 0 < size <= MaxMediaBytes;
  co_marker : exists encoded, file_at d (completionMarkerPath destination) = Some encoded /\ decodeStrictJSON encoded = Ok marker;
  co_identity : matchesCompletion identity marker = true;
  co_content : cm_TotalBytes marker = size /\ cm_ContentSHA256 marker = hex_EncodeToString (sha256_Sum256 data)
}.

(** Every name of a regular file has its node. *)
Definition disk_wf (d : disk) : Prop := forall path i, d_names d !! path = Some (EFile i) -> is_Some (d_inodes d !! i).

Lemma file_at_wf d path i : disk_wf d -> d_names d !! path = Some (EFile i) -> file_at d path = Some (data_of d i).
Proof. intros Hw Hp. destruct (Hw _ _ Hp) as [ino Hi]. unfold file_at, data_of. by rewrite Hp, Hi. Qed.

Lemma validateMarker_total marker : validateCompletionMarker marker = Ok tt -> 0 < cm_TotalBytes marker <= MaxMediaBytes.
Proof.
  unfold validateCompletionMarker. rewrite !guard_Ok_iff. intros (_ & _ & _ & _ & _ & Hs & _). reflect_bools. lia.
Qed.

(** Only the checkpoint and the partial file are removed. *)
Definition cleared (d0 : disk) (paths : list bytes) (d : disk) : Prop :=
  d_inodes d = d_inodes d0 /\ (forall q, d_names d !! q = d_names d0 !! q \/ (q ∈ paths /\ d_names d !! q = None)).

Lemma wp_ignore_remove R (Step : disk -> disk -> Prop) d0 paths path (Q : res unit -> disk -> Prop) d :
  (forall d1 d2, cleared d0 paths d1 -> cleared d0 paths d2 -> Step d1 d2) -> path ∈ paths -> cleared d0 paths d ->
  (forall d', cleared d0 paths d' -> (R = true -> regular_or_absent d path = true -> d_names d' !! path = None) ->
     (forall q, q <> path -> d_names d' !! q = d_names d !! q) -> Q (Ok tt) d') ->
  wps R Step (ignore (os_Remove path)) Q d.
Proof.
  intros HC Hp Hc HQ. apply wp_ignore, wp_Remove; [intros HR _; apply HQ; [done|congruence|done]|].
  set (d' := d <| d_names := delete path (d_names d) |>).
  assert (forall q, q <> path -> d_names d' !! q = d_names d !! q) as Hk by (intros q Hq; simpl; by rewrite lookup_delete_ne).
  assert (cleared d0 paths d') as Hc'.
  { destruct Hc as [Hi Hn]. split; [done|]. intros q. destruct (decide (q = path)) as [->|Hq].
    - right. simpl. by rewrite lookup_delete_eq.
    - rewrite Hk by done. apply Hn. }
  assert (Q (Ok tt) d') as HQ' by (apply HQ; [done|simpl; by rewrite lookup_delete_eq|done]).
  pose proof (HC _ _ Hc Hc') as HS. unfold regular_or_absent in HQ.
  destruct (d_names d !! path) as [[i| |[]]|] eqn:E; try done; apply HQ; by rewrite ?E.
Qed.

Lemma cleared_refl d paths : cleared d paths d.
Proof. split; [done|]. by left. Qed.

Lemma wp_clearResumeArtifacts R (Step : disk -> disk -> Prop) d0 partPath statePath d (Q : res unit -> disk -> Prop) :
  (forall d1 d2, cleared d0 [partPath; statePath] d1 -> cleared d0 [partPath; statePath] d2 -> Step d1 d2) ->
  cleared d0 [partPath; statePath] d -> partPath <> statePath ->
  (forall d', cleared d0 [partPath; statePath] d' ->
     (R = true -> regular_or_absent d partPath = true -> regular_or_absent d statePath = true ->
      d_names d' !! partPath = None /\ d_names d' !! statePath = None) -> Q (Ok tt) d') ->
  wps R Step (clearResumeArtifacts partPath statePath) Q d.
Proof.
  intros HC Hc Hne HQ. unfold clearResumeArtifacts. apply dwp_bind.
  apply (wp_ignore_remove R Step d0 [partPath; statePath]); [done|by left|done|]. intros d1 Hc1 Hp1 Hk1.
  apply (wp_ignore_remove R Step d0 [partPath; statePath]); [done|by right; left|done|]. intros d2 Hc2 Hp2 Hk2.
  apply HQ; [done|]. intros HR Hr1 Hr2. split; [rewrite Hk2 by done; by apply Hp1|]. apply Hp2; [done|].
  unfold regular_or_absent in *. by rewrite Hk1.
Qed.

(** A track that is reported complete is complete, whatever fails, and only
    leftover artifacts are removed. *)
Lemma wp_ValidateCompletedTrack R destination identity d0 :
  disk_wf d0 ->
  let paths := [partPath_of destination; statePath_of destination] in
  wp R (cleared d0 paths) (ValidateCompletedTrack destination identity)
    (fun r d => cleared d0 paths d /\ (forall size, r = Ok (Some size) -> exists data marker, completed d0 destination identity size data marker)) d0.
Proof.
  intros Hw paths. assert (forall r : res (option Z), (forall size, r <> Ok (Some size)) -> cleared d0 paths d0 /\
    (forall size, r = Ok (Some size) -> exists data marker, completed d0 destination identity size data marker)) as Hno.
  { intros r Hr. split; [apply cleared_refl|]. intros size E. by apply Hr in E. }
  unfold ValidateCompletedTrack.
  apply dwp_bind, wp_regular_at; [intros; by apply Hno..|intros Hreg].
  apply dwp_bind, wp_Lstat; [intros; by apply wp_throw, Hno|].
  destruct (d_names d0 !! destination) as [[i| |]|] eqn:Ed; try (by apply wp_throw, Hno); [|by apply dwp_ret, Hno].
  cbn [negb]. destruct (Z.leb_spec (zlen (data_of d0 i)) 0); [by apply dwp_ret, Hno|].
  apply dwp_bind, wp_regular_at; [intros; by apply Hno..|intros _].
  apply dwp_bind, wp_try, wp_ReadFile; [intros; rewrite bool_decide_false by done; by apply wp_throw, Hno|].
  destruct (d_names d0 !! completionMarkerPath destination) as [[j| |]|] eqn:Em;
    try (rewrite bool_decide_false by done; by apply wp_throw, Hno); [|by apply dwp_ret, Hno].
  pose proof (file_at_wf _ _ _ Hw Em) as Hfm. destruct (_ || _); [by apply wp_throw, Hno|].
  destruct (decodeStrictJSON _) as [marker|] eqn:Edec; [|by apply dwp_ret, Hno].
  destruct (validateCompletionMarker marker) as [[]|] eqn:Ev; [|by apply dwp_ret, Hno].
  apply validateMarker_total in Ev. destruct (matchesCompletion identity marker) eqn:Emt; [|by apply dwp_ret, Hno]. cbn [negb].
  destruct (Z.eqb_spec (cm_TotalBytes marker) (zlen (data_of d0 i))) as [Esz|]; [|by apply dwp_ret, Hno]. cbn [negb].
  pose proof (file_at_wf _ _ _ Hw Ed) as Hfd.
  apply dwp_bind, wp_hashFile; [by intros; apply Hno| |intros k Hk; rewrite Ed in Hk; injection Hk as <-; split; [by apply (Hw destination)|lia]].
  intros data Hdata Hz. rewrite Hfd in Hdata. injection Hdata as <-.
  case_bool_decide as Eh; [|by apply wp_throw, Hno]. cbn [negb].
  change (checkpointPaths destination) with (partPath_of destination, statePath_of destination). cbn iota.
  apply dwp_bind, (wp_clearResumeArtifacts R _ d0); [done|apply cleared_refl| |].
  { unfold partPath_of, statePath_of. simpl. intros E%(f_equal length). rewrite !length_app in E. simpl in E. lia. }
  intros d1 Hc1 _. apply dwp_ret. split; [done|]. intros size [= <-]. exists (data_of d0 i), marker.
  split; [split_and!; [done|done|lia..]|by exists (data_of d0 j)|done|done].
Qed.

(** Without failing calls, the hash of a file is that of its bytes. *)
Lemma wp_hash_reliable Step path data (Q : res bytes -> disk -> Prop) d :
  file_at d path = Some data -> zlen data <= MaxMediaBytes -> Q (Ok (hex_EncodeToString (sha256_Sum256 data))) d ->
  wps true Step (hashFileSHA256 path) Q d.
Proof.
  intros (i & Hp & Hd)%file_at_data Hz HQ. unfold hashFileSHA256. apply dwp_bind, wp_Open; [done|]. rewrite Hp. split; [|done].
  unfold io_CopyLimit. cbn [io_rest io_err]. rewrite Hd.
  assert (zlen data >=? MaxMediaBytes + 1 = false) as -> by (rewrite Z.geb_leb; apply Z.leb_gt; lia). by apply dwp_ret.
Qed.

(** A file beside the marker that was written for it is reported complete. *)
Lemma wp_ValidateCompletedTrack_complete destination identity d data encoded marker :
  file_at d destination = Some data -> 0 < zlen data <= MaxMediaBytes ->
  file_at d (completionMarkerPath destination) = Some encoded ->
  zlen encoded <= MaxCheckpointBytes -> containsForbiddenCheckpointBytes encoded = false -> decodeStrictJSON encoded = Ok marker ->
  validateCompletionMarker marker = Ok tt -> matchesCompletion identity marker = true ->
  cm_TotalBytes marker = zlen data -> cm_ContentSHA256 marker = hex_EncodeToString (sha256_Sum256 data) ->
  wps true (fun _ _ => True) (ValidateCompletedTrack destination identity) (fun r _ => r = Ok (Some (zlen data))) d.
Proof.
  intros Hf Hz Hm Hsz Hfb Hdec Hv Hmt Htot Hsha.
  apply file_at_data in Hm as (j & Hmp & Hmd). pose proof Hf as (i & Hp & Hd)%file_at_data.
  unfold ValidateCompletedTrack. apply dwp_bind, wp_regular_at; [done|unfold regular_or_absent; by rewrite Hp|intros _].
  apply dwp_bind, wp_Lstat; [done|]. rewrite Hp, Hd. cbn [negb]. assert (zlen data <=? 0 = false) as -> by lia.
  apply dwp_bind, wp_regular_at; [done|unfold regular_or_absent; by rewrite Hmp|intros _].
  apply dwp_bind, wp_try, wp_ReadFile; [done|]. rewrite Hmp, Hmd. assert (zlen encoded >? MaxCheckpointBytes = false) as -> by lia.
  rewrite Hfb. cbn [orb]. rewrite Hdec, Hv, Hmt, Htot, Z.eqb_refl. cbn [negb].
  apply dwp_bind, (wp_hash_reliable _ _ data); [done|lia|]. rewrite bool_decide_true by done. cbn [negb].
  change (checkpointPaths destination) with (partPath_of destination, statePath_of destination). cbn iota.
  apply dwp_bind, (wp_clearResumeArtifacts true _ d); [done|apply cleared_refl| |by intros; apply dwp_ret].
  unfold partPath_of, statePath_of. simpl. intros E%(f_equal length). rewrite !length_app in E. simpl in E. lia.
Qed.

End Markers.
