(* ===== verification/Durable.v ===== *)
(** * Durable state: claims

    The theorems of [Persist] on a machine that starts on a given disk, and a
    concrete encoding to evaluate them with. *)
From S2P Require Import Prelude Errors Varint GoStrings Url Wire Messages UmpReader Assembler Digest Recovery Checkpoint.
From S2P Require Import Runes Decimal FilePath Disk Persist PersistFacts.

(** ** Paths *)

Lemma Clean_rooted path : IsAbs path = true -> exists l, Forall plain l /\ Clean path = render true l.
Proof. intros E. unfold Clean. rewrite E. eexists. split; [apply clean_components_plain|done]. Qed.

Lemma IsAbs_app a b : IsAbs a = true -> IsAbs (a ++ b) = true.
Proof. unfold IsAbs. intros [t ->]%HasPrefix_app. rewrite <- app_assoc. apply HasPrefix_app. by eexists. Qed.

(** Under a rooted working directory every absolute path is rooted. *)
Lemma Abs_rooted (dir path : bytes) : IsAbs dir = true ->
  exists l, Forall plain l /\ Abs (@Ok go_error bytes dir) path = Ok (render true l).
Proof.
  intros Hd. unfold Abs. destruct (IsAbs path) eqn:Ep.
  - destruct (Clean_rooted path Ep) as (l & ? & ->). by exists l.
  - simpl. unfold Join2. simpl. assert (bool_decide (dir = []) = false) as -> by (apply bool_decide_false; by intros ->). simpl.
    destruct (bool_decide (path = [])); simpl.
    + destruct (Clean_rooted dir Hd) as (l & ? & ->). by exists l.
    + destruct (Clean_rooted (dir ++ lit "/" ++ path)) as (l & ? & E); [by apply IsAbs_app|]. exists l. split; [done|]. f_equal. exact E.
Qed.

Lemma Join2_Clean a b : a <> [] -> b <> [] -> Join2 a b = Clean (a ++ slash :: b).
Proof. intros Ha Hb. unfold Join2. cbn [List.filter]. by rewrite !bool_decide_false. Qed.

Lemma Join2_render base x : Forall plain base -> plain x -> Join2 (render true base) x = render true (base ++ [x]).
Proof.
  intros Hb Hx. pose proof Hx as (X1 & _ & _ & X4). rewrite Join2_Clean; [|by destruct base|done]. unfold Clean.
  rewrite IsAbs_app by apply IsAbs_render. f_equal. pose proof (clean_render base Hb) as Hc. unfold clean_components in *.
  rewrite Split_app_sep, (Split_no x), foldl_app by done. cbn [foldl]. rewrite clean_step_keep, reverse_cons, Hc by done. done.
Qed.

(** ** Directories *)

(** No directory from [base] down along [l] is a symbolic link. *)
Definition no_symlink (d : disk) (base l : list bytes) : Prop :=
  forall k, (0 < k <= length l)%nat -> d_names d !! render true (base ++ take k l) <> Some ESymlink.

(** Each directory takes one [Lstat]; one that fails counts as no link. *)
Definition inspected (d : disk) (faults : list fault) (base l : list bytes) : Prop :=
  forall k, (k < length l)%nat ->
    d_names d !! render true (base ++ take (S k) l) <> Some ESymlink \/ exists code n, faults !! k = Some (Fault code n).

Lemma check_plain base l fs :
  Forall plain base -> Forall plain l -> (check_components (render true base) l fs).1 = Ok tt ->
  inspected (fs_disk fs) (fs_faults fs) base l.
Proof.
  intros Hb Hl. revert base fs Hb. induction Hl as [|x l Hx Hl IH]; intros base fs Hb; cbn [check_components].
  { intros _ k Hk. simpl in Hk. lia. }
  pose proof Hx as (X1 & X2 & _ & _). rewrite !bool_decide_false by done. cbn [orb]. rewrite Join2_render by done.
  assert (Forall plain (base ++ [x])) as Hbx by (apply Forall_app; split; [done|by apply Forall_singleton]).
  unfold mbind, fsM_bind, pathSymlink, next_fault.
  assert (forall fs', fs_disk fs' = fs_disk fs -> fs_faults fs' = tail (fs_faults fs) ->
    (d_names (fs_disk fs) !! render true (base ++ [x]) <> Some ESymlink \/ exists code n, fs_faults fs !! 0%nat = Some (Fault code n)) ->
    (check_components (render true (base ++ [x])) l fs').1 = Ok tt -> inspected (fs_disk fs) (fs_faults fs) base (x :: l)) as Hrest.
  { intros fs' Ed Ef H0 Hr [|k] Hk; [exact H0|]. specialize (IH _ fs' Hbx Hr k ltac:(simpl in Hk; lia)).
    rewrite Ed, Ef, <- app_assoc in IH. destruct IH as [IH|(code & n & IH)]; [by left|right]. exists code, n.
    by destruct (fs_faults fs). }
  destruct (fs_faults fs) as [|[|code n] faults] eqn:Ef.
  - case_bool_decide; [done|]. apply Hrest; [done|by rewrite Ef|by left].
  - case_bool_decide; [done|]. apply Hrest; [done|done|by left].
  - apply Hrest; [done|done|right; by eauto].
Qed.

Lemma check_dir base rest fs :
  Forall plain base -> Forall plain rest ->
  (check_components (render true base) (Split (Dir (render false rest)) slash) fs).1 = Ok tt ->
  inspected (fs_disk fs) (fs_faults fs) base (take (length rest - 1) rest).
Proof.
  intros Hb Hr. destruct rest as [|x l _] using rev_ind; [intros _ k Hk; simpl in Hk; lia|].
  apply Forall_app in Hr as [Hl Hx]. rewrite Forall_singleton in Hx. rewrite Dir_render by done.
  rewrite length_app, Nat.add_sub, take_app_length. destruct (decide (l = [])) as [->|Hne]; [intros _ k Hk; simpl in Hk; lia|].
  assert (Split (render false l) slash = l) as -> by (unfold render; rewrite bool_decide_false by done; by apply Split_Join_plain).
  by apply check_plain.
Qed.

(** ** Claims *)


(** Beside [path] only a temporary name of it has changed, and no file there
    was. *)
Definition beside (path : bytes) (d0 d : disk) : Prop :=
  (exists name, temp_name path name /\ forall q, q <> path -> q <> name -> d_names d !! q = d_names d0 !! q) /\
  (forall i ino, d_inodes d0 !! i = Some ino -> d_inodes d !! i = Some ino).

(** [path] names what it did, or a synchronized file with [encoded]; or it is
    free, which takes a call that failed. *)
Definition atomically (path encoded : bytes) (failing : Prop) (d0 d : disk) : Prop :=
  d_names d !! path = d_names d0 !! path \/ holds path encoded d \/ (failing /\ d_names d !! path = None).

Lemma replacing_atomically R path encoded (failing : Prop) d0 d :
  (R = false -> failing) -> replacing R path encoded d0 d -> atomically path encoded failing d0 d /\ beside path d0 d.
Proof.
  intros Hf [(name & Ht & [Hf1 Hf2]) He]. split; [|by split; [exists name|]].
  destruct He as [?|[?%installed_holds|[? ?]]]; unfold atomically; auto.
Qed.

Section Checkpoints.
Context `{!UnicodeTables} `{!JsonCodec sabrCheckpoint}.

(** The steps of a save. *)
Lemma save_checkpoint_steps destination state d0 faults random :
  let path := statePath_of destination in
  let encoded := json_Marshal state in
  let R := bool_decide (faults = []) in
  let '(r, fs) := saveCheckpoint path state (boot d0 faults random) in
  exists l, fs_trace fs = d0 :: l /\ chained (replaces R path encoded d0) d0 l (fs_disk fs) /\
    (r = Ok tt -> holds path encoded (fs_disk fs)) /\
    (R = true -> (forall q, q <> path -> d_names (fs_disk fs) !! q = d_names d0 !! q) /\ (r = Ok tt \/ fs_disk fs = d0)).
Proof.
  intros path encoded R.
  assert (wps R (replaces R path encoded d0) (saveCheckpoint path state)
    (fun r d => (r = Ok tt -> holds path encoded d) /\
       (R = true -> (forall q, q <> path -> d_names d !! q = d_names d0 !! q) /\ (r = Ok tt \/ d = d0))) d0) as Hwp.
  { apply wp_saveCheckpoint; [apply temp_of_state_self|by intros; split; [|auto]|]. intros _ _ _. split; [done|].
    intros r d (_ & Hi & _ & Hr). split; [intros E; by eapply installed_holds, Hi|exact Hr]. }
  pose proof (wps_boot _ _ _ _ _ faults random Hwp ltac:(by intros ?%bool_decide_eq_true)) as Hb.
  destruct (saveCheckpoint path state _) as [r fs]. destruct Hb as ([? ?] & _ & l & ? & ?). by exists l.
Qed.


(** What is loaded depends on the entry and its bytes alone. *)
Lemma load_same path identity d d' :
  d_names d' !! path = d_names d !! path -> (forall i, d_names d !! path = Some (EFile i) -> data_of d' i = data_of d i) ->
  (loadCheckpoint path identity (boot d' [] [])).1 = (loadCheckpoint path identity (boot d [] [])).1.
Proof.
  intros Hn Hd. unfold loadCheckpoint, regular_at, os_Lstat, os_ReadFile, faulty, lift, mbind, fsM_bind, next_fault, boot. simpl.
  rewrite Hn. destruct (d_names d !! path) as [[i| |]|] eqn:Ep; try done. rewrite (Hd i eq_refl). simpl.
  destruct (_ <=? _); [done|]. destruct (_ >? _) eqn:Ez; [done|]. simpl. rewrite Hn, Ep, (Hd i eq_refl), Ez.
  destruct (containsForbiddenCheckpointBytes _); [done|]. destruct (decodeStrictJSON _) as [state|]; [|done].
  destruct (validateCheckpoint state); [|done]. by destruct (negb _).
Qed.


End Checkpoints.

Section Markers.
Context `{!Sha256} `{!UnicodeTables} `{!JsonCodec sabrCompletionMarker}.

(** C5. A track that is reported complete is complete, whatever fails: the
    destination is a file of the reported size within the media bound, whose
    digest and size are those of a marker written for this very track; only
    the leftover checkpoint and partial file are removed. *)
Theorem completed_track_sound destination identity d0 faults random :
  disk_wf d0 ->
  let paths := [partPath_of destination; statePath_of destination] in
  let '(r, fs) := ValidateCompletedTrack destination identity (boot d0 faults random) in
  Forall (cleared d0 paths) (fs_trace fs) /\
  (forall size, r = Ok (Some size) -> exists data marker, completed d0 destination identity size data marker).
Proof.
  intros Hw paths. pose proof (wp_boot _ _ _ _ _ faults random (wp_ValidateCompletedTrack false destination identity d0 Hw)
    ltac:(apply cleared_refl) ltac:(done)) as Hb. destruct (ValidateCompletedTrack _ _ _) as [r fs]. destruct Hb as [[_ Hr] Ht]. done.
Qed.

End Markers.

(** ** An encoding

    Not the JSON of the engine, but an encoding with the laws the engine uses:
    the fields of a value one after the other, each ended by a zero byte. *)

Abbreviation fields := (list (bytes + Z)).

(** A zero byte and the escape are escaped. *)
Definition escape (c : byte) : bytes := match c with x00 => [x01; "0"%byte] | x01 => [x01; "1"%byte] | _ => [c] end.

Definition put_text (s : bytes) : bytes := flat_map escape s ++ [x00].

(** The text up to the zero byte and what follows it. *)
Fixpoint get_text (data : bytes) : option (bytes * bytes) :=
  match data with
  | [] => None
  | x00 :: data => Some ([], data)
  | x01 :: c :: data => '(s, rest) ← get_text data; Some ((if is_byte "0" c then x00 else x01) :: s, rest)
  | c :: data => '(s, rest) ← get_text data; Some (c :: s, rest)
  end.

Lemma get_put_text s rest : get_text (put_text s ++ rest) = Some (s, rest).
Proof.
  unfold put_text. induction s as [|c s IH]; [done|]. cbn [flat_map]. rewrite <- !app_assoc in *.
  cbn [app] in IH. destruct c; cbn [escape app get_text]; by rewrite IH.
Qed.

Fixpoint digits (p : positive) : bytes :=
  match p with
  | xH => []
  | xO p => "0"%byte :: digits p
  | xI p => "1"%byte :: digits p
  end.

Definition undigits (s : bytes) : positive := foldr (fun c p => if is_byte "1" c then xI p else xO p) xH s.

Lemma undigits_digits p : undigits (digits p) = p.
Proof. induction p as [p IH|p IH|]; [..|done]; cbn [digits undigits foldr is_byte]; unfold undigits in IH; by rewrite IH. Qed.

Definition put_field (f : bytes + Z) : bytes :=
  match f with
  | inl s => "s"%byte :: put_text s
  | inr Z0 => "z"%byte :: put_text []
  | inr (Zpos p) => "p"%byte :: put_text (digits p)
  | inr (Zneg p) => "n"%byte :: put_text (digits p)
  end.

Definition get_field (data : bytes) : option ((bytes + Z) * bytes) :=
  match data with
  | [] => None
  | tag :: data =>
      '(s, rest) ← get_text data;
      if is_byte "s" tag then Some (inl s, rest)
      else if is_byte "z" tag then Some (inr 0, rest)
      else if is_byte "p" tag then Some (inr (Zpos (undigits s)), rest)
      else if is_byte "n" tag then Some (inr (Zneg (undigits s)), rest)
      else None
  end.

Lemma get_put_field f rest : get_field (put_field f ++ rest) = Some (f, rest).
Proof. destruct f as [s|[|p|p]]; cbn [put_field app get_field]; rewrite get_put_text; simpl; by rewrite ?undigits_digits. Qed.

Fixpoint get_fields (fuel : nat) (data : bytes) : option fields :=
  match fuel, data with
  | _, [] => Some []
  | O, _ => None
  | S fuel, _ => '(f, rest) ← get_field data; cons f <$> get_fields fuel rest
  end.

Lemma get_put_fields l fuel : (length l <= fuel)%nat -> get_fields fuel (flat_map put_field l) = Some l.
Proof.
  revert fuel. induction l as [|f l IH]; intros fuel Hf; [by destruct fuel|]. destruct fuel as [|fuel]; simpl in Hf; [lia|].
  cbn [flat_map]. assert (get_fields (S fuel) (put_field f ++ flat_map put_field l) =
    '(f, rest) ← get_field (put_field f ++ flat_map put_field l); cons f <$> get_fields fuel rest) as ->.
  { by destruct f as [s|[|p|p]]. }
  rewrite get_put_field. simpl. rewrite IH by lia. done.
Qed.

Lemma put_fields_length l : (length l <= length (flat_map put_field l))%nat.
Proof. induction l as [|f l IH]; [done|]. simpl. rewrite length_app. destruct f as [s|[|p|p]]; simpl; lia. Qed.

Definition flag (b : bool) : bytes + Z := inr (if b then 1 else 0).

Definition segment_fields (s : sabrCheckpointSegment) : fields :=
  [inr (cps_Sequence s); inl (cps_Digest s); inr (cps_DurationMs s); inr (cps_StartTimeMs s); inr (cps_Length s);
   inr (cps_StartTicks s); inr (cps_DurationTicks s); inr (cps_Timescale s)].

Fixpoint segments_of (l : fields) : option (list sabrCheckpointSegment) :=
  match l with
  | [] => Some []
  | inr a :: inl b :: inr c :: inr d :: inr e :: inr f :: inr g :: inr h :: l =>
      cons (mkCheckpointSegment a b c d e f g h) <$> segments_of l
  | _ => None
  end.

Lemma segments_of_fields l : segments_of (flat_map segment_fields l) = Some l.
Proof. induction l as [|[] l IH]; [done|]. cbn [flat_map segment_fields app segments_of]. by rewrite IH. Qed.

Definition checkpoint_fields (c : sabrCheckpoint) : fields :=
  [inr (cp_Version c); inl (cp_VideoID c); inr (cp_ClientName c); inl (cp_ClientVersion c); inl (cp_TrackKind c);
   inr (cp_Itag c); inr (cp_LastModified c); inl (cp_XTags c); inr (cp_DurationSec c); inl (cp_UstreamerSHA256 c);
   inl (cp_AudioTrackID c); flag (cp_DrcEnabled c); flag (cp_InitWritten c); inl (cp_InitDigest c); inr (cp_InitLength c);
   flag (cp_FormatVerified c); flag (cp_EndOfTrack c); inr (cp_NextSequence c); flag (cp_HasSequence c);
   inr (cp_CumulativeMs c); inr (cp_TotalWritten c)] ++ flat_map segment_fields (cp_Segments c).

Definition checkpoint_of (l : fields) : option sabrCheckpoint :=
  match l with
  | inr a :: inl b :: inr c :: inl d :: inl e :: inr f :: inr g :: inl h :: inr i :: inl j :: inl k :: inr m :: inr n ::
    inl o :: inr p :: inr q :: inr r :: inr s :: inr t :: inr u :: inr v :: l =>
      mkCheckpoint a b c d e f g h i j k (m =? 1) (n =? 1) o p (q =? 1) (r =? 1) s (t =? 1) u v <$> segments_of l
  | _ => None
  end.

Lemma checkpoint_of_fields c : checkpoint_of (checkpoint_fields c) = Some c.
Proof.
  destruct c as [a b c d e f g h i j k m n o p q r s t u v l]. cbn [checkpoint_fields app checkpoint_of flag cp_Segments].
  unfold checkpoint_fields, checkpoint_of, flag. cbn [app cp_Segments]. rewrite segments_of_fields. cbn [fmap option_fmap option_map].
  by destruct m, n, q, r, t.
Qed.

Definition marker_fields (c : sabrCompletionMarker) : fields :=
  [inr (cm_Version c); inl (cm_VideoID c); inr (cm_ClientName c); inl (cm_ClientVersion c); inl (cm_TrackKind c);
   inr (cm_Itag c); inr (cm_LastModified c); inl (cm_XTags c); inr (cm_DurationSec c); inl (cm_UstreamerSHA256 c);
   inl (cm_AudioTrackID c); flag (cm_DrcEnabled c); inr (cm_TotalBytes c); inl (cm_ContentSHA256 c)].

Definition marker_of (l : fields) : option sabrCompletionMarker :=
  match l with
  | [inr a; inl b; inr c; inl d; inl e; inr f; inr g; inl h; inr i; inl j; inl k; inr m; inr n; inl o] =>
      Some (mkMarker a b c d e f g h i j k (m =? 1) n o)
  | _ => None
  end.

Lemma marker_of_fields c : marker_of (marker_fields c) = Some c.
Proof. by destruct c as [? ? ? ? ? ? ? ? ? ? ? [] ? ?]. Qed.

#[export] Instance checkpoint_typed_dec c : Decision (checkpoint_typed c).
Proof.
  destruct (decide (is_i64 (cp_InitLength c) /\ Forall (fun s => is_i64 (cps_Length s) /\ is_i64 (cps_DurationMs s)) (cp_Segments c))) as [H|H].
  - left. by destruct H.
  - right. intros [? ?]. by apply H.
Defined.

Section Codec.
Context `{!JsonStruct A} (to_fields : A -> fields) (of_fields : fields -> option A).
Context (Hof : forall x, of_fields (to_fields x) = Some x) (Hne : forall x, to_fields x <> []) `{forall x, Decision (json_widths x)}.

Definition fields_Decode (data : bytes) : res (A * bytes) :=
  match (l ← get_fields (length data) data; of_fields l) with
  | Some x => if decide (json_widths x) then Ok (x, []) else Err os_ErrInvalid
  | None => Err os_ErrInvalid
  end.

Definition fields_codec : JsonCodec A.
Proof.
  refine {| json_Marshal x := flat_map put_field (to_fields x); json_Decode := fields_Decode |}.
  - intros x _ Hw. unfold fields_Decode. rewrite get_put_fields by apply put_fields_length. simpl. rewrite Hof. by rewrite decide_True.
  - intros data x rest. unfold fields_Decode. destruct (get_fields _ data ≫= _); [|done]. case_decide; [|done]. by intros [= <- _].
  - intros x E. pose proof (put_fields_length (to_fields x)) as Hl. rewrite E in Hl. apply (Hne x), nil_length_inv. simpl in Hl. lia.
Defined.

End Codec.

Definition checkpoint_codec : JsonCodec sabrCheckpoint :=
  fields_codec checkpoint_fields checkpoint_of checkpoint_of_fields ltac:(done).
Definition marker_codec : JsonCodec sabrCompletionMarker :=
  fields_codec marker_fields marker_of marker_of_fields ltac:(done).

(** ** Witnesses *)

Lemma disk_wf_list d :
  forallb (fun p => match p.2 with EFile i => bool_decide (is_Some (d_inodes d !! i)) | _ => true end) (map_to_list (d_names d)) = true ->
  disk_wf d.
Proof.
  intros Hm path i Hp. rewrite forallb_forall in Hm. apply elem_of_map_to_list, list_elem_of_In, Hm in Hp. by apply bool_decide_eq_true in Hp.
Qed.

Section Witnesses.
#[local] Existing Instance dotted_i_tables.
#[local] Existing Instance padded_digest.
#[local] Existing Instance checkpoint_codec.
#[local] Existing Instance marker_codec.

(** The first directory is a link, but the call that looks at it fails. *)
Definition linked_disk : disk := mkDisk {[ lit "/home/user/music/album" := ESymlink ]} ∅.


(** A link between the root and the destination is refused, and so is a
    destination outside of the root. *)
Example destination_refused :
  let d := mkDisk {[ lit "/srv/music/album" := ESymlink ]} ∅ in
  let check path := (validateDestination (Ok (lit "/home")) (lit "/srv/music") path (boot d [] [])).1 in
  map check [lit "/srv/music/album/a"; lit "/srv/music/../a"; lit "/srv/musical"; lit "/srv/music/x/a"] =
  [Err ErrUnsafeDestination; Err ErrUnsafeDestination; Err ErrUnsafeDestination; Ok tt].
Proof. vm_compute. reflexivity. Qed.

Definition sample_destination : bytes := lit "out/track.m4a".
Definition empty_disk : disk := mkDisk ∅ ∅.

Lemma sample_storable : storable sample_identity sample_checkpoint.
Proof.
  split.
  - vm_compute. reflexivity.
  - vm_compute. reflexivity.
  - vm_compute. discriminate.
  - vm_compute. reflexivity.
  - decided.
  - exact sample_checkpoint_typed.
Qed.

(** The first rename fails, the second succeeds. *)
Definition rename_faults : list fault := repeat NoFault 6 ++ [Fault 5 0].


(** The directory is not synchronized: a save that succeeded may be gone after
    the machine stops. *)
Example saved_name_may_be_lost :
  let path := statePath_of sample_destination in
  let '(r, fs) := saveCheckpoint path sample_checkpoint (boot empty_disk [] [7]) in
  let d' := mkDisk ∅ (d_inodes (fs_disk fs)) in
  r = Ok tt /\ survives (fs_trace fs) d' /\ (loadCheckpoint path sample_identity (boot d' [] [])).1 = Ok None.
Proof.
  pose proof (save_checkpoint_steps sample_destination sample_checkpoint empty_disk [] [7]) as Hs. cbv zeta in Hs |- *.
  destruct (saveCheckpoint (statePath_of sample_destination) sample_checkpoint (boot empty_disk [] [7])) as [r fs] eqn:E.
  split; [apply (f_equal fst) in E; etransitivity; [symmetry; exact E|]; vm_compute; reflexivity|].
  destruct Hs as (l & -> & Hc & _). split; [|by vm_compute]. split.
  - intros q. exists empty_disk. split; [apply list_elem_of_here|done].
  - exists (fs_disk fs). split; [by eapply chained_last|apply (nodes_survive_refl (fs_disk fs))].
Qed.

(** Both renames fail: the old checkpoint has been removed for the second one,
    and the new one goes with the temporary file. *)
Example checkpoint_lost_by_retry :
  let path := statePath_of sample_destination in
  let d0 := mkDisk {[ path := EFile 1 ]} {[ 1%positive := mkInode (lit "old") 3 true ]} in
  let faults := repeat NoFault 6 ++ [Fault 5 0; NoFault; NoFault; Fault 5 0] in
  let '(r, fs) := saveCheckpoint path sample_checkpoint (boot d0 faults [7]) in
  r = Err ErrDownloadFailed /\ d_names (fs_disk fs) !! path = None /\ elements (dom (d_names (fs_disk fs))) = [].
Proof. vm_compute. split; [reflexivity|]. split; reflexivity. Qed.

(** Where the save stands at its moments: the checkpoint is there, free or
    not yet. *)
Example save_moments :
  let '(r, fs) := saveCheckpoint (statePath_of sample_destination) sample_checkpoint (boot empty_disk rename_faults [7]) in
  r = Ok tt /\ length (elements (dom (d_names (fs_disk fs)))) = 1%nat /\
  last (fs_trace fs) ≫= (fun d => file_at d (statePath_of sample_destination)) = Some (json_Marshal sample_checkpoint).
Proof. vm_compute. split; [reflexivity|]. split; reflexivity. Qed.

(** A published track with its marker. *)
Definition sample_resume_identity : ResumeIdentity := IdentityFromConfig sample_config.

Definition published_disk : disk :=
  fs_disk (WriteCompletionMarker sample_destination sample_resume_identity 5
    (boot (mkDisk {[ sample_destination := EFile 1 ]} {[ 1%positive := mkInode (lit "media") 5 true ]}) [] [3])).2.

Lemma completed_track_sound_witness :
  (ValidateCompletedTrack sample_destination sample_resume_identity (boot published_disk [] [])).1 = Ok (Some 5) /\
  exists data marker, completed published_disk sample_destination sample_resume_identity 5 data marker.
Proof.
  assert ((ValidateCompletedTrack sample_destination sample_resume_identity (boot published_disk [] [])).1 = Ok (Some 5)) as E by (vm_compute; reflexivity).
  split; [exact E|]. pose proof (completed_track_sound sample_destination sample_resume_identity published_disk [] []) as Hc.
  destruct (ValidateCompletedTrack sample_destination sample_resume_identity (boot published_disk [] [])) as [r fs]. apply Hc; [|exact E].
  apply disk_wf_list. vm_compute. reflexivity.
Defined.
End Witnesses.
