(* ===== verification/Download.v ===== *)
(** * A whole download

    [Download] of [downloader.go] around the round loop: the configuration and
    the paths are checked, an earlier partial file is taken up if its
    checkpoint verifies, every commit of the assembler saves a checkpoint, and
    a complete track is synchronized, marked and published.

    While the partial file is open, its bytes are in the handle the assembler
    writes to; they are put on the disk ([settle]) when it is synchronized for
    a checkpoint and when it is closed.  Between two checkpoints the file only
    grows, which is what its node on the disk allows for ([ino_synced] is
    false and [ino_stable] is what was synchronized). *)
From S2P Require Import Prelude Errors Varint GoStrings Url Wire Messages UmpReader Directives ContextState Assembler.
From S2P Require Import Control Request Digest Recovery Headers Checkpoint Post Downloader Runes FilePath Disk Persist.

(** ** The open partial file *)

(** [outputFile]: its node, its bytes, and how its writes and synchronizations
    to come go.  It is kept on failure ([persistOnFailure]). *)
Record partHandle := mkHandle {
  ph_inode : positive;
  ph_data : bytes;
  ph_faults : list fault
}.

Definition handle_Write (h : partHandle) (data : bytes) : (Z * option go_error) * partHandle :=
  match ph_faults h with
  | Fault code n :: faults =>
      let k := min (Z.to_nat n) (length data) in
      (Z.of_nat k, Some (os_fault code), mkHandle (ph_inode h) (ph_data h ++ take k data) faults)
  | faults => (zlen data, None, mkHandle (ph_inode h) (ph_data h ++ data) (tail faults))
  end.

Definition handle_Sync (h : partHandle) : option go_error * partHandle :=
  match ph_faults h with
  | Fault code _ :: faults => (Some (os_fault code), mkHandle (ph_inode h) (ph_data h) faults)
  | faults => (None, mkHandle (ph_inode h) (ph_data h) (tail faults))
  end.

#[export, refine] Instance part_file : OsFile partHandle := {|
  file_Write := handle_Write;
  file_Sync := handle_Sync;
  file_data := ph_data
|}.
Proof.
  - intros [i d l] data n err f' Hw. unfold handle_Write in Hw. simpl in Hw. destruct l as [|[|code k] l]; injection Hw as <- <- <-; simpl.
    1, 2: unfold zlen; rewrite Nat2Z.id, take_ge by lia; split_and!; lia || done.
    rewrite Nat2Z.id. unfold zlen. split_and!; lia || done.
  - intros [i d l] data n e f' Hw. unfold handle_Write in Hw. simpl in Hw. by destruct l as [|[|code k] l]; simplify_eq/=.
  - intros [i d l] err f' Hs. unfold handle_Sync in Hs. simpl in Hs. by destruct l as [|[|code k] l]; simplify_eq/=.
Defined.

(** The bytes of the handle are the file's; [stable] of them are on stable
    storage. *)
Definition settle (h : partHandle) (stable : Z) (fs : fsys) : fsys :=
  push (put_inode (fs_disk fs) (ph_inode h) (mkInode (ph_data h) stable false)) fs.

Definition stable_of (fs : fsys) (i : positive) : Z := default 0 (ino_stable <$> d_inodes (fs_disk fs) !! i).

Abbreviation trackFile := (trackAssembler partHandle fsys).

(** The file is closed; what was not synchronized is not stable. *)
Definition close_file (a : trackFile) : fsys :=
  match asm_file a with
  | Some h => settle h (stable_of (asm_world a) (ph_inode h)) (asm_world a)
  | None => asm_world a
  end.

Section Download.
Context {T S : Type} `{!Sha256} `{!UnicodeTables} `{!IoReader S} `{!Env T S}.
Context `{!JsonCodec sabrCheckpoint} `{!JsonCodec sabrCompletionMarker}.

(** [assembler.onCommit], called when the file has been synchronized *)
Definition commit_hook (identity : checkpointIdentity) (statePath : bytes) (a : trackFile) : option go_error * fsys :=
  let fs := match asm_file a with
            | Some h => settle h (zlen (ph_data h)) (asm_world a)
            | None => asm_world a
            end in
  match snapshotCheckpoint a identity with
  | Err e => (Some e, fs)
  | Ok state => let '(r, fs) := saveCheckpoint statePath state fs in (res_err r, fs)
  end.

(** The checks of the configuration. *)
Definition check_config (transport : bool) (config : Config) : res unit :=
  if negb transport then Err ErrMissingConfig
  else if negb (nonempty (cfg_ServerURL config)) || negb (nonempty (cfg_UstreamerConfig config)) ||
          (fmt_Itag (cfg_Format config) =? 0) then Err ErrMissingConfig
  else if negb (bool_decide (cfg_TrackKind config = TrackAudio)) && negb (bool_decide (cfg_TrackKind config = TrackVideo))
  then Err ErrInvalidMediaState
  else if cfg_DurationSec config <=? 0 then Err ErrMissingConfig
  else
    _ ← validateResumeVideoID (cfg_VideoID config);
    _ ← ValidateSABRURL (cfg_ServerURL config);
    Ok tt.

Definition max_bytes (config : Config) : Z := clamp (cfg_MaxBytes config) MaxMediaBytes.

(** The paths, up to loading the checkpoint; the expected duration. *)
Definition check_paths (cwd : res bytes) (config : Config) (outputRoot destination : bytes) (overwrite : bool) : fsM Z :=
  _ ← os_MkdirAll outputRoot;
  _ ← validateDestination cwd outputRoot destination;
  _ ← os_MkdirAll (Dir destination);
  _ ← validateDestination cwd outputRoot destination;
  info ← os_Lstat destination;
  _ ← lift match info with
           | LstatNotExist => Ok tt
           | LstatErr e => Err e
           | LstatInfo regular _ =>
               if negb regular then Err ErrUnsafeDestination
               else if negb overwrite then Err ErrDestinationExists else Ok tt
           end;
  _ ← lift (if round_attempts config >? maxSABRAttempts then Err ErrTooManyAttempts else Ok tt);
  expected ← lift (expectedDurationMs (cfg_DurationSec config));
  let '(partPath, statePath) := checkpointPaths destination in
  _ ← validateDestination cwd outputRoot partPath;
  _ ← validateDestination cwd outputRoot statePath;
  _ ← regular_at partPath;
  _ ← regular_at statePath;
  mret expected.

(** The checkpoint to resume from: it loads and the partial file verifies. *)
Definition find_resume (identity : checkpointIdentity) (partPath statePath : bytes) : fsM (option sabrCheckpoint) :=
  loaded ← loadCheckpoint statePath identity;
  resumed ← match loaded with
            | None => mret None
            | Some checkpoint =>
                verified ← try (verify_part partPath checkpoint);
                match verified with
                | Ok _ => mret (Some checkpoint)
                | Err _ => _ ← clearResumeArtifacts partPath statePath; mret None
                end
            end;
  match resumed with
  | Some checkpoint => mret (Some checkpoint)
  | None => _ ← clearResumeArtifacts partPath statePath; mret None
  end.

Definition offset_of (resumed : option sabrCheckpoint) : Z :=
  match resumed with Some checkpoint => cp_TotalWritten checkpoint | None => 0 end.

Definition open_part (partPath statePath : bytes) (resumed : option sabrCheckpoint) : fsM (positive * option sabrCheckpoint) :=
  opened ← try (openResumePart partPath (offset_of resumed));
  match opened with
  | Ok i => mret (i, resumed)
  | Err e =>
      if bool_decide (is_Some resumed) && bool_decide (e = ErrCheckpointInvalid) then
        _ ← clearResumeArtifacts partPath statePath;
        opened ← try (openResumePart partPath 0);
        match opened with
        | Ok i => mret (i, None)
        | Err _ => throw ErrDownloadFailed
        end
      else throw ErrDownloadFailed
  end.

(** The file [output.file] is closed and a new one opened. *)
Definition reopenPartFresh (i : positive) (partPath : bytes) : fsM positive :=
  _ ← ignore (fd_Close i);
  _ ← ignore (os_Remove partPath);
  openResumePart partPath 0.

(** A handle on node [i], whose first [offset] bytes are there. *)
Definition handle_at (i : positive) (faults : list fault) (fs : fsys) : partHandle :=
  mkHandle i (data_of (fs_disk fs) i) faults.

Definition fresh_assembler (config : Config) (expected : Z) (faults : list fault) (i : positive) (fs : fsys) : trackFile :=
  newTrackAssembler (cfg_Format config) expected (Some (handle_at i faults fs)) (max_bytes config) fs.

Definition get_fs : fsM fsys := fun fs => (Ok fs, fs).

(** The partial file is started over. *)
Definition start_over (config : Config) (expected : Z) (partPath statePath : bytes) (faults : list fault) (i : positive)
  : fsM (trackFile * bool) :=
  _ ← clearResumeArtifacts partPath statePath;
  reopened ← try (reopenPartFresh i partPath);
  match reopened with
  | Err _ => throw ErrDownloadFailed
  | Ok i => fs ← get_fs; mret (fresh_assembler config expected faults i fs, false)
  end.

(** The assembler over the open file, restored if a checkpoint is resumed. *)
Definition start_assembler (config : Config) (expected : Z) (partPath statePath : bytes) (faults : list fault)
    (i : positive) (resumed : option sabrCheckpoint) : fsM (trackFile * bool) := fun fs =>
  match resumed with
  | None => (Ok (fresh_assembler config expected faults i fs, false), fs)
  | Some checkpoint =>
      match restoreCheckpoint (fresh_assembler config expected faults i fs) checkpoint (max_bytes config) with
      | (None, a) => (Ok (a, true), fs)
      | (Some _, _) => start_over config expected partPath statePath faults i fs
      end
  end.

(** The loop variables; a resumed download takes its playback state up and
    refreshes its material if a callback is configured. *)
Definition start_session (Refresh : option (T -> res RefreshMaterial * T)) (config : Config) (a : trackFile) (resumed : bool) (t : T)
  : res (session partHandle fsys T) * T :=
  let s := new_session config a t in
  if negb resumed then (Ok s, t)
  else
    let '(playerTimeMs, bufferedRanges, selectedFormat) := playbackState a in
    let s := s <| ses_playerTimeMs := playerTimeMs |> <| ses_bufferedRanges := bufferedRanges |>
               <| ses_selectedFormat := selectedFormat |> in
    match Refresh with
    | None => (Ok s, t)
    | Some refresh =>
        if 0 >=? clamp (cfg_MaxRefreshAttempts config) MaxSabrRefreshAttempts then (Err ErrRefreshBudget, t)
        else
          let '(material, t) := refresh t in
          match material with
          | Err e => (Err e, t)
          | Ok material =>
              match applyRefreshMaterial (Some config) material (Some (ses_redirects s)) with
              | Err e => (Err e, t)
              | Ok (config, redirects) =>
                  (Ok (s <| ses_config := config |> <| ses_redirects := default (ses_redirects s) redirects |>
                         <| ses_serverURL := cfg_ServerURL config |> <| ses_world := t |>), t)
              end
          end
    end.

(** [output.syncClose()]: the bytes reach the disk, and then stable storage. *)
Definition syncClose (i : positive) : fsM unit :=
  synced ← try (fd_Sync i);
  match synced with
  | Err e => _ ← ignore (fd_Close i); throw e
  | Ok _ => fd_Close i
  end.

(** From the completed track to the published file. *)
Definition finish (config : Config) (destination : bytes) (overwrite : bool) (i : positive) (total : Z) : fsM unit :=
  let '(partPath, statePath) := checkpointPaths destination in
  closed ← try (syncClose i);
  match closed with
  | Err _ => throw ErrDownloadFailed
  | Ok _ =>
      if cfg_RetainCompletionMarker config then
        _ ← writeCompletionMarkerDurable partPath destination (IdentityFromConfig config) total;
        published ← try (publishOutput partPath destination overwrite);
        match published with
        | Err _ => throw ErrDownloadFailed
        | Ok _ => removeCheckpoint statePath
        end
      else
        published ← try (publishOutput partPath destination overwrite);
        match published with
        | Err _ => throw ErrDownloadFailed
        | Ok _ => _ ← removeCheckpoint statePath; removeCompletionMarker destination
        end
  end.

Record Result := mkResult {
  res_Path : bytes;
  res_Bytes : Z;
  res_Resumed : bool
}.

(** The rounds and what follows them. *)
Definition run_rounds (config : Config) (destination : bytes) (overwrite resumed : bool) (s : session partHandle fsys T)
  : res Result * T * fsys :=
  let identity := identityFromConfig config in
  let '(r, s) := Download_rounds (Some (commit_hook identity (checkpointPaths destination).2)) (limits_of config) s in
  let a := ses_assembler s in
  let fs := close_file a in
  match r, asm_file a with
  | Ok _, Some h =>
      let '(r, fs) := finish (ses_config s) destination overwrite (ph_inode h) (asm_totalWritten a) fs in
      match r with
      | Err e => (Err e, ses_world s, fs)
      | Ok _ =>
          let '(_, t) := env_Emit (ses_world s) KindCompleted (asm_totalWritten a) in
          (Ok (mkResult destination (asm_totalWritten a) resumed), t, fs)
      end
  | Ok _, None => (Err ErrDownloadFailed, ses_world s, fs)
  | Err e, _ => (Err e, ses_world s, fs)
  end.

(** From the open partial file on. *)
Definition run_open (Refresh : option (T -> res RefreshMaterial * T)) (config : Config) (destination : bytes) (overwrite : bool)
    (expected : Z) (faults : list fault) (i : positive) (resumed : option sabrCheckpoint) (t : T) (fs : fsys)
  : res Result * T * fsys :=
  let '(partPath, statePath) := checkpointPaths destination in
  let '(emitErr, t) := env_Emit t KindStarting 0 in
  match emitErr with
  | Some _ => (Err ErrEventSink, t, fs)
  | None =>
      let '(started, fs) := start_assembler config expected partPath statePath faults i resumed fs in
      match started with
      | Err e => (Err e, t, fs)
      | Ok (a, resumed) =>
          let '(emitErr, t) := if resumed : bool then env_Emit t KindProgress (asm_totalWritten a) else (None, t) in
          match emitErr with
          | Some _ => (Err ErrEventSink, t, fs)
          | None =>
              let '(s, t) := start_session Refresh config a resumed t in
              match s with
              | Err e => (Err e, t, fs)
              | Ok s => run_rounds config destination overwrite resumed s
              end
          end
      end
  end.

(** [Download]; [transport] says that there is one, [cwd] is the working
    directory, [faults] how the writes of the partial file go. *)
Definition Download (transport : bool) (Refresh : option (T -> res RefreshMaterial * T)) (cwd : res bytes) (config : Config)
    (outputRoot destination : bytes) (overwrite : bool) (faults : list fault) (t : T) (fs : fsys) : res Result * T * fsys :=
  match check_config transport config with
  | Err e => (Err e, t, fs)
  | Ok _ =>
      let '(partPath, statePath) := checkpointPaths destination in
      let '(opened, fs) :=
        (expected ← check_paths cwd config outputRoot destination overwrite;
         resumed ← find_resume (identityFromConfig config) partPath statePath;
         '(i, resumed) ← open_part partPath statePath resumed;
         mret (expected, i, resumed)) fs in
      match opened with
      | Err e => (Err e, t, fs)
      | Ok (expected, i, resumed) => run_open Refresh config destination overwrite expected faults i resumed t fs
      end
  end.

End Download.
