(* ===== verification/Committed.v ===== *)
(** * What a download persists

    The assembler's world is changed by its commit callback alone, and the
    callback is only called when the accounting is exact.  So there are two
    properties of the open file and the world to follow through every operation
    up to the round loop: [K], that everything written is committed, holds as
    long as there is no fatal error; [P], which writes keep, holds always. *)
From S2P Require Import Prelude Errors Varint GoStrings Url Wire Messages UmpReader Directives ContextState Assembler.
From S2P Require Import Control Request Digest Recovery Headers Post Downloader.

Section Committed.
Context {F W : Type} `{!OsFile F} `{!Sha256} `{!UnicodeTables}.
Context (hook : trackAssembler F W -> option go_error * W) (maxBytes : Z).
Context (K P : F -> W -> Prop).
Hypothesis K_P : forall f w, K f w -> P f w.
Hypothesis P_write : forall f data n err f' w, P f w -> file_Write f data = (n, err, f') -> P f' w.
Hypothesis P_sync : forall f err f' w, P f w -> file_Sync f = (err, f') -> P f' w.
Hypothesis P_commit : forall a f err w, asm_inv maxBytes a -> asm_file a = Some f -> P f (asm_world a) -> hook a = (err, w) ->
  match err with None => K f w | Some e => P f w /\ recovery_signal e = false end.
Implicit Types a : trackAssembler F W.

Definition committed a : Prop := exists f, asm_file a = Some f /\ K f (asm_world a).
Definition kept a : Prop := exists f, asm_file a = Some f /\ P f (asm_world a).

Lemma committed_kept a : committed a -> kept a.
Proof. intros (f & ? & ?). exists f. auto. Qed.

(** What an operation leaves: everything committed, or a fatal error. *)
Definition followed (err : option go_error) a : Prop := committed a \/ (fatal err /\ kept a).

Lemma followed_kept err a : followed err a -> kept a.
Proof. intros [?%committed_kept|[_ ?]]; done. Qed.

(** *** The assembler *)

Lemma writeBytes_kept a data : kept a -> kept (writeBytes a data).2.
Proof.
  intros (f & Ef & Hk). unfold writeBytes. destruct (_ =? _); [by exists f|]. rewrite Ef.
  destruct (file_Write f data) as [[n err] f'] eqn:Ew. exists f'.
  destruct err; [|destruct (negb _)]; simpl; (split; [done|by eapply P_write]).
Qed.

Lemma commitProgress_followed a :
  asm_inv maxBytes a -> kept a -> followed (commitProgress (Some hook) a).1 (commitProgress (Some hook) a).2.
Proof.
  intros Hi (f & Ef & Hk). unfold commitProgress, run_onCommit. rewrite Ef.
  destruct (file_Sync f) as [err f'] eqn:Es. assert (P f' (asm_world a)) as Hk' by by eapply P_sync.
  destruct err as [e|]; [right; split; [by exists ErrDownloadFailed|by exists f']|].
  set (a1 := a <| asm_file := Some f' |>). destruct (hook a1) as [err w] eqn:Eh.
  assert (asm_inv maxBytes a1) as Hi1.
  { apply (asm_inv_same _ a); [|by apply (active_ok_same a), Hi|done].
    unfold same_progress, asm_contents. simpl. rewrite Ef, (file_Sync_data _ _ _ Es). auto 20. }
  pose proof (P_commit a1 f' err w Hi1 eq_refl Hk' Eh) as Hc. simpl.
  destruct err as [e|]; [right; split; [exists e; by destruct Hc|exists f'; by destruct Hc]|left; by exists f'].
Qed.

Lemma finalizeInit_followed a id data :
  asm_inv maxBytes a -> committed a ->
  let out := finalizeInit (Some hook) a id data (hashSegment data) in followed out.1 out.2.
Proof.
  intros Hi Hk. unfold finalizeInit. destruct (asm_initWritten a) eqn:Ei; [destruct (_ && _); by left|].
  destruct (Z.ltb_spec (asm_remaining a) (zlen data)); [by left|].
  pose proof (writeBytes_kept a data (committed_kept _ Hk)) as Hw. pose proof (writeBytes_spec a data) as Hs.
  destruct (writeBytes a data) as [[e|] a1] eqn:Ew; [right; split; [by exists e; destruct Hs|done]|].
  apply commitProgress_followed; [by apply (init_committed_inv maxBytes a)|exact Hw].
Qed.

Lemma finalizeMedia_followed a id header data :
  asm_inv maxBytes a -> 0 <= hdr_SequenceNumber header <= asm_nextSequence a -> 0 < effectiveDurationMs header ->
  is_i64 (hdr_DurationMs header) -> committed a ->
  let out := finalizeMedia (Some hook) a id header data (hashSegment data) in followed out.1 out.2.
Proof.
  intros Hi Hseq Hd Hdt Hk. unfold finalizeMedia. destruct (asm_writtenSequences a !! _) eqn:Ew; [destruct (negb _); by left|].
  destruct (Z.ltb_spec (asm_remaining a) (zlen data)); [by left|]. destruct (asm_initWritten a) eqn:Ei; [|by left]. cbn [negb].
  pose proof (writeBytes_kept a data (committed_kept _ Hk)) as Hw. pose proof (writeBytes_spec a data) as Hs.
  destruct (writeBytes a data) as [[e|] a1] eqn:Ewr; [right; split; [by exists e; destruct Hs|done]|].
  destruct (int32SegmentIndex _) as [index|e] eqn:Eix.
  - apply commitProgress_followed; [by eapply segment_committed_inv|exact Hw].
  - right. split; [|done]. unfold int32SegmentIndex in Eix. destruct (_ >? _); [|done]. injection Eix as <-. by eexists.
Qed.

Lemma finalizeSegment_followed a payload :
  asm_inv maxBytes a -> committed a -> let out := finalizeSegment (Some hook) a payload in followed out.1 out.2.
Proof.
  intros Hi Hk. unfold finalizeSegment. destruct (mediaHeaderOnly payload) as [id|]; [|by left].
  destruct (asm_active a !! id) as [segment|] eqn:Ea; [|by left]. destruct (seg_ended segment); [by left|]. cbv zeta.
  pose proof Hi as [Hact _]. pose proof (act_segments _ Hact _ _ Ea) as (S1 & S2 & S3 & S4).
  set (a1 := a <| asm_active := _ |>). assert (committed a1) as Hk1 by exact Hk.
  assert (asm_inv maxBytes a1) as Hi1.
  { apply (asm_inv_same _ a); [unfold same_progress, asm_contents; simpl; auto 20| |done].
    apply active_insert; [done|by rewrite Ea|done]. }
  destruct (_ && _); [by left|]. destruct (negb (seg_selected segment)) eqn:Es; [by left|]. reflect_bools.
  destruct (negb (asm_formatVerified a1)); [by left|]. destruct (_ && (effectiveDurationMs _ <=? 0)) eqn:Edur; [by left|].
  destruct (hdr_IsInitSeg (seg_header segment)) eqn:Einit; [by apply finalizeInit_followed|].
  apply finalizeMedia_followed; [done|by apply S4| |apply S1|done]. simpl in Edur. lia.
Qed.

(** The fields a commit is about are unchanged. *)
Lemma committed_same a a' : asm_file a' = asm_file a -> asm_world a' = asm_world a -> committed a -> committed a'.
Proof. unfold committed. by intros -> ->. Qed.

Lemma consumePart_followed a part :
  asm_inv maxBytes a -> committed a -> let out := trackAssembler_consumePart (Some hook) a part in followed out.1 out.2.
Proof.
  intros Hi Hk. unfold trackAssembler_consumePart.
  destruct (isCriticalUnsupportedPart _); [by left|]. destruct (negb _); [by left|].
  destruct (_ =? PartFormatInitializationMetadata).
  { left. unfold consumeFormatInit. repeat (case_match; simplify_eq/=); done. }
  destruct (_ =? PartMediaHeader).
  { left. unfold consumeHeader, admit_sequence. repeat (case_match; simplify_eq/=); done. }
  destruct (_ =? PartMedia).
  { left. unfold consumeMedia. repeat (case_match; simplify_eq/=); done. }
  destruct (_ =? PartMediaEnd); [by apply finalizeSegment_followed|by left].
Qed.

(** *** A response *)

Lemma stream_part_followed (s : streamConsumer F W) part :
  asm_inv maxBytes (sc_assembler s) -> committed (sc_assembler s) ->
  let out := streamConsumer_consumePart (Some hook) s part in followed out.1 (sc_assembler out.2).
Proof.
  intros Hi Hk. pose proof (consumePart_assembler (Some hook) s part) as [E|E]; simpl in E |- *; [rewrite E; by left|].
  pose proof (consumePart_followed (sc_assembler s) part Hi Hk) as Hf. simpl in Hf. by rewrite <- E in Hf.
Qed.

Lemma finish_followed (s : streamConsumer F W) :
  asm_inv maxBytes (sc_assembler s) -> committed (sc_assembler s) ->
  let out := streamConsumer_finish (Some hook) s in followed (res_err out.1) (sc_assembler out.2).
Proof.
  intros Hi Hk. unfold streamConsumer_finish. destruct (finishResponse _); [by left|].
  destruct (responseControl_commit _ _); [|by left]. destruct (ctl_sawEndOfTrack _); [|by left].
  unfold applyEndOfTrackCompletion. destruct (negb _); [by left|].
  set (a1 := (sc_assembler s) <| asm_endOfTrackDone := true |>).
  assert (asm_inv maxBytes a1) as Hi1.
  { apply (asm_inv_same _ (sc_assembler s)); [unfold same_progress, asm_contents; simpl; auto 20| |done].
    apply (active_ok_same (sc_assembler s)); try done. apply Hi. }
  pose proof (commitProgress_followed a1 Hi1 (committed_kept _ Hk)) as Hf.
  by destruct (commitProgress (Some hook) a1) as [[e|] a2].
Qed.

Lemma consumeStream_loop_followed {S} `{!IoReader S} fuel ctx i (rd : Reader S) s r s' :
  asm_inv maxBytes (sc_assembler s) -> committed (sc_assembler s) ->
  consumeStream_loop (Some hook) fuel ctx i rd s = Some (r, s') -> followed (res_err r) (sc_assembler s').
Proof.
  revert i rd s. induction fuel as [|fuel IH]; intros i rd s Hi Hk Hc; simpl in Hc; [done|].
  destruct (ctx i); [simplify_eq; by left|]. destruct (Reader_ReadPart rd) as [[[part|]|e] rd1].
  - pose proof (consumePart_assembler (Some hook) s part) as Ha. pose proof (consumePart_post (Some hook) maxBytes _ part Hi) as Hpost.
    pose proof (stream_part_followed s part Hi Hk) as Hk1.
    destruct (streamConsumer_consumePart (Some hook) s part) as [err s1]. simpl in Ha, Hk1.
    destruct err as [e|]; [by simplify_eq|]. destruct Hk1 as [Hk1|[(? & ? & _) _]]; [|done]. refine (IH _ _ s1 _ Hk1 Hc).
    destruct Ha as [->|Ha]; [done|]. rewrite <- Ha in Hpost. destruct Hpost as [?|[(? & ? & _) _]]; done.
  - pose proof (finish_followed s Hi Hk) as Hf. injection Hc as Hc. by rewrite Hc in Hf.
  - simplify_eq. by left.
Qed.

Context {T S : Type} `{!IoReader S} `{!Env T S}.

Lemma postOnce_followed config serverURL n body a contexts redirects t r a' t' :
  asm_inv maxBytes a -> committed a -> postOnce (Some hook) config serverURL n body a contexts redirects t = (r, a', t') ->
  followed (post_err r) a'.
Proof.
  intros Hi Hk. unfold postOnce. destruct (postOnce_request _ _ _ _) as [request|]; [|intros [= <- <- _]; by left].
  destruct (env_Do t request) as [[response|e] t1]; [|destruct (env_ctxErr t1) as [[]]; intros [= <- <- _]; by left].
  destruct (isRedirectResponse response); [intros [= <- <- _]; by left|]. destruct (negb _); [intros [= <- <- _]; by left|].
  destruct (validateResponseContentType _); [|intros [= <- <- _]; by left]. destruct (env_stream t1) as [ctx t2].
  unfold consumeStreamState. destruct (consumeStream_loop _ _ _ _ _ _) as [[r1 s1]|] eqn:E; [|intros [= <- <- _]; by left].
  apply consumeStream_loop_followed in E; [|done..]. by destruct r1; intros [= <- <- _].
Qed.

Lemma postRound_loop_followed n attempts attempt config serverURL rn body contexts redirects lastErr a t r a' t' :
  asm_inv maxBytes a -> committed a ->
  postRound_loop (Some hook) n attempts attempt config serverURL rn body contexts redirects lastErr a t = (r, a', t') ->
  followed (res_err r) a'.
Proof.
  revert attempt lastErr a t. induction n as [|n IH]; intros attempt lastErr a t Hi Hk; simpl; [intros [= <- <- _]; by left|].
  destruct (postOnce _ _ _ _ _ _ _ _ _) as [[r1 a1] t1] eqn:Ep.
  pose proof (postOnce_accounts (Some hook) maxBytes _ _ _ _ _ _ _ _ _ _ _ Hi Ep) as Ha. apply postOnce_followed in Ep; [|done..].
  destruct r1 as [ctrl|err]; [by intros [= <- <- _]|]. destruct (env_ctxErr t1) as [[e|] t2] eqn:Ec.
  { intros [= <- <- _]. destruct Ep as [?|[_ ?]]; [by left|right]. split; [|done]. exists e. split; [done|]. by eapply env_ctxErr_plain. }
  destruct err as [e|e]; simpl; [by intros [= <- <- _]|].
  destruct Ha as [Hi1|[(? & ? & _) _]]; [|done]. destruct Ep as [Hk1|[(? & ? & _) _]]; [|done].
  destruct (attempt <? attempts); [|by apply IH]. destruct (env_Emit _ _ _) as [[|] t3]; [intros [= <- <- _]; by left|].
  destruct (sleep _ _) as [[|] t4]; [intros [= <- <- _]; by left|]. by apply IH.
Qed.

(** *** The rounds *)

Implicit Types s : session F W T.

Lemma commit_round_assembler s ctrl : ses_assembler (outcome_session (commit_round s ctrl)) = ses_assembler s.
Proof.
  unfold commit_round, with_world. destruct (playbackState _) as [[advance ranges] selected].
  destruct (rc_cookie ctrl), selected, (_ >? 0), (rc_redirectURL ctrl); repeat (case_match; simplify_eq/=); done.
Qed.

Lemma recover_sabrError_assembler lim s : ses_assembler (outcome_session (recover_sabrError lim s)) = ses_assembler s.
Proof. unfold recover_sabrError, with_world. repeat (case_match; simplify_eq/=); done. Qed.

Lemma recover_reload_assembler lim s token : ses_assembler (outcome_session (recover_reload lim s token)) = ses_assembler s.
Proof.
  unfold recover_reload, with_world. destruct (_ >? _); [done|]. destruct env_Reload as [reload|]; [|done].
  destruct (reload _ _) as [[m|] t]; [|done]. destruct (applyRefreshMaterial _ _ _) as [[config redirects]|]; [|done].
  by destruct (sleep _ _) as [[e|] t'].
Qed.

(** Everything is committed, or the download has failed for good. *)
Definition outcome_followed (o : outcome (F := F) (W := W) (T := T)) : Prop :=
  match o with
  | RoundNext s | RoundAgain s | RoundBreak s => committed (ses_assembler s)
  | RoundFail _ s => kept (ses_assembler s)
  end.

Lemma outcome_committed o : committed (ses_assembler (outcome_session o)) -> outcome_followed o.
Proof. destruct o; simpl; auto using committed_kept. Qed.

Lemma post_step_followed lim s :
  ses_inv maxBytes s -> committed (ses_assembler s) -> outcome_followed (post_step (Some hook) lim s).
Proof.
  intros [Ha _ _ _] Hk. unfold post_step. destruct (playbackRequest_marshal _ _) as [body|]; [|by apply outcome_committed].
  destruct (postRound _ _ _ _ _ _ _ _ _) as [[r a] t] eqn:Ep. unfold postRound in Ep. apply postRound_loop_followed in Ep; [|done..].
  pose proof (followed_kept _ _ Ep) as Hp. set (s0 := with_world _ t). destruct r as [ctrl|err].
  { destruct Ep as [Ep|[(? & ? & _) _]]; [|done]. apply outcome_committed. by rewrite commit_round_assembler. }
  destruct (env_ctxErr (ses_world s0)) as [[e|] t']; [done|].
  destruct Ep as [Ep|[(? & [= <-] & Hsig) _]]; [|by destruct err].
  destruct err; try done; apply outcome_committed; by rewrite ?recover_sabrError_assembler, ?recover_reload_assembler.
Qed.

Lemma Download_round_followed lim s :
  ses_inv maxBytes s -> committed (ses_assembler s) -> outcome_followed (Download_round (Some hook) lim s).
Proof.
  intros Hi Hk. pose proof Hi as [Ha Hc Hr He]. pose proof (committed_kept _ Hk) as Hp.
  unfold Download_round. destruct (trackComplete _) eqn:Etc; [done|].
  destruct (env_ctxErr _) as [[e|] t]; [by destruct (env_Emit _ _ _)|].
  destruct env_POTokenSource as [source|]; [|apply post_step_followed; [by split|done]].
  destruct (source _) as [[[token|]|e] t']; [..|done]; (apply post_step_followed; [by split|done]).
Qed.

Lemma Download_loop_followed fuel lim round s err s' :
  ses_inv maxBytes s -> committed (ses_assembler s) -> Download_loop (Some hook) fuel lim round s = Some (err, s') ->
  kept (ses_assembler s') /\ (err = None -> committed (ses_assembler s')).
Proof.
  revert round s. induction fuel as [|fuel IH]; intros round s Hi Hk; [done|]. cbn [Download_loop].
  destruct (round <? _); [|intros [= <- <-]; auto using committed_kept].
  pose proof (Download_round_ok (Some hook) maxBytes lim s Hi) as Ho. pose proof (Download_round_followed lim s Hi Hk) as Hk1.
  destruct (Download_round (Some hook) lim s) as [s1|s1|s1|e s1]; simpl in Hk1; [by apply IH|by apply IH|..].
  - intros [= <- <-]. auto using committed_kept.
  - by intros [= <- <-].
Qed.

Lemma Download_rounds_followed lim s :
  ses_inv maxBytes s -> committed (ses_assembler s) ->
  let '(r, s') := Download_rounds (Some hook) lim s in
  kept (ses_assembler s') /\ (r = Ok tt -> committed (ses_assembler s')).
Proof.
  intros Hi Hk. pose proof (committed_kept _ Hk). unfold Download_rounds.
  destruct (Download_loop _ _ _ _ _) as [[err s']|] eqn:E; [|done].
  apply Download_loop_followed in E as [Hk1 Hk2]; try done. destruct err; [done|]. specialize (Hk2 eq_refl). by destruct (negb _).
Qed.

End Committed.
