(* ===== verification/DownloadFacts.v ===== *)
(** * A whole download: what it guarantees

    Committed progress is on the disk: at every moment of the rounds the
    partial file and its checkpoint can be resumed from.  The destination is
    the file it was or the complete track, at every moment. *)
From S2P Require Import Prelude Errors Varint GoStrings Url Wire Messages UmpReader Directives ContextState Assembler.
From S2P Require Import Control Request Digest Recovery Headers Checkpoint Post Downloader Runes Decimal FilePath Disk Persist.
From S2P Require Import PersistFacts Download Committed.

(** ** Hexadecimal digests are UTF-8 *)

Lemma utf8_ascii s : isASCII s = true -> utf8_Valid s = true.
Proof.
  induction s as [|c s IH]; [done|]. simpl. intros [Hc Hs]%andb_true_iff. rewrite Hc. by apply IH.
Qed.

Lemma unhex_ascii c : implb (bool_decide (is_Some (unhex c))) (b2z c <? 128) = true.
Proof. by destruct c; vm_compute. Qed.

Lemma hex_ascii n s bs : (length s <= n)%nat -> hex_DecodeString s = Some bs -> isASCII s = true.
Proof.
  revert s bs. induction n as [|n IH]; intros [|h [|l s]] bs Hn Hd; simpl in Hn, Hd; try done; [lia..|].
  pose proof (unhex_ascii h) as Hh. pose proof (unhex_ascii l) as Hl.
  destruct (unhex h); [|done]. destruct (unhex l); [|done]. destruct (hex_DecodeString s) as [bs'|] eqn:E; [|done].
  simpl in Hh, Hl |- *. rewrite Hh, Hl. simpl. apply (IH s bs'); [lia|done].
Qed.

Lemma digest_utf8 encoded digest : decodeDigest encoded = Ok digest -> utf8_Valid encoded = true.
Proof. intros [_ Hx]%decodeDigest_ok. by eapply utf8_ascii, hex_ascii. Qed.

(** ** The state of a download on the disk *)

Section Commit.
Context `{!Sha256} `{!Sha256Sized} `{!UnicodeTables} `{!JsonCodec sabrCheckpoint}.
Context (identity : checkpointIdentity) (destination : bytes) (d0 : disk) (ip : positive) (maxBytes : Z) (R : bool).

Abbreviation part := (partPath_of destination).
Abbreviation state := (statePath_of destination).

(** The destination is what it was on [d0], and no link of the partial file. *)
Definition untouched (d : disk) : Prop :=
  d_names d !! destination = d_names d0 !! destination /\
  forall j, d_names d0 !! destination = Some (EFile j) ->
    d_inodes d !! j = d_inodes d0 !! j /\ d_names d !! part <> Some (EFile j).

(** *** What a restart finds *)

(** The media of [cp] is at the start of [data]. *)
Definition media_at (cp : sabrCheckpoint) (data : bytes) : Prop :=
  exists init segs tail, part_matches cp init segs /\ data = (init ++ concat segs) ++ tail.

(** The state file is read as [cp] and the partial file verifies. *)
Definition resumes_from (d : disk) (cp : sabrCheckpoint) : Prop :=
  (exists encoded, file_at d state = Some encoded /\ loadable identity encoded cp) /\
  exists i, d_names d !! part = Some (EFile i) /\ media_at cp (data_of d i).

(** What has reached stable storage of the partial file. *)
Definition stable_part (d : disk) (contents : bytes) : Prop :=
  exists ino, d_inodes d !! ip = Some ino /\ take (Z.to_nat (ino_stable ino)) (ino_data ino) = contents.

(** Node [s] holds the checkpoint [cp], synchronized, and its media is on
    stable storage. *)
Definition backs (cp : sabrCheckpoint) (s : positive) (d : disk) : Prop :=
  s <> ip /\
  (exists encoded, d_inodes d !! s = Some (mkInode encoded (zlen encoded) true) /\ loadable identity encoded cp) /\
  exists contents, stable_part d contents /\ media_at cp contents.

(** The checkpoint on the disk is of [n] bytes or more. *)
Definition backed (n : Z) (d : disk) : Prop :=
  d_names d !! part = Some (EFile ip) /\
  exists s cp, d_names d !! state = Some (EFile s) /\ backs cp s d /\ n <= cp_TotalWritten cp.

Lemma media_at_app cp data tail : media_at cp data -> media_at cp (data ++ tail).
Proof. intros (init & segs & t & ? & ->). exists init, segs, (t ++ tail). by rewrite <- !app_assoc. Qed.

Lemma loadable_wf encoded cp : loadable identity encoded cp -> checkpoint_wf cp.
Proof. intros Hl. apply validateCheckpoint_spec; [by eapply loadable_typed|apply Hl]. Qed.

Lemma media_at_length encoded cp data : loadable identity encoded cp -> media_at cp data -> cp_TotalWritten cp <= zlen data.
Proof.
  intros Hl%loadable_wf (init & segs & tail & Hm & ->). rewrite zlen_app, (part_matches_length _ _ _ Hl Hm).
  pose proof (zlen_nonneg tail). lia.
Qed.

(** Names that the run had, nodes that survived. *)
Lemma backs_survive cp s h d d' :
  last h = Some d -> survives h d' -> d_names d' !! state = Some (EFile s) -> d_names d' !! part = Some (EFile ip) ->
  backs cp s d -> resumes_from d' cp.
Proof.
  intros Hl [_ (d1 & Hl1 & Hn)] Hs Hp (_ & (encoded & Hi & Hld) & contents & (ino & Hip & <-) & Hm).
  rewrite Hl in Hl1. injection Hl1 as <-. split.
  - exists encoded. split; [|done]. destruct (Hn _ _ Hi) as (ino' & Hi' & Hsy & _). unfold file_at. rewrite Hs, Hi'. simpl. by rewrite Hsy.
  - exists ip. split; [done|]. destruct (Hn _ _ Hip) as (ino' & Hi' & _ & tail & E). unfold data_of. rewrite Hi'. simpl. rewrite E.
    by apply media_at_app.
Qed.

Lemma backed_resumes n d : backed n d -> exists cp, resumes_from d cp /\ n <= cp_TotalWritten cp.
Proof.
  intros (Hp & s & cp & Hs & Hb & Hn). exists cp. split; [|done].
  eapply (backs_survive cp s [d] d); [done|apply survives_refl|done|done|done].
Qed.

(** *** The steps of the rounds *)

(** The checkpoint file, if there is one and it is not that of the start, is of
    media at the start of [contents]. *)
Definition recorded (contents : bytes) (d : disk) : Prop :=
  d_names d !! state = None \/ (R = false /\ d_names d !! state = d_names d0 !! state) \/
  exists s cp encoded, s <> ip /\ d_names d !! state = Some (EFile s) /\
    d_inodes d !! s = Some (mkInode encoded (zlen encoded) true) /\ loadable identity encoded cp /\ media_at cp contents.

(** The partial file is open, and what has reached stable storage of it covers
    the checkpoint. *)
Definition good (d : disk) : Prop :=
  untouched d /\ d_names d !! part = Some (EFile ip) /\ exists contents, stable_part d contents /\ recorded contents d.

(** Synchronized nodes stay, and what has reached stable storage of the partial
    file does. *)
Definition grows (d d' : disk) : Prop :=
  (forall s ino, s <> ip -> d_inodes d !! s = Some ino -> ino_synced ino = true -> d_inodes d' !! s = Some ino) /\
  (forall contents, stable_part d contents -> exists tail, stable_part d' (contents ++ tail)).

(** A step of the rounds; without failing calls the checkpoint is never of
    fewer bytes than before. *)
Definition advances (d d' : disk) : Prop :=
  (good d /\ good d') /\ grows d d' /\ (R = true -> forall n, backed n d -> backed n d').

#[export] Instance grows_refl : Reflexive grows.
Proof. intros d. split; [done|]. intros contents ?. exists []. by rewrite app_nil_r. Qed.

#[export] Instance grows_trans : Transitive grows.
Proof.
  intros d1 d2 d3 [A1 A2] [B1 B2]. split; [by eauto|]. intros contents Hc. destruct (A2 _ Hc) as (t & Hc').
  destruct (B2 _ Hc') as (t' & Hc''). exists (t ++ t'). by rewrite app_assoc.
Qed.

Lemma grows_backs cp s d d' : grows d d' -> backs cp s d -> backs cp s d'.
Proof.
  intros [G1 G2] (Hne & (encoded & Hi & Hl) & contents & Hs & Hm). split; [done|]. split; [exists encoded; split; [by apply G1|done]|].
  destruct (G2 _ Hs) as (tail & Hs'). exists (contents ++ tail). split; [done|]. by apply media_at_app.
Qed.

Lemma grows_backed n d d' :
  grows d d' -> d_names d' !! part = d_names d !! part -> d_names d' !! state = d_names d !! state -> backed n d -> backed n d'.
Proof.
  intros Hg Hp Hs (Hp0 & s & cp & Hs0 & Hb & Hn). split; [congruence|]. exists s, cp.
  split_and!; [congruence|by eapply grows_backs|done].
Qed.

Lemma recorded_backs d contents s cp :
  stable_part d contents -> recorded contents d -> d_names d !! state = Some (EFile s) ->
  (R = false -> d_names d !! state <> d_names d0 !! state) ->
  resumes_from d cp -> backs cp s d.
Proof.
  intros Hst [Hr|[[HR Hr]|(s' & cp' & encoded & Hne & Hn & Hi & Hl & Hm)]] Hs Hd0 [(enc & Hf & Hld) _]; [congruence|by destruct Hd0|].
  rewrite Hs in Hn. injection Hn as <-. unfold file_at in Hf. rewrite Hs, Hi in Hf. injection Hf as <-.
  rewrite (loadable_det _ _ _ _ Hld Hl) in *. split; [done|]. split; [by exists encoded|by exists contents].
Qed.

(** Without failing calls, what a restart finds during the rounds is backed. *)
Lemma good_backed d cp : R = true -> good d -> resumes_from d cp -> backed (cp_TotalWritten cp) d.
Proof.
  intros HR (_ & Hp & contents & Hst & Hrec) Hres. split; [done|].
  pose proof Hres as [(enc & Hf & _) _]. unfold file_at in Hf. destruct (d_names d !! state) as [[s| |]|] eqn:Es; try done.
  exists s, cp. split_and!; [done| |lia]. eapply recorded_backs; try done. congruence.
Qed.

(** The open file extends what is on stable storage. *)
Definition anchored (h : partHandle) (d : disk) : Prop :=
  exists contents extra, stable_part d contents /\ ph_data h = contents ++ extra.

(** The moments before the rounds, and the one they start with. *)
Context (base : list disk) (dl : disk).

Definition part_kept (h : partHandle) (fs : fsys) : Prop :=
  ph_inode h = ip /\ reliable R fs /\ (exists new, fs_trace fs = base ++ new /\ chained advances dl new (fs_disk fs)) /\
  good (fs_disk fs) /\ anchored h (fs_disk fs).

Hypothesis Hwf : disk_wf d0.
Hypothesis Htext : Forall (fun s => utf8_Valid s = true)
  [id_VideoID identity; id_ClientVersion identity; fmt_XTags (id_Format identity); id_AudioTrackID identity].
Hypothesis Hmax : maxBytes <= MaxInt64.

(** The paths differ from each other. *)
Lemma paths_differ : destination <> part /\ destination <> state /\ part <> state.
Proof.
  unfold partPath_of, statePath_of. simpl. split_and!; intros E%(f_equal length); rewrite !length_app in E; simpl in E; lia.
Qed.

Lemma temp_differs name : temp_name state name -> name <> destination /\ name <> part /\ name <> state.
Proof.
  intros Ht. split_and!; intros ->.
  - apply (temp_of_state destination [] _ ltac:(decided) Ht). by rewrite app_nil_r.
  - by apply (temp_of_state destination (lit ".part") _ ltac:(decided) Ht).
  - by apply (temp_of_state_self destination _ Ht).
Qed.

(** A snapshot of the assembler can be read back. *)
Lemma snapshot_storable a init segs cp :
  progress maxBytes a init segs -> snapshotCheckpoint (F := partHandle) (W := fsys) a identity = Ok cp ->
  zlen (json_Marshal cp) <= MaxCheckpointBytes -> containsForbiddenCheckpointBytes (json_Marshal cp) = false ->
  storable identity cp.
Proof.
  intros Hp Hs Hz Hf. pose proof (snapshot_typed _ _ _ _ _ _ Hp Hmax Hs) as Hty.
  pose proof (snapshotCheckpoint_ok _ _ _ Hs) as [Hid Hv _ _ _ _]. split; try done.
  pose proof (proj1 (validateCheckpoint_spec cp Hty) Hv) as [_ Hiw Hini Hseg _ _ _ _ _ _].
  unfold checkpointIdentity_matches in Hid. reflect_bools. simpl.
  inversion_clear Htext as [|? ? T1 Ht]. inversion_clear Ht as [|? ? T2 Ht1]. inversion_clear Ht1 as [|? ? T3 Ht2].
  inversion_clear Ht2 as [|? ? T4 _].
  destruct Hiw as (_ & _ & _ & _ & _ & _ & Hkind & [dg Hdg] & _).
  repeat apply Forall_cons_2; try congruence.
  - by destruct Hkind as [-> | ->].
  - by eapply digest_utf8.
  - destruct (cp_InitWritten cp); [destruct Hini as [_ [? ?]]; by eapply digest_utf8|by destruct Hini as (_ & -> & _)].
  - apply Forall_map, Forall_forall. intros sg Hin%list_elem_of_In.
    clear -Hin Hseg. revert Hseg. generalize 0 at 1. generalize 0 at 1. intros t i. revert t i.
    induction (cp_Segments cp) as [|s0 l IH]; intros t i; [done|]. intros (_ & _ & _ & _ & [? ?] & Hw).
    destruct Hin as [->|Hin]; [by eapply digest_utf8|by eapply IH].
Qed.

(** What is never lost while a file beside the destination is replaced. *)
Definition opened (d : disk) : Prop :=
  untouched d /\ d_names d !! part = Some (EFile ip) /\ is_Some (d_inodes d !! ip).

Lemma replacing_opened R' path encoded d1 d :
  (forall name, temp_name path name -> name <> destination /\ name <> part) -> path <> destination -> path <> part ->
  opened d1 -> replacing R' path encoded d1 d -> opened d.
Proof.
  intros Ht D1 D2 ([Hu1 Hu2] & Hp & [ino Hi]) [(name & Hn & [Hf1 Hf2]) _]. destruct (Ht name Hn) as [N1 N2].
  assert (d_names d !! part = Some (EFile ip)) as Hp' by (rewrite Hf1; done).
  split_and!; [|done|exists ino; by apply Hf2]. split; [rewrite Hf1 by done; done|].
  intros j Hj. destruct (Hu2 j Hj) as [E1 E2]. destruct (Hwf _ _ Hj) as [inoj Hinoj].
  rewrite Hinoj in E1 |- *. split; [by apply Hf2|]. rewrite Hp'. by rewrite Hp in E2.
Qed.

Lemma put_opened d ino : opened d -> opened (put_inode d ip ino).
Proof.
  intros ([Hu1 Hu2] & Hp & _). split_and!; [|done|simpl; rewrite lookup_insert_eq; by eexists]. split; [done|].
  intros j Hj. destruct (Hu2 j Hj) as [E1 E2]. simpl. rewrite lookup_insert_ne by congruence. done.
Qed.

(** *** Steps beside the destination *)

Lemma stable_part_det d c1 c2 : stable_part d c1 -> stable_part d c2 -> c1 = c2.
Proof. intros (i1 & Hr1 & <-) (i2 & Hr2 & <-). congruence. Qed.

Lemma replacing_stable path encoded d1 d contents : replacing R path encoded d1 d -> stable_part d1 contents -> stable_part d contents.
Proof. intros [(name & _ & [_ Hf2]) _] (ino & Hi & E). exists ino. split; [by apply Hf2|done]. Qed.

Lemma replaces_grows path encoded d1 d d' contents :
  stable_part d1 contents -> replaces R path encoded d1 d d' -> grows d d'.
Proof.
  intros Hst ((Hr1 & Hr2) & Hsolid & _). split; [intros s inos _ Hs Hsy; by apply Hsolid|].
  intros c Hc. exists []. rewrite app_nil_r. rewrite (stable_part_det _ _ _ Hc (replacing_stable _ _ _ _ _ Hr1 Hst)).
  by eapply replacing_stable.
Qed.

(** The checkpoint keeps its name and its node. *)
Lemma recorded_kept contents d d' :
  (forall s ino, s <> ip -> d_inodes d !! s = Some ino -> ino_synced ino = true -> d_inodes d' !! s = Some ino) ->
  d_names d' !! state = d_names d !! state -> recorded contents d -> recorded contents d'.
Proof.
  intros Hk Hs. unfold recorded. rewrite Hs. intros [?|[?|(s & cp & encoded & Hne & Hn & Hi & Hl & Hm)]]; [by left|by right; left|].
  right. right. exists s, cp, encoded. split_and!; try done. by apply Hk.
Qed.

Lemma recorded_app contents extra d : recorded contents d -> recorded (contents ++ extra) d.
Proof.
  intros [?|[?|(s & cp & encoded & ? & ? & ? & ? & ?)]]; [by left|by right; left|].
  right. right. exists s, cp, encoded. split_and!; try done. by apply media_at_app.
Qed.

Lemma good_opened d : good d -> opened d.
Proof. intros (? & ? & contents & (ino & ? & _) & _). split_and!; [done|done|by exists ino]. Qed.

Lemma replacing_nodes path encoded d1 d s ino :
  replacing R path encoded d1 d -> d_inodes d1 !! s = Some ino -> d_inodes d !! s = Some ino.
Proof. intros [(name & _ & [_ Hf2]) _]. apply Hf2. Qed.

(** The checkpoint [cp] of all of the file is being saved. *)
Lemma replacing_good d1 d cp contents :
  good d1 -> stable_part d1 contents -> storable identity cp -> media_at cp contents ->
  replacing R state (json_Marshal cp) d1 d -> good d.
Proof.
  intros Hg Hst Hsb Hm Hrep. destruct paths_differ as (D1 & D2 & D3). pose proof (good_opened _ Hg) as Ho.
  destruct (replacing_opened R state (json_Marshal cp) d1 d) as (Hu' & Hp' & _); try done.
  { intros name Hn. by destruct (temp_differs name Hn) as (? & ? & _). }
  split_and!; [done|done|]. exists contents. pose proof (replacing_stable _ _ _ _ _ Hrep Hst) as Hst'. split; [done|].
  destruct Hg as (_ & _ & c & Hc & Hr). rewrite (stable_part_det _ _ _ Hc Hst) in Hr.
  pose proof Hrep as [_ [He|[(s & Hnew & Hn & Hi)|[_ He]]]]; [|right; right|by left].
  - eapply recorded_kept; [|exact He|exact Hr]. intros s ino _ Hs _. by eapply replacing_nodes.
  - exists s, cp, (json_Marshal cp). split_and!; try done; [|by apply storable_loadable].
    intros ->. destruct Hst as (ino & Hino & _). congruence.
Qed.

Lemma saving_advances d1 d d' cp contents :
  good d1 -> stable_part d1 contents -> storable identity cp -> media_at cp contents -> zlen contents <= cp_TotalWritten cp ->
  replaces R state (json_Marshal cp) d1 d d' -> advances d d'.
Proof.
  intros Hg Hst Hsb Hm Htot Hrep. pose proof Hrep as ((Hr1 & Hr2) & _ & He).
  pose proof (replacing_good _ _ _ _ Hg Hst Hsb Hm Hr1) as G1. pose proof (replacing_good _ _ _ _ Hg Hst Hsb Hm Hr2) as G2.
  pose proof (replaces_grows _ _ _ _ _ _ Hst Hrep) as Hgr. split; [done|]. split; [done|]. intros HR n Hb.
  destruct He as [He|[(s & Hnew & Hn & Hi)|[? _]]]; [| |congruence].
  - eapply grows_backed; [done| |done|done]. transitivity (Some (EFile ip)); [apply G2|symmetry; apply G1].
  - split; [apply G2|]. exists s, cp. pose proof (replacing_stable _ _ _ _ _ Hr2 Hst) as Hst2.
    destruct Hb as (_ & s0 & cp0 & _ & (_ & (enc & _ & Hl) & c & Hc & Hm0) & Hle).
    rewrite (stable_part_det _ _ _ Hc (replacing_stable _ _ _ _ _ Hr1 Hst)) in Hm0. pose proof (media_at_length _ _ _ Hl Hm0).
    split_and!; [done| |lia]. split; [intros ->; destruct Hst as (ino & Hino & _); congruence|].
    split; [exists (json_Marshal cp); split; [done|by apply storable_loadable]|by exists contents].
Qed.

(** The bytes of the partial file are put on the disk. *)
Lemma put_advances d ino :
  good d -> (forall contents, stable_part d contents -> exists tail, take (Z.to_nat (ino_stable ino)) (ino_data ino) = contents ++ tail) ->
  advances d (put_inode d ip ino).
Proof.
  intros Hg Hext. pose proof (put_opened d ino (good_opened _ Hg)) as (Hu & Hp & _).
  assert (forall s ino', s <> ip -> d_inodes d !! s = Some ino' -> ino_synced ino' = true -> d_inodes (put_inode d ip ino) !! s = Some ino') as Hk
    by (intros s ino' Hne Hs _; simpl; by rewrite lookup_insert_ne).
  assert (stable_part (put_inode d ip ino) (take (Z.to_nat (ino_stable ino)) (ino_data ino))) as Hst
    by (exists ino; simpl; by rewrite lookup_insert_eq).
  assert (grows d (put_inode d ip ino)) as Hgr.
  { split; [done|]. intros contents Hc. destruct (Hext _ Hc) as (tail & E). exists tail. by rewrite <- E. }
  split; [split; [done|]|split; [done|intros _ n; by apply grows_backed]].
  split_and!; [done|done|]. destruct Hg as (_ & _ & c & Hc & Hr). eexists. split; [exact Hst|].
  destruct (Hext _ Hc) as (tail & ->). apply recorded_app. by eapply recorded_kept.
Qed.

Lemma snapshotCheckpoint_err (a : trackFile) e : snapshotCheckpoint a identity = Err e -> e = ErrCheckpointInvalid.
Proof.
  unfold snapshotCheckpoint. destruct (_ >? _); [by intros [= <-]|].
  destruct (snapshot_segments a (asm_bufferedRanges a)) as [segments|e'] eqn:E; simpl.
  - destruct (validateCheckpoint _) as [[]|] eqn:Ev; [done|]. intros [= <-]. by eapply validateCheckpoint_err.
  - intros [= ->]. revert E. induction (asm_bufferedRanges a) as [|r l IH]; simpl; [done|].
    destruct (asm_writtenSequences a !! _); [|by intros [= <-]]. destruct (snapshot_segments a l); simpl; [done|]. intros [= <-]. by apply IH.
Qed.

(** The handle's bytes reach the disk, [stable] of them stable storage. *)
Lemma settle_kept h stable fs :
  part_kept h fs -> (forall contents extra, stable_part (fs_disk fs) contents -> ph_data h = contents ++ extra ->
    exists tail, take (Z.to_nat stable) (ph_data h) = contents ++ tail) ->
  part_kept h (settle h stable fs).
Proof.
  intros (Eh & Hr & (new & Ht & Hc) & Hg & (contents & extra & Hst & Hd)) Hext.
  assert (advances (fs_disk fs) (put_inode (fs_disk fs) ip (mkInode (ph_data h) stable false))) as Hadv.
  { apply put_advances; [done|]. intros c Hc'. simpl. rewrite (stable_part_det _ _ _ Hc' Hst). eauto. }
  unfold part_kept, settle. simpl. rewrite Eh. split_and!; [done|done| |apply Hadv|].
  - eexists (new ++ [_]). split; [by rewrite Ht, app_assoc|]. eapply chained_app; [exact Hc|]. by split.
  - exists (take (Z.to_nat stable) (ph_data h)), (drop (Z.to_nat stable) (ph_data h)).
    split; [|by rewrite take_drop]. eexists. simpl. by rewrite lookup_insert_eq.
Qed.

(** The commit callback keeps the partial file and its checkpoint together. *)
Lemma commit_hook_spec a h err fs' :
  asm_inv maxBytes a -> asm_file a = Some h -> part_kept h (asm_world a) ->
  commit_hook identity state a = (err, fs') ->
  part_kept h fs' /\ (forall e, err = Some e -> recovery_signal e = false).
Proof.
  intros [_ (init & segs & Hp)] Ef Hk. unfold commit_hook. rewrite Ef.
  pose proof (pr_file _ _ _ _ Hp) as Hd. unfold asm_contents in Hd. rewrite Ef in Hd. simpl in Hd.
  assert (part_kept h (settle h (zlen (ph_data h)) (asm_world a))) as Hk1.
  { apply settle_kept; [done|]. intros contents extra _ E. exists extra. unfold zlen. by rewrite Nat2Z.id, take_ge. }
  set (fs1 := settle h _ _) in *. assert (stable_part (fs_disk fs1) (init ++ concat segs)) as Hst.
  { eexists. simpl. rewrite (proj1 Hk), lookup_insert_eq. split; [done|]. simpl. unfold zlen. by rewrite Nat2Z.id, take_ge. }
  destruct (snapshotCheckpoint a identity) as [cp|e] eqn:Esn;
    [|intros [= <- <-]; split; [done|]; apply snapshotCheckpoint_err in Esn as ->; by intros e [= <-]].
  destruct (snapshot_part_matches _ _ _ _ _ _ Hp Esn) as [Hpm _].
  destruct Hk1 as (Eh & Hr & (new & Ht & Hc) & Hg & (contents & extra & Hst' & Hd')).
  assert (media_at cp (init ++ concat segs)) as Hm by (exists init, segs, []; by rewrite app_nil_r).
  assert (wps R advances (saveCheckpoint state cp) (fun r d => good d /\ stable_part d contents /\ plain_err r) (fs_disk fs1)) as Hsave.
  { apply wp_saveCheckpoint; [intros name Hn; apply (temp_differs name Hn)|intros e He; split_and!; try done; by intros ? [= <-]|].
    intros Hv Hz Hf. pose proof (snapshot_storable _ _ _ _ Hp Esn Hz Hf) as Hsb.
    pose proof (part_matches_length _ _ _ (loadable_wf _ _ (storable_loadable _ _ Hsb)) Hpm) as Htot.
    split; [intros d d'; eapply saving_advances; try done; lia|]. intros r d (Hrep & _ & Hpl & _).
    split_and!; [by eapply replacing_good|by eapply replacing_stable|done]. }
  specialize (Hsave fs1 eq_refl Hr). destruct (saveCheckpoint state cp fs1) as [r fs2].
  destruct Hsave as ((G1 & G2 & G3) & G4 & new2 & G5 & G6). intros [= <- <-]. split.
  - split_and!; [done|done| |done|by exists contents, extra].
    exists (new ++ new2). split; [by rewrite G5, Ht, app_assoc|by eapply chained_app].
  - destruct r as [[]|e]; simpl; [done|]. intros e' [= <-]. by apply G3.
Qed.

(** A commit that succeeds, whatever the disk was: the checkpoint is of every
    byte of the file, and both are on stable storage. *)
Lemma commit_backs a h fs' :
  asm_inv maxBytes a -> asm_file a = Some h -> ph_inode h = ip -> d_names (fs_disk (asm_world a)) !! part = Some (EFile ip) ->
  commit_hook identity state a = (None, fs') -> backed (asm_totalWritten a) (fs_disk fs').
Proof.
  intros [_ (init & segs & Hp)] Ef Eh Hpart. unfold commit_hook. rewrite Ef.
  pose proof (pr_file _ _ _ _ Hp) as Hd. unfold asm_contents in Hd. rewrite Ef in Hd. simpl in Hd.
  set (fs1 := settle h _ _). assert (stable_part (fs_disk fs1) (init ++ concat segs)) as Hst.
  { eexists. simpl. rewrite Eh, lookup_insert_eq. split; [done|]. simpl. unfold zlen. by rewrite Nat2Z.id, take_ge. }
  destruct (snapshotCheckpoint a identity) as [cp|e] eqn:Esn; [|done].
  destruct (snapshot_part_matches _ _ _ _ _ _ Hp Esn) as [Hpm _]. destruct paths_differ as (D1 & D2 & D3).
  assert (wps false (fun _ _ => True) (saveCheckpoint state cp) (fun r d => r = Ok tt -> backed (asm_totalWritten a) d) (fs_disk fs1)) as Hsave.
  { apply wp_saveCheckpoint; [intros name Hn; apply (temp_differs name Hn)|done|].
    intros Hv Hz Hf. split; [done|]. intros r d (Hrep & Hok & _) Er. pose proof (snapshot_storable _ _ _ _ Hp Esn Hz Hf) as Hsb.
    pose proof (part_matches_length _ _ _ (loadable_wf _ _ (storable_loadable _ _ Hsb)) Hpm) as Htot.
    destruct (Hok Er) as (s & Hnew & Hs & Hi). pose proof Hrep as [(name & Hn & [Hf1 Hf2]) _]. destruct (temp_differs name Hn) as (N1 & N2 & N3).
    split; [rewrite Hf1; done|]. exists s, cp. split_and!; [done| |rewrite (pr_total _ _ _ _ Hp), (pr_file _ _ _ _ Hp); lia].
    destruct (id Hst) as (ino & Hino & Hc). split; [intros ->; congruence|].
    split; [exists (json_Marshal cp); split; [done|by apply storable_loadable]|]. exists (init ++ concat segs).
    split; [exists ino; split; [by apply Hf2|done]|]. exists init, segs, []. by rewrite app_nil_r. }
  specialize (Hsave fs1 eq_refl ltac:(done)). destruct (saveCheckpoint state cp fs1) as [[[]|e] fs2]; [|done].
  intros [= <-]. by apply Hsave.
Qed.

(** The same for any checkpoint: the destination is not touched. *)
Definition part_opened (h : partHandle) (fs : fsys) : Prop :=
  ph_inode h = ip /\ Forall untouched (fs_trace fs) /\ opened (fs_disk fs).

Lemma commit_hook_opened a h err fs' :
  asm_file a = Some h -> part_opened h (asm_world a) -> commit_hook identity state a = (err, fs') ->
  part_opened h fs' /\ (forall e, err = Some e -> recovery_signal e = false).
Proof.
  intros Ef (Eh & Htr & Ho). unfold commit_hook. rewrite Ef. set (fs1 := settle h _ _).
  assert (part_opened h fs1) as Ho1.
  { unfold part_opened, fs1, settle. rewrite Eh. simpl. pose proof (put_opened (fs_disk (asm_world a)) (mkInode (ph_data h) (zlen (ph_data h)) false) Ho) as Hp.
    split_and!; [done|apply Forall_app; split; [done|]; constructor; [apply Hp|done]|exact Hp]. }
  destruct (snapshotCheckpoint a identity) as [cp|e] eqn:Esn;
    [|intros [= <- <-]; split; [done|]; apply snapshotCheckpoint_err in Esn as ->; by intros e [= <-]].
  destruct Ho1 as (_ & Htr1 & Ho1). destruct paths_differ as (D1 & D2 & D3).
  assert (wp false untouched (saveCheckpoint state cp) (fun r d => opened d /\ plain_err r) (fs_disk fs1)) as Hsave.
  { apply wp_saveCheckpoint; [intros name Ht; apply (temp_differs name Ht)|intros e He; split; [done|]; by intros ? [= <-]|].
    intros _ _ _. assert (forall d, replacing false state (json_Marshal cp) (fs_disk fs1) d -> opened d) as Hro.
    { intros d. apply replacing_opened; try done. intros name Hn. destruct (temp_differs name Hn) as (? & ? & _). done. }
    split; [intros d d' ((_ & Hr) & _); by apply Hro|]. intros r d (Hr & _ & Hpl & _). split; [by apply Hro|done]. }
  pose proof (wp_trace false untouched _ _ fs1 Hsave ltac:(done) Htr1) as Hs. destruct (saveCheckpoint state cp fs1) as [r fs2].
  destruct Hs as ((G1 & G2) & _ & G3). intros [= <- <-]. split; [done|]. destruct r as [[]|e]; simpl; [done|].
  intros e' [= <-]. by apply G2.
Qed.

Lemma handle_Write_spec h data n err h' : handle_Write h data = (n, err, h') ->
  ph_inode h' = ph_inode h /\ exists extra, ph_data h' = ph_data h ++ extra.
Proof. unfold handle_Write. destruct (ph_faults h) as [|[|code k] l]; intros [= _ _ <-]; simpl; eauto. Qed.

Lemma handle_Sync_spec h err h' : handle_Sync h = (err, h') -> ph_inode h' = ph_inode h /\ ph_data h' = ph_data h.
Proof. unfold handle_Sync. by destruct (ph_faults h) as [|[|code k] l]; intros [= _ <-]. Qed.

(** *** The rounds *)

Context {T S : Type} `{!IoReader S} `{!Env T S}.

(** Everything that the file's calls and the commits keep is kept. *)
Lemma rounds_keep (P : partHandle -> fsys -> Prop) lim (s : session partHandle fsys T) :
  (forall f data n err f' w, P f w -> handle_Write f data = (n, err, f') -> P f' w) ->
  (forall f err f' w, P f w -> handle_Sync f = (err, f') -> P f' w) ->
  (forall a f err w, asm_inv maxBytes a -> asm_file a = Some f -> P f (asm_world a) -> commit_hook identity state a = (err, w) ->
     P f w /\ (forall e, err = Some e -> recovery_signal e = false)) ->
  ses_inv maxBytes s -> (exists h, asm_file (ses_assembler s) = Some h /\ P h (asm_world (ses_assembler s))) ->
  let '(r, s') := Download_rounds (Some (commit_hook identity state)) lim s in
  exists h, asm_file (ses_assembler s') = Some h /\ P h (asm_world (ses_assembler s')).
Proof.
  intros Hwrite Hsync Hhook Hi Hh. cut (let '(r, s') := Download_rounds (Some (commit_hook identity state)) lim s in
    kept P (ses_assembler s') /\ (r = Ok tt -> committed P (ses_assembler s'))).
  { destruct (Download_rounds _ lim s) as [r s']. by intros [? _]. }
  apply (Download_rounds_followed (commit_hook identity state) maxBytes P P); try done.
  intros a f err w Ha Ef Hp Eh. destruct (Hhook a f err w Ha Ef Hp Eh) as [H1' H2']. destruct err as [e|]; [|done]. split; auto.
Qed.

Lemma rounds_opened lim (s : session partHandle fsys T) :
  ses_inv maxBytes s -> (exists h, asm_file (ses_assembler s) = Some h /\ part_opened h (asm_world (ses_assembler s))) ->
  let '(r, s') := Download_rounds (Some (commit_hook identity state)) lim s in
  exists h, asm_file (ses_assembler s') = Some h /\ part_opened h (asm_world (ses_assembler s')).
Proof.
  apply rounds_keep.
  - intros f data n err f' w (E & Hp) Hw. apply handle_Write_spec in Hw as [E' _]. split; [congruence|done].
  - intros f err f' w (E & Hp) Hw. apply handle_Sync_spec in Hw as [E' _]. split; [congruence|done].
  - intros a f err w _. apply commit_hook_opened.
Qed.

Lemma rounds_kept lim (s : session partHandle fsys T) :
  ses_inv maxBytes s -> (exists h, asm_file (ses_assembler s) = Some h /\ part_kept h (asm_world (ses_assembler s))) ->
  let '(r, s') := Download_rounds (Some (commit_hook identity state)) lim s in
  exists h, asm_file (ses_assembler s') = Some h /\ part_kept h (asm_world (ses_assembler s')).
Proof.
  apply rounds_keep.
  - intros f data n err f' w (E & H1' & H2' & H3' & (c & tl & A1 & A2)) Hw. apply handle_Write_spec in Hw as [E' [extra Ex]].
    split_and!; try done; [congruence|]. exists c, (tl ++ extra). split; [done|]. by rewrite Ex, A2, <- app_assoc.
  - intros f err f' w (E & H1' & H2' & H3' & (c & tl & A)) Hw. apply handle_Sync_spec in Hw as [E' Ed].
    split_and!; try done; [congruence|]. exists c, tl. by rewrite Ed.
  - apply commit_hook_spec.
Qed.

(** The file is closed. *)
Lemma close_kept (a : trackFile) h :
  asm_file a = Some h -> part_kept h (asm_world a) -> part_kept h (close_file a).
Proof.
  intros Ef Hk. unfold close_file. rewrite Ef. apply settle_kept; [done|]. intros contents extra (ino & Hi & Hc) E.
  rewrite (proj1 Hk). unfold stable_of. rewrite Hi. simpl. rewrite E.
  exists (take (Z.to_nat (ino_stable ino) - length contents) extra). rewrite take_app. f_equal. apply take_ge.
  rewrite <- Hc, length_take. lia.
Qed.

Lemma close_opened (a : trackFile) h :
  asm_file a = Some h -> part_opened h (asm_world a) -> part_opened h (close_file a).
Proof.
  intros Ef (Ei & Htr & Ho). unfold part_opened, close_file. rewrite Ef. simpl. rewrite Ei.
  pose proof (put_opened _ (mkInode (ph_data h) (stable_of (asm_world a) ip) false) Ho) as Ho'.
  split_and!; [done| |apply Ho'..]. apply Forall_app. split; [done|]. apply Forall_singleton, Ho'.
Qed.

(** *** Publishing *)

Lemma marker_path_differs :
  completionMarkerPath destination <> destination /\ completionMarkerPath destination <> part /\ completionMarkerPath destination <> state.
Proof.
  rewrite statePath_eq. unfold completionMarkerPath, partPath_of. simpl. split_and!.
  - intros E%(f_equal length). rewrite length_app in E. simpl in E. lia.
  - intros E%app_inv_head. by vm_compute in E.
  - intros E%app_inv_head. by vm_compute in E.
Qed.

Lemma marker_differs name : temp_name (completionMarkerPath destination) name ->
  name <> destination /\ name <> part /\ name <> state /\ name <> completionMarkerPath destination.
Proof.
  intros Ht. split_and!; intros ->.
  - apply (temp_of_marker destination [] _ ltac:(decided) Ht). by rewrite app_nil_r.
  - by apply (temp_of_marker destination (lit ".part") _ ltac:(decided) Ht).
  - apply (temp_of_marker destination (lit ".part.json") _ ltac:(decided) Ht), statePath_eq.
  - by apply (temp_of_marker destination (lit ".sabr.json") _ ltac:(decided) Ht).
Qed.

Lemma marking_opened R' encoded d1 d :
  opened d1 -> replacing R' (completionMarkerPath destination) encoded d1 d -> opened d.
Proof.
  destruct marker_path_differs as (M1 & M2 & M3). apply replacing_opened; try done.
  intros name Hn. by destruct (marker_differs name Hn) as (? & ? & _).
Qed.

Lemma marking_state R' encoded d1 d :
  replacing R' (completionMarkerPath destination) encoded d1 d -> d_names d !! state = d_names d1 !! state.
Proof.
  intros [(name & Hn & [Hf1 _]) _]. destruct marker_path_differs as (M1 & M2 & M3). destruct (marker_differs name Hn) as (_ & _ & ? & _).
  by rewrite Hf1.
Qed.

Lemma marking_good encoded d1 d : good d1 -> replacing R (completionMarkerPath destination) encoded d1 d -> good d.
Proof.
  intros Hg Hrep. destruct (marking_opened _ _ _ _ (good_opened _ Hg) Hrep) as (? & ? & _). split_and!; [done|done|].
  destruct Hg as (_ & _ & c & Hc & Hr). exists c. split; [by eapply replacing_stable|].
  eapply recorded_kept; [|by eapply marking_state|exact Hr]. intros s ino _ Hs _. by eapply replacing_nodes.
Qed.

Lemma marking_advances encoded d1 d d' :
  good d1 -> replaces R (completionMarkerPath destination) encoded d1 d d' -> advances d d'.
Proof.
  intros Hg Hrep. pose proof Hrep as ((Hr1 & Hr2) & _). pose proof (marking_good _ _ _ Hg Hr1) as G1. pose proof (marking_good _ _ _ Hg Hr2) as G2.
  destruct (id Hg) as (_ & _ & c & Hc & _). pose proof (replaces_grows _ _ _ _ _ _ Hc Hrep) as Hgr.
  split; [done|]. split; [done|]. intros _ n. apply grows_backed; [done| |].
  - transitivity (Some (EFile ip)); [apply G2|symmetry; apply G1].
  - by rewrite (marking_state _ _ _ _ Hr1), (marking_state _ _ _ _ Hr2).
Qed.

Context `{!JsonCodec sabrCompletionMarker}.
Context (data : bytes).

(** The destination is the synchronized file. *)
Definition published (d : disk) : Prop :=
  d_names d !! destination = Some (EFile ip) /\ d_inodes d !! ip = Some (mkInode data (zlen data) true).

Lemma published_touched d d' : opened d -> published d' -> ~ untouched d'.
Proof.
  intros ([Hu1 Hu2] & Hp & _) [Hd _] [E _]. rewrite Hd in E. by destruct (Hu2 ip (eq_sym E)) as [_ ?].
Qed.

(** The steps and what is kept until the file is published: synchronizing the
    file and writing a marker beside it are such steps, and so is everything
    from the publication on. *)
Context (Step : disk -> disk -> Prop) (Inv : disk -> Prop).
Hypothesis Step_sync : forall d ino, opened d -> Inv d -> d_inodes d !! ip = Some ino -> ino_data ino = data ->
  let d' := put_inode d ip (mkInode data (zlen data) true) in Step d d' /\ Inv d'.
Hypothesis Step_marker : forall encoded d1 d d', opened d1 -> Inv d1 ->
  replaces R (completionMarkerPath destination) encoded d1 d d' -> Step d d'.
Hypothesis Inv_marker : forall encoded d1 d, opened d1 -> Inv d1 ->
  replacing R (completionMarkerPath destination) encoded d1 d -> Inv d.
Hypothesis Step_published : forall d d', published d' -> Step d d'.

(** The partial file is synchronized and not yet published. *)
Definition ready (d : disk) : Prop := (opened d /\ Inv d) /\ d_inodes d !! ip = Some (mkInode data (zlen data) true).

Definition ended (r : res unit) (d : disk) : Prop := r = Ok tt -> published d.

Lemma published_remove path d : path <> destination -> published d -> published (d <| d_names := delete path (d_names d) |>).
Proof. intros Hne [Hn Hi]. split; [|done]. simpl. by rewrite lookup_delete_ne. Qed.

Lemma wp_remove_published path (Q : res unit -> disk -> Prop) d :
  path <> destination -> published d -> (forall r d', published d' -> Q r d') -> wps R Step (os_Remove path) Q d.
Proof.
  intros Hne Hp HQ. apply wp_Remove; [by intros; apply HQ|]. pose proof (published_remove path d Hne Hp) as Hp'.
  destruct (d_names d !! path) as [[i| |[]]|]; try (by apply HQ); (split; [by apply Step_published|by apply HQ]).
Qed.

Lemma wp_publishOutput overwrite d :
  ready d -> wps R Step (publishOutput part destination overwrite) ended d.
Proof.
  intros [[Ho HI] Hi]. pose proof Ho as ([Hu1 Hu2] & Hp & _). destruct paths_differ as (D1 & D2 & D3).
  unfold publishOutput. destruct overwrite.
  - apply wp_Rename; [by intros|]. rewrite Hp. case_bool_decide as Ed; [by intros _|].
    set (d' := d <| d_names := _ |>). assert (published d') as Hpub by (split; [simpl; by rewrite lookup_insert_eq|done]).
    destruct (d_names d !! destination) as [[j| |b]|]; try done; (split; [by apply Step_published|by intros _]).
  - unfold installDestination. apply dwp_bind, wp_Link; [by intros|]. rewrite Hp.
    destruct (d_names d !! destination) eqn:Ed; [done|].
    set (d' := d <| d_names := _ |>). assert (published d') as Hpub by (split; [simpl; by rewrite lookup_insert_eq|done]).
    split; [by apply Step_published|]. apply wp_remove_published; [done|done|]. by intros r d2 Hd2 _.
Qed.

Lemma wp_writeMarker marker_identity total d :
  ready d -> zlen data <= MaxMediaBytes ->
  wps R Step (writeCompletionMarkerDurable part destination marker_identity total) (fun r d' => ready d') d.
Proof.
  intros Hr Hz. unfold writeCompletionMarkerDurable. destruct (_ <=? 0); [by apply wp_throw|].
  pose proof Hr as [[(Hu & Hp & Hsome) HI] Hi]. apply dwp_bind, wp_hashFile; [done| |].
  2: { intros j Hj. rewrite Hp in Hj. injection Hj as <-. split; [done|]. unfold data_of. by rewrite Hi. }
  intros media _ _. apply dwp_bind, wp_lift. destruct (validateCompletionMarker _) as [[]|]; [|done].
  destruct (containsForbiddenCheckpointBytes _); [by apply wp_throw|].
  eapply dwp_mono; [apply wp_replaceFile; [intros name Hn; apply (marker_differs name Hn)|apply json_nonempty|]|].
  - intros d1 d2. by apply Step_marker.
  - intros r d' (Hd' & _). split; [split; [by eapply marking_opened|by eapply Inv_marker]|by eapply replacing_nodes].
Qed.

Lemma wp_syncClose ino d :
  opened d -> Inv d -> d_inodes d !! ip = Some ino -> ino_data ino = data ->
  wps R Step (syncClose ip) (fun r d' => r = Ok tt -> ready d') d.
Proof.
  intros Ho HI Hi Hd. unfold syncClose. apply dwp_bind, wp_try, wp_Sync.
  { intros _ code. apply dwp_bind, wp_ignore, wp_Close; [intros|]; by apply wp_throw. }
  destruct (Step_sync d ino Ho HI Hi Hd) as [HS HI']. unfold data_of. rewrite Hi. simpl. rewrite Hd.
  pose proof (put_opened d (mkInode data (zlen data) true) Ho) as Ho'. split; [done|].
  apply wp_Close; [by intros|]. intros _. split; [done|]. simpl. by rewrite lookup_insert_eq.
Qed.

(** [finish] ends with an error or the whole file published. *)
Lemma wp_finish config overwrite total ino d :
  opened d -> Inv d -> d_inodes d !! ip = Some ino -> ino_data ino = data -> zlen data <= MaxMediaBytes ->
  wps R Step (finish config destination overwrite ip total) ended d.
Proof.
  intros Ho HI Hi Hd Hz. destruct paths_differ as (D1 & D2 & D3). destruct marker_path_differs as (M1 & M2 & _). unfold finish.
  change (checkpointPaths destination) with (part, state). cbn iota.
  apply dwp_bind, wp_try. eapply dwp_mono; [by eapply wp_syncClose|]. intros [[]|e] d1 Hr1; [|by apply wp_throw].
  specialize (Hr1 eq_refl).
  assert (forall d2 (k : fsM unit), ready d2 -> (forall d3, published d3 -> wps R Step k ended d3) ->
    wps R Step (published ← try (publishOutput part destination overwrite);
                     match published with Err _ => throw ErrDownloadFailed | Ok _ => k end) ended d2) as Hpub.
  { intros d2 k Hr2 Hk. apply dwp_bind, wp_try. eapply dwp_mono; [by apply wp_publishOutput|].
    intros [[]|e] d3 Hp; [by apply Hk, Hp|]. by apply wp_throw. }
  destruct (cfg_RetainCompletionMarker config).
  - apply dwp_bind. eapply dwp_mono; [by apply wp_writeMarker|]. intros [[]|e] d2 Hr2; [|done].
    apply Hpub; [done|]. intros d3 Hp3. apply wp_ignore, wp_remove_published; [done..|]. by intros r d4 Hp4 _.
  - apply Hpub; [done|]. intros d3 Hp3. apply dwp_bind, wp_ignore, wp_remove_published; [done..|]. intros _ d4 Hp4.
    apply wp_ignore, wp_remove_published; [done..|]. by intros r d5 Hp5 _.
Qed.

End Commit.
