(* ===== verification/DownloadOpen.v ===== *)
(** * Opening the partial file

    The part of [Download] before the rounds: whatever fails and whatever is
    on the disk, the destination is not touched, and the assembler the rounds
    start with accounts for exactly the bytes of the open partial file. *)
From S2P Require Import Prelude Errors Varint GoStrings Url Wire Messages UmpReader Directives ContextState Assembler.
From S2P Require Import Control Request Digest Recovery Headers Checkpoint Post Downloader Runes FilePath Disk Persist.
From S2P Require Import PersistFacts Download Committed DownloadFacts.

(** ** Checks that only look *)

Section Looking.
Context (R : bool) (Step : disk -> disk -> Prop).

Lemma wp_check_components components current (Q : res unit -> disk -> Prop) d :
  (forall r, Q r d) -> wps R Step (check_components current components) Q d.
Proof.
  intros HQ. revert current. induction components as [|c components IH]; intros current; simpl; [by apply dwp_ret|].
  destruct (_ || _); [apply IH|]. apply dwp_bind, wp_pathSymlink; [intros _; apply IH|].
  case_bool_decide; [by apply wp_throw|apply IH].
Qed.

Lemma wp_validateDestination cwd root path (Q : res unit -> disk -> Prop) d :
  (forall r, Q r d) -> wps R Step (validateDestination cwd root path) Q d.
Proof.
  intros HQ. unfold validateDestination. apply dwp_bind, wp_lift. destruct (Abs cwd root); [|done].
  apply dwp_bind, wp_lift. destruct (Abs cwd path); [|done]. destruct (Rel _ _); [|by apply wp_throw].
  destruct (_ || _); [by apply wp_throw|by apply wp_check_components].
Qed.

(** The expected duration of a download that starts; what is beside the
    destination is regular. *)
Lemma wp_check_paths cwd config root destination overwrite (Q : res Z -> disk -> Prop) d :
  (forall e, Q (Err e) d) ->
  (forall expected, regular_or_absent d (partPath_of destination) = true -> regular_or_absent d (statePath_of destination) = true ->
     Q (Ok expected) d) ->
  wps R Step (check_paths cwd config root destination overwrite) Q d.
Proof.
  intros He HQ. unfold check_paths.
  assert (forall {A} (m : fsM A) k, (forall Q', (forall r, Q' r d) -> wps R Step m Q' d) -> (forall a, wps R Step (k a) Q d) -> wps R Step (m ≫= k) Q d) as Hk.
  { intros A m k Hm Hkk. apply dwp_bind, Hm. intros [a|e]; [apply Hkk|apply He]. }
  repeat (apply Hk; [intros Q' HQ'; first [by apply wp_MkdirAll|by apply wp_validateDestination|by apply wp_Lstat]|intros ?]).
  apply dwp_bind, wp_lift. destruct (match a3 with LstatNotExist => _ | _ => _ end); [|done].
  apply dwp_bind, wp_lift. destruct (if _ >? _ then _ else _); [|done].
  apply dwp_bind, wp_lift. destruct (expectedDurationMs _) as [expected|]; [|done].
  change (checkpointPaths destination) with (partPath_of destination, statePath_of destination). cbn iota.
  repeat (apply Hk; [intros Q' HQ'; by apply wp_validateDestination|intros ?]).
  apply dwp_bind, wp_regular_at; [done..|]. intros Hr1. apply dwp_bind, wp_regular_at; [done..|]. intros Hr2. by apply dwp_ret, HQ.
Qed.

End Looking.

(** ** The checkpoint that is found *)

Section Open.
Context `{!Sha256} `{!Sha256Sized} `{!UnicodeTables} `{!JsonCodec sabrCheckpoint}.

(** [cp] is consistent and its media is at the start of [data]. *)
Definition verified (cp : sabrCheckpoint) (data : bytes) : Prop :=
  checkpoint_typed cp /\ validateCheckpoint cp = Ok tt /\
  exists init segs tail, part_matches cp init segs /\ data = init ++ concat segs ++ tail.

Lemma wp_loadCheckpoint R Step path identity (Q : res (option sabrCheckpoint) -> disk -> Prop) d :
  (forall e, Q (Err e) d) -> Q (Ok None) d ->
  (forall cp, checkpoint_typed cp -> validateCheckpoint cp = Ok tt -> Q (Ok (Some cp)) d) ->
  wps R Step (loadCheckpoint path identity) Q d.
Proof.
  intros He HN HQ. unfold loadCheckpoint. apply dwp_bind, wp_regular_at; [by intros..|intros _].
  apply dwp_bind, wp_Lstat; [intros; by apply wp_throw|].
  destruct (d_names d !! path) as [[i| |]|] eqn:Ep; try (by apply wp_throw); [|by apply dwp_ret]. cbn [negb].
  destruct (_ <=? _); [by apply dwp_ret|]. destruct (_ >? _); [by apply wp_throw|].
  apply dwp_bind, wp_ReadFile; [by intros|]. rewrite Ep. destruct (_ >? _); [by apply wp_throw|].
  destruct (containsForbiddenCheckpointBytes _); [by apply wp_throw|].
  destruct (decodeStrictJSON _) as [cp|] eqn:Ed; [|by apply dwp_ret].
  destruct (validateCheckpoint cp) as [[]|] eqn:Ev; [|by apply dwp_ret]. destruct (negb _); [by apply dwp_ret|].
  apply dwp_ret, HQ; [|done]. apply bind_Ok_inv in Ed as ([x rest] & Hx & Hr). destruct (forallb json_space rest); [|done].
  injection Hr as <-. by apply (json_decoded _ _ _ Hx).
Qed.

Lemma wp_verify_part R Step path cp (Q : res unit -> disk -> Prop) d :
  checkpoint_typed cp -> (forall e, Q (Err e) d) ->
  (forall i, d_names d !! path = Some (EFile i) -> verified cp (data_of d i) -> Q (Ok tt) d) ->
  wps R Step (verify_part path cp) Q d.
Proof.
  intros Hty He HQ. unfold verify_part.
  assert (forall before info file, (forall i, d_names d !! path = Some (EFile i) -> exists n, io_rest file = take n (data_of d i)) ->
    is_Some (d_names d !! path ≫= fun e => match e with EFile i => Some i | _ => None end) ->
    Q (verifyCheckpointPartBytes before info (Ok file) cp) d) as Hv.
  { intros before info file Hf [i Hi]. destruct (d_names d !! path) as [[j| |]|] eqn:Ep; try done. injection Hi as ->.
    destruct (verifyCheckpointPartBytes before info (Ok file) cp) as [[]|e] eqn:Ev; [|apply He]. apply (HQ i); [done|].
    apply bind_Ok_inv in Ev as ([] & Hval & Hv). apply bind_Ok_inv in Hv as ([] & _ & Hv).
    destruct info as [| |regular size]; try done. destruct (negb regular); [done|]. destruct (size <? _); [done|].
    cbn [mbind result_bind] in Hv. apply verify_file_iff in Hv as (init & segs & tail & Hr & Hm); [|by apply validateCheckpoint_spec].
    destruct (Hf i eq_refl) as [n Hn]. split_and!; [done..|]. exists init, segs, (tail ++ drop n (data_of d i)).
    split; [done|]. rewrite <- (take_drop n (data_of d i)) at 1. rewrite <- Hn, Hr. by rewrite <- !app_assoc. }
  assert (forall e before info, Q (verifyCheckpointPartBytes before info (Err e) cp) d) as Hbad.
  { intros e before info. unfold verifyCheckpointPartBytes. destruct (validateCheckpoint cp); [|apply He]. simpl.
    destruct (regularOrAbsent before); [|apply He]. simpl. destruct info as [| |[] size]; try apply He. simpl. destruct (size <? _); apply He. }
  assert (forall before info, wps R Step (opened ← try (os_Open path); lift (verifyCheckpointPartBytes before info opened cp)) Q d) as Hopen.
  { intros before info. apply dwp_bind, wp_try, wp_Open; [intros; by apply wp_lift|].
    destruct (d_names d !! path) as [[i| |]|] eqn:Ep; try by apply wp_lift, Hbad.
    split; intros; apply wp_lift, Hv; try by eexists.
    - intros j [= <-]. exists (length (data_of d i)). simpl. by rewrite take_ge.
    - intros j [= <-]. by eexists. }
  apply dwp_bind, wp_lift. destruct (validateCheckpoint cp) as [[]|]; [|apply He].
  assert (forall before, wps R Step (_ ← lift (regularOrAbsent before); info ← os_Lstat path;
    opened ← match info with
             | LstatInfo true size => if size <? cp_TotalWritten cp then mret (Err ErrCheckpointInvalid) else try (os_Open path)
             | _ => mret (Err ErrCheckpointInvalid)
             end; lift (verifyCheckpointPartBytes before info opened cp)) Q d) as Hrest.
  { intros before. apply dwp_bind, wp_lift. destruct (regularOrAbsent before); [|apply He].
    apply dwp_bind, wp_Lstat; [intros; by apply dwp_bind, dwp_ret, wp_lift|].
    destruct (match d_names d !! path with Some _ => _ | None => _ end) as [| |[] size]; try by apply dwp_bind, dwp_ret, wp_lift.
    destruct (size <? _); [by apply dwp_bind, dwp_ret, wp_lift|apply Hopen]. }
  apply dwp_bind, wp_Lstat; intros; apply Hrest.
Qed.

(** ** The open file *)

Context (destination : bytes) (d0 : disk).
Abbreviation part := (partPath_of destination).
Abbreviation state := (statePath_of destination).
Abbreviation paths := [partPath_of destination; statePath_of destination].

Lemma part_state_differ : part <> state.
Proof. apply (paths_differ destination). Qed.

(** What is found is on the disk as it was; otherwise the files are removed. *)
Lemma wp_find_resume R (C : disk -> Prop) identity d :
  (forall d', cleared d paths d' -> C d') ->
  wp R C (find_resume identity part state)
    (fun r d' => cleared d paths d' /\
       forall cp, r = Ok (Some cp) -> d' = d /\
         exists i, d_names d !! part = Some (EFile i) /\ verified cp (data_of d i)) d.
Proof.
  intros HC. unfold find_resume. pose proof (cleared_refl d paths) as Hrefl.
  assert (forall d1 (Q : res (option sabrCheckpoint) -> disk -> Prop), cleared d paths d1 ->
    (forall d2, cleared d paths d2 -> Q (Ok None) d2) ->
    wp R C (_ ← clearResumeArtifacts part state; mret None) Q d1) as Hclear.
  { intros d1 Q Hc HQ. apply dwp_bind, (wp_clearResumeArtifacts R _ d); [by auto|done|apply part_state_differ|].
    intros d2 Hd2 _. by apply dwp_ret, HQ. }
  assert (forall d1, cleared d paths d1 -> wp R C (_ ← clearResumeArtifacts part state; mret None)
    (fun r d' => cleared d paths d' /\ forall cp, r = Ok (Some cp) -> d' = d /\
       exists i, d_names d !! part = Some (EFile i) /\ verified cp (data_of d i)) d1) as Hnone by (intros; by apply Hclear).
  apply dwp_bind, wp_loadCheckpoint; [done|by apply dwp_bind, dwp_ret, Hnone|]. intros cp Hty Hv.
  apply dwp_bind, dwp_bind, wp_try, wp_verify_part; [done|intros; by apply Hclear; [|intros; apply Hnone]|].
  intros i Hi Hver. apply dwp_ret, dwp_ret. split; [done|]. intros cp' [= <-]. split_and!; try done. by exists i.
Qed.

(** The file system around the open file is as it was. *)
Record around (d d' : disk) : Prop := {
  ar_names q : q <> part -> d_names d' !! q = d_names d !! q;
  ar_part : d_names d' !! part = d_names d !! part \/ exists i, d_names d' !! part = Some (EFile i) /\ d_inodes d !! i = None;
  ar_inodes j ino : d_inodes d !! j = Some ino -> d_names d !! part <> Some (EFile j) -> d_inodes d' !! j = Some ino
}.

Lemma around_refl d : around d d.
Proof. split; try done. by left. Qed.

Lemma around_put d i ino : d_names d !! part = Some (EFile i) -> around d (put_inode d i ino).
Proof. intros Hp. split; [done|by left|]. intros j ino' Hj Hne. simpl. rewrite lookup_insert_ne by congruence. done. Qed.

Lemma around_new d i ino : d_inodes d !! i = None -> d_names d !! part = None ->
  around d (mkDisk (<[part := EFile i]> (d_names d)) (<[i := ino]> (d_inodes d))).
Proof.
  intros Hi Hp. split; simpl.
  - intros q Hq. by rewrite lookup_insert_ne.
  - right. exists i. by rewrite lookup_insert_eq.
  - intros j ino' Hj _. rewrite lookup_insert_ne by congruence. done.
Qed.

(** The part names [i], which holds [data]. *)
Definition part_is (d : disk) (i : positive) (data : bytes) : Prop :=
  d_names d !! part = Some (EFile i) /\ is_Some (d_inodes d !! i) /\ data_of d i = data.

Lemma wp_close_fail {A} R C i e (Q : res A -> disk -> Prop) d : Q (Err e) d -> wp R C (close_fail i e) Q d.
Proof. intros HQ. apply dwp_bind, wp_ignore, wp_Close; intros; by apply wp_throw. Qed.

Lemma wp_open_fresh R (C : disk -> Prop) d :
  (forall d', around d d' -> C d') ->
  wp R C (openResumePart part 0) (fun r d' => around d d' /\
    forall i, r = Ok i -> d_names d' !! part = Some (EFile i) /\ d_inodes d' !! i = Some (mkInode [] 0 false)) d.
Proof.
  intros HC. pose proof (around_refl d) as Hrefl. unfold openResumePart. apply dwp_bind, wp_regular_at; [by intros..|intros Hreg].
  apply dwp_bind, wp_OpenFile; [by intros|]. unfold regular_or_absent in Hreg.
  destruct (d_names d !! part) as [[i| |]|] eqn:Ep; try done.
  - pose proof (around_put d i (mkInode [] 0 false) Ep) as Ha. split; [by apply HC|]. apply dwp_ret. split; [done|].
    intros ? [= <-]. split; [done|]. simpl. by rewrite lookup_insert_eq.
  - intros i Hi. pose proof (around_new d i (mkInode [] 0 false) Hi Ep) as Ha. split; [by apply HC|]. apply dwp_ret. split; [done|].
    intros ? [= <-]. simpl. by rewrite !lookup_insert_eq.
Qed.

Lemma wp_open_at R (C : disk -> Prop) offset d :
  disk_wf d -> (forall d', around d d' -> C d') -> 0 < offset ->
  wp R C (openResumePart part offset) (fun r d' => around d d' /\
    forall i j, r = Ok i -> d_names d !! part = Some (EFile j) -> i = j /\ part_is d' i (take (Z.to_nat offset) (data_of d i))) d.
Proof.
  intros Hwf HC Hoff. pose proof (around_refl d) as Hrefl. unfold openResumePart. apply dwp_bind, wp_regular_at; [by intros..|intros _].
  assert (offset =? 0 = false) as -> by lia. assert (offset >? 0 = true) as -> by lia.
  assert (forall d1 i, around d d1 -> (is_Some (d_names d !! part) -> d1 = d) -> d_names d1 !! part = Some (EFile i) ->
    wp R C (size ← try (fd_Size i);
      match size with
      | Err e => close_fail i e
      | Ok size =>
          if size <? offset then close_fail i ErrCheckpointInvalid
          else
            cut ← try (if size >? offset then fd_Truncate i offset else mret tt);
            match cut with
            | Err e => close_fail i e
            | Ok _ => sought ← try (fd_Seek i offset); match sought with Err e => close_fail i e | Ok _ => mret i end
            end
      end)
      (fun r d' => around d d' /\
        forall i j, r = Ok i -> d_names d !! part = Some (EFile j) -> i = j /\ part_is d' i (take (Z.to_nat offset) (data_of d i))) d1) as Hrest.
  { intros d1 i Ha Heq Hn. apply dwp_bind, wp_try, wp_Size; [intros; by apply wp_close_fail|].
    destruct (Z.ltb_spec (zlen (data_of d1 i)) offset); [by apply wp_close_fail|].
    assert (forall d2, around d d2 -> (is_Some (d_names d !! part) -> d_names d !! part = Some (EFile i) /\ part_is d2 i (take (Z.to_nat offset) (data_of d i))) ->
      wp R C (sought ← try (fd_Seek i offset); match sought with Err e => close_fail i e | Ok _ => mret i end)
      (fun r d' => around d d' /\
        forall i j, r = Ok i -> d_names d !! part = Some (EFile j) -> i = j /\ part_is d' i (take (Z.to_nat offset) (data_of d i))) d2) as Hseek.
    { intros d2 Ha2 Hp2. apply dwp_bind, wp_try, wp_faulty; [intros; by apply wp_close_fail|]. apply dwp_ret, dwp_ret. split; [done|].
      intros ? j [= <-] Hj. destruct Hp2 as [E Hp2]; [by eexists|]. split; [congruence|done]. }
    apply dwp_bind, wp_try. destruct (Z.gtb_spec (zlen (data_of d1 i)) offset).
    - apply wp_Truncate; [intros; by apply wp_close_fail|].
      match goal with |- context [put_inode d1 i ?n] => set (d2 := put_inode d1 i n) end. cbv zeta.
      assert (around d d2) as Ha2.
      { destruct Ha as [A1 A2 A3]. split; [done|done|]. intros j ino Hj Hne. subst d2. simpl. rewrite lookup_insert_ne; [by apply A3|].
        intros ->. destruct A2 as [A2|(k & A2 & A4)]; congruence. }
      split; [by apply HC|]. apply Hseek; [done|]. intros Hp. pose proof (Heq Hp) as E. subst d2 d1.
      split; [done|]. split_and!; [exact Hn|simpl; rewrite lookup_insert_eq; by eexists|]. unfold data_of at 1. simpl. by rewrite lookup_insert_eq.
    - apply dwp_ret, Hseek; [done|]. intros Hp. pose proof (Heq Hp) as E. subst d1. split; [done|]. split_and!; [done|by eapply Hwf|].
      rewrite take_ge; [done|]. unfold zlen in *. lia. }
  apply dwp_bind, wp_OpenFile; [by intros|]. destruct (d_names d !! part) as [[i| |]|] eqn:Ep; try done.
  - by apply Hrest.
  - intros i Hi. pose proof (around_new d i (mkInode [] 0 false) Hi Ep) as Ha. split; [by apply HC|]. apply Hrest; [done|by intros []|].
    simpl. by rewrite lookup_insert_eq.
Qed.

(** ** From the checks to the open file *)

Hypothesis Hwf : disk_wf d0.

(** The destination is not touched and no checkpoint appears. *)
Definition calm (d : disk) : Prop :=
  untouched destination d0 d /\ (d_names d !! state = None \/ d_names d !! state = d_names d0 !! state).

Lemma cleared_calm d d' : calm d -> cleared d paths d' -> calm d'.
Proof.
  intros [[Hu1 Hu2] Hs] [Hi Hn]. destruct (paths_differ destination) as (D1 & D2 & D3).
  assert (forall q, q <> part -> q <> state -> d_names d' !! q = d_names d !! q) as Hk.
  { intros q Q1 Q2. destruct (Hn q) as [?|[Hq _]]; [done|]. by repeat (apply elem_of_cons in Hq as [->|Hq]; [done|]); apply elem_of_nil in Hq. }
  split; [|destruct (Hn state) as [->|[_ ->]]; auto]. split; [by rewrite Hk|].
  intros j Hj. rewrite Hi. destruct (Hu2 j Hj) as [Hj1 Hj2]. split; [done|]. by destruct (Hn part) as [->|[_ ->]].
Qed.

Lemma around_calm d d' : calm d -> around d d' -> calm d'.
Proof.
  intros [[Hu1 Hu2] Hs] [An Ap Ai]. destruct (paths_differ destination) as (D1 & D2 & D3).
  split; [|rewrite An by done; auto]. split; [by rewrite An|].
  intros j Hj. destruct (Hu2 j Hj) as [Hj1 Hj2]. destruct (Hwf _ _ Hj) as [ino Hino]. rewrite Hino in Hj1 |- *.
  split; [by apply Ai|]. destruct Ap as [->|(i & -> & Hi)]; [done|]. congruence.
Qed.

Lemma calm_opened d i : calm d -> d_names d !! part = Some (EFile i) -> is_Some (d_inodes d !! i) -> opened destination d0 i d.
Proof. by intros [? _]. Qed.

(** The open file at the start: empty, or the media of the checkpoint. *)
Definition started (i : positive) (resumed : option sabrCheckpoint) (d : disk) : Prop :=
  calm d /\ opened destination d0 i d /\
  match resumed with
  | None => d_inodes d !! i = Some (mkInode [] 0 false)
  | Some cp => checkpoint_typed cp /\ validateCheckpoint cp = Ok tt /\
      exists init segs, part_matches cp init segs /\ data_of d i = init ++ concat segs
  end.

Lemma wp_open_started R d :
  calm d -> wp R calm (openResumePart part 0) (fun r d' => calm d' /\ forall i, r = Ok i -> started i None d') d.
Proof.
  intros Hc. eapply dwp_mono; [apply wp_open_fresh; intros d'; by apply around_calm|]. intros r d' [Ha Hr].
  pose proof (around_calm _ _ Hc Ha) as Hc'. split; [done|]. intros i Hi. destruct (Hr i Hi) as [Hi1 Hi2].
  split; [done|]. split; [apply calm_opened; [done..|by eexists]|done].
Qed.

Lemma verified_take cp data : verified cp data ->
  0 <= cp_TotalWritten cp /\ exists init segs, part_matches cp init segs /\ take (Z.to_nat (cp_TotalWritten cp)) data = init ++ concat segs.
Proof.
  intros (Hty & Hv & init & segs & tail & Hm & ->). pose proof (proj1 (validateCheckpoint_spec cp Hty) Hv) as Hw.
  pose proof (part_matches_length _ _ _ Hw Hm) as Hl. pose proof (zlen_nonneg (init ++ concat segs)). split; [lia|]. exists init, segs. split; [done|].
  rewrite app_assoc. apply take_app_exact. unfold zlen in Hl. lia.
Qed.

(** [find_resume] and then [open_part] *)
Definition found (resumed : option sabrCheckpoint) (d : disk) : Prop :=
  calm d /\ forall cp, resumed = Some cp -> disk_wf d /\
    exists i, d_names d !! part = Some (EFile i) /\ verified cp (data_of d i).

Lemma wp_open_part R resumed d :
  found resumed d -> wp R calm (open_part part state resumed)
    (fun r d' => calm d' /\ forall i resumed, r = Ok (i, resumed) -> started i resumed d') d.
Proof.
  intros [Hc Hf]. unfold open_part. apply dwp_bind, wp_try.
  assert (forall d' e, calm d' -> calm d' /\ forall i resumed, @Err go_error (positive * option sabrCheckpoint) e = Ok (i, resumed) -> started i resumed d') as Herr by done.
  destruct resumed as [cp|]; simpl.
  - destruct (Hf cp eq_refl) as (Hw & i0 & Hi0 & Hver). destruct (verified_take _ _ Hver) as (Hoff & init & segs & Hm & Ht).
    assert (forall d' e, calm d' -> wp R calm
      (if true && bool_decide (e = ErrCheckpointInvalid) then
        _ ← clearResumeArtifacts part state;
        opened ← try (openResumePart part 0);
        match opened with Ok i => mret (i, None) | Err _ => throw ErrDownloadFailed end
       else throw ErrDownloadFailed)
      (fun r d' => calm d' /\ forall i resumed, r = Ok (i, resumed) -> started i resumed d') d') as Hretry.
    { intros d' e Hc'. destruct (_ && _); [|by apply wp_throw, Herr].
      apply dwp_bind, (wp_clearResumeArtifacts R _ d'); [intros d1 d2 _; by apply cleared_calm|apply cleared_refl|apply part_state_differ|].
      intros d2 Hd2 _. pose proof (cleared_calm _ _ Hc' Hd2) as Hc2. apply dwp_bind, wp_try. eapply dwp_mono; [by apply wp_open_started|].
      intros [i|err] d3 [Hc3 Hs3]; [|by apply wp_throw, Herr]. apply dwp_ret. split; [done|]. intros ? ? [= <- <-]. auto. }
    destruct (decide (cp_TotalWritten cp = 0)) as [E|E].
    + rewrite E. eapply dwp_mono; [by apply wp_open_started|]. intros [i|e] d' [Hc' Hs']; [|by apply Hretry].
      apply dwp_ret. split; [done|]. intros ? ? [= <- <-]. destruct (Hs' i eq_refl) as (_ & Ho & Hi).
      destruct Hver as (? & ? & _). split_and!; try done. exists init, segs. split; [done|]. rewrite <- Ht, E. unfold data_of. by rewrite Hi.
    + eapply dwp_mono; [apply wp_open_at; [done|intros d'; by apply around_calm|lia]|]. intros [i|e] d' [Ha Hp]; [|apply Hretry; by eapply around_calm].
      apply dwp_ret. pose proof (around_calm _ _ Hc Ha) as Hc'. split; [done|]. intros ? ? [= <- <-].
      destruct (Hp i i0 eq_refl Hi0) as (-> & Hn & Hi & Hd). destruct Hver as (? & ? & _).
      split; [done|]. split; [by apply calm_opened|]. split; [done|]. split; [done|]. exists init, segs. by rewrite Hd.
  - eapply dwp_mono; [by apply wp_open_started|]. intros [i|e] d' [Hc' Hs']; [|by apply wp_throw, Herr].
    apply dwp_ret. split; [done|]. intros ? ? [= <- <-]. auto.
Qed.

(** ** The assembler at the start *)

Lemma max_bytes_range config : 1 <= max_bytes config <= MaxMediaBytes.
Proof. apply clamp_range. by vm_compute. Qed.

Lemma wp_reopenPartFresh R i d :
  calm d -> wp R calm (reopenPartFresh i part) (fun r d' => calm d' /\ forall i, r = Ok i -> started i None d') d.
Proof.
  intros Hc. unfold reopenPartFresh. apply dwp_bind, wp_ignore, wp_Close; intros; (
    apply dwp_bind, (wp_ignore_remove R _ d paths); [intros d1 d2 _; by apply cleared_calm|by left|apply cleared_refl|];
    intros d1 Hd1 _ _; apply wp_open_started; by eapply cleared_calm).
Qed.

(** What the rounds start with. *)
Record begun (config : Config) (a : trackFile) (fs : fsys) : Prop := {
  bg_world : asm_world a = fs;
  bg_inv : asm_inv (max_bytes config) a;
  bg_file : exists i faults, asm_file a = Some (handle_at i faults fs) /\ opened destination d0 i (fs_disk fs)
}.

Lemma fresh_begun config expected faults i fs :
  started i None (fs_disk fs) -> begun config (fresh_assembler config expected faults i fs) fs.
Proof.
  intros (_ & Ho & Hi). split; [done| |by exists i, faults]. apply asm_inv_new; [|pose proof (max_bytes_range config); lia].
  unfold handle_at, data_of. simpl. by rewrite Hi.
Qed.

Lemma restored_begun config expected faults i cp fs :
  started i (Some cp) (fs_disk fs) -> cp_TotalWritten cp <= max_bytes config ->
  exists a, restoreCheckpoint (fresh_assembler config expected faults i fs) cp (max_bytes config) = (None, a) /\ begun config a fs.
Proof.
  intros (_ & Ho & Hty & Hv & init & segs & Hm & Hd) Hle. pose proof (max_bytes_range config) as Hmax.
  pose proof (proj1 (validateCheckpoint_spec cp Hty) Hv) as Hw.
  destruct (restore_progress (fresh_assembler config expected faults i fs) cp (max_bytes config) init segs)
    as (a & Hr & Hp & Hact & _ & Hf & Hwo & _); try done.
  { assert (MaxMediaBytes <= MaxInt64) by (by vm_compute). lia. }
  exists a. split; [done|]. split; [done|split; [done|by exists init, segs]|]. exists i, faults. by rewrite Hf.
Qed.

Lemma start_over_spec config expected faults i fs :
  calm (fs_disk fs) ->
  let '(r, fs') := start_over config expected part state faults i fs in
  (exists l, fs_trace fs' = fs_trace fs ++ l /\ chained (fun _ d => calm d) (fs_disk fs) l (fs_disk fs')) /\
  forall a b, r = Ok (a, b) -> begun config a fs' /\ calm (fs_disk fs').
Proof.
  intros Hc. unfold start_over, mbind, fsM_bind.
  assert (wp false calm (clearResumeArtifacts part state) (fun _ d' => calm d') (fs_disk fs)) as Hclear.
  { apply (wp_clearResumeArtifacts false _ (fs_disk fs)); [intros d1 d2 _; by apply cleared_calm|apply cleared_refl|apply part_state_differ|].
    intros d' Hd' _. by eapply cleared_calm. }
  specialize (Hclear fs eq_refl ltac:(done)). destruct (clearResumeArtifacts part state fs) as [[[]|e] fs1];
    destruct Hclear as (Hc1 & _ & l1 & Ht1 & Hl1); [|split; [by exists l1|done]].
  pose proof (wp_try _ _ _ (fun r d => calm d /\ match r with Ok (Ok i) => started i None d | _ => True end) _
    (dwp_mono _ _ _ _ (fun r d => calm d /\ match r with Ok i => started i None d | Err _ => True end) _
      (wp_reopenPartFresh false i _ Hc1) ltac:(intros [i'|e] d [? ?]; split; auto)) fs1 eq_refl ltac:(done)) as Hopen.
  destruct (try (reopenPartFresh i part) fs1) as [[[i'|e']|e] fs2]; destruct Hopen as ((Hc2 & Hs2) & _ & l2 & Ht2 & Hl2); simpl;
    (split; [exists (l1 ++ l2); split; [by rewrite Ht2, Ht1, app_assoc|by eapply chained_app]|]); try done.
  intros a b [= <- <-]. split; [by apply fresh_begun|done].
Qed.

Lemma start_assembler_spec config expected faults i resumed fs :
  started i resumed (fs_disk fs) ->
  let '(r, fs') := start_assembler config expected part state faults i resumed fs in
  (exists l, fs_trace fs' = fs_trace fs ++ l /\ chained (fun _ d => calm d) (fs_disk fs) l (fs_disk fs')) /\
  forall a b, r = Ok (a, b) -> begun config a fs' /\ calm (fs_disk fs').
Proof.
  intros Hs. pose proof Hs as [Hc _]. unfold start_assembler.
  assert (exists l, fs_trace fs = fs_trace fs ++ l /\ chained (fun _ d => calm d) (fs_disk fs) l (fs_disk fs)) as Hstay
    by (exists []; by rewrite app_nil_r).
  destruct resumed as [cp|]; [|split; [done|]; intros ? ? [= <- <-]; split; [by apply fresh_begun|done]].
  destruct (decide (cp_TotalWritten cp <= max_bytes config)) as [Hle|Hgt].
  - destruct (restored_begun config expected faults i cp fs Hs Hle) as (a & -> & Hb). split; [done|]. by intros ? ? [= <- <-].
  - destruct (restoreCheckpoint _ cp _) as [[e|] a] eqn:Er; [by apply start_over_spec|].
    unfold restoreCheckpoint in Er. destruct Hs as (_ & _ & _ & Hv & _). rewrite Hv in Er.
    assert (cp_TotalWritten cp >? max_bytes config = true) as E by lia. by rewrite E in Er.
Qed.

(** A checkpoint within the limits is taken up. *)
Lemma start_assembler_resumed config expected faults i resumed fs :
  started i resumed (fs_disk fs) -> (forall cp, resumed = Some cp -> cp_TotalWritten cp <= max_bytes config) ->
  exists a b, start_assembler config expected part state faults i resumed fs = (Ok (a, b), fs) /\ begun config a fs.
Proof.
  intros Hs Hle. unfold start_assembler. destruct resumed as [cp|].
  - destruct (restored_begun config expected faults i cp fs Hs (Hle cp eq_refl)) as (a & -> & Hb). by exists a, true.
  - exists (fresh_assembler config expected faults i fs), false. split; [done|by apply fresh_begun].
Qed.

End Open.
