(* ===== verification/Resume.v ===== *)
(** * What a restart finds

    [find_resume] on a disk that does not fail: it finds exactly the
    checkpoints that load and whose media is in the partial file, and clears
    the rest.  On the way from one run to the next nothing of a checkpoint that
    is found is lost before the rounds go on from it. *)
From S2P Require Import Prelude Errors Varint GoStrings Url Wire Messages UmpReader Directives ContextState Assembler.
From S2P Require Import Control Request Digest Recovery Headers Checkpoint Post Downloader Runes FilePath Disk Persist.
From S2P Require Import PersistFacts Download Committed DownloadFacts DownloadOpen.

Section Resume.
Context `{!Sha256} `{!Sha256Sized} `{!UnicodeTables} `{!JsonCodec sabrCheckpoint}.
Context (identity : checkpointIdentity) (destination : bytes).

Abbreviation part := (partPath_of destination).
Abbreviation state := (statePath_of destination).
Abbreviation paths := [partPath_of destination; statePath_of destination].
Abbreviation resumes := (resumes_from identity destination).

(** ** Looking for a checkpoint *)

(** The partial file verifies exactly if the media is at its start. *)
Lemma wp_verify_iff Step cp d :
  checkpoint_typed cp -> validateCheckpoint cp = Ok tt ->
  wps true Step (verify_part part cp)
    (fun r d' => d' = d /\ (r = Ok tt <-> exists i, d_names d !! part = Some (EFile i) /\ media_at cp (data_of d i))) d.
Proof.
  intros Hty Hv. pose proof (proj1 (validateCheckpoint_spec cp Hty) Hv) as Hw.
  assert (forall r : res unit, r <> Ok tt -> (forall i, d_names d !! part = Some (EFile i) -> ~ media_at cp (data_of d i)) ->
    d = d /\ (r = Ok tt <-> exists i, d_names d !! part = Some (EFile i) /\ media_at cp (data_of d i))) as Hno.
  { intros r Hr Hn. split; [done|]. split; [done|]. intros (i & Hi & Hm). by destruct (Hn i Hi). }
  unfold verify_part. apply dwp_bind, wp_lift. rewrite Hv. apply dwp_bind, wp_Lstat; [done|].
  destruct (d_names d !! part) as [[i| |]|] eqn:Ep; apply dwp_bind, wp_lift; cbn [regularOrAbsent negb]; try by apply Hno.
  - apply dwp_bind, wp_Lstat; [done|]. rewrite Ep. destruct (Z.ltb_spec (zlen (data_of d i)) (cp_TotalWritten cp)) as [Hlt|Hge].
    + apply dwp_bind, dwp_ret, wp_lift. unfold verifyCheckpointPartBytes. rewrite Hv. simpl.
      apply Hno; [by case_match|]. intros j [= <-] (init & segs & tail & Hm & E).
      pose proof (part_matches_length _ _ _ Hw Hm) as Hl. rewrite E, zlen_app in Hlt. pose proof (zlen_nonneg tail). lia.
    + apply dwp_bind, wp_try, wp_Open; [done|]. rewrite Ep. split; [|done]. apply wp_lift. split; [done|].
      unfold verifyCheckpointPartBytes. rewrite Hv. simpl. assert (zlen (data_of d i) <? cp_TotalWritten cp = false) as -> by lia.
      etransitivity; [exact (verify_file_iff (mkIoFile (data_of d i) None) cp Hw)|]. simpl. split.
      * intros (init & segs & tail & E & Hm). exists i. split; [done|]. exists init, segs, tail. by rewrite <- app_assoc.
      * intros (j & [= <-] & init & segs & tail & Hm & E). exists init, segs, tail. by rewrite app_assoc.
  - apply dwp_bind, wp_Lstat; [done|]. rewrite Ep. apply dwp_bind, dwp_ret, wp_lift. unfold verifyCheckpointPartBytes.
    rewrite Hv. simpl. by apply Hno.
Qed.

Definition unresumable (d : disk) : Prop := forall cp, ~ resumes d cp.

Lemma cleared_unresumable d d' : unresumable d -> cleared d paths d' -> unresumable d'.
Proof.
  intros Hu [Hi Hn] cp [(encoded & Hf & Hl) (i & Hp & Hm)]. apply (Hu cp). unfold file_at, data_of in *. rewrite Hi in *.
  destruct (Hn state) as [E|[_ E]]; rewrite E in Hf; [|done]. destruct (Hn part) as [E'|[_ E']]; rewrite E' in Hp; [|done].
  split; [by exists encoded|by exists i].
Qed.

(** What is found is what a restart resumes from; everything else is removed. *)
Lemma wp_find_iff (Step : disk -> disk -> Prop) d :
  (unresumable d -> forall d1 d2, cleared d paths d1 -> cleared d paths d2 -> Step d1 d2) ->
  wps true Step (find_resume identity part state)
    (fun r d' => (forall cp, r = Ok (Some cp) <-> resumes d cp) /\ (forall cp, r = Ok (Some cp) -> d' = d) /\
       (r = Ok None -> regular_or_absent d part = true -> regular_or_absent d state = true ->
        d_names d' !! part = None /\ d_names d' !! state = None)) d.
Proof.
  intros HS. pose proof (cleared_refl d paths) as Hrefl. pose proof (part_state_differ destination) as Hne.
  assert (forall d1 (Q : res (option sabrCheckpoint) -> disk -> Prop), unresumable d -> cleared d paths d1 ->
    (forall d2, cleared d paths d2 -> (regular_or_absent d1 part = true -> regular_or_absent d1 state = true ->
       d_names d2 !! part = None /\ d_names d2 !! state = None) -> Q (Ok None) d2) ->
    wps true Step (_ ← clearResumeArtifacts part state; mret None) Q d1) as Hclear.
  { intros d1 Q Hun Hc HQ. apply dwp_bind, (wp_clearResumeArtifacts true _ d); [by auto|done|done|].
    intros d2 Hd2 Hr. apply dwp_ret, HQ; [done|]. auto. }
  assert (forall d1, unresumable d -> cleared d paths d1 ->
    (regular_or_absent d part = true -> regular_or_absent d state = true -> regular_or_absent d1 part = true /\ regular_or_absent d1 state = true) ->
    wps true Step (_ ← clearResumeArtifacts part state; mret None)
      (fun r d' => (forall cp, r = Ok (Some cp) <-> resumes d cp) /\ (forall cp, r = Ok (Some cp) -> d' = d) /\
       (r = Ok None -> regular_or_absent d part = true -> regular_or_absent d state = true ->
        d_names d' !! part = None /\ d_names d' !! state = None)) d1) as Hnone.
  { intros d1 Hun Hc Hreg. apply Hclear; [done..|]. intros d2 Hd2 Hr. split_and!; [|done|intros _ R1 R2; apply Hr; by apply Hreg].
    intros cp. split; [done|]. by intros ?%Hun. }
  unfold find_resume. apply dwp_bind. eapply dwp_mono; [apply wp_load_iff|]. intros r d1 [-> Hload].
  destruct r as [[cp|]|e].
  - destruct (proj1 (Hload cp) eq_refl) as (encoded & Hf & Hl).
    assert (forall cp', resumes d cp' -> cp' = cp) as Huniq.
    { intros cp' [(enc & Hf' & Hl') _]. rewrite Hf in Hf'. injection Hf' as <-. by eapply loadable_det. }
    apply dwp_bind, dwp_bind, wp_try. eapply dwp_mono; [apply wp_verify_iff; [by eapply loadable_typed|apply Hl]|].
    intros r d2 [-> Hver]. destruct r as [[]|e].
    + apply dwp_ret, dwp_ret. split_and!; [|done..]. intros cp'. split; [|by intros ->%Huniq].
      intros [= <-]. split; [by exists encoded|by apply Hver].
    + assert (unresumable d) as Hun. { intros cp' Hr. pose proof (Huniq _ Hr) as ->. destruct Hr as [_ Hr]. by apply Hver in Hr. }
      apply Hclear; [done..|]. intros d2 Hd2 Hreg. apply Hnone; [done|done|]. intros R1 R2.
      destruct (Hreg R1 R2) as [E1 E2]. unfold regular_or_absent. by rewrite E1, E2.
  - apply dwp_bind, dwp_ret. apply Hnone; [|done|done]. intros cp [(encoded & Hf & Hl) _].
    assert (@Ok go_error _ None = Ok (Some cp)) by (apply Hload; by exists encoded). done.
  - split_and!; [|done..]. intros cp. split; [done|]. intros [(encoded & Hf & Hl) _].
    assert (@Err _ (option sabrCheckpoint) e = Ok (Some cp)) by (apply Hload; by exists encoded). done.
Qed.

Lemma find_resume_iff d cp : (find_resume identity part state (boot d [] [])).1 = Ok (Some cp) <-> resumes d cp.
Proof.
  pose proof (wp_run _ _ _ [] (wp_find_iff (fun _ _ => True) d ltac:(done))) as [Hr _]. apply Hr.
Qed.

(** ** Nothing is lost *)

(** A checkpoint of [n] bytes on stable storage is followed by one of [n] bytes
    or more, and those of [n] bytes or less keep their media. *)
Definition keeps_up (d d' : disk) : Prop :=
  forall ip n, backed identity destination ip n d -> backed identity destination ip n d' /\
    forall cp s, backs identity ip cp s d -> cp_TotalWritten cp <= n -> backs identity ip cp s d'.

(** What a restart finds is on stable storage. *)
Definition based (d : disk) : Prop :=
  forall cp, resumes d cp -> exists ip, backed identity destination ip (cp_TotalWritten cp) d.

Definition careful (d d' : disk) : Prop := keeps_up d d' /\ based d'.

Lemma unresumable_careful d d' : unresumable d -> unresumable d' -> careful d d'.
Proof.
  intros Hu Hu'. split; [|by intros cp ?%Hu']. intros ip n (cp & Hr & _)%backed_resumes. by apply Hu in Hr.
Qed.

Lemma keeps_up_chain d l e ip n cp s :
  chained keeps_up d l e -> backed identity destination ip n d -> backs identity ip cp s d -> cp_TotalWritten cp <= n ->
  backs identity ip cp s e.
Proof.
  revert d. induction l as [|d1 l IH]; intros d; simpl; [by intros <-|]. intros [Hk Hc] Hb Hs Hn.
  destruct (Hk ip n Hb) as [Hb1 Hs1]. eauto.
Qed.

(** Whatever moment the names are of, they lead to a checkpoint of the last. *)
Lemma keeps_up_alive d l e ip n :
  chained keeps_up d l e -> backed identity destination ip n d ->
  Forall (fun m => d_names m !! part = Some (EFile ip) /\
    exists s cp, d_names m !! state = Some (EFile s) /\ backs identity ip cp s e /\ n <= cp_TotalWritten cp) (d :: l).
Proof.
  revert d. induction l as [|d1 l IH]; intros d Hc Hb.
  - simpl in Hc. subst e. destruct Hb as (Hp & s & cp & ? & ? & ?). constructor; [|done]. split; [done|]. by exists s, cp.
  - constructor; [|destruct Hc as [Hk Hc]; apply IH; [done|by apply Hk]].
    destruct (id Hb) as (Hp & s & cp & Hs & Hbs & Hn). split; [done|]. exists s, cp. split_and!; [done| |done].
    eapply (keeps_up_chain d (d1 :: l)); [exact Hc| |exact Hbs|done]. split; [done|]. by exists s, cp.
Qed.

(** A restart after any stop finds at least what was backed. *)
Lemma alive_survives d l e ip n d' :
  chained keeps_up d l e -> backed identity destination ip n d -> survives (d :: l) d' ->
  exists cp, resumes d' cp /\ n <= cp_TotalWritten cp.
Proof.
  intros Hc Hb Hsv. pose proof (keeps_up_alive _ _ _ _ _ Hc Hb) as Hal. rewrite Forall_forall in Hal.
  destruct (proj1 Hsv part) as (m & Hm & Ep). destruct (proj1 Hsv state) as (m' & Hm' & Es).
  destruct (Hal m Hm) as [Hp _]. destruct (Hal m' Hm') as [_ (s & cp & Hs & Hbs & Hn)]. exists cp. split; [|done].
  eapply (backs_survive identity destination ip cp s _ e); [by eapply chained_last|done|congruence|congruence|done].
Qed.

(** ** Before the rounds *)

Lemma media_at_take encoded cp data n :
  loadable identity encoded cp -> media_at cp data -> cp_TotalWritten cp <= Z.of_nat n -> media_at cp (take n data).
Proof.
  intros Hl%loadable_wf (init & segs & tail & Hm & ->) Hn. exists init, segs, (take (n - length (init ++ concat segs)) tail).
  split; [done|]. rewrite take_app. f_equal. apply take_ge. pose proof (part_matches_length _ _ _ Hl Hm) as E. unfold zlen in E. lia.
Qed.

(** What is found is what is backed. *)
Lemma backed_found ip n d cp :
  backed identity destination ip n d -> resumes d cp -> backed identity destination ip (cp_TotalWritten cp) d.
Proof.
  intros (Hp & s & cp1 & Hs & (Hne & (enc1 & Hi & Hl1) & Hst) & _) [(enc & Hf & Hl) _]. unfold file_at in Hf. rewrite Hs, Hi in Hf.
  injection Hf as <-. rewrite (loadable_det _ _ _ _ Hl Hl1). split; [done|]. exists s, cp1. split_and!; [done| |done].
  split; [done|]. split; [by exists enc1|done].
Qed.

(** The partial file is cut where its checkpoint ends. *)
Lemma cut_careful ip cp d ino contents n :
  backed identity destination ip (cp_TotalWritten cp) d -> resumes d cp -> stable_part ip d contents ->
  cp_TotalWritten cp <= Z.of_nat n -> take (Z.to_nat (ino_stable ino)) (ino_data ino) = take n contents ->
  careful d (put_inode d ip ino) /\ backed identity destination ip (cp_TotalWritten cp) (put_inode d ip ino).
Proof.
  intros Hb Hr Hst Hle Ecut. set (d' := put_inode d ip ino).
  assert (stable_part ip d' (take n contents)) as Hst' by (exists ino; simpl; by rewrite lookup_insert_eq).
  assert (forall cp' s, backs identity ip cp' s d -> cp_TotalWritten cp' <= Z.of_nat n -> backs identity ip cp' s d') as Hbs.
  { intros cp' s (Hne & (encoded & Hi & Hl) & c & Hc & Hm) Hle'. rewrite (stable_part_det _ _ _ _ Hc Hst) in Hm. split; [done|].
    split; [exists encoded; split; [|done]; simpl; by rewrite lookup_insert_ne|]. exists (take n contents). split; [done|].
    by eapply media_at_take. }
  assert (forall cp', resumes d cp' -> cp' = cp) as Huniq.
  { intros cp' [(enc' & Hf' & Hl') _]. destruct Hr as [(enc & Hf & Hl) _]. rewrite Hf in Hf'. injection Hf' as <-. by eapply loadable_det. }
  assert (keeps_up d d') as Hk.
  { intros ip' k Hb'. assert (ip' = ip) as -> by (destruct Hb as (E & _), Hb' as (E' & _); congruence).
    destruct (backed_resumes _ _ _ _ _ Hb') as (cp' & Hr' & Hk). pose proof (Huniq _ Hr') as ->.
    split; [|intros cp' s Hs Hcp; apply Hbs; [done|lia]]. destruct Hb as (Hp & s & cp1 & Hs & Hb1 & Hn1). split; [done|].
    exists s, cp1. split_and!; [done| |lia]. apply Hbs; [done|].
    assert (resumes d cp1) as ->%Huniq; [|done].
    eapply (backs_survive identity destination ip cp1 s [d] d); [done|apply survives_refl|done..]. }
  destruct (Hk ip _ Hb) as [Hb' _]. split; [split; [done|]|done]. intros cp' Hr'. exists ip. by eapply backed_found.
Qed.

Lemma wp_open_resumed ip cp d :
  backed identity destination ip (cp_TotalWritten cp) d -> resumes d cp ->
  wps true careful (openResumePart part (cp_TotalWritten cp))
    (fun r d' => r = Ok ip /\ backed identity destination ip (cp_TotalWritten cp) d') d.
Proof.
  intros Hb Hr. pose proof Hb as (Hp & s & cp1 & Hs & (_ & (enc & _ & Hl) & contents & Hst & Hm) & Hn).
  pose proof (media_at_length _ _ _ _ Hl Hm) as Hlen. destruct (id Hst) as (ino & Hi & Hc).
  assert (data_of d ip = ino_data ino) as Hd by (unfold data_of; by rewrite Hi).
  assert (cp_TotalWritten cp <= zlen (data_of d ip)) as Hsize.
  { rewrite <- Hc in Hlen. unfold zlen in *. rewrite length_take in Hlen. rewrite Hd. lia. }
  unfold openResumePart. apply dwp_bind, wp_regular_at; [done|unfold regular_or_absent; by rewrite Hp|intros _].
  apply dwp_bind, wp_OpenFile; [done|]. rewrite Hp. destruct (Z.eqb_spec (cp_TotalWritten cp) 0) as [E0|E0].
  - destruct (cut_careful ip cp d (mkInode [] 0 false) contents 0) as [Hcf Hb']; try done; [lia|].
    split; [done|]. assert (cp_TotalWritten cp >? 0 = false) as -> by lia. by apply dwp_ret.
  - destruct (Z.gtb_spec (cp_TotalWritten cp) 0); [|by apply dwp_ret].
    assert (forall d', backed identity destination ip (cp_TotalWritten cp) d' -> wps true careful
      (sought ← try (fd_Seek ip (cp_TotalWritten cp)); match sought with Err e => close_fail ip e | Ok _ => mret ip end)
      (fun r d' => r = Ok ip /\ backed identity destination ip (cp_TotalWritten cp) d') d') as Hseek.
    { intros d' Hb'. apply dwp_bind, wp_try, wp_faulty; [done|]. by apply dwp_ret, dwp_ret. }
    apply dwp_bind, wp_try, wp_Size; [done|]. assert (zlen (data_of d ip) <? cp_TotalWritten cp = false) as -> by lia.
    apply dwp_bind, wp_try. destruct (_ >? cp_TotalWritten cp); [|apply dwp_ret; by apply Hseek].
    apply wp_Truncate; [done|]. rewrite Hd, Hi. simpl.
    match goal with |- context [put_inode d ip ?n] => destruct (cut_careful ip cp d n contents (Z.to_nat (cp_TotalWritten cp))) as [Hcf Hb'] end;
      try done; [lia| |split; [done|by apply Hseek]].
    simpl. rewrite <- Hc, !take_take. f_equal. lia.
Qed.

Context (d0 : disk).

(** The open partial file when the rounds start, and its checkpoint. *)
Definition placed (ip : positive) (d : disk) : Prop :=
  d_names d !! part = Some (EFile ip) /\
  exists contents, stable_part ip d contents /\ recorded identity destination d0 ip true contents d.

Lemma backed_placed ip n d : backed identity destination ip n d -> placed ip d.
Proof.
  intros (Hp & s & cp & Hs & (Hne & (enc & Hi & Hl) & c & Hc & Hm) & _). split; [done|]. exists c. split; [done|].
  right. right. by exists s, cp, enc.
Qed.

Lemma wp_open_careful d :
  d_names d !! part = None -> d_names d !! state = None ->
  wps true careful (openResumePart part 0) (fun r d' => exists i, r = Ok i /\ placed i d') d.
Proof.
  intros Hp Hs. unfold openResumePart. apply dwp_bind, wp_regular_at; [done|unfold regular_or_absent; by rewrite Hp|intros _].
  apply dwp_bind, wp_OpenFile; [done|]. rewrite Hp. intros i Hi.
  set (d' := mkDisk _ _). assert (d_names d' !! state = None) as Hs'.
  { simpl. rewrite lookup_insert_ne; [done|]. apply part_state_differ. }
  split.
  - apply unresumable_careful; intros cp [(enc & Hf & _) _]; unfold file_at in Hf; by rewrite ?Hs, ?Hs' in Hf.
  - apply dwp_ret. exists i. split; [done|]. split; [simpl; by rewrite lookup_insert_eq|]. exists []. split; [|by left].
    eexists. simpl. by rewrite lookup_insert_eq.
Qed.

(** The checks, the checkpoint that is found and the file that is opened. *)
Lemma wp_prologue_careful cwd config root overwrite :
  based d0 ->
  wps true careful
    (expected ← check_paths cwd config root destination overwrite;
     resumed ← find_resume identity part state;
     '(i, resumed) ← open_part part state resumed;
     mret (expected, i, resumed))
    (fun r d => forall expected i resumed, r = Ok (expected, i, resumed) ->
       placed i d /\ forall cp, resumed = Some cp -> resumes d0 cp) d0.
Proof.
  intros Hbase. apply dwp_bind, wp_check_paths; [done|]. intros expected R1 R2. apply dwp_bind.
  eapply dwp_mono; [apply wp_find_iff|].
  { intros Hun d1 d2 Hd1 Hd2. apply unresumable_careful; by eapply cleared_unresumable. }
  intros [[cp|]|e] d (Hiff & Heq & Hnone); [| |done]; apply dwp_bind; unfold open_part; apply dwp_bind, wp_try; simpl.
  - pose proof (proj1 (Hiff cp) eq_refl) as Hr. rewrite (Heq cp eq_refl). destruct (Hbase cp Hr) as [ip Hb].
    eapply dwp_mono; [by apply (wp_open_resumed ip)|]. intros r d' [-> Hb']. apply dwp_ret, dwp_ret. intros ? ? ? [= <- <- <-].
    split; [by eapply backed_placed|]. by intros ? [= <-].
  - destruct (Hnone eq_refl R1 R2) as [Hp Hs]. eapply dwp_mono; [by apply wp_open_careful|]. intros r d' (i & -> & Hpl).
    apply dwp_ret, dwp_ret. by intros ? ? ? [= <- <- <-].
Qed.

(** The steps of the rounds. *)
Lemma advances_careful ip d d' : advances identity destination d0 ip true d d' -> careful d d'.
Proof.
  intros ([G1 G2] & Hg & Hb). split.
  - intros ip' n Hbk. assert (ip' = ip) as -> by (destruct Hbk as (E & _), G1 as (_ & E' & _); congruence).
    split; [by apply Hb|]. intros cp s Hs _. by eapply grows_backs.
  - intros cp Hr. exists ip. by eapply good_backed.
Qed.

End Resume.
