(* ===== verification/Delivery.v ===== *)
(** * A whole download: what it delivers

    Whatever the server, the disk and the callbacks do, the destination is at
    every moment the file it was or the complete track, synchronized.  A commit
    secures every byte of the partial file, and what is secured stays so,
    through stops, restarts and commits, until the track is published.  A
    completed track is published, with its marker if it is asked for. *)
From S2P Require Import Prelude Errors Varint GoStrings Url Wire Messages UmpReader Directives ContextState Assembler.
From S2P Require Import Control Request Digest Recovery Headers Checkpoint Post Downloader Runes FilePath Disk Persist.
From S2P Require Import PersistFacts Durable Download Committed DownloadFacts DownloadOpen Resume.

Section Deliver.
Context {T S : Type} `{!Sha256} `{!Sha256Sized} `{!UnicodeTables} `{!IoReader S} `{!Env T S}.
Context `{!JsonCodec sabrCheckpoint} `{!JsonCodec sabrCompletionMarker}.
Context (config : Config) (destination : bytes) (d0 : disk).

Abbreviation part := (partPath_of destination).
Abbreviation state := (statePath_of destination).
Abbreviation identity := (identityFromConfig config).
Abbreviation rounds s := (Download_rounds (Some (commit_hook identity state)) (limits_of config) s).
Abbreviation untouched := (DownloadFacts.untouched destination d0).
Abbreviation calm := (DownloadOpen.calm destination d0).

(** ** Statements *)

(** The rounds have ended with a complete track, [data]. *)
Definition complete (s : session partHandle fsys T) (data : bytes) : Prop :=
  trackComplete (ses_assembler s) = true /\
  exists init segs, progress (max_bytes config) (ses_assembler s) init segs /\ data = init ++ concat segs.

(** A run ends before its rounds, or it is the rounds of a session in its
    invariant and what follows them; the destination is untouched until the
    complete track is published. *)
Definition delivers (overwrite : bool) (out : res Result * T * fsys) : Prop :=
  let '(r, t, fs) := out in
  (Forall untouched (fs_trace fs) /\ exists e, r = Err e) \/
  exists s resumed ip,
    ses_inv (max_bytes config) s /\ run_rounds config destination overwrite resumed s = (r, t, fs) /\
    let s' := (rounds s).2 in
    let data := asm_contents (ses_assembler s') in
    Forall (fun d => untouched d \/ (complete s' data /\ published destination ip data d)) (fs_trace fs) /\
    forall result, r = Ok result ->
      complete s' data /\ published destination ip data (fs_disk fs) /\ result = mkResult destination (zlen data) resumed.

(** What a restart resumes from, after whatever stop left [d]. *)
Definition restart (d : disk) (cp : sabrCheckpoint) : Prop :=
  (find_resume identity part state (boot d [] [])).1 = Ok (Some cp).

(** [n] bytes are not lost by a stop after the moments [h]: a restart resumes
    from that many or more. *)
Definition secures (h : list disk) (n : Z) : Prop :=
  forall d, survives h d -> exists cp, restart d cp /\ n <= cp_TotalWritten cp.

(** An earlier run has left [d0]: a checkpoint that is found there is on stable
    storage with its media, and not of more bytes than allowed. *)
Definition resumable : Prop :=
  forall cp, restart d0 cp ->
    cp_TotalWritten cp <= max_bytes config /\ exists ip, backed identity destination ip (cp_TotalWritten cp) d0.

(** ** The rounds and the publication *)

Hypothesis Hwf : disk_wf d0.

Lemma run_rounds_ends R (Step : disk -> disk -> Prop) (Inv : disk -> Prop) overwrite resumed s ip h :
  ses_inv (max_bytes config) s -> counters_ok (limits_of config) s ->
  let s' := (rounds s).2 in
  let data := asm_contents (ses_assembler s') in
  let fs1 := close_file (ses_assembler s') in
  (forall d ino, opened destination d0 ip d -> Inv d -> d_inodes d !! ip = Some ino -> ino_data ino = data ->
     let d' := put_inode d ip (mkInode data (zlen data) true) in Step d d' /\ Inv d') ->
  (forall encoded d1 d d', opened destination d0 ip d1 -> Inv d1 ->
     replaces R (completionMarkerPath destination) encoded d1 d d' -> Step d d') ->
  (forall encoded d1 d, opened destination d0 ip d1 -> Inv d1 ->
     replacing R (completionMarkerPath destination) encoded d1 d -> Inv d) ->
  (forall d d', published destination ip data d' -> Step d d') ->
  asm_file (ses_assembler s') = Some h -> ph_inode h = ip -> reliable R fs1 -> opened destination d0 ip (fs_disk fs1) -> Inv (fs_disk fs1) ->
  let '(r, _, fs) := run_rounds config destination overwrite resumed s in
  exists new, fs_trace fs = fs_trace fs1 ++ new /\ chained Step (fs_disk fs1) new (fs_disk fs) /\ (new = [] \/ complete s' data) /\
    forall result, r = Ok result ->
      complete s' data /\ published destination ip data (fs_disk fs) /\ result = mkResult destination (zlen data) resumed.
Proof.
  intros Hs Hc s' data fs1 Ssync Smark Imark Spub Eh Hip Hrel Ho HI. subst s' data fs1.
  destruct (run_rounds config destination overwrite resumed s) as [[r t] fs] eqn:Erun. revert Erun. unfold run_rounds.
  change (checkpointPaths destination).2 with state. pose proof (limits_of_range config) as (B1 & _).
  pose proof (Download_rounds_accounts (Some (commit_hook identity state)) (max_bytes config) (limits_of config) s Hs Hc ltac:(lia)) as Ha.
  destruct (rounds s) as [r1 s'] eqn:Er. cbn [snd] in *. rewrite Eh.
  set (fs1 := close_file (ses_assembler s')) in *. set (data := asm_contents (ses_assembler s')) in *.
  destruct r1 as [[]|e]; [|intros [= <- <- <-]; exists []; rewrite app_nil_r; split_and!; [done|done|by left|done]]. destruct Ha as (Hcomp & _ & init & segs & Hp).
  assert (complete s' data) as Hcp by (split; [done|]; exists init, segs; split; [done|apply (pr_file _ _ _ _ Hp)]).
  assert (zlen data = asm_totalWritten (ses_assembler s')) as Htot by by rewrite (pr_total _ _ _ _ Hp).
  assert (zlen data <= MaxMediaBytes) as Hz.
  { pose proof (pr_budget _ _ _ _ Hp). pose proof (max_bytes_range config). lia. }
  assert (exists ino, d_inodes (fs_disk fs1) !! ip = Some ino /\ ino_data ino = data) as (ino & Hi & Hd).
  { subst fs1 data. unfold close_file, asm_contents. rewrite Eh, <- Hip. simpl. rewrite lookup_insert_eq. by eexists. }
  rewrite Hip. pose proof (wp_finish destination d0 ip R Hwf data Step Inv Ssync Smark Imark Spub (ses_config s') overwrite
    (asm_totalWritten (ses_assembler s')) ino (fs_disk fs1) Ho HI Hi Hd Hz fs1 eq_refl Hrel) as Hfin.
  destruct (finish _ _ _ _ _ fs1) as [r2 fs2]. destruct Hfin as (Hpub & _ & new & Ht2 & Hc2).
  destruct r2 as [[]|e].
  - destruct (env_Emit _ _ _) as [em t']. intros [= <- <- <-]. exists new. split; [done|]. split; [done|]. split; [by right|]. intros result [= <-].
    split; [done|]. split; [by apply Hpub|by rewrite Htot].
  - intros [= <- <- <-]. exists new. split_and!; [done|done|by right|done].
Qed.

(** ** The whole of it *)

Lemma check_config_url transport : check_config transport config = Ok tt -> exists u, ValidateSABRURL (cfg_ServerURL config) = Ok u.
Proof.
  unfold check_config. rewrite !guard_Ok_iff. intros (_ & _ & _ & _ & Hk). revert Hk.
  destruct (validateResumeVideoID _); [|done]. simpl. destruct (ValidateSABRURL _) as [u|]; [by exists u|done].
Qed.

Lemma start_session_spec Refresh (a : trackFile) resumed (t : T) s t' :
  (exists u, ValidateSABRURL (cfg_ServerURL config) = Ok u) -> asm_inv (max_bytes config) a ->
  start_session Refresh config a resumed t = (Ok s, t') ->
  ses_inv (max_bytes config) s /\ counters_ok (limits_of config) s /\ ses_assembler s = a.
Proof.
  intros Hu Ha. assert (ses_inv (max_bytes config) (new_session config a t)) as Hnew.
  { split; [done|apply cs_inv_new|simpl; rewrite newRedirectTracker_count; by vm_compute|done]. }
  pose proof (limits_of_range config) as (_ & B2 & B3).
  assert (counters_ok (limits_of config) (new_session config a t)) as Hc by (unfold counters_ok, new_session; cbn [ses_sabrErrors ses_reloads]; lia).
  unfold start_session. destruct resumed; cbn [negb]; [|by intros [= <- <-]].
  destruct (playbackState a) as [[ptime ranges] selected]. destruct Hnew as [Hn1 Hn2 Hn3 Hn4].
  destruct Refresh as [refresh|]; [|by intros [= <- <-]]. destruct (_ >=? _); [done|]. destruct (refresh t) as [[m|e] t1]; [|done].
  destruct (applyRefreshMaterial _ _ _) as [[config' redirects]|] eqn:Em; [|done]. intros [= <- <-].
  apply applyRefreshMaterial_ok in Em as (Hm & Hurl & ->). split_and!; [|done..]. split; simpl; try done.
  - rewrite newRedirectTracker_count. by vm_compute.
  - rewrite Hurl. apply Hm.
Qed.

(** The paths are checked, the checkpoint is looked for and the file opened. *)
Definition prologue cwd root overwrite : fsM (Z * positive * option sabrCheckpoint) :=
  expected ← check_paths cwd config root destination overwrite;
  resumed ← find_resume identity part state;
  '(i, resumed) ← open_part part state resumed;
  mret (expected, i, resumed).

Lemma wp_prologue R cwd root overwrite :
  calm d0 ->
  wp R calm (prologue cwd root overwrite)
    (fun r d => forall expected i resumed, r = Ok (expected, i, resumed) -> started destination d0 i resumed d) d0.
Proof.
  intros Hc. apply dwp_bind, wp_check_paths; [done|]. intros expected _ _. apply dwp_bind.
  eapply dwp_mono; [apply wp_find_resume; intros d'; by apply cleared_calm|]. intros r d [Hcl Hf].
  assert (calm d) as Hcd by by eapply cleared_calm. destruct r as [resumed|e]; [|done]. apply dwp_bind.
  eapply dwp_mono; [apply wp_open_part; [done|split; [done|]]|].
  - intros cp ->. destruct (Hf cp eq_refl) as (-> & ?). done.
  - intros [[i resumed']|e] d' [Hc' Hs]; [|done]. apply dwp_ret. intros ? ? ? [= <- <- <-]. by apply Hs.
Qed.

(** The moments so far, from the start on. *)
Definition traced (R : bool) (Step : disk -> disk -> Prop) (fs : fsys) : Prop :=
  reliable R fs /\ exists l, fs_trace fs = d0 :: l /\ chained Step d0 l (fs_disk fs).

(** A run ends before its rounds or goes through them. *)
Lemma Download_cases R (Step : disk -> disk -> Prop) (Start : positive -> option sabrCheckpoint -> disk -> Prop)
    (Begun : trackFile -> fsys -> Prop) (Post : res Result * T * fsys -> Prop)
    transport Refresh cwd root overwrite faults t disk_faults random :
  (R = true -> disk_faults = []) ->
  wps R Step (prologue cwd root overwrite)
    (fun r d => forall expected i resumed, r = Ok (expected, i, resumed) -> Start i resumed d) d0 ->
  (forall fs e t', traced R Step fs -> Post (Err e, t', fs)) ->
  (forall expected i resumed fs, traced R Step fs -> Start i resumed (fs_disk fs) ->
     let '(r, fs') := start_assembler config expected part state faults i resumed fs in
     traced R Step fs' /\ forall a b, r = Ok (a, b) -> begun destination d0 config a fs' /\ Begun a fs') ->
  (forall a fs resumed s, traced R Step fs -> begun destination d0 config a fs -> Begun a fs ->
     ses_inv (max_bytes config) s -> counters_ok (limits_of config) s -> ses_assembler s = a ->
     Post (run_rounds config destination overwrite resumed s)) ->
  Post (Download transport Refresh cwd config root destination overwrite faults t (boot d0 disk_faults random)).
Proof.
  intros HR Hpro Hstop Hstart Hrun. assert (traced R Step (boot d0 disk_faults random)) as Hboot by (split; [done|by exists []]).
  unfold Download. destruct (check_config transport config) as [[]|e] eqn:Ecc; [|by apply Hstop].
  change (checkpointPaths destination) with (part, state). cbn iota.
  pose proof (wps_boot _ _ _ _ _ disk_faults random Hpro HR) as Hp. fold (prologue cwd root overwrite).
  destruct (prologue cwd root overwrite (boot d0 disk_faults random)) as [[[[expected i] resumed]|e] fs];
    destruct Hp as (Hst & Htr); [|by apply Hstop].
  specialize (Hst _ _ _ eq_refl). unfold run_open. change (checkpointPaths destination) with (part, state). cbn iota.
  destruct (env_Emit t _ _) as [[e|] t1]; [by apply Hstop|].
  pose proof (Hstart expected i resumed fs Htr Hst) as Hsa.
  destruct (start_assembler _ _ _ _ _ _ _ fs) as [[[a b]|e] fs1]; destruct Hsa as (Htr1 & Hb); [|by apply Hstop].
  destruct (Hb a b eq_refl) as [Hb1 Hb2]. destruct (if b then _ else _) as [[e|] t2]; [by apply Hstop|].
  destruct (start_session Refresh config a b t2) as [[s|e] t3] eqn:Ess; [|by apply Hstop].
  apply start_session_spec in Ess as (S1 & S2 & S3); [|by eapply check_config_url|apply Hb1]. by eapply Hrun.
Qed.

(** *** Whatever fails *)

Lemma traced_calm (fs : fsys) : calm d0 -> traced false (fun _ d => calm d) fs -> Forall calm (fs_trace fs) /\ calm (fs_disk fs).
Proof.
  intros Hc (_ & l & -> & Hl). apply (chained_inv _ calm) in Hl; [done| |done]. by intros d d' _ ?.
Qed.

(** The start of the rounds: nothing but the partial file and its checkpoint
    has been touched. *)
Lemma Download_calm (Post : res Result * T * fsys -> Prop) transport Refresh cwd root overwrite faults t disk_faults random :
  calm d0 ->
  (forall fs e t', Forall calm (fs_trace fs) -> Post (Err e, t', fs)) ->
  (forall a fs resumed s, Forall calm (fs_trace fs) -> calm (fs_disk fs) -> begun destination d0 config a fs ->
     ses_inv (max_bytes config) s -> counters_ok (limits_of config) s -> ses_assembler s = a ->
     Post (run_rounds config destination overwrite resumed s)) ->
  Post (Download transport Refresh cwd config root destination overwrite faults t (boot d0 disk_faults random)).
Proof.
  intros Hc Hstop Hrun. apply (Download_cases false (fun _ d => calm d) (started destination d0) (fun _ fs => calm (fs_disk fs))).
  - done.
  - by apply wp_prologue.
  - intros fs e t' Htr. by apply Hstop, traced_calm.
  - intros expected i resumed fs (_ & l0 & Ht0 & Hl0) Hs. pose proof (start_assembler_spec destination d0 Hwf config expected faults i resumed fs Hs) as Hsa.
    destruct (start_assembler _ _ _ _ _ _ _ fs) as [r fs']. destruct Hsa as ((l & Ht & Hl) & Hb). split; [|exact Hb].
    split; [done|]. exists (l0 ++ l). rewrite Ht, Ht0. split; [done|by eapply chained_app].
  - intros a fs resumed s Htr Hb Hcf. destruct (traced_calm fs Hc Htr) as [? _]. intros. by apply (Hrun a fs).
Qed.

Lemma begun_opened a fs :
  begun destination d0 config a fs -> Forall calm (fs_trace fs) ->
  exists i h, asm_file a = Some h /\ part_opened destination d0 i h (asm_world a).
Proof.
  intros [Hw _ (i & faults & Hf & Ho)] Htr. rewrite Hw. exists i, (handle_at i faults fs). split; [done|].
  split_and!; [done|eapply Forall_impl; [exact Htr|]; by intros d [? _]|apply Ho..].
Qed.

Lemma run_rounds_delivers overwrite resumed s ip h :
  ses_inv (max_bytes config) s -> counters_ok (limits_of config) s ->
  asm_file (ses_assembler s) = Some h -> part_opened destination d0 ip h (asm_world (ses_assembler s)) ->
  delivers overwrite (run_rounds config destination overwrite resumed s).
Proof.
  intros Hs Hc Ef Ho.
  pose proof (rounds_opened identity destination d0 ip (max_bytes config) Hwf (limits_of config) s Hs ltac:(by exists h)) as Hr.
  destruct (rounds s) as [r1 s'] eqn:Er. destruct Hr as (h' & Ef' & Ho').
  destruct (close_opened _ _ _ _ _ Ef' Ho') as (Eh & Htr & Hop). set (data := asm_contents (ses_assembler s')).
  pose proof (run_rounds_ends false (fun _ d => untouched d \/ published destination ip data d) (fun _ => True)
    overwrite resumed s ip h' Hs Hc) as Hends. rewrite Er in Hends. cbn [snd] in Hends.
  destruct (run_rounds config destination overwrite resumed s) as [[r t] fs] eqn:Erun. right. exists s, resumed, ip.
  split; [done|]. split; [done|]. rewrite Er. cbn [snd].
  destruct Hends as (new & Ht & Hl & Hcomp & Hok); try done.
  - intros d ino Hod _ _ _. split; [|done]. left. by apply (put_opened destination d0 ip d).
  - intros encoded d1 d d' Hod _ ((_ & Hrep) & _). left. by eapply marking_opened.
  - intros d d' Hp. by right.
  - split; [|exact Hok]. rewrite Ht. apply Forall_app. split; [eapply Forall_impl; [exact Htr|]; by left|].
    destruct Hcomp as [->|Hcomp]; [done|]. eapply chained_Forall; [|exact Hl]. intros _ d' [?|?]; [by left|by right].
Qed.

(** *** What a restart finds *)

Lemma calm_start :
  (forall j, d_names d0 !! destination = Some (EFile j) -> d_names d0 !! part <> Some (EFile j)) -> calm d0.
Proof. intros Hl. split; [|by right]. split; [done|]. intros j Hj. split; [done|]. by apply Hl. Qed.

Lemma restart_iff d cp : restart d cp <-> resumes_from identity destination d cp.
Proof. apply find_resume_iff. Qed.

Lemma restart_det d cp cp' : restart d cp -> restart d cp' -> cp = cp'.
Proof. unfold restart. congruence. Qed.

Lemma backed_secures ip n d : backed identity destination ip n d -> secures [d] n.
Proof.
  intros Hb d' Hsv. destruct (alive_survives identity destination d [] d ip n d' eq_refl Hb Hsv) as (cp & Hr & Hn).
  exists cp. by rewrite restart_iff.
Qed.

Lemma secures_backed n d : based identity destination d -> secures [d] n -> exists ip, backed identity destination ip n d.
Proof.
  intros Hb Hs. destruct (Hs d (survives_refl d)) as (cp & Hr%restart_iff & Hn). destruct (Hb cp Hr) as (ip & Hp & s & cp' & ? & ? & ?).
  exists ip. split; [done|]. exists s, cp'. split_and!; try done. lia.
Qed.

(** The steps of a run, as long as the destination is untouched. *)
Definition proceeds (R : bool) (ip : positive) (d d' : disk) : Prop :=
  untouched d' -> advances identity destination d0 ip R d d'.

Lemma run_rounds_proceeds R overwrite resumed s ip h base dl :
  Forall (fun s => utf8_Valid s = true)
    [cfg_VideoID config; ci_ClientVersion (cfg_ClientInfo config); fmt_XTags (cfg_Format config); cfg_AudioTrackID config] ->
  ses_inv (max_bytes config) s -> counters_ok (limits_of config) s ->
  asm_file (ses_assembler s) = Some h -> part_kept identity destination d0 ip R base dl h (asm_world (ses_assembler s)) ->
  let '(_, _, fs) := run_rounds config destination overwrite resumed s in
  exists new, fs_trace fs = base ++ new /\ chained (proceeds R ip) dl new (fs_disk fs).
Proof.
  intros Htext Hs Hc Ef Hk. pose proof (max_bytes_range config) as Hmax. assert (MaxMediaBytes <= MaxInt64) by (by vm_compute).
  pose proof (rounds_kept identity destination d0 ip (max_bytes config) R base dl Hwf Htext ltac:(lia) (limits_of config) s Hs ltac:(by exists h)) as Hr.
  destruct (rounds s) as [r1 s'] eqn:Er. destruct Hr as (h' & Ef' & Hk').
  destruct (close_kept _ _ _ _ _ _ _ _ _ Ef' Hk') as (Eh & Hrel & (new & Ht & Hl) & Hg & _). set (data := asm_contents (ses_assembler s')).
  pose proof (run_rounds_ends R (proceeds R ip) (good identity destination d0 ip R) overwrite resumed s ip h' Hs Hc) as Hends.
  rewrite Er in Hends. cbn [snd] in Hends. destruct (run_rounds config destination overwrite resumed s) as [[r t] fs].
  destruct Hends as (new2 & Ht2 & Hl2 & _); try done.
  - intros d ino Ho Hgd Hi Hd. assert (advances identity destination d0 ip R d (put_inode d ip (mkInode data (zlen data) true))) as Hadv.
    { apply put_advances; [done|]. intros contents (ino' & Hi' & <-). rewrite Hi in Hi'. injection Hi' as <-. simpl.
      exists (drop (Z.to_nat (ino_stable ino)) data). unfold zlen. rewrite Nat2Z.id, take_ge by done. subst data. rewrite <- Hd. by rewrite take_drop. }
    split; [by intros _|apply Hadv].
  - intros encoded d1 d d' Ho Hg1 Hrep _. by eapply marking_advances.
  - intros encoded d1 d Ho Hg1 Hrep. by eapply marking_good.
  - intros d d' Hp Hu. by destruct (published_touched destination d0 ip data _ d' (good_opened _ _ _ _ _ _ Hg) Hp).
  - by eapply good_opened.
  - exists (new ++ new2). rewrite Ht2, Ht, app_assoc. split; [done|]. eapply chained_app; [|exact Hl2].
    eapply chained_mono; [|exact Hl]. by intros d d' ? _.
Qed.

Lemma part_kept_begin R i faults fs :
  reliable R fs -> good identity destination d0 i R (fs_disk fs) ->
  part_kept identity destination d0 i R (fs_trace fs) (fs_disk fs) (handle_at i faults fs) fs.
Proof.
  intros Hrel Hg. split_and!; [done|done|exists []; by rewrite app_nil_r|done|].
  destruct Hg as (_ & _ & contents & Hst & _). destruct (id Hst) as (ino & Hi & <-).
  exists (take (Z.to_nat (ino_stable ino)) (ino_data ino)), (drop (Z.to_nat (ino_stable ino)) (ino_data ino)).
  split; [done|]. unfold handle_at, data_of. simpl. rewrite Hi. simpl. by rewrite take_drop.
Qed.

Section Run.
Context (transport : bool) (Refresh : option (T -> res RefreshMaterial * T)) (cwd : res bytes) (root : bytes) (overwrite : bool).
Context (faults : list fault) (t : T) (random : list Z).
Hypothesis Hcalm : calm d0.
Hypothesis Htext : Forall (fun s => utf8_Valid s = true)
  [cfg_VideoID config; ci_ClientVersion (cfg_ClientInfo config); fmt_XTags (cfg_Format config); cfg_AudioTrackID config].

(** Whatever fails, the rounds keep what they have committed. *)
Lemma Download_proceeds disk_faults :
  let '(_, _, fs) := Download transport Refresh cwd config root destination overwrite faults t (boot d0 disk_faults random) in
  exists base new ip dl, fs_trace fs = base ++ new /\ Forall calm base /\ chained (proceeds false ip) dl new (fs_disk fs).
Proof.
  apply (Download_calm (fun out => let '(_, _, fs) := out in
    exists base new ip dl, fs_trace fs = base ++ new /\ Forall calm base /\ chained (proceeds false ip) dl new (fs_disk fs))); [done| |].
  - intros fs e t' Htr. exists (fs_trace fs), [], 1%positive, (fs_disk fs). by rewrite app_nil_r.
  - intros a fs resumed s Htr [Hu Hst] [Hw Ha (i & file_faults & Hf & Ho)] Hs Hc Ea.
    assert (good identity destination d0 i false (fs_disk fs)) as Hg.
    { destruct Ho as (_ & Hp & [ino Hi]). split; [done|]. split; [done|]. eexists. split; [by exists ino|]. destruct Hst as [?|?]; [by left|by right; left]. }
    pose proof (part_kept_begin false i file_faults fs ltac:(done) Hg) as Hk. rewrite <- Ea in Hf, Hw.
    pose proof (run_rounds_proceeds false overwrite resumed s i _ (fs_trace fs) (fs_disk fs) Htext Hs Hc Hf ltac:(by rewrite Hw)) as Hp.
    destruct (run_rounds config destination overwrite resumed s) as [[r t'] fs']. destruct Hp as (new & Ht & Hl).
    by exists (fs_trace fs), new, i, (fs_disk fs).
Qed.

(** A stop before the publication: the state file is missing or that of the
    start, the partial file has an older name, or a restart resumes. *)
Lemma proceeds_survives fs base new ip dl h post d' :
  fs_trace fs = base ++ new -> Forall calm base -> chained (proceeds false ip) dl new (fs_disk fs) ->
  fs_trace fs = h ++ post -> Forall untouched h -> survives h d' ->
  d_names d' !! state = None \/ d_names d' !! state = d_names d0 !! state \/
  (exists d, last h = Some d /\ d_names d' !! part <> d_names d !! part) \/ exists cp, restart d' cp.
Proof.
  intros Ht Hb Hl Eh Hu Hsv. rewrite Ht in Eh. destruct (proj1 Hsv state) as (m & Hm & Es).
  assert (calm m -> d_names d' !! state = None \/ d_names d' !! state = d_names d0 !! state) as Hcm by (intros [_ [?|?]]; [left|right]; congruence).
  apply app_eq_app in Eh as (l & [[-> ->]|[-> ->]]).
  { apply Forall_app in Hb as [Hb _]. rewrite Forall_forall in Hb. destruct (Hcm (Hb m Hm)); auto. }
  apply elem_of_app in Hm as [Hm|Hm]; [rewrite Forall_forall in Hb; destruct (Hcm (Hb m Hm)); auto|].
  apply Forall_app in Hu as [_ Hu]. apply chained_split in Hl as (e & Hl & _). apply chained_when in Hl; [|done].
  assert (last (base ++ l) = Some e) as Hlast.
  { pose proof (chained_last _ _ _ _ Hl) as E. destruct l as [|x l]; [by apply elem_of_nil in Hm|]. by rewrite last_app_cons. }
  assert (Forall (good identity destination d0 ip false) l) as Hg by (eapply chained_Forall; [|exact Hl]; by intros ? ? ([_ ?] & _)).
  assert (Forall (fun m => grows ip m e) (dl :: l)) as Hgr.
  { eapply chained_to_last; [apply _|apply _| |exact Hl]. by intros ? ? (_ & ? & _). }
  apply Forall_cons in Hgr as [_ Hgr]. rewrite Forall_forall in Hg, Hgr. destruct (Hg m Hm) as (_ & _ & contents & Hst & Hrec).
  destruct Hrec as [E|[[_ E]|(s & cp & encoded & Hne & Hn & Hi & Hld & Hmd)]]; [left; congruence|right; left; congruence|]. right. right.
  destruct (decide (d_names d' !! part = d_names e !! part)) as [Ep|Ep]; [|left; by exists e]. right. exists cp. apply restart_iff.
  assert (e ∈ l) as He.
  { destruct l as [|x l]; [by apply elem_of_nil in Hm|]. rewrite last_app_cons in Hlast. by apply last_Some_elem_of. }
  destruct (Hg e He) as (_ & Hpe & _). eapply (backs_survive identity destination ip cp s _ e); [done|done|congruence|congruence|].
  apply (grows_backs identity ip cp s m e (Hgr m Hm)). split; [done|]. split; [by exists encoded|by exists contents].
Qed.

(** Without failing calls on the disk, nothing that is secured is lost. *)
Lemma Download_careful :
  resumable ->
  let '(_, _, fs) := Download transport Refresh cwd config root destination overwrite faults t (boot d0 [] random) in
  exists l, fs_trace fs = d0 :: l /\ chained (fun d d' => untouched d' -> careful identity destination d d') d0 l (fs_disk fs).
Proof.
  intros Hres. assert (based identity destination d0) as Hbase by (intros cp Hr%restart_iff; by apply Hres).
  apply (Download_cases true (fun d d' => untouched d' -> careful identity destination d d')
    (fun i resumed d => started destination d0 i resumed d /\ placed identity destination d0 i d /\
       forall cp, resumed = Some cp -> cp_TotalWritten cp <= max_bytes config)
    (fun _ fs => calm (fs_disk fs) /\ exists i, placed identity destination d0 i (fs_disk fs))
    (fun out => let '(_, _, fs) := out in
       exists l, fs_trace fs = d0 :: l /\ chained (fun d d' => untouched d' -> careful identity destination d d') d0 l (fs_disk fs))).
  - done.
  - eapply dwp_mono; [eapply wps_weaken; [|apply wps_and; [by apply (wp_prologue true)|by apply wp_prologue_careful]]|].
    + by intros d d' [_ ?] _.
    + intros r d [Hs Hp] expected i resumed E. split; [by apply (Hs expected)|]. destruct (Hp _ _ _ E) as [? Hr]. split; [done|].
      intros cp E'. apply Hres, restart_iff. by apply Hr.
  - intros fs e t' (_ & Htr). exact Htr.
  - intros expected i resumed fs Htr (Hs & Hp & Hle).
    destruct (start_assembler_resumed destination d0 config expected faults i resumed fs Hs Hle) as (a & b & -> & Hb).
    split; [done|]. intros ? ? [= <- <-]. split; [done|]. split; [apply Hs|by exists i].
  - intros a fs resumed s (Hrel & l & Ht & Hl) [Hw Ha (i & file_faults & Hf & Ho)] [[Hu _] (i' & Hp)] Hs Hc Ea.
    assert (i' = i) as -> by (destruct Hp as [E _], Ho as (_ & E' & _); congruence).
    assert (good identity destination d0 i true (fs_disk fs)) as Hg by (split; [done|exact Hp]).
    pose proof (part_kept_begin true i file_faults fs Hrel Hg) as Hk. rewrite <- Ea in Hf, Hw.
    pose proof (run_rounds_proceeds true overwrite resumed s i _ (fs_trace fs) (fs_disk fs) Htext Hs Hc Hf ltac:(by rewrite Hw)) as Hpr.
    destruct (run_rounds config destination overwrite resumed s) as [[r t'] fs']. destruct Hpr as (new & Ht' & Hl').
    exists (l ++ new). rewrite Ht', Ht. split; [done|]. eapply chained_app; [exact Hl|]. eapply chained_mono; [|exact Hl'].
    intros d d' Hpro Hu'. by eapply advances_careful, Hpro.
Qed.

Lemma careful_secures fs l pre d mid post n :
  based identity destination d0 ->
  fs_trace fs = d0 :: l -> chained (fun d d' => untouched d' -> careful identity destination d d') d0 l (fs_disk fs) ->
  fs_trace fs = pre ++ d :: mid ++ post -> Forall untouched (d :: mid) -> secures [d] n -> secures (d :: mid) n.
Proof.
  intros Hbase Ht Hl Ht' [Hu Hmid]%Forall_cons Hsec. rewrite Ht in Ht'. apply (chained_from _ _ _ _ _ _ _ Hl) in Ht' as [Hfrom Hc].
  assert (based identity destination d) as Hb by (destruct Hfrom as [->|[m Hm]]; [done|by apply Hm]).
  apply chained_split in Hc as (e & Hc & _). apply chained_when in Hc; [|done]. destruct (secures_backed _ _ Hb Hsec) as [ip Hbk].
  intros d' Hsv. destruct (alive_survives identity destination d mid e ip n d') as (cp & Hr & Hn); [|done|done|].
  - eapply chained_mono; [|exact Hc]. by intros ? ? [? _].
  - exists cp. by rewrite restart_iff.
Qed.

End Run.

End Deliver.

(** ** Claims *)

Section Claims.
Context {T S : Type} `{!Sha256} `{!Sha256Sized} `{!UnicodeTables} `{!IoReader S} `{!Env T S}.
Context `{!JsonCodec sabrCheckpoint} `{!JsonCodec sabrCompletionMarker}.
Context (transport : bool) (Refresh : option (T -> res RefreshMaterial * T)) (cwd : res bytes) (config : Config).
Context (root destination : bytes) (overwrite : bool) (faults : list fault) (t : T) (d0 : disk) (disk_faults : list fault) (random : list Z).

(** The files the download finds: every name has its node, and the partial
    file is no hard link of the destination. *)
Record usable : Prop := {
  us_wf : disk_wf d0;
  us_link j : d_names d0 !! destination = Some (EFile j) -> d_names d0 !! partPath_of destination <> Some (EFile j)
}.

(** C1. The destination is never anything but the file it was or the complete
    track, whatever the server, the disk and the callbacks do and whenever the
    machine stops: at every moment of a download it is untouched, or it names
    a synchronized file with the bytes of a completed session; a download that
    succeeds has published them and reports their number. *)
Theorem download_publishes :
  usable ->
  delivers config destination d0 overwrite
    (Download transport Refresh cwd config root destination overwrite faults t (boot d0 disk_faults random)).
Proof.
  intros [Hwf Hl]. apply Download_calm; [done|by apply calm_start| |].
  - intros fs e t' Htr. left. split; [|by exists e]. eapply Forall_impl; [exact Htr|]. by intros d [? _].
  - intros a fs resumed s Htr Hca Hb Hs Hc Ea. destruct (begun_opened _ _ _ _ _ Hb Htr) as (i & h & Ef & Ho). rewrite <- Ea in Ef, Ho.
    by eapply run_rounds_delivers.
Qed.


End Claims.

(** ** A completed track is published *)

Section Publish.
Context `{!Sha256} `{!UnicodeTables} `{!JsonCodec sabrCompletionMarker}.
Context (destination : bytes).

(** [path] is free after it is removed. *)
Lemma wp_remove_reliable C path (Q : res unit -> disk -> Prop) d :
  (forall d', C d') -> regular_or_absent d path = true ->
  (forall r d', d_names d' = delete path (d_names d) -> d_inodes d' = d_inodes d -> (is_Some (d_names d !! path) -> r = Ok tt) -> Q r d') ->
  wp true C (os_Remove path) Q d.
Proof.
  intros HC Hr HQ. apply wp_Remove; [done|]. unfold regular_or_absent in Hr. destruct (d_names d !! path) as [[i| |]|] eqn:E; try done.
  - split; [done|]. by apply HQ.
  - apply HQ; [by rewrite delete_id|done|]. by intros [? ?].
Qed.

(** The partial file is renamed or linked to the destination. *)
Lemma wp_publish_reliable C overwrite ip d :
  (forall d', C d') -> d_names d !! partPath_of destination = Some (EFile ip) ->
  (if overwrite : bool then regular_or_absent d destination = true /\ d_names d !! destination <> Some (EFile ip)
   else d_names d !! destination = None) ->
  wp true C (publishOutput (partPath_of destination) destination overwrite)
    (fun r d' => r = Ok tt /\ d_inodes d' = d_inodes d /\
       d_names d' = <[destination := EFile ip]> (delete (partPath_of destination) (d_names d))) d.
Proof.
  intros HC Hp Hd. destruct (paths_differ destination) as (D1 & _). unfold publishOutput. destruct overwrite.
  - destruct Hd as [Hr Hne]. unfold regular_or_absent in Hr. apply wp_Rename; [done|]. rewrite Hp, bool_decide_false by done.
    by destruct (d_names d !! destination) as [[j| |]|].
  - unfold installDestination. apply dwp_bind, wp_Link; [done|]. rewrite Hp, Hd. split; [done|].
    apply wp_remove_reliable; [done|unfold regular_or_absent; simpl; by rewrite lookup_insert_ne, Hp|].
    intros r d' En Ei Hr. split; [apply Hr; simpl; by rewrite lookup_insert_ne, Hp|]. split; [done|].
    rewrite En. simpl. by rewrite delete_insert_ne.
Qed.

(** The file is synchronized and closed. *)
Lemma syncClose_run ip fs :
  fs_faults fs = [] ->
  let d := fs_disk fs in
  syncClose ip fs = (Ok tt, push (put_inode d ip (mkInode (data_of d ip) (zlen (data_of d ip)) true)) fs).
Proof.
  intros Hf. unfold syncClose, fd_Sync, fd_Close, faulty, try, next_fault, get_disk, set_disk, mbind, fsM_bind, mret, fsM_ret.
  rewrite Hf. simpl. by rewrite Hf.
Qed.

(** A marker for [data] can be written on [d] and read back. *)
Record markable (config : Config) (total : Z) (data : bytes) (d : disk) (random : list Z) : Prop := {
  mk_total : total = zlen data /\ total <= MaxMediaBytes;
  mk_valid : validateCompletionMarker (completion_marker (IdentityFromConfig config) total (hex_EncodeToString (sha256_Sum256 data))) = Ok tt;
  mk_text : Forall (fun s => utf8_Valid s = true)
    (json_strings (completion_marker (IdentityFromConfig config) total (hex_EncodeToString (sha256_Sum256 data))));
  mk_encoded : let encoded := json_Marshal (completion_marker (IdentityFromConfig config) total (hex_EncodeToString (sha256_Sum256 data))) in
    zlen encoded <= MaxCheckpointBytes /\ containsForbiddenCheckpointBytes encoded = false;
  mk_name : Exists (fun n => d_names d !! temp_of (completionMarkerPath destination) n = None) random
}.

Lemma writeMarker_succeeds config total data fs :
  fs_faults fs = [] -> file_at (fs_disk fs) (partPath_of destination) = Some data ->
  regular_or_absent (fs_disk fs) (completionMarkerPath destination) = true -> markable config total data (fs_disk fs) (fs_random fs) ->
  let encoded := json_Marshal (completion_marker (IdentityFromConfig config) total (hex_EncodeToString (sha256_Sum256 data))) in
  let '(r, fs') := writeCompletionMarkerDurable (partPath_of destination) destination (IdentityFromConfig config) total fs in
  r = Ok tt /\ fs_faults fs' = [] /\ replaced true (completionMarkerPath destination) encoded (fs_disk fs) r (fs_disk fs').
Proof.
  intros Hf Hdata Hreg [[Ht Hz] Hv Htx [Hsz Hfb] Hn] encoded. pose proof (validateMarker_total _ Hv) as Htot. simpl in Htot.
  unfold writeCompletionMarkerDurable. assert (total <=? 0 = false) as -> by lia.
  assert (hashFileSHA256 (partPath_of destination) fs = (Ok (hex_EncodeToString (sha256_Sum256 data)), fs)) as Hhash.
  { apply file_at_data in Hdata as (i & Hp & Hd). unfold hashFileSHA256, os_Open, faulty, mbind, fsM_bind, next_fault. rewrite Hf, Hp, Hf, Hd.
    unfold io_CopyLimit. cbn [io_rest io_err]. assert (zlen data >=? MaxMediaBytes + 1 = false) as -> by (rewrite Z.geb_leb; apply Z.leb_gt; lia).
    done. }
  unfold mbind at 1, fsM_bind at 1. rewrite Hhash. cbv zeta. unfold mbind, fsM_bind, lift. rewrite Hv. fold encoded in Hfb |- *. rewrite Hfb.
  apply replaceFile_succeeds; try done; [|apply json_nonempty]. intros name Ht'. by apply (marker_differs destination name Ht').
Qed.

Lemma marker_matches identity total hash : matchesCompletion identity (completion_marker identity total hash) = true.
Proof. unfold matchesCompletion. simpl. by rewrite !bool_decide_true, !Z.eqb_refl, eqb_reflx. Qed.


End Publish.

(** ** Witnesses *)

Section Witnesses.
#[local] Existing Instance dotted_i_tables.
#[local] Existing Instance padded_digest.
#[local] Existing Instance padded_digest_sized.
#[local] Existing Instance checkpoint_codec.
#[local] Existing Instance marker_codec.
#[local] Existing Instance scripted.

Definition sample_numbers : list Z := [1; 2; 3; 4; 5; 6; 7; 8].

(** The script of [Downloader], from the empty disk. *)
Definition sample_download (faults : list fault) : res Result * list (httpResponse bytes) * fsys :=
  Download (S := bytes) true None (Ok (lit "/home")) sample_config (lit "out") sample_destination false [] sample_script
    (boot empty_disk faults sample_numbers).

Example sample_download_ok :
  let '(r, _, fs) := sample_download [] in
  r = Ok (mkResult sample_destination 10 false) /\ file_at (fs_disk fs) sample_destination = Some (lit "initabcdef").
Proof. vm_compute. split; reflexivity. Qed.

(** A first run that the server ends after segment 0 leaves a checkpoint; the
    second one resumes from it and publishes the track. *)
Definition sample_run (script : list (httpResponse bytes)) (d : disk) : res Result * list (httpResponse bytes) * fsys :=
  Download (S := bytes) true None (Ok (lit "/home")) sample_config (lit "out") sample_destination true [] script
    (boot d [] sample_numbers).

Definition interrupted_disk : disk := fs_disk (sample_run (take 2 sample_script) empty_disk).2.

Example sample_resumed_download :
  let '(r, _, fs) := sample_run (drop 3 sample_script) interrupted_disk in
  file_at interrupted_disk sample_destination = None /\
  bool_decide (is_Some (file_at interrupted_disk (statePath_of sample_destination))) = true /\
  r = Ok (mkResult sample_destination 10 true) /\ file_at (fs_disk fs) sample_destination = Some (lit "initabcdef").
Proof. vm_compute. split; [reflexivity|]. split; [reflexivity|]. split; reflexivity. Qed.

Lemma empty_usable : usable sample_destination empty_disk.
Proof. split; [apply disk_wf_list; reflexivity|]. intros j Hj. vm_compute in Hj. discriminate. Qed.

Lemma download_publishes_witness :
  (sample_download []).1.1 = Ok (mkResult sample_destination 10 false) /\
  delivers (S := bytes) sample_config sample_destination empty_disk false (sample_download []).
Proof.
  split; [vm_compute; reflexivity|].
  apply (download_publishes (S := bytes) true None (Ok (lit "/home")) sample_config (lit "out") sample_destination false []).
  exact empty_usable.
Defined.

Definition interrupted_checkpoint : sabrCheckpoint :=
  match (find_resume (identityFromConfig sample_config) (partPath_of sample_destination) (statePath_of sample_destination)
           (boot interrupted_disk [] [])).1 with
  | Ok (Some cp) => cp
  | _ => sample_checkpoint
  end.

Lemma interrupted_restart : restart sample_config sample_destination interrupted_disk interrupted_checkpoint.
Proof. vm_compute. reflexivity. Qed.

Lemma inode_synced ino :
  ino_stable ino = zlen (ino_data ino) -> ino_synced ino = true -> ino = mkInode (ino_data ino) (zlen (ino_data ino)) true.
Proof. destruct ino. simpl. by intros -> ->. Qed.

Lemma interrupted_backed : backed (identityFromConfig sample_config) sample_destination 1 7 interrupted_disk.
Proof.
  pose proof interrupted_restart as [(encoded & Hf & Hl) (i & Hp & Hm)]%restart_iff.
  assert (i = 1%positive) as -> by (vm_compute in Hp; by injection Hp as <-).
  split; [exact Hp|]. exists 3%positive, interrupted_checkpoint. split; [vm_compute; reflexivity|]. split; [|vm_compute; discriminate].
  split; [done|]. split; [|exists (data_of interrupted_disk 1); split; [eexists; split; vm_compute; reflexivity|exact Hm]].
  exists encoded. split; [|exact Hl]. destruct (d_inodes interrupted_disk !! 3%positive) as [ino|] eqn:Ei; [|by vm_compute in Ei].
  assert (file_at interrupted_disk (statePath_of sample_destination) = Some (ino_data ino)) as E.
  { unfold file_at. assert (d_names interrupted_disk !! statePath_of sample_destination = Some (EFile 3)) as -> by (vm_compute; reflexivity). by rewrite Ei. }
  rewrite Hf in E. injection E as ->.
  assert (bool_decide (ino_stable <$> d_inodes interrupted_disk !! 3%positive = zlen <$> (ino_data <$> d_inodes interrupted_disk !! 3%positive)) &&
    bool_decide (ino_synced <$> d_inodes interrupted_disk !! 3%positive = Some true) = true) as Hino by (vm_compute; reflexivity).
  rewrite Ei in Hino. apply andb_true_iff in Hino as [E1%bool_decide_eq_true E2%bool_decide_eq_true].
  injection E1 as E1. injection E2 as E2. f_equal. by apply inode_synced.
Qed.

Lemma interrupted_resumable : resumable sample_config sample_destination interrupted_disk.
Proof.
  intros cp Hr. rewrite (restart_det _ _ _ _ _ Hr interrupted_restart).
  split; [vm_compute; discriminate|]. exists 1%positive. exact interrupted_backed.
Qed.

Lemma interrupted_usable : usable sample_destination interrupted_disk.
Proof. split; [apply disk_wf_list; vm_compute; reflexivity|]. intros j Hj. vm_compute in Hj. discriminate Hj. Qed.


(** Before the publication: the old file, the partial file and its checkpoint. *)
Definition ready_disk : disk :=
  mkDisk {[ sample_destination := EFile 1; partPath_of sample_destination := EFile 2; statePath_of sample_destination := EFile 3 ]}
    {[ 1%positive := mkInode (lit "old") 3 true; 2%positive := mkInode (lit "initabcdef") 4 false; 3%positive := mkInode (lit "cp") 2 true ]}.

Definition ready_config (retain : bool) : Config := sample_config <| cfg_RetainCompletionMarker := retain |>.

Lemma ready_markable : markable sample_destination (ready_config true) 10 (lit "initabcdef") ready_disk [5].
Proof.
  split.
  - split; [vm_compute; reflexivity|vm_compute; discriminate].
  - vm_compute. reflexivity.
  - decided.
  - split; [vm_compute; discriminate|vm_compute; reflexivity].
  - apply Exists_cons_hd. vm_compute. reflexivity.
Qed.


End Witnesses.
