(* ===== verification/FloatOrder.v ===== *)
(** * The order of binary64 numbers

    Every value is placed in a total order by sign and magnitude class, exponent
    and mantissa, a NaN after all numbers; the two zeros are equal.  On numbers
    the comparisons of the language decide it ([f64_lt_true] and the others), and
    [forder] solves goals that follow from such comparisons alone. *)
From Stdlib Require Import Structures.Orders Structures.OrdersTac.
From S2P Require Import Prelude GoStrings Value FilterNumber Filter Float64 SorterValues Ordering SorterFacts.

#[local] Open Scope Z_scope.

(** ** The total order *)

Module FloatKeys <: EqLtLe.
Definition t : Type := float64.

(** a NaN has a class of its own *)
Definition class (f : float64) : Z := if f64_is_nan f then 3 else float_class f.

(** one-constructor records, which conversion does not look through *)
Record eq_keys (x y : float64) : Prop := Eq {
  eq_key : class x = class y /\ float_exponent x = float_exponent y /\ float_mantissa x = float_mantissa y
}.
Record lt_keys (x y : float64) : Prop := Lt {
  lt_key :
    class x < class y \/ class x = class y /\
    (float_exponent x < float_exponent y \/
     float_exponent x = float_exponent y /\ float_mantissa x < float_mantissa y)
}.
Definition eq : float64 -> float64 -> Prop := eq_keys.
Definition lt : float64 -> float64 -> Prop := lt_keys.
Variant le_cases (x y : float64) : Prop :=
| LeLt (H : lt x y)
| LeEq (H : eq x y).
Definition le : float64 -> float64 -> Prop := le_cases.
End FloatKeys.

Module FloatTotal <: IsTotalOrder FloatKeys.
Import FloatKeys.

#[export] Instance eq_equiv : Equivalence eq.
Proof. split; [intros x|intros x y [?]|intros x y z [?] [?]]; constructor; lia. Qed.

#[export] Instance lt_strorder : StrictOrder lt.
Proof. split; [intros x [?]; lia|intros x y z [?] [?]; constructor; lia]. Qed.

#[export] Instance lt_compat : Proper (eq ==> eq ==> iff) lt.
Proof. intros x x' [?] y y' [?]. split; intros [?]; constructor; lia. Qed.

Lemma le_lteq : forall x y, le x y <-> lt x y \/ eq x y.
Proof. intros x y. split; [intros []; auto|intros []; by constructor]. Qed.

Lemma lt_total : forall x y, lt x y \/ eq x y \/ lt y x.
Proof.
  intros x y.
  assert (T : (class x < class y \/ class x = class y /\ (float_exponent x < float_exponent y \/
      float_exponent x = float_exponent y /\ float_mantissa x < float_mantissa y)) \/
    (class x = class y /\ float_exponent x = float_exponent y /\ float_mantissa x = float_mantissa y) \/
    (class y < class x \/ class y = class x /\ (float_exponent y < float_exponent x \/
      float_exponent y = float_exponent x /\ float_mantissa y < float_mantissa x))) by lia.
  destruct T as [?|[?|?]]; [left|right; left|right; right]; by constructor.
Qed.
End FloatTotal.

#[global] Existing Instances FloatTotal.eq_equiv FloatTotal.lt_strorder FloatTotal.lt_compat.

Module FloatTac := MakeOrderTac FloatKeys FloatTotal.

Declare Scope float_scope.
Delimit Scope float_scope with float.
Notation "x <? y" := (f64_lt x y) : float_scope.
Notation "x <=? y" := (f64_le x y) : float_scope.
Notation "x =? y" := (f64_eq x y) : float_scope.
Notation "x < y" := (FloatKeys.lt x y) : float_scope.
Notation "x <= y" := (FloatKeys.le x y) : float_scope.
Notation "x == y" := (FloatKeys.eq x y) (at level 70, no associativity) : float_scope.

(** ** Comparisons *)

Lemma float_compare_order x y : number x -> number y ->
  match float_compare x y with
  | Lt => (x < y)%float
  | Eq => (x == y)%float
  | Gt => (y < x)%float
  end.
Proof.
  intros X Y. rewrite <- float_compare_lex by done.
  assert (FloatKeys.class x = float_class x) as CX by (unfold FloatKeys.class; by rewrite X).
  assert (FloatKeys.class y = float_class y) as CY by (unfold FloatKeys.class; by rewrite Y).
  destruct (Z.compare_spec (float_class x) (float_class y)); simpl; [|constructor; lia..].
  destruct (Z.compare_spec (float_exponent x) (float_exponent y)); simpl; [|constructor; lia..].
  destruct (Z.compare_spec (float_mantissa x) (float_mantissa y)); constructor; lia.
Qed.

Lemma SFcompare_number x y : number x -> number y -> SFcompare x y = Some (float_compare x y).
Proof. unfold number, float_compare. by destruct x as [[]|[]| |[] ? ?], y as [[]|[]| |[] ? ?]. Qed.

Lemma compared_numbers x y c : SFcompare x y = Some c -> number x /\ number y.
Proof. unfold number. by destruct x as [[]|[]| |[] ? ?], y as [[]|[]| |[] ? ?]. Qed.

Section Comparisons.
Context (x y : float64).

Lemma f64_lt_spec : number x -> number y -> reflect (x < y)%float (x <? y)%float.
Proof.
  intros X Y. pose proof (float_compare_order x y X Y) as C. unfold f64_lt, SFltb.
  rewrite SFcompare_number by done. destruct (float_compare x y); constructor; FloatTac.order.
Qed.

Lemma f64_le_spec : number x -> number y -> reflect (x <= y)%float (x <=? y)%float.
Proof.
  intros X Y. pose proof (float_compare_order x y X Y) as C. unfold f64_le, SFleb.
  rewrite SFcompare_number by done. destruct (float_compare x y); constructor; FloatTac.order.
Qed.

Lemma f64_eq_spec : number x -> number y -> reflect (x == y)%float (x =? y)%float.
Proof.
  intros X Y. pose proof (float_compare_order x y X Y) as C. unfold f64_eq, SFeqb.
  rewrite SFcompare_number by done. destruct (float_compare x y); constructor; FloatTac.order.
Qed.

End Comparisons.

(** ** Automation *)

(** [forder] replaces comparisons of numbers by their meaning and solves by
    transitivity; [fnum] shows that a value is a number. *)

Lemma f64_lt_true x y : (x <? y)%float = true -> (x < y)%float.
Proof.
  intros L. assert (number x /\ number y) as [X Y].
  { unfold f64_lt, SFltb in L. destruct (SFcompare x y) eqn:C; [by apply compared_numbers in C|done]. }
  by destruct (f64_lt_spec x y X Y).
Qed.

Lemma f64_le_true x y : (x <=? y)%float = true -> (x <= y)%float.
Proof.
  intros L. assert (number x /\ number y) as [X Y].
  { unfold f64_le, SFleb in L. destruct (SFcompare x y) eqn:C; [by apply compared_numbers in C|done]. }
  by destruct (f64_le_spec x y X Y).
Qed.

Lemma f64_eq_true x y : (x =? y)%float = true -> (x == y)%float.
Proof.
  intros L. assert (number x /\ number y) as [X Y].
  { unfold f64_eq, SFeqb in L. destruct (SFcompare x y) eqn:C; [by apply compared_numbers in C|done]. }
  by destruct (f64_eq_spec x y X Y).
Qed.

Section Numbers.
Context (x y : float64) (X : number x) (Y : number y).

Lemma f64_lt_false : (x <? y)%float = false -> (y <= x)%float.
Proof. intros L. destruct (f64_lt_spec x y X Y); [done|FloatTac.order]. Qed.
Lemma f64_le_false : (x <=? y)%float = false -> (y < x)%float.
Proof. intros L. destruct (f64_le_spec x y X Y); [done|FloatTac.order]. Qed.
Lemma f64_eq_false : (x =? y)%float = false -> ~ (x == y)%float.
Proof. intros L. by destruct (f64_eq_spec x y X Y). Qed.

Lemma lt_f64 : (x < y)%float -> (x <? y)%float = true.
Proof. by destruct (f64_lt_spec x y X Y). Qed.
Lemma le_f64 : (x <= y)%float -> (x <=? y)%float = true.
Proof. by destruct (f64_le_spec x y X Y). Qed.
Lemma eq_f64 : (x == y)%float -> (x =? y)%float = true.
Proof. by destruct (f64_eq_spec x y X Y). Qed.
Lemma not_lt_f64 : (y <= x)%float -> (x <? y)%float = false.
Proof. intros L. destruct (f64_lt_spec x y X Y); [FloatTac.order|done]. Qed.
Lemma not_le_f64 : (y < x)%float -> (x <=? y)%float = false.
Proof. intros L. destruct (f64_le_spec x y X Y); [FloatTac.order|done]. Qed.
Lemma not_eq_f64 : ~ (x == y)%float -> (x =? y)%float = false.
Proof. intros L. by destruct (f64_eq_spec x y X Y). Qed.

End Numbers.

Create HintDb floats discriminated.
#[export] Hint Resolve finite_number of_Z_number ratio_number : floats.
#[export] Hint Extern 1 (number f64_zero) => exact (Logic.eq_refl false) : floats.

Ltac fnum := solve [auto with floats].

(** comparisons in the hypotheses to the order *)
Ltac float_hyps :=
  repeat match goal with
  | H : f64_lt _ _ = true |- _ => apply f64_lt_true in H
  | H : f64_le _ _ = true |- _ => apply f64_le_true in H
  | H : f64_eq _ _ = true |- _ => apply f64_eq_true in H
  | H : f64_lt ?x ?y = false |- _ => apply (f64_lt_false x y) in H; [|fnum..]
  | H : f64_le ?x ?y = false |- _ => apply (f64_le_false x y) in H; [|fnum..]
  | H : f64_eq ?x ?y = false |- _ => apply (f64_eq_false x y) in H; [|fnum..]
  end.

Ltac float_goal :=
  lazymatch goal with
  | |- f64_lt _ _ = true => apply lt_f64; [fnum..|]
  | |- f64_le _ _ = true => apply le_f64; [fnum..|]
  | |- f64_eq _ _ = true => apply eq_f64; [fnum..|]
  | |- f64_lt _ _ = false => apply not_lt_f64; [fnum..|]
  | |- f64_le _ _ = false => apply not_le_f64; [fnum..|]
  | |- f64_eq _ _ = false => apply not_eq_f64; [fnum..|]
  | _ => idtac
  end.

(** the order tactic reads every hypothesis on two floats as a comparison *)
Ltac forder :=
  float_hyps; float_goal;
  repeat match goal with
  | H : ?T |- _ =>
      lazymatch T with
      | FloatKeys.lt _ _ => fail
      | FloatKeys.le _ _ => fail
      | FloatKeys.eq _ _ => fail
      | ~ FloatKeys.eq _ _ => fail
      | _ => clear H
      end
  end; FloatTac.order.

Lemma number_le x y : (x <= y)%float -> number y -> number x.
Proof. unfold number. intros [[L]|[L]] Y; unfold FloatKeys.class in *; rewrite Y in *; destruct x as [[]|[]| |[] ? ?], y as [[]|[]| |[] ? ?]; simpl in *; (done || lia). Qed.

Lemma finite_between x y z :
  f64_finite x = true -> f64_finite z = true -> (x <= y)%float -> (y <= z)%float -> f64_finite y = true.
Proof.
  unfold f64_finite. destruct x as [[]|[]| |[] ? ?], z as [[]|[]| |[] ? ?]; simpl; try done; intros _ _ L R;
    destruct y as [[]|[]| |[] ? ?]; try done; exfalso;
    destruct L as [[L]|[L]], R as [[R]|[R]]; unfold FloatKeys.class in *; simpl in *; lia.
Qed.

Lemma same_number x : number x -> (x =? x)%float = true.
Proof. intros. forder. Qed.

(** ** Half-open intervals *)

(** the instant [t] is in the interval from [a] to [b], without [b] *)
Definition within (t a b : float64) : Prop := (a <=? t)%float = true /\ (t <? b)%float = true.

Lemma within_iff t a b : number t -> number a -> number b -> within t a b <-> (a <= t)%float /\ (t < b)%float.
Proof. intros. unfold within. split; intros [? ?]; split; forder. Qed.
