(* ===== verification/Sponsor.v ===== *)
(** * SponsorBlock segments ([internal/sponsorblock])

    The categories and actions the service knows, the normalization of the
    segments of a response into chapters ([normalize.go]), and the rendering of
    chapter titles ([title.go]).  Times are binary64 seconds. *)
From S2P Require Import Prelude GoStrings Runes Value FilterNumber Filter Float64 SorterValues.
From S2P Require Import Ordering SorterFacts FloatOrder.

#[local] Open Scope Z_scope.

(** ** Errors *)

Variant SponsorSentinel :=
| SbInvalidInput | SbUnsupported | SbUnavailable | SbNetwork | SbAuthentication | SbIsolation | SbInvalidMetadata.

(** a sentinel wrapped with a fixed context *)
Record SponsorError := errorf { sentinel : SponsorSentinel; context : string }.

Abbreviation sres := (result SponsorError).

#[global] Instance SponsorSentinel_eq_dec : EqDecision SponsorSentinel.
Proof. solve_decision. Defined.
#[global] Instance SponsorError_eq_dec : EqDecision SponsorError.
Proof. solve_decision. Defined.

(** ** Categories *)

Definition CategorySponsor : bytes := Eval vm_compute in lit "sponsor".
Definition CategoryIntro : bytes := Eval vm_compute in lit "intro".
Definition CategoryOutro : bytes := Eval vm_compute in lit "outro".
Definition CategorySelfPromo : bytes := Eval vm_compute in lit "selfpromo".
Definition CategoryPreview : bytes := Eval vm_compute in lit "preview".
Definition CategoryFiller : bytes := Eval vm_compute in lit "filler".
Definition CategoryInteraction : bytes := Eval vm_compute in lit "interaction".
Definition CategoryMusicOfftopic : bytes := Eval vm_compute in lit "music_offtopic".
Definition CategoryHook : bytes := Eval vm_compute in lit "hook".
Definition CategoryPOIHighlight : bytes := Eval vm_compute in lit "poi_highlight".
Definition CategoryChapter : bytes := Eval vm_compute in lit "chapter".

Definition AllCategories : list bytes :=
  [ CategorySponsor; CategoryIntro; CategoryOutro; CategorySelfPromo;
    CategoryPreview; CategoryFiller; CategoryInteraction; CategoryMusicOfftopic;
    CategoryHook; CategoryPOIHighlight; CategoryChapter ].

(** the cases of the switch *)
Definition canonical_titles : list (bytes * string) :=
  [ (CategorySponsor, "Sponsor"); (CategoryIntro, "Intermission/Intro Animation");
    (CategoryOutro, "Endcards/Credits"); (CategorySelfPromo, "Unpaid/Self Promotion");
    (CategoryPreview, "Preview/Recap"); (CategoryFiller, "Filler Tangent");
    (CategoryInteraction, "Interaction Reminder"); (CategoryMusicOfftopic, "Non-Music Section");
    (CategoryHook, "Hook/Greetings"); (CategoryPOIHighlight, "Highlight"); (CategoryChapter, "Chapter") ]%string.

Fixpoint switch_on {B} (x : bytes) (cases : list (bytes * B)) : option B :=
  match cases with
  | [] => None
  | (y, b) :: rest => if bool_decide (x = y) then Some b else switch_on x rest
  end.

Definition CanonicalTitle (category : bytes) : option bytes := option_map lit (switch_on category canonical_titles).

Definition ActionSkip : bytes := Eval vm_compute in lit "skip".
Definition ActionPOI : bytes := Eval vm_compute in lit "poi".
Definition ActionChapter : bytes := Eval vm_compute in lit "chapter".

Definition AllActions : list bytes := [ActionSkip; ActionPOI; ActionChapter].

Definition IsValidCategory (category : bytes) : bool :=
  existsb (fun candidate => bool_decide (candidate = category)) AllCategories.

Definition IsValidAction (action : bytes) : bool :=
  bool_decide (action = ActionSkip) || bool_decide (action = ActionPOI) || bool_decide (action = ActionChapter).

Definition IsPOI (category : bytes) : bool := bool_decide (category = CategoryPOIHighlight).

(** ** Limits *)

Definition MaxSegmentCount : Z := 4096.
Definition MaxStringBytes : Z := 1024.

(** [10 * 365 * 24 * 60 * 60] *)
Definition maxAllowedTimestamp : float64 := Eval vm_compute in f64_of_Z (10 * 365 * 24 * 60 * 60).

(** ** Segments and chapters *)

Record RawSegment := mkRawSegment {
  Segment_start : float64;
  Segment_end : float64;
  Segment_Category : bytes;
  Segment_ActionType : bytes;
  Segment_VideoDuration : float64;
  Segment_Description : bytes;
  Segment_UUID : bytes
}.

Record Chapter := mkChapter {
  Chapter_StartTime : float64;
  Chapter_EndTime : float64;
  Chapter_Category : bytes;
  Chapter_Title : bytes;
  Chapter_Type : bytes
}.

Record NormalizeResult := mkNormalizeResult {
  Chapters : list Chapter;
  DurationMismatchFiltered : bool
}.

#[global] Instance RawSegment_eta : Eta RawSegment :=
  fun s => mkRawSegment (Segment_start s) (Segment_end s) (Segment_Category s) (Segment_ActionType s)
             (Segment_VideoDuration s) (Segment_Description s) (Segment_UUID s).

(** ** Normalization of one segment *)

Definition f64_div : float64 -> float64 -> float64 := SFdiv f64_prec f64_emax.
Definition f64_one : float64 := Eval vm_compute in f64_of_Z 1.
Definition f64_five : float64 := Eval vm_compute in f64_of_Z 5.
Definition five_percent : float64 := Eval vm_compute in f64_ratio 1 20.

Definition matchesDuration (reported reference start end_ : float64) : bool :=
  if negb (f64_finite reported) then false
  else if (reported =? f64_zero)%float then true
  else if (reported <? f64_zero)%float then false
  else
    let diff := f64_sub reported reference in
    let diff := if (diff <? f64_zero)%float then f64_opp diff else diff in
    if (diff <? f64_one)%float then true
    else
      let span := f64_sub end_ start in
      if (span <=? f64_zero)%float then false
      else if (f64_five <=? diff)%float then false
      else (f64_div diff span <? five_percent)%float.

(** a segment is dropped ([None]), with the flag of the duration filter, or kept
    with its new bounds *)
Definition normalizeSegmentDetailed (segment : RawSegment) (knownDuration : bool) (duration : float64)
    : option RawSegment * bool :=
  if negb (IsValidCategory (Segment_Category segment)) || negb (IsValidAction (Segment_ActionType segment))
  then (None, false)
  else if negb (f64_finite (Segment_start segment)) || negb (f64_finite (Segment_end segment))
  then (None, false)
  else if (Segment_start segment <? f64_zero)%float || (Segment_end segment <? f64_zero)%float
  then (None, false)
  else if (maxAllowedTimestamp <? Segment_start segment)%float || (maxAllowedTimestamp <? Segment_end segment)%float
  then (None, false)
  else if (Segment_start segment =? f64_zero)%float && (Segment_end segment =? f64_zero)%float
  then (None, false)
  else
    let start := if (Segment_start segment <=? f64_one)%float then f64_zero else Segment_start segment in
    let end_ := if IsPOI (Segment_Category segment) then f64_add (Segment_end segment) f64_one
                else Segment_end segment in
    if (end_ <=? start)%float then (None, false)
    else
      let end_ := if knownDuration && (f64_sub duration end_ <=? f64_one)%float then duration else end_ in
      if (end_ <=? start)%float then (None, false)
      else
        let end_ := if knownDuration && (duration <? end_)%float then duration else end_ in
        if (end_ <=? start)%float then (None, false)
        else if knownDuration && negb (matchesDuration (Segment_VideoDuration segment) duration start end_)
        then (None, true)
        else (Some (segment <| Segment_start := start |> <| Segment_end := end_ |>), false).

Definition normalizeSegment (segment : RawSegment) (knownDuration : bool) (duration : float64) : option RawSegment :=
  (normalizeSegmentDetailed segment knownDuration duration).1.

(** ** Normalization of a response *)

Definition canonicalChapterTitle (segment : RawSegment) : bytes :=
  let category := Segment_Category segment in
  if bool_decide (category = CategoryChapter) then Segment_Description segment
  else match CanonicalTitle category with
       | Some title => title
       | None => category
       end.

(** the comparison both sorts of chapters use: by start, then by end *)
Definition before (a b : float64 * float64) : bool :=
  if negb (a.1 =? b.1)%float then (a.1 <? b.1)%float
  else if negb (a.2 =? b.2)%float then (a.2 <? b.2)%float
  else false.

Definition segment_bounds (s : RawSegment) : float64 * float64 := (Segment_start s, Segment_end s).

(** the filtering loop: the segments kept, and whether the duration filter dropped one *)
Fixpoint normalize_loop (segments : list RawSegment) (knownDuration : bool) (duration : float64)
    : list RawSegment * bool :=
  match segments with
  | [] => ([], false)
  | segment :: rest =>
      let '(normalized, mismatch) := normalizeSegmentDetailed segment knownDuration duration in
      let '(filtered, mismatchFiltered) := normalize_loop rest knownDuration duration in
      (match normalized with Some s => s :: filtered | None => filtered end, mismatch || mismatchFiltered)
  end.

Definition chapter_of (segment : RawSegment) : Chapter :=
  mkChapter (Segment_start segment) (Segment_end segment) (Segment_Category segment)
    (canonicalChapterTitle segment) (Segment_ActionType segment).

Definition known (duration : float64) : bool := (f64_zero <? duration)%float && f64_finite duration.

Definition NormalizeDetailed (segments : list RawSegment) (duration : float64) : NormalizeResult :=
  let segments := if MaxSegmentCount <? zlen segments then take (Z.to_nat MaxSegmentCount) segments else segments in
  let '(filtered, mismatchFiltered) := normalize_loop segments (known duration) duration in
  mkNormalizeResult
    (map chapter_of (sort_stable (fun a b => before (segment_bounds a) (segment_bounds b)) filtered))
    mismatchFiltered.

Definition Normalize (segments : list RawSegment) (duration : float64) : list Chapter :=
  Chapters (NormalizeDetailed segments duration).

(** ** Titles *)

Definition MaxChapterTitleBytes : Z := 2 ^ 20.

Record ChapterTitleFields := mkTitleFields {
  Fields_StartTime : float64;
  Fields_EndTime : float64;
  Fields_Category : bytes;
  Fields_Categories : list bytes;
  Fields_Name : bytes;
  Fields_CategoryNames : list bytes
}.

(** a caller's renderer gives a title or an error *)
Definition ChapterTitleRenderer : Type := ChapterTitleFields -> option bytes.

Definition renderChapterTitle (renderer : option ChapterTitleRenderer) (fields : ChapterTitleFields) : sres bytes :=
  let title :=
    match renderer with
    | None => Some (lit "[SponsorBlock]: " ++ Runes.Join (Fields_CategoryNames fields) (lit ", "))
    | Some render => render fields
    end in
  match title with
  | None => Err (errorf SbInvalidInput "chapter title template")
  | Some title =>
      if MaxChapterTitleBytes <? zlen title then Err (errorf SbInvalidInput "chapter title too long")
      else Ok title
  end.

(** ** Examples *)

Definition seconds (n : Z) : float64 := f64_of_Z n.

Example normalize_example :
  let raw start end_ category := mkRawSegment start end_ (lit category) ActionSkip (seconds 100) [] [] in
  let result := NormalizeDetailed
    [ raw (seconds 50) (seconds 60) "sponsor"; raw (f64_ratio 1 2) (seconds 10) "intro";
      raw (seconds 90) (f64_ratio 199 2) "outro"; raw (seconds 0) (seconds 0) "filler";
      raw (seconds 20) (seconds 20) "poi_highlight"; raw (seconds 5) (seconds 6) "unknown";
      mkRawSegment (seconds 30) (seconds 40) CategoryHook ActionSkip (seconds 120) [] [] ] (seconds 100) in
  map (fun c => (Chapter_StartTime c, Chapter_EndTime c, Chapter_Title c)) (Chapters result) =
  [ (seconds 0, seconds 10, lit "Intermission/Intro Animation"); (seconds 20, seconds 21, lit "Highlight");
    (seconds 50, seconds 60, lit "Sponsor"); (seconds 90, seconds 100, lit "Endcards/Credits") ] /\
  DurationMismatchFiltered result = true.
Proof. vm_compute. split; reflexivity. Qed.
