(* ===== verification/SponsorFacts.v ===== *)
(** * Properties of normalized segments

    Sorting by a boolean comparison, and what the normalization guarantees to
    the components that take its chapters. *)
From Stdlib Require Import Sorting.Sorted Sorting.Permutation.
From S2P Require Import Prelude GoStrings Runes Value FilterNumber Filter Float64 SorterValues.
From S2P Require Import Ordering SorterFacts FloatOrder Sponsor.

#[local] Open Scope Z_scope.

(** ** Sorting by a boolean comparison *)

Section Sorting.
Context {A : Type} (P : A -> Prop) (R : A -> A -> Prop) (before : A -> A -> bool).
Context (R_trans : Transitive R)
  (R_before : forall x y, P x -> P y -> before x y = true -> R x y)
  (R_after : forall x y, P x -> P y -> before x y = false -> R y x).

Lemma inserted_Permutation x l : Permutation (insert_stable before x l) (x :: l).
Proof. induction l as [|y l IH]; simpl; [done|]. case_match; [|done]. rewrite IH. apply perm_swap. Qed.

Lemma sorted_Permutation l : Permutation (sort_stable before l) l.
Proof. induction l as [|x l IH]; simpl; [done|]. by rewrite inserted_Permutation, IH. Qed.

Lemma insert_sorted x l : P x -> Forall P l -> StronglySorted R l -> StronglySorted R (insert_stable before x l).
Proof.
  intros X. induction 1 as [|y l Y F IH]; intros S; simpl; [repeat constructor|].
  apply StronglySorted_inv in S as [S B]. destruct (before y x) eqn:L.
  - constructor; [by apply IH|]. rewrite inserted_Permutation. constructor; [by apply R_before|done].
  - constructor; [by constructor|]. constructor; [by apply R_after|].
    eapply Forall_impl; [exact B|]. intros z ?. etrans; [by apply R_after|done].
Qed.

Lemma sort_sorted l : Forall P l -> StronglySorted R (sort_stable before l).
Proof.
  induction 1 as [|x l X F IH]; simpl; [constructor|]. apply insert_sorted; [done| |done].
  by rewrite sorted_Permutation.
Qed.

End Sorting.
