(* ===== verification/SponsorDecode.v ===== *)
(** * Decoding of a response ([internal/sponsorblock/decode*.go], [client.go])

    A response is an array of groups of segments.  The tokens of a body come
    from [encoding/json]: [Some] token of [Decoder.Token], or [None] where it
    returns an error; behind the last one it returns an error too.
    [Decoder.More] is false before a closing delimiter and at the end.  The
    recursion takes fuel, of which two units per token are enough. *)
From S2P Require Import Prelude GoStrings Runes Value FilterNumber Filter Float64 SorterValues.
From S2P Require Import Ordering SorterFacts FloatOrder Sponsor.

#[local] Open Scope Z_scope.

(** ** Tokens and values *)

Variant token :=
| TNull
| TBool (b : bool)
| TString (s : bytes)
| TNumber (text : bytes)
| TDelim (c : byte).

Class JsonTokens := { json_tokens : bytes -> list (option token) }.

(** an [interface{}] of the decoder; a map has its last entry first *)
Inductive any :=
| ANil
| ABool (b : bool)
| AString (s : bytes)
| AFloat (f : float64)
| AInt (n : Z)
| AList (items : list any)
| AMap (entries : list (bytes * any)).

Definition map_get (entries : list (bytes * any)) (key : string) : option any := switch_on (lit key) entries.

(** an absent entry reads as nil *)
Definition map_any (entries : list (bytes * any)) (key : string) : any := default ANil (map_get entries key).

Definition maxDecodeDepth : Z := 16.
Definition maxGroups : Z := 64.

Abbreviation stream := (list (option token)).

Definition More (ts : stream) : bool :=
  match ts with
  | [] => false
  | Some (TDelim c) :: _ => negb (is_byte "]" c) && negb (is_byte "}" c)
  | _ => true
  end.

(** [decoder.Token()] *)
Definition Token (ts : stream) : option (token * stream) :=
  match ts with
  | Some t :: rest => Some (t, rest)
  | _ => None
  end.

Definition metadata_error {A} (context : string) : sres A := Err (errorf SbInvalidMetadata context).

(** [strconv.ParseInt(s, 10, 64)] *)
Definition ParseInt64 (s : bytes) : option Z :=
  let '(negative, digits) :=
    match s with
    | c :: rest => if is_byte "-" c then (true, rest) else if is_byte "+" c then (false, rest) else (false, s)
    | [] => (false, [])
    end in
  if bool_decide (digits = []) || negb (forallb is_digit digits) then None
  else
    let n := if negative then - digits_value digits else digits_value digits in
    if (MinInt64 <=? n) && (n <=? MaxInt64) then Some n else None.

Definition decode_number (text : bytes) : sres any :=
  if bool_decide (text = []) then metadata_error "empty number"
  else if existsb (fun c => is_byte "." c || is_byte "e" c || is_byte "E" c) text then
    match ParseFloat text with
    | Some f => Ok (AFloat f)
    | None => metadata_error "decode float"
    end
  else
    match ParseInt64 text with
    | Some n => Ok (AInt n)
    | None => metadata_error "decode int"
    end.

(** ** The walk *)

(** the result and the rest of the tokens; [None] when the fuel runs out *)
Definition walk (A : Type) : Type := option (sres (A * stream)).

Definition walk_bind {A B} (m : walk A) (f : A -> stream -> walk B) : walk B :=
  match m with
  | None => None
  | Some (Err e) => Some (Err e)
  | Some (Ok (a, ts)) => f a ts
  end.

(** the closing token of a list or an object *)
Definition close (v : any) (ts : stream) : walk any :=
  match Token ts with
  | Some (_, ts) => Some (Ok (v, ts))
  | None => Some (metadata_error "decode end")
  end.

Fixpoint decodeValue (fuel : nat) (depth : Z) (ts : stream) : walk any :=
  match fuel with
  | O => None
  | S fuel =>
      if maxDecodeDepth <? depth then Some (metadata_error "too deep")
      else
        match Token ts with
        | None => Some (metadata_error "decode value")
        | Some (TNull, ts) => Some (Ok (ANil, ts))
        | Some (TBool b, ts) => Some (Ok (ABool b, ts))
        | Some (TString s, ts) =>
            if MaxStringBytes <? zlen s then Some (metadata_error "string too long") else Some (Ok (AString s, ts))
        | Some (TNumber text, ts) => Some (v ← decode_number text; Ok (v, ts))
        | Some (TDelim c, ts) =>
            if is_byte "[" c then decode_items fuel depth [] ts
            else if is_byte "{" c then decode_entries fuel depth [] ts
            else Some (metadata_error "unexpected delimiter")
        end
  end
with decode_items (fuel : nat) (depth : Z) (items : list any) (ts : stream) : walk any :=
  match fuel with
  | O => None
  | S fuel =>
      if More ts then
        walk_bind (decodeValue fuel (depth + 1) ts) (fun item ts => decode_items fuel depth (items ++ [item]) ts)
      else close (AList items) ts
  end
with decode_entries (fuel : nat) (depth : Z) (entries : list (bytes * any)) (ts : stream) : walk any :=
  match fuel with
  | O => None
  | S fuel =>
      if More ts then
        match Token ts with
        | None => Some (metadata_error "decode key")
        | Some (TString key, ts) =>
            if MaxStringBytes <? zlen key then Some (metadata_error "key too long")
            else walk_bind (decodeValue fuel (depth + 1) ts) (fun item ts => decode_entries fuel depth ((key, item) :: entries) ts)
        | Some _ => Some (metadata_error "non-string key")
        end
      else close (AMap entries) ts
  end.

Definition walk_fuel (ts : stream) : nat := 2 * length ts + 2.

(** the loop over the groups *)
Fixpoint decode_groups_loop (fuel : nat) (values : list any) (ts : stream) : walk (list any) :=
  match fuel with
  | O => None
  | S fuel =>
      if More ts then
        if maxGroups <? zlen values then Some (metadata_error "too many groups")
        else walk_bind (decodeValue fuel 0 ts) (fun value ts => decode_groups_loop fuel (values ++ [value]) ts)
      else Some (Ok (values, ts))
  end.

Definition decodeArrayValue (tokens : stream) : option (sres (list any)) :=
  match Token tokens with
  | None => Some (metadata_error "decode array")
  | Some (TDelim c, ts) =>
      if is_byte "[" c then
        match decode_groups_loop (walk_fuel ts) [] ts with
        | None => None
        | Some (Err e) => Some (Err e)
        | Some (Ok (values, ts)) =>
            match Token ts with
            | None => Some (metadata_error "decode end")
            | Some (_, ts) =>
                match Token ts with
                | None => Some (Ok values)
                | Some _ => Some (metadata_error "trailing tokens")
                end
            end
        end
      else Some (metadata_error "non-array body")
  | Some _ => Some (metadata_error "non-array body")
  end.

(** ** Segments *)

(** the error is private to the callers, which only test it *)
Definition decodeBoundedString (raw : any) (max : Z) : option bytes :=
  match raw with
  | ANil => Some []
  | AString value => if max <? zlen value then None else Some value
  | _ => None
  end.

Definition decodeFloat (raw : any) : option float64 :=
  match raw with
  | ANil => Some f64_zero
  | AFloat f => Some f
  | AInt n => Some (f64_of_Z n)
  | _ => None
  end.

Definition nonempty_text (s : bytes) : option bytes := if bool_decide (s = []) then None else Some s.
Definition only_if {A} (p : A -> bool) (a : A) : option A := if p a then Some a else None.

(** [None] for a malformed segment *)
Definition decodeSegment (raw : list (bytes * any)) : option RawSegment :=
  match map_any raw "segment" with
  | AList [first; second] =>
      start ← decodeFloat first;
      end_ ← decodeFloat second;
      category ← decodeBoundedString (map_any raw "category") 64;
      category ← nonempty_text category;
      category ← only_if IsValidCategory category;
      action ← decodeBoundedString (map_any raw "actionType") 64;
      action ← nonempty_text action;
      action ← only_if IsValidAction action;
      let videoDuration := default f64_zero (decodeFloat (map_any raw "videoDuration")) in
      description ← decodeBoundedString (map_any raw "description") MaxStringBytes;
      uuid ← decodeBoundedString (map_any raw "UUID") MaxStringBytes;
      Some (mkRawSegment start end_ category action videoDuration description uuid)
  | _ => None
  end.

Record group := mkGroup { group_VideoID : bytes; group_Segments : list RawSegment }.

Fixpoint decode_segments (items : list any) : sres (list RawSegment) :=
  match items with
  | [] => Ok []
  | AMap segment :: rest =>
      segments ← decode_segments rest;
      Ok (match decodeSegment segment with Some parsed => parsed :: segments | None => segments end)
  | _ => metadata_error "segment not object"
  end.

Definition decode_group (item : any) : sres group :=
  match item with
  | AMap entry =>
      match decodeBoundedString (map_any entry "videoID") MaxStringBytes with
      | None => metadata_error "videoID"
      | Some groupID =>
          if bool_decide (groupID = []) then metadata_error "missing videoID"
          else
            match map_get entry "segments" with
            | None => metadata_error "missing segments"
            | Some (AList rawSegments) =>
                if MaxSegmentCount <? zlen rawSegments then metadata_error "too many segments"
                else segments ← decode_segments rawSegments; Ok (mkGroup groupID segments)
            | Some _ => metadata_error "segments not array"
            end
      end
  | _ => metadata_error "group not object"
  end.

Fixpoint decode_all (values : list any) : sres (list group) :=
  match values with
  | [] => Ok []
  | item :: rest => g ← decode_group item; gs ← decode_all rest; Ok (g :: gs)
  end.

Section Response.
Context {UT : RuneTables} {JT : JsonTokens}.

Definition decodeResponse (body : bytes) : option (sres (list group)) :=
  if bool_decide (body = []) then Some (metadata_error "empty body")
  else
    let trimmed := TrimSpace body in
    if bool_decide (trimmed = []) then Some (metadata_error "empty body")
    else if negb (HasPrefix trimmed (lit "[")) then Some (metadata_error "non-array body")
    else
      match decodeArrayValue (json_tokens body) with
      | None => None
      | Some (Err e) => Some (Err e)
      | Some (Ok values) =>
          if maxGroups <? zlen values then Some (metadata_error "too many groups") else Some (decode_all values)
      end.

End Response.

(** ** The group of a video ([client.go]) *)

(** the end of [Fetch]: the segments of the first group of the video whose
    category was asked for, normalized *)
Definition fetch_chapters (groups : list group) (categories : list bytes) (videoID : bytes) (videoDuration : float64)
    : NormalizeResult :=
  match List.find (fun g => bool_decide (group_VideoID g = videoID)) groups with
  | Some g =>
      NormalizeDetailed
        (List.filter (fun segment => bool_decide (Segment_Category segment ∈ categories)) (group_Segments g)) videoDuration
  | None => mkNormalizeResult [] false
  end.
