(* ===== verification/SponsorCut.v ===== *)
(** * Cuts of a media file ([internal/sponsorblock/cut.go])

    The chapters to remove are merged into cut ranges, and the ranges become the
    segments that are kept.  The map of removable categories is a set of byte
    strings; a nil pointer of a concat segment is [None]. *)
From S2P Require Import Prelude GoStrings Runes Value FilterNumber Filter Float64 SorterValues.
From S2P Require Import Ordering SorterFacts FloatOrder Sponsor.

#[local] Open Scope Z_scope.

Definition MaxKeepSegments : Z := 128.
Definition MaxForceKeyframeTimestamps : Z := 512.
Definition maxCutRanges : Z := MaxForceKeyframeTimestamps / 2.

Record Range := mkRange { Range_Start : float64; Range_End : float64 }.

Record ConcatSegment := mkConcatSegment { InPoint : option float64; OutPoint : option float64 }.

Record CutPlan := mkCutPlan {
  Cuts : list Range;
  Keep : list ConcatSegment;
  Plan_Duration : float64
}.

#[global] Instance Range_eta : Eta Range := fun r => mkRange (Range_Start r) (Range_End r).
#[global] Instance ConcatSegment_eta : Eta ConcatSegment := fun s => mkConcatSegment (InPoint s) (OutPoint s).

Definition whole_file : ConcatSegment := mkConcatSegment None None.

(** ** Categories that may be removed *)

Definition IsRemovableCategory (category : bytes) : bool :=
  if negb (IsValidCategory category) then false
  else negb (bool_decide (category = CategoryPOIHighlight) || bool_decide (category = CategoryChapter)).

Fixpoint filter_removable (seen : gset bytes) (categories : list bytes) : list bytes :=
  match categories with
  | [] => []
  | raw :: rest =>
      if negb (IsRemovableCategory raw) then filter_removable seen rest
      else if bool_decide (raw ∈ seen) then filter_removable seen rest
      else raw :: filter_removable ({[raw]} ∪ seen) rest
  end.

Definition FilterRemovableCategories (categories : list bytes) : list bytes := filter_removable ∅ categories.

(** ** Merging *)

Definition range_bounds (r : Range) : float64 * float64 := (Range_Start r, Range_End r).

(** the comparison of the sort: by start, then by end *)
Definition range_before (a b : Range) : bool :=
  if negb (Range_Start a =? Range_Start b)%float then (Range_Start a <? Range_Start b)%float
  else (Range_End a <? Range_End b)%float.

Fixpoint merge_loop (current : Range) (ordered : list Range) : list Range :=
  match ordered with
  | [] => [current]
  | next :: rest =>
      if (Range_Start next <=? Range_End current)%float then
        merge_loop
          (if (Range_End current <? Range_End next)%float then current <| Range_End := Range_End next |> else current)
          rest
      else current :: merge_loop next rest
  end.

Definition mergeRanges (input : list Range) : list Range :=
  match sort_stable range_before input with
  | [] => []
  | current :: rest => merge_loop current rest
  end.

(** ** Keep segments *)

Definition floatPtr (value : float64) : option float64 := if f64_finite value then Some value else None.

(** [opts] is kept with its last segment apart *)
Fixpoint concat_loop (cuts : list Range) (duration : float64) (opts : list ConcatSegment) (last : ConcatSegment)
    : list ConcatSegment :=
  match cuts with
  | [] => opts ++ [last]
  | cut :: rest =>
      if (Range_Start cut =? f64_zero)%float then
        concat_loop rest duration opts (last <| InPoint := floatPtr (Range_End cut) |>)
      else
        let last := last <| OutPoint := floatPtr (Range_Start cut) |> in
        if (Range_End cut <? duration)%float then
          concat_loop rest duration (opts ++ [last]) (mkConcatSegment (floatPtr (Range_End cut)) None)
        else concat_loop rest duration opts last
  end.

(** the interval a segment stands for *)
Definition segment_start (segment : ConcatSegment) : float64 := default f64_zero (InPoint segment).
Definition segment_end (duration : float64) (segment : ConcatSegment) : float64 := default duration (OutPoint segment).

Definition nonempty_segment (duration : float64) (segment : ConcatSegment) : bool :=
  let start := segment_start segment in
  let end_ := segment_end duration segment in
  negb (negb (f64_finite start) || negb (f64_finite end_) || (end_ <=? start)%float).

Definition makeConcatOpts (cuts : list Range) (duration : float64) : list ConcatSegment :=
  match cuts with
  | [] => [whole_file]
  | _ => List.filter (nonempty_segment duration) (concat_loop cuts duration [] whole_file)
  end.

(** ** Key frames *)

(** [strconv.FormatFloat(value, 'f', 6, 64)]: the exact value rounded to six
    decimals, ties to even *)
Definition floatKey (value : float64) : bytes :=
  match f64_rat value with
  | Some (n, d) =>
      let scaled := round_even (Z.abs n * 10 ^ 6) d in
      let decimals := decimal_digits (scaled mod 10 ^ 6) in
      let whole := scaled / 10 ^ 6 in
      sign_text value ++ (if whole =? 0 then lit "0" else decimal_digits whole) ++ lit "." ++
      zeros (6 - (if scaled mod 10 ^ 6 =? 0 then 0 else zlen decimals)) ++
      (if scaled mod 10 ^ 6 =? 0 then [] else decimals)
  | None => if f64_is_nan value then lit "NaN" else if f64_sign value then lit "-Inf" else lit "+Inf"
  end.

Definition key_of (timestamp : float64) : gset bytes :=
  if negb (f64_finite timestamp) || (timestamp <? f64_zero)%float || (timestamp =? f64_zero)%float then ∅
  else {[floatKey timestamp]}.

Definition forceKeyframeTimestampCount (cuts : list Range) : Z :=
  Z.of_nat (size (foldl (fun seen cut => seen ∪ key_of (Range_Start cut) ∪ key_of (Range_End cut)) ∅ cuts : gset bytes)).

(** ** The plan *)

(** one chapter of the loop: the range it removes, if any *)
Definition removed_range (removeSet : gset bytes) (duration : float64) (chapter : Chapter) : option Range :=
  if negb (bool_decide (Chapter_Category chapter ∈ removeSet)) then None
  else if bool_decide (Chapter_Type chapter = ActionPOI) || bool_decide (Chapter_Type chapter = ActionChapter) then None
  else if negb (f64_finite (Chapter_StartTime chapter)) || negb (f64_finite (Chapter_EndTime chapter)) then None
  else
    let start := if (Chapter_StartTime chapter <? f64_zero)%float then f64_zero else Chapter_StartTime chapter in
    let end_ := if (duration <? Chapter_EndTime chapter)%float then duration else Chapter_EndTime chapter in
    if (end_ <=? start)%float then None else Some (mkRange start end_).

Definition kept_time (duration : float64) (keep : list ConcatSegment) : float64 :=
  foldl (fun kept segment =>
    let start := segment_start segment in
    let end_ := segment_end duration segment in
    if (start <? end_)%float then f64_add kept (f64_sub end_ start) else kept) f64_zero keep.

Definition keep_everything (duration : float64) : CutPlan := mkCutPlan [] [whole_file] duration.

Definition PlanCuts (chapters : list Chapter) (removeCategories : list bytes) (duration : float64) : sres CutPlan :=
  if negb (f64_finite duration) || (duration <=? f64_zero)%float then Err (errorf SbInvalidInput "cut duration")
  else if MaxSegmentCount <? zlen chapters then Err (errorf SbInvalidInput "cut chapter limit")
  else if negb (forallb IsRemovableCategory removeCategories)
  then Err (errorf SbInvalidInput "non-removable category")
  else
    let removeSet : gset bytes := list_to_set removeCategories in
    if bool_decide (removeSet = ∅) then Ok (keep_everything duration)
    else
      let raw := omap (removed_range removeSet duration) chapters in
      let cuts := mergeRanges raw in
      if maxCutRanges <? zlen cuts then Err (errorf SbInvalidInput "cut range limit")
      else if bool_decide (length cuts = 0%nat) then Ok (keep_everything duration)
      else if MaxForceKeyframeTimestamps <? forceKeyframeTimestampCount cuts
      then Err (errorf SbInvalidInput "force keyframe limit")
      else
        let keep := makeConcatOpts cuts duration in
        if bool_decide (length keep = 0%nat) then Err (errorf SbInvalidInput "entire media removed")
        else if MaxKeepSegments <? zlen keep then Err (errorf SbInvalidInput "keep segment limit")
        else
          let kept := kept_time duration keep in
          if (kept <=? f64_zero)%float then Err (errorf SbInvalidInput "entire media removed")
          else Ok (mkCutPlan cuts keep kept).

(** ** Times after the cuts *)

Fixpoint cut_offset (timestamp : float64) (cuts : list Range) (offset : float64) : float64 :=
  match cuts with
  | [] => offset
  | cut :: rest =>
      if (Range_End cut <=? timestamp)%float then
        cut_offset timestamp rest (f64_add offset (f64_sub (Range_End cut) (Range_Start cut)))
      else if (Range_Start cut <? timestamp)%float then f64_add offset (f64_sub timestamp (Range_Start cut))
      else offset
  end.

Definition MapTimeThroughCuts (timestamp : float64) (cuts : list Range) : float64 :=
  if negb (f64_finite timestamp) then timestamp
  else
    let mapped := f64_sub timestamp (cut_offset timestamp cuts f64_zero) in
    if (mapped <? f64_zero)%float then f64_zero else mapped.

(** ** Examples *)

Definition skip (start end_ : Z) (category : string) : Chapter :=
  mkChapter (seconds start) (seconds end_) (lit category) [] ActionSkip.

Example plan_example :
  PlanCuts [skip 40 50 "sponsor"; skip 0 10 "intro"; skip 45 60 "sponsor"; skip 70 80 "outro"; skip 90 120 "sponsor"]
    [CategorySponsor; CategoryIntro] (seconds 100) =
  Ok (mkCutPlan [mkRange (seconds 0) (seconds 10); mkRange (seconds 40) (seconds 60); mkRange (seconds 90) (seconds 100)]
        [mkConcatSegment (Some (seconds 10)) (Some (seconds 40)); mkConcatSegment (Some (seconds 60)) (Some (seconds 90))]
        (seconds 60)).
Proof. vm_compute. reflexivity. Qed.

Example plan_errors_example :
  PlanCuts [skip 0 60 "sponsor"; skip 50 100 "sponsor"] [CategorySponsor] (seconds 100) =
    Err (errorf SbInvalidInput "entire media removed") /\
  PlanCuts [] [CategoryChapter] (seconds 100) = Err (errorf SbInvalidInput "non-removable category") /\
  PlanCuts [] [] f64_zero = Err (errorf SbInvalidInput "cut duration").
Proof. vm_compute. split_and!; reflexivity. Qed.

Example map_time_example :
  let cuts := [mkRange (seconds 0) (seconds 10); mkRange (seconds 40) (seconds 60)] in
  map (fun t => MapTimeThroughCuts (seconds t) cuts) [5; 10; 40; 50; 60; 99] =
  map seconds [0; 0; 30; 30; 30; 69].
Proof. vm_compute. reflexivity. Qed.

Example float_key_example :
  map floatKey [seconds 12; f64_ratio 1 8; f64_ratio 12345 1000; f64_ratio 1 3] =
  [lit "12.000000"; lit "0.125000"; lit "12.345000"; lit "0.333333"].
Proof. vm_compute. reflexivity. Qed.
