(* ===== verification/SponsorCutFacts.v ===== *)
(** * Properties of cut plans

    The cuts of a plan are in order, apart from each other and inside the media,
    and the keep segments are what the cuts leave: an instant is kept exactly
    when no chapter to remove contains it. *)
From Stdlib Require Import Sorting.Sorted Sorting.Permutation.
From S2P Require Import Prelude GoStrings Runes Value FilterNumber Filter Float64 SorterValues.
From S2P Require Import Ordering SorterFacts FloatOrder Sponsor SponsorFacts SponsorCut.

#[local] Open Scope Z_scope.

(** ** Ranges inside the media *)

Record valid_range (d : float64) (r : Range) : Prop := {
  vr_start : f64_finite (Range_Start r) = true;
  vr_end : f64_finite (Range_End r) = true;
  vr_zero : (f64_zero <= Range_Start r)%float;
  vr_order : (Range_Start r < Range_End r)%float;
  vr_limit : (Range_End r <= d)%float
}.
#[export] Hint Resolve vr_start vr_end : floats.

(** the instants of a range *)
Definition in_range (t : float64) (r : Range) : Prop := (Range_Start r <= t)%float /\ (t < Range_End r)%float.

(** ranges after [lo], with a gap before each *)
Fixpoint spaced (d lo : float64) (cuts : list Range) : Prop :=
  match cuts with
  | [] => True
  | cut :: rest => valid_range d cut /\ (lo < Range_Start cut)%float /\ spaced d (Range_End cut) rest
  end.

Definition cuts_apart (d : float64) (cuts : list Range) : Prop :=
  match cuts with
  | [] => True
  | cut :: rest => valid_range d cut /\ spaced d (Range_End cut) rest
  end.

Section Instant.
Context (d t : float64) (D : f64_finite d = true) (T : f64_finite t = true).

Lemma split_at x : (t < x)%float \/ (x <= t)%float.
Proof. destruct (FloatTotal.lt_total t x) as [?|[?|?]]; [by left|right; forder..]. Qed.

(** ** Merging *)

Definition starts_in_order (a b : Range) : Prop := (Range_Start a <= Range_Start b)%float.

#[local] Instance starts_in_order_trans : Transitive starts_in_order.
Proof. unfold starts_in_order. intros x y z ? ?. forder. Qed.

Lemma merge_head current ordered : exists e rest, merge_loop current ordered = mkRange (Range_Start current) e :: rest.
Proof.
  revert current. induction ordered as [|next ordered IH]; intros current; simpl; [destruct current; eauto|].
  case_match; [|destruct current; eauto]. case_match; [|apply IH]. apply (IH (mkRange _ _)).
Qed.

Lemma merge_apart current ordered :
  valid_range d current -> Forall (valid_range d) ordered -> StronglySorted starts_in_order (current :: ordered) ->
  cuts_apart d (merge_loop current ordered).
Proof.
  intros V F. revert current V. induction F as [|next ordered N F IH]; intros current V S; [done|].
  apply StronglySorted_inv in S as [S B]. pose proof S as S'. apply StronglySorted_inv in S' as [S' _].
  apply Forall_cons in B as [? B]. simpl. destruct V, N. case_match eqn:E; [case_match eqn:E'|].
  - apply IH; [constructor; simpl; auto; forder|]. by constructor.
  - apply IH; [by constructor|]. by constructor.
  - split; [by constructor|]. specialize (IH next ltac:(by constructor) S).
    destruct (merge_head next ordered) as (e & rest & M). rewrite M in *. destruct IH as [? ?].
    split_and!; [done| |done]. simpl. forder.
Qed.

Lemma merge_covers current ordered :
  valid_range d current -> Forall (valid_range d) ordered -> StronglySorted starts_in_order (current :: ordered) ->
  Exists (in_range t) (merge_loop current ordered) <-> Exists (in_range t) (current :: ordered).
Proof.
  intros V F. revert current V. induction F as [|next ordered N F IH]; intros current V S; [done|].
  apply StronglySorted_inv in S as [S B]. pose proof S as S'. apply StronglySorted_inv in S' as [S' _].
  apply Forall_cons in B as [O B]. simpl. rewrite !Exists_cons.
  pose proof V as V'. pose proof N as N'. destruct V', N'. unfold starts_in_order in O. case_match eqn:E; [case_match eqn:E'|].
  - rewrite IH by first [by constructor | constructor; simpl; auto; forder]. rewrite Exists_cons.
    unfold in_range; simpl. split; [intros [[? ?]|?]|intros [[? ?]|[[? ?]|?]]]; auto.
    + destruct (split_at (Range_End current)) as [?|?]; [left; by split|].
      right; left. split; [forder|done].
    + left. split; forder.
    + left. split; forder.
  - rewrite IH by (try done; by constructor). rewrite Exists_cons. split; [naive_solver|].
    unfold in_range. intros [?|[[? ?]|?]]; auto. left. split; forder.
  - rewrite Exists_cons, IH by done. by rewrite Exists_cons.
Qed.


Lemma starts_before x y :
  valid_range d x -> valid_range d y -> range_before x y = true -> starts_in_order x y.
Proof. intros [] []. unfold range_before, starts_in_order. case_match eqn:E; reflect_bools; intros; forder. Qed.

Lemma starts_after x y :
  valid_range d x -> valid_range d y -> range_before x y = false -> starts_in_order y x.
Proof. intros [] []. unfold range_before, starts_in_order. case_match eqn:E; reflect_bools; intros; forder. Qed.

Lemma mergeRanges_spec raw : Forall (valid_range d) raw ->
  cuts_apart d (mergeRanges raw) /\ (Exists (in_range t) (mergeRanges raw) <-> Exists (in_range t) raw).
Proof.
  intros F. unfold mergeRanges.
  pose proof (sort_sorted (valid_range d) starts_in_order range_before _ starts_before starts_after raw F) as S.
  pose proof (sorted_Permutation range_before raw) as M.
  destruct (sort_stable range_before raw) as [|current rest]; rewrite <- M in *; [done|]. apply Forall_cons in F as [V F].
  split; [by apply merge_apart|by apply merge_covers].
Qed.

(** ** Keep segments *)

(** a segment that is kept and contains the instant *)
Definition keeps (segment : ConcatSegment) : Prop :=
  nonempty_segment d segment = true /\ (segment_start segment <= t)%float /\ (t < segment_end d segment)%float.

Lemma keeps_interval a b : f64_finite a = true -> f64_finite b = true ->
  forall segment, segment_start segment = a -> segment_end d segment = b ->
  keeps segment <-> (a <= t)%float /\ (t < b)%float.
Proof.
  intros A B segment <- <-. unfold keeps, nonempty_segment. split; [by intros (_ & ? & ?)|]. intros [? ?].
  split_and!; [|done|done]. rewrite A, B. cbn [negb orb]. apply negb_true_iff. forder.
Qed.

Lemma spaced_none lo cuts : spaced d lo cuts -> (t < lo)%float -> ~ Exists (in_range t) cuts.
Proof.
  revert lo. induction cuts as [|cut cuts IH]; intros lo S L; [by intros ?%Exists_nil|].
  destruct S as (V & ? & S). rewrite Exists_cons. unfold in_range at 1. destruct V. intros [[? ?]|X]; [forder|].
  revert X. eapply IH; [exact S|]. forder.
Qed.

Lemma spaced_end lo cuts : spaced d lo cuts -> (d <= lo)%float -> cuts = [].
Proof. destruct cuts as [|cut cuts]; [done|]. intros ([] & ? & _) ?. exfalso. forder. Qed.

(** the segments of the loop, with [last] open from [lo] to the end of the media *)
Lemma concat_loop_keeps cuts opts inp :
  f64_finite (default f64_zero inp) = true -> (f64_zero <= default f64_zero inp)%float -> spaced d (default f64_zero inp) cuts ->
  Exists keeps (concat_loop cuts d opts (mkConcatSegment inp None)) <->
  Exists keeps opts \/ (default f64_zero inp <= t)%float /\ (t < d)%float /\ ~ Exists (in_range t) cuts.
Proof.
  revert opts inp. induction cuts as [|cut cuts IH]; intros opts inp I Z S; simpl.
  - rewrite Exists_app, Exists_cons, !Exists_nil, (keeps_interval (default f64_zero inp) d) by done. naive_solver.
  - destruct S as (V & L & S). pose proof V as [].
    assert ((Range_Start cut =? f64_zero)%float = false) as -> by forder.
    unfold floatPtr. rewrite vr_start0, vr_end0. rewrite Exists_cons. unfold in_range at 1. case_match eqn:E.
    + rewrite IH by (simpl; (done || forder)). rewrite Exists_app, Exists_cons, Exists_nil.
      rewrite (keeps_interval (default f64_zero inp) (Range_Start cut)) by done. simpl.
      split; [intros [[?|[[? ?]|[]]]|(? & ? & ?)]|intros [?|(? & ? & N)]]; auto.
      * right. split_and!; [done|forder|]. intros [[? ?]|X]; [forder|]. revert X. eapply spaced_none; [done|forder].
      * right. split_and!; [forder|done|]. intros [[? ?]|?]; [forder|done].
      * destruct (split_at (Range_Start cut)) as [?|?]; [by auto|]. destruct (split_at (Range_End cut)) as [?|?]; [|right; by split_and!; auto].
        exfalso. by auto.
    + rewrite (spaced_end _ _ S) by forder. simpl. rewrite Exists_app, Exists_cons, !Exists_nil.
      rewrite (keeps_interval (default f64_zero inp) (Range_Start cut)) by done.
      split; [intros [?|[[? ?]|[]]]|intros [?|(? & ? & N)]]; auto.
      * right. split_and!; [done|forder|]. intros [[? ?]|[]]. forder.
      * destruct (split_at (Range_Start cut)) as [?|?]; [by auto|]. exfalso. apply N. left. split; [done|forder].
Qed.


(** the instants of a segment *)
Definition in_segment (segment : ConcatSegment) : Prop :=
  (segment_start segment <= t)%float /\ (t < segment_end d segment)%float.

Lemma filter_keeps l : Exists in_segment (List.filter (nonempty_segment d) l) <-> Exists keeps l.
Proof.
  induction l as [|s l IH]; simpl; [by rewrite !Exists_nil|]. rewrite Exists_cons, <- IH. unfold keeps, in_segment.
  destruct (nonempty_segment d s); [rewrite Exists_cons|]; naive_solver.
Qed.

Lemma makeConcatOpts_keeps cuts : cuts_apart d cuts -> (f64_zero <= t)%float -> (t < d)%float ->
  Exists in_segment (makeConcatOpts cuts d) <-> ~ Exists (in_range t) cuts.
Proof.
  intros C Z L. destruct cuts as [|cut rest].
  { simpl. unfold in_segment. rewrite Exists_cons, !Exists_nil. simpl. naive_solver. }
  unfold makeConcatOpts. rewrite filter_keeps. destruct C as [V S]. pose proof V as [].
  destruct (Range_Start cut =? f64_zero)%float eqn:E.
  - cbn [concat_loop]. rewrite E. unfold floatPtr. rewrite vr_end0.
    change (whole_file <| InPoint := Some (Range_End cut) |>) with (mkConcatSegment (Some (Range_End cut)) None).
    rewrite concat_loop_keeps by (simpl; (done || forder)). rewrite Exists_cons, Exists_nil. unfold in_range at 2. simpl.
    split; [intros [[]|(? & _ & ?)] [[? ?]|?]; [forder|done]|]. intros N.
    right. split_and!; [|done|tauto]. destruct (split_at (Range_End cut)); [|done]. exfalso. apply N. left. split; [forder|done].
  - change whole_file with (mkConcatSegment None None). rewrite concat_loop_keeps; [|done|simpl; forder|].
    + rewrite Exists_nil. simpl. naive_solver.
    + simpl. split_and!; [done|forder|done].
Qed.

End Instant.

(** ** The order of the segments *)

Definition segments_in_order (d : float64) (a b : ConcatSegment) : Prop := (segment_end d a < segment_start b)%float.

Lemma StronglySorted_snoc {A} (R : A -> A -> Prop) l x :
  StronglySorted R l -> Forall (fun y => R y x) l -> StronglySorted R (l ++ [x]).
Proof.
  induction 1 as [|y l S IH B]; intros F; simpl; [repeat constructor|]. apply Forall_cons in F as [? F].
  constructor; [auto|]. apply Forall_app. auto.
Qed.

Lemma StronglySorted_filter {A} (R : A -> A -> Prop) (p : A -> bool) l :
  StronglySorted R l -> StronglySorted R (List.filter p l).
Proof.
  induction 1 as [|y l S IH B]; simpl; [constructor|]. destruct (p y); [|done]. constructor; [done|].
  rewrite List.Forall_forall in *. intros z [? _]%filter_In. auto.
Qed.

Lemma concat_loop_sorted d cuts opts inp :
  f64_finite d = true -> spaced d (default f64_zero inp) cuts -> StronglySorted (segments_in_order d) opts ->
  Forall (fun o => segment_end d o < default f64_zero inp)%float opts -> (f64_zero <= default f64_zero inp)%float ->
  StronglySorted (segments_in_order d) (concat_loop cuts d opts (mkConcatSegment inp None)).
Proof.
  intros D. revert opts inp. induction cuts as [|cut cuts IH]; intros opts inp S O F Z; simpl.
  { by apply StronglySorted_snoc. }
  destruct S as (V & L & S). pose proof V as []. assert ((Range_Start cut =? f64_zero)%float = false) as -> by forder.
  unfold floatPtr. rewrite vr_start0, vr_end0. case_match eqn:E.
  - apply IH; simpl; [done|by apply StronglySorted_snoc| |forder].
    apply Forall_app. split; [|constructor; [simpl; forder|done]].
    eapply Forall_impl; [exact F|]. simpl. intros o ?. forder.
  - rewrite (spaced_end d _ _ S) by forder. by apply StronglySorted_snoc.
Qed.

Lemma makeConcatOpts_sorted d cuts : f64_finite d = true -> cuts_apart d cuts ->
  StronglySorted (segments_in_order d) (makeConcatOpts cuts d).
Proof.
  intros D C. destruct cuts as [|cut rest]; [repeat constructor|]. destruct C as [V S]. pose proof V as [].
  apply StronglySorted_filter. destruct (Range_Start cut =? f64_zero)%float eqn:E.
  - cbn [concat_loop]. rewrite E. unfold floatPtr. rewrite vr_end0.
    apply (concat_loop_sorted d rest [] (Some (Range_End cut))); simpl; first [done | constructor; done | forder].
  - apply (concat_loop_sorted d (cut :: rest) [] None); simpl; [done| |constructor|constructor|forder].
    split_and!; [done|forder|done].
Qed.

(** ** The chapters a plan removes *)

(** the chapter is to be removed and contains the instant *)
Record removes (categories : list bytes) (t : float64) (chapter : Chapter) : Prop := {
  rm_category : Chapter_Category chapter ∈ categories;
  rm_poi : Chapter_Type chapter <> ActionPOI;
  rm_chapter : Chapter_Type chapter <> ActionChapter;
  rm_start : f64_finite (Chapter_StartTime chapter) = true;
  rm_end : f64_finite (Chapter_EndTime chapter) = true;
  rm_within : within t (Chapter_StartTime chapter) (Chapter_EndTime chapter)
}.

Section Removal.
Context (d : float64) (D : f64_finite d = true) (P : (f64_zero < d)%float) (categories : list bytes).

Lemma removed_range_valid chapter r : removed_range (list_to_set categories) d chapter = Some r -> valid_range d r.
Proof.
  unfold removed_range. intros R. repeat (case_match; try done); simplify_eq; reflect_bools;
    constructor; simpl; try done; forder.
Qed.

Lemma removed_range_iff t chapter :
  f64_finite t = true -> (f64_zero <= t)%float -> (t < d)%float ->
  (exists r, removed_range (list_to_set categories) d chapter = Some r /\ in_range t r) <->
  removes categories t chapter.
Proof.
  intros T Z L. unfold removed_range, in_range. split.
  - intros (r & R & I & I'). repeat (case_match; try done); simplify_eq; reflect_bools; simpl in *;
      constructor; try done; try set_solver; apply within_iff; try fnum; split; forder.
  - intros [C ? ? F F' W]. apply within_iff in W as [? ?]; [|fnum..].
    rewrite bool_decide_true by set_solver. rewrite !bool_decide_false by done. rewrite F, F'. simpl.
    assert (E : forall s e, (s <= t)%float -> (t < e)%float -> f64_finite s = true -> f64_finite e = true ->
      (if (e <=? s)%float then None else Some (mkRange s e)) = Some (mkRange s e)).
    { intros s e ? ? ? ?. assert ((e <=? s)%float = false) as -> by forder. done. }
    destruct (Chapter_StartTime chapter <? f64_zero)%float eqn:?, (d <? Chapter_EndTime chapter)%float eqn:?;
      rewrite E by (done || forder); eexists; (split; [done|]); split; simpl; forder.
Qed.

End Removal.

(** ** Plans *)

(** what a plan holds when the planner gives one *)
Variant planned (chapters : list Chapter) (categories : list bytes) (d : float64) : CutPlan -> Prop :=
| planned_nothing : categories = [] -> planned chapters categories d (keep_everything d)
| planned_none : mergeRanges (omap (removed_range (list_to_set categories) d) chapters) = [] ->
    planned chapters categories d (keep_everything d)
| planned_cuts cuts keep kept :
    cuts = mergeRanges (omap (removed_range (list_to_set categories) d) chapters) ->
    keep = makeConcatOpts cuts d -> keep <> [] ->
    zlen cuts <= maxCutRanges -> forceKeyframeTimestampCount cuts <= MaxForceKeyframeTimestamps ->
    zlen keep <= MaxKeepSegments ->
    planned chapters categories d (mkCutPlan cuts keep kept).

Lemma PlanCuts_planned chapters categories d plan : PlanCuts chapters categories d = Ok plan ->
  f64_finite d = true /\ (f64_zero < d)%float /\ planned chapters categories d plan.
Proof.
  unfold PlanCuts. destruct (f64_finite d) eqn:D; [|done]. cbn [negb orb].
  destruct (d <=? f64_zero)%float eqn:Z; [done|]. cbn [orb].
  intros R. split_and!; [done|forder|]. do 2 (case_match; [done|]). case_match eqn:N; reflect_bools.
  { simplify_eq. apply planned_nothing. destruct categories; [done|set_solver]. }
  cbv zeta in R. do 1 (case_match; [done|]). case_match eqn:C; reflect_bools.
  { simplify_eq. apply planned_none. by apply length_zero_iff_nil. }
  repeat (case_match; try done); simplify_eq; reflect_bools. econstructor; try done. by intros ?%length_zero_iff_nil.
Qed.

Lemma raw_valid d categories chapters :
  f64_finite d = true -> (f64_zero < d)%float ->
  Forall (valid_range d) (omap (removed_range (list_to_set categories) d) chapters).
Proof.
  intros D P. apply Forall_forall. intros r (c & _ & R)%list_elem_of_omap.
  by apply removed_range_valid in R.
Qed.

Lemma raw_removes d categories chapters t :
  f64_finite d = true -> (f64_zero < d)%float -> f64_finite t = true -> (f64_zero <= t)%float -> (t < d)%float ->
  Exists (in_range t) (omap (removed_range (list_to_set categories) d) chapters) <->
  Exists (removes categories t) chapters.
Proof.
  intros D P T Z L. rewrite !Exists_exists. setoid_rewrite list_elem_of_omap. split.
  - intros (r & (c & C & R) & I). exists c. split; [done|]. apply (removed_range_iff d); eauto.
  - intros (c & C & R). apply (removed_range_iff d) in R as (r & R & I); eauto 7.
Qed.

(** the instant is in the segment *)
Definition plays (d t : float64) (segment : ConcatSegment) : Prop :=
  within t (segment_start segment) (segment_end d segment).

Lemma makeConcatOpts_nonempty d cuts : f64_finite d = true -> (f64_zero < d)%float ->
  Forall (fun segment => nonempty_segment d segment = true) (makeConcatOpts cuts d).
Proof.
  intros D P. unfold makeConcatOpts. destruct cuts.
  - constructor; [|done].
    change (negb (negb (f64_finite f64_zero) || negb (f64_finite d) || (d <=? f64_zero)%float) = true).
    assert ((d <=? f64_zero)%float = false) as -> by forder. by rewrite D.
  - apply List.Forall_forall. by intros s [_ ?]%filter_In.
Qed.

Lemma nonempty_plays d t segments : f64_finite t = true ->
  Forall (fun segment => nonempty_segment d segment = true) segments ->
  Exists (plays d t) segments <-> Exists (in_segment d t) segments.
Proof.
  intros T. induction 1 as [|s l N F IH]; [by rewrite !Exists_nil|]. rewrite !Exists_cons, IH.
  unfold nonempty_segment in N. reflect_bools. unfold plays, in_segment. rewrite within_iff by fnum. done.
Qed.

Lemma whole_file_plays d t : within t f64_zero d -> Exists (plays d t) [whole_file].
Proof. intros W. by constructor. Qed.

Lemma plan_keeps chapters categories d plan t :
  PlanCuts chapters categories d = Ok plan -> f64_finite t = true -> within t f64_zero d ->
  Exists (plays d t) (Keep plan) <-> ~ Exists (removes categories t) chapters.
Proof.
  intros (D & P & H)%PlanCuts_planned T W. pose proof W as W'. apply within_iff in W' as [Z L]; [|fnum..].
  rewrite <- (raw_removes d) by done.
  destruct (mergeRanges_spec d t _ (raw_valid d categories chapters D P)) as [A C].
  destruct H as [->|N|cuts keep kept -> -> ? ? ? ?]; cbn [Keep keep_everything].
  - split; [intros _|intros _; by apply whole_file_plays]. 
    rewrite raw_removes by done. intros (c & _ & [? _ _ _ _ _])%Exists_exists. set_solver.
  - split; [intros _|intros _; by apply whole_file_plays]. rewrite <- C, N. by intros ?%Exists_nil.
  - rewrite <- C, <- (makeConcatOpts_keeps d t) by done. apply nonempty_plays; [done|]. by apply makeConcatOpts_nonempty.
Qed.

(** the segments are played in order, none is empty, and there are at most
    [MaxKeepSegments] of them *)
Definition playable_keep (d : float64) (keep : list ConcatSegment) : Prop :=
  StronglySorted (segments_in_order d) keep /\
  Forall (fun segment => nonempty_segment d segment = true) keep /\
  1 <= zlen keep <= MaxKeepSegments.

Lemma plan_shape chapters categories d plan : PlanCuts chapters categories d = Ok plan ->
  cuts_apart d (Cuts plan) /\ zlen (Cuts plan) <= maxCutRanges /\ playable_keep d (Keep plan).
Proof.
  intros (D & P & H)%PlanCuts_planned. destruct H as [_|_|cuts keep kept -> -> N ? ? ?]; cbn [Keep Cuts keep_everything].
  1-2: split_and!; [done|done|]; change [whole_file] with (makeConcatOpts [] d);
    (split_and!; [by apply makeConcatOpts_sorted|by apply makeConcatOpts_nonempty|done|done]).
  destruct (mergeRanges_spec d d _ (raw_valid d categories chapters D P)) as [A _].
  split_and!; [done|done|]. split_and!; [by apply makeConcatOpts_sorted|by apply makeConcatOpts_nonempty| |done].
  unfold zlen in *. destruct (makeConcatOpts _ d); simpl; [done|lia].
Qed.

(** C24. A plan for a media file cuts ranges that are valid, in order and apart,
    and keeps at most [MaxKeepSegments] non-empty segments in playing order; an
    instant of the media is in a keep segment exactly when no chapter of a
    category to remove contains it. *)
Theorem plan_cuts_correct chapters categories d plan :
  PlanCuts chapters categories d = Ok plan ->
  cuts_apart d (Cuts plan) /\ zlen (Cuts plan) <= maxCutRanges /\ playable_keep d (Keep plan) /\
  forall t, f64_finite t = true -> within t f64_zero d ->
    Exists (plays d t) (Keep plan) <-> ~ Exists (removes categories t) chapters.
Proof.
  intros H. destruct (plan_shape _ _ _ _ H) as (? & ? & ?). split_and!; [done..|].
  intros t. by apply plan_keeps.
Qed.

Lemma plan_cuts_correct_witness :
  exists plan, PlanCuts [skip 40 50 "sponsor"; skip 0 10 "intro"; skip 45 60 "sponsor"; skip 70 80 "outro"]
                 [CategorySponsor] (seconds 100) = Ok plan /\
    length (Cuts plan) = 1%nat /\ playable_keep (seconds 100) (Keep plan) /\
    ~ Exists (plays (seconds 100) (seconds 55)) (Keep plan).
Proof.
  eexists. split; [vm_compute; reflexivity|]. split; [reflexivity|].
  match goal with |- playable_keep _ (Keep ?p) /\ _ =>
    assert (R : PlanCuts [skip 40 50 "sponsor"; skip 0 10 "intro"; skip 45 60 "sponsor"; skip 70 80 "outro"]
                 [CategorySponsor] (seconds 100) = Ok p) by (vm_compute; reflexivity)
  end.
  destruct (plan_cuts_correct _ _ _ _ R) as (_ & _ & S & K). split; [exact S|].
  intros X. apply K in X; [|vm_compute; reflexivity|split; vm_compute; reflexivity].
  apply X. do 2 right. left. constructor; [by left|discriminate|discriminate|vm_compute; reflexivity..|].
  split; vm_compute; reflexivity.
Defined.
