(* ===== verification/SponsorMark.v ===== *)
(** * Marked chapters ([internal/sponsorblock/mark.go])

    The chapters of a response are laid over the ordinary chapters of the media:
    the boundaries of both divide it into atomic chapters, tiny ones are merged
    into their neighbours, and sponsor chapters get a title.  Where the code
    changes slices in place, the loops here carry the element that the next
    iteration reads; a result under construction has its last element first.
    [sort.Float64s] is the stable sort by [<]: equal boundaries differ at most in
    the sign of a zero. *)
From S2P Require Import Prelude GoStrings Runes Value FilterNumber Filter Float64 SorterValues.
From S2P Require Import Ordering SorterFacts FloatOrder Sponsor SponsorCut.

#[local] Open Scope Z_scope.

Definition maxMarkedChapters : Z := 4000.
Definition tinyChapter : float64 := f64_one.

Record NormalChapter := mkNormalChapter {
  Normal_StartTime : float64;
  Normal_EndTime : float64;
  Normal_Title : bytes;
  Normal_Source : Z
}.

Record MarkedChapter := mkMarkedChapter {
  Marked_StartTime : float64;
  Marked_EndTime : float64;
  Marked_Title : bytes;
  Marked_Source : Z;
  Marked_Sponsor : bool;
  Marked_Category : bytes;
  Marked_Categories : list bytes;
  Marked_Name : bytes;
  Marked_CategoryNames : list bytes;
  Marked_Type : bytes;
  Marked_modified : bool
}.

#[global] Instance MarkedChapter_eta : Eta MarkedChapter :=
  fun c => mkMarkedChapter (Marked_StartTime c) (Marked_EndTime c) (Marked_Title c) (Marked_Source c) (Marked_Sponsor c)
             (Marked_Category c) (Marked_Categories c) (Marked_Name c) (Marked_CategoryNames c) (Marked_Type c)
             (Marked_modified c).

(** a chapter that is not a sponsor's *)
Definition plain_marked (start end_ : float64) (title : bytes) (source : Z) (modified : bool) : MarkedChapter :=
  mkMarkedChapter start end_ title source false [] [] [] [] [] modified.

(** ** Boundaries *)

Definition validRange (start end_ duration : float64) : bool :=
  f64_finite start && f64_finite end_ && (f64_zero <=? start)%float && (start <? end_)%float && (end_ <=? duration)%float.

Fixpoint unique_loop (last : float64) (input : list float64) : list float64 :=
  match input with
  | [] => []
  | boundary :: rest =>
      if negb (boundary =? last)%float then boundary :: unique_loop boundary rest else unique_loop last rest
  end.

Definition uniqueBoundaries (input : list float64) : list float64 :=
  match input with
  | [] => []
  | first :: rest => first :: unique_loop first rest
  end.

(** ** Atomic chapters *)

Fixpoint ordinaryAt (chapters : list NormalChapter) (start end_ : float64) : option NormalChapter :=
  match chapters with
  | [] => None
  | chapter :: rest =>
      if (Normal_StartTime chapter <=? start)%float && (end_ <=? Normal_EndTime chapter)%float then Some chapter
      else ordinaryAt rest start end_
  end.

Definition sponsorsAt (chapters : list Chapter) (start end_ : float64) : list Chapter :=
  List.filter (fun chapter => (Chapter_StartTime chapter <? end_)%float && (start <? Chapter_EndTime chapter)%float) chapters.

Definition appendUnique (values : list bytes) (value : bytes) : list bytes :=
  if bool_decide (value ∈ values) then values else values ++ [value].

Definition chapter_length (chapter : Chapter) : float64 := f64_sub (Chapter_EndTime chapter) (Chapter_StartTime chapter).

(** [active[shortest]] after the loop: the first of the shortest *)
Definition shortest_chapter (first : Chapter) (active : list Chapter) : Chapter :=
  foldl (fun shortest chapter => if (chapter_length chapter <? chapter_length shortest)%float then chapter else shortest)
    first active.

(** [active] is not empty at the call *)
Definition sponsorMarkedChapter (first : Chapter) (rest : list Chapter) (start end_ : float64) : MarkedChapter :=
  let active := first :: rest in
  let shortest := shortest_chapter first active in
  mkMarkedChapter start end_ [] (-1) true (Chapter_Category shortest)
    (foldl (fun categories chapter => appendUnique categories (Chapter_Category chapter)) [] active)
    (Chapter_Title shortest)
    (foldl (fun names chapter => appendUnique names (Chapter_Title chapter)) [] active)
    (Chapter_Type shortest) true.

(** the chapter between two boundaries *)
Definition atomic_chapter (normal : list NormalChapter) (sponsors : list Chapter) (videoTitle : bytes)
    (start end_ : float64) : MarkedChapter :=
  let base := default (mkNormalChapter start end_ videoTitle (-1)) (ordinaryAt normal start end_) in
  match sponsorsAt sponsors start end_ with
  | [] =>
      plain_marked start end_ (Normal_Title base) (Normal_Source base)
        (negb (start =? Normal_StartTime base)%float || negb (end_ =? Normal_EndTime base)%float)
  | first :: rest => sponsorMarkedChapter first rest start end_
  end.

Fixpoint atomic_loop (normal : list NormalChapter) (sponsors : list Chapter) (videoTitle : bytes)
    (start : float64) (boundaries : list float64) : list MarkedChapter :=
  match boundaries with
  | [] => []
  | end_ :: rest =>
      if (end_ <=? start)%float then atomic_loop normal sponsors videoTitle end_ rest
      else atomic_chapter normal sponsors videoTitle start end_ :: atomic_loop normal sponsors videoTitle end_ rest
  end.

Definition chapter_before (a b : Chapter) : bool :=
  if negb (Chapter_StartTime a =? Chapter_StartTime b)%float
  then (Chapter_StartTime a <? Chapter_StartTime b)%float
  else (Chapter_EndTime a <? Chapter_EndTime b)%float.

Definition chapter_boundaries (normal : list NormalChapter) (sponsors : list Chapter) (duration : float64) : list float64 :=
  f64_zero :: duration ::
  concat (map (fun chapter => [Normal_StartTime chapter; Normal_EndTime chapter]) normal) ++
  concat (map (fun chapter => [Chapter_StartTime chapter; Chapter_EndTime chapter]) sponsors).

Definition boundaries (normal : list NormalChapter) (sponsors : list Chapter) (duration : float64) : list float64 :=
  uniqueBoundaries (sort_stable f64_lt (chapter_boundaries normal sponsors duration)).

Definition atomic_chapters (normal : list NormalChapter) (sponsors : list Chapter) (duration : float64)
    (videoTitle : bytes) : list MarkedChapter :=
  match boundaries normal sponsors duration with
  | [] => []
  | first :: rest => atomic_loop normal sponsors videoTitle first rest
  end.

(** ** Tiny chapters *)

(** the next chapter starts where this one did *)
Definition absorb (chapter next : MarkedChapter) : MarkedChapter :=
  next <| Marked_StartTime := Marked_StartTime chapter |> <| Marked_modified := true |>.

Definition is_tiny (chapter : MarkedChapter) : bool :=
  Marked_modified chapter && negb (tinyChapter <=? f64_sub (Marked_EndTime chapter) (Marked_StartTime chapter))%float.

(** the tiny chapter goes to the next one rather than to the previous one *)
Definition joins_next (chapter previous next : MarkedChapter) : bool :=
  negb (Marked_Sponsor chapter) && Marked_Sponsor previous && negb (Marked_Sponsor next) ||
  Marked_Sponsor chapter && negb (Marked_Sponsor previous) && Marked_Sponsor next.

Fixpoint merge_tiny (result : list MarkedChapter) (chapter : MarkedChapter) (chapters : list MarkedChapter)
    : list MarkedChapter :=
  let continue result :=
    match chapters with
    | [] => result
    | next :: rest => merge_tiny result next rest
    end in
  if negb (is_tiny chapter) then continue (chapter :: result)
  else
    match result, chapters with
    | [], next :: rest => merge_tiny result (absorb chapter next) rest
    | [], [] => [chapter]
    | previous :: older, next :: rest =>
        if joins_next chapter previous next then merge_tiny result (absorb chapter next) rest
        else continue (previous <| Marked_EndTime := Marked_EndTime chapter |> :: older)
    | previous :: older, [] => previous <| Marked_EndTime := Marked_EndTime chapter |> :: older
    end.

Definition mergeTinyMarked (chapters : list MarkedChapter) : list MarkedChapter :=
  match chapters with
  | [] => []
  | chapter :: rest => rev (merge_tiny [] chapter rest)
  end.

(** ** Titles and runs of one sponsor *)

Definition title_fields (c : MarkedChapter) : ChapterTitleFields :=
  mkTitleFields (Marked_StartTime c) (Marked_EndTime c) (Marked_Category c) (Marked_Categories c)
    (Marked_Name c) (Marked_CategoryNames c).

Fixpoint render_titles (renderer : option ChapterTitleRenderer) (chapters : list MarkedChapter) : sres (list MarkedChapter) :=
  match chapters with
  | [] => Ok []
  | c :: rest =>
      c ← (if negb (Marked_Sponsor c) then Ok c
           else title ← renderChapterTitle renderer (title_fields c); Ok (c <| Marked_Title := title |>));
      rest ← render_titles renderer rest;
      Ok (c :: rest)
  end.

Fixpoint coalesce_loop (result chapters : list MarkedChapter) : list MarkedChapter :=
  match chapters with
  | [] => rev result
  | chapter :: rest =>
      if (Marked_EndTime chapter <=? Marked_StartTime chapter)%float then coalesce_loop result rest
      else
        match result with
        | last :: older =>
            if Marked_Sponsor chapter && Marked_Sponsor last && bool_decide (Marked_Title last = Marked_Title chapter) &&
               (Marked_EndTime last =? Marked_StartTime chapter)%float
            then coalesce_loop (last <| Marked_EndTime := Marked_EndTime chapter |> :: older) rest
            else coalesce_loop (chapter :: result) rest
        | [] => coalesce_loop [chapter] rest
        end
  end.

Definition coalesceMarkedSponsors (chapters : list MarkedChapter) : list MarkedChapter := coalesce_loop [] chapters.

(** ** Marking *)

Definition valid_normal (duration : float64) (chapter : NormalChapter) : bool :=
  validRange (Normal_StartTime chapter) (Normal_EndTime chapter) duration && (zlen (Normal_Title chapter) <=? MaxStringBytes).

Definition valid_sponsor (duration : float64) (chapter : Chapter) : bool :=
  validRange (Chapter_StartTime chapter) (Chapter_EndTime chapter) duration &&
  IsValidCategory (Chapter_Category chapter) && (zlen (Chapter_Title chapter) <=? MaxStringBytes).

(** the loop over the ordinary chapters, after [previous] *)
Fixpoint check_normal (duration : float64) (previous : option NormalChapter) (normal : list NormalChapter) : sres unit :=
  match normal with
  | [] => Ok tt
  | chapter :: rest =>
      if negb (valid_normal duration chapter) then Err (errorf SbInvalidInput "invalid ordinary chapter")
      else if match previous with Some p => (Normal_StartTime chapter <? Normal_EndTime p)%float | None => false end
      then Err (errorf SbInvalidInput "overlapping ordinary chapters")
      else check_normal duration (Some chapter) rest
  end.

Definition MarkChaptersWithTitle (normal : list NormalChapter) (sponsors : list Chapter) (duration : float64)
    (videoTitle : bytes) (renderer : option ChapterTitleRenderer) : sres (list MarkedChapter) :=
  if negb (f64_finite duration) || (duration <=? f64_zero)%float then Err (errorf SbInvalidInput "mark duration")
  else if (maxMarkedChapters <? zlen normal) || (MaxSegmentCount <? zlen sponsors)
  then Err (errorf SbInvalidInput "mark chapter limit")
  else
    _ ← check_normal duration None normal;
    if negb (forallb (valid_sponsor duration) sponsors) then Err (errorf SbInvalidInput "invalid sponsor chapter")
    else
      match sponsors with
      | [] =>
          match normal with
          | [] => Ok [plain_marked f64_zero duration videoTitle (-1) false]
          | _ =>
              Ok (map (fun chapter => plain_marked (Normal_StartTime chapter) (Normal_EndTime chapter)
                                        (Normal_Title chapter) (Normal_Source chapter) false) normal)
          end
      | _ =>
          let orderedSponsors := sort_stable chapter_before sponsors in
          if maxMarkedChapters * 2 + 2 <? zlen (boundaries normal orderedSponsors duration)
          then Err (errorf SbInvalidInput "mark boundary limit")
          else
            atomic ← render_titles renderer
                       (mergeTinyMarked (atomic_chapters normal orderedSponsors duration videoTitle));
            let result := coalesceMarkedSponsors atomic in
            if maxMarkedChapters <? zlen result then Err (errorf SbInvalidInput "marked chapter limit")
            else Ok result
      end.

Definition MarkChapters (normal : list NormalChapter) (sponsors : list Chapter) (duration : float64) (videoTitle : bytes)
    : sres (list MarkedChapter) :=
  MarkChaptersWithTitle normal sponsors duration videoTitle None.

(** ** Chapters after the cuts ([cut.go]) *)

Definition rewrite_chapter (cuts : list Range) (chapter : MarkedChapter) : option MarkedChapter :=
  let start := MapTimeThroughCuts (Marked_StartTime chapter) cuts in
  let end_ := MapTimeThroughCuts (Marked_EndTime chapter) cuts in
  if negb (f64_finite start) || negb (f64_finite end_) || (end_ <=? start)%float then None
  else Some (chapter <| Marked_StartTime := start |> <| Marked_EndTime := end_ |>).

Definition RewriteChapterTimes (chapters : list MarkedChapter) (cuts : list Range) : list MarkedChapter :=
  match cuts with
  | [] => chapters
  | _ => omap (rewrite_chapter cuts) chapters
  end.

(** ** Examples *)

Definition named (start end_ : Z) (category title : string) : Chapter :=
  mkChapter (seconds start) (seconds end_) (lit category) (lit title) ActionSkip.

Definition ordinary (start end_ : Z) (title : string) (source : Z) : NormalChapter :=
  mkNormalChapter (seconds start) (seconds end_) (lit title) source.

Example mark_example :
  match MarkChapters [ordinary 0 50 "A" 0; ordinary 50 100 "B" 1]
          [named 40 60 "sponsor" "Sponsor"; named 55 70 "intro" "Intro"] (seconds 100) (lit "V") with
  | Ok marked => map (fun c => (Marked_StartTime c, Marked_EndTime c, Marked_Title c, Marked_Source c)) marked
  | Err _ => []
  end =
  [ (seconds 0, seconds 40, lit "A", 0); (seconds 40, seconds 55, lit "[SponsorBlock]: Sponsor", -1);
    (seconds 55, seconds 60, lit "[SponsorBlock]: Sponsor, Intro", -1);
    (seconds 60, seconds 70, lit "[SponsorBlock]: Intro", -1); (seconds 70, seconds 100, lit "B", 1) ].
Proof. vm_compute. reflexivity. Qed.
