(* ===== verification/SponsorMarkFacts.v ===== *)
(** * Properties of marked chapters

    The marked chapters tile the media: each starts where the one before ends.
    Between two boundaries no chapter begins or ends, so an atomic chapter says
    of each of its instants what the response says of it. *)
From Stdlib Require Import Sorting.Sorted Sorting.Permutation.
From S2P Require Import Prelude GoStrings Runes Value FilterNumber Filter Float64 SorterValues.
From S2P Require Import Ordering SorterFacts FloatOrder Sponsor SponsorFacts SponsorCut SponsorMark.

#[local] Open Scope Z_scope.

(** ** Tilings *)

(** the chapters follow each other from [a] to [b], none of them empty *)
Fixpoint tiles (a : float64) (chapters : list MarkedChapter) (b : float64) : Prop :=
  match chapters with
  | [] => a = b
  | c :: rest => Marked_StartTime c = a /\ (a < Marked_EndTime c)%float /\ tiles (Marked_EndTime c) rest b
  end.

Lemma tiles_app a l r b : tiles a (l ++ r) b <-> exists m, tiles a l m /\ tiles m r b.
Proof. revert a. induction l as [|c l IH]; intros a; simpl; [naive_solver|]. rewrite IH. naive_solver. Qed.

(** a tiling under construction, its last chapter first *)
Definition laid (a : float64) (result : list MarkedChapter) (b : float64) : Prop := tiles a (rev result) b.

Lemma laid_cons a c result b :
  laid a (c :: result) b <->
  laid a result (Marked_StartTime c) /\ (Marked_StartTime c < Marked_EndTime c)%float /\ Marked_EndTime c = b.
Proof.
  unfold laid. simpl. rewrite tiles_app. simpl. split.
  - by intros (m & L & <- & ? & <-).
  - intros (? & ? & <-). eauto.
Qed.

Lemma laid_extend a c result b :
  laid a (c :: result) (Marked_EndTime c) -> (Marked_EndTime c < b)%float ->
  laid a (c <| Marked_EndTime := b |> :: result) b.
Proof. rewrite !laid_cons. intros (? & ? & _) ?. split_and!; [done|simpl; forder|done]. Qed.

(** ** Tiny chapters and runs *)

Lemma merge_tiny_laid a b : forall chapters result chapter,
  laid a result (Marked_StartTime chapter) -> (Marked_StartTime chapter < Marked_EndTime chapter)%float ->
  tiles (Marked_EndTime chapter) chapters b -> laid a (merge_tiny result chapter chapters) b.
Proof.
  induction chapters as [|next rest IH]; intros result chapter L O T.
  - assert (K : laid a (chapter :: result) b) by (apply laid_cons; by rewrite <- T).
    simpl. repeat case_match; try done; simplify_eq. 
    rewrite <- T. apply laid_cons in L as (? & ? & E). apply (laid_extend a m l); [by apply laid_cons|by rewrite E].
  - destruct T as (S & N & T).
    assert (A : forall r, laid a r (Marked_StartTime chapter) -> laid a (merge_tiny r (absorb chapter next) rest) b).
    { intros r R. apply IH; simpl; [done| |done]. forder. }
    assert (K : forall r, laid a r (Marked_EndTime chapter) -> laid a (merge_tiny r next rest) b).
    { intros r R. apply IH; [by rewrite S|by rewrite S|done]. }
    cbn [merge_tiny]. repeat case_match; simplify_eq; auto; apply K.
    + by apply laid_cons.
    + apply laid_cons in L as (? & ? & E). apply laid_extend; [by apply laid_cons|by rewrite E].
Qed.

Lemma mergeTinyMarked_tiles a chapters b : tiles a chapters b -> tiles a (mergeTinyMarked chapters) b.
Proof.
  destruct chapters as [|c rest]; [done|]. intros (S & O & T). apply merge_tiny_laid; [by symmetry|by rewrite S|done].
Qed.

(** rendering changes the titles of sponsor chapters only *)
Definition retitled (c c' : MarkedChapter) : Prop :=
  exists title, c' = c <| Marked_Title := title |> /\ (Marked_Sponsor c = false -> title = Marked_Title c).

Lemma render_titles_retitled renderer chapters out :
  render_titles renderer chapters = Ok out -> Forall2 retitled chapters out.
Proof.
  revert out. induction chapters as [|c rest IH]; simpl; intros out R; [by simplify_eq|].
  destruct (Marked_Sponsor c) eqn:S; simpl in R.
  - destruct (renderChapterTitle renderer (title_fields c)) as [title|]; simpl in R; [|done].
    destruct (render_titles renderer rest); simpl in R; simplify_eq. constructor; [|auto]. exists title.
    split; simpl; by rewrite S.
  - destruct (render_titles renderer rest); simpl in R; simplify_eq. constructor; [|auto].
    exists (Marked_Title c). by destruct c.
Qed.

Lemma retitled_tiles a l l' b : Forall2 retitled l l' -> tiles a l b -> tiles a l' b.
Proof.
  intros F. revert a. induction F as [|c c' l l' (title & -> & _) F IH]; intros a; [done|]. simpl. naive_solver.
Qed.

Lemma coalesce_laid a b chapters result m :
  laid a result m -> tiles m chapters b -> tiles a (coalesce_loop result chapters) b.
Proof.
  revert result m. induction chapters as [|c rest IH]; intros result m L T; simpl.
  { by rewrite <- T. }
  destruct T as (S & O & T). subst m. case_match eqn:E; [forder|].
  assert (K : laid a (c :: result) (Marked_EndTime c)) by by apply laid_cons.
  destruct result as [|last older]; [by apply (IH _ _ K)|]. case_match; [|by apply (IH _ _ K)].
  eapply IH; [|done]. apply laid_cons in L as (? & ? & E'). apply laid_extend; [by apply laid_cons|by rewrite E'].
Qed.

(** ** Boundaries *)

Fixpoint climbs (a : float64) (l : list float64) : Prop :=
  match l with
  | [] => True
  | b :: rest => (a < b)%float /\ climbs b rest
  end.

Lemma unique_sub last input b : b ∈ unique_loop last input -> b ∈ input.
Proof. revert last. induction input as [|x input IH]; intros last; simpl; [done|]. case_match; set_solver. Qed.

Lemma unique_climbs last input :
  number last -> Forall number input -> StronglySorted FloatKeys.le (last :: input) -> climbs last (unique_loop last input).
Proof.
  intros N F. revert last N. induction F as [|x input X F IH]; intros last N S; [done|].
  apply StronglySorted_inv in S as [S B]. pose proof S as S'. apply StronglySorted_inv in S' as [S' _].
  apply Forall_cons in B as [? B]. simpl. case_match eqn:E; reflect_bools.
  - split; [forder|by apply IH].
  - apply IH; [done|]. by constructor.
Qed.

Lemma unique_covers last input b :
  number last -> Forall number input -> b ∈ last :: input -> exists b', b' ∈ last :: unique_loop last input /\ (b' == b)%float.
Proof.
  intros N F. revert last N. induction F as [|x input X F IH]; intros last N I.
  - apply list_elem_of_singleton in I as ->. exists last. split; [by left|]. reflexivity.
  - simpl. case_match eqn:E; reflect_bools.
    + apply elem_of_cons in I as [->|I]; [exists last; split; [by left|reflexivity]|].
      destruct (IH x X I) as (b' & ? & ?). exists b'. split; [by right|done].
    + rewrite !elem_of_cons in I. destruct I as [->|[->|I]]; [apply IH; [done|by left]| |apply IH; [done|by right]].
      exists last. split; [by left|]. forder.
Qed.

Lemma climbs_above a l b : climbs a l -> b ∈ a :: l -> (a <= b)%float.
Proof.
  revert a. induction l as [|x l IH]; intros a; simpl.
  - intros _ ->%list_elem_of_singleton. FloatTac.order.
  - intros [? C] [->|I]%elem_of_cons; [FloatTac.order|]. specialize (IH x C I). forder.
Qed.

(** the last boundary *)
Fixpoint summit (a : float64) (l : list float64) : float64 :=
  match l with
  | [] => a
  | b :: rest => summit b rest
  end.

Lemma summit_above a l b : climbs a l -> b ∈ a :: l -> (b <= summit a l)%float.
Proof.
  revert a b. induction l as [|x l IH]; intros a b; simpl.
  - intros _ ->%list_elem_of_singleton. FloatTac.order.
  - intros [? C] [->|I]%elem_of_cons; [|by apply IH]. specialize (IH x x C ltac:(by left)). forder.
Qed.

Lemma summit_in a l : summit a l ∈ a :: l.
Proof. revert a. induction l as [|x l IH]; intros a; simpl; [by left|]. right. apply IH. Qed.

(** the times of the valid chapters *)
Record timeline (d : float64) (normal : list NormalChapter) (sponsors : list Chapter) : Prop := {
  tl_finite : f64_finite d = true;
  tl_positive : (f64_zero < d)%float;
  tl_normal : Forall (fun c => validRange (Normal_StartTime c) (Normal_EndTime c) d = true) normal;
  tl_sponsors : Forall (fun c => validRange (Chapter_StartTime c) (Chapter_EndTime c) d = true) sponsors
}.

Definition in_media (d x : float64) : Prop := f64_finite x = true /\ (f64_zero <= x)%float /\ (x <= d)%float.

Lemma validRange_spec a b d : validRange a b d = true ->
  f64_finite a = true /\ f64_finite b = true /\ (f64_zero <= a)%float /\ (a < b)%float /\ (b <= d)%float.
Proof. unfold validRange. intros. reflect_bools. float_hyps. auto. Qed.

Lemma validRange_media a b d : validRange a b d = true -> Forall (in_media d) [a; b].
Proof.
  intros (? & ? & ? & ? & ?)%validRange_spec.
  constructor; [|constructor; [|done]]; (split_and!; [done|forder|forder]).
Qed.

Lemma elem_of_pairs {A} (f g : A -> float64) (l : list A) x :
  x ∈ concat (map (fun c => [f c; g c]) l) <-> exists c, c ∈ l /\ x ∈ [f c; g c].
Proof.
  induction l as [|c l IH]; cbn [map concat]; [set_solver|]. rewrite elem_of_app, IH. set_solver.
Qed.

Section Timeline.
Context (d : float64) (normal : list NormalChapter) (sponsors : list Chapter) (TL : timeline d normal sponsors).

Lemma chapter_boundaries_media : Forall (in_media d) (chapter_boundaries normal sponsors d).
Proof.
  destruct TL as [D P N S]. unfold chapter_boundaries. constructor; [split_and!; [done|forder|forder]|].
  constructor; [split_and!; [done|forder|forder]|]. apply Forall_app.
  split; apply Forall_forall; intros x (c & C & X)%elem_of_pairs; revert x X; apply Forall_forall, validRange_media.
  - by eapply Forall_forall in N.
  - by eapply Forall_forall in S.
Qed.

(** the boundaries climb from 0 to the end of the media, and every time of a
    chapter is among them *)
Lemma boundaries_spec : exists first rest,
  boundaries normal sponsors d = first :: rest /\ climbs first rest /\
  (first == f64_zero)%float /\ (summit first rest == d)%float /\ Forall (in_media d) (first :: rest) /\
  (forall x, x ∈ chapter_boundaries normal sponsors d -> exists b, b ∈ first :: rest /\ (b == x)%float).
Proof.
  unfold boundaries. pose proof chapter_boundaries_media as M.
  pose proof (sorted_Permutation f64_lt (chapter_boundaries normal sponsors d)) as Q.
  assert (S : StronglySorted FloatKeys.le (sort_stable f64_lt (chapter_boundaries normal sponsors d))).
  { apply (sort_sorted (in_media d)); [intros x y z ? ?; forder| | |done]; intros x y (? & ? & ?) (? & ? & ?) ?; forder. }
  destruct (sort_stable f64_lt (chapter_boundaries normal sponsors d)) as [|first input] eqn:E.
  { by apply Permutation_nil_l in Q. }
  exists first, (unique_loop first input). rewrite <- Q in M. 
  assert (F : Forall number (first :: input)) by (eapply Forall_impl; [exact M|]; intros x [? _]; fnum).
  apply Forall_cons in F as [F F'].
  assert (C : climbs first (unique_loop first input)) by by apply unique_climbs.
  assert (V : forall x, x ∈ chapter_boundaries normal sponsors d ->
    exists b, b ∈ first :: unique_loop first input /\ (b == x)%float).
  { intros x X. rewrite <- Q in X. by apply unique_covers. }
  assert (M' : Forall (in_media d) (first :: unique_loop first input)).
  { apply Forall_cons in M as [? M]. constructor; [done|]. apply Forall_forall. intros x X%unique_sub.
    by eapply Forall_forall in M. }
  split_and!; try done.
  - destruct (V f64_zero) as (b & B & ?); [by left|]. pose proof (climbs_above _ _ _ C B).
    apply Forall_cons in M as [(? & ? & ?) _]. forder.
  - destruct (V d) as (b & B & ?); [right; by left|]. pose proof (summit_above _ _ _ C B).
    pose proof (summit_in first (unique_loop first input)) as I. eapply Forall_forall in M' as (? & ? & ?); [|exact I]. forder.
Qed.

End Timeline.

(** ** What a chapter says of an instant *)

Definition chapter_contains (t : float64) (p : Chapter) : bool :=
  (Chapter_StartTime p <=? t)%float && (t <? Chapter_EndTime p)%float.
Definition normal_contains (t : float64) (n : NormalChapter) : bool :=
  (Normal_StartTime n <=? t)%float && (t <? Normal_EndTime n)%float.

(** the instant is a sponsor's exactly when a segment of the response contains
    it, and else it has the title and the source of the ordinary chapter that
    contains it *)
Record tells (normal : list NormalChapter) (sponsors : list Chapter) (videoTitle : bytes) (t : float64)
    (c : MarkedChapter) : Prop := {
  tell_sponsor : Marked_Sponsor c = existsb (chapter_contains t) sponsors;
  tell_ordinary : Marked_Sponsor c = false ->
    (Marked_Title c, Marked_Source c) =
    match List.find (normal_contains t) normal with
    | Some n => (Normal_Title n, Normal_Source n)
    | None => (videoTitle, -1)
    end
}.

Definition tells_all normal sponsors videoTitle (c : MarkedChapter) : Prop :=
  forall t, f64_finite t = true -> within t (Marked_StartTime c) (Marked_EndTime c) ->
  tells normal sponsors videoTitle t c.

Lemma ordinaryAt_find normal s e p :
  (forall n, n ∈ normal -> (Normal_StartTime n <=? s)%float && (e <=? Normal_EndTime n)%float = p n) ->
  ordinaryAt normal s e = List.find p normal.
Proof.
  induction normal as [|n normal IH]; intros H; [done|]. simpl. rewrite H by (by left). rewrite IH; [done|].
  intros m M. apply H. by right.
Qed.

Lemma filter_existsb {A} (p : A -> bool) l :
  match List.filter p l with [] => false | _ :: _ => true end = existsb p l.
Proof. induction l as [|x l IH]; [done|]. simpl. by destruct (p x). Qed.

Section Instants.
Context (d : float64) (normal : list NormalChapter) (sponsors : list Chapter) (TL : timeline d normal sponsors).
Context (videoTitle : bytes).

(** no chapter begins or ends between the two boundaries *)
Definition undivided (s e : float64) : Prop :=
  forall x, x ∈ chapter_boundaries normal sponsors d -> (x <= s)%float \/ (e <= x)%float.

(** an interval that the boundaries do not divide meets a chapter when it is
    inside of it *)
Lemma undivided_cases a b s e t :
  number a -> number b -> number s -> number e -> number t ->
  (s <= t)%float -> (t < e)%float -> (a <= s)%float \/ (e <= a)%float -> (b <= s)%float \/ (e <= b)%float ->
  (a <? e)%float && (s <? b)%float = (a <=? t)%float && (t <? b)%float /\
  (a <=? s)%float && (e <=? b)%float = (a <=? t)%float && (t <? b)%float.
Proof.
  intros A B S E T ? ? [?|?] [?|?].
  - assert ((t <? b)%float = false) as -> by forder. assert ((s <? b)%float = false) as -> by forder.
    assert ((e <=? b)%float = false) as -> by forder. by rewrite !andb_false_r.
  - assert ((a <? e)%float = true) as -> by forder. assert ((s <? b)%float = true) as -> by forder.
    assert ((a <=? s)%float = true) as -> by forder. assert ((e <=? b)%float = true) as -> by forder.
    assert ((a <=? t)%float = true) as -> by forder. by assert ((t <? b)%float = true) as -> by forder.
  - assert ((a <? e)%float = false) as -> by forder. assert ((a <=? s)%float = false) as -> by forder.
    by assert ((a <=? t)%float = false) as -> by forder.
  - assert ((a <? e)%float = false) as -> by forder. assert ((a <=? s)%float = false) as -> by forder.
    by assert ((a <=? t)%float = false) as -> by forder.
Qed.

Lemma sponsor_times p x : p ∈ sponsors -> x ∈ [Chapter_StartTime p; Chapter_EndTime p] ->
  x ∈ chapter_boundaries normal sponsors d.
Proof.
  intros P X. unfold chapter_boundaries. rewrite !elem_of_cons, elem_of_app. do 3 right. apply elem_of_pairs. eauto.
Qed.

Lemma normal_times n x : n ∈ normal -> x ∈ [Normal_StartTime n; Normal_EndTime n] ->
  x ∈ chapter_boundaries normal sponsors d.
Proof.
  intros P X. unfold chapter_boundaries. rewrite !elem_of_cons, elem_of_app. do 2 right. left. apply elem_of_pairs. eauto.
Qed.

Lemma boundary_number x : x ∈ chapter_boundaries normal sponsors d -> number x.
Proof.
  intros X. pose proof (chapter_boundaries_media d normal sponsors TL) as M.
  eapply Forall_forall in M as [? _]; [|exact X]. fnum.
Qed.

Lemma atomic_tells s e : in_media d s -> in_media d e -> undivided s e ->
  tells_all normal sponsors videoTitle (atomic_chapter normal sponsors videoTitle s e).
Proof.
  intros (S & _ & _) (E & _ & _) U t T W.
  assert (W' : within t s e) by (unfold atomic_chapter in W; by case_match). clear W.
  apply within_iff in W' as [? ?]; [|fnum..].
  assert (K : forall a b, a ∈ chapter_boundaries normal sponsors d -> b ∈ chapter_boundaries normal sponsors d ->
    (a <? e)%float && (s <? b)%float = (a <=? t)%float && (t <? b)%float /\
    (a <=? s)%float && (e <=? b)%float = (a <=? t)%float && (t <? b)%float).
  { intros a b A B. apply undivided_cases; auto using boundary_number, finite_number. }
  assert (FS : sponsorsAt sponsors s e = List.filter (chapter_contains t) sponsors).
  { apply List.filter_ext_in. intros p P%list_elem_of_In.
    apply K; eapply sponsor_times; try exact P; [by left|right; by left]. }
  assert (FN : ordinaryAt normal s e = List.find (normal_contains t) normal).
  { apply ordinaryAt_find. intros n N. apply K; eapply normal_times; try exact N; [by left|right; by left]. }
  unfold atomic_chapter. rewrite FS, FN.
  constructor; rewrite <- ?filter_existsb; destruct (List.filter (chapter_contains t) sponsors); simpl; try done.
  intros _. by destruct (List.find (normal_contains t) normal).
Qed.

Lemma atomic_loop_tiles s rest : climbs s rest ->
  tiles s (atomic_loop normal sponsors videoTitle s rest) (summit s rest).
Proof.
  revert s. induction rest as [|e rest IH]; intros s C; [done|]. destruct C as [L C]. simpl.
  destruct (e <=? s)%float eqn:E; [exfalso; forder|]. simpl.
  assert (Marked_StartTime (atomic_chapter normal sponsors videoTitle s e) = s /\
          Marked_EndTime (atomic_chapter normal sponsors videoTitle s e) = e) as [-> ->] by (unfold atomic_chapter; by case_match).
  auto.
Qed.

Lemma atomic_loop_tells s rest : climbs s rest -> Forall (in_media d) (s :: rest) ->
  (forall x, x ∈ chapter_boundaries normal sponsors d -> (x <= s)%float \/ exists b, b ∈ rest /\ (b == x)%float) ->
  Forall (tells_all normal sponsors videoTitle) (atomic_loop normal sponsors videoTitle s rest).
Proof.
  revert s. induction rest as [|e rest IH]; intros s C M U; [constructor|]. pose proof C as C'. destruct C as [L C]. simpl.
  destruct (e <=? s)%float eqn:E; [exfalso; forder|]. apply Forall_cons in M as [? M]. pose proof M as M'.
  apply Forall_cons in M' as [? M']. constructor.
  - apply atomic_tells; [done..|]. intros x X. destruct (U x X) as [?|(b & B & ?)]; [by left|right].
    pose proof (climbs_above _ _ _ C B). forder.
  - apply IH; [done..|]. intros x X. destruct (U x X) as [?|(b & [->|B]%elem_of_cons & ?)]; [left; forder|left; forder|eauto].
Qed.

End Instants.

(** ** The pipeline *)

Lemma no_tiny_merge chapters result chapter :
  Forall (fun c => is_tiny c = false) (chapter :: chapters) ->
  merge_tiny result chapter chapters = rev chapters ++ chapter :: result.
Proof.
  revert result chapter. induction chapters as [|next rest IH]; intros result chapter F;
    apply Forall_cons in F as [T F]; cbn [merge_tiny]; rewrite T; [done|].
  simpl negb. cbv beta iota. rewrite IH by done. simpl. by rewrite <- app_assoc.
Qed.

Lemma no_tiny_merged chapters : existsb is_tiny chapters = false -> mergeTinyMarked chapters = chapters.
Proof.
  intros E. assert (F : Forall (fun c => is_tiny c = false) chapters).
  { apply List.Forall_forall. intros c C. apply not_true_is_false. intros T.
    rewrite (proj2 (existsb_exists _ _)) in E; [done|eauto]. }
  destruct chapters as [|c rest]; [done|]. unfold mergeTinyMarked. rewrite no_tiny_merge by done.
  by rewrite rev_app_distr, rev_involutive.
Qed.

Lemma retitled_tells normal sponsors videoTitle l l' :
  Forall2 retitled l l' -> Forall (tells_all normal sponsors videoTitle) l -> Forall (tells_all normal sponsors videoTitle) l'.
Proof.
  induction 1 as [|c c' l l' (title & -> & N) F IH]; intros A; [constructor|].
  apply Forall_cons in A as [H A]. constructor; [|auto]. intros t T W. destruct (H t T W) as [X Y].
  constructor; simpl; [done|]. intros S. rewrite N by done. auto.
Qed.

Lemma f64_eq_numbers x y : (x =? y)%float = true -> number x /\ number y.
Proof. unfold f64_eq, SFeqb. destruct (SFcompare x y) eqn:C; [|done]. intros _. by apply compared_numbers in C. Qed.

Lemma coalesce_tells normal sponsors videoTitle chapters : forall result,
  Forall (tells_all normal sponsors videoTitle) result -> Forall (tells_all normal sponsors videoTitle) chapters ->
  Forall (tells_all normal sponsors videoTitle) (coalesce_loop result chapters).
Proof.
  induction chapters as [|c rest IH]; intros result R A; simpl; [by apply Forall_rev|].
  apply Forall_cons in A as [C A]. case_match; [auto|]. destruct result as [|last older]; [auto|].
  case_match eqn:E; [|auto]. apply IH; [|done]. apply Forall_cons in R as [L R]. constructor; [|done].
  reflect_bools. assert (number (Marked_EndTime last) /\ number (Marked_StartTime c)) as [? ?] by by apply f64_eq_numbers.
  intros t T [W W']. simpl in W, W'.
  destruct (t <? Marked_EndTime last)%float eqn:B.
  - destruct (L t T (conj W B)) as [X Y]. constructor; simpl; [done|]. congruence.
  - assert (W2 : within t (Marked_StartTime c) (Marked_EndTime c)) by (split; [forder|done]).
    destruct (C t T W2) as [X Y]. constructor; simpl; congruence.
Qed.

Lemma check_normal_valid d previous normal : check_normal d previous normal = Ok tt ->
  Forall (fun c => validRange (Normal_StartTime c) (Normal_EndTime c) d = true) normal.
Proof.
  revert previous. induction normal as [|c normal IH]; intros previous; simpl; [constructor|].
  unfold valid_normal. repeat (case_match; try done); intros K; reflect_bools; constructor; eauto.
Qed.

(** what marking does when there are sponsors *)
Record marked (normal : list NormalChapter) (sponsors : list Chapter) (d : float64) (videoTitle : bytes)
    (out : list MarkedChapter) : Prop := {
  mk_timeline : timeline d normal (sort_stable chapter_before sponsors);
  mk_limit : zlen out <= maxMarkedChapters;
  mk_pipeline : exists titled,
    Forall2 retitled (mergeTinyMarked (atomic_chapters normal (sort_stable chapter_before sponsors) d videoTitle)) titled /\
    out = coalesceMarkedSponsors titled
}.

Lemma MarkChapters_marked normal sponsors d videoTitle renderer out :
  sponsors <> [] -> MarkChaptersWithTitle normal sponsors d videoTitle renderer = Ok out ->
  marked normal sponsors d videoTitle out.
Proof.
  intros N. unfold MarkChaptersWithTitle. destruct (f64_finite d) eqn:D; [|done]. cbn [negb orb].
  destruct (d <=? f64_zero)%float eqn:Z; [done|]. cbn [orb]. case_match; [done|].
  destruct (check_normal d None normal) as [[]|] eqn:K; [|done]. simpl mbind.
  destruct (forallb (valid_sponsor d) sponsors) eqn:V; [|done]. cbn [negb].
  destruct sponsors as [|p sponsors]; [done|]. set (all := p :: sponsors) in *. case_match; [done|]. intros R.
  destruct (render_titles renderer _) as [titled|] eqn:T in R; [|done]. simpl in R.
  case_match; [done|]. simplify_eq. reflect_bools. constructor; [|lia|exists titled; eauto using render_titles_retitled].
  constructor; [done|forder|by eapply check_normal_valid|]. rewrite sorted_Permutation.
  apply Forall_forall. intros c C%list_elem_of_In. rewrite forallb_forall in V. specialize (V c C).
  unfold valid_sponsor in V. by reflect_bools.
Qed.

Lemma atomic_chapters_spec d normal sponsors videoTitle : timeline d normal sponsors ->
  (exists a b, (a == f64_zero)%float /\ (b == d)%float /\ in_media d a /\ in_media d b /\
     tiles a (atomic_chapters normal sponsors d videoTitle) b) /\
  Forall (tells_all normal sponsors videoTitle) (atomic_chapters normal sponsors d videoTitle).
Proof.
  intros TL. destruct (boundaries_spec d normal sponsors TL) as (first & rest & B & C & F & S & M & U).
  unfold atomic_chapters. rewrite B. split.
  - exists first, (summit first rest). split_and!; [done|done|by apply Forall_cons in M as [? _]| |by apply atomic_loop_tiles].
    eapply Forall_forall in M; [exact M|apply summit_in].
  - apply (atomic_loop_tells d); [done..|]. intros x X. destruct (U x X) as (b & [->|?]%elem_of_cons & ?); [left; forder|eauto].
Qed.

Lemma existsb_sorted t sponsors :
  existsb (chapter_contains t) (sort_stable chapter_before sponsors) = existsb (chapter_contains t) sponsors.
Proof.
  apply eq_true_iff_eq. rewrite !existsb_exists.
  assert (E : forall x, In x (sort_stable chapter_before sponsors) <-> In x sponsors).
  { intros x. by rewrite <- !list_elem_of_In, sorted_Permutation. }
  by setoid_rewrite E.
Qed.

Lemma tells_sorted normal sponsors videoTitle t c :
  tells normal (sort_stable chapter_before sponsors) videoTitle t c -> tells normal sponsors videoTitle t c.
Proof. intros [S O]. constructor; [|done]. by rewrite <- existsb_sorted. Qed.

(** ** Properties *)

(** C26. The marked chapters of a media file with sponsors tile it: the first
    starts at 0, each of the others where the one before ends, the last ends with
    the media, none is empty, and there are at most [maxMarkedChapters]. *)
Theorem mark_chapters_tile normal sponsors d videoTitle renderer out :
  sponsors <> [] -> MarkChaptersWithTitle normal sponsors d videoTitle renderer = Ok out ->
  zlen out <= maxMarkedChapters /\
  exists a b, (a =? f64_zero)%float = true /\ (b =? d)%float = true /\ tiles a out b.
Proof.
  intros N [TL L (titled & R & ->)]%MarkChapters_marked; [|done]. split; [done|].
  destruct (atomic_chapters_spec _ _ _ videoTitle TL) as [(a & b & A & B & [? _] & [? _] & T) _].
  pose proof (tl_finite _ _ _ TL). exists a, b. split_and!; [forder|forder|].
  apply (coalesce_laid a b titled [] a); [done|]. eapply retitled_tiles; [exact R|]. by apply mergeTinyMarked_tiles.
Qed.

Lemma mark_chapters_tile_witness :
  exists out, MarkChaptersWithTitle [ordinary 0 50 "A" 0; ordinary 50 100 "B" 1]
                [named 40 60 "sponsor" "Sponsor"; named 55 70 "intro" "Intro"] (seconds 100) (lit "V") None = Ok out /\
    length out = 5%nat /\ exists a b, tiles a out b.
Proof.
  eexists. split; [vm_compute; reflexivity|]. split; [reflexivity|].
  destruct (mark_chapters_tile [ordinary 0 50 "A" 0; ordinary 50 100 "B" 1]
    [named 40 60 "sponsor" "Sponsor"; named 55 70 "intro" "Intro"] (seconds 100) (lit "V") None _
    ltac:(discriminate) ltac:(vm_compute; reflexivity)) as (_ & a & b & _ & _ & T).
  exists a, b. exact T.
Defined.

(** C27. When no atomic chapter is tiny, a marked chapter says of each of its
    instants what the inputs say: it is a sponsor chapter exactly when a segment
    contains the instant, and else it has the title and the source of the
    ordinary chapter that contains it, or the title of the video. *)
Theorem mark_chapters_exact normal sponsors d videoTitle renderer out c t :
  sponsors <> [] -> MarkChaptersWithTitle normal sponsors d videoTitle renderer = Ok out ->
  existsb is_tiny (atomic_chapters normal (sort_stable chapter_before sponsors) d videoTitle) = false ->
  c ∈ out -> f64_finite t = true -> within t (Marked_StartTime c) (Marked_EndTime c) ->
  tells normal sponsors videoTitle t c.
Proof.
  intros N [TL _ (titled & R & ->)]%MarkChapters_marked NT C T W; [|done]. apply tells_sorted.
  rewrite no_tiny_merged in R by done. destruct (atomic_chapters_spec _ _ _ videoTitle TL) as [_ A].
  apply (retitled_tells _ _ _ _ _ R) in A. apply (coalesce_tells _ _ _ _ []) in A; [|constructor].
  eapply Forall_forall in A; [|exact C]. by apply A.
Qed.

Definition example_normal : list NormalChapter := [ordinary 0 50 "A" 0; ordinary 50 100 "B" 1].
Definition example_sponsors : list Chapter := [named 40 60 "sponsor" "Sponsor"].
Definition example_marked : MarkedChapter := Eval vm_compute in
  mkMarkedChapter (seconds 40) (seconds 60) (lit "[SponsorBlock]: Sponsor") (-1) true CategorySponsor [CategorySponsor]
    (lit "Sponsor") [lit "Sponsor"] ActionSkip true.
Definition example_out : list MarkedChapter := Eval vm_compute in
  [plain_marked (seconds 0) (seconds 40) (lit "A") 0 true; example_marked;
   plain_marked (seconds 60) (seconds 100) (lit "B") 1 true].

Lemma mark_chapters_exact_witness :
  MarkChaptersWithTitle example_normal example_sponsors (seconds 100) (lit "V") None = Ok example_out /\
  tells example_normal example_sponsors (lit "V") (seconds 45) example_marked.
Proof.
  assert (E : MarkChaptersWithTitle example_normal example_sponsors (seconds 100) (lit "V") None = Ok example_out)
    by (vm_compute; reflexivity).
  split; [exact E|].
  apply (mark_chapters_exact example_normal example_sponsors (seconds 100) (lit "V") None example_out example_marked (seconds 45));
    [discriminate|exact E|vm_compute; reflexivity|apply list_elem_of_further, list_elem_of_here|
     vm_compute; reflexivity|split; vm_compute; reflexivity].
Defined.
