(* ===== verification/SponsorPipeline.v ===== *)
(** * From a response to marked chapters

    What the normalization promises, marking accepts: with up to a thousand
    ordinary chapters and segments in all, the chapters of a response are always
    marked. *)
From Stdlib Require Import Sorting.Sorted Sorting.Permutation.
From S2P Require Import Prelude GoStrings Runes Value FilterNumber Filter Float64 SorterValues.
From S2P Require Import Ordering SorterFacts FloatOrder Sponsor SponsorFacts SponsorDecode SponsorCut SponsorMark SponsorMarkFacts.

#[local] Open Scope Z_scope.

(** ** Normalized segments *)

Lemma add_number l r : f64_finite l = true -> f64_finite r = true -> number (f64_add l r).
Proof. destruct l as [| | |], r as [| | |]; try done; simpl; intros _ _; try by destruct s, s0. apply normalize_number. Qed.

Lemma one_finite : f64_finite f64_one = true.
Proof. reflexivity. Qed.
#[local] Hint Resolve add_number one_finite : floats.
#[local] Hint Extern 1 (number (if _ then _ else _)) => case_match : floats.

Record normalized (d : float64) (segment s : RawSegment) : Prop := {
  nz_category : Segment_Category s = Segment_Category segment /\ IsValidCategory (Segment_Category s) = true;
  nz_action : Segment_ActionType s = Segment_ActionType segment /\ IsValidAction (Segment_ActionType s) = true;
  nz_description : Segment_Description s = Segment_Description segment;
  nz_range : validRange (Segment_start s) (Segment_end s) d = true
}.

Lemma validRange_intro a b d : f64_finite a = true -> number b -> f64_finite d = true ->
  (f64_zero <= a)%float -> (a < b)%float -> (b <= d)%float -> validRange a b d = true.
Proof.
  intros A B D ? ? ?. assert (f64_finite b = true) by (eapply (finite_between a b d); [done..|forder|done]).
  unfold validRange. rewrite !andb_true_iff. split_and!; [done|done|forder..].
Qed.

Lemma normalizeSegment_valid segment d s m : known d = true ->
  normalizeSegmentDetailed segment true d = (Some s, m) -> normalized d segment s.
Proof.
  unfold known. intros K. apply andb_true_iff in K as [K D]. unfold normalizeSegmentDetailed. cbv zeta.
  do 5 (case_match; [done|]).
  set (start := if (Segment_start segment <=? f64_one)%float then f64_zero else Segment_start segment).
  set (e0 := if IsPOI (Segment_Category segment) then _ else _).
  destruct (e0 <=? start)%float; [done|]. cbn [andb].
  set (e1 := if (f64_sub d e0 <=? f64_one)%float then d else e0).
  destruct (e1 <=? start)%float; [done|]. set (e2 := if (d <? e1)%float then d else e1).
  destruct (e2 <=? start)%float eqn:O; [done|]. case_match; [done|]. intros R. simplify_eq. reflect_bools.
  assert (N0 : number e0) by (unfold e0; case_match; fnum).
  assert (N1 : number e1) by (unfold e1; case_match; fnum).
  assert (N2 : number e2) by (unfold e2; case_match; fnum).
  assert (F : f64_finite start = true) by (unfold start; by case_match).
  split; simpl; [done|done|done|]. apply validRange_intro; [done..| | |].
  - unfold start. case_match; forder.
  - forder.
  - unfold e2. case_match eqn:E; forder.
Qed.

Lemma normalize_loop_valid segments d : known d = true ->
  Forall (fun s => exists segment, segment ∈ segments /\ normalized d segment s) (normalize_loop segments true d).1.
Proof.
  intros K. induction segments as [|segment rest IH]; simpl; [constructor|].
  destruct (normalizeSegmentDetailed segment true d) as [o m] eqn:E.
  destruct (normalize_loop rest true d) as [filtered mm]. simpl in *.
  assert (F : Forall (fun s => exists g, g ∈ segment :: rest /\ normalized d g s) filtered).
  { eapply Forall_impl; [exact IH|]. intros s (g & G & N). exists g. split; [by right|done]. }
  destruct o as [s|]; [|done]. constructor; [|done]. exists segment. split; [by left|].
  by eapply normalizeSegment_valid.
Qed.

Lemma normalize_loop_length segments k d : (length (normalize_loop segments k d).1 <= length segments)%nat.
Proof.
  induction segments as [|segment rest IH]; simpl; [done|].
  destruct (normalizeSegmentDetailed segment k d) as [[s|] m], (normalize_loop rest k d); simpl in *; lia.
Qed.

Lemma title_bounded s : IsValidCategory (Segment_Category s) = true -> zlen (Segment_Description s) <= MaxStringBytes ->
  zlen (canonicalChapterTitle s) <= MaxStringBytes.
Proof.
  intros V L. unfold canonicalChapterTitle. case_match; [done|].
  unfold IsValidCategory in V. apply existsb_exists in V as (c & C & E). apply bool_decide_eq_true in E. rewrite <- E.
  repeat (destruct C as [<-|C]; [vm_compute; discriminate|]). done.
Qed.

(** the chapters of a response are chapters that marking accepts *)
Lemma Normalize_valid segments d : known d = true ->
  Forall (fun s => zlen (Segment_Description s) <= MaxStringBytes) segments ->
  Forall (fun c => valid_sponsor d c = true) (Normalize segments d).
Proof.
  intros K D. unfold Normalize, NormalizeDetailed. rewrite K.
  set (taken := if MaxSegmentCount <? zlen segments then _ else _).
  assert (DT : Forall (fun s => zlen (Segment_Description s) <= MaxStringBytes) taken).
  { unfold taken. case_match; [by apply Forall_take|done]. }
  pose proof (normalize_loop_valid taken d K) as V. destruct (normalize_loop taken true d) as [filtered m]. simpl in *.
  apply Forall_map. rewrite sorted_Permutation. eapply Forall_impl; [exact V|]. intros s (g & G & [[? C] _ E R]).
  eapply Forall_forall in DT; [|exact G]. unfold valid_sponsor. simpl. rewrite R, C. simpl. apply Z.leb_le.
  apply title_bounded; [done|by rewrite E].
Qed.

Lemma Normalize_length segments d : zlen (Normalize segments d) <= Z.min MaxSegmentCount (zlen segments).
Proof.
  unfold Normalize, NormalizeDetailed. set (taken := if MaxSegmentCount <? zlen segments then _ else _).
  assert (zlen taken <= Z.min MaxSegmentCount (zlen segments)).
  { unfold taken. case_match; reflect_bools; unfold zlen, MaxSegmentCount in *; rewrite ?length_take; lia. }
  pose proof (normalize_loop_length taken (known d) d) as L. destruct (normalize_loop taken (known d) d) as [filtered m].
  simpl in *. unfold zlen in *. rewrite length_map, sorted_Permutation. lia.
Qed.

(** ** Sizes *)

Lemma unique_length last input : (length (unique_loop last input) <= length input)%nat.
Proof. revert last. induction input as [|x input IH]; intros last; simpl; [done|]. case_match; simpl; [|etrans; [apply IH|lia]]. specialize (IH x). lia. Qed.

Lemma boundaries_length normal sponsors d :
  (length (boundaries normal sponsors d) <= 2 + 2 * (length normal + length sponsors))%nat.
Proof.
  assert (P : forall {A} (f g : A -> float64) l, length (concat (map (fun c => [f c; g c]) l)) = (2 * length l)%nat).
  { intros A f g l. induction l as [|x l IH]; simpl; [done|]. rewrite IH. lia. }
  assert (length (chapter_boundaries normal sponsors d) = 2 + 2 * (length normal + length sponsors))%nat as E.
  { unfold chapter_boundaries. simpl. rewrite length_app, !P. lia. }
  unfold boundaries.
  pose proof (Permutation_length (sorted_Permutation f64_lt (chapter_boundaries normal sponsors d))) as Q.
  destruct (sort_stable f64_lt _) as [|x l]; simpl in *; [lia|]. pose proof (unique_length x l). lia.
Qed.

Lemma atomic_loop_length normal sponsors title s rest :
  (length (atomic_loop normal sponsors title s rest) <= length rest)%nat.
Proof. revert s. induction rest as [|e rest IH]; intros s; simpl; [done|]. specialize (IH e). case_match; simpl; lia. Qed.

Lemma merge_tiny_length chapters : forall result chapter,
  (length (merge_tiny result chapter chapters) <= S (length result + length chapters))%nat.
Proof.
  induction chapters as [|next rest IH]; intros result chapter; cbn [merge_tiny].
  - repeat case_match; simpl; lia.
  - repeat case_match; (etrans; [apply IH|]); simpl; lia.
Qed.

Lemma mergeTiny_length chapters : (length (mergeTinyMarked chapters) <= length chapters)%nat.
Proof.
  destruct chapters as [|c rest]; simpl; [done|]. rewrite length_rev. pose proof (merge_tiny_length rest [] c). simpl in *. lia.
Qed.

Lemma coalesce_length chapters : forall result, (length (coalesce_loop result chapters) <= length result + length chapters)%nat.
Proof.
  induction chapters as [|c rest IH]; intros result; simpl; [rewrite length_rev; lia|].
  repeat case_match; (etrans; [apply IH|]); simpl; lia.
Qed.

Lemma retitled_length l l' : Forall2 retitled l l' -> length l' = length l.
Proof. intros F. symmetry. by eapply Forall2_length. Qed.

(** ** Titles *)

(** the names of a chapter are few and short enough for its default title *)
Definition names_bounded (n : Z) (c : MarkedChapter) : Prop :=
  zlen (Marked_CategoryNames c) <= n /\ Forall (fun name => zlen name <= MaxStringBytes) (Marked_CategoryNames c).

Lemma Join_length names n sep : Forall (fun name => zlen name <= n) names -> 0 <= n ->
  zlen (Runes.Join names sep) <= zlen names * (n + zlen sep).
Proof.
  intros F N. assert (0 <= zlen sep) by (unfold zlen; lia). unfold zlen in *.
  induction F as [|x names X F IH]; [done|]. cbv beta in X.
  destruct names as [|y names]; [cbn [Runes.Join length]; lia|].
  change (length (x :: y :: names)) with (S (length (y :: names))). rewrite Nat2Z.inj_succ, Z.mul_succ_l.
  change (Runes.Join (x :: y :: names) sep) with (x ++ sep ++ Runes.Join (y :: names) sep). rewrite !length_app. lia.
Qed.

Lemma foldl_appendUnique {A} (f : A -> bytes) (P : bytes -> Prop) (l : list A) acc :
  Forall P acc -> Forall (fun x => P (f x)) l ->
  let names := foldl (fun names x => appendUnique names (f x)) acc l in
  Forall P names /\ (length names <= length acc + length l)%nat.
Proof.
  intros A' F. revert acc A'. induction F as [|x l X F IH]; intros acc A'; simpl; [split; [done|lia]|].
  destruct (IH (appendUnique acc (f x))) as [? L].
  - unfold appendUnique. case_match; [done|]. apply Forall_app. auto.
  - split; [done|]. assert (length (appendUnique acc (f x)) <= S (length acc))%nat; [|lia].
    unfold appendUnique. case_match; [lia|]. rewrite length_app. simpl. lia.
Qed.

Lemma atomic_names normal sponsors title s e :
  Forall (fun p => zlen (Chapter_Title p) <= MaxStringBytes) sponsors ->
  names_bounded (zlen sponsors) (atomic_chapter normal sponsors title s e).
Proof.
  intros F. unfold atomic_chapter. pose proof (filter_length_le (fun chapter =>
    (Chapter_StartTime chapter <? e)%float && (s <? Chapter_EndTime chapter)%float) sponsors) as L.
  assert (A : Forall (fun p => zlen (Chapter_Title p) <= MaxStringBytes) (sponsorsAt sponsors s e)).
  { rewrite List.Forall_forall in *. intros p [? _]%filter_In. auto. }
  unfold sponsorsAt in *. destruct (List.filter _ sponsors) as [|first rest].
  { split; simpl; [unfold zlen; simpl; lia|constructor]. }
  destruct (foldl_appendUnique Chapter_Title (fun name => zlen name <= MaxStringBytes) (first :: rest) []) as [? N];
    [constructor|done|]. split; [|done]. unfold zlen. cbn [Marked_CategoryNames sponsorMarkedChapter] in *. simpl in *. lia.
Qed.

Lemma atomic_loop_names normal sponsors title s rest :
  Forall (fun p => zlen (Chapter_Title p) <= MaxStringBytes) sponsors ->
  Forall (names_bounded (zlen sponsors)) (atomic_loop normal sponsors title s rest).
Proof.
  intros F. revert s. induction rest as [|e rest IH]; intros s; simpl; [constructor|].
  case_match; [apply IH|]. constructor; [by apply atomic_names|apply IH].
Qed.

Lemma merge_tiny_names n chapters : forall result chapter,
  Forall (names_bounded n) result -> names_bounded n chapter -> Forall (names_bounded n) chapters ->
  Forall (names_bounded n) (merge_tiny result chapter chapters).
Proof.
  induction chapters as [|next rest IH]; intros result chapter R C F; cbn [merge_tiny].
  - repeat case_match; try by constructor. apply Forall_cons in R as [? R]. by constructor.
  - apply Forall_cons in F as [N F]. repeat case_match; apply IH; try done; try by constructor.
    apply Forall_cons in R as [? R]. by constructor.
Qed.

Lemma render_titles_ok n chapters : Forall (names_bounded n) chapters -> n <= 1000 ->
  exists out, render_titles None chapters = Ok out.
Proof.
  intros F N. induction F as [|c rest [L B] F [out IH]]; [by exists []|]. cbn [render_titles]. rewrite IH.
  destruct (negb (Marked_Sponsor c)); [by exists (c :: out)|]. unfold renderChapterTitle. cbv zeta.
  cbn [Fields_CategoryNames title_fields].
  assert (zlen (lit "[SponsorBlock]: " ++ Runes.Join (Marked_CategoryNames c) (lit ", ")) <= MaxChapterTitleBytes) as T.
  { pose proof (Join_length _ _ (lit ", ") B ltac:(done)) as J. unfold zlen in *. rewrite length_app.
    unfold MaxChapterTitleBytes, MaxStringBytes in *. simpl (length (lit _)) in *. lia. }
  apply Z.ltb_ge in T. rewrite T. by eexists.
Qed.

(** ** Properties *)

Lemma marking_succeeds normal sponsors d videoTitle :
  known d = true -> check_normal d None normal = Ok tt -> Forall (fun c => valid_sponsor d c = true) sponsors ->
  zlen normal + zlen sponsors <= 1000 -> exists out, MarkChapters normal sponsors d videoTitle = Ok out.
Proof.
  intros K C V L. unfold MarkChapters, MarkChaptersWithTitle. unfold known in K. apply andb_true_iff in K as [K D].
  rewrite D, C. assert ((d <=? f64_zero)%float = false) as -> by forder. cbn [negb orb].
  assert (maxMarkedChapters <? zlen normal = false) as -> by (apply Z.ltb_ge; unfold zlen, maxMarkedChapters in *; lia).
  assert (MaxSegmentCount <? zlen sponsors = false) as -> by (apply Z.ltb_ge; unfold zlen, MaxSegmentCount in *; lia).
  cbn [orb mbind result_bind]. rewrite (proj2 (forallb_forall _ _)) by (by rewrite List.Forall_forall in V). cbn [negb].
  destruct sponsors as [|p sponsors]; [destruct normal; eauto|]. set (all := p :: sponsors) in *. clearbody all.
  set (ordered := sort_stable chapter_before all).
  assert (Permutation ordered all) as Q by apply sorted_Permutation.
  assert (T : Forall (fun p => zlen (Chapter_Title p) <= MaxStringBytes) ordered).
  { rewrite Q. eapply Forall_impl; [exact V|]. intros c. unfold valid_sponsor. intros ?. by reflect_bools. }
  pose proof (Permutation_length Q) as Q'. pose proof (boundaries_length normal ordered d) as BL.
  assert (maxMarkedChapters * 2 + 2 <? zlen (boundaries normal ordered d) = false) as ->.
  { apply Z.ltb_ge. unfold zlen, maxMarkedChapters in *. lia. }
  assert (AL : (length (atomic_chapters normal ordered d videoTitle) <= length (boundaries normal ordered d))%nat).
  { unfold atomic_chapters. destruct (boundaries normal ordered d); [done|]. etrans; [apply atomic_loop_length|]. simpl. lia. }
  assert (N : Forall (names_bounded (zlen ordered)) (mergeTinyMarked (atomic_chapters normal ordered d videoTitle))).
  { unfold atomic_chapters. destruct (boundaries normal ordered d) as [|b rest]; [constructor|].
    pose proof (atomic_loop_names normal ordered videoTitle b rest T) as A.
    destruct (atomic_loop normal ordered videoTitle b rest); [constructor|]. apply Forall_cons in A as [? A].
    unfold mergeTinyMarked. apply Forall_rev. apply merge_tiny_names; [constructor|done|done]. }
  destruct (render_titles_ok _ _ N) as [titled R]; [unfold zlen in *; lia|]. rewrite R.
  pose proof (retitled_length _ _ (render_titles_retitled _ _ _ R)) as RL.
  pose proof (mergeTiny_length (atomic_chapters normal ordered d videoTitle)). pose proof (coalesce_length titled []).
  assert (maxMarkedChapters <? zlen (coalesceMarkedSponsors titled) = false) as E.
  { apply Z.ltb_ge. unfold zlen, maxMarkedChapters, coalesceMarkedSponsors in *. simpl in *. lia. }
  cbn [mbind result_bind]. rewrite E. eauto.
Qed.

Lemma normalized_segments_marked segments normal d videoTitle :
  known d = true -> Forall (fun s => zlen (Segment_Description s) <= MaxStringBytes) segments ->
  check_normal d None normal = Ok tt -> zlen normal + zlen segments <= 1000 ->
  exists out, MarkChapters normal (Normalize segments d) d videoTitle = Ok out.
Proof.
  intros K D C L. apply marking_succeeds; [done|done|by apply Normalize_valid|].
  pose proof (Normalize_length segments d). lia.
Qed.

(** ** Decoding *)

(** a walk that ends and takes at least a token *)
Definition walked {A} (ts : stream) (w : walk A) : Prop :=
  exists r, w = Some r /\ match r with Ok (_, rest) => (length rest < length ts)%nat | Err _ => True end.

Lemma Token_shorter ts t rest : Token ts = Some (t, rest) -> length ts = S (length rest).
Proof. destruct ts as [|[x|] ts]; simpl; intros E; by simplify_eq. Qed.

Lemma close_walked v ts : walked ts (close v ts).
Proof.
  unfold close. destruct (Token ts) as [[t rest]|] eqn:E; [|by eexists]. apply Token_shorter in E.
  eexists. split; [done|]. simpl. lia.
Qed.

Lemma walk_bind_walked {A B} (ts : stream) (m : walk A) (f : A -> stream -> walk B) :
  walked ts m -> (forall a rest, (length rest < length ts)%nat -> walked rest (f a rest)) -> walked ts (walk_bind m f).
Proof.
  intros (r & -> & R) F. destruct r as [[a rest]|e]; [|by eexists]. destruct (F a rest R) as (r & E & R').
  exists r. split; [done|]. destruct r as [[b rest']|]; [|done]. lia.
Qed.

Lemma walked_later {A} ts ts' (w : walk A) : walked ts w -> (length ts <= length ts')%nat -> walked ts' w.
Proof. intros (r & E & R) L. exists r. split; [done|]. destruct r as [[a rest]|]; [lia|done]. Qed.

Lemma decode_walked fuel : forall ts depth,
  ((2 * length ts + 1 <= fuel)%nat -> walked ts (decodeValue fuel depth ts)) /\
  (forall items, (2 * length ts + 2 <= fuel)%nat -> walked ts (decode_items fuel depth items ts)) /\
  (forall entries, (2 * length ts + 2 <= fuel)%nat -> walked ts (decode_entries fuel depth entries ts)).
Proof.
  induction fuel as [|fuel IH]; intros ts depth; [split_and!; intros; lia|]. split_and!.
  - intros L. cbn [decodeValue]. case_match; [by eexists|]. destruct (Token ts) as [[t rest]|] eqn:T; [|by eexists].
    apply Token_shorter in T. destruct (IH rest depth) as (_ & I & E).
    destruct t; try (eexists; split; [done|]; simpl; lia).
    + case_match; eexists; (split; [done|]); simpl; lia.
    + destruct (decode_number text); eexists; (split; [done|]); simpl; lia.
    + case_match; [eapply walked_later; [apply I; lia|lia]|]. case_match; [eapply walked_later; [apply E; lia|lia]|by eexists].
  - intros items L. cbn [decode_items]. case_match; [|apply close_walked]. apply walk_bind_walked; [apply IH; lia|].
    intros a rest R. apply IH. lia.
  - intros entries L. cbn [decode_entries]. case_match; [|apply close_walked].
    destruct (Token ts) as [[t rest]|] eqn:T; [|by eexists]. apply Token_shorter in T. destruct t; try by eexists.
    case_match; [by eexists|]. eapply (walked_later rest); [|lia]. apply walk_bind_walked; [apply IH; lia|].
    intros a rest' R. apply IH. lia.
Qed.

Lemma decode_groups_walked fuel : forall values ts, (2 * length ts + 2 <= fuel)%nat ->
  exists r, decode_groups_loop fuel values ts = Some r.
Proof.
  induction fuel as [|fuel IH]; intros values ts L; [lia|]. cbn [decode_groups_loop]. case_match; [|by eexists].
  case_match; [by eexists|]. destruct (decode_walked fuel ts 0) as [W _]. destruct W as (r & -> & R); [lia|].
  destruct r as [[a rest]|e]; [|by eexists]. apply IH. lia.
Qed.

Lemma decodeSegment_description raw s : decodeSegment raw = Some s -> zlen (Segment_Description s) <= MaxStringBytes.
Proof.
  unfold decodeSegment. intros H. repeat (case_match; try done). 
  repeat (apply bind_Some in H as (? & ? & H)). simplify_eq. simpl.
  match goal with D : decodeBoundedString (map_any raw "description") _ = Some ?d |- _ => rename D into E end.
  unfold decodeBoundedString in E. repeat (case_match; try done); simplify_eq; [done|]. reflect_bools. done.
Qed.

Lemma decode_segments_descriptions items segments : decode_segments items = Ok segments ->
  Forall (fun s => zlen (Segment_Description s) <= MaxStringBytes) segments /\ (length segments <= length items)%nat.
Proof.
  revert segments. induction items as [|item items IH]; intros segments H; simpl in H; [simplify_eq; split; [constructor|done]|].
  destruct item; try done. destruct (decode_segments items) as [rest|] eqn:R; simplify_eq/=.
  destruct (IH rest) as [F L]; [done|]. destruct (decodeSegment entries) as [s|] eqn:D; simpl; (split; [|lia]); [|done].
  constructor; [by eapply decodeSegment_description|done].
Qed.

(** what decoding promises of a group *)
Definition group_ok (g : group) : Prop :=
  Forall (fun s => zlen (Segment_Description s) <= MaxStringBytes) (group_Segments g) /\
  zlen (group_Segments g) <= MaxSegmentCount.

Lemma decode_group_ok item g : decode_group item = Ok g -> group_ok g.
Proof.
  unfold decode_group. intros H. repeat (case_match; try done).
  destruct (decode_segments items) as [segments|] eqn:D; simplify_eq/=.
  apply decode_segments_descriptions in D as [? ?]. reflect_bools. split; simpl; [done|]. unfold zlen in *. lia.
Qed.

Lemma decode_all_ok values groups : decode_all values = Ok groups -> Forall group_ok groups.
Proof.
  revert groups. induction values as [|item values IH]; intros groups H; simpl in H; [simplify_eq; constructor|].
  destruct (decode_group item) as [g|] eqn:G; [|done]. simpl in H.
  destruct (decode_all values) as [gs|] eqn:A; simplify_eq/=. constructor; [by eapply decode_group_ok|auto].
Qed.

Section Response.
Context {UT : RuneTables} {JT : JsonTokens}.

Lemma decodeResponse_ok body groups : decodeResponse body = Some (Ok groups) -> Forall group_ok groups.
Proof.
  unfold decodeResponse. cbv zeta. intros H. repeat (case_match; try done). simplify_eq.
  match goal with D : decode_all _ = Ok _ |- _ => by eapply decode_all_ok end.
Qed.

(** Decoding a response ends, whatever its tokens are: the result is a list
    of groups or an error. *)
Theorem decode_response_total body : exists r, decodeResponse body = Some r.
Proof.
  unfold decodeResponse. cbv zeta. do 3 (case_match; [by eexists|]). unfold decodeArrayValue.
  destruct (Token (json_tokens body)) as [[[] ts]|]; try by eexists.
  destruct (is_byte "[" c); [|by eexists].
  destruct (decode_groups_walked (walk_fuel ts) [] ts) as [r ->]; [unfold walk_fuel; lia|].
  destruct r as [[values rest]|e]; [|by eexists]. destruct (Token rest) as [[t rest']|]; [|by eexists].
  destruct (Token rest'); [by eexists|]. case_match; by eexists.
Qed.

(** C28. What a response gives is accepted: for a media file of known duration
    and valid ordinary chapters, up to a thousand chapters and segments in all,
    the chapters of any decoded response are marked without an error. *)
Theorem response_marked body groups categories videoID normal d videoTitle :
  decodeResponse body = Some (Ok groups) -> known d = true -> check_normal d None normal = Ok tt ->
  zlen normal <= 1000 -> Forall (fun g => zlen normal + zlen (group_Segments g) <= 1000) groups ->
  exists out, MarkChapters normal (Chapters (fetch_chapters groups categories videoID d)) d videoTitle = Ok out.
Proof.
  intros R K C M L. apply decodeResponse_ok in R. unfold fetch_chapters.
  destruct (List.find _ groups) as [g|] eqn:F.
  - apply find_some in F as [I _]. rewrite List.Forall_forall in R, L. destruct (R g I) as [D _]. specialize (L g I). simpl in L.
    apply (normalized_segments_marked (List.filter _ (group_Segments g))); [done| |done|].
    + rewrite List.Forall_forall in D |- *. intros s [S _]%filter_In. auto.
    + pose proof (filter_length_le (fun segment => bool_decide (Segment_Category segment ∈ categories)) (group_Segments g)).
      unfold zlen in *. lia.
  - apply (marking_succeeds normal []); [done|done|constructor|]. change (zlen normal + 0 <= 1000). lia.
Qed.

End Response.

(** ** Examples *)

#[local] Instance no_runes : RuneTables :=
  {| letter_table _ := false; digit_table _ := false; number_table _ := false; mark_table _ := false |}.

Definition number_token (n : string) : option token := Some (TNumber (lit n)).
Definition text_token (s : string) : option token := Some (TString (lit s)).
Definition delim (c : byte) : option token := Some (TDelim c).

(** the tokens of a response with one group of two segments, the second malformed *)
Definition response_tokens : list (option token) :=
  [ delim "["; delim "{"; text_token "videoID"; text_token "abc"; text_token "segments"; delim "[";
    delim "{"; text_token "segment"; delim "["; number_token "30"; number_token "45.5"; delim "]";
    text_token "category"; text_token "sponsor"; text_token "actionType"; text_token "skip";
    text_token "videoDuration"; number_token "100"; delim "}";
    delim "{"; text_token "segment"; delim "["; number_token "50"; delim "]"; delim "}";
    delim "]"; delim "}"; delim "]" ]%byte.

#[local] Instance response_json : JsonTokens := {| json_tokens _ := response_tokens |}.

Definition response_groups : list group :=
  [mkGroup (lit "abc") [mkRawSegment (seconds 30) (f64_ratio 91 2) CategorySponsor ActionSkip (seconds 100) [] []]].

Example decode_example : decodeResponse (lit "[{}]") = Some (Ok response_groups).
Proof. vm_compute. reflexivity. Qed.

Lemma response_marked_witness :
  decodeResponse (lit "[{}]") = Some (Ok response_groups) /\
  exists out, MarkChapters [ordinary 0 50 "A" 0]
    (Chapters (fetch_chapters response_groups [CategorySponsor] (lit "abc") (seconds 100))) (seconds 100) (lit "V") = Ok out.
Proof.
  split; [vm_compute; reflexivity|].
  apply (response_marked (lit "[{}]")); [vm_compute; reflexivity|vm_compute; reflexivity|vm_compute; reflexivity| |].
  - vm_compute. discriminate.
  - constructor; [vm_compute; discriminate|constructor].
Defined.
