(* ===== verification/SponsorArrange.v ===== *)
(** * Arrangement of chapters ([internal/sponsorblock/arrange.go])

    Chapters to keep and chapters to remove are swept in the order of their
    starts; what is removed becomes a cut, and the others are laid out on the
    timeline that is left.  The heap of the source is a list in the order of its
    [Less]: the indices of the chapters under work are distinct, so that a pop
    has one possible result.  Pointers to chapters are values, since a chapter
    is never reachable twice; slices under construction that are only appended
    to or changed at their end have their last element first. *)
From S2P Require Import Prelude GoStrings Runes Value FilterNumber Filter Float64 SorterValues.
From S2P Require Import Ordering SorterFacts FloatOrder Sponsor SponsorCut SponsorMark.

#[local] Open Scope Z_scope.

Definition maxArrangeChapters : Z := 4000.

Record CategorySpan := mkCategorySpan {
  Span_Category : bytes;
  Span_Start : float64;
  Span_End : float64;
  Span_Title : bytes
}.

Record ArrangeChapter := mkArrangeChapter {
  Arr_StartTime : float64;
  Arr_EndTime : float64;
  Arr_Title : bytes;
  Arr_Remove : bool;
  Arr_Categories : list CategorySpan;
  Arr_Source : Z;
  Arr_Sponsor : bool;
  Arr_Category : bytes;
  Arr_CategoryList : list bytes;
  Arr_Name : bytes;
  Arr_CategoryNames : list bytes
}.

Record ArrangeResult := mkArrangeResult {
  Result_Chapters : list ArrangeChapter;
  Result_Cuts : list Range
}.

(** [arrangeWork]: the fields of the embedded chapter are those of [chapter] *)
Record arrangeWork := mkWork {
  chapter : ArrangeChapter;
  wasCut : bool;
  cutIdx : option nat;
  index : Z
}.

#[global] Instance ArrangeChapter_eta : Eta ArrangeChapter :=
  fun c => mkArrangeChapter (Arr_StartTime c) (Arr_EndTime c) (Arr_Title c) (Arr_Remove c) (Arr_Categories c)
             (Arr_Source c) (Arr_Sponsor c) (Arr_Category c) (Arr_CategoryList c) (Arr_Name c) (Arr_CategoryNames c).
#[global] Instance arrangeWork_eta : Eta arrangeWork :=
  fun w => mkWork (chapter w) (wasCut w) (cutIdx w) (index w).

Definition w_start (w : arrangeWork) : float64 := Arr_StartTime (chapter w).
Definition w_end (w : arrangeWork) : float64 := Arr_EndTime (chapter w).
Definition w_remove (w : arrangeWork) : bool := Arr_Remove (chapter w).
Definition w_categories (w : arrangeWork) : list CategorySpan := Arr_Categories (chapter w).

Definition set_start (t : float64) (w : arrangeWork) : arrangeWork :=
  w <| chapter := (chapter w) <| Arr_StartTime := t |> |>.
Definition set_end (t : float64) (w : arrangeWork) : arrangeWork :=
  w <| chapter := (chapter w) <| Arr_EndTime := t |> |>.
Definition set_categories (cs : list CategorySpan) (w : arrangeWork) : arrangeWork :=
  w <| chapter := (chapter w) <| Arr_Categories := cs |> |>.
Definition set_cut (w : arrangeWork) : arrangeWork := w <| wasCut := true |>.

Definition has_categories (w : arrangeWork) : bool :=
  match w_categories w with [] => false | _ :: _ => true end.

Definition minFloat (left right : float64) : float64 := if (left <? right)%float then left else right.
Definition maxFloat (left right : float64) : float64 := if (right <? left)%float then left else right.

(** [left[i] != right[i]] compares the fields with [==] *)
Definition same_span (left right : CategorySpan) : bool :=
  bool_decide (Span_Category left = Span_Category right) && (Span_Start left =? Span_Start right)%float &&
  (Span_End left =? Span_End right)%float && bool_decide (Span_Title left = Span_Title right).

Fixpoint sameCategorySpans (ls rs : list CategorySpan) : bool :=
  match ls, rs with
  | [], [] => true
  | l :: ls, r :: rs => same_span l r && sameCategorySpans ls rs
  | _, _ => false
  end.

(** ** The heap *)

Definition heap_less (a b : arrangeWork) : bool :=
  if negb (w_start a =? w_start b)%float then (w_start a <? w_start b)%float else index a <? index b.

Definition heap_push (w : arrangeWork) (work : list arrangeWork) : list arrangeWork := insert_stable heap_less w work.
Definition heap_init (work : list arrangeWork) : list arrangeWork := sort_stable heap_less work.

(** ** Cuts and output *)

(** [appendCut]: the cuts, last first *)
Definition appendCut (c : arrangeWork) (cuts : list Range) : list Range :=
  match cuts with
  | last :: older =>
      if (w_start c <=? Range_End last)%float then
        (if (Range_End last <? w_end c)%float then last <| Range_End := w_end c |> else last) :: older
      else mkRange (w_start c) (w_end c) :: cuts
  | [] => [mkRange (w_start c) (w_end c)]
  end.

(** the overlap of [c] with the cuts from its index on *)
Fixpoint excess_loop (c : arrangeWork) (cuts : list Range) (excess : float64) : float64 :=
  match cuts with
  | [] => excess
  | cut :: rest =>
      if (w_end c <=? Range_Start cut)%float then excess
      else excess_loop c rest
             (if (w_start c <? Range_End cut)%float
              then f64_add excess (f64_sub (minFloat (Range_End cut) (w_end c)) (maxFloat (Range_Start cut) (w_start c)))
              else excess)
  end.

Definition excessDuration (c : arrangeWork) (cuts : list Range) : float64 :=
  let index := match cutIdx c with Some i => i | None => length cuts end in
  excess_loop c (drop index (rev cuts)) f64_zero.

(** [appendChapter]: the output, last first *)
Definition appendChapter (c : arrangeWork) (cuts : list Range) (out : list arrangeWork) : list arrangeWork :=
  let length := f64_sub (f64_sub (w_end c) (w_start c)) (excessDuration c cuts) in
  if (length <=? f64_zero)%float then out
  else
    let start := match out with last :: _ => w_end last | [] => f64_zero end in
    let placed := set_end (f64_add start length) (set_start start c) in
    placed <| chapter := (chapter placed) <| Arr_Remove := false |> |> <| cutIdx := None |> :: out.

(** ** The sweep *)

Record sweep := mkSweep {
  work : list arrangeWork;
  cuts : list Range;
  out : list arrangeWork
}.

#[global] Instance sweep_eta : Eta sweep := fun st => mkSweep (work st) (cuts st) (out st).

Definition push_work (w : arrangeWork) (st : sweep) : sweep := st <| work := heap_push w (work st) |>.
Definition cut_chapter (c : arrangeWork) (st : sweep) : sweep := st <| cuts := appendCut c (cuts st) |>.
Definition emit_chapter (c : arrangeWork) (st : sweep) : sweep := st <| out := appendChapter c (cuts st) (out st) |>.

(** a chapter that no later one overlaps *)
Definition finish_chapter (current : arrangeWork) (st : sweep) : sweep :=
  if w_remove current then cut_chapter current st else emit_chapter current st.

(** the rest of [next] is behind the end of [current] *)
Definition defer (current next : arrangeWork) (st : sweep) : sweep :=
  if (w_end current <? w_end next)%float then push_work (set_cut (set_start (w_end current) next)) st else st.

(** [next] is to be removed inside of [current], which goes on behind it *)
Definition cut_inside (current next : arrangeWork) (st : sweep) : arrangeWork * sweep :=
  let st := cut_chapter next st in
  (current <| cutIdx := Some (Nat.pred (length (cuts st))) |>, st).

(** [next] is to be removed and overlaps [current], which is not *)
Definition remove_next (current next : arrangeWork) (st : sweep) : arrangeWork * sweep :=
  let current := set_cut current in
  if (w_end current <=? w_end next)%float then (next, emit_chapter (set_end (w_start next) current) st)
  else if has_categories current then
    let before := List.filter (fun c => (Span_Start c <? w_start next)%float) (w_categories current) in
    let behind := List.filter (fun c => (w_end next <? Span_End c)%float) (w_categories current) in
    let after := set_categories behind (set_start (w_end next) current) in
    let current := set_categories before current in
    if negb (sameCategorySpans before behind) then
      (next, emit_chapter (set_end (w_start next) current) (push_work after st))
    else cut_inside current next st
  else cut_inside current next st.

(** [next] has the categories and the cuts of [current] before its own *)
Definition inherit (current next : arrangeWork) : arrangeWork :=
  let next := if has_categories current then set_categories (w_categories current ++ w_categories next) next else next in
  match cutIdx current with Some i => next <| cutIdx := Some i |> | None => next end.

(** two chapters to keep, [next] with categories, overlap *)
Definition overlay_next (current next : arrangeWork) (st : sweep) : arrangeWork * sweep :=
  let current := set_cut current in
  let next := set_cut next in
  let '(next, st) :=
    if (w_end next <? w_end current)%float then (next, push_work (set_start (w_end next) current) st)
    else if (w_end current <? w_end next)%float then
      (set_end (w_end current) next, push_work ((set_start (w_end current) next) <| index := index current |>) st)
    else (next, st) in
  let next := inherit current next in
  (next, emit_chapter (set_end (w_start next) current) st).

(** one iteration of the loop, after the pop of [next] *)
Definition arrange_step (current next : arrangeWork) (st : sweep) : sres (arrangeWork * sweep) :=
  if (w_end current <=? w_start next)%float then Ok (next, finish_chapter current st)
  else if w_remove current then
    if w_remove next then Ok (set_end (maxFloat (w_end current) (w_end next)) current, st)
    else Ok (current, defer current next st)
  else if w_remove next then Ok (remove_next current next st)
  else if has_categories current && negb (has_categories next) then Ok (current, defer current next st)
  else if negb (has_categories next) then Err (errorf SbInvalidInput "overlapping ordinary chapters")
  else Ok (overlay_next current next st).

(** [None] when the fuel runs out *)
Fixpoint arrange_loop (fuel : nat) (current : arrangeWork) (st : sweep) : option (sres sweep) :=
  match work st with
  | [] => Some (Ok (finish_chapter current st))
  | next :: rest =>
      match fuel with
      | O => None
      | S fuel =>
          match arrange_step current next (st <| work := rest |>) with
          | Ok (current, st) => arrange_loop fuel current st
          | Err e => Some (Err e)
          end
      end
  end.

(** every iteration removes a chapter or moves a start to a later time of the input *)
Definition arrange_fuel (n : nat) : nat := S n * (2 * n + 1).

(** ** Tiny chapters and titles *)

Definition span_length (c : CategorySpan) : float64 := f64_sub (Span_End c) (Span_Start c).

Definition shortest_span (first : CategorySpan) (spans : list CategorySpan) : CategorySpan :=
  foldl (fun shortest c => if (span_length c <? span_length shortest)%float then c else shortest) first spans.

(** the sponsor fields of a chapter with categories *)
Definition name_sponsor (first : CategorySpan) (spans : list CategorySpan) (c : ArrangeChapter) : ArrangeChapter :=
  let selected := shortest_span first spans in
  c <| Arr_Sponsor := true |> <| Arr_Category := Span_Category selected |>
    <| Arr_CategoryList := foldl (fun l span => appendUnique l (Span_Category span)) [] spans |>
    <| Arr_Name := Span_Title selected |>
    <| Arr_CategoryNames := foldl (fun l span => appendUnique l (Span_Title span)) [] spans |>
    <| Arr_Source := -1 |>.

Definition arrange_fields (c : ArrangeChapter) : ChapterTitleFields :=
  mkTitleFields (Arr_StartTime c) (Arr_EndTime c) (Arr_Category c) (Arr_CategoryList c) (Arr_Name c) (Arr_CategoryNames c).

(** the end of an iteration: the chapter is added to the output, or its time to
    the last one's *)
Definition rename_chapter (renderer : option ChapterTitleRenderer) (out : list ArrangeChapter) (c : ArrangeChapter)
    : sres (list ArrangeChapter) :=
  let c := c <| Arr_Remove := false |> <| Arr_Sponsor := false |> in
  match Arr_Categories c with
  | [] => Ok (c :: out)
  | first :: _ =>
      let c := name_sponsor first (Arr_Categories c) c in
      title ← renderChapterTitle renderer (arrange_fields c);
      let c := c <| Arr_Title := title |> in
      match out with
      | last :: older =>
          if Arr_Sponsor last && bool_decide (Arr_Title last = Arr_Title c)
          then Ok (last <| Arr_EndTime := Arr_EndTime c |> :: older)
          else Ok (c :: out)
      | [] => Ok [c]
      end
  end.

Definition arrange_tiny (w : arrangeWork) : bool :=
  (wasCut w || has_categories w) && (f64_sub (w_end w) (w_start w) <? tinyChapter)%float.

(** the tiny chapter goes to the next one rather than to the previous one *)
Definition leans_next (w : arrangeWork) (previous : ArrangeChapter) (next : arrangeWork) : bool :=
  negb (has_categories w) && Arr_Sponsor previous && negb (has_categories next) ||
  has_categories w && negb (Arr_Sponsor previous) && has_categories next.

Fixpoint rename_loop (renderer : option ChapterTitleRenderer) (out : list ArrangeChapter) (w : arrangeWork)
    (chapters : list arrangeWork) : sres (list ArrangeChapter) :=
  let continue out :=
    match chapters with
    | [] => Ok out
    | next :: rest => rename_loop renderer out next rest
    end in
  let emit_chapter := out ← rename_chapter renderer out (chapter w); continue out in
  if arrange_tiny w then
    match out, chapters with
    | [], next :: rest => rename_loop renderer out (set_start (w_start w) next) rest
    | [], [] => emit_chapter
    | previous :: older, next :: rest =>
        if leans_next w previous next then rename_loop renderer out (set_start (w_start w) next) rest
        else continue (previous <| Arr_EndTime := w_end w |> :: older)
    | previous :: older, [] => Ok (previous <| Arr_EndTime := w_end w |> :: older)
    end
  else emit_chapter.

Definition removeTinyRenameSponsors (chapters : list arrangeWork) (renderer : option ChapterTitleRenderer)
    : sres (list ArrangeChapter) :=
  match chapters with
  | [] => Ok []
  | w :: rest => out ← rename_loop renderer [] w rest; Ok (rev out)
  end.

(** ** Validation *)

Definition valid_span (c : CategorySpan) : bool :=
  f64_finite (Span_Start c) && f64_finite (Span_End c) && negb (Span_Start c <? f64_zero)%float &&
  negb (Span_End c <=? Span_Start c)%float && (zlen (Span_Category c) <=? MaxStringBytes) &&
  (zlen (Span_Title c) <=? MaxStringBytes).

Definition validateArrangeChapter (c : ArrangeChapter) : option SponsorError :=
  if negb (f64_finite (Arr_StartTime c)) || negb (f64_finite (Arr_EndTime c)) || (Arr_StartTime c <? f64_zero)%float ||
     (Arr_EndTime c <=? Arr_StartTime c)%float || (MaxStringBytes <? zlen (Arr_Title c))
  then Some (errorf SbInvalidInput "invalid arrange chapter")
  else if negb (forallb valid_span (Arr_Categories c)) then Some (errorf SbInvalidInput "invalid arrange category")
  else None.

Fixpoint arrange_inputs (i : Z) (chapters : list ArrangeChapter) : sres (list arrangeWork) :=
  match chapters with
  | [] => Ok []
  | input :: rest =>
      _ ← check (validateArrangeChapter input);
      work ← arrange_inputs (i + 1) rest;
      Ok (mkWork input false None i :: work)
  end.

(** ** Arrangement *)

Definition arranged (st : sweep) (renderer : option ChapterTitleRenderer) : sres ArrangeResult :=
  chapters ← removeTinyRenameSponsors (rev (out st)) renderer;
  Ok (mkArrangeResult chapters (rev (cuts st))).

Definition ArrangeWithTitle (chapters : list ArrangeChapter) (renderer : option ChapterTitleRenderer)
    : option (sres ArrangeResult) :=
  if maxArrangeChapters <? zlen chapters then Some (Err (errorf SbInvalidInput "arrange chapter limit"))
  else
    match arrange_inputs 0 chapters with
    | Err e => Some (Err e)
    | Ok inputs =>
        match heap_init inputs with
        | [] => Some (Ok (mkArrangeResult [] []))
        | current :: work =>
            match arrange_loop (arrange_fuel (length chapters)) current (mkSweep work [] []) with
            | None => None
            | Some (Err e) => Some (Err e)
            | Some (Ok st) => Some (arranged st renderer)
            end
        end
    end.

Definition Arrange (chapters : list ArrangeChapter) : option (sres ArrangeResult) := ArrangeWithTitle chapters None.

(** ** Examples *)

Definition keep_chapter (start end_ : Z) (title : bytes) : ArrangeChapter :=
  mkArrangeChapter (seconds start) (seconds end_) title false [] 0 false [] [] [] [].
Definition remove_chapter (start end_ : Z) : ArrangeChapter := (keep_chapter start end_ []) <| Arr_Remove := true |>.
Definition sponsor_chapter (start end_ : Z) (title : bytes) : ArrangeChapter :=
  (keep_chapter start end_ []) <| Arr_Categories := [mkCategorySpan title (seconds start) (seconds end_) title] |>.

Example arrange_example :
  match Arrange [keep_chapter 0 50 (lit "A"); keep_chapter 50 100 (lit "B"); remove_chapter 10 20; remove_chapter 15 30;
                 sponsor_chapter 40 60 (lit "Intro")] with
  | Some (Ok r) =>
      (map (fun c => (Arr_StartTime c, Arr_EndTime c, Arr_Title c)) (Result_Chapters r), Result_Cuts r)
  | _ => ([], [])
  end =
  ([ (seconds 0, seconds 20, lit "A"); (seconds 20, seconds 40, lit "[SponsorBlock]: Intro"); (seconds 40, seconds 80, lit "B") ],
   [mkRange (seconds 10) (seconds 30)]).
Proof. vm_compute. reflexivity. Qed.
