(* ===== verification/SponsorArrangeFacts.v ===== *)
(** * Properties of the arrangement

    The sweep ends, its cuts are in order and apart from each other, they cover
    exactly the instants of the chapters to remove, and the chapters that are
    left follow each other from 0. *)
From Stdlib Require Import Sorting.Sorted Sorting.Permutation.
From S2P Require Import Prelude GoStrings Runes Value FilterNumber Filter Float64 SorterValues.
From S2P Require Import Ordering SorterFacts FloatOrder Sponsor SponsorFacts SponsorCut SponsorCutFacts SponsorMark SponsorArrange.

#[local] Open Scope Z_scope.

(** ** Chapters under work *)

(** [B] holds the times of the input: no other time becomes a start or an end *)
Record item_ok (B : list float64) (w : arrangeWork) : Prop := {
  io_start : f64_finite (w_start w) = true;
  io_end : f64_finite (w_end w) = true;
  io_zero : (f64_zero <= w_start w)%float;
  io_order : (w_start w < w_end w)%float;
  io_start_in : w_start w ∈ B;
  io_end_in : w_end w ∈ B
}.
#[export] Hint Resolve io_start io_end : floats.

Definition by_start (a b : arrangeWork) : Prop := (w_start a <= w_start b)%float.

#[local] Instance by_start_trans : Transitive by_start.
Proof. unfold by_start. intros x y z ? ?. forder. Qed.

Lemma heap_less_start B a b : item_ok B a -> item_ok B b -> heap_less a b = true -> by_start a b.
Proof. intros [] []. unfold heap_less, by_start. case_match eqn:E; reflect_bools; intros; forder. Qed.

Lemma heap_less_after B a b : item_ok B a -> item_ok B b -> heap_less a b = false -> by_start b a.
Proof. intros [] []. unfold heap_less, by_start. case_match eqn:E; reflect_bools; intros; forder. Qed.

Lemma heap_push_Permutation w work : Permutation (heap_push w work) (w :: work).
Proof. apply inserted_Permutation. Qed.

Lemma heap_push_sorted B w work : item_ok B w -> Forall (item_ok B) work -> StronglySorted by_start work ->
  StronglySorted by_start (heap_push w work).
Proof. apply insert_sorted; [apply _|apply heap_less_start|apply heap_less_after]. Qed.

(** ** Fuel *)

Definition rank (B : list float64) (x : float64) : nat := length (List.filter (f64_lt x) B).
Definition fuel_of (B : list float64) (ws : list arrangeWork) : nat := sum_list_with (fun w => S (rank B (w_start w))) ws.

Lemma rank_le B x : (rank B x <= length B)%nat.
Proof. unfold rank. apply filter_length_le. Qed.

(** a later start among the times of the input has a smaller rank *)
Lemma rank_lt B x y : Forall number B -> number x -> y ∈ B -> (x < y)%float -> (rank B y < rank B x)%nat.
Proof.
  intros N X Y L. unfold rank.
  assert (M : forall l, Forall number l -> (length (List.filter (f64_lt y) l) <= length (List.filter (f64_lt x) l))%nat).
  { induction 1 as [|b l Hb F IH]; simpl; [done|]. destruct (y <? b)%float eqn:E.
    - assert ((x <? b)%float = true) as -> by forder. simpl. lia.
    - case_match; simpl; lia. }
  induction N as [|b B Hb F IH]; [by apply elem_of_nil in Y|]. apply elem_of_cons in Y as [->|Y].
  - simpl. assert ((b <? b)%float = false) as -> by forder. assert ((x <? b)%float = true) as -> by forder.
    specialize (M B F). simpl. lia.
  - specialize (IH Y). simpl. destruct (y <? b)%float eqn:E.
    + assert (number y) by (eapply Forall_forall in F; eauto).
      assert ((x <? b)%float = true) as -> by forder. simpl. lia.
    + case_match; simpl; lia.
Qed.

Lemma fuel_of_Permutation B ws ws' : Permutation ws ws' -> fuel_of B ws = fuel_of B ws'.
Proof. unfold fuel_of. induction 1; simpl; lia. Qed.

(** ** Cuts, last first *)

Definition media_end : float64 := S754_infinity false.

Fixpoint cuts_ok (cuts : list Range) : Prop :=
  match cuts with
  | [] => True
  | c :: older =>
      valid_range media_end c /\ match older with [] => True | p :: _ => (Range_End p < Range_Start c)%float end /\ cuts_ok older
  end.

(** the last cut starts no later than [x] *)
Definition cuts_before (cuts : list Range) (x : float64) : Prop :=
  match cuts with [] => True | last :: _ => (Range_Start last <= x)%float end.

Definition in_work (t : float64) (w : arrangeWork) : Prop := (w_start w <= t)%float /\ (t < w_end w)%float.
Definition removing (t : float64) (ws : list arrangeWork) : Prop :=
  Exists (fun w => w_remove w = true /\ in_work t w) ws.

Lemma cuts_later cuts x y : cuts_before cuts x -> (x <= y)%float -> cuts_before cuts y.
Proof. destruct cuts as [|last older]; simpl; [done|]. intros. forder. Qed.

Lemma spaced_snoc d lo l c : spaced d lo l -> valid_range d c ->
  (default lo (Range_End <$> last l) < Range_Start c)%float -> spaced d lo (l ++ [c]).
Proof.
  revert lo. induction l as [|x l IH]; intros lo; simpl; [auto|]. intros (V & L & S) C E. split_and!; [done..|].
  apply IH; [done..|]. destruct l as [|y l]; [done|]. rewrite !last_cons in *. by destruct (last l).
Qed.

Lemma cuts_ok_apart cuts : cuts_ok cuts -> cuts_apart media_end (rev cuts).
Proof.
  induction cuts as [|c older IH]; [done|]. intros (V & G & O). specialize (IH O). simpl.
  destruct older as [|p older]; [done|]. simpl in *. destruct (rev older) as [|x l] eqn:R; simpl in *.
  - destruct IH as [? _]. by split_and!.
  - destruct IH as [? S]. split; [done|]. apply spaced_snoc; [done..|]. by rewrite last_snoc.
Qed.

Lemma appendCut_ok B c cuts : item_ok B c -> cuts_ok cuts -> cuts_before cuts (w_start c) -> cuts_ok (appendCut c cuts).
Proof.
  intros [] O L. assert (V : valid_range media_end (mkRange (w_start c) (w_end c))).
  { constructor; simpl; try done. left. constructor. left. unfold FloatKeys.class. rewrite finite_number by done.
    by destruct (w_end c) as [[]|[]| |[] ? ?]. }
  destruct cuts as [|last older]; [done|]. cbn [appendCut]. pose proof O as ([] & G & O'). simpl in L.
  destruct (w_start c <=? Range_End last)%float eqn:E; [|split; [done|split; [simpl; forder|exact O]]].
  destruct (Range_End last <? w_end c)%float eqn:E'; [|exact O].
  split; [|split; [exact G|exact O']]. destruct V. constructor; simpl in *; try done. forder.
Qed.

Lemma appendCut_before c cuts x :
  cuts_before cuts x -> (w_start c <= x)%float -> cuts_before (appendCut c cuts) x.
Proof. intros L S. destruct cuts as [|last older]; simpl; [done|]. repeat case_match; done. Qed.

Lemma appendCut_covers B c cuts t : item_ok B c -> cuts_ok cuts -> cuts_before cuts (w_start c) -> f64_finite t = true ->
  Exists (in_range t) (appendCut c cuts) <-> in_work t c \/ Exists (in_range t) cuts.
Proof.
  intros [] O L T. destruct cuts as [|last older]; simpl.
  { by rewrite Exists_cons, !Exists_nil. }
  destruct O as ([] & _ & _). simpl in L. case_match eqn:E; [|by rewrite Exists_cons].
  rewrite !Exists_cons. unfold in_range at 1 3, in_work. case_match eqn:E'; simpl.
  - split; [intros [[? ?]|?]; auto|intros [[? ?]|[[? ?]|?]]; auto; left; split; forder].
    destruct (split_at t (w_start c)); [right; left; split; [done|forder]|left; by split].
  - split; [intuition|intros [[? ?]|[[? ?]|?]]; auto]. left. split; forder.
Qed.

(** ** The invariant of the sweep *)

Section Sweep.
Context (B : list float64) (BN : Forall number B) (removed : float64 -> Prop).

(** the chapters under work are in order, and the cuts with the chapters that
    are still to be removed cover what is removed *)
Record inv (current : arrangeWork) (work : list arrangeWork) (cuts : list Range) : Prop := {
  inv_items : Forall (item_ok B) (current :: work);
  inv_sorted : StronglySorted by_start (current :: work);
  inv_cuts : cuts_ok cuts;
  inv_current : w_remove current = true -> cuts_before cuts (w_start current);
  inv_work : Forall (fun w => cuts_before cuts (w_start w)) work;
  inv_covers t : f64_finite t = true ->
    removed t <-> Exists (in_range t) cuts \/ removing t (current :: work)
}.

(** [next] was popped and is not to be removed *)
Lemma inv_drop current next work cuts : inv current (next :: work) cuts -> w_remove next = false -> inv current work cuts.
Proof.
  intros [I S C L W V] R. apply Forall_cons in I as [? [? I]%Forall_cons]. apply StronglySorted_inv in S as [S F].
  apply Forall_cons in F as [? F]. apply StronglySorted_inv in S as [S _]. apply Forall_cons in W as [? W].
  constructor; try done; [by constructor|by constructor|]. intros t T. rewrite (V t T). unfold removing.
  rewrite !Exists_cons, R. naive_solver.
Qed.

Lemma inv_push current w work cuts : inv current work cuts -> item_ok B w -> w_remove w = false -> by_start current w ->
  cuts_before cuts (w_start w) -> inv current (heap_push w work) cuts.
Proof.
  intros [I S C L W V] O R F K. apply Forall_cons in I as [? I]. apply StronglySorted_inv in S as [S G].
  constructor; try done.
  - constructor; [done|]. rewrite heap_push_Permutation. by constructor.
  - constructor; [by eapply heap_push_sorted|]. rewrite heap_push_Permutation. by constructor.
  - rewrite heap_push_Permutation. by constructor.
  - intros t T. rewrite (V t T). unfold removing. rewrite !Exists_cons, heap_push_Permutation, Exists_cons, R. naive_solver.
Qed.

(** the current chapter is done and not to be removed *)
Lemma inv_advance current next work cuts :
  inv current (next :: work) cuts -> w_remove current = false -> inv next work cuts.
Proof.
  intros [I S C L W V] R. apply Forall_cons in I as [? I]. apply StronglySorted_inv in S as [S _].
  apply Forall_cons in W as [? W]. constructor; try done. intros t T. rewrite (V t T). unfold removing.
  rewrite !Exists_cons, R. naive_solver.
Qed.

(** a chapter with the same start takes the place of one, neither to be removed *)
Lemma inv_replace current current' work cuts : inv current work cuts -> item_ok B current' ->
  w_start current' = w_start current -> w_remove current = false -> w_remove current' = false -> inv current' work cuts.
Proof.
  intros [I S C L W V] O E R R'. apply Forall_cons in I as [? I]. apply StronglySorted_inv in S as [S F].
  constructor; try done; [by constructor| |congruence|].
  - constructor; [done|]. unfold by_start in *. by rewrite E.
  - intros t T. rewrite (V t T). unfold removing. rewrite !Exists_cons, R, R'. naive_solver.
Qed.

Lemma inv_cut current work cuts : inv current work cuts -> w_remove current = true ->
  cuts_ok (appendCut current cuts) /\ Forall (fun w => cuts_before (appendCut current cuts) (w_start w)) work /\
  forall t, f64_finite t = true -> removed t <-> Exists (in_range t) (appendCut current cuts) \/ removing t work.
Proof.
  intros [I S C L W V] R. apply Forall_cons in I as [O I]. apply StronglySorted_inv in S as [S F]. specialize (L R).
  split_and!; [by eapply appendCut_ok| |].
  - rewrite Forall_forall in W, F |- *. intros w Hw. apply appendCut_before; [by apply W|by apply F].
  - intros t T. rewrite (V t T), (appendCut_covers B) by done. unfold removing. rewrite Exists_cons. tauto.
Qed.

(** the current chapter is done and to be removed *)
Lemma inv_finish current next work cuts : inv current (next :: work) cuts -> w_remove current = true ->
  inv next work (appendCut current cuts).
Proof.
  intros H R. destruct (inv_cut _ _ _ H R) as (C & W & V). destruct H as [I S _ _ _ _].
  apply Forall_cons in I as [_ I]. apply StronglySorted_inv in S as [S _]. apply Forall_cons in W as [? W]. by constructor.
Qed.

(** [next] was popped and is cut out of the current chapter *)
Lemma inv_inside current next work cuts : inv current (next :: work) cuts -> w_remove current = false ->
  w_remove next = true -> inv current work (appendCut next cuts).
Proof.
  intros H R R'. pose proof (inv_advance _ _ _ _ H R) as N. destruct (inv_cut _ _ _ N R') as (C & W & V).
  destruct H as [I S _ _ _ _]. apply Forall_cons in I as [? [? I]%Forall_cons]. apply StronglySorted_inv in S as [S F].
  apply Forall_cons in F as [? F]. apply StronglySorted_inv in S as [S _].
  constructor; try done; [by constructor|by constructor|congruence|].
  intros t T. rewrite (V t T). unfold removing. rewrite Exists_cons, R. naive_solver.
Qed.

(** two overlapping chapters to be removed become one *)
Lemma inv_merge current next work cuts : inv current (next :: work) cuts -> w_remove current = true ->
  w_remove next = true -> (w_start next < w_end current)%float ->
  inv (set_end (maxFloat (w_end current) (w_end next)) current) work cuts.
Proof.
  intros [I S C L W V] R R' X. apply Forall_cons in I as [[] [[] I]%Forall_cons]. apply StronglySorted_inv in S as [S F].
  apply Forall_cons in F as [F F']. apply StronglySorted_inv in S as [S _]. apply Forall_cons in W as [? W].
  unfold by_start in F. constructor; try done.
  - constructor; [|done]. unfold maxFloat. constructor; simpl; try done; case_match; try done; forder.
  - by constructor.
  - intros t T. rewrite (V t T). unfold removing. rewrite !Exists_cons.
    assert (E : in_work t (set_end (maxFloat (w_end current) (w_end next)) current) <-> in_work t current \/ in_work t next).
    { unfold in_work, maxFloat, set_end. simpl. case_match eqn:E; fold (w_start current).
      - split; [intros [? ?]; left; by split|intros [[? ?]|[? ?]]; split; forder].
      - split; [intros [? ?]|intros [[? ?]|[? ?]]; split; forder].
        destruct (split_at t (w_start next)); [left; split; [done|forder]|right; by split]. }
    change (w_remove (set_end _ current)) with (w_remove current). rewrite R, R', E. tauto.
Qed.


(** ** One iteration *)

(** the invariant holds and the fuel is less than before *)
Definition progress (before : nat) (current : arrangeWork) (st : sweep) : Prop :=
  inv current (work st) (cuts st) /\ (fuel_of B (current :: work st) < before)%nat.

(** a chapter of the same times and the same kind *)
Definition same_times (w w' : arrangeWork) : Prop :=
  w_start w' = w_start w /\ w_end w' = w_end w /\ w_remove w' = w_remove w.

Lemma item_same w w' : item_ok B w -> same_times w w' -> item_ok B w'.
Proof. intros [] (E & E' & _). constructor; congruence. Qed.

Lemma fuel_push current w work : fuel_of B (current :: heap_push w work) = fuel_of B (current :: w :: work).
Proof. apply fuel_of_Permutation. by rewrite heap_push_Permutation. Qed.

Lemma fuel_same w w' ws : same_times w w' -> fuel_of B (w' :: ws) = fuel_of B (w :: ws).
Proof. intros (E & _). unfold fuel_of. simpl. by rewrite E. Qed.

(** the part of a chapter behind a later time *)
Lemma rest_ok w w' x : item_ok B w -> x ∈ B -> f64_finite x = true -> (w_start w <= x)%float -> (x < w_end w)%float ->
  w_start w' = x -> w_end w' = w_end w -> item_ok B w'.
Proof. intros [] ? ? ? ? E E'. constructor; rewrite ?E, ?E'; try done; forder. Qed.

Lemma rest_fuel w x : item_ok B w -> x ∈ B -> (w_start w < x)%float -> (rank B x < rank B (w_start w))%nat.
Proof. intros [] ? ?. apply rank_lt; [done|fnum|done|done]. Qed.

Lemma work_push w st : work (push_work w st) = heap_push w (work st).
Proof. reflexivity. Qed.

Lemma defer_progress current next st : inv current (next :: work st) (cuts st) -> w_remove next = false ->
  (w_start next < w_end current)%float ->
  progress (fuel_of B (current :: next :: work st)) current (defer current next st).
Proof.
  intros H R X. pose proof (inv_drop _ _ _ _ H R) as D. destruct H as [I S _ _ W _].
  apply Forall_cons in I as [O [O' I]%Forall_cons]. apply Forall_cons in W as [K _]. pose proof O as [].
  unfold defer. destruct (w_end current <? w_end next)%float eqn:E.
  - split; rewrite work_push.
    + apply inv_push; [exact D| |exact R|unfold by_start; simpl; forder|].
      * apply (rest_ok next _ (w_end current)); [done|done|done|forder|forder|done|done].
      * eapply cuts_later; [exact K|]. simpl. forder.
    + rewrite fuel_push. pose proof (rest_fuel next (w_end current) O' ltac:(done) X). unfold fuel_of, w_start in *. simpl in *. lia.
  - split; [done|]. unfold fuel_of. simpl. lia.
Qed.


Lemma cut_inside_progress current current' next st : inv current (next :: work st) (cuts st) ->
  w_remove current = false -> w_remove next = true -> same_times current current' ->
  let '(c, st') := cut_inside current' next st in progress (fuel_of B (current :: next :: work st)) c st'.
Proof.
  intros H R R' E. unfold cut_inside. set (c := current' <| cutIdx := _ |>). assert (E' : same_times current c) by done.
  pose proof (inv_inside _ _ _ _ H R R') as D. destruct H as [I _ _ _ _ _]. apply Forall_cons in I as [O _]. split.
  - eapply inv_replace; [exact D| |apply E'|done|]; [by eapply item_same|]. destruct E' as (_ & _ & ->). done.
  - rewrite (fuel_same current) by done. unfold fuel_of. simpl. lia.
Qed.

Lemma remove_next_progress current next st : inv current (next :: work st) (cuts st) ->
  w_remove current = false -> w_remove next = true ->
  let '(c, st') := remove_next current next st in progress (fuel_of B (current :: next :: work st)) c st'.
Proof.
  intros H R R'. pose proof (inv_advance _ _ _ _ H R) as A. pose proof H as [I S _ _ W _].
  apply Forall_cons in I as [O [O' I]%Forall_cons]. apply Forall_cons in W as [K _]. pose proof O as []. pose proof O' as [].
  apply StronglySorted_inv in S as [_ F]. apply Forall_cons in F as [F _]. unfold by_start in F.
  unfold remove_next. change (w_end (set_cut current)) with (w_end current).
  destruct (w_end current <=? w_end next)%float eqn:E; [split; [done|unfold fuel_of; simpl; lia]|].
  destruct (has_categories (set_cut current)); [|by apply cut_inside_progress]. cbv zeta.
  destruct (negb (sameCategorySpans _ _)); [|by apply cut_inside_progress]. split.
  - apply inv_push; [exact A| |exact R|unfold by_start; simpl; forder|].
    + apply (rest_ok current _ (w_end next)); [done|done|done|forder|forder|done|done].
    + eapply cuts_later; [exact K|]. simpl. forder.
  - cbn [emit_chapter work push_work]. change (work (emit_chapter _ (push_work ?w st))) with (heap_push w (work st)). rewrite fuel_push.
    pose proof (rest_fuel current (w_end next) O ltac:(done) ltac:(forder)). unfold fuel_of, w_start in *. simpl in *. lia.
Qed.


Lemma by_start_intro a x b y : w_start a = x -> w_start b = y -> (x <= y)%float -> by_start a b.
Proof. unfold by_start. by intros -> ->. Qed.

Lemma inherit_same current next : same_times next (inherit current next).
Proof. unfold inherit. by destruct (has_categories current), (cutIdx current). Qed.

(** the current chapter ends where [next] begins, and [next'] takes its place *)
Lemma overlay_advance current next next' work cuts : inv current (next :: work) cuts -> w_remove current = false ->
  w_remove next = false -> item_ok B next' -> w_start next' = w_start next -> w_remove next' = w_remove next ->
  inv next' work cuts.
Proof. intros H R R' O E E'. eapply inv_replace; [by eapply inv_advance|done|done|done|congruence]. Qed.

Lemma overlay_next_progress current next st : inv current (next :: work st) (cuts st) ->
  w_remove current = false -> w_remove next = false -> (w_start next < w_end current)%float ->
  let '(c, st') := overlay_next current next st in progress (fuel_of B (current :: next :: work st)) c st'.
Proof.
  intros H R R' X. pose proof H as [I S _ _ W _].
  apply Forall_cons in I as [O [O' I]%Forall_cons]. apply Forall_cons in W as [K _]. pose proof O as []. pose proof O' as [].
  apply StronglySorted_inv in S as [_ F]. apply Forall_cons in F as [F _]. unfold by_start in F.
  unfold overlay_next. cbv zeta. change (w_end (set_cut current)) with (w_end current).
  change (w_end (set_cut next)) with (w_end next).
  destruct (w_end next <? w_end current)%float eqn:E; [|destruct (w_end current <? w_end next)%float eqn:E'].
  - set (n := inherit (set_cut current) (set_cut next)). pose proof (inherit_same (set_cut current) (set_cut next)) as N.
    fold n in N. split.
    + apply inv_push; [eapply overlay_advance; try done; [by eapply item_same|apply N|apply N]| |exact R| |].
      * apply (rest_ok current _ (w_end next)); [done|done|done|forder|forder|done|done].
      * apply (by_start_intro n (w_start next) _ (w_end next)); [apply N|done|forder].
      * eapply cuts_later; [exact K|]. simpl. forder.
    + change (work (emit_chapter _ (push_work ?w st))) with (heap_push w (work st)). rewrite fuel_push.
      rewrite (fuel_same (set_cut next) n) by done.
      pose proof (rest_fuel current (w_end next) O ltac:(done) ltac:(forder)). unfold fuel_of, w_start in *. simpl in *. lia.
  - set (n := inherit (set_cut current) (set_end (w_end current) (set_cut next))).
    pose proof (inherit_same (set_cut current) (set_end (w_end current) (set_cut next))) as N. fold n in N.
    assert (ON : item_ok B n).
    { eapply item_same; [|exact N]. constructor; try done. }
    split.
    + apply inv_push; [eapply overlay_advance; try done; [apply N|apply N]| |exact R'| |].
      * apply (rest_ok next _ (w_end current)); [done|done|done|forder|forder|done|done].
      * apply (by_start_intro n (w_start next) _ (w_end current)); [apply N|done|forder].
      * eapply cuts_later; [exact K|]. simpl. forder.
    + change (work (emit_chapter _ (push_work ?w st))) with (heap_push w (work st)). rewrite fuel_push.
      rewrite (fuel_same (set_end (w_end current) (set_cut next)) n) by done.
      pose proof (rest_fuel current (w_end current) O ltac:(done) ltac:(forder)). unfold fuel_of, w_start in *. simpl in *. lia.
  - pose proof (inherit_same (set_cut current) (set_cut next)) as N. split.
    + eapply overlay_advance; try done; [by eapply item_same|apply N|apply N].
    + rewrite (fuel_same (set_cut next)) by done. unfold fuel_of, w_start. simpl. lia.
Qed.

Lemma step_progress current next st c st' : inv current (next :: work st) (cuts st) ->
  arrange_step current next st = Ok (c, st') -> progress (fuel_of B (current :: next :: work st)) c st'.
Proof.
  intros H. pose proof H as [I _ _ _ _ _]. apply Forall_cons in I as [O [O' _]%Forall_cons].
  pose proof O as []. pose proof O' as []. unfold arrange_step.
  assert (D : forall a, (fuel_of B (a :: work st) < fuel_of B (current :: a :: work st))%nat) by (intros; unfold fuel_of; simpl; lia).
  destruct (w_end current <=? w_start next)%float eqn:E.
  { intros R. simplify_eq. unfold finish_chapter. destruct (w_remove current) eqn:R; split; try by apply D.
    - by apply inv_finish.
    - by eapply inv_advance. }
  destruct (w_remove current) eqn:R, (w_remove next) eqn:R'.
  - intros Q. simplify_eq. split; [|unfold fuel_of, w_start; simpl; lia]. apply inv_merge; [done..|forder].
  - intros Q. simplify_eq. apply defer_progress; [done..|forder].
  - intros Q. pose proof (remove_next_progress current next st H R R') as P. by destruct (remove_next current next st); simplify_eq.
  - case_match; [intros Q; simplify_eq; apply defer_progress; [done..|forder]|]. case_match; [done|]. intros Q.
    pose proof (overlay_next_progress current next st H R R' ltac:(forder)) as P.
    by destruct (overlay_next current next st); simplify_eq.
Qed.


(** ** The loop *)

(** what is left to say of the cuts when the loop ends *)
Definition cuts_done (cuts : list Range) : Prop :=
  cuts_ok cuts /\ forall t, f64_finite t = true -> removed t <-> Exists (in_range t) cuts.

Lemma finish_done current st : inv current [] (cuts st) -> cuts_done (cuts (finish_chapter current st)).
Proof.
  intros H. unfold finish_chapter. destruct (w_remove current) eqn:R.
  - destruct (inv_cut _ _ _ H R) as (C & _ & V). split; [done|]. intros t T. rewrite (V t T). unfold removing.
    rewrite Exists_nil. simpl. tauto.
  - destruct H as [_ _ C _ _ V]. split; [done|]. intros t T. rewrite (V t T). unfold removing.
    rewrite Exists_cons, Exists_nil, R. simpl. naive_solver.
Qed.

Lemma arrange_loop_done fuel current st : inv current (work st) (cuts st) ->
  (fuel_of B (current :: work st) <= fuel)%nat ->
  exists r, arrange_loop fuel current st = Some r /\ match r with Ok st' => cuts_done (cuts st') | Err _ => True end.
Proof.
  revert current st. induction fuel as [|fuel IH]; intros current st H F.
  { unfold fuel_of in F. simpl in F. lia. }
  cbn [arrange_loop]. destruct (work st) as [|next rest] eqn:W.
  { eexists. split; [done|]. by apply finish_done. }
  destruct (arrange_step current next (st <| work := rest |>)) as [[c st']|e] eqn:E; [|by eexists].
  assert (H' : inv current (next :: work (st <| work := rest |>)) (cuts (st <| work := rest |>))).
  { simpl. exact H. }
  destruct (step_progress current next (st <| work := rest |>) c st' H' E) as [I L]. apply IH; [done|].
  change (work (st <| work := rest |>)) with rest in L. lia.
Qed.

End Sweep.

(** ** Pops are determined *)

(** the indices of the chapters under work *)
Definition indices (current : arrangeWork) (work : list arrangeWork) : list Z := map index (current :: work).

Lemma push_indices w work : Permutation (map index (heap_push w work)) (index w :: map index work).
Proof. rewrite heap_push_Permutation. done. Qed.

(** an iteration loses indices or keeps them: a chapter that is split gives its
    index to one of its parts *)
Lemma step_indices current next st c st' : arrange_step current next st = Ok (c, st') ->
  indices c (work st') ⊆+ indices current (next :: work st).
Proof.
  assert (D : forall x y l, (y : Z) :: l ⊆+ x :: y :: l) by (intros; by apply submseteq_cons).
  assert (D' : forall x y l, (x : Z) :: l ⊆+ x :: y :: l) by (intros; by apply submseteq_skip, submseteq_cons).
  unfold arrange_step, finish_chapter, defer, remove_next, overlay_next, inherit, cut_inside, indices. cbv zeta.
  intros E. repeat (case_match; try done); simplify_eq; simpl; rewrite ?push_indices; simpl;
    first [done | apply D | apply D' | by rewrite Permutation_swap].
Qed.

(** chapters with different indices never tie *)
Lemma heap_less_total B a b : item_ok B a -> item_ok B b -> index a <> index b -> heap_less a b = negb (heap_less b a).
Proof.
  intros [] [] N. unfold heap_less.
  destruct (w_start a =? w_start b)%float eqn:E, (w_start b =? w_start a)%float eqn:E'; simpl; [|exfalso; forder..|].
  - destruct (index a <? index b) eqn:L, (index b <? index a) eqn:G; reflect_bools; (done || lia).
  - destruct (w_start a <? w_start b)%float eqn:L, (w_start b <? w_start a)%float eqn:G; try done; exfalso; forder.
Qed.

Lemma arrange_inputs_indices i chapters ws : arrange_inputs i chapters = Ok ws ->
  NoDup (map index ws) /\ Forall (fun j => i <= j) (map index ws).
Proof.
  revert i ws. induction chapters as [|c rest IH]; intros i ws; simpl; [intros E; simplify_eq; split; constructor|].
  destruct (validateArrangeChapter c) eqn:V; [intros E; discriminate E|]. cbn [check mbind result_bind].
  destruct (arrange_inputs (i + 1) rest) as [work|] eqn:R; [|intros E; discriminate E]. intros E. simplify_eq/=.
  destruct (IH _ _ R) as [N F]. split.
  - constructor; [|done]. intros I. eapply Forall_forall in F; [|exact I]. simpl in F. lia.
  - constructor; [lia|]. eapply Forall_impl; [exact F|]. intros j ?. simpl in *. lia.
Qed.

(** every state the loop goes through *)
Inductive sweeps : arrangeWork * sweep -> arrangeWork * sweep -> Prop :=
| sweeps_here s : sweeps s s
| sweeps_step current next rest st c st' s :
    work st = next :: rest -> arrange_step current next (st <| work := rest |>) = Ok (c, st') -> sweeps (c, st') s ->
    sweeps (current, st) s.

Lemma sweeps_indices current st c st' : sweeps (current, st) (c, st') ->
  NoDup (indices current (work st)) -> NoDup (indices c (work st')).
Proof.
  intros S. remember (current, st) as a eqn:A. remember (c, st') as b eqn:Hb. revert current st A.
  induction S as [s|current next rest st d sd s W E S IH]; intros x y A N; simplify_eq.
  - done.
  - apply (IH eq_refl d sd eq_refl). apply step_indices in E. rewrite W in N.
    apply submseteq_Permutation in E as [k K]. change (work (y <| work := rest |>)) with rest in K. rewrite K in N.
    by apply NoDup_app in N as [N _].
Qed.

(** the heap never holds two chapters that its order does not separate *)
Theorem pops_determined chapters ws current work c st :
  arrange_inputs 0 chapters = Ok ws -> heap_init ws = current :: work ->
  sweeps (current, mkSweep work [] []) (c, st) -> NoDup (indices c (SponsorArrange.work st)).
Proof.
  intros I H S. apply (sweeps_indices _ _ _ _ S). apply arrange_inputs_indices in I as [N _]. unfold indices.
  cbn [SponsorArrange.work]. rewrite <- H. unfold heap_init. by rewrite sorted_Permutation.
Qed.

(** ** The timeline that is left *)

(** each chapter starts where the one before ends *)
Fixpoint follows (a : float64) (chapters : list ArrangeChapter) : Prop :=
  match chapters with
  | [] => True
  | c :: rest => Arr_StartTime c = a /\ follows (Arr_EndTime c) rest
  end.

(** the same, last chapter first, up to [b] *)
Fixpoint laid_out (b : float64) (chapters : list ArrangeChapter) : Prop :=
  match chapters with
  | [] => b = f64_zero
  | c :: older => Arr_EndTime c = b /\ laid_out (Arr_StartTime c) older
  end.

Lemma follows_snoc a l c : follows a l -> default a (Arr_EndTime <$> last l) = Arr_StartTime c -> follows a (l ++ [c]).
Proof.
  revert a. induction l as [|x l IH]; intros a; simpl; [by intros _ <-|]. intros [? F] E. split; [done|].
  apply IH; [done|]. destruct l as [|y l]; [done|]. rewrite !last_cons in *. by destruct (last l).
Qed.

Lemma laid_out_follows b chapters : laid_out b chapters -> follows f64_zero (rev chapters).
Proof.
  revert b. induction chapters as [|c older IH]; intros b; [done|]. intros [_ L]. simpl. apply follows_snoc; [by eapply IH|].
  destruct older as [|p older]; simpl in *; [done|]. rewrite last_snoc. by destruct L.
Qed.

(** what the sweep puts out *)
Definition out_ok (out : list arrangeWork) : Prop := exists b, laid_out b (map chapter out).

Lemma appendChapter_ok c cuts out : out_ok out -> out_ok (appendChapter c cuts out).
Proof.
  intros [b L]. unfold appendChapter. cbv zeta. case_match; [by exists b|]. eexists. simpl. split; [reflexivity|].
  destruct out as [|w out]; simpl in *; [done|]. destruct L as [_ L]. split; [reflexivity|exact L].
Qed.

Lemma emit_ok c st : out_ok (out st) -> out_ok (out (emit_chapter c st)).
Proof. apply appendChapter_ok. Qed.

Lemma step_out current next st c st' : out_ok (out st) -> arrange_step current next st = Ok (c, st') -> out_ok (out st').
Proof.
  intros O. unfold arrange_step, finish_chapter, defer, remove_next, overlay_next, cut_inside. cbv zeta.
  intros E. repeat (case_match; try done); simplify_eq; try done; try by apply emit_ok.
Qed.

Lemma arrange_loop_out fuel current st st' :
  out_ok (out st) -> arrange_loop fuel current st = Some (Ok st') -> out_ok (out st').
Proof.
  revert current st. induction fuel as [|fuel IH]; intros current st O; cbn [arrange_loop]; destruct (work st) as [|next rest];
    try done; intros E; simplify_eq.
  - unfold finish_chapter. case_match; [done|]. by apply emit_ok.
  - unfold finish_chapter. case_match; [done|]. by apply emit_ok.
  - destruct (arrange_step current next _) as [[c s]|e] eqn:S; [|done]. eapply IH; [|exact E]. eapply step_out; [|exact S]. done.
Qed.

Lemma rename_chapter_laid renderer out c out' :
  laid_out (Arr_StartTime c) out -> rename_chapter renderer out c = Ok out' -> laid_out (Arr_EndTime c) out'.
Proof.
  intros L. unfold rename_chapter. cbv zeta. simpl Arr_Categories. case_match; [intros E; by simplify_eq|].
  destruct (renderChapterTitle renderer _) as [title|]; [|done]. cbn [mbind result_bind].
  destruct out as [|last older]; [intros E; by simplify_eq|]. case_match; intros E; simplify_eq; [|by split].
  destruct L as [_ L]. by split.
Qed.

Lemma rename_loop_laid renderer chapters : forall out w out',
  laid_out (w_start w) out -> follows (w_end w) (map chapter chapters) ->
  rename_loop renderer out w chapters = Ok out' -> exists b, laid_out b out'.
Proof.
  induction chapters as [|next rest IH]; intros out w out' L F; cbn [rename_loop]; cbv zeta.
  - assert (C : (o ← rename_chapter renderer out (chapter w); Ok o) = Ok out' -> exists b, laid_out b out').
    { destruct (rename_chapter renderer out (chapter w)) as [o|] eqn:R; [|done]. intros E. simplify_eq/=.
      eexists. by eapply rename_chapter_laid. }
    destruct (arrange_tiny w); [|exact C]. destruct out as [|previous older]; [exact C|].
    intros E. simplify_eq. destruct L as [_ L]. exists (w_end w). by split.
  - destruct F as [S F]. fold (w_start next) in S.
    assert (G : forall o, laid_out (w_end w) o -> rename_loop renderer o next rest = Ok out' -> exists b, laid_out b out').
    { intros o Lo. apply IH; [by rewrite S|done]. }
    assert (N : rename_loop renderer out (set_start (w_start w) next) rest = Ok out' -> exists b, laid_out b out').
    { by apply IH. }
    assert (C : (o ← rename_chapter renderer out (chapter w); rename_loop renderer o next rest) = Ok out' ->
      exists b, laid_out b out').
    { destruct (rename_chapter renderer out (chapter w)) as [o|] eqn:R; [|done]. apply G. by eapply rename_chapter_laid. }
    destruct (arrange_tiny w); [|exact C]. destruct out as [|previous older]; [exact N|].
    destruct (leans_next w previous next); [exact N|]. apply G. destruct L as [_ L]. by split.
Qed.

(** ** Inputs *)

Definition input_times (chapters : list ArrangeChapter) : list float64 :=
  concat (map (fun c => [Arr_StartTime c; Arr_EndTime c]) chapters).

(** the instant is in a chapter to be removed *)
Definition removed_in (chapters : list ArrangeChapter) (t : float64) : Prop :=
  Exists (fun c => Arr_Remove c = true /\ within t (Arr_StartTime c) (Arr_EndTime c)) chapters.

Lemma validate_ok c : validateArrangeChapter c = None ->
  f64_finite (Arr_StartTime c) = true /\ f64_finite (Arr_EndTime c) = true /\
  (f64_zero <= Arr_StartTime c)%float /\ (Arr_StartTime c < Arr_EndTime c)%float.
Proof.
  unfold validateArrangeChapter. case_match eqn:E; [done|]. intros _. reflect_bools. split_and!; [done|done|forder|forder].
Qed.

Lemma arrange_inputs_chapters i chapters ws : arrange_inputs i chapters = Ok ws ->
  map chapter ws = chapters /\ Forall (fun c => validateArrangeChapter c = None) chapters.
Proof.
  revert i ws. induction chapters as [|c rest IH]; intros i ws; simpl; [intros E; by simplify_eq|].
  destruct (validateArrangeChapter c) eqn:V; [intros E; discriminate E|]. cbn [check mbind result_bind].
  destruct (arrange_inputs (i + 1) rest) as [work|] eqn:R; [|intros E; discriminate E]. intros E. simplify_eq/=.
  destruct (IH _ _ R) as [<- ?]. split; [done|]. by constructor.
Qed.

Lemma inputs_ok chapters ws : map chapter ws = chapters -> Forall (fun c => validateArrangeChapter c = None) chapters ->
  Forall (item_ok (input_times chapters)) ws /\ Forall number (input_times chapters) /\
  length (input_times chapters) = (2 * length chapters)%nat.
Proof.
  intros E V. assert (T : forall c, c ∈ chapters -> Arr_StartTime c ∈ input_times chapters /\ Arr_EndTime c ∈ input_times chapters).
  { clear. unfold input_times. induction chapters as [|x l IH]; intros c C; [by apply elem_of_nil in C|].
    cbn [map concat]. rewrite !elem_of_app, !elem_of_cons. apply elem_of_cons in C as [->|C]; [tauto|]. destruct (IH c C). tauto. }
  split_and!.
  - apply Forall_forall. intros w W. assert (C : chapter w ∈ chapters) by (rewrite <- E; by apply list_elem_of_fmap_2).
    eapply Forall_forall in V; [|exact C]. apply validate_ok in V as (? & ? & ? & ?). destruct (T _ C). by constructor.
  - clear -V. unfold input_times. induction V as [|c l V F IH]; [constructor|]. cbn [map concat].
    apply validate_ok in V as (? & ? & _). constructor; [fnum|]. constructor; [fnum|]. exact IH.
  - clear. unfold input_times. induction chapters as [|c l IH]; simpl; [done|]. rewrite IH. lia.
Qed.

Lemma removing_inputs B ws t : Forall (item_ok B) ws -> f64_finite t = true ->
  removed_in (map chapter ws) t <-> removing t ws.
Proof.
  intros F T. unfold removed_in, removing. induction F as [|w ws [] F IH]; simpl; [by rewrite !Exists_nil|].
  rewrite !Exists_cons, IH. unfold w_remove, in_work. rewrite within_iff by fnum. done.
Qed.

Lemma removing_Permutation t ws ws' : Permutation ws ws' -> removing t ws -> removing t ws'.
Proof. unfold removing. by intros ->. Qed.

Lemma initial_inv chapters ws current work :
  map chapter ws = chapters -> Forall (fun c => validateArrangeChapter c = None) chapters ->
  heap_init ws = current :: work ->
  inv (input_times chapters) (removed_in chapters) current work [] /\
  (fuel_of (input_times chapters) (current :: work) <= arrange_fuel (length chapters))%nat.
Proof.
  intros E V H. destruct (inputs_ok chapters ws E V) as (I & N & L).
  pose proof (sorted_Permutation heap_less ws) as P. fold (heap_init ws) in P. rewrite H in P.
  pose proof (sort_sorted (item_ok (input_times chapters)) by_start heap_less _
    (heap_less_start _) (heap_less_after _) ws I) as S. fold (heap_init ws) in S. rewrite H in S. split.
  - constructor; try done.
    + by rewrite P.
    + by apply Forall_forall.
    + intros t T. rewrite Exists_nil. rewrite <- E, (removing_inputs (input_times chapters)) by done.
      split; [intros R; right; eapply removing_Permutation; [symmetry; exact P|exact R]|].
      intros [[]|R]. eapply removing_Permutation; [exact P|exact R].
  - rewrite (fuel_of_Permutation _ _ _ P). assert (length ws = length chapters) as W by (rewrite <- E; by rewrite length_map).
    assert (G : forall l, (fuel_of (input_times chapters) l <= length l * (2 * length chapters + 1))%nat).
    { unfold fuel_of. induction l as [|w l IH]; simpl; [done|].
      pose proof (rank_le (input_times chapters) (w_start w)). lia. }
    specialize (G ws). unfold arrange_fuel. rewrite W in G. lia.
Qed.

(** what the loop leaves for the last phase *)
Lemma arrange_run chapters ws current work : arrange_inputs 0 chapters = Ok ws -> heap_init ws = current :: work ->
  exists r, arrange_loop (arrange_fuel (length chapters)) current (mkSweep work [] []) = Some r /\
  match r with Ok st => cuts_done (removed_in chapters) (cuts st) /\ out_ok (out st) | Err _ => True end.
Proof.
  intros I H. destruct (arrange_inputs_chapters _ _ _ I) as [E V].
  destruct (initial_inv chapters ws current work E V H) as [J F]. destruct (inputs_ok chapters ws E V) as (_ & N & _).
  destruct (arrange_loop_done _ N _ _ current (mkSweep work [] []) J F) as (r & R & D). exists r. split; [done|].
  destruct r as [st|e]; [|done]. split; [done|]. eapply arrange_loop_out; [|exact R]. by exists f64_zero.
Qed.

Lemma renamed_follows renderer out chapters : out_ok out -> removeTinyRenameSponsors (rev out) renderer = Ok chapters ->
  follows f64_zero chapters.
Proof.
  intros [b L] R. apply laid_out_follows in L. rewrite <- map_rev in L. unfold removeTinyRenameSponsors in R.
  destruct (rev out) as [|w rest]; [by simplify_eq|]. destruct L as [S F].
  destruct (rename_loop renderer [] w rest) as [o|] eqn:E; simplify_eq/=.
  destruct (rename_loop_laid renderer rest [] w o S F E) as [b' L]. by eapply laid_out_follows.
Qed.

Lemma arrange_ends chapters renderer : exists r, ArrangeWithTitle chapters renderer = Some r.
Proof.
  unfold ArrangeWithTitle. destruct (maxArrangeChapters <? zlen chapters); [by eexists|].
  destruct (arrange_inputs 0 chapters) as [ws|e] eqn:I; [|by eexists].
  destruct (heap_init ws) as [|current work] eqn:H; [by eexists|].
  destruct (arrange_run _ _ _ _ I H) as (r & -> & _). destruct r; by eexists.
Qed.

(** what a result promises *)
Record arrangement (chapters : list ArrangeChapter) (result : ArrangeResult) : Prop := {
  arr_cuts : cuts_apart media_end (Result_Cuts result);
  arr_removed t : f64_finite t = true -> Exists (in_range t) (Result_Cuts result) <-> removed_in chapters t;
  arr_chapters : follows f64_zero (Result_Chapters result)
}.

Lemma arrange_arrangement chapters renderer result :
  ArrangeWithTitle chapters renderer = Some (Ok result) -> arrangement chapters result.
Proof.
  unfold ArrangeWithTitle. destruct (maxArrangeChapters <? zlen chapters); [done|].
  destruct (arrange_inputs 0 chapters) as [ws|e] eqn:I; [|done].
  destruct (heap_init ws) as [|current work] eqn:H.
  { intros R. simplify_eq/=. pose proof (sorted_Permutation heap_less ws) as P. fold (heap_init ws) in P. rewrite H in P.
    apply Permutation_nil in P as ->. apply arrange_inputs_chapters in I as [<- _].
    split; [done| |done]. intros t T. unfold removed_in. simpl. by rewrite !Exists_nil. }
  destruct (arrange_run _ _ _ _ I H) as (r & -> & D). destruct r as [st|e]; [|done]. destruct D as [[C D] O].
  unfold arranged. destruct (removeTinyRenameSponsors (rev (out st)) renderer) as [cs|] eqn:M; [|done].
  intros Q. simplify_eq/=. split; simpl; [by apply cuts_ok_apart| |by eapply renamed_follows].
  intros t T. rewrite (D t T), <- (Permutation_rev (cuts st)). done.
Qed.

(** ** Properties *)

(** C25. The sweep ends for any chapters, with an error or a result whose cuts are
    valid ranges in order and apart from each other; an instant is in one of them
    exactly when a chapter to be removed contains it, and the chapters that are
    left follow each other from 0 without gaps. *)
Theorem arrange_correct chapters renderer :
  exists r, ArrangeWithTitle chapters renderer = Some r /\
  match r with Ok result => arrangement chapters result | Err _ => True end.
Proof.
  destruct (arrange_ends chapters renderer) as [r R]. exists r. split; [done|].
  destruct r as [result|]; [by eapply arrange_arrangement|done].
Qed.

(** Two separate cuts in one chapter: the second replaces the index of the first,
    so that only the second is taken off the chapter.  It ends at 90 seconds, the
    media that is left at 80. *)
Theorem inner_cuts_overwritten :
  match Arrange [keep_chapter 0 100 (lit "A"); remove_chapter 10 20; remove_chapter 30 40] with
  | Some (Ok result) =>
      map Arr_EndTime (Result_Chapters result) = [seconds 90] /\
      Result_Cuts result = [mkRange (seconds 10) (seconds 20); mkRange (seconds 30) (seconds 40)]
  | _ => False
  end.
Proof. vm_compute. split; reflexivity. Qed.
